(* ===== verification/_CoqProject ===== *)
-Q . S2P
Prelude.v
Machine.v
Types.v
Wire.v
Sled.v
Storage.v
SledStore.v
Timing.v
Node.v
Engine.v
Concrete.v
Memory.v
StorageProps.v
Consensus.v
VoteSpec.v
LogSpec.v
Election.v
EngineSpec.v
Cluster.v
NodeProps.v
Raft.v
RaftLog.v
RaftSpec.v
RaftLead.v
Limits.v
Fsm.v
FsmSpec.v
FsmProps.v
FsmSnapshot.v
Text.v
Units.v
Rpc.v
ClientDisk.v
Client.v
Repl.v
Gateway.v
Ingress.v
ClientProps.v
ClientExample.v
Shell.v
Service.v
Rounds.v
ShellProps.v
ShellSnapshot.v
GatewayProps.v
ReplProps.v
IngressProps.v
Oracle.v
OracleProps.v
ServiceProps.v
QueryProps.v
RoundsProps.v
RaftTasks.v
RaftRuns.v
RaftCluster.v
RaftProps.v
RaftLedger.v
Boot.v
BootProps.v
RaftLacto.v
RaftExample.v
