(* ===== verification/Prelude.v ===== *)
(** * Verification of the lact-o-sensus replicated grocery ledger

    The program is a grocery inventory kept by a cluster of nodes.  A node is
    a Raft engine (src/crates/raft-engine) over a log in the embedded database
    sled, below a state machine (src/crates/lacto-fsm) that keeps the
    inventory, one session per client and a clinical clock in three more sled
    trees.  A client (src/crates/client-cli) numbers its intents, logs them
    and sends them to the gateway (src/crates/gateway) of the leader; the
    gateway asks an oracle, a language model behind src/crates/ai-veto, makes
    a physical mutation of the answer and proposes it.  The "Halt Mandate" of
    the code makes every violated invariant poison the node and panic.

    ** How the code is translated

    A computation is [st S E A = S -> result E A * S] (this file): it threads
    a state and returns a value or stops with an error, and the state
    survives the error, as it does behind [&mut self].  [wp] is its weakest
    precondition; every specification has a postcondition for the error
    path too.  u64 and u32 values are numbers of [N] with the checked, the
    saturating and the wrapping operations written out (Machine.v); bytes are
    numbers below 256.  Asynchronous code is cut at its locks and its awaits:
    every block that runs under a lock is one operation, and the operations
    interleave in any order; a handler that awaits takes what the other tasks
    do meanwhile as an argument, and a loop over a stream of replies takes the
    replies in the order of their arrival.  Log statements and spans are left
    out.  Trace ids are modelled where they decide something: in the headers
    of requests and answers.  An error keeps only the literal text of its
    message.

    ** The files, from the code's bottom to its top

    - Machine.v: integers, big-endian keys.  Types.v: identifiers, NodeId,
      errors (common/src/types).  Wire.v: the protobuf messages and their
      factories (common/proto, common/src/proto.rs); the encoding is the
      class [Message], with decoding after encoding as its law.
    - Sled.v: the database as a class [Sled] with its documented laws
      [SledLaws] and a concrete [MemSled].  Storage.v: the trait [LogStorage]
      as a class, the view a store holds, the promises [LogStorageLaws] and
      the implementation [SledStorage] (raft-engine/src/storage.rs);
      SledStore.v shows that it keeps the promises; StorageProps.v states
      what callers get: durability across crashes, exact truncation, no false
      corruption.  Memory.v: [MemoryStorage], the store of the code's unit
      tests, with the proof that scripts of writes read back the same from it
      and from any store that keeps the promises.
    - Timing.v: ticks, thresholds, loading and validating the configuration
      (tick.rs, config.rs).
      Node.v: the four roles (node/).  Engine.v: the logical node
      (engine.rs).  Consensus.v: elections, replication, commit rule and the
      tick loop's block (consensus/).  Concrete.v instantiates everything so
      that examples run.
    - VoteSpec.v, Election.v, EngineSpec.v, Cluster.v: election safety.
      Election.v is the abstract protocol; EngineSpec.v shows that every
      operation of the node, returning or halting, is a sequence of its
      steps; Cluster.v closes it over a network that loses, delays and
      repeats replies and nodes that crash and restart.
    - LogSpec.v: log reconciliation as a function on views, which the code
      refines; NodeProps.v: what the handlers and the commit rule guarantee.
      Limits.v: runs in which the code falls short of its intent.
    - Raft.v: the abstract replication protocol (terms, votes, logs, commit
      indices) and its invariant.  RaftLog.v, RaftSpec.v and RaftLead.v:
      every operation of the logical node, returning or halting, is a
      sequence of its steps.  RaftTasks.v: the cluster of shells, with one
      task per locked block of the code, everything issued kept for ever, and
      crashes and restarts through the cold boot.  RaftRuns.v: the rounds of
      Rounds.v and the applier of Shell.v are made of these tasks, so they
      stay within the cluster.  This cluster never compacts a log, so its runs
      are those without snapshots.  RaftCluster.v: a run of the cluster is a
      run of the protocol.  RaftProps.v: in these runs log matching, leader
      completeness, committed entries agree for ever, an acknowledged mutation
      lasts.  RaftLedger.v: every state machine of the cluster holds
      what the committed log yields, for any state machine that keeps the
      class [Ledger]; RaftLacto.v: [LactoStore] keeps it, so ledgers agree,
      and an acknowledged mutation is applied by every ledger that gets as far.
      RaftExample.v: a run of three nodes.
    - Fsm.v: [LactoStore] (lacto-fsm/src/lib.rs).  FsmSpec.v: the abstract
      step on maps and the refinement of [apply]; FsmProps.v: exactly-once,
      gap-free sessions, the clock, agreement; FsmSnapshot.v: snapshots, the
      restoration tombstone, snapshots that run ahead of their label.
    - Text.v: characters, slugs, categories (common/src/slug.rs,
      taxonomy.rs).  Units.v: the unit registry and conversions (units.rs).
      Rpc.v: request and answer headers, the interceptors of both sides
      (common-rpc, types/trace.rs, peer.rs, consensus/rpc.rs).
    - ClientDisk.v: the client's session file and intent log (state.rs,
      wal.rs).  Client.v: the connection, the retry loop, the commands and the
      recovery at start (client.rs, main.rs).  Repl.v: the interactive shell
      (repl.rs).  ClientProps.v, ClientExample.v and ReplProps.v: numbers are
      never reused, the log follows the outcome, recovery proposes what is
      pending and keeps what has no terminal answer, the leader is reached, the
      shell is a script, with runs at a concrete client.
    - Gateway.v: firewall, scrubber, oracle loop, stabilizer, proposer,
      dispatcher and queries (gateway/src/ingress).  Ingress.v: its service
      behind the interceptors, and a cluster of gateways as the network of a
      client.  GatewayProps.v: what is admitted is applied as new or skipped
      as a duplicate, what is stabilized is physical; QueryProps.v: a query
      shows the ledger that it reads after its awaits; IngressProps.v: what
      stands behind an answer that the client shows.
    - Oracle.v: the oracle service, its stand-in and the gateway's relay to
      them (ai-veto, mock-veto, gateway/src/veto.rs); OracleProps.v: what the
      leader accepts from it.
    - Shell.v: the write guard, freezes, permits, applier, compaction,
      snapshot installation, read probe (shell.rs, orchestration.rs,
      lifecycle.rs) and the cold boot (recovery.rs).  ShellProps.v and
      ShellSnapshot.v: their properties, down to the agreement of recovered
      replicas.
    - Service.v: the consensus service, the senders of the RPCs, the peer
      manager and the local handle (service/, peer.rs, orchestration.rs);
      ServiceProps.v: an RPC is the call of the remote handler, an
      acknowledged mutation is committed.  Rounds.v: campaigns, pre-vote
      campaigns, replication rounds and snapshot transfers over their streams
      of replies (consensus/); RoundsProps.v: a campaign is decided by its
      votes.
    - Boot.v: the identity of a data directory, the seed of a node's random
      generator and the start of a node (identity.rs,
      node-server/src/main.rs); BootProps.v: the identity never changes, a
      node starts on what its disk holds, seeds differ.

    ** Interfaces

    Outside the repository, each with a concrete instance: [Sled] /
    [SledLaws], [Message] / [MessageLaws] (protobuf), [RngExt] / [RngLaws],
    [UuidText], [Decimal] (rust_decimal), [UnicodeText], [HeaderText] (header
    values), [FileIO] and [JsonText] (the session file), [JsonBytes] (the
    identity record), [Shlex] and [Terminal].  Ollama and its JSON are [Llm].
    Between components: [LogStorage] / [LogStorageLaws] is the contract of
    the storage engine with the consensus code, discharged by SledStore.v and
    answered alike by the in-memory double of Memory.v;
    [StateMachine] that of the shell with the ledger; [ConsensusHandle] that
    of the gateway with the engine, implemented by [LocalRaftHandle] of
    Service.v; [VetoRelay] that of the gateway with the oracle, implemented
    by [relay_evaluate] of Oracle.v; [IngressNet] that of the client with the
    cluster, implemented by [gateway_network] of Ingress.v; [Ledger] that of
    the state machine with the cluster (RaftLedger.v), kept by [LactoStore]
    (RaftLacto.v) for a codec whose decoder yields values of the message's
    type ([decodes_typed]).

    ** Loops and bounds

    Loops over lists are structural, and so are the oracle loop and the
    client's retry loop, which count the retries that the code allows.  The
    applier's and the cold boot's loops take as fuel the distance between the
    applied and the commit index, which each turn shortens by one; their
    theorems show that the fuel is enough, since they end with the whole range
    applied.  The applier is modelled for a commit index that nobody moves
    meanwhile; a later signal starts it again.  The waits of the consensus
    handle run over the list of wake-ups; when it is used up the caller has
    timed out.  The interactive shell takes one turn per line and one more,
    and its theorem shows that they are enough.  Trimming a fence from a text
    is bounded by the length of the text, which each turn shortens.  Node and
    log indices are below 2^64 where the code's types say so.

    ** Not modelled

    Telemetry; the parsers of the configuration file and the command lines; opening
    databases and sockets, signals and the server loops; the time that passes
    in sleeps and timeouts (a timeout is an outcome); the text of the oracle's
    system prompt and its warm-up; the derived serde code; the doubles of the
    code's tests other than the log store.  Safety is proved for the
    whole cluster in runs without log compaction, so without snapshot
    transfers: the probe that precedes a transfer lets a follower commit its
    own uncommitted tail (probe_commits_stale_entry in Limits.v), so the
    cluster-wide theorems do not extend to the code as it is.  Election
    safety does not depend on it and holds with every task.  Compaction and
    installation are covered node by node (ShellSnapshot.v, FsmSnapshot.v). *)
From stdpp Require Export base gmap sets list strings numbers sorting pretty countable.
From Stdlib Require Export NArith Lia ZifyN ZifyNat ZifyBool.

#[global] Open Scope N_scope.
#[global] Set Warnings "-clear-no-such-hyp".

(** ** Results *)

(** Rust's [Result<A, E>]; the error type comes first so that [result E]
    is a monad. *)
Inductive result (E A : Type) : Type :=
| Ok (a : A)
| Err (e : E).
Arguments Ok {E A} _.
Arguments Err {E A} _.

#[global] Instance result_ret E : MRet (result E) := λ A a, Ok a.
#[global] Instance result_bind E : MBind (result E) := λ A B k m,
  match m with Ok a => k a | Err e => Err e end.
#[global] Instance result_fmap E : FMap (result E) := λ A B f m,
  match m with Ok a => Ok (f a) | Err e => Err e end.

(** [Result::map_err]. *)
Definition map_err {E F A} (f : E → F) (m : result E A) : result F A :=
  match m with Ok a => Ok a | Err e => Err (f e) end.

(** [Option::ok_or]. *)
Definition ok_or {E A} (e : E) (o : option A) : result E A :=
  match o with Some a => Ok a | None => Err e end.

(** [Result::ok]. *)
Definition ok {E A} (m : result E A) : option A :=
  match m with Ok a => Some a | Err _ => None end.

Definition is_ok {E A} (m : result E A) : bool :=
  match m with Ok _ => true | Err _ => false end.

(** [Option::transpose] on an optional fallible computation. *)
Definition transpose {E A} (o : option (result E A)) : result E (option A) :=
  match o with
  | None => Ok None
  | Some (Ok a) => Ok (Some a)
  | Some (Err e) => Err e
  end.

(** ** State and error

    [st S E A] is a computation that threads a state and may stop with an
    error.  The state survives the error: an operation that fails half way
    leaves behind the writes it has made, as [&mut self] and interior
    mutability do. *)
Definition st (S E A : Type) : Type := S → result E A * S.

#[global] Instance st_ret S E : MRet (st S E) := λ A a s, (Ok a, s).
#[global] Instance st_bind S E : MBind (st S E) := λ A B k m s,
  match m s with
  | (Ok a, s') => k a s'
  | (Err e, s') => (Err e, s')
  end.

Section st_ops.
Context {S E : Type}.

Definition st_get : st S E S := λ s, (Ok s, s).
Definition st_put (s' : S) : st S E unit := λ _, (Ok tt, s').
Definition st_modify (f : S → S) : st S E unit := λ s, (Ok tt, f s).
Definition st_gets {A} (f : S → A) : st S E A := λ s, (Ok (f s), s).
(** A read that may fail and never changes the state. *)
Definition st_reads {A} (f : S → result E A) : st S E A := λ s, (f s, s).
Definition st_fail {A} (e : E) : st S E A := λ s, (Err e, s).
(** [?] on a pure [Result]. *)
Definition st_lift {A} (r : result E A) : st S E A := λ s, (r, s).
End st_ops.

Definition st_map_err {S E F A} (f : E → F) (m : st S E A) : st S F A :=
  λ s, let '(r, s') := m s in (map_err f r, s').

(** Run a computation on a component of a larger state. *)
Definition st_zoom {S T E A} (g : T → S) (p : S → T → T) (m : st S E A) : st T E A :=
  λ t, let '(r, s') := m (g t) in (r, p s' t).

(** [Result] as a value: errors are returned to the caller, who decides. *)
Definition st_try {S E F A} (m : st S E A) : st S F (result E A) :=
  λ s, let '(r, s') := m s in (Ok r, s').

(** ** Weakest preconditions

    [wp m Q R s]: started in [s], [m] ends in [Q] when it returns and in
    [R] when it stops with an error. *)
Definition wp {S E A} (m : st S E A) (Q : A → S → Prop) (R : E → S → Prop) (s : S) : Prop :=
  match m s with
  | (Ok a, s') => Q a s'
  | (Err e, s') => R e s'
  end.

Section wp_rules.
Context {S E : Type}.

Lemma wp_ret {A} (a : A) (Q : A → S → Prop) (R : E → S → Prop) s :
  Q a s → wp (mret a) Q R s.
Proof. done. Qed.

Lemma wp_bind {A B} (m : st S E A) (k : A → st S E B) Q R s :
  wp m (λ a s', wp (k a) Q R s') R s → wp (m ≫= k) Q R s.
Proof. unfold wp, mbind, st_bind. by destruct (m s) as [[a|e] s']. Qed.

Lemma wp_mono {A} (m : st S E A) (Q Q' : A → S → Prop) (R R' : E → S → Prop) s :
  wp m Q R s → (∀ a s', Q a s' → Q' a s') → (∀ e s', R e s' → R' e s') → wp m Q' R' s.
Proof. unfold wp. destruct (m s) as [[a|e] s']; auto. Qed.

Lemma wp_get (Q : S → S → Prop) (R : E → S → Prop) s : Q s s → wp st_get Q R s.
Proof. done. Qed.
Lemma wp_put s' (Q : unit → S → Prop) (R : E → S → Prop) s : Q tt s' → wp (st_put s') Q R s.
Proof. done. Qed.
Lemma wp_modify f (Q : unit → S → Prop) (R : E → S → Prop) s :
  Q tt (f s) → wp (st_modify f) Q R s.
Proof. done. Qed.
Lemma wp_gets {A} (f : S → A) Q (R : E → S → Prop) s : Q (f s) s → wp (st_gets f) Q R s.
Proof. done. Qed.
Lemma wp_fail {A} (e : E) (Q : A → S → Prop) R s : R e s → wp (st_fail e) Q R s.
Proof. done. Qed.
Lemma wp_reads {A} (f : S → result E A) (Q : A → S → Prop) R s :
  (∀ a, f s = Ok a → Q a s) → (∀ e, f s = Err e → R e s) → wp (st_reads f) Q R s.
Proof. unfold wp, st_reads. destruct (f s); auto. Qed.
Lemma wp_lift {A} (r : result E A) (Q : A → S → Prop) R s :
  (∀ a, r = Ok a → Q a s) → (∀ e, r = Err e → R e s) → wp (st_lift r) Q R s.
Proof. unfold wp, st_lift. destruct r; auto. Qed.

Lemma wp_map_err {F A} (f : F → E) (m : st S F A) (Q : A → S → Prop) R s :
  wp m Q (λ e, R (f e)) s → wp (st_map_err f m) Q R s.
Proof. unfold wp, st_map_err. by destruct (m s) as [[a|e] s']. Qed.

Lemma wp_zoom {T A} (g : T → S) (p : S → T → T) (m : st S E A) Q R t :
  wp m (λ a s', Q a (p s' t)) (λ e s', R e (p s' t)) (g t) → wp (st_zoom g p m) Q R t.
Proof. unfold wp, st_zoom. by destruct (m (g t)) as [[a|e] s']. Qed.

Lemma wp_try {F A} (m : st S F A) (Q : result F A → S → Prop) (R : E → S → Prop) s :
  wp m (λ a s', Q (Ok a) s') (λ e s', Q (Err e) s') s → wp (st_try m) Q R s.
Proof. unfold wp, st_try. by destruct (m s) as [[a|e] s']. Qed.

(** A run that is known to return. *)
Lemma run_returns (m : st S E unit) s : is_ok (m s).1 = true → m s = (Ok tt, (m s).2).
Proof. by destruct (m s) as [[[]|] s']. Qed.

Lemma run_result {A} (m : st S E A) s r : (m s).1 = r → m s = (r, (m s).2).
Proof. intros <-. by destruct (m s). Qed.

(** The two readings of a run. *)
Lemma wp_run {A} (m : st S E A) Q R s r s' :
  wp m Q R s → m s = (r, s') →
  match r with Ok a => Q a s' | Err e => R e s' end.
Proof. unfold wp. intros H Heq. rewrite Heq in H. by destruct r. Qed.

Lemma wp_intro {A} (m : st S E A) (Q : A → S → Prop) (R : E → S → Prop) s :
  (∀ a s', m s = (Ok a, s') → Q a s') →
  (∀ e s', m s = (Err e, s') → R e s') → wp m Q R s.
Proof. unfold wp. destruct (m s) as [[a|e] s']; auto. Qed.

Lemma wp_and {A} (m : st S E A) (Q1 Q2 : A → S → Prop) (R1 R2 : E → S → Prop) s :
  wp m Q1 R1 s → wp m Q2 R2 s →
  wp m (λ a s', Q1 a s' ∧ Q2 a s') (λ e s', R1 e s' ∧ R2 e s') s.
Proof. unfold wp. by destruct (m s) as [[a|e] s']. Qed.
End wp_rules.

(** One step of symbolic execution: it stops at a call whose specification
    has to be chosen. *)
Ltac wp_step :=
  lazymatch goal with
  | |- wp (mbind _ _) _ _ _ => apply wp_bind
  | |- wp (mret _) _ _ _ => apply wp_ret
  | |- wp st_get _ _ _ => apply wp_get
  | |- wp (st_put _) _ _ _ => apply wp_put
  | |- wp (st_modify _) _ _ _ => apply wp_modify
  | |- wp (st_gets _) _ _ _ => apply wp_gets
  | |- wp (st_fail _) _ _ _ => apply wp_fail
  | |- wp (st_map_err _ _) _ _ _ => apply wp_map_err
  | |- wp (st_zoom _ _ _) _ _ _ => apply wp_zoom
  | |- wp (st_try _) _ _ _ => apply wp_try
  end.
Ltac wp_steps := repeat wp_step.

(** Use the specification [H] of the call in front. *)
Tactic Notation "wp_use" uconstr(H) := eapply wp_mono; [eapply H|cbn beta|cbn beta].

(** ** Hint databases

    [keeps]: operations that leave the hard state alone; [quiet]: operations
    of the logical node that neither grant nor count a vote. *)
Create HintDb keeps.
Create HintDb quiet.
