(* ===== verification/Machine.v ===== *)
(** Machine integers, bytes and their big-endian encoding: the part of
    Rust's standard library that the storage keys rely on. *)
From S2P Require Import Prelude.

(** ** u64 *)

Definition u64_modulus : N := 2 ^ 64.
Definition u64_max : N := u64_modulus - 1.
Definition u32_max : N := 2 ^ 32 - 1.

(** A value that fits [u64]. *)
Definition U64 (n : N) : Prop := n < u64_modulus.
#[global] Instance U64_dec n : Decision (U64 n) := decide (n < u64_modulus).
#[global] Arguments U64 : simpl never.

(** [u64::checked_add], [u64::checked_sub], [u64::saturating_sub],
    [u64::saturating_mul], [u64::wrapping_add] and [u64::wrapping_mul]. *)
Definition checked_add (a b : N) : option N :=
  if a + b <? u64_modulus then Some (a + b) else None.
Definition checked_sub (a b : N) : option N :=
  if b <=? a then Some (a - b) else None.
Definition saturating_sub (a b : N) : N := a - b.
Definition saturating_mul (a b : N) : N := N.min (a * b) u64_max.
Definition wrapping_add (a b : N) : N := (a + b) mod u64_modulus.
Definition wrapping_mul (a b : N) : N := (a * b) mod u64_modulus.
(** [u64::div_ceil]. *)
Definition div_ceil (a b : N) : N := (a + b - 1) / b.

Lemma checked_add_Some a b c : checked_add a b = Some c → c = a + b ∧ U64 c.
Proof. unfold checked_add, U64. destruct (N.ltb_spec (a + b) u64_modulus); intros [= <-]. lia. Qed.
Lemma checked_sub_Some a b c : checked_sub a b = Some c → c = a - b ∧ b ≤ a.
Proof. unfold checked_sub. destruct (N.leb_spec b a); intros [= <-]. lia. Qed.

(** ** Bytes *)

Abbreviation byte := N (only parsing).
Abbreviation bytes := (list N) (only parsing).

Definition is_byte (b : N) : Prop := b < 256.

(** [u64::to_be_bytes] is [be_bytes 8]. *)
Fixpoint be_bytes (k : nat) (n : N) : bytes :=
  match k with
  | O => []
  | S k' => be_bytes k' (n / 256) ++ [n mod 256]
  end.
Definition to_be_bytes (n : N) : bytes := be_bytes 8 n.

Definition be_value (l : bytes) : N := foldl (λ acc b, acc * 256 + b) 0 l.

(** [<[u8; 8]>::try_from(slice)] followed by [u64::from_be_bytes]. *)
Definition from_be_bytes (l : bytes) : option N :=
  if decide (length l = 8%nat) then Some (be_value l) else None.

(** The order of byte slices ([Ord for [u8]]), which is also sled's key
    order. *)
Fixpoint bytes_leb (l1 l2 : bytes) : bool :=
  match l1, l2 with
  | [], _ => true
  | _ :: _, [] => false
  | x :: l1', y :: l2' => (x <? y) || ((x =? y) && bytes_leb l1' l2')
  end.

Lemma be_value_snoc l b : be_value (l ++ [b]) = be_value l * 256 + b.
Proof. unfold be_value. by rewrite foldl_app. Qed.

Lemma be_value_bound l : Forall is_byte l → be_value l < 256 ^ N.of_nat (length l).
Proof.
  induction l as [|b l IH] using rev_ind; [done|].
  rewrite Forall_app, Forall_singleton. unfold is_byte. intros [Hl Hb].
  rewrite be_value_snoc, length_app, Nat2N.inj_add. simpl (N.of_nat (length [b])).
  rewrite N.pow_add_r, N.pow_1_r. specialize (IH Hl). nia.
Qed.

Lemma be_value_cons b l :
  be_value (b :: l) = b * 256 ^ N.of_nat (length l) + be_value l.
Proof.
  induction l as [|c l IH] using rev_ind; [cbn; lia|].
  rewrite app_comm_cons, !be_value_snoc, IH, length_app, Nat2N.inj_add.
  simpl (N.of_nat (length [c])). rewrite N.pow_add_r, N.pow_1_r. lia.
Qed.

Lemma length_be_bytes k n : length (be_bytes k n) = k.
Proof.
  revert n. induction k as [|k IH]; intros n; [done|].
  cbn [be_bytes]. rewrite length_app, IH. cbn. lia.
Qed.

Lemma be_bytes_is_byte k n : Forall is_byte (be_bytes k n).
Proof.
  revert n. induction k as [|k IH]; intros n; cbn; [constructor|].
  rewrite Forall_app, Forall_singleton. split; [done|]. by apply N.mod_lt.
Qed.

Lemma be_value_be_bytes k n : n < 256 ^ N.of_nat k → be_value (be_bytes k n) = n.
Proof.
  revert n. induction k as [|k IH]; intros n Hn.
  { cbn in *. lia. }
  cbn [be_bytes]. rewrite be_value_snoc.
  rewrite Nat2N.inj_succ, N.pow_succ_r' in Hn. rewrite IH.
  - rewrite N.mul_comm. symmetry. by apply N.div_mod.
  - apply N.Div0.div_lt_upper_bound. lia.
Qed.

(** Two encodings of the same length are ordered as their values. *)
Lemma bytes_leb_be_value l1 l2 :
  length l1 = length l2 → Forall is_byte l1 → Forall is_byte l2 →
  bytes_leb l1 l2 = (be_value l1 <=? be_value l2).
Proof.
  revert l2. induction l1 as [|x l1 IH]; intros [|y l2] Hlen H1 H2; try done.
  apply Forall_cons_iff in H1 as [Hx H1]. apply Forall_cons_iff in H2 as [Hy H2]. injection Hlen as Hlen.
  cbn [bytes_leb]. rewrite !be_value_cons, Hlen, (IH l2) by done.
  pose proof (be_value_bound l1 H1) as B1. pose proof (be_value_bound l2 H2) as B2.
  rewrite Hlen in B1. set (p := 256 ^ N.of_nat (length l2)) in *.
  destruct (N.ltb_spec x y) as [Hlt|Hge]; cbn.
  { symmetry. apply N.leb_le. nia. }
  destruct (N.eqb_spec x y) as [->|Hne]; cbn.
  { destruct (N.leb_spec (be_value l1) (be_value l2)); symmetry;
      [apply N.leb_le|apply N.leb_gt]; lia. }
  symmetry. apply N.leb_gt. nia.
Qed.

Lemma bytes_leb_total l1 l2 : bytes_leb l1 l2 ∨ bytes_leb l2 l1.
Proof.
  revert l2. induction l1 as [|x l1 IH]; intros [|y l2]; cbn; auto.
  destruct (N.ltb_spec x y), (N.ltb_spec y x), (N.eqb_spec x y), (N.eqb_spec y x);
    cbn; try lia; auto.
Qed.
Lemma bytes_leb_trans l1 l2 l3 : bytes_leb l1 l2 → bytes_leb l2 l3 → bytes_leb l1 l3.
Proof.
  revert l2 l3. induction l1 as [|x l1 IH]; intros [|y l2] [|z l3]; cbn; auto; [done|].
  rewrite !Is_true_true, !orb_true_iff, !andb_true_iff, !N.ltb_lt, !N.eqb_eq,
    <-!Is_true_true.
  intros [?|[-> ?]] [?|[-> ?]]; [left; lia|left; lia|left; lia|right; eauto].
Qed.
Lemma bytes_leb_antisym l1 l2 : bytes_leb l1 l2 → bytes_leb l2 l1 → l1 = l2.
Proof.
  revert l2. induction l1 as [|x l1 IH]; intros [|y l2]; cbn; try done.
  rewrite !Is_true_true, !orb_true_iff, !andb_true_iff, !N.ltb_lt, !N.eqb_eq,
    <-!Is_true_true.
  intros [?|[-> ?]] [?|[? ?]]; try lia. f_equal. auto.
Qed.

(** *** The u64 keys *)

Lemma length_to_be_bytes n : length (to_be_bytes n) = 8%nat.
Proof. apply length_be_bytes. Qed.

Lemma from_to_be_bytes n : U64 n → from_be_bytes (to_be_bytes n) = Some n.
Proof.
  intros Hn. unfold from_be_bytes. rewrite decide_True by apply length_to_be_bytes.
  f_equal. by apply be_value_be_bytes.
Qed.

Lemma to_be_bytes_inj a b : U64 a → U64 b → to_be_bytes a = to_be_bytes b → a = b.
Proof.
  intros Ha Hb Heq. apply from_to_be_bytes in Ha. apply from_to_be_bytes in Hb. rewrite Heq, Hb in Ha. by injection Ha.
Qed.

Lemma to_be_bytes_leb a b :
  U64 a → U64 b → bytes_leb (to_be_bytes a) (to_be_bytes b) = (a <=? b).
Proof.
  intros Ha Hb. unfold to_be_bytes.
  rewrite bytes_leb_be_value by (rewrite ?length_be_bytes; auto using be_bytes_is_byte).
  by rewrite !be_value_be_bytes.
Qed.

#[export] Hint Resolve length_to_be_bytes : core.

(** ** Strings

    A Rocq string is the sequence of its UTF-8 bytes. *)
Definition as_bytes (s : string) : bytes := Ascii.N_of_ascii <$> String.list_ascii_of_string s.

Lemma as_bytes_inj s1 s2 : as_bytes s1 = as_bytes s2 → s1 = s2.
Proof.
  unfold as_bytes. intros H.
  rewrite <-(String.string_of_list_ascii_of_string s1),
    <-(String.string_of_list_ascii_of_string s2). f_equal.
  revert H. generalize (String.list_ascii_of_string s1), (String.list_ascii_of_string s2).
  intros l1. induction l1 as [|a l1 IH]; intros [|b l2] H; try done.
  injection H as Hab H. f_equal; [|auto].
  by rewrite <-(Ascii.ascii_N_embedding a), Hab, Ascii.ascii_N_embedding.
Qed.

#[global] Arguments to_be_bytes : simpl never.
#[global] Arguments from_be_bytes : simpl never.
#[global] Arguments as_bytes : simpl never.
