(* ===== verification/Types.v ===== *)
(** The vocabulary of the [common] crate: monotonic identifiers with
    checked arithmetic, node identities and the error hierarchy of the Halt
    Mandate. *)
From Stdlib Require Import Ascii.
From S2P Require Import Prelude Machine.

(** ** Errors (common/src/types/errors.rs)

    An error that carries a formatted message keeps the literal text of its
    format string; the interpolated values are left out. *)

Inductive ArithmeticError : Type :=
| Overflow (type_name : string)
| Underflow (type_name : string).

Inductive NodeError : Type :=
| Physical (msg : string)
| NotLeader (leader_hint : option N)
| Protocol (msg : string)
| Integrity (msg : string)
| Arithmetic (e : ArithmeticError).

(** [NodeError::is_fatal]. *)
Definition is_fatal (e : NodeError) : bool :=
  match e with
  | Protocol _ | Integrity _ | Arithmetic _ => true
  | Physical _ | NotLeader _ => false
  end.

Inductive ConsensusError : Type :=
| CE_NotLeader
| CE_LeaderUnknown
| CE_CommitTimeout (index : N)
| CE_Timeout
| CE_Poisoned
| CE_Internal (msg : string)
| CE_Terminated.

Inductive LogStorageError : Type :=
| LS_Persistence (msg : string)
| LS_Serialization (msg : string)
| LS_Deserialization (msg : string)
| LS_Invariant (msg : string)
| LS_Arithmetic (e : ArithmeticError).

Inductive FsmError : Type :=
| Fsm_Persistence (msg : string)
| Fsm_Serialization (msg : string)
| Fsm_Deserialization (msg : string)
| Fsm_Invariant (msg : string)
| Fsm_Arithmetic (e : ArithmeticError)
| Fsm_Poisoned.

(** [impl From<LogStorageError> for NodeError]. *)
Definition node_error_of_storage (e : LogStorageError) : NodeError :=
  match e with
  | LS_Persistence msg => Physical msg
  | LS_Serialization msg => Integrity msg
  | LS_Deserialization msg => Integrity msg
  | LS_Invariant msg => Protocol msg
  | LS_Arithmetic e => Arithmetic e
  end.

(** [impl From<FsmError> for NodeError]. *)
Definition node_error_of_fsm (e : FsmError) : NodeError :=
  match e with
  | Fsm_Persistence msg => Physical msg
  | Fsm_Serialization msg => Integrity msg
  | Fsm_Deserialization msg => Integrity msg
  | Fsm_Invariant msg => Protocol msg
  | Fsm_Arithmetic e => Arithmetic e
  | Fsm_Poisoned => Protocol "State machine is poisoned"
  end.

Inductive ParseIntError : Type := PI_Empty | PI_InvalidDigit | PI_PosOverflow.

Inductive IdentityError : Type :=
| InvalidNodeIdFormat (input : string) (source : ParseIntError)
| ReservedNodeId
| EmptyClusterId
| InvalidClusterId (id : string)
| InvalidClientId (msg : string)
| InvalidTraceId (msg : string).

#[global] Instance ArithmeticError_eq_dec : EqDecision ArithmeticError.
Proof. solve_decision. Defined.
#[global] Instance NodeError_eq_dec : EqDecision NodeError.
Proof. solve_decision. Defined.
#[global] Instance ConsensusError_eq_dec : EqDecision ConsensusError.
Proof. solve_decision. Defined.
#[global] Instance LogStorageError_eq_dec : EqDecision LogStorageError.
Proof. solve_decision. Defined.
#[global] Instance FsmError_eq_dec : EqDecision FsmError.
Proof. solve_decision. Defined.

(** ** Monotonic identifiers (common/src/types/consensus.rs)

    [LogIndex], [Term] and [SequenceId] wrap a [u64]; the model uses [N] and
    writes out the checks. *)
Abbreviation LogIndex := N (only parsing).
Abbreviation Term := N (only parsing).
Abbreviation SequenceId := N (only parsing).
Abbreviation NodeId := N (only parsing).

(** [impl Add<u64>], instantiated at the name the macro receives. *)
Definition newtype_add (type_name : string) (a b : N) : result ArithmeticError N :=
  ok_or (Overflow type_name) (checked_add a b).

Definition index_add : N → N → result ArithmeticError N := newtype_add "LogIndex".
Definition term_add : N → N → result ArithmeticError N := newtype_add "Term".
Definition seq_add : N → N → result ArithmeticError N := newtype_add "SequenceId".

(** [impl Sub<u64> for LogIndex]. *)
Definition index_sub (a b : N) : result ArithmeticError N :=
  ok_or (Underflow "LogIndex") (checked_sub a b).

Lemma newtype_add_Ok name a b c : newtype_add name a b = Ok c → c = a + b ∧ U64 c.
Proof.
  unfold newtype_add. destruct (checked_add a b) eqn:H; [|done].
  intros [= <-]. by apply checked_add_Some.
Qed.
Lemma newtype_add_exact name a b : U64 (a + b) → newtype_add name a b = Ok (a + b).
Proof. intros H. unfold newtype_add, checked_add. by rewrite (proj2 (N.ltb_lt _ _) H). Qed.
Lemma index_sub_Ok a b c : index_sub a b = Ok c → c = a - b ∧ b ≤ a.
Proof.
  unfold index_sub. destruct (checked_sub a b) eqn:H; [|done].
  intros [= <-]. by apply checked_sub_Some.
Qed.

(** ** Decimal text

    [u64::to_string] is stdpp's [pretty]; [str::parse::<u64>] accepts one
    leading plus sign and stops at the first digit that is not one or
    overflows. *)
Definition to_decimal (n : N) : string := pretty n.

Definition digit_value (c : Ascii.ascii) : option N :=
  let n := Ascii.N_of_ascii c in
  if (48 <=? n) && (n <=? 57) then Some (n - 48) else None.

Fixpoint parse_digits (acc : N) (l : list Ascii.ascii) : result ParseIntError N :=
  match l with
  | [] => Ok acc
  | c :: l' =>
      match digit_value c with
      | None => Err PI_InvalidDigit
      | Some d =>
          if acc * 10 + d <? u64_modulus then parse_digits (acc * 10 + d) l'
          else Err PI_PosOverflow
      end
  end.

Definition parse_u64 (s : string) : result ParseIntError N :=
  match String.list_ascii_of_string s with
  | [] => Err PI_Empty
  | c :: l =>
      if Ascii.eqb c "+"%char then
        match l with [] => Err PI_InvalidDigit | _ => parse_digits 0 l end
      else parse_digits 0 (c :: l)
  end.

Lemma digit_value_char d : d < 10 → digit_value (pretty_N_char d) = Some d.
Proof.
  intros Hd.
  assert (d = 0 ∨ d = 1 ∨ d = 2 ∨ d = 3 ∨ d = 4 ∨ d = 5 ∨ d = 6 ∨ d = 7 ∨ d = 8 ∨ d = 9)
    as Hcases by lia.
  by destruct_or! Hcases; subst d.
Qed.

Lemma parse_digits_pretty_go x s :
  U64 x →
  parse_digits 0 (String.list_ascii_of_string (pretty_N_go x s))
  = parse_digits x (String.list_ascii_of_string s).
Proof.
  revert s. induction (N.lt_wf_0 x) as [x _ IH]. intros s Hx.
  destruct (decide (0 < x)) as [Hpos|Hzero].
  - rewrite pretty_N_go_step by done.
    assert (x / 10 < x) by (apply N.div_lt; lia).
    rewrite IH; [|done|unfold U64 in *; lia].
    cbn [String.list_ascii_of_string parse_digits].
    rewrite digit_value_char by (by apply N.mod_lt).
    assert (x / 10 * 10 + x mod 10 = x) as ->.
    { rewrite N.mul_comm. symmetry. by apply N.div_mod. }
    by rewrite (proj2 (N.ltb_lt _ _) Hx).
  - assert (x = 0) as -> by lia. done.
Qed.

Lemma pretty_go_cons x s :
  0 < x → ∃ d s', d < 10 ∧ pretty_N_go x s = String (pretty_N_char d) s'.
Proof.
  revert s. induction (N.lt_wf_0 x) as [x _ IH]. intros s Hpos.
  rewrite pretty_N_go_step by done.
  destruct (decide (0 < x / 10)) as [Hp|Hz].
  - apply IH; [apply N.div_lt; lia|done].
  - assert (x / 10 = 0) as -> by lia. rewrite pretty_N_go_0.
    eexists _, _. split; [|done]. by apply N.mod_lt.
Qed.

Lemma parse_to_decimal n : U64 n → parse_u64 (to_decimal n) = Ok n.
Proof.
  intros Hn. unfold parse_u64, to_decimal, pretty, pretty_N.
  destruct (decide (n = 0)) as [->|Hne]; [done|].
  destruct (pretty_go_cons n "" ltac:(lia)) as (d & s' & Hd & Heq).
  pose proof (parse_digits_pretty_go n "" Hn) as Hgo. rewrite Heq in Hgo |- *.
  cbn [String.list_ascii_of_string] in *.
  assert (Ascii.eqb (pretty_N_char d) "+" = false) as ->.
  { destruct (Ascii.eqb_spec (pretty_N_char d) "+"); [|done].
    assert (digit_value "+"%char = Some d); [|done].
    rewrite <-e. by apply digit_value_char. }
  by rewrite Hgo.
Qed.

Lemma to_decimal_nonempty n : to_decimal n ≠ "".
Proof.
  unfold to_decimal, pretty, pretty_N. destruct (decide (n = 0)); [done|].
  destruct (pretty_go_cons n "" ltac:(lia)) as (d & s' & _ & ->). done.
Qed.

(** ** Node identity (common/src/types/identity.rs) *)

(** [NodeId::try_new]: zero is reserved. *)
Definition NodeId_try_new (id : N) : result IdentityError NodeId :=
  if id =? 0 then Err ReservedNodeId else Ok id.

(** [impl FromStr for NodeId]. *)
Definition NodeId_from_str (s : string) : result IdentityError NodeId :=
  id ← map_err (InvalidNodeIdFormat s) (parse_u64 s);
  NodeId_try_new id.

(** A value of type [NodeId]: a non-zero [u64]. *)
Definition valid_node_id (id : NodeId) : Prop := id ≠ 0 ∧ U64 id.
#[global] Instance valid_node_id_dec id : Decision (valid_node_id id).
Proof. unfold valid_node_id. apply _. Defined.

Record NodeIdentity : Type := mkIdentity {
  cluster_id : string;
  node_id : NodeId;
}.
#[global] Instance NodeIdentity_eq_dec : EqDecision NodeIdentity.
Proof. solve_decision. Defined.

Lemma NodeId_from_str_valid s id : NodeId_from_str s = Ok id → id ≠ 0.
Proof.
  unfold NodeId_from_str, NodeId_try_new. cbn.
  destruct (parse_u64 s) as [n|]; cbn; [|done].
  destruct (N.eqb_spec n 0); intros [= <-]. done.
Qed.

(** The text that a vote is persisted as reads back as the same node. *)
Lemma NodeId_text_roundtrip id :
  valid_node_id id → NodeId_from_str (to_decimal id) = Ok id.
Proof.
  intros [Hne Hid]. unfold NodeId_from_str. rewrite parse_to_decimal by done. cbn.
  unfold NodeId_try_new. by rewrite (proj2 (N.eqb_neq _ _) Hne).
Qed.
