(* ===== verification/Wire.v ===== *)
(** The protobuf messages of the cluster (common/proto/raft.proto,
    common/proto/app.proto, lacto-fsm/proto) and their factories
    (common/src/proto.rs).  The byte encoding belongs to the prost library:
    it is an interface here, with a concrete codec to instantiate it. *)
From S2P Require Import Prelude Machine Types.

(** ** The encoding interface *)

Inductive DecodeError : Type := decode_error.

(** [prost::Message]. *)
Class Message (M : Type) : Type := {
  encode_to_vec : M → bytes;
  decode_msg : bytes → result DecodeError M;
}.

(** The fields hold values of their Rust types. *)
Class WireOk (M : Type) : Type := wire_ok : M → Prop.

(** What the code relies on: decoding an encoded message gives it back. *)
Class MessageLaws (M : Type) `{Message M, WireOk M} : Prop :=
  decode_encode_to_vec : ∀ m : M, wire_ok m → decode_msg (encode_to_vec m) = Ok m.

(** ** Consensus messages *)

Record LogEntry : Type := mkLogEntry {
  le_term : N;
  le_index : N;
  le_data : bytes;
}.

Definition LogEntry_new (index : LogIndex) (term : Term) (data : bytes) : LogEntry :=
  {| le_term := term; le_index := index; le_data := data |}.

Record HardState : Type := mkHardState { hs_term : N; hs_vote : string }.

(** [HardState::new]: no vote is the empty string. *)
Definition HardState_new (term : Term) (vote : option NodeId) : HardState :=
  {| hs_term := term;
     hs_vote := match vote with Some v => to_decimal v | None => "" end |}.

Record RequestVoteRequest : Type := mkRequestVoteRequest {
  rvq_term : N; rvq_candidate_id : string;
  rvq_last_log_index : N; rvq_last_log_term : N }.
Definition RequestVoteRequest_new (term : Term) (candidate_id : NodeId)
    (last_log_index : LogIndex) (last_log_term : Term) : RequestVoteRequest :=
  mkRequestVoteRequest term (to_decimal candidate_id) last_log_index last_log_term.

Record RequestVoteResponse : Type := mkRequestVoteResponse {
  rvr_term : N; rvr_vote_granted : bool }.
Definition RequestVoteResponse_new : Term → bool → RequestVoteResponse := mkRequestVoteResponse.

Record PreVoteRequest : Type := mkPreVoteRequest {
  pvq_term : N; pvq_candidate_id : string;
  pvq_last_log_index : N; pvq_last_log_term : N }.
Definition PreVoteRequest_new (term : Term) (candidate_id : NodeId)
    (last_log_index : LogIndex) (last_log_term : Term) : PreVoteRequest :=
  mkPreVoteRequest term (to_decimal candidate_id) last_log_index last_log_term.

Record PreVoteResponse : Type := mkPreVoteResponse {
  pvr_term : N; pvr_vote_granted : bool }.
Definition PreVoteResponse_new : Term → bool → PreVoteResponse := mkPreVoteResponse.

Record AppendEntriesRequest : Type := mkAppendEntriesRequest {
  aeq_term : N; aeq_leader_id : string;
  aeq_prev_log_index : N; aeq_prev_log_term : N;
  aeq_entries : list LogEntry; aeq_leader_commit : N }.
Definition AppendEntriesRequest_new (term : Term) (leader_id : NodeId)
    (prev_log_index : LogIndex) (prev_log_term : Term)
    (entries : list LogEntry) (leader_commit : LogIndex) : AppendEntriesRequest :=
  mkAppendEntriesRequest term (to_decimal leader_id) prev_log_index prev_log_term
    entries leader_commit.

Record AppendEntriesResponse : Type := mkAppendEntriesResponse {
  aer_term : N; aer_success : bool; aer_last_log_index : N }.
Definition AppendEntriesResponse_new : Term → bool → LogIndex → AppendEntriesResponse :=
  mkAppendEntriesResponse.

Record InstallSnapshotRequest : Type := mkInstallSnapshotRequest {
  isq_term : N; isq_leader_id : string;
  isq_last_included_index : N; isq_last_included_term : N; isq_data : bytes }.
Definition InstallSnapshotRequest_new (term : Term) (leader_id : NodeId)
    (last_included_index : LogIndex) (last_included_term : Term) (data : bytes)
    : InstallSnapshotRequest :=
  mkInstallSnapshotRequest term (to_decimal leader_id) last_included_index
    last_included_term data.

Record InstallSnapshotResponse : Type := mkInstallSnapshotResponse { isr_term : N }.
Definition InstallSnapshotResponse_new : Term → InstallSnapshotResponse :=
  mkInstallSnapshotResponse.

(** ** Application messages *)

(** [prost_types::Timestamp]. *)
Record Timestamp : Type := mkTimestamp { ts_seconds : Z; ts_nanos : Z }.
Definition Timestamp_default : Timestamp := mkTimestamp 0 0.

Inductive MutationStatus : Type := MS_Unspecified | MS_Committed | MS_Rejected | MS_Vetoed.
Definition MutationStatus_as_i32 (s : MutationStatus) : Z :=
  match s with MS_Unspecified => 0 | MS_Committed => 1 | MS_Rejected => 2 | MS_Vetoed => 3 end.
(** [MutationStatus::try_from(i32)]. *)
Definition MutationStatus_try_from (z : Z) : option MutationStatus :=
  if (z =? 0)%Z then Some MS_Unspecified else if (z =? 1)%Z then Some MS_Committed
  else if (z =? 2)%Z then Some MS_Rejected else if (z =? 3)%Z then Some MS_Vetoed else None.

Inductive OperationType : Type := OT_Unspecified | OT_Add | OT_Subtract | OT_Set | OT_Delete.
Definition OperationType_as_i32 (o : OperationType) : Z :=
  match o with OT_Unspecified => 0 | OT_Add => 1 | OT_Subtract => 2 | OT_Set => 3 | OT_Delete => 4 end.
Definition OperationType_try_from (z : Z) : option OperationType :=
  if (z =? 0)%Z then Some OT_Unspecified else if (z =? 1)%Z then Some OT_Add
  else if (z =? 2)%Z then Some OT_Subtract else if (z =? 3)%Z then Some OT_Set
  else if (z =? 4)%Z then Some OT_Delete else None.

Record GroceryItem : Type := mkGroceryItem {
  gi_item_key : string; gi_quantity : string; gi_unit : string; gi_category : string;
  gi_last_modifier_id : string; gi_last_activity : option Timestamp;
  gi_state_version : N; gi_display_unit : string }.

Definition GroceryItem_new (item_key quantity unit category last_modifier_id : string)
    (last_activity : Timestamp) (state_version : LogIndex) (display_unit : string)
    : GroceryItem :=
  mkGroceryItem item_key quantity unit category last_modifier_id (Some last_activity)
    state_version display_unit.

Record MutationIntent : Type := mkMutationIntent {
  mi_item_key : string; mi_quantity : option string; mi_unit : option string;
  mi_category : option string; mi_operation : Z }.
Definition MutationIntent_new (item_key : string) (quantity unit category : option string)
    (operation : OperationType) : MutationIntent :=
  mkMutationIntent item_key quantity unit category (OperationType_as_i32 operation).

Record CommittedMutation : Type := mkCommittedMutation {
  cm_resolved_item_key : string; cm_suggested_display_name : string;
  cm_updated_base_quantity : string; cm_base_unit : string; cm_display_unit : string;
  cm_updated_category : string; cm_client_id : string; cm_sequence_id : N;
  cm_raw_user_input : string; cm_moral_justification : string;
  cm_event_time : option Timestamp; cm_is_delete : bool; cm_status : Z }.

(** [CommittedMutation::new]; [now] is the clock's reading as a timestamp. *)
Definition CommittedMutation_new (client_id : string) (sequence_id : SequenceId)
    (resolved_item_key suggested_display_name updated_base_quantity base_unit display_unit
     updated_category raw_user_input moral_justification : string)
    (is_delete : bool) (status : MutationStatus) (now : Timestamp) : CommittedMutation :=
  mkCommittedMutation resolved_item_key suggested_display_name updated_base_quantity base_unit
    display_unit updated_category client_id sequence_id raw_user_input moral_justification
    (Some now) is_delete (MutationStatus_as_i32 status).

Record SessionRecord : Type := mkSessionRecord {
  sr_client_id : string; sr_last_sequence_id : N; sr_status : Z; sr_log_index : N;
  sr_moral_justification : string; sr_last_activity_effective_time : option Timestamp }.

(** [SessionRecord::new]; [client_id] is [ClientId::as_str]. *)
Definition SessionRecord_new (client_id : string) (last_sequence_id : SequenceId)
    (status : MutationStatus) (log_index : LogIndex) (moral_justification : string)
    (last_activity_effective_time : Timestamp) : SessionRecord :=
  mkSessionRecord client_id last_sequence_id (MutationStatus_as_i32 status) log_index
    moral_justification (Some last_activity_effective_time).

Record ProposeMutationRequest : Type := mkProposeMutationRequest {
  pmq_client_id : string; pmq_sequence_id : N; pmq_intent : option MutationIntent }.

Record ProposeMutationResponse : Type := mkProposeMutationResponse {
  pmr_status : Z; pmr_state_version : N; pmr_leader_hint : string; pmr_error_message : string }.

Definition ProposeMutationRequest_new (client_id : string) (sequence_id : SequenceId)
    (intent : MutationIntent) : ProposeMutationRequest :=
  mkProposeMutationRequest client_id sequence_id (Some intent).

Inductive QueryStatus : Type := QS_Unspecified | QS_Success | QS_Rejected | QS_Error.
Definition QueryStatus_as_i32 (s : QueryStatus) : Z :=
  match s with QS_Unspecified => 0 | QS_Success => 1 | QS_Rejected => 2 | QS_Error => 3 end.
Definition QueryStatus_try_from (z : Z) : option QueryStatus :=
  match z with
  | 0%Z => Some QS_Unspecified | 1%Z => Some QS_Success | 2%Z => Some QS_Rejected
  | 3%Z => Some QS_Error | _ => None
  end.

Record QueryStateRequest : Type := mkQueryStateRequest {
  qsq_query_filter : option string; qsq_min_state_version : option N }.
Definition QueryStateRequest_new : option string → option LogIndex → QueryStateRequest :=
  mkQueryStateRequest.
Record QueryStateResponse : Type := mkQueryStateResponse {
  qsr_items : list GroceryItem; qsr_current_state_version : N; qsr_status : Z;
  qsr_leader_hint : string; qsr_error_message : string }.

(** The messages of the oracle. *)
Record EvaluateProposalRequest : Type := mkEvaluateProposalRequest {
  epq_client_id : string; epq_intent : option MutationIntent;
  epq_current_inventory : list GroceryItem; epq_request_context : string }.
Definition EvaluateProposalRequest_new (client_id : string) (intent : MutationIntent)
    (current_inventory : list GroceryItem) (request_context : string) : EvaluateProposalRequest :=
  mkEvaluateProposalRequest client_id (Some intent) current_inventory request_context.
Record EvaluateProposalResponse : Type := mkEvaluateProposalResponse {
  epr_is_approved : bool; epr_category_assignment : string; epr_moral_justification : string;
  epr_resolved_item_key : string; epr_suggested_display_name : string;
  epr_resolved_unit : string; epr_conversion_multiplier_to_base : string }.

(** lacto-fsm/proto: the snapshot of the state machine. *)
Record SnapshotData : Type := mkSnapshotData {
  sd_inventory : list GroceryItem;
  sd_sessions : list SessionRecord;
  sd_last_effective_time : option Timestamp }.

(** ** Values of the field types *)

#[global] Instance LogEntry_ok : WireOk LogEntry := λ e,
  U64 (le_term e) ∧ U64 (le_index e) ∧ Forall is_byte (le_data e).
#[global] Instance HardState_ok : WireOk HardState := λ h, U64 (hs_term h).
#[global] Instance Timestamp_ok : WireOk Timestamp := λ t,
  (- 2 ^ 63 ≤ ts_seconds t < 2 ^ 63)%Z ∧ (- 2 ^ 31 ≤ ts_nanos t < 2 ^ 31)%Z.
Definition time_ok (o : option Timestamp) : Prop :=
  match o with Some t => wire_ok t | None => True end.
Definition i32_ok (z : Z) : Prop := (- 2 ^ 31 ≤ z < 2 ^ 31)%Z.
#[global] Instance GroceryItem_ok : WireOk GroceryItem := λ g,
  U64 (gi_state_version g) ∧ time_ok (gi_last_activity g).
#[global] Instance CommittedMutation_ok : WireOk CommittedMutation := λ m,
  U64 (cm_sequence_id m) ∧ time_ok (cm_event_time m) ∧ i32_ok (cm_status m).
#[global] Instance SessionRecord_ok : WireOk SessionRecord := λ r,
  U64 (sr_last_sequence_id r) ∧ U64 (sr_log_index r) ∧ i32_ok (sr_status r) ∧
  time_ok (sr_last_activity_effective_time r).
#[global] Instance SnapshotData_ok : WireOk SnapshotData := λ d,
  Forall wire_ok (sd_inventory d) ∧ Forall wire_ok (sd_sessions d) ∧
  time_ok (sd_last_effective_time d).

(** ** Decidable equality *)

#[global] Instance LogEntry_eq_dec : EqDecision LogEntry.
Proof. solve_decision. Defined.
#[global] Instance HardState_eq_dec : EqDecision HardState.
Proof. solve_decision. Defined.
#[global] Instance Timestamp_eq_dec : EqDecision Timestamp.
Proof. solve_decision. Defined.
#[global] Instance MutationStatus_eq_dec : EqDecision MutationStatus.
Proof. solve_decision. Defined.
#[global] Instance OperationType_eq_dec : EqDecision OperationType.
Proof. solve_decision. Defined.
#[global] Instance GroceryItem_eq_dec : EqDecision GroceryItem.
Proof. solve_decision. Defined.
#[global] Instance MutationIntent_eq_dec : EqDecision MutationIntent.
Proof. solve_decision. Defined.
#[global] Instance CommittedMutation_eq_dec : EqDecision CommittedMutation.
Proof. solve_decision. Defined.
#[global] Instance SessionRecord_eq_dec : EqDecision SessionRecord.
Proof. solve_decision. Defined.
#[global] Instance SnapshotData_eq_dec : EqDecision SnapshotData.
Proof. solve_decision. Defined.

(** ** A concrete codec

    Every countable type has one: the bits of its code, one per byte.  It is
    not the protobuf format; it shows that the interface can be met. *)
Module BitCodec.
Fixpoint pos_bits (p : positive) : bytes :=
  match p with
  | xH => []
  | xO p => 0 :: pos_bits p
  | xI p => 1 :: pos_bits p
  end.
Fixpoint bits_pos (l : bytes) : positive :=
  match l with
  | [] => xH
  | b :: l => if b =? 0 then xO (bits_pos l) else xI (bits_pos l)
  end.
Lemma bits_pos_bits p : bits_pos (pos_bits p) = p.
Proof. by induction p; cbn; congruence. Qed.

Definition codec (M : Type) `{Countable M} : Message M := {|
  encode_to_vec m := pos_bits (encode m);
  decode_msg l := ok_or decode_error (decode (bits_pos l));
|}.
Lemma codec_laws M `{Countable M, WireOk M} : @MessageLaws M (codec M) _.
Proof. intros m _. cbn. by rewrite bits_pos_bits, decode_encode. Qed.
End BitCodec.

#[global] Instance LogEntry_countable : Countable LogEntry.
Proof.
  by refine (inj_countable' (λ e, (le_term e, le_index e, le_data e))
    (λ '(t, i, d), mkLogEntry t i d) _); intros [].
Defined.
#[global] Instance HardState_countable : Countable HardState.
Proof.
  by refine (inj_countable' (λ h, (hs_term h, hs_vote h)) (λ '(t, v), mkHardState t v) _);
    intros [].
Defined.
#[global] Instance Timestamp_countable : Countable Timestamp.
Proof.
  by refine (inj_countable' (λ t, (ts_seconds t, ts_nanos t)) (λ '(s, n), mkTimestamp s n) _);
    intros [].
Defined.
(** The wide records go through a list of the codes of their fields: the
    code of a pair doubles in length with each nesting. *)
Ltac by_fields := intros []; cbn; rewrite ?decode_encode; done.

#[global] Instance GroceryItem_countable : Countable GroceryItem.
Proof.
  refine (inj_countable
    (λ g, [encode (gi_item_key g); encode (gi_quantity g); encode (gi_unit g);
           encode (gi_category g); encode (gi_last_modifier_id g); encode (gi_last_activity g);
           encode (gi_state_version g); encode (gi_display_unit g)])
    (λ l, match l with
          | [a; b; c; d; e; f; g; h] =>
              a ← decode a; b ← decode b; c ← decode c; d ← decode d;
              e ← decode e; f ← decode f; g ← decode g; h ← decode h;
              Some (mkGroceryItem a b c d e f g h)
          | _ => None
          end) _); abstract by_fields.
Defined.
#[global] Instance CommittedMutation_countable : Countable CommittedMutation.
Proof.
  refine (inj_countable
    (λ m, [encode (cm_resolved_item_key m); encode (cm_suggested_display_name m);
           encode (cm_updated_base_quantity m); encode (cm_base_unit m); encode (cm_display_unit m);
           encode (cm_updated_category m); encode (cm_client_id m); encode (cm_sequence_id m);
           encode (cm_raw_user_input m); encode (cm_moral_justification m);
           encode (cm_event_time m); encode (cm_is_delete m); encode (cm_status m)])
    (λ l, match l with
          | [a; b; c; d; e; f; g; h; i; j; k; x; y] =>
              a ← decode a; b ← decode b; c ← decode c; d ← decode d;
              e ← decode e; f ← decode f; g ← decode g; h ← decode h;
              i ← decode i; j ← decode j; k ← decode k; x ← decode x;
              y ← decode y;
              Some (mkCommittedMutation a b c d e f g h i j k x y)
          | _ => None
          end) _); abstract by_fields.
Defined.
#[global] Instance SessionRecord_countable : Countable SessionRecord.
Proof.
  refine (inj_countable
    (λ r, [encode (sr_client_id r); encode (sr_last_sequence_id r); encode (sr_status r);
           encode (sr_log_index r); encode (sr_moral_justification r);
           encode (sr_last_activity_effective_time r)])
    (λ l, match l with
          | [a; b; c; d; e; f] =>
              a ← decode a; b ← decode b; c ← decode c; d ← decode d;
              e ← decode e; f ← decode f;
              Some (mkSessionRecord a b c d e f)
          | _ => None
          end) _); abstract by_fields.
Defined.
#[global] Instance SnapshotData_countable : Countable SnapshotData.
Proof.
  refine (inj_countable
    (λ d, [encode (sd_inventory d); encode (sd_sessions d); encode (sd_last_effective_time d)])
    (λ l, match l with
          | [a; b; c] => a ← decode a; b ← decode b; c ← decode c;
              Some (mkSnapshotData a b c)
          | _ => None
          end) _); abstract by_fields.
Defined.
