(* ===== verification/Sled.v ===== *)
(** The embedded database [sled], as the storage engine and the state
    machine use it: named trees ordered by key bytes, atomic batches,
    cross-tree transactions and an explicit flush.  sled is not part of the
    repository: [Sled] is its interface, [SledLaws] the documented behaviour
    the code relies on, and [MemSled] a concrete database meeting it. *)
From S2P Require Import Prelude Machine.

Inductive SledError : Type := sled_error.

(** [sled::Batch]. *)
Inductive batch_op : Type :=
| BInsert (k v : bytes)
| BRemove (k : bytes).

Definition apply_op (m : gmap bytes bytes) (o : batch_op) : gmap bytes bytes :=
  match o with BInsert k v => <[k:=v]> m | BRemove k => delete k m end.
Definition apply_ops (m : gmap bytes bytes) (ops : list batch_op) : gmap bytes bytes :=
  foldl apply_op m ops.

Abbreviation trees := (gmap string (gmap bytes bytes)) (only parsing).
Definition tree_at (ts : trees) (t : string) : gmap bytes bytes := default ∅ (ts !! t).
Definition apply_tree_op (ts : trees) (o : string * batch_op) : trees :=
  <[o.1 := apply_op (tree_at ts o.1) o.2]> ts.
Definition apply_tree_ops (ts : trees) (ops : list (string * batch_op)) : trees :=
  foldl apply_tree_op ts ops.

Class Sled (D : Type) : Type := {
  sled_open_tree : string → st D SledError unit;
  sled_get : string → bytes → D → result SledError (option bytes);
  sled_last : string → D → result SledError (option (bytes * bytes));
  sled_iter : string → D → list (result SledError (bytes * bytes));
  sled_range : string → bytes → bytes → D → list (result SledError (bytes * bytes));
  sled_insert : string → bytes → bytes → st D SledError unit;
  sled_remove : string → bytes → st D SledError unit;
  sled_clear : string → st D SledError unit;
  sled_apply_batch : string → list batch_op → st D SledError unit;
  sled_transaction : list (string * batch_op) → st D SledError unit;
  sled_flush : st D SledError unit;
}.

(** An ascending listing of the keys of [m] that satisfy [P]. *)
Definition key_le (p q : bytes * bytes) : Prop := bytes_leb p.1 q.1.
#[global] Instance key_le_dec : RelDecision key_le.
Proof. intros p q. unfold key_le. apply _. Defined.
Definition lists (m : gmap bytes bytes) (P : bytes → Prop) (l : list (bytes * bytes)) : Prop :=
  StronglySorted key_le l ∧ NoDup l.*1 ∧ ∀ k v, (k, v) ∈ l ↔ m !! k = Some v ∧ P k.

(** A failed write leaves the old or the new contents behind; what is on disk
    lags behind what reads see and may catch up at any operation; a flush
    that returns makes them equal. *)
Class SledLaws (D : Type) `{Sled D} : Type := {
  sled_trees : D → trees;   (** what reads see *)
  sled_disk : D → trees;    (** what survives a crash *)
  disk_step (d d' : D) : Prop :=
    sled_disk d' = sled_disk d ∨ sled_disk d' = sled_trees d ∨ sled_disk d' = sled_trees d';
  sled_get_law t k d o :
    sled_get t k d = Ok o → o = tree_at (sled_trees d) t !! k;
  sled_last_law t d o :
    sled_last t d = Ok o →
    match o with
    | None => tree_at (sled_trees d) t = ∅
    | Some (k, v) =>
        tree_at (sled_trees d) t !! k = Some v ∧
        ∀ k', is_Some (tree_at (sled_trees d) t !! k') → bytes_leb k' k
    end;
  sled_iter_law t d l :
    sled_iter t d = Ok <$> l → lists (tree_at (sled_trees d) t) (λ _, True) l;
  sled_range_law t lo hi d l :
    sled_range t lo hi d = Ok <$> l →
    lists (tree_at (sled_trees d) t) (λ k, bytes_leb lo k ∧ bytes_leb k hi) l;
  (** Every pair a scan yields is in the tree, also when the scan fails
      later. *)
  sled_range_sound t lo hi d k v :
    Ok (k, v) ∈ sled_range t lo hi d → tree_at (sled_trees d) t !! k = Some v;
  sled_open_tree_law t d :
    wp (sled_open_tree t)
      (λ _ d', sled_trees d' = <[t := tree_at (sled_trees d) t]> (sled_trees d) ∧ disk_step d d')
      (λ _ d', sled_trees d' = sled_trees d ∧ disk_step d d') d;
  sled_insert_law t k v d :
    let ts := apply_tree_op (sled_trees d) (t, BInsert k v) in
    wp (sled_insert t k v) (λ _ d', sled_trees d' = ts ∧ disk_step d d')
      (λ _ d', (sled_trees d' = sled_trees d ∨ sled_trees d' = ts) ∧ disk_step d d') d;
  sled_remove_law t k d :
    let ts := apply_tree_op (sled_trees d) (t, BRemove k) in
    wp (sled_remove t k) (λ _ d', sled_trees d' = ts ∧ disk_step d d')
      (λ _ d', (sled_trees d' = sled_trees d ∨ sled_trees d' = ts) ∧ disk_step d d') d;
  sled_apply_batch_law t ops d :
    let ts := <[t := apply_ops (tree_at (sled_trees d) t) ops]> (sled_trees d) in
    wp (sled_apply_batch t ops) (λ _ d', sled_trees d' = ts ∧ disk_step d d')
      (λ _ d', (sled_trees d' = sled_trees d ∨ sled_trees d' = ts) ∧ disk_step d d') d;
  sled_transaction_law ops d :
    let ts := apply_tree_ops (sled_trees d) ops in
    wp (sled_transaction ops) (λ _ d', sled_trees d' = ts ∧ disk_step d d')
      (λ _ d', (sled_trees d' = sled_trees d ∨ sled_trees d' = ts) ∧ disk_step d d') d;
  sled_clear_law t d :
    wp (sled_clear t)
      (λ _ d', sled_trees d' = <[t := ∅]> (sled_trees d) ∧ disk_step d d')
      (λ _ d', (sled_trees d' = sled_trees d ∨
                ∃ m, m ⊆ tree_at (sled_trees d) t ∧
                     sled_trees d' = <[t := m]> (sled_trees d)) ∧ disk_step d d') d;
  sled_flush_law d :
    wp sled_flush (λ _ d', sled_trees d' = sled_trees d ∧ sled_disk d' = sled_trees d)
      (λ _ d', sled_trees d' = sled_trees d ∧ disk_step d d') d;
}.

(** [sled::open] after a crash: reads see what had reached the disk. *)
Definition sled_reopened {D} `{SledLaws D} (d d' : D) : Prop :=
  sled_trees d' = sled_disk d ∧ sled_disk d' = sled_disk d.

(** ** Trees *)

Lemma tree_at_insert_eq (ts : trees) t m : tree_at (<[t:=m]> ts) t = m.
Proof. unfold tree_at. by rewrite lookup_insert_eq. Qed.
Lemma tree_at_insert_ne (ts : trees) t t' m : t ≠ t' → tree_at (<[t:=m]> ts) t' = tree_at ts t'.
Proof. intros. unfold tree_at. by rewrite lookup_insert_ne. Qed.

Lemma lists_last m l k v :
  lists m (λ _, True) (l ++ [(k, v)]) →
  m !! k = Some v ∧ ∀ k', is_Some (m !! k') → bytes_leb k' k.
Proof.
  intros (Hsort & _ & Hin). split; [apply Hin, elem_of_app; right; by left|].
  intros k' [v' Hk']. assert ((k', v') ∈ l ++ [(k, v)]) as Hel by (by apply Hin).
  apply elem_of_app in Hel as [Hel|Hel].
  - apply list_elem_of_In, in_split in Hel as (l1 & l2 & ->).
    rewrite <-app_assoc in Hsort. cbn in Hsort.
    clear Hin Hk'. induction l1 as [|p l1 IH]; cbn in Hsort; apply StronglySorted_inv in Hsort as [Hs Hf]; auto.
    apply Forall_app in Hf as [_ Hf]. by apply Forall_cons_iff in Hf as [Hf _].
  - apply list_elem_of_singleton in Hel. injection Hel as -> ->.
    destruct (bytes_leb_total k k); done.
Qed.

(** ** A concrete database

    [ms_ok] says whether the disk answers. *)
Module MemSled.
Record db : Type := mkDb { ms_trees : trees; ms_disk : trees; ms_ok : bool }.

Definition empty : db := mkDb ∅ ∅ true.

Definition write (f : trees → trees) : st db SledError unit := λ d,
  if ms_ok d then (Ok tt, mkDb (f (ms_trees d)) (ms_disk d) true) else (Err sled_error, d).
Definition listing (m : gmap bytes bytes) : list (bytes * bytes) :=
  merge_sort key_le (map_to_list m).
Definition in_range (lo hi : bytes) (p : bytes * bytes) : bool :=
  bytes_leb lo p.1 && bytes_leb p.1 hi.

#[global] Instance mem_sled : Sled db := {|
  sled_open_tree t := write (λ ts, <[t := tree_at ts t]> ts);
  sled_get t k d := if ms_ok d then Ok (tree_at (ms_trees d) t !! k) else Err sled_error;
  sled_last t d :=
    if ms_ok d then Ok (list.last (listing (tree_at (ms_trees d) t))) else Err sled_error;
  sled_iter t d :=
    if ms_ok d then Ok <$> listing (tree_at (ms_trees d) t) else [Err sled_error];
  sled_range t lo hi d :=
    if ms_ok d
    then Ok <$> filter (λ p, in_range lo hi p) (listing (tree_at (ms_trees d) t))
    else [Err sled_error];
  sled_insert t k v := write (λ ts, apply_tree_op ts (t, BInsert k v));
  sled_remove t k := write (λ ts, apply_tree_op ts (t, BRemove k));
  sled_clear t := write (λ ts, <[t := ∅]> ts);
  sled_apply_batch t ops := write (λ ts, <[t := apply_ops (tree_at ts t) ops]> ts);
  sled_transaction ops := write (λ ts, apply_tree_ops ts ops);
  sled_flush := λ d,
    if ms_ok d then (Ok tt, mkDb (ms_trees d) (ms_trees d) true) else (Err sled_error, d);
|}.

#[local] Instance key_le_total : Total key_le.
Proof. intros p q. apply bytes_leb_total. Qed.
#[local] Instance key_le_trans : Transitive key_le.
Proof. intros p q r. apply bytes_leb_trans. Qed.

Lemma listing_lists m : lists m (λ _, True) (listing m).
Proof.
  unfold listing. split; [apply StronglySorted_merge_sort; apply _|]. split.
  - rewrite (merge_sort_Permutation key_le). apply NoDup_fst_map_to_list.
  - intros k v. rewrite (merge_sort_Permutation key_le), elem_of_map_to_list. tauto.
Qed.

Lemma StronglySorted_filter {A} (R : relation A) (P : A → Prop) `{∀ x, Decision (P x)} l :
  StronglySorted R l → StronglySorted R (filter P l).
Proof.
  induction 1 as [|x l Hl IH Hx]; [constructor|].
  rewrite filter_cons. destruct (decide (P x)); [|done].
  constructor; [done|]. apply Forall_forall. intros y Hy%list_elem_of_In%list_elem_of_filter.
  destruct Hy as [_ Hy%list_elem_of_In].
  by eapply Forall_forall in Hx.
Qed.

Lemma range_lists m lo hi :
  lists m (λ k, bytes_leb lo k ∧ bytes_leb k hi) (filter (λ p, in_range lo hi p) (listing m)).
Proof.
  destruct (listing_lists m) as (Hs & Hnd & Hin). split; [by apply StronglySorted_filter|].
  split.
  - eapply sublist_NoDup; [done|]. apply fmap_sublist, sublist_filter.
  - intros k v. rewrite list_elem_of_filter, Hin. unfold in_range. cbn.
    rewrite andb_True. tauto.
Qed.

Lemma fmap_Ok_inj {E A} (l1 l2 : list A) : (Ok (E:=E) <$> l1) = Ok <$> l2 → l1 = l2.
Proof.
  revert l2. induction l1 as [|a l1 IH]; intros [|b l2]; try done.
  intros [= -> H]. f_equal. auto.
Qed.

#[global] Program Instance mem_sled_laws : SledLaws db := {|
  sled_trees := ms_trees; sled_disk := ms_disk;
|}.
Next Obligation. intros t k d o. cbn. destruct (ms_ok d); congruence. Qed.
Next Obligation.
  intros t d o. cbn. destruct (ms_ok d); [|done]. intros [= <-].
  pose proof (listing_lists (tree_at (ms_trees d) t)) as Hl.
  destruct (listing _) as [|p l _] using rev_ind.
  - destruct Hl as (_ & _ & Hin). cbn. apply map_empty. intros k.
    apply eq_None_not_Some. intros [v Hv]. assert ((k, v) ∈ []) by (by apply Hin). set_solver.
  - rewrite list.last_snoc. destruct p. by apply lists_last in Hl.
Qed.
Next Obligation.
  intros t d l. cbn. destruct (ms_ok d).
  - intros <-%fmap_Ok_inj. apply listing_lists.
  - by destruct l.
Qed.
Next Obligation.
  intros t lo hi d l. cbn. destruct (ms_ok d).
  - intros <-%fmap_Ok_inj. apply range_lists.
  - by destruct l.
Qed.
Next Obligation.
  intros t lo hi d k v. cbn. destruct (ms_ok d); [|by intros ?%list_elem_of_singleton].
  intros (p & [= <-] & Hp)%list_elem_of_fmap.
  by destruct (proj1 (proj2 (proj2 (range_lists (tree_at (ms_trees d) t) lo hi)) k v) Hp).
Qed.
Next Obligation. intros t d. cbn. unfold wp, write. destruct (ms_ok d); cbn; auto. Qed.
Next Obligation. intros t k v d. cbn. unfold wp, write. destruct (ms_ok d); cbn; auto. Qed.
Next Obligation. intros t k d. cbn. unfold wp, write. destruct (ms_ok d); cbn; auto. Qed.
Next Obligation. intros t ops d. cbn. unfold wp, write. destruct (ms_ok d); cbn; auto. Qed.
Next Obligation. intros ops d. cbn. unfold wp, write. destruct (ms_ok d); cbn; auto. Qed.
Next Obligation. intros t d. cbn. unfold wp, write. destruct (ms_ok d); cbn; auto. Qed.
Next Obligation. intros d. cbn. unfold wp. destruct (ms_ok d); cbn; auto. Qed.

(** A crash and a restart. *)
Definition reopen (d : db) : db := mkDb (ms_disk d) (ms_disk d) true.
Lemma reopen_reopened d : sled_reopened d (reopen d).
Proof. done. Qed.
End MemSled.
