(* ===== verification/Storage.v ===== *)
(** The persistence layer (raft-engine/src/storage.rs): the trait
    [LogStorage] as an interface, the abstract view of what a store holds,
    and the sled implementation with its refinement of that view. *)
From S2P Require Import Prelude Machine Types Wire Sled.

(** ** The trait *)

Class LogStorage (S : Type) : Type := {
  current_term : S → result LogStorageError Term;
  voted_for : S → result LogStorageError (option NodeId);
  last_log_index : S → result LogStorageError LogIndex;
  last_log_term : S → result LogStorageError Term;
  last_committed : S → result LogStorageError LogIndex;
  read_entry : LogIndex → S → result LogStorageError (option LogEntry);
  read_entries : LogIndex → LogIndex → S → result LogStorageError (list LogEntry);
  save_hard_state : Term → option NodeId → st S LogStorageError unit;
  save_last_committed : LogIndex → st S LogStorageError unit;
  append_entries : list LogEntry → st S LogStorageError unit;
  append_entries_and_advance_commit : list LogEntry → LogIndex → st S LogStorageError unit;
  truncate_log : LogIndex → st S LogStorageError unit;
  truncate_log_front : LogIndex → st S LogStorageError unit;
  save_snapshot_metadata : LogIndex → Term → st S LogStorageError unit;
  last_included_index : S → result LogStorageError LogIndex;
  last_included_term : S → result LogStorageError Term;
}.

(** The inclusive range [a..=b]. *)
Definition u64_range (a b : N) : list N :=
  (λ k, a + N.of_nat k) <$> seq 0 (N.to_nat (b + 1 - a)).

Lemma elem_of_u64_range a b i : i ∈ u64_range a b ↔ a ≤ i ≤ b.
Proof.
  unfold u64_range. rewrite list_elem_of_fmap. split.
  - intros (k & -> & Hk%elem_of_seq). lia.
  - intros [Ha Hb]. exists (N.to_nat (i - a)). rewrite elem_of_seq. lia.
Qed.

(** ** What a store holds *)

Record LogView : Type := mkView {
  lv_term : Term;
  lv_vote : option NodeId;
  lv_committed : LogIndex;
  lv_snap_index : LogIndex;
  lv_snap_term : Term;
  lv_log : gmap N LogEntry;
}.

Definition empty_view : LogView := mkView 0 None 0 0 0 ∅.

Definition max_key (l : gmap N LogEntry) : N := map_fold (λ k _ acc, N.max k acc) 0 l.

(** The end of the log, the snapshot included. *)
Definition lv_last_index (v : LogView) : LogIndex :=
  N.max (max_key (lv_log v)) (lv_snap_index v).

(** The term the store reports for the end of the log: that of the last
    physical entry, wherever the snapshot is. *)
Definition lv_last_term (v : LogView) : Term :=
  match lv_log v !! max_key (lv_log v) with
  | Some e => if 0 <? le_term e then le_term e else lv_snap_term v
  | None => lv_snap_term v
  end.

Definition lv_range (v : LogView) (a b : LogIndex) : list LogEntry :=
  omap (λ i, lv_log v !! i) (u64_range a b).

Definition set_hard_state (t : Term) (o : option NodeId) (v : LogView) : LogView :=
  mkView t o (lv_committed v) (lv_snap_index v) (lv_snap_term v) (lv_log v).
Definition set_committed (i : LogIndex) (v : LogView) : LogView :=
  mkView (lv_term v) (lv_vote v) i (lv_snap_index v) (lv_snap_term v) (lv_log v).
Definition set_snapshot (i : LogIndex) (t : Term) (v : LogView) : LogView :=
  mkView (lv_term v) (lv_vote v) (lv_committed v) i t (lv_log v).
Definition set_log (l : gmap N LogEntry) (v : LogView) : LogView :=
  mkView (lv_term v) (lv_vote v) (lv_committed v) (lv_snap_index v) (lv_snap_term v) l.

Definition log_insert (l : gmap N LogEntry) (es : list LogEntry) : gmap N LogEntry :=
  foldl (λ l e, <[le_index e := e]> l) l es.
Definition log_below (i : LogIndex) (l : gmap N LogEntry) : gmap N LogEntry :=
  filter (λ p, p.1 < i) l.
Definition log_beyond (i : LogIndex) (l : gmap N LogEntry) : gmap N LogEntry :=
  filter (λ p, p.1 = 0 ∨ i < p.1) l.

Definition vote_ok (o : option NodeId) : Prop :=
  match o with Some n => valid_node_id n | None => True end.
#[global] Instance vote_ok_dec o : Decision (vote_ok o).
Proof. destruct o; apply _. Defined.

Definition log_ok (l : gmap N LogEntry) : Prop :=
  ∀ i e, l !! i = Some e → le_index e = i ∧ wire_ok e.

(** The fields hold values of their Rust types, every entry sits at its own
    index. *)
Record view_ok (v : LogView) : Prop := {
  vo_term : U64 (lv_term v);
  vo_vote : vote_ok (lv_vote v);
  vo_committed : U64 (lv_committed v);
  vo_snap_index : U64 (lv_snap_index v);
  vo_snap_term : U64 (lv_snap_term v);
  vo_log : log_ok (lv_log v);
}.

(** *** The greatest key of the log *)

Lemma max_key_insert_spec l :
  (∀ i, is_Some (l !! i) → i ≤ max_key l) ∧ (max_key l = 0 ∨ is_Some (l !! max_key l)).
Proof.
  unfold max_key.
  apply (map_fold_weak_ind (λ r l, (∀ i, is_Some (l !! i) → i ≤ r) ∧
    (r = 0 ∨ is_Some (l !! r)))); clear l.
  - split; [|by left]. intros i [? H]. by rewrite lookup_empty in H.
  - intros i e l r Hi [Hle Hin]. cbn beta. split.
    + intros j Hj. destruct (decide (j = i)) as [->|Hne]; [lia|].
      rewrite lookup_insert_ne in Hj by done. specialize (Hle j Hj). lia.
    + destruct (N.max_spec i r) as [[Hlt ->]|[Hlt ->]].
      * destruct Hin as [->|Hin]; [by left|right]. rewrite lookup_insert_ne by lia. done.
      * right. rewrite lookup_insert_eq. by eexists.
Qed.

Lemma max_key_upper l i : is_Some (l !! i) → i ≤ max_key l.
Proof. apply max_key_insert_spec. Qed.

Lemma max_key_eq l i :
  is_Some (l !! i) → (∀ j, is_Some (l !! j) → j ≤ i) → max_key l = i.
Proof.
  intros Hi Hle. pose proof (max_key_upper l i Hi) as Hge.
  destruct (proj2 (max_key_insert_spec l)) as [H0|Hin]; [lia|].
  specialize (Hle _ Hin). lia.
Qed.

Lemma max_key_None l : l !! max_key l = None → max_key l = 0.
Proof.
  intros He. destruct (proj2 (max_key_insert_spec l)) as [?|[e He']]; [done|congruence].
Qed.

Lemma lv_last_index_U64 v : view_ok v → U64 (lv_last_index v).
Proof.
  intros []. unfold lv_last_index.
  assert (U64 (max_key (lv_log v))); [|unfold U64 in *; lia].
  destruct (proj2 (max_key_insert_spec (lv_log v))) as [->|[e He]]; [done|].
  destruct (vo_log0 _ _ He) as [<- (_ & Hu & _)]. done.
Qed.

(** ** What the trait promises *)

Definition io_error (e : LogStorageError) : Prop := ∃ msg, e = LS_Persistence msg.

(** A read returns the view's value or reports the disk. *)
Definition reads_as {A} (r : result LogStorageError A) (a : A) : Prop :=
  match r with Ok b => b = a | Err e => io_error e end.

(** A write that returns has reached the disk; one that fails leaves one of
    the named views behind, and on disk one of them or what was there. *)
Class LogStorageLaws (S : Type) `{LogStorage S} : Type := {
  repr : S → LogView → Prop;
  durable : S → LogView → Prop;
  written (v : LogView) : unit → S → Prop := λ _ s, repr s v ∧ durable s v;
  failed (s0 : S) (vs : list LogView) : LogStorageError → S → Prop :=
    λ e s, io_error e ∧ (∃ v, v ∈ vs ∧ repr s v) ∧
      ∀ vd, durable s0 vd → ∃ vd', durable s vd' ∧ (vd' = vd ∨ vd' ∈ vs);
  (** The process restarts and opens the same files again. *)
  reopened : S → S → Prop;
  reopened_law s s' v : reopened s s' → durable s v → repr s' v ∧ durable s' v;
  repr_ok s v : repr s v → view_ok v;
  current_term_law s v : repr s v → reads_as (current_term s) (lv_term v);
  voted_for_law s v : repr s v → reads_as (voted_for s) (lv_vote v);
  last_log_index_law s v : repr s v → reads_as (last_log_index s) (lv_last_index v);
  last_log_term_law s v : repr s v → reads_as (last_log_term s) (lv_last_term v);
  last_committed_law s v : repr s v → reads_as (last_committed s) (lv_committed v);
  last_included_index_law s v :
    repr s v → reads_as (last_included_index s) (lv_snap_index v);
  last_included_term_law s v :
    repr s v → reads_as (last_included_term s) (lv_snap_term v);
  read_entry_law i s v : repr s v → U64 i → reads_as (read_entry i s) (lv_log v !! i);
  read_entries_law a b s v :
    repr s v → U64 a → U64 b → a ≠ 0 → reads_as (read_entries a b s) (lv_range v a b);
  save_hard_state_law t o s v :
    repr s v → U64 t → vote_ok o →
    let v' := set_hard_state t o v in
    wp (save_hard_state t o) (written v') (failed s [v; v']) s;
  save_last_committed_law i s v :
    repr s v → U64 i →
    let v' := set_committed i v in
    wp (save_last_committed i) (written v') (failed s [v; v']) s;
  append_entries_law es s v :
    repr s v → Forall wire_ok es →
    let v' := set_log (log_insert (lv_log v) es) v in
    wp (append_entries es) (written v') (failed s [v; v']) s;
  append_entries_and_advance_commit_law es i s v :
    repr s v → Forall wire_ok es → U64 i →
    let v' := set_log (log_insert (lv_log v) es) v in
    let v'' := set_committed i v' in
    wp (append_entries_and_advance_commit es i) (written v'') (failed s [v; v'; v'']) s;
  (** Truncating beyond the end returns at once, without a flush. *)
  truncate_log_law i s v :
    repr s v → U64 i →
    let v' := set_log (log_below i (lv_log v)) v in
    wp (truncate_log i) (λ _ s', repr s' v' ∧ (durable s' v' ∨ s' = s ∧ v' = v)) (failed s [v; v']) s;
  truncate_log_front_law i s v :
    repr s v → U64 i →
    let v' := set_log (log_beyond i (lv_log v)) v in
    wp (truncate_log_front i) (written v') (failed s [v; v']) s;
  save_snapshot_metadata_law i t s v :
    repr s v → U64 i → U64 t →
    let v' := set_snapshot i t v in
    wp (save_snapshot_metadata i t) (written v') (failed s [v; v']) s;
}.

(** ** The sled implementation *)

Module SledStorage.
Definition KEY_HARD_STATE : bytes := as_bytes "hard_state".
Definition KEY_LAST_COMMITTED : bytes := as_bytes "last_committed".
Definition KEY_SNAPSHOT_INDEX : bytes := as_bytes "snapshot_index".
Definition KEY_SNAPSHOT_TERM : bytes := as_bytes "snapshot_term".
Definition TREE_LOG : string := "log".
Definition TREE_META : string := "meta".

Section ops.
Context {D : Type} `{Sled D, Message LogEntry, Message HardState}.

Definition persistence {A} (msg : string) (m : result SledError A) :
    result LogStorageError A := map_err (λ _, LS_Persistence msg) m.
Definition persistent {A} (msg : string) (m : st D SledError A) :
    st D LogStorageError A := st_map_err (λ _, LS_Persistence msg) m.

(** [SledStorage::new]. *)
Definition new : st D LogStorageError unit :=
  _ ← persistent "Failed to open log tree" (sled_open_tree TREE_LOG);
  persistent "Failed to open meta tree" (sled_open_tree TREE_META).

Definition serialize_hard_state (term : Term) (vote : option NodeId) : bytes :=
  encode_to_vec (HardState_new term vote).

Definition deserialize_hard_state (data : bytes) :
    result LogStorageError (Term * option NodeId) :=
  hs ← map_err (λ _, LS_Deserialization "Failed to decode HardState") (decode_msg data);
  vote ← (if decide (hs_vote hs = "") then Ok None
          else Some <$> map_err (λ _, LS_Deserialization "Invalid NodeId in HardState")
                          (NodeId_from_str (hs_vote hs)));
  mret (hs_term hs, vote).

(** [<[u8; 8]>::try_from] on a stored value. *)
Definition u64_value (msg : string) (k : bytes) : result LogStorageError N :=
  ok_or (LS_Deserialization msg) (from_be_bytes k).

Definition decode_entry (msg : string) (v : bytes) : result LogStorageError LogEntry :=
  map_err (λ _, LS_Deserialization msg) (decode_msg v).

Definition current_term (d : D) : result LogStorageError Term :=
  o ← persistence "Failed to read hard_state" (sled_get TREE_META KEY_HARD_STATE d);
  opt ← transpose (deserialize_hard_state <$> o);
  mret (from_option fst 0 opt).

Definition voted_for (d : D) : result LogStorageError (option NodeId) :=
  o ← persistence "Failed to read hard_state" (sled_get TREE_META KEY_HARD_STATE d);
  opt ← transpose (deserialize_hard_state <$> o);
  mret (from_option snd None opt).

Definition last_included_index (d : D) : result LogStorageError LogIndex :=
  o ← persistence "Failed to read snapshot_index"
        (sled_get TREE_META KEY_SNAPSHOT_INDEX d);
  opt ← transpose (u64_value "snapshot_index byte conversion failed" <$> o);
  mret (default 0 opt).

Definition last_included_term (d : D) : result LogStorageError Term :=
  o ← persistence "Failed to read snapshot_term"
        (sled_get TREE_META KEY_SNAPSHOT_TERM d);
  opt ← transpose (u64_value "snapshot_term byte conversion failed" <$> o);
  mret (default 0 opt).

Definition last_log_index (d : D) : result LogStorageError LogIndex :=
  o ← persistence "Failed to read last log entry" (sled_last TREE_LOG d);
  opt ← transpose ((λ p, u64_value "LogIndex byte conversion failed" p.1) <$> o);
  snapshot_last ← last_included_index d;
  mret (N.max (default 0 opt) snapshot_last).

Definition last_log_term (d : D) : result LogStorageError Term :=
  o ← persistence "Failed to read last log entry" (sled_last TREE_LOG d);
  opt ← transpose ((λ p, decode_entry "Failed to decode last log entry" p.2) <$> o);
  let physical_last := from_option le_term 0 opt in
  if 0 <? physical_last then Ok physical_last else last_included_term d.

Definition last_committed (d : D) : result LogStorageError LogIndex :=
  o ← persistence "Failed to read last_committed"
        (sled_get TREE_META KEY_LAST_COMMITTED d);
  opt ← transpose (u64_value "last_committed byte conversion failed" <$> o);
  mret (default 0 opt).

Definition read_entry (index : LogIndex) (d : D) :
    result LogStorageError (option LogEntry) :=
  o ← persistence "Failed to read log entry" (sled_get TREE_LOG (to_be_bytes index) d);
  transpose (decode_entry "Failed to decode log entry" <$> o).

(** The loop of [read_entries]: it stops at the first failure. *)
Fixpoint collect_entries (l : list (result SledError (bytes * bytes))) :
    result LogStorageError (list LogEntry) :=
  match l with
  | [] => Ok []
  | res :: l' =>
      p ← persistence "Log iteration failure" res;
      e ← decode_entry "Failed to decode log entry" p.2;
      es ← collect_entries l';
      mret (e :: es)
  end.

Definition read_entries (start end_ : LogIndex) (d : D) :
    result LogStorageError (list LogEntry) :=
  if start =? 0 then
    Err (LS_Invariant "LogIndex is 1-indexed; range start cannot be 0")
  else if end_ <? start then Ok []
  else collect_entries (sled_range TREE_LOG (to_be_bytes start) (to_be_bytes end_) d).

Definition save_hard_state (term : Term) (vote : option NodeId) :
    st D LogStorageError unit :=
  _ ← persistent "Failed to persist hard_state"
        (sled_insert TREE_META KEY_HARD_STATE (serialize_hard_state term vote));
  persistent "Sled flush failure" sled_flush.

Definition save_last_committed (index : LogIndex) : st D LogStorageError unit :=
  _ ← persistent "Failed to persist last_committed"
        (sled_insert TREE_META KEY_LAST_COMMITTED (to_be_bytes index));
  persistent "Sled flush failure" sled_flush.

Definition entry_batch (entries : list LogEntry) : list batch_op :=
  (λ e, BInsert (to_be_bytes (le_index e)) (encode_to_vec e)) <$> entries.

Definition append_entries (entries : list LogEntry) : st D LogStorageError unit :=
  _ ← persistent "Failed to apply log append batch"
        (sled_apply_batch TREE_LOG (entry_batch entries));
  persistent "Sled flush failure after log append" sled_flush.

Definition append_entries_and_advance_commit (entries : list LogEntry)
    (commit_index : LogIndex) : st D LogStorageError unit :=
  _ ← persistent "Failed to apply log append batch"
        (sled_apply_batch TREE_LOG (entry_batch entries));
  _ ← persistent "Failed to persist last_committed"
        (sled_insert TREE_META KEY_LAST_COMMITTED (to_be_bytes commit_index));
  persistent "Sled flush failure" sled_flush.

Definition remove_batch (a b : N) : list batch_op :=
  (λ i, BRemove (to_be_bytes i)) <$> u64_range a b.

Definition truncate_log (index : LogIndex) : st D LogStorageError unit :=
  last_idx ← st_reads last_log_index;
  if last_idx <? index then mret tt
  else
    _ ← persistent "Failed to apply log truncation batch"
          (sled_apply_batch TREE_LOG (remove_batch index last_idx));
    persistent "Sled flush failure after log truncation" sled_flush.

Definition truncate_log_front (up_to_index : LogIndex) : st D LogStorageError unit :=
  _ ← persistent "Failed to apply front truncation batch"
        (sled_apply_batch TREE_LOG (remove_batch 1 up_to_index));
  persistent "Sled flush failure after front truncation" sled_flush.

Definition save_snapshot_metadata (last_included_index : LogIndex)
    (last_included_term : Term) : st D LogStorageError unit :=
  _ ← persistent "Failed to apply snapshot metadata batch"
        (sled_apply_batch TREE_META
           [BInsert KEY_SNAPSHOT_INDEX (to_be_bytes last_included_index);
            BInsert KEY_SNAPSHOT_TERM (to_be_bytes last_included_term)]);
  persistent "Sled flush failure" sled_flush.
End ops.
End SledStorage.

(** [impl LogStorage for SledStorage]. *)
#[global] Instance SledStorage_LogStorage D `{Sled D, Message LogEntry, Message HardState} :
    LogStorage D := {|
  current_term := SledStorage.current_term;
  voted_for := SledStorage.voted_for;
  last_log_index := SledStorage.last_log_index;
  last_log_term := SledStorage.last_log_term;
  last_committed := SledStorage.last_committed;
  read_entry := SledStorage.read_entry;
  read_entries := SledStorage.read_entries;
  save_hard_state := SledStorage.save_hard_state;
  save_last_committed := SledStorage.save_last_committed;
  append_entries := SledStorage.append_entries;
  append_entries_and_advance_commit := SledStorage.append_entries_and_advance_commit;
  truncate_log := SledStorage.truncate_log;
  truncate_log_front := SledStorage.truncate_log_front;
  save_snapshot_metadata := SledStorage.save_snapshot_metadata;
  last_included_index := SledStorage.last_included_index;
  last_included_term := SledStorage.last_included_term;
|}.
