(* ===== verification/SledStore.v ===== *)
(** The sled storage engine refines the abstract store: each operation of
    raft-engine/src/storage.rs reads or writes exactly the view's component,
    its writes are on disk when it returns, and a store that holds a view
    never reports corruption. *)
From S2P Require Import Prelude Machine Types Wire Sled Storage.

(** ** The contents of the two trees *)

Section repr.
Context `{!Message LogEntry, !Message HardState}.

(** The log tree holds each entry, encoded, under its big-endian index. *)
Record log_repr (m : gmap bytes bytes) (l : gmap N LogEntry) : Prop := {
  lr_keys k b : m !! k = Some b → ∃ i, U64 i ∧ k = to_be_bytes i;
  lr_lookup i : U64 i → m !! to_be_bytes i = encode_to_vec <$> l !! i;
  lr_ok : log_ok l;
}.

(** A number stored under a key; absent means zero. *)
Definition u64_at (m : gmap bytes bytes) (key : bytes) (n : N) : Prop :=
  U64 n ∧ (m !! key = Some (to_be_bytes n) ∨ m !! key = None ∧ n = 0).

Definition hard_state_at (m : gmap bytes bytes) (t : Term) (o : option NodeId) : Prop :=
  U64 t ∧ vote_ok o ∧
  (m !! SledStorage.KEY_HARD_STATE = Some (SledStorage.serialize_hard_state t o) ∨
   m !! SledStorage.KEY_HARD_STATE = None ∧ t = 0 ∧ o = None).

Record meta_repr (m : gmap bytes bytes) (v : LogView) : Prop := {
  mr_hard_state : hard_state_at m (lv_term v) (lv_vote v);
  mr_committed : u64_at m SledStorage.KEY_LAST_COMMITTED (lv_committed v);
  mr_snap_index : u64_at m SledStorage.KEY_SNAPSHOT_INDEX (lv_snap_index v);
  mr_snap_term : u64_at m SledStorage.KEY_SNAPSHOT_TERM (lv_snap_term v);
}.

Definition trees_repr (ts : trees) (v : LogView) : Prop :=
  log_repr (tree_at ts SledStorage.TREE_LOG) (lv_log v) ∧
  meta_repr (tree_at ts SledStorage.TREE_META) v.
End repr.

(** ** Reads *)

Lemma reads_as_bind {A B} (r : result LogStorageError A) (k : A → result LogStorageError B) a b :
  reads_as r a → reads_as (k a) b → reads_as (r ≫= k) b.
Proof. destruct r as [a'|e]; cbn; [by intros ->|done]. Qed.

Lemma reads_as_Ok {A} (a : A) : reads_as (Ok a) a.
Proof. done. Qed.

Lemma reads_as_persistence {A} msg (r : result SledError A) a :
  (∀ a', r = Ok a' → a' = a) → reads_as (SledStorage.persistence msg r) a.
Proof. destruct r as [a'|e]; cbn; [auto|]. intros _. by eexists. Qed.


(** *** Listings in index order *)

Definition index_lt (e1 e2 : LogEntry) : Prop := le_index e1 < le_index e2.

Lemma index_sorted_NoDup es : StronglySorted index_lt es → NoDup es.
Proof.
  induction 1 as [|e es Hs IH Hf]; constructor; [|done].
  intros Hin. eapply Forall_forall in Hf; [|by apply list_elem_of_In].
  unfold index_lt in Hf. lia.
Qed.

Lemma index_sorted_unique es1 es2 :
  StronglySorted index_lt es1 → StronglySorted index_lt es2 →
  (∀ e, e ∈ es1 ↔ e ∈ es2) → es1 = es2.
Proof.
  intros H1 H2 Heq. eapply (StronglySorted_unique_strong index_lt); [|done..|].
  - unfold index_lt. lia.
  - apply NoDup_Permutation; auto using index_sorted_NoDup.
Qed.

Lemma seq_sorted a n : StronglySorted lt (seq a n).
Proof.
  revert a. induction n as [|n IH]; intros a; cbn; constructor; [done|].
  apply List.Forall_forall. intros k Hk%in_seq. lia.
Qed.

Lemma u64_range_sorted a b : StronglySorted N.lt (u64_range a b).
Proof. apply (StronglySorted_fmap _ lt); [|apply seq_sorted]. intros x y ?. lia. Qed.

Lemma elem_of_lv_range v a b e :
  log_ok (lv_log v) →
  e ∈ lv_range v a b ↔ lv_log v !! le_index e = Some e ∧ a ≤ le_index e ≤ b.
Proof.
  intros Hok. unfold lv_range. rewrite list_elem_of_omap. split.
  - intros (i & Hi%elem_of_u64_range & He). by destruct (Hok i e He) as [-> _].
  - intros [He Hi]. exists (le_index e). by rewrite elem_of_u64_range.
Qed.

Lemma lv_range_sorted v a b :
  log_ok (lv_log v) → StronglySorted index_lt (lv_range v a b).
Proof.
  intros Hok. unfold lv_range. induction (u64_range_sorted a b) as [|i l Hl IH Hf]; [constructor|].
  cbn. destruct (lv_log v !! i) as [e|] eqn:He; [|done].
  constructor; [done|]. apply List.Forall_forall. intros e' He'%list_elem_of_In.
  apply list_elem_of_omap in He' as (j & Hj & He'). unfold index_lt.
  destruct (Hok _ _ He) as [-> _], (Hok _ _ He') as [-> _].
  eapply List.Forall_forall in Hf; [done|by apply list_elem_of_In].
Qed.

Section sled_reads.
Context {D : Type} `{SledLaws D} `{!Message LogEntry, !Message HardState}
  `{!MessageLaws LogEntry, !MessageLaws HardState}.
Implicit Types (m : gmap bytes bytes) (l : gmap N LogEntry) (d : D).

Lemma decode_hard_state t o :
  U64 t → vote_ok o →
  SledStorage.deserialize_hard_state (SledStorage.serialize_hard_state t o) = Ok (t, o).
Proof.
  intros Ht Ho. unfold SledStorage.deserialize_hard_state, SledStorage.serialize_hard_state.
  rewrite decode_encode_to_vec by done. cbn.
  destruct o as [n|]; cbn; [|done].
  rewrite decide_False by apply to_decimal_nonempty.
  by rewrite NodeId_text_roundtrip.
Qed.

Lemma sled_get_reads msg t k d o :
  tree_at (sled_trees d) t !! k = o →
  reads_as (SledStorage.persistence msg (sled_get t k d)) o.
Proof. intros <-. apply reads_as_persistence. intros a'. apply sled_get_law. Qed.

(** Reading a number back. *)
Lemma read_u64 msg1 msg2 key d n :
  u64_at (tree_at (sled_trees d) SledStorage.TREE_META) key n →
  reads_as
    (o ← SledStorage.persistence msg1 (sled_get SledStorage.TREE_META key d);
     opt ← transpose (SledStorage.u64_value msg2 <$> o);
     mret (default 0 opt)) n.
Proof.
  intros [Hn Hat]. eapply reads_as_bind; [by apply sled_get_reads|].
  destruct Hat as [->|[-> ->]]; cbn; [|done].
  unfold SledStorage.u64_value. by rewrite from_to_be_bytes.
Qed.

(** Reading the hard state back. *)
Lemma read_hard_state {A} (f : option (Term * option NodeId) → A) d t o :
  hard_state_at (tree_at (sled_trees d) SledStorage.TREE_META) t o →
  f None = f (Some (0, None)) →
  reads_as
    (o ← SledStorage.persistence "Failed to read hard_state"
           (sled_get SledStorage.TREE_META SledStorage.KEY_HARD_STATE d);
     opt ← transpose (SledStorage.deserialize_hard_state <$> o);
     mret (f opt)) (f (Some (t, o))).
Proof.
  intros (Ht & Ho & Hat) Hf. eapply reads_as_bind; [by apply sled_get_reads|].
  destruct Hat as [->|(-> & -> & ->)]; cbn; [|done].
  by rewrite decode_hard_state.
Qed.

Lemma log_repr_entry m l i e :
  log_repr m l → l !! i = Some e → U64 i ∧ m !! to_be_bytes i = Some (encode_to_vec e).
Proof.
  intros Hr Hi. destruct (lr_ok _ _ Hr i e Hi) as [<- (_ & Hu & _)].
  split; [done|]. rewrite (lr_lookup _ _ Hr) by done. by rewrite Hi.
Qed.

Lemma log_repr_key m l k b :
  log_repr m l → m !! k = Some b →
  ∃ i e, U64 i ∧ k = to_be_bytes i ∧ l !! i = Some e ∧ b = encode_to_vec e ∧
         le_index e = i ∧ wire_ok e.
Proof.
  intros Hr Hk. destruct (lr_keys _ _ Hr k b Hk) as (i & Hi & ->).
  rewrite (lr_lookup _ _ Hr) in Hk by done.
  destruct (l !! i) as [e|] eqn:He; [|done]. injection Hk as <-.
  destruct (lr_ok _ _ Hr i e He). by exists i, e.
Qed.

(** The last pair of the log tree is the entry with the greatest index. *)
Lemma sled_last_reads msg d l :
  log_repr (tree_at (sled_trees d) SledStorage.TREE_LOG) l →
  reads_as (SledStorage.persistence msg (sled_last SledStorage.TREE_LOG d))
    ((λ e, (to_be_bytes (max_key l), encode_to_vec e)) <$> l !! max_key l).
Proof.
  intros Hr. apply reads_as_persistence. intros o Ho%sled_last_law.
  destruct o as [[k b]|].
  - destruct Ho as [Hk Hmax].
    destruct (log_repr_key _ _ _ _ Hr Hk) as (i & e & Hi & -> & He & -> & _).
    assert (max_key l = i) as ->; [|by rewrite He].
    apply max_key_eq; [by eexists|]. intros j [e' Hj].
    destruct (log_repr_entry _ _ _ _ Hr Hj) as [Hj64 Hjm].
    specialize (Hmax (to_be_bytes j) (ex_intro _ _ Hjm)).
    rewrite to_be_bytes_leb in Hmax by done. by apply N.leb_le, Is_true_true.
  - destruct (l !! max_key l) as [e|] eqn:He; [|done].
    destruct (log_repr_entry _ _ _ _ Hr He) as [_ Hm].
    by rewrite Ho, lookup_empty in Hm.
Qed.

Lemma max_key_U64 m l : log_repr m l → U64 (max_key l).
Proof.
  intros Hr. destruct (proj2 (max_key_insert_spec l)) as [->|[e He]]; [done|].
  by apply (log_repr_entry _ _ _ _ Hr He).
Qed.

(** [p] is the stored form of the entry [e] of the log. *)
Definition pair_of l (p : bytes * bytes) (e : LogEntry) : Prop :=
  p = (to_be_bytes (le_index e), encode_to_vec e) ∧
  l !! le_index e = Some e ∧ U64 (le_index e).

(** Decoding a scan of the log tree. *)
Lemma collect_entries_reads m l rs :
  log_repr m l →
  (∀ k b, Ok (k, b) ∈ rs → m !! k = Some b) →
  match SledStorage.collect_entries rs with
  | Ok es => ∃ ps, rs = Ok <$> ps ∧ Forall2 (pair_of l) ps es
  | Err e => io_error e
  end.
Proof.
  intros Hr. induction rs as [|[[k b]|er] rs IH]; intros Hin; cbn.
  - by exists [].
  - destruct (log_repr_key m l k b Hr) as (i & e & Hi & -> & He & -> & <- & Hok).
    { apply Hin. by left. }
    unfold SledStorage.decode_entry. rewrite decode_encode_to_vec by done. cbn.
    specialize (IH (λ k b H, Hin k b (list_elem_of_further _ _ _ H))).
    destruct (SledStorage.collect_entries rs) as [es|e']; cbn; [|done].
    destruct IH as (ps & -> & Hps).
    exists ((to_be_bytes (le_index e), encode_to_vec e) :: ps). by repeat constructor.
  - by eexists.
Qed.

Lemma pairs_sorted l ps es :
  Forall2 (pair_of l) ps es → StronglySorted key_le ps → NoDup ps.*1 →
  StronglySorted index_lt es.
Proof.
  induction 1 as [|p e ps es (-> & _ & He) Hps IH]; [constructor|].
  intros [Hf Hs]%StronglySorted_cons [Hnin Hnd]%list.NoDup_cons. constructor; [auto|].
  clear IH Hs Hnd. induction Hps as [|p' e' ps es (-> & _ & He') _ IH]; [constructor|].
  apply Forall_cons_iff in Hf as [Hle Hf]. cbn in Hnin. constructor.
  - unfold key_le in Hle. cbn in Hle. rewrite to_be_bytes_leb in Hle by done.
    apply Is_true_true, N.leb_le in Hle. unfold index_lt.
    destruct (decide (le_index e = le_index e')) as [Heq|]; [|lia].
    exfalso. apply Hnin. rewrite Heq. by left.
  - apply IH; [done|]. intros Hel. apply Hnin. by right.
Qed.

Lemma read_entries_reads a b d v :
  log_repr (tree_at (sled_trees d) SledStorage.TREE_LOG) (lv_log v) →
  U64 a → U64 b → a ≠ 0 →
  reads_as (SledStorage.read_entries a b d) (lv_range v a b).
Proof.
  intros Hr Ha Hb Ha0. unfold SledStorage.read_entries.
  rewrite (proj2 (N.eqb_neq _ _) Ha0). destruct (N.ltb_spec b a) as [Hlt|Hge].
  { cbn. unfold lv_range, u64_range.
    by replace (N.to_nat (b + 1 - a)) with 0%nat by lia. }
  set (rs := sled_range _ _ _ d).
  pose proof (collect_entries_reads _ _ rs Hr) as Hc.
  destruct (SledStorage.collect_entries rs) as [es|e]; cbn.
  2: { apply Hc. intros k c. apply sled_range_sound. }
  destruct Hc as (ps & Hps & Hall). { intros k c. apply sled_range_sound. }
  apply sled_range_law in Hps as (Hs & Hnd & Hin).
  apply index_sorted_unique; [by eapply pairs_sorted|by apply lv_range_sorted, Hr|].
  intros e. rewrite elem_of_lv_range by apply Hr. split.
  - intros (i & He)%list_elem_of_lookup.
    destruct (Forall2_lookup_r _ _ _ _ _ Hall He) as (p & Hp & -> & Hl & Hu).
    apply list_elem_of_lookup_2, Hin in Hp as (_ & H1 & H2).
    rewrite to_be_bytes_leb in H1, H2 by done.
    apply Is_true_true, N.leb_le in H1. apply Is_true_true, N.leb_le in H2. done.
  - intros [Hl [H1 H2]].
    destruct (log_repr_entry _ _ _ _ Hr Hl) as [Hu Hm].
    assert ((to_be_bytes (le_index e), encode_to_vec e) ∈ ps) as Hp.
    { apply Hin. rewrite !to_be_bytes_leb by done.
      split_and!; [done|apply Is_true_true, N.leb_le; done..]. }
    apply list_elem_of_lookup in Hp as (i & Hp).
    destruct (Forall2_lookup_l _ _ _ _ _ Hall Hp) as (e' & He' & Heq & Hl' & Hu').
    apply (f_equal fst) in Heq. cbn in Heq.
    apply to_be_bytes_inj in Heq; [|done..]. rewrite Heq in Hl. simplify_eq.
    by apply list_elem_of_lookup_2 in He'.
Qed.
End sled_reads.

(** ** Writes *)

Definition log_remove (l : gmap N LogEntry) (ids : list N) : gmap N LogEntry :=
  foldl (λ l i, delete i l) l ids.

Lemma lookup_log_remove l ids j :
  log_remove l ids !! j = if decide (j ∈ ids) then None else l !! j.
Proof.
  unfold log_remove. revert l. induction ids as [|i ids IH]; intros l; cbn.
  { by rewrite decide_False by apply not_elem_of_nil. }
  rewrite IH. destruct (decide (j ∈ ids)) as [Hin|Hnin].
  { by rewrite decide_True by by right. }
  destruct (decide (j = i)) as [->|Hne].
  - by rewrite lookup_delete_eq, decide_True by by left.
  - rewrite lookup_delete_ne, decide_False; [done| |done].
    by intros [?|?]%elem_of_cons.
Qed.

Lemma log_below_remove l i last :
  (∀ j, is_Some (l !! j) → j ≤ last) → log_remove l (u64_range i last) = log_below i l.
Proof.
  intros Hle. apply map_eq. intros j. rewrite lookup_log_remove. unfold log_below.
  destruct (l !! j) as [e|] eqn:He.
  - specialize (Hle j (ex_intro _ _ He)). case_decide as Hin.
    + apply elem_of_u64_range in Hin. symmetry. apply map_lookup_filter_None_2. right.
      intros e' _. cbn. lia.
    + symmetry. apply map_lookup_filter_Some_2; [done|]. cbn.
      rewrite elem_of_u64_range in Hin. lia.
  - symmetry. transitivity (None (A:=LogEntry)); [apply map_lookup_filter_None_2; by left|].
    by case_decide.
Qed.

Lemma log_beyond_remove l i : log_remove l (u64_range 1 i) = log_beyond i l.
Proof.
  apply map_eq. intros j. rewrite lookup_log_remove. unfold log_beyond.
  destruct (l !! j) as [e|] eqn:He.
  - case_decide as Hin; rewrite elem_of_u64_range in Hin; symmetry.
    + apply map_lookup_filter_None_2. right. intros e' _. cbn. lia.
    + apply map_lookup_filter_Some_2; [done|]. cbn. lia.
  - symmetry. transitivity (None (A:=LogEntry)); [apply map_lookup_filter_None_2; by left|].
    by case_decide.
Qed.

Section sled_writes.
Context `{!Message LogEntry, !Message HardState}.
Implicit Types (m : gmap bytes bytes) (l : gmap N LogEntry).

Lemma log_repr_insert m l e :
  log_repr m l → wire_ok e →
  log_repr (<[to_be_bytes (le_index e) := encode_to_vec e]> m) (<[le_index e := e]> l).
Proof.
  intros [Hk Hl Hok] He. pose proof He as (_ & Hu & _). split.
  - intros k b. destruct (decide (k = to_be_bytes (le_index e))) as [->|Hne]; [eauto|].
    rewrite lookup_insert_ne by done. apply Hk.
  - intros i Hi. destruct (decide (i = le_index e)) as [->|Hne].
    + by rewrite !lookup_insert_eq.
    + rewrite !lookup_insert_ne; [by apply Hl|done|].
      intros Heq%to_be_bytes_inj; done.
  - intros i e'. destruct (decide (i = le_index e)) as [->|Hne].
    + rewrite lookup_insert_eq. by intros [= <-].
    + rewrite lookup_insert_ne by done. apply Hok.
Qed.

Lemma log_repr_delete m l i :
  log_repr m l → U64 i → log_repr (delete (to_be_bytes i) m) (delete i l).
Proof.
  intros [Hk Hl Hok] Hi. split.
  - intros k b [_ Hb]%lookup_delete_Some. by eapply Hk.
  - intros j Hj. destruct (decide (i = j)) as [->|Hne].
    + by rewrite !lookup_delete_eq.
    + rewrite !lookup_delete_ne; [by apply Hl|done|]. intros Heq%to_be_bytes_inj; done.
  - intros j e [_ He]%lookup_delete_Some. by apply Hok.
Qed.

Lemma log_repr_append m l es :
  log_repr m l → Forall wire_ok es →
  log_repr (apply_ops m (SledStorage.entry_batch es)) (log_insert l es).
Proof.
  intros Hr Hes. revert m l Hr. induction Hes as [|e es He _ IH]; intros m l Hr; [done|].
  by apply IH, log_repr_insert.
Qed.

Lemma log_repr_remove m l ids :
  log_repr m l → Forall U64 ids →
  log_repr (apply_ops m ((λ i, BRemove (to_be_bytes i)) <$> ids)) (log_remove l ids).
Proof.
  intros Hr Hids. revert m l Hr. induction Hids as [|i ids Hi _ IH]; intros m l Hr; [done|].
  by apply IH, log_repr_delete.
Qed.

Lemma u64_range_U64 a b : U64 b → Forall U64 (u64_range a b).
Proof.
  intros Hb. apply List.Forall_forall. intros i Hi%list_elem_of_In%elem_of_u64_range.
  unfold U64 in *. lia.
Qed.

(** The four metadata keys are distinct. *)
Lemma u64_at_insert_ne m key k b n :
  k ≠ key → u64_at m key n → u64_at (<[k := b]> m) key n.
Proof. intros Hne. unfold u64_at. by rewrite lookup_insert_ne. Qed.
Lemma u64_at_insert_eq m key n : U64 n → u64_at (<[key := to_be_bytes n]> m) key n.
Proof. intros Hn. split; [done|]. left. apply lookup_insert_eq. Qed.
Lemma hard_state_at_insert_ne m k b t o :
  k ≠ SledStorage.KEY_HARD_STATE → hard_state_at m t o → hard_state_at (<[k := b]> m) t o.
Proof. intros Hne. unfold hard_state_at. by rewrite lookup_insert_ne. Qed.

Lemma meta_repr_hard_state m v t o :
  meta_repr m v → U64 t → vote_ok o →
  meta_repr (<[SledStorage.KEY_HARD_STATE := SledStorage.serialize_hard_state t o]> m)
    (set_hard_state t o v).
Proof.
  intros [] Ht Ho. split; cbn; try (by apply u64_at_insert_ne).
  split_and!; [done..|]. left. apply lookup_insert_eq.
Qed.

Lemma meta_repr_committed m v i :
  meta_repr m v → U64 i →
  meta_repr (<[SledStorage.KEY_LAST_COMMITTED := to_be_bytes i]> m) (set_committed i v).
Proof.
  intros [] Hi. split; cbn; try (by apply u64_at_insert_ne).
  - by apply hard_state_at_insert_ne.
  - by apply u64_at_insert_eq.
Qed.

Lemma meta_repr_snapshot m v i t :
  meta_repr m v → U64 i → U64 t →
  meta_repr (<[SledStorage.KEY_SNAPSHOT_TERM := to_be_bytes t]>
    (<[SledStorage.KEY_SNAPSHOT_INDEX := to_be_bytes i]> m)) (set_snapshot i t v).
Proof.
  intros [] Hi Ht. split; cbn.
  - apply hard_state_at_insert_ne; [done|]. by apply hard_state_at_insert_ne.
  - apply u64_at_insert_ne; [done|]. by apply u64_at_insert_ne.
  - apply u64_at_insert_ne; [done|]. by apply u64_at_insert_eq.
  - by apply u64_at_insert_eq.
Qed.
End sled_writes.

(** ** The refinement *)

Section refinement.
Context {D : Type} `{SledLaws D} `{!Message LogEntry, !Message HardState}
  `{!MessageLaws LogEntry, !MessageLaws HardState}.
Implicit Types (d : D) (v : LogView) (vs : list LogView).

Definition store_repr d v : Prop := trees_repr (sled_trees d) v.
Definition store_durable d v : Prop := trees_repr (sled_disk d) v.

Lemma trees_repr_log ts v l m :
  trees_repr ts v → log_repr m l →
  trees_repr (<[SledStorage.TREE_LOG := m]> ts) (set_log l v).
Proof.
  intros [_ Hm] Hl. split; [by rewrite tree_at_insert_eq|].
  rewrite tree_at_insert_ne by done. by destruct Hm.
Qed.
Lemma trees_repr_meta ts v v' m :
  trees_repr ts v → meta_repr m v' → lv_log v' = lv_log v →
  trees_repr (<[SledStorage.TREE_META := m]> ts) v'.
Proof.
  intros [Hl _] Hm Heq. split; [|by rewrite tree_at_insert_eq].
  rewrite tree_at_insert_ne by done. by rewrite Heq.
Qed.

Lemma store_repr_ok d v : store_repr d v → view_ok v.
Proof. intros [Hl [(?&?&_) [? _] [? _] [? _]]]. split; try done. apply Hl. Qed.

(** What a failed write leaves behind. *)
Definition store_failed d (vs : list LogView) (e : LogStorageError) (d' : D) : Prop :=
  io_error e ∧ (∃ v, v ∈ vs ∧ store_repr d' v) ∧
  ∀ vd, store_durable d vd → ∃ vd', store_durable d' vd' ∧ (vd' = vd ∨ vd' ∈ vs).

Lemma disk_step_durable d d' vs v v' vd :
  disk_step d d' → store_repr d v → store_repr d' v' → v ∈ vs → v' ∈ vs →
  store_durable d vd → ∃ vd', store_durable d' vd' ∧ (vd' = vd ∨ vd' ∈ vs).
Proof.
  unfold store_durable. intros [->|[->| ->]] Hv Hv' Hin Hin' Hvd; eauto.
Qed.

Lemma store_failed_mono d vs vs' e d' :
  store_failed d vs e d' → (∀ v, v ∈ vs → v ∈ vs') → store_failed d vs' e d'.
Proof.
  intros (He & (v & Hin & Hv) & Hd) Hsub. split_and!; [done|eauto|].
  intros vd Hvd. destruct (Hd vd Hvd) as (vd' & ? & [->|?]); eauto 6.
Qed.

(** A failure after a first write that succeeded. *)
Lemma store_failed_after d d1 v v1 vs e d' :
  disk_step d d1 → store_repr d v → store_repr d1 v1 → v ∈ vs → v1 ∈ vs →
  store_failed d1 vs e d' → store_failed d vs e d'.
Proof.
  intros Hstep Hv Hv1 Hin Hin1 (He & Hex & Hd). split_and!; [done..|]. intros vd Hvd.
  destruct (disk_step_durable _ _ vs _ _ _ Hstep Hv Hv1 Hin Hin1 Hvd) as (vd1 & Hvd1 & Hor).
  destruct (Hd vd1 Hvd1) as (vd' & Hvd' & Hor'). exists vd'. split; [done|].
  destruct Hor' as [->|]; [done|by right].
Qed.

(** A flush that returns puts what reads see on disk. *)
Lemma flush_spec msg d v :
  store_repr d v →
  wp (SledStorage.persistent msg sled_flush) (λ _ s, store_repr s v ∧ store_durable s v)
    (store_failed d [v]) d.
Proof.
  intros Hv. apply wp_map_err. wp_use sled_flush_law.
  - intros _ d' [Ht Hd]. unfold store_repr, store_durable. by rewrite Ht, Hd.
  - intros _ d' [Ht Hd]. assert (store_repr d' v) by (unfold store_repr; by rewrite Ht).
    split_and!; [by eexists|exists v; split; [by left|done]|]. intros vd Hvd.
    eapply disk_step_durable; [done..| | |done]; by left.
Qed.

(** A write whose trees are [ts] when it returns and [ts] or the old ones
    when it fails. *)
Definition writes (m : st D SledError unit) d (ts : trees) : Prop :=
  wp m (λ _ d', sled_trees d' = ts ∧ disk_step d d')
    (λ _ d', (sled_trees d' = sled_trees d ∨ sled_trees d' = ts) ∧ disk_step d d') d.

Lemma write_spec {A} msg (m : st D SledError unit) (k : unit → st D LogStorageError A)
    d ts v v' vs (Q : A → D → Prop) :
  writes m d ts → store_repr d v → trees_repr ts v' → v ∈ vs → v' ∈ vs →
  (∀ d', store_repr d' v' → wp (k tt) Q (store_failed d' vs) d') →
  wp (SledStorage.persistent msg m ≫= k) Q (store_failed d vs) d.
Proof.
  intros Hm Hv Hv' Hin Hin' Hk. wp_step. apply wp_map_err. wp_use Hm.
  - intros [] d' [Hd Hstep]. assert (store_repr d' v') by (unfold store_repr; by rewrite Hd).
    eapply wp_mono; [by apply Hk|done|]. intros e d''.
    by apply (store_failed_after _ _ v v').
  - intros _ d' [Hd Hstep].
    assert (∃ v0, v0 ∈ vs ∧ store_repr d' v0) as (v0 & Hin0 & Hv0).
    { unfold store_repr. destruct Hd as [->| ->]; eauto. }
    split_and!; [by eexists|by exists v0|]. intros vd Hvd.
    by apply (disk_step_durable d d' vs v v0).
Qed.

Lemma write_then_flush msg msg' (m : st D SledError unit) d ts v v' :
  writes m d ts → store_repr d v → trees_repr ts v' →
  wp (_ ← SledStorage.persistent msg m; SledStorage.persistent msg' sled_flush)
    (λ _ s, store_repr s v' ∧ store_durable s v') (store_failed d [v; v']) d.
Proof.
  intros Hm Hv Hv'.
  eapply write_spec; [done|done|done|by left|by right; left|].
  intros d' Hd'. eapply wp_mono; [by apply flush_spec|done|]. intros e d'' Hf.
  eapply store_failed_mono; [done|]. by right.
Qed.

Lemma last_log_index_reads d v :
  store_repr d v → reads_as (SledStorage.last_log_index d) (lv_last_index v).
Proof.
  intros [Hl Hm]. unfold SledStorage.last_log_index.
  eapply reads_as_bind; [by apply sled_last_reads|].
  assert (reads_as (transpose ((λ p, SledStorage.u64_value "LogIndex byte conversion failed" p.1) <$>
    ((λ e, (to_be_bytes (max_key (lv_log v)), encode_to_vec e)) <$>
      lv_log v !! max_key (lv_log v)))) (const (max_key (lv_log v)) <$> lv_log v !! max_key (lv_log v))).
  { destruct (lv_log v !! _); cbn; [|done]. unfold SledStorage.u64_value.
    rewrite from_to_be_bytes by (by eapply max_key_U64). done. }
  eapply reads_as_bind; [done|]. eapply reads_as_bind; [apply read_u64, Hm|]. cbn.
  unfold lv_last_index. destruct (lv_log v !! max_key (lv_log v)) eqn:He; [done|].
  by rewrite (max_key_None _ He).
Qed.

#[global] Program Instance sled_storage_laws : LogStorageLaws D := {|
  repr := store_repr; durable := store_durable; reopened := sled_reopened;
|}.
Next Obligation.
  intros d d' v [Ht Hd] Hv. unfold store_repr, store_durable. by rewrite Ht, Hd.
Qed.
Next Obligation. apply store_repr_ok. Qed.
Next Obligation. intros d v [_ []]. by apply (read_hard_state (from_option fst 0) d (lv_term v) (lv_vote v)). Qed.
Next Obligation. intros d v [_ []]. by apply (read_hard_state (from_option snd None) d (lv_term v) (lv_vote v)). Qed.
Next Obligation. apply last_log_index_reads. Qed.
Next Obligation.
  intros d v [Hl Hm]. cbn. unfold SledStorage.last_log_term.
  eapply reads_as_bind; [by apply sled_last_reads|]. unfold lv_last_term.
  destruct (lv_log v !! max_key (lv_log v)) as [e|] eqn:He; cbn.
  - unfold SledStorage.decode_entry. rewrite decode_encode_to_vec by by eapply (lr_ok _ _ Hl).
    cbn. destruct (0 <? le_term e); [done|]. apply read_u64, Hm.
  - apply read_u64, Hm.
Qed.
Next Obligation. intros d v [_ []]. by apply read_u64. Qed.
Next Obligation. intros d v [_ []]. by apply read_u64. Qed.
Next Obligation. intros d v [_ []]. by apply read_u64. Qed.
Next Obligation.
  intros i d v [Hl _] Hi. cbn. unfold SledStorage.read_entry.
  eapply reads_as_bind; [by apply sled_get_reads|]. rewrite (lr_lookup _ _ Hl) by done.
  destruct (lv_log v !! i) as [e|] eqn:He; cbn; [|done].
  unfold SledStorage.decode_entry. by rewrite decode_encode_to_vec by by eapply (lr_ok _ _ Hl).
Qed.
Next Obligation. intros a b d v [Hl _]. by apply read_entries_reads. Qed.
Next Obligation.
  intros t o d v Hv Ht Ho. eapply write_then_flush; [apply sled_insert_law|done|].
  eapply trees_repr_meta; [done| |done]. apply meta_repr_hard_state; [apply Hv|done..].
Qed.
Next Obligation.
  intros i d v Hv Hi. eapply write_then_flush; [apply sled_insert_law|done|].
  eapply trees_repr_meta; [done| |done]. apply meta_repr_committed; [apply Hv|done..].
Qed.
Next Obligation.
  intros es d v Hv Hes. eapply write_then_flush; [apply sled_apply_batch_law|done|].
  apply trees_repr_log; [done|]. apply log_repr_append; [apply Hv|done].
Qed.
Next Obligation.
  intros es i d v Hv Hes Hi. cbn. unfold SledStorage.append_entries_and_advance_commit.
  set (v' := set_log _ v).
  assert (trees_repr (<[SledStorage.TREE_LOG := apply_ops
    (tree_at (sled_trees d) SledStorage.TREE_LOG) (SledStorage.entry_batch es)]>
    (sled_trees d)) v') as Hv'.
  { apply trees_repr_log; [done|]. apply log_repr_append; [apply Hv|done]. }
  eapply write_spec; [apply sled_apply_batch_law|done|done|by left|by right; left|].
  intros d' Hd'. eapply wp_mono;
    [eapply (write_then_flush _ _ _ _ _ v' (set_committed i v')); [apply sled_insert_law|done|]|..].
  - eapply trees_repr_meta; [done| |done]. apply meta_repr_committed; [|done]. apply Hd'.
  - done.
  - intros e d'' Hf. eapply store_failed_mono; [done|]. by right.
Qed.
Next Obligation.
  intros i d v Hv Hi. cbn. unfold SledStorage.truncate_log.
  assert (∀ j, is_Some (lv_log v !! j) → j ≤ lv_last_index v) as Hle.
  { intros j Hj%max_key_upper. unfold lv_last_index. lia. }
  wp_step. apply wp_reads.
  - intros last Hlast.
    pose proof (last_log_index_reads d v Hv) as Hr. rewrite Hlast in Hr.
    cbn in Hr. subst last. destruct (N.ltb_spec (lv_last_index v) i) as [Hlt|Hge].
    + assert (set_log (log_below i (lv_log v)) v = v) as ->; [|by split; [|right]].
      rewrite <-(log_below_remove _ _ (lv_last_index v)) by done. unfold u64_range.
      replace (N.to_nat (lv_last_index v + 1 - i)) with 0%nat by lia. by destruct v.
    + eapply wp_mono; [eapply write_then_flush; [apply sled_apply_batch_law|done|]
        |intros _ d' [? ?]; split; [done|by left]|done].
      apply trees_repr_log; [done|]. rewrite <-(log_below_remove _ _ (lv_last_index v)) by done.
      apply log_repr_remove; [apply Hv|]. apply u64_range_U64.
      destruct (store_repr_ok _ _ Hv). unfold lv_last_index.
      pose proof (max_key_U64 _ _ (proj1 Hv)). unfold U64 in *. lia.
  - intros e He. pose proof (last_log_index_reads d v Hv) as Hr.
    rewrite He in Hr. split_and!; [done|exists v; split; [by left|done]|]. eauto.
Qed.
Next Obligation.
  intros i d v Hv Hi. eapply write_then_flush; [apply sled_apply_batch_law|done|].
  apply trees_repr_log; [done|]. rewrite <-log_beyond_remove.
  apply log_repr_remove; [apply Hv|]. by apply u64_range_U64.
Qed.
Next Obligation.
  intros i t d v Hv Hi Ht. eapply write_then_flush; [apply sled_apply_batch_law|done|].
  eapply trees_repr_meta; [done| |done]. apply meta_repr_snapshot; [apply Hv|done..].
Qed.
End refinement.
