(* ===== verification/Timing.v ===== *)
(** The logical clock (raft-engine/src/tick.rs) and the configuration whose
    validation gives it its thresholds (raft-engine/src/config.rs).

    The release profile leaves overflow checks off, so [+] and [*] on u64
    wrap. *)
From S2P Require Import Prelude Machine Types.

(** ** Ticks *)

Abbreviation Tick := N (only parsing).
Abbreviation TickDuration := N (only parsing).

Definition Tick_increment (t : Tick) : Tick := wrapping_add t 1.
Definition Tick_add (t : Tick) (d : TickDuration) : Tick := wrapping_add t d.
Definition Tick_sub (t u : Tick) : TickDuration := saturating_sub t u.
Definition TickDuration_add (d e : TickDuration) : TickDuration := wrapping_add d e.
Definition TickDuration_sub (d e : TickDuration) : TickDuration := saturating_sub d e.

Record TickThresholds : Type := mkThresholds {
  heartbeat_interval : TickDuration;
  min_election : TickDuration;
  max_election : TickDuration;
}.
#[global] Instance TickThresholds_eq_dec : EqDecision TickThresholds.
Proof. solve_decision. Defined.

(** [rand::RngExt]: a draw from [lo..=hi]. *)
Class RngExt (G : Type) : Type := random_range : N → N → G → N * G.
Class RngLaws (G : Type) `{RngExt G} : Prop :=
  random_range_in : ∀ lo hi g, lo ≤ hi → lo ≤ (random_range lo hi g).1 ≤ hi.

Definition generate_election_timeout {G} `{RngExt G} (t : TickThresholds) (g : G) :
    TickDuration * G :=
  random_range (min_election t) (max_election t) g.

(** A generator for the examples: always the lower bound. *)
Module LowRng.
#[global] Instance low_rng : RngExt unit := λ lo _ g, (lo, g).
#[global] Instance low_rng_laws : RngLaws unit.
Proof. intros lo hi []. cbn. lia. Qed.
End LowRng.

(** ** Configuration *)

Inductive ConfigError : Type :=
| CfgIo | CfgParse
| SelfLoop (id : NodeId)
| TimingInvariant (msg : string)
| InvalidUri (msg : string).

Record RaftConfig : Type := mkRaftConfig {
  tick_interval_ms : N;
  heartbeat_interval_ms : N;
  election_timeout_min_ms : N;
  election_timeout_max_ms : N;
  rpc_timeout_ms : N;
  consensus_timeout_ms : N;
  snapshot_threshold : N;
}.

Definition RaftConfig_default : RaftConfig := {|
  tick_interval_ms := 10;
  heartbeat_interval_ms := 50;
  election_timeout_min_ms := 150;
  election_timeout_max_ms := 300;
  rpc_timeout_ms := 40;
  consensus_timeout_ms := 30000;
  snapshot_threshold := 10000;
|}.

Definition calculate_thresholds (c : RaftConfig) : TickThresholds :=
  let to_ticks ms := div_ceil ms (tick_interval_ms c) in
  {| heartbeat_interval := to_ticks (heartbeat_interval_ms c);
     min_election := to_ticks (election_timeout_min_ms c);
     max_election := to_ticks (election_timeout_max_ms c) |}.

(** [RaftConfig::validate]; the two warnings only log. *)
Definition RaftConfig_validate (c : RaftConfig) : result ConfigError unit :=
  if tick_interval_ms c =? 0 then
    Err (TimingInvariant "tick_interval_ms must be greater than 0")
  else if heartbeat_interval_ms c =? 0 then
    Err (TimingInvariant "heartbeat_interval_ms must be greater than 0")
  else if heartbeat_interval_ms c <? tick_interval_ms c then
    Err (TimingInvariant "tick_interval_ms must be less than or equal to heartbeat_interval_ms")
  else if rpc_timeout_ms c =? 0 then
    Err (TimingInvariant "rpc_timeout_ms must be greater than 0")
  else if consensus_timeout_ms c =? 0 then
    Err (TimingInvariant "consensus_timeout_ms must be greater than 0")
  else if snapshot_threshold c =? 0 then
    Err (TimingInvariant "snapshot_threshold must be greater than 0")
  else if consensus_timeout_ms c <? rpc_timeout_ms c then
    Err (TimingInvariant "The SLA Invariant: consensus_timeout_ms cannot be shorter than rpc_timeout_ms")
  else if heartbeat_interval_ms c <=? rpc_timeout_ms c then
    Err (TimingInvariant "rpc_timeout_ms must be less than heartbeat_interval_ms to prevent heartbeat stacking")
  else if election_timeout_min_ms c <? wrapping_mul (heartbeat_interval_ms c) 3 then
    Err (TimingInvariant "ADR 003: election_timeout_min_ms must be at least 3x heartbeat_interval_ms")
  else if election_timeout_max_ms c <=? election_timeout_min_ms c then
    Err (TimingInvariant "election_timeout_max_ms must be greater than election_timeout_min_ms")
  else Ok tt.

Record PolicyConfig : Type := mkPolicyConfig {
  veto_addr : string;
  veto_timeout_ms : N;
  veto_max_retries : N;
  max_justification_len : N;
}.

Definition PolicyConfig_default : PolicyConfig := {|
  veto_addr := "http://127.0.0.1:50060";
  veto_timeout_ms := 5000;
  veto_max_retries := 1;
  max_justification_len := 512;
|}.

Record Config : Type := mkConfig {
  cfg_cluster_id : string;
  cfg_node_id : NodeId;
  cfg_peers : gmap N string;
  cfg_raft : RaftConfig;
  cfg_policy : PolicyConfig;
}.

Section config.
(** [tonic::transport::Endpoint::from_shared]: whether the text is a URI. *)
Context (endpoint_from_shared : string → bool).

Definition veto_endpoint (c : PolicyConfig) : result ConfigError unit :=
  if decide (veto_addr c = "") then Err (InvalidUri "veto_addr cannot be empty")
  else if endpoint_from_shared (veto_addr c) then Ok tt
  else Err (InvalidUri "veto_addr is invalid").

Definition PolicyConfig_validate (c : PolicyConfig) : result ConfigError unit :=
  if veto_timeout_ms c =? 0 then
    Err (TimingInvariant "veto_timeout_ms must be greater than 0")
  else veto_endpoint c.

(** The loop over the peers, in the map's iteration order. *)
Fixpoint validate_peers (l : list (NodeId * string)) : result ConfigError unit :=
  match l with
  | [] => Ok tt
  | (id, uri) :: l' =>
      if decide (uri = "") then Err (InvalidUri "Peer ID has an empty URI")
      else if endpoint_from_shared uri then validate_peers l'
      else Err (InvalidUri "Peer ID has an invalid URI")
  end.

Definition Config_validate (c : Config) : result ConfigError unit :=
  if decide (is_Some (cfg_peers c !! cfg_node_id c)) then Err (SelfLoop (cfg_node_id c))
  else
    _ ← validate_peers (map_to_list (cfg_peers c));
    _ ← RaftConfig_validate (cfg_raft c);
    PolicyConfig_validate (cfg_policy c).

(** [Config::load]: what reading the file gave, and the parser of [toml]. *)
Definition Config_load (content : option string) (from_str : string → option Config) : result ConfigError Config :=
  text ← ok_or CfgIo content;
  config ← ok_or CfgParse (from_str text);
  _ ← Config_validate config;
  Ok config.
End config.

(** ** What validation establishes *)

Lemma validate_peers_Ok uri l :
  validate_peers uri l = Ok tt → Forall (λ p, p.2 ≠ "" ∧ uri p.2 = true) l.
Proof.
  induction l as [|[id u] l IH]; cbn; [constructor|].
  destruct (decide (u = "")); [done|]. destruct (uri u) eqn:Hu; [|done]. intros Hl. constructor; auto.
Qed.

(** A configuration that has been loaded is valid: the node is not its own
    peer, every peer has a URI, and the timings are those that validation
    accepts. *)
Theorem loaded_config_valid uri content parse config :
  Config_load uri content parse = Ok config →
  cfg_peers config !! cfg_node_id config = None ∧
  (∀ id u, cfg_peers config !! id = Some u → uri u = true) ∧
  RaftConfig_validate (cfg_raft config) = Ok tt ∧ PolicyConfig_validate uri (cfg_policy config) = Ok tt.
Proof.
  unfold Config_load, Config_validate, mbind, result_bind.
  destruct content as [text|]; cbn; [|done]. destruct (parse text) as [c|]; cbn; [|done].
  destruct (decide (is_Some (cfg_peers c !! cfg_node_id c))) as [|Hself]; [done|].
  destruct (validate_peers uri _) as [[]|] eqn:Hp; [|done].
  destruct (RaftConfig_validate (cfg_raft c)) as [[]|] eqn:Hr; [|done].
  destruct (PolicyConfig_validate uri (cfg_policy c)) as [[]|] eqn:Hpol; [|done]. intros [= <-].
  split_and!; [by apply eq_None_not_Some| |done|done].
  intros id u Hu. apply validate_peers_Ok in Hp. rewrite Forall_forall in Hp.
  by apply (Hp (id, u)), list_elem_of_In, elem_of_map_to_list.
Qed.

Lemma RaftConfig_validate_Ok c :
  RaftConfig_validate c = Ok tt →
  0 < tick_interval_ms c ≤ heartbeat_interval_ms c ∧
  0 < rpc_timeout_ms c < heartbeat_interval_ms c ∧
  rpc_timeout_ms c ≤ consensus_timeout_ms c ∧ 0 < snapshot_threshold c ∧
  wrapping_mul (heartbeat_interval_ms c) 3 ≤ election_timeout_min_ms c
    < election_timeout_max_ms c.
Proof.
  unfold RaftConfig_validate. repeat (case_match; [done|]). intros _. lia.
Qed.

Lemma div_ceil_le a b t : 0 < t → a ≤ b → div_ceil a t ≤ div_ceil b t.
Proof. intros Ht Hab. apply N.Div0.div_le_mono. lia. Qed.

Lemma div_ceil_lt a b t : 0 < t → a + t ≤ b → div_ceil a t < div_ceil b t.
Proof.
  intros Ht Hab. unfold div_ceil.
  assert ((a + t - 1 + 1 * t) / t = (a + t - 1) / t + 1) as Heq by (apply N.div_add; lia).
  assert ((a + t - 1 + 1 * t) / t ≤ (b + t - 1) / t) by (apply N.Div0.div_le_mono; lia).
  lia.
Qed.

Lemma wrapping_mul_exact a b : U64 (a * b) → wrapping_mul a b = a * b.
Proof. intros H. by apply N.mod_small. Qed.

(** A configuration that validation accepts gives the engine usable
    thresholds: a heartbeat period of at least one tick, shorter than every
    election timeout, and a non-empty range to draw the timeout from,
    provided three heartbeat periods fit in a u64. *)
Theorem validated_thresholds c :
  RaftConfig_validate c = Ok tt → U64 (heartbeat_interval_ms c * 3) →
  1 ≤ heartbeat_interval (calculate_thresholds c) < min_election (calculate_thresholds c) ∧
  min_election (calculate_thresholds c) ≤ max_election (calculate_thresholds c).
Proof.
  intros Hv Hu. apply RaftConfig_validate_Ok in Hv as (? & ? & ? & ? & Hmin & Hmax).
  rewrite wrapping_mul_exact in Hmin by done. cbn. split; [split|].
  - unfold div_ceil. apply N.div_le_lower_bound; lia.
  - apply div_ceil_lt; lia.
  - apply div_ceil_le; lia.
Qed.

Lemma validated_thresholds_witness :
  RaftConfig_validate RaftConfig_default = Ok tt ∧
  1 ≤ heartbeat_interval (calculate_thresholds RaftConfig_default)
    < min_election (calculate_thresholds RaftConfig_default) ∧
  min_election (calculate_thresholds RaftConfig_default)
    ≤ max_election (calculate_thresholds RaftConfig_default).
Proof. split; [done|]. apply (validated_thresholds RaftConfig_default); done. Defined.
