(* ===== verification/Node.v ===== *)
(** The physical node (raft-engine/src/node): the data of the four roles and
    the mutations of [RaftNode].  The log store is shared ([Arc<dyn
    LogStorage>]) and outlives every role transition, so it is the state that
    the operations thread; a [RaftNode] holds the rest. *)
From S2P Require Import Prelude Machine Types Wire Storage Timing.

(** ** Roles *)

Inductive TickAction : Type :=
| TA_None | StartElection | StartPreVote | StepDown | SendHeartbeat | Stop.

Record Follower : Type := mkFollower {
  fo_leader_id : option NodeId;
  fo_last_heartbeat : Tick;
  fo_timeout : TickDuration;
}.

Record PreCandidate : Type := mkPreCandidate {
  pc_campaign_start : Tick;
  pc_timeout : TickDuration;
}.

Record Candidate : Type := mkCandidate {
  ca_votes_received : gset N;
  ca_election_start : Tick;
  ca_timeout : TickDuration;
}.

Record Leader : Type := mkLeader {
  ld_next_index : gmap N LogIndex;
  ld_match_index : gmap N LogIndex;
  ld_last_heartbeat : Tick;
  ld_current_read_epoch : N;
  ld_confirmed_read_epoch : N;
  ld_heartbeat_acks : gset N;
}.

Record ReconciliationResult : Type := mkReconciliation {
  rr_success : bool;
  rr_last_index : LogIndex;
}.

Record RaftNode (R : Type) : Type := mkNode {
  rn_identity : NodeIdentity;
  rn_last_committed : LogIndex;
  rn_last_applied : LogIndex;
  rn_state : R;
}.
Arguments mkNode {R} _ _ _ _.
Arguments rn_identity {R} _.
Arguments rn_last_committed {R} _.
Arguments rn_last_applied {R} _.
Arguments rn_state {R} _.

Definition rn_node_id {R} (n : RaftNode R) : NodeId := node_id (rn_identity n).

Definition set_node_committed {R} (i : LogIndex) (n : RaftNode R) : RaftNode R :=
  mkNode (rn_identity n) i (rn_last_applied n) (rn_state n).
Definition set_node_applied {R} (i : LogIndex) (n : RaftNode R) : RaftNode R :=
  mkNode (rn_identity n) (rn_last_committed n) i (rn_state n).
Definition set_node_state {R} (r : R) (n : RaftNode R) : RaftNode R :=
  mkNode (rn_identity n) (rn_last_committed n) (rn_last_applied n) r.

(** [RaftNode::transition]. *)
Definition transition {R R'} (n : RaftNode R) (next_state : R') : RaftNode R' :=
  mkNode (rn_identity n) (rn_last_committed n) (rn_last_applied n) next_state.

(** ** follower.rs: the role data *)

Definition Follower_new : option NodeId → Tick → TickDuration → Follower := mkFollower.
Definition set_leader_id (leader_id : option NodeId) (f : Follower) : Follower :=
  mkFollower leader_id (fo_last_heartbeat f) (fo_timeout f).
Definition Follower_reset_heartbeat (current_tick : Tick) (f : Follower) : Follower :=
  mkFollower (fo_leader_id f) current_tick (fo_timeout f).
Definition Follower_evaluate_tick (f : Follower) (now : Tick) : TickAction :=
  if (fo_last_heartbeat f <=? now) &&
     (fo_timeout f <=? Tick_sub now (fo_last_heartbeat f))
  then StartPreVote else TA_None.

(** ** pre_candidate.rs and candidate.rs: the role data *)

Definition PreCandidate_new : Tick → TickDuration → PreCandidate := mkPreCandidate.
Definition PreCandidate_evaluate_tick (p : PreCandidate) (now : Tick) : TickAction :=
  if pc_timeout p <=? Tick_sub now (pc_campaign_start p) then StepDown else TA_None.

Definition Candidate_new (election_start : Tick) (timeout : TickDuration) : Candidate :=
  mkCandidate ∅ election_start timeout.
Definition add_vote (peer_id : NodeId) (c : Candidate) : Candidate :=
  mkCandidate ({[peer_id]} ∪ ca_votes_received c) (ca_election_start c) (ca_timeout c).
Definition vote_count (c : Candidate) : N := N.of_nat (size (ca_votes_received c)).
Definition Candidate_evaluate_tick (c : Candidate) (now : Tick) : TickAction :=
  if ca_timeout c <=? Tick_sub now (ca_election_start c) then StartElection else TA_None.

(** ** leader.rs: the role data *)

Fixpoint index_peers (last_log_index : LogIndex) (peer_ids : list NodeId)
    (next_index match_index : gmap N LogIndex) :
    result ArithmeticError (gmap N LogIndex * gmap N LogIndex) :=
  match peer_ids with
  | [] => Ok (next_index, match_index)
  | peer_id :: rest =>
      next ← index_add last_log_index 1;
      index_peers last_log_index rest (<[peer_id := next]> next_index)
        (<[peer_id := 0]> match_index)
  end.

Definition Leader_new (peer_ids : list NodeId) (last_log_index : LogIndex)
    (last_heartbeat : Tick) : result NodeError Leader :=
  '(next_index, match_index) ←
    map_err Arithmetic (index_peers last_log_index peer_ids ∅ ∅);
  mret (mkLeader next_index match_index last_heartbeat 0 0 ∅).

Definition Leader_reset_heartbeat (current_tick : Tick) (l : Leader) : Leader :=
  mkLeader (ld_next_index l) (ld_match_index l) current_tick (ld_current_read_epoch l)
    (ld_confirmed_read_epoch l) (ld_heartbeat_acks l).
Definition set_next_index (m : gmap N LogIndex) (l : Leader) : Leader :=
  mkLeader m (ld_match_index l) (ld_last_heartbeat l) (ld_current_read_epoch l)
    (ld_confirmed_read_epoch l) (ld_heartbeat_acks l).
Definition set_match_index (m : gmap N LogIndex) (l : Leader) : Leader :=
  mkLeader (ld_next_index l) m (ld_last_heartbeat l) (ld_current_read_epoch l)
    (ld_confirmed_read_epoch l) (ld_heartbeat_acks l).
Definition Leader_evaluate_tick (l : Leader) (now : Tick) (threshold : TickDuration) :
    TickAction :=
  if threshold <=? Tick_sub now (ld_last_heartbeat l) then SendHeartbeat else TA_None.

Definition prepare_read_probe (self_id : NodeId) (l : Leader) : N * Leader :=
  let l' :=
    if ld_confirmed_read_epoch l =? ld_current_read_epoch l then
      mkLeader (ld_next_index l) (ld_match_index l) (ld_last_heartbeat l)
        (wrapping_add (ld_current_read_epoch l) 1) (ld_confirmed_read_epoch l) {[self_id]}
    else l in
  (ld_current_read_epoch l', l').

Definition acknowledge_heartbeat (peer_id : NodeId) (quorum_size : N) (l : Leader) : Leader :=
  let acks := {[peer_id]} ∪ ld_heartbeat_acks l in
  mkLeader (ld_next_index l) (ld_match_index l) (ld_last_heartbeat l)
    (ld_current_read_epoch l)
    (if quorum_size <=? N.of_nat (size acks) then ld_current_read_epoch l
     else ld_confirmed_read_epoch l)
    acks.

(** ** shared.rs: mutations of the store *)

Section node.
Context {S : Type} `{LogStorage S}.

Definition node_read {A} (f : S → result LogStorageError A) (s : S) :
    result NodeError A := map_err node_error_of_storage (f s).
Definition node_reads {A} (f : S → result LogStorageError A) : st S NodeError A :=
  st_reads (node_read f).
Definition node_write {A} (m : st S LogStorageError A) : st S NodeError A :=
  st_map_err node_error_of_storage m.
Definition arith {A} (r : result ArithmeticError A) : st S NodeError A :=
  st_lift (map_err Arithmetic r).

Definition get_term_at (index : LogIndex) (s : S) : result NodeError Term :=
  if index =? 0 then Ok 0
  else
    last_included ← node_read last_included_index s;
    if index =? last_included then node_read last_included_term s
    else
      o ← node_read (read_entry index) s;
      mret (from_option le_term 0 o).

Definition advance_term (term : Term) : st S NodeError unit :=
  current ← node_reads current_term;
  if term <? current then st_fail (Protocol "Term regression detected!")
  else if current <? term then node_write (save_hard_state term None)
  else mret tt.

Definition advance_term_and_vote (term : Term) (vote : NodeId) : st S NodeError unit :=
  current ← node_reads current_term;
  if term <? current then st_fail (Protocol "Term regression detected!")
  else node_write (save_hard_state term (Some vote)).

Definition persist_vote (candidate_id : NodeId) : st S NodeError unit :=
  term ← node_reads current_term;
  node_write (save_hard_state term (Some candidate_id)).

(** [RaftNode<R>::try_into_follower]. *)
Definition try_into_follower {R} (n : RaftNode R) (term : Term) (leader_id : option NodeId)
    (last_heartbeat : Tick) (timeout : TickDuration) : st S NodeError (RaftNode Follower) :=
  let node := transition n (Follower_new leader_id last_heartbeat timeout) in
  _ ← advance_term term;
  mret node.

(** [RaftNode<Follower>::try_new_with_applied]. *)
Definition try_new_with_applied (identity : NodeIdentity) (last_applied : LogIndex)
    (last_heartbeat : Tick) (timeout : TickDuration) :
    st S NodeError (RaftNode Follower) :=
  committed ← node_reads last_committed;
  mret (mkNode identity committed last_applied (Follower_new None last_heartbeat timeout)).

(** The body shared, word for word, by [try_into_candidate] of the follower
    and the pre-candidate and by [try_into_restarted_candidate]. *)
Definition campaign {R} (n : RaftNode R) (election_start : Tick) (timeout : TickDuration) :
    st S NodeError (RaftNode Candidate) :=
  current ← node_reads current_term;
  let node := transition n (Candidate_new election_start timeout) in
  new_term ← arith (term_add current 1);
  _ ← advance_term_and_vote new_term (rn_node_id node);
  mret (set_node_state (add_vote (rn_node_id node) (rn_state node)) node).

Definition Follower_try_into_candidate (n : RaftNode Follower) :=
  campaign n.
Definition PreCandidate_try_into_candidate (n : RaftNode PreCandidate) :=
  campaign n.
Definition try_into_restarted_candidate (n : RaftNode Candidate) :=
  campaign n.

Definition try_into_pre_candidate (n : RaftNode Follower) (campaign_start : Tick)
    (timeout : TickDuration) : st S NodeError (RaftNode PreCandidate) :=
  mret (transition n (PreCandidate_new campaign_start timeout)).

Definition try_into_leader (n : RaftNode Candidate) (peer_ids : list NodeId)
    (last_heartbeat : Tick) : st S NodeError (RaftNode Leader) :=
  last ← node_reads last_log_index;
  leader ← st_lift (Leader_new peer_ids last last_heartbeat);
  mret (transition n leader).

(** [RaftNode<Leader>::propose]. *)
Definition propose (command : bytes) : st S NodeError LogIndex :=
  last ← node_reads last_log_index;
  index ← arith (index_add last 1);
  term ← node_reads current_term;
  _ ← node_write (append_entries [LogEntry_new index term command]);
  mret index.

(** ** follower.rs: votes *)

Definition is_log_up_to_date (candidate_last_log_term : Term)
    (candidate_last_log_index : LogIndex) (s : S) : result NodeError bool :=
  local_last_term ← node_read last_log_term s;
  local_last_index ← node_read last_log_index s;
  mret (if negb (candidate_last_log_term =? local_last_term)
        then local_last_term <? candidate_last_log_term
        else local_last_index <=? candidate_last_log_index).

Definition attempt_grant_vote (candidate_id : NodeId) (req_term : Term)
    (req_last_log_index : LogIndex) (req_last_log_term : Term) : st S NodeError bool :=
  current ← node_reads current_term;
  voted ← node_reads voted_for;
  if (req_term =? current) && (bool_decide (voted = None) || bool_decide (voted = Some candidate_id))
  then
    up_to_date ← st_reads (is_log_up_to_date req_last_log_term req_last_log_index);
    if up_to_date : bool then
      _ ← persist_vote candidate_id;
      mret true
    else mret false
  else mret false.

Definition grant_pre_vote (req_term : Term) (req_last_log_index : LogIndex)
    (req_last_log_term : Term) (s : S) : result NodeError bool :=
  current ← node_read current_term s;
  if req_term <? current then Ok false
  else is_log_up_to_date req_last_log_term req_last_log_index s.

(** ** follower.rs: log reconciliation *)

Definition verify_log_consistency (prev_log_index : LogIndex) (prev_log_term : Term)
    (s : S) : result NodeError bool :=
  if prev_log_index =? 0 then Ok true
  else
    last_idx ← node_read last_log_index s;
    if last_idx <? prev_log_index then Ok false
    else
      local_term ← get_term_at prev_log_index s;
      mret (local_term =? prev_log_term).

(** The conflict scan: the first entry whose index holds another term cuts
    the log there. *)
Fixpoint cut_conflict (entries : list LogEntry) : st S NodeError unit :=
  match entries with
  | [] => mret tt
  | entry :: rest =>
      local_term ← st_reads (get_term_at (le_index entry));
      if negb (local_term =? 0) && negb (local_term =? le_term entry)
      then node_write (truncate_log (le_index entry))
      else cut_conflict rest
  end.

(** The filter: [None] is the early return on a gap. *)
Fixpoint select_new (next_expected : LogIndex) (entries : list LogEntry) :
    result ArithmeticError (option (list LogEntry)) :=
  match entries with
  | [] => Ok (Some [])
  | entry :: rest =>
      if next_expected <=? le_index entry then
        if negb (le_index entry =? next_expected) then Ok None
        else
          next ← index_add next_expected 1;
          o ← select_new next rest;
          mret (option_map (cons entry) o)
      else select_new next_expected rest
  end.

Definition on_store {X A} (m : st S NodeError A) : st (S * X) NodeError A :=
  st_zoom fst (λ s p, (s, snd p)) m.
Definition set_committed_field {R} (i : LogIndex) : st (S * RaftNode R) NodeError unit :=
  st_modify (λ p, (p.1, set_node_committed i p.2)).

(** The entries kept and the commit index they allow are persisted
    together. *)
Definition persist_reconciled (to_append : list LogEntry) (commit_advance : option LogIndex) :
    st (S * RaftNode Follower) NodeError unit :=
  match to_append, commit_advance with
  | [], None => mret tt
  | [], Some commit =>
      _ ← on_store (node_write (save_last_committed commit));
      set_committed_field commit
  | _, None => on_store (node_write (append_entries to_append))
  | _, Some commit =>
      _ ← on_store (node_write (append_entries_and_advance_commit to_append commit));
      set_committed_field commit
  end.

Definition reconciled (success : bool) : st (S * RaftNode Follower) NodeError ReconciliationResult :=
  last ← on_store (node_reads last_log_index);
  mret (mkReconciliation success last).

Definition reconcile_log (prev_log_index : LogIndex) (prev_log_term : Term)
    (entries : list LogEntry) (leader_commit : LogIndex) :
    st (S * RaftNode Follower) NodeError ReconciliationResult :=
  consistent ← on_store (st_reads (verify_log_consistency prev_log_index prev_log_term));
  if negb consistent then reconciled false
  else
    _ ← on_store (cut_conflict entries);
    last ← on_store (node_reads last_log_index);
    next_expected ← on_store (arith (index_add last 1));
    selected ← on_store (arith (select_new next_expected entries));
    match selected with
    | None => reconciled false
    | Some to_append =>
        committed ← st_gets (λ p, rn_last_committed p.2);
        commit_advance ←
          (if committed <? leader_commit then
             last_new_idx ← (match list.last to_append with
                             | Some e => mret (le_index e)
                             | None => on_store (node_reads last_log_index)
                             end);
             mret (Some (N.min leader_commit last_new_idx))
           else mret None);
        _ ← persist_reconciled to_append commit_advance;
        reconciled true
    end.

(** ** fsm_ops.rs *)

Definition update_commit_index_only {R} (index : LogIndex) :
    st (S * RaftNode R) NodeError unit :=
  committed ← st_gets (λ p, rn_last_committed p.2);
  if index <? committed then mret tt
  else
    last_idx ← on_store (node_reads last_log_index);
    if last_idx <? index then st_fail (Protocol "Attempted to commit index beyond last_log_index")
    else if committed <? index then
      _ ← on_store (node_write (save_last_committed index));
      set_committed_field index
    else mret tt.

Definition advance_last_committed {R} (index : LogIndex) :
    st (S * RaftNode R) NodeError unit := update_commit_index_only index.

Definition advance_horizon_after_snapshot {R} (index : LogIndex) :
    st (S * RaftNode R) NodeError unit :=
  _ ← update_commit_index_only index;
  st_modify (λ p, (p.1, set_node_applied index p.2)).
End node.
