(* ===== verification/Engine.v ===== *)
(** The logical node (raft-engine/src/engine.rs): the dispatcher over the
    roles, its RPC handlers, its clock and the Halt Mandate.  An operation
    returns, or halts: [apply_fatal] poisons the node and panics. *)
From S2P Require Import Prelude Machine Types Wire Storage Timing Node.

(** ** Data *)

Inductive NodeRole : Type :=
| NR_Follower | NR_PreCandidate | NR_Candidate | NR_Leader | NR_Poisoned.
#[global] Instance NodeRole_eq_dec : EqDecision NodeRole.
Proof. solve_decision. Defined.

Record ConsensusProgress : Type := mkProgress {
  cp_term : Term;
  cp_role : NodeRole;
  cp_last_log_index : LogIndex;
  cp_last_committed : LogIndex;
  cp_last_applied : LogIndex;
  cp_leader_hint : option NodeId;
  cp_confirmed_read_epoch : N;
}.
#[global] Instance ConsensusProgress_eq_dec : EqDecision ConsensusProgress.
Proof. solve_decision. Defined.

Inductive RoleState : Type :=
| RS_Follower (n : RaftNode Follower)
| RS_PreCandidate (n : RaftNode PreCandidate)
| RS_Candidate (n : RaftNode Candidate)
| RS_Leader (n : RaftNode Leader)
| RS_Poisoned.

(** [LogicalNode]: the state machine handle is a component of its own; the
    store is the one the role's node refers to. *)
Record LogicalNode (S G : Type) : Type := mkLogicalNode {
  ln_store : S;
  ln_state : RoleState;
  ln_current_tick : Tick;
  ln_thresholds : TickThresholds;
  ln_rng : G;
}.
Arguments mkLogicalNode {S G} _ _ _ _ _.
Arguments ln_store {S G} _.
Arguments ln_state {S G} _.
Arguments ln_current_tick {S G} _.
Arguments ln_thresholds {S G} _.
Arguments ln_rng {S G} _.

Record AppendEntriesResult : Type := mkAppendEntriesResult {
  ar_term : Term; ar_success : bool; ar_conflict_index : LogIndex }.
Definition AppendEntriesResult_stale_term (term : Term) : AppendEntriesResult :=
  mkAppendEntriesResult term false 0.
Definition AppendEntriesResult_inconsistent (term : Term) (last_index : LogIndex) :
    AppendEntriesResult := mkAppendEntriesResult term false last_index.
Definition AppendEntriesResult_success (term : Term) (last_index : LogIndex) :
    AppendEntriesResult := mkAppendEntriesResult term true last_index.

Record RequestVoteResult : Type := mkRequestVoteResult {
  vr_term : Term; vr_vote_granted : bool }.
Definition RequestVoteResult_rejected (term : Term) : RequestVoteResult :=
  mkRequestVoteResult term false.
Definition RequestVoteResult_granted (term : Term) : RequestVoteResult :=
  mkRequestVoteResult term true.

Inductive SnapshotAction : Type := SA_Accepted | SA_Rejected | SA_Stale.
Record InstallSnapshotResult : Type := mkInstallSnapshotResult {
  ir_term : Term; ir_action : SnapshotAction }.

Inductive TermCheckResult : Type := TC_Valid | TC_Stale.

(** A panic: [Halt e] is [apply_fatal], [Poisoned] the use of a node that has
    halted. *)
Inductive halt : Type :=
| Halt (e : NodeError)
| HaltPoisoned.

Definition PRE_VOTE_CAMPAIGN_TICKS : TickDuration := 8.

Section engine.
Context {S G : Type} `{LogStorage S} `{RngExt G}.
Abbreviation eng := (st (LogicalNode S G) halt) (only parsing).

Definition set_state (r : RoleState) (n : LogicalNode S G) : LogicalNode S G :=
  mkLogicalNode (ln_store n) r (ln_current_tick n) (ln_thresholds n) (ln_rng n).
Definition set_store (s : S) (n : LogicalNode S G) : LogicalNode S G :=
  mkLogicalNode s (ln_state n) (ln_current_tick n) (ln_thresholds n) (ln_rng n).
Definition set_tick (t : Tick) (n : LogicalNode S G) : LogicalNode S G :=
  mkLogicalNode (ln_store n) (ln_state n) t (ln_thresholds n) (ln_rng n).
Definition set_rng (g : G) (n : LogicalNode S G) : LogicalNode S G :=
  mkLogicalNode (ln_store n) (ln_state n) (ln_current_tick n) (ln_thresholds n) g.

(** *** The Halt Mandate *)

Definition apply_fatal {A} (err : NodeError) : eng A :=
  _ ← st_modify (set_state RS_Poisoned);
  st_fail (Halt err).
Definition or_fatal {A} (r : result NodeError A) : eng A :=
  match r with Ok a => mret a | Err e => apply_fatal e end.
(** [apply_fatal_static]: the panic alone. *)
Definition apply_fatal_static {A} (m : st S NodeError A) : st S halt A := st_map_err Halt m.

Definition poison : eng unit := st_modify (set_state RS_Poisoned).
Definition is_poisoned (n : LogicalNode S G) : bool :=
  match ln_state n with RS_Poisoned => true | _ => false end.

(** *** Delegation *)

(** [delegate_to_inner!] on a read of the store. *)
Definition delegate_read {A} (f : S → result NodeError A) : eng (result NodeError A) :=
  n ← st_get;
  match ln_state n with
  | RS_Poisoned => st_fail HaltPoisoned
  | _ => mret (f (ln_store n))
  end.
(** [delegate_to_inner!] on a field. *)
Definition delegate_field {A} (f : ∀ R, RaftNode R → A) : eng A :=
  n ← st_get;
  match ln_state n with
  | RS_Follower m => mret (f _ m)
  | RS_PreCandidate m => mret (f _ m)
  | RS_Candidate m => mret (f _ m)
  | RS_Leader m => mret (f _ m)
  | RS_Poisoned => st_fail HaltPoisoned
  end.
(** A mutation of the inner node and its store. *)
Definition run_node {R A} (mk : RaftNode R → RoleState) (m : RaftNode R)
    (op : st (S * RaftNode R) NodeError A) : eng (result NodeError A) := λ n,
  let '(r, (s', m')) := op (ln_store n, m) in (Ok r, set_state (mk m') (set_store s' n)).
Definition delegate_mut {A} (op : ∀ R, st (S * RaftNode R) NodeError A) :
    eng (result NodeError A) :=
  n ← st_get;
  match ln_state n with
  | RS_Follower m => run_node RS_Follower m (op _)
  | RS_PreCandidate m => run_node RS_PreCandidate m (op _)
  | RS_Candidate m => run_node RS_Candidate m (op _)
  | RS_Leader m => run_node RS_Leader m (op _)
  | RS_Poisoned => st_fail HaltPoisoned
  end.
(** A mutation of the store alone. *)
Definition run_store {A} (op : st S NodeError A) : eng (result NodeError A) :=
  st_zoom ln_store set_store (st_try op).

(** *** Storage accessors: poison, then panic *)

Definition read_or_fatal {A} (f : S → result NodeError A) : eng A :=
  r ← delegate_read f; or_fatal r.

Definition eng_current_term : eng Term := read_or_fatal (node_read current_term).
Definition eng_voted_for : eng (option NodeId) := read_or_fatal (node_read voted_for).
Definition eng_last_log_index : eng LogIndex := read_or_fatal (node_read last_log_index).
Definition eng_last_log_term : eng Term := read_or_fatal (node_read last_log_term).
Definition eng_last_included_index : eng LogIndex :=
  read_or_fatal (node_read last_included_index).
Definition eng_last_included_term : eng Term :=
  read_or_fatal (node_read last_included_term).
Definition eng_get_term_at (index : LogIndex) : eng Term := read_or_fatal (get_term_at index).
Definition eng_read_entries (start end_ : LogIndex) : eng (list LogEntry) :=
  read_or_fatal (node_read (read_entries start end_)).
Definition eng_save_snapshot_metadata (index : LogIndex) (term : Term) : eng unit :=
  r ← delegate_mut (λ R, on_store (node_write (save_snapshot_metadata index term)));
  or_fatal r.

Definition eng_node_id : eng NodeId := delegate_field (λ R, rn_node_id).
Definition eng_last_committed : eng LogIndex := delegate_field (λ R, rn_last_committed).
Definition eng_last_applied : eng LogIndex := delegate_field (λ R, rn_last_applied).

Definition eng_advance_last_committed (index : LogIndex) : eng unit :=
  r ← delegate_mut (λ R, advance_last_committed index); or_fatal r.
Definition eng_update_commit_index_only (index : LogIndex) : eng unit :=
  r ← delegate_mut (λ R, update_commit_index_only index); or_fatal r.
Definition eng_advance_horizon_after_snapshot (index : LogIndex) :
    eng (result NodeError unit) :=
  delegate_mut (λ R, advance_horizon_after_snapshot index).

(** *** Role transitions *)

(** [LogicalNode::transition]: the node is poisoned while the closure runs,
    and stays so when it panics. *)
Definition eng_transition (f : RoleState → st S halt RoleState) : eng unit := λ n,
  let '(r, s') := f (ln_state n) (ln_store n) in
  match r with
  | Ok new => (Ok tt, set_state new (set_store s' n))
  | Err h => (Err h, set_state RS_Poisoned (set_store s' n))
  end.

Definition draw_timeout : eng TickDuration := λ n,
  let '(timeout, g) := generate_election_timeout (ln_thresholds n) (ln_rng n) in
  (Ok timeout, set_rng g n).

Definition as_role {R} (mk : RaftNode R → RoleState) (m : st S NodeError (RaftNode R)) :
    st S halt RoleState :=
  new ← apply_fatal_static m; mret (mk new).

Definition into_follower (term : Term) (leader_id : option NodeId) : eng unit :=
  timeout ← draw_timeout;
  tick ← st_gets ln_current_tick;
  eng_transition (λ old,
    match old with
    | RS_Follower n => as_role RS_Follower (try_into_follower n term leader_id tick timeout)
    | RS_PreCandidate n => as_role RS_Follower (try_into_follower n term leader_id tick timeout)
    | RS_Candidate n => as_role RS_Follower (try_into_follower n term leader_id tick timeout)
    | RS_Leader n => as_role RS_Follower (try_into_follower n term leader_id tick timeout)
    | RS_Poisoned => st_fail HaltPoisoned
    end).

Definition into_candidate : eng unit :=
  timeout ← draw_timeout;
  tick ← st_gets ln_current_tick;
  eng_transition (λ old,
    match old with
    | RS_Follower n => as_role RS_Candidate (Follower_try_into_candidate n tick timeout)
    | RS_PreCandidate n => as_role RS_Candidate (PreCandidate_try_into_candidate n tick timeout)
    | RS_Candidate n => as_role RS_Candidate (try_into_restarted_candidate n tick timeout)
    | other => mret other
    end).

Definition into_pre_candidate : eng unit :=
  tick ← st_gets ln_current_tick;
  eng_transition (λ old,
    match old with
    | RS_Follower n =>
        as_role RS_PreCandidate (try_into_pre_candidate n tick PRE_VOTE_CAMPAIGN_TICKS)
    | other => mret other
    end).

Definition into_leader (peer_ids : list NodeId) : eng unit :=
  tick ← st_gets ln_current_tick;
  eng_transition (λ old,
    match old with
    | RS_Candidate n => as_role RS_Leader (try_into_leader n peer_ids tick)
    | other => mret other
    end).

(** *** The clock *)

Definition tick : eng TickAction :=
  _ ← st_modify (λ n, set_tick (Tick_increment (ln_current_tick n)) n);
  n ← st_get;
  let now := ln_current_tick n in
  mret (match ln_state n with
        | RS_Follower m => Follower_evaluate_tick (rn_state m) now
        | RS_PreCandidate m => PreCandidate_evaluate_tick (rn_state m) now
        | RS_Candidate m => Candidate_evaluate_tick (rn_state m) now
        | RS_Leader m =>
            Leader_evaluate_tick (rn_state m) now (heartbeat_interval (ln_thresholds n))
        | RS_Poisoned => Stop
        end).

Definition reset_heartbeat : eng unit :=
  st_modify (λ n,
    let tick := ln_current_tick n in
    match ln_state n with
    | RS_Follower m =>
        set_state (RS_Follower (set_node_state (Follower_reset_heartbeat tick (rn_state m)) m)) n
    | RS_Leader m =>
        set_state (RS_Leader (set_node_state (Leader_reset_heartbeat tick (rn_state m)) m)) n
    | _ => n
    end).

(** *** RPC handlers *)

Definition validate_leader_rpc_term (req_term : Term) (leader_id : NodeId) :
    eng TermCheckResult :=
  current ← eng_current_term;
  if req_term <? current then mret TC_Stale
  else if current <? req_term then
    _ ← into_follower req_term (Some leader_id);
    mret TC_Valid
  else
    n ← st_get;
    match ln_state n with
    | RS_Candidate _ =>
        _ ← into_follower req_term (Some leader_id);
        mret TC_Valid
    | RS_Leader _ =>
        apply_fatal (Protocol "CRITICAL SAFETY VIOLATION: Rival leader detected. Halting node.")
    | RS_Follower m =>
        _ ← st_put (set_state
              (RS_Follower (set_node_state (set_leader_id (Some leader_id) (rn_state m)) m)) n);
        mret TC_Valid
    | RS_PreCandidate _ =>
        _ ← into_follower req_term (Some leader_id);
        mret TC_Valid
    | RS_Poisoned => mret TC_Valid
    end.

Definition handle_install_snapshot (leader_id : NodeId) (req_term : Term)
    (last_included_index : LogIndex) : eng InstallSnapshotResult :=
  current ← eng_current_term;
  check ← validate_leader_rpc_term req_term leader_id;
  match check with
  | TC_Stale => mret (mkInstallSnapshotResult current SA_Rejected)
  | TC_Valid =>
      applied ← eng_last_applied;
      if last_included_index <=? applied
      then mret (mkInstallSnapshotResult current SA_Stale)
      else
        _ ← reset_heartbeat;
        term ← eng_current_term;
        mret (mkInstallSnapshotResult term SA_Accepted)
  end.

Definition handle_append_entries (leader_id : NodeId) (req_term : Term)
    (req_prev_log_index : LogIndex) (req_prev_log_term : Term)
    (entries : list LogEntry) (req_leader_commit : LogIndex) : eng AppendEntriesResult :=
  current ← eng_current_term;
  check ← validate_leader_rpc_term req_term leader_id;
  match check with
  | TC_Stale => mret (AppendEntriesResult_stale_term current)
  | TC_Valid =>
      _ ← reset_heartbeat;
      n ← st_get;
      match ln_state n with
      | RS_Follower m =>
          r ← run_node RS_Follower m
                (reconcile_log req_prev_log_index req_prev_log_term entries req_leader_commit);
          res ← or_fatal r;
          term ← eng_current_term;
          mret (if rr_success res
                then AppendEntriesResult_success term (rr_last_index res)
                else AppendEntriesResult_inconsistent term (rr_last_index res))
      | _ =>
          term ← eng_current_term;
          mret (AppendEntriesResult_inconsistent term 0)
      end
  end.

Definition handle_request_vote (candidate_id : NodeId) (req_term : Term)
    (req_last_log_index : LogIndex) (req_last_log_term : Term) : eng RequestVoteResult :=
  current ← eng_current_term;
  _ ← (if current <? req_term then into_follower req_term None else mret tt);
  n ← st_get;
  vote_granted ←
    match ln_state n with
    | RS_Follower _ =>
        r ← run_store (attempt_grant_vote candidate_id req_term req_last_log_index
                         req_last_log_term);
        or_fatal r
    | _ => mret false
    end;
  term ← eng_current_term;
  mret (if vote_granted : bool then RequestVoteResult_granted term
        else RequestVoteResult_rejected term).

Definition handle_pre_vote (candidate_id : NodeId) (req_term : Term)
    (req_last_log_index : LogIndex) (req_last_log_term : Term) : eng RequestVoteResult :=
  current ← eng_current_term;
  n ← st_get;
  vote_granted ←
    match ln_state n with
    | RS_Follower _ =>
        or_fatal (grant_pre_vote req_term req_last_log_index req_last_log_term (ln_store n))
    | _ => mret false
    end;
  mret (if vote_granted : bool then RequestVoteResult_granted current
        else RequestVoteResult_rejected current).

Definition eng_propose (command : bytes) : eng (result NodeError LogIndex) :=
  n ← st_get;
  match ln_state n with
  | RS_Leader _ =>
      r ← run_store (propose command);
      idx ← or_fatal r;
      _ ← eng_current_term;
      mret (Ok idx)
  | RS_Poisoned => st_fail HaltPoisoned
  | _ =>
      hint ← eng_voted_for;
      mret (Err (NotLeader hint))
  end.

(** *** Progress *)

Definition node_role (n : LogicalNode S G) : NodeRole :=
  match ln_state n with
  | RS_Follower _ => NR_Follower
  | RS_PreCandidate _ => NR_PreCandidate
  | RS_Candidate _ => NR_Candidate
  | RS_Leader _ => NR_Leader
  | RS_Poisoned => NR_Poisoned
  end.

Definition progress_of {R} (s : S) (role : NodeRole) (m : RaftNode R)
    (leader_hint : option NodeId) (epoch : N) : result NodeError ConsensusProgress :=
  term ← node_read current_term s;
  last ← node_read last_log_index s;
  mret (mkProgress term role last (rn_last_committed m) (rn_last_applied m) leader_hint epoch).

Definition try_consensus_progress (n : LogicalNode S G) : result NodeError ConsensusProgress :=
  match ln_state n with
  | RS_Poisoned => Ok (mkProgress 0 NR_Poisoned 0 0 0 None 0)
  | RS_Follower m => progress_of (ln_store n) NR_Follower m (fo_leader_id (rn_state m)) 0
  | RS_PreCandidate m => progress_of (ln_store n) NR_PreCandidate m None 0
  | RS_Candidate m => progress_of (ln_store n) NR_Candidate m None 0
  | RS_Leader m =>
      progress_of (ln_store n) NR_Leader m (Some (rn_node_id m))
        (ld_confirmed_read_epoch (rn_state m))
  end.

Definition consensus_progress : eng ConsensusProgress :=
  r ← st_gets try_consensus_progress; or_fatal r.

(** [LogicalNode::try_new]; [fsm_applied] is what
    [fsm.last_applied_index()] returned. *)
Definition LogicalNode_try_new (identity : NodeIdentity)
    (fsm_applied : result NodeError LogIndex) (thresholds : TickThresholds) (rng : G)
    (s : S) : result NodeError (LogicalNode S G) :=
  let '(timeout, rng') := generate_election_timeout thresholds rng in
  applied ← fsm_applied;
  committed ← node_read last_committed s;
  if committed <? applied then
    Err (Protocol "Causal invariant violation: FSM applied index is ahead of LogStore committed index")
  else
    node ← (try_new_with_applied identity applied 0 timeout s).1;
    mret (mkLogicalNode s (RS_Follower node) 0 thresholds rng').
End engine.
