(* ===== verification/Concrete.v ===== *)
(** A concrete instance of every interface: the database in memory, the bit
    codec and the generator that draws the lower bound.  It shows that the
    interfaces can be met together and lets the examples run. *)
From S2P Require Import Prelude Machine Types Wire Sled Storage SledStore Timing Node Engine.

#[export] Instance LogEntry_message : Message LogEntry := BitCodec.codec LogEntry.
#[export] Instance HardState_message : Message HardState := BitCodec.codec HardState.
#[export] Instance LogEntry_message_laws : MessageLaws LogEntry := BitCodec.codec_laws LogEntry.
#[export] Instance HardState_message_laws : MessageLaws HardState := BitCodec.codec_laws HardState.

Abbreviation DB := MemSled.db.
Abbreviation Node := (LogicalNode MemSled.db unit).

(** An empty store holds the empty view, on disk too. *)
Lemma empty_log_repr : log_repr ∅ ∅.
Proof.
  split.
  - intros k b. by rewrite lookup_empty.
  - intros i _. by rewrite !lookup_empty.
  - intros i e. by rewrite lookup_empty.
Qed.
Lemma empty_trees_repr : trees_repr ∅ empty_view.
Proof.
  unfold trees_repr, tree_at. rewrite !lookup_empty. cbn. split; [apply empty_log_repr|].
  split; cbn.
  - split_and!; [done..|]. right. by rewrite lookup_empty.
  - split; [done|]. right. by rewrite lookup_empty.
  - split; [done|]. right. by rewrite lookup_empty.
  - split; [done|]. right. by rewrite lookup_empty.
Qed.
Lemma empty_repr : repr (S:=DB) MemSled.empty empty_view.
Proof. apply empty_trees_repr. Qed.
Lemma empty_durable : durable (S:=DB) MemSled.empty empty_view.
Proof. apply empty_trees_repr. Qed.

(** A node that has just started on the store [d]. *)
Definition started (id : NodeId) (d : DB) : Node :=
  mkLogicalNode d
    (RS_Follower (mkNode (mkIdentity "cluster" id) 0 0 (Follower_new None 0 15)))
    0 (calculate_thresholds RaftConfig_default) tt.
Definition fresh (id : NodeId) : Node := started id MemSled.empty.

(** Running an operation. *)
Definition after {A} (m : st Node halt A) (n : Node) : Node := (m n).2.
Definition outcome {A} (m : st Node halt A) (n : Node) : result halt A := (m n).1.
