(* ===== verification/Memory.v ===== *)
(** The in-memory store of raft-engine/src/storage.rs, the double the unit
    tests run the engine on: its operations, and the proof that it stands
    for any store that keeps the promises of [LogStorageLaws]. *)
From S2P Require Import Prelude Machine Types Wire Sled Storage SledStore.

(** [MemoryState]; the log is a vector. *)
Record MemoryState : Type := mkMemoryState {
  ms_term : Term;
  ms_vote : option NodeId;
  ms_committed : LogIndex;
  ms_snap_index : LogIndex;
  ms_snap_term : Term;
  ms_log : list LogEntry;
}.

(** [MemoryStorage], the mutex with its poison flag. *)
Record Memory : Type := mkMemory { mem_state : MemoryState; mem_poisoned : bool }.

(** *** Slices *)

(** [slice::get] with the inclusive range [a..=b]. *)
Definition slice_get {A} (a b : N) (l : list A) : option (list A) :=
  if (a <=? b) && (b <? N.of_nat (length l))
  then Some (take (N.to_nat (b - a + 1)) (drop (N.to_nat a) l)) else None.

(** [Vec::drain(0..n)]. *)
Definition drain_front {A} (n : N) (l : list A) : list A := drop (N.to_nat n) l.

(** The trait's own body of [append_entries_and_advance_commit]. *)
Definition append_then_commit {S} (append : list LogEntry → st S LogStorageError unit)
    (commit : LogIndex → st S LogStorageError unit)
    (entries : list LogEntry) (commit_index : LogIndex) : st S LogStorageError unit :=
  _ ← append entries; commit commit_index.

Module MemoryStorage.
(** [Default::default]. *)
Definition new : Memory := mkMemory (mkMemoryState 0 None 0 0 0 []) false.

(** The lock: a poisoned mutex is an invariant violation. *)
Definition state (m : Memory) : result LogStorageError MemoryState :=
  if mem_poisoned m
  then Err (LS_Invariant "MemoryStorage Mutex is poisoned (Halt Mandate)")
  else Ok (mem_state m).

(** A body that mutates the guarded state. *)
Definition guarded (f : MemoryState → MemoryState) : st Memory LogStorageError unit :=
  s ← st_reads state; st_modify (λ m, mkMemory (f s) (mem_poisoned m)).

Definition with_log (l : list LogEntry) (s : MemoryState) : MemoryState :=
  mkMemoryState (ms_term s) (ms_vote s) (ms_committed s) (ms_snap_index s) (ms_snap_term s) l.

Definition current_term (m : Memory) : result LogStorageError Term := s ← state m; mret (ms_term s).
Definition voted_for (m : Memory) : result LogStorageError (option NodeId) :=
  s ← state m; mret (ms_vote s).

Definition last_log_index (m : Memory) : result LogStorageError LogIndex :=
  s ← state m;
  let physical_last := from_option le_index 0 (list.last (ms_log s)) in
  mret (N.max physical_last (ms_snap_index s)).

Definition last_log_term (m : Memory) : result LogStorageError Term :=
  s ← state m;
  let physical_last := from_option le_term 0 (list.last (ms_log s)) in
  if 0 <? physical_last then Ok physical_last else Ok (ms_snap_term s).

Definition last_committed (m : Memory) : result LogStorageError LogIndex :=
  s ← state m; mret (ms_committed s).

Definition read_entry (index : LogIndex) (m : Memory) : result LogStorageError (option LogEntry) :=
  if index =? 0 then Ok None else
  s ← state m;
  match ms_log s with
  | first :: _ =>
      if index <? le_index first then Ok None
      else Ok (ms_log s !! N.to_nat (index - le_index first))
  | [] => Ok None
  end.

Definition read_entries (start end_ : LogIndex) (m : Memory) :
    result LogStorageError (list LogEntry) :=
  if start =? 0 then
    Err (LS_Invariant "LogIndex is 1-indexed; range start cannot be 0")
  else if end_ <? start then Ok []
  else
    s ← state m;
    match ms_log s with
    | first :: _ =>
        if start <? le_index first then
          Err (LS_Invariant "Log range overlaps with truncated history")
        else Ok (default [] (slice_get (start - le_index first) (end_ - le_index first) (ms_log s)))
    | [] => Ok []
    end.

Definition save_hard_state (term : Term) (vote : option NodeId) : st Memory LogStorageError unit :=
  guarded (λ s, mkMemoryState term vote (ms_committed s) (ms_snap_index s) (ms_snap_term s) (ms_log s)).

Definition save_last_committed (index : LogIndex) : st Memory LogStorageError unit :=
  guarded (λ s, mkMemoryState (ms_term s) (ms_vote s) index (ms_snap_index s) (ms_snap_term s) (ms_log s)).

(** The loop of [append_entries]; the entries pushed before a refusal
    stay. *)
Fixpoint append_loop (entries : list LogEntry) : st Memory LogStorageError unit :=
  match entries with
  | [] => mret tt
  | entry :: rest =>
      s ← st_reads state;
      let last_idx := from_option le_index (ms_snap_index s) (list.last (ms_log s)) in
      expected_idx ← st_lift (map_err LS_Arithmetic (index_add last_idx 1));
      if le_index entry =? expected_idx then
        _ ← guarded (λ s, with_log (ms_log s ++ [entry]) s);
        append_loop rest
      else st_fail (LS_Invariant "Non-contiguous log append")
  end.

Definition append_entries (entries : list LogEntry) : st Memory LogStorageError unit :=
  _ ← st_reads state; append_loop entries.

Definition truncate_log (index : LogIndex) : st Memory LogStorageError unit :=
  guarded (λ s, match ms_log s with
    | first :: _ =>
        if index <=? le_index first then with_log [] s
        else with_log (take (N.to_nat (index - le_index first)) (ms_log s)) s
    | [] => s
    end).

Definition truncate_log_front (up_to_index : LogIndex) : st Memory LogStorageError unit :=
  guarded (λ s, match ms_log s with
    | first :: _ =>
        if le_index first <=? up_to_index then
          let remove_count := up_to_index - le_index first + 1 in
          with_log (drain_front (N.min remove_count (N.of_nat (length (ms_log s)))) (ms_log s)) s
        else s
    | [] => s
    end).

Definition save_snapshot_metadata (last_included_index : LogIndex) (last_included_term : Term) :
    st Memory LogStorageError unit :=
  guarded (λ s, mkMemoryState (ms_term s) (ms_vote s) (ms_committed s)
    last_included_index last_included_term (ms_log s)).

Definition last_included_index (m : Memory) : result LogStorageError LogIndex :=
  s ← state m; mret (ms_snap_index s).
Definition last_included_term (m : Memory) : result LogStorageError Term :=
  s ← state m; mret (ms_snap_term s).
End MemoryStorage.

(** [impl LogStorage for MemoryStorage]; the combined append is the
    trait's default. *)
#[global] Instance Memory_LogStorage : LogStorage Memory := {|
  current_term := MemoryStorage.current_term;
  voted_for := MemoryStorage.voted_for;
  last_log_index := MemoryStorage.last_log_index;
  last_log_term := MemoryStorage.last_log_term;
  last_committed := MemoryStorage.last_committed;
  read_entry := MemoryStorage.read_entry;
  read_entries := MemoryStorage.read_entries;
  save_hard_state := MemoryStorage.save_hard_state;
  save_last_committed := MemoryStorage.save_last_committed;
  append_entries := MemoryStorage.append_entries;
  append_entries_and_advance_commit :=
    append_then_commit MemoryStorage.append_entries MemoryStorage.save_last_committed;
  truncate_log := MemoryStorage.truncate_log;
  truncate_log_front := MemoryStorage.truncate_log_front;
  save_snapshot_metadata := MemoryStorage.save_snapshot_metadata;
  last_included_index := MemoryStorage.last_included_index;
  last_included_term := MemoryStorage.last_included_term;
|}.

(** ** What the vector stands for *)

(** The vector [l] holds the entries [f], [f + 1], … and is the log [g]. *)
Record log_repr (f : N) (l : list LogEntry) (g : gmap N LogEntry) : Prop := {
  lr_first : 1 ≤ f;
  lr_index : ∀ k e, l !! k = Some e → le_index e = f + N.of_nat k;
  lr_lookup : ∀ i, g !! i = if f <=? i then l !! N.to_nat (i - f) else None;
}.

Record mem_repr (m : Memory) (v : LogView) : Prop := {
  mr_clean : mem_poisoned m = false;
  mr_term : ms_term (mem_state m) = lv_term v;
  mr_vote : ms_vote (mem_state m) = lv_vote v;
  mr_committed : ms_committed (mem_state m) = lv_committed v;
  mr_snap_index : ms_snap_index (mem_state m) = lv_snap_index v;
  mr_snap_term : ms_snap_term (mem_state m) = lv_snap_term v;
  mr_log : ∃ f, log_repr f (ms_log (mem_state m)) (lv_log v);
}.

Section logs.
Context (f : N) (l : list LogEntry) (g : gmap N LogEntry) (Hl : log_repr f l g).

Lemma log_repr_some i : is_Some (g !! i) ↔ f ≤ i ∧ i < f + N.of_nat (length l).
Proof.
  rewrite (lr_lookup _ _ _ Hl). destruct (N.leb_spec f i).
  - rewrite lookup_lt_is_Some. lia.
  - split; [by intros [? [=]]|lia].
Qed.

Lemma log_repr_head e l' : l = e :: l' → le_index e = f.
Proof. intros ->. rewrite (lr_index _ _ _ Hl 0%nat e eq_refl). lia. Qed.

(** The end of a log that is not empty. *)
Lemma log_repr_last e :
  list.last l = Some e →
  le_index e = f + N.of_nat (length l) - 1 ∧ max_key g = le_index e ∧ g !! le_index e = Some e.
Proof.
  rewrite last_lookup. intros He. pose proof (lookup_lt_Some _ _ _ He) as Hlt.
  pose proof (lr_index _ _ _ Hl _ _ He) as Hi.
  assert (le_index e = f + N.of_nat (length l) - 1) as Hend by lia.
  assert (g !! le_index e = Some e) as Hg.
  { rewrite (lr_lookup _ _ _ Hl). destruct (N.leb_spec f (le_index e)); [|lia].
    by replace (N.to_nat (le_index e - f)) with (Init.Nat.pred (length l)) by lia. }
  split_and!; [done| |done]. apply max_key_eq; [by eexists|].
  intros j Hj%log_repr_some. lia.
Qed.

Lemma log_repr_empty : l = [] → g = ∅.
Proof.
  intros ->. apply map_eq. intros i. rewrite (lr_lookup _ _ _ Hl), lookup_empty. by destruct (f <=? i).
Qed.

(** The first [n] entries, and the entries after them. *)
Lemma log_repr_take n : log_repr f (take n l) (log_below (f + N.of_nat n) g).
Proof.
  split; [apply Hl| |].
  - intros k e [He _]%lookup_take_Some. by apply (lr_index _ _ _ Hl).
  - intros i. unfold log_below. destruct (decide (i < f + N.of_nat n)) as [Hi|Hi].
    + rewrite map_lookup_filter, (lr_lookup _ _ _ Hl). destruct (N.leb_spec f i); [|done].
      rewrite lookup_take_lt by lia. destruct (l !! _); cbn; [|done].
      by rewrite option_guard_True by done.
    + rewrite map_lookup_filter_None_2 by (right; intros e _; done).
      destruct (N.leb_spec f i); [|done]. symmetry. apply lookup_take_ge. lia.
Qed.

Lemma log_repr_drop n : log_repr (f + N.of_nat n) (drop n l) (log_beyond (f + N.of_nat n - 1) g).
Proof.
  pose proof (lr_first _ _ _ Hl) as Hf. split; [lia| |].
  - intros k e. rewrite lookup_drop. intros He%(lr_index _ _ _ Hl). lia.
  - intros i. unfold log_beyond. rewrite map_lookup_filter, (lr_lookup _ _ _ Hl), lookup_drop.
    destruct (N.leb_spec (f + N.of_nat n) i), (N.leb_spec f i); try lia.
    + replace (n + N.to_nat (i - (f + N.of_nat n)))%nat with (N.to_nat (i - f)) by lia.
      destruct (l !! _); cbn; [|done]. rewrite option_guard_True; [done|cbn; lia].
    + destruct (l !! _); cbn; [|done]. rewrite option_guard_False; [done|cbn; lia].
    + done.
Qed.

(** Another entry at the end. *)
Lemma log_repr_snoc e :
  le_index e = f + N.of_nat (length l) → log_repr f (l ++ [e]) (<[le_index e := e]> g).
Proof.
  intros He. pose proof (lr_first _ _ _ Hl) as Hf. split; [done| |].
  - intros k e'. rewrite lookup_app_Some, list_lookup_singleton_Some.
    intros [H|(? & ? & <-)]; [by apply (lr_index _ _ _ Hl)|lia].
  - intros i. destruct (decide (i = le_index e)) as [->|Hne].
    + rewrite lookup_insert_eq. destruct (N.leb_spec f (le_index e)); [|lia].
      symmetry. apply list_lookup_middle. lia.
    + rewrite lookup_insert_ne, (lr_lookup _ _ _ Hl) by done.
      destruct (N.leb_spec f i); [|done].
      destruct (decide (N.to_nat (i - f) < length l)%nat) as [Hlt|Hge].
      * by rewrite lookup_app_l.
      * rewrite lookup_ge_None_2 by lia. symmetry. apply lookup_ge_None_2.
        rewrite length_app. cbn. lia.
Qed.

(** A range the log holds is a slice of the vector. *)
Lemma log_repr_slice a b :
  f ≤ a → (∀ i, a ≤ i ≤ b → is_Some (g !! i)) → a ≤ b →
  slice_get (a - f) (b - f) l = Some (omap (λ i, g !! i) (u64_range a b)).
Proof.
  intros Ha Hheld Hab. destruct (proj1 (log_repr_some b)) as [_ Hb]; [by apply Hheld|].
  unfold slice_get. destruct (N.leb_spec (a - f) (b - f)); [|lia].
  destruct (N.ltb_spec (b - f) (N.of_nat (length l))); [|lia]. cbn. f_equal.
  unfold u64_range. replace (b - f - (a - f) + 1) with (b + 1 - a) by lia.
  assert (N.to_nat (a - f) + N.to_nat (b + 1 - a) ≤ length l)%nat as Hlen by lia. clear Hheld.
  revert Ha Hlen. generalize (N.to_nat (b + 1 - a)) as n. clear Hab Hb b H H0.
  intros n. revert a. induction n as [|n IH]; intros a Ha Hlen; [done|].
  cbn [seq fmap list_fmap omap list_omap]. rewrite N.add_0_r, (lr_lookup _ _ _ Hl).
  destruct (N.leb_spec f a); [|lia].
  destruct (lookup_lt_is_Some_2 l (N.to_nat (a - f))) as [e He]; [lia|].
  rewrite He, (drop_S _ _ _ He). cbn. f_equal.
  replace (Datatypes.S (N.to_nat (a - f))) with (N.to_nat (a + 1 - f)) by lia.
  rewrite IH by lia. f_equal. rewrite <-fmap_S_seq, <-list_fmap_compose.
  apply list_fmap_ext. intros k ? _. cbn. lia.
Qed.
End logs.

(** ** Scripts over any store *)

Inductive StorageOp : Type :=
| OpHardState (term : Term) (vote : option NodeId)
| OpCommitted (index : LogIndex)
| OpAppend (entries : list LogEntry)
| OpAppendCommit (entries : list LogEntry) (index : LogIndex)
| OpTruncate (index : LogIndex)
| OpTruncateFront (index : LogIndex)
| OpSnapshot (index : LogIndex) (term : Term).

Definition run_op {S} `{LogStorage S} (op : StorageOp) : st S LogStorageError unit :=
  match op with
  | OpHardState t o => save_hard_state t o
  | OpCommitted i => save_last_committed i
  | OpAppend es => append_entries es
  | OpAppendCommit es i => append_entries_and_advance_commit es i
  | OpTruncate i => truncate_log i
  | OpTruncateFront i => truncate_log_front i
  | OpSnapshot i t => save_snapshot_metadata i t
  end.

Fixpoint run_ops {S} `{LogStorage S} (ops : list StorageOp) : st S LogStorageError unit :=
  match ops with
  | [] => mret tt
  | op :: ops' => _ ← run_op op; run_ops ops'
  end.

(** What an operation does to the view. *)
Definition view_op (op : StorageOp) (v : LogView) : LogView :=
  match op with
  | OpHardState t o => set_hard_state t o v
  | OpCommitted i => set_committed i v
  | OpAppend es => set_log (log_insert (lv_log v) es) v
  | OpAppendCommit es i => set_committed i (set_log (log_insert (lv_log v) es) v)
  | OpTruncate i => set_log (log_below i (lv_log v)) v
  | OpTruncateFront i => set_log (log_beyond i (lv_log v)) v
  | OpSnapshot i t => set_snapshot i t v
  end.

(** The index the next entry has to have. *)
Definition lv_next (v : LogView) : LogIndex :=
  (if decide (lv_log v = ∅) then lv_snap_index v else max_key (lv_log v)) + 1.

Fixpoint follow_on (v : LogView) (es : list LogEntry) : Prop :=
  match es with
  | [] => True
  | e :: es' => le_index e = lv_next v ∧ follow_on (set_log (<[le_index e := e]> (lv_log v)) v) es'
  end.
#[global] Instance follow_on_dec v es : Decision (follow_on v es).
Proof. revert v. induction es as [|e es IH]; intros v; cbn; apply _. Defined.

(** The operation has arguments of their types, and appends where the log
    ends. *)
Definition op_fits (v : LogView) (op : StorageOp) : Prop :=
  match op with
  | OpHardState t o => U64 t ∧ vote_ok o
  | OpCommitted i | OpTruncate i | OpTruncateFront i => U64 i
  | OpAppend es => Forall wire_ok es ∧ follow_on v es
  | OpAppendCommit es i => Forall wire_ok es ∧ follow_on v es ∧ U64 i
  | OpSnapshot i t => U64 i ∧ U64 t
  end.

Fixpoint script_fits (v : LogView) (ops : list StorageOp) : Prop :=
  match ops with
  | [] => True
  | op :: ops' => op_fits v op ∧ script_fits (view_op op v) ops'
  end.

Definition view_ops (ops : list StorageOp) (v : LogView) : LogView :=
  foldl (λ v op, view_op op v) v ops.

(** A store that keeps its promises follows the view. *)
Lemma store_follows {S} `{LogStorageLaws S} op s s' v :
  repr s v → op_fits v op → run_op op s = (Ok tt, s') → repr s' (view_op op v).
Proof.
  intros Hr Hf Hrun. destruct op; cbn in Hf, Hrun |- *; destruct_and?;
    match goal with
    | H : save_hard_state _ _ _ = _ |- _ => eapply wp_run in H; [|by apply save_hard_state_law]
    | H : save_last_committed _ _ = _ |- _ => eapply wp_run in H; [|by apply save_last_committed_law]
    | H : append_entries _ _ = _ |- _ => eapply wp_run in H; [|by apply append_entries_law]
    | H : append_entries_and_advance_commit _ _ _ = _ |- _ =>
        eapply wp_run in H; [|by apply append_entries_and_advance_commit_law]
    | H : truncate_log _ _ = _ |- _ => eapply wp_run in H; [|by apply truncate_log_law]
    | H : truncate_log_front _ _ = _ |- _ => eapply wp_run in H; [|by apply truncate_log_front_law]
    | H : save_snapshot_metadata _ _ _ = _ |- _ =>
        eapply wp_run in H; [|by apply save_snapshot_metadata_law]
    end; by destruct Hrun.
Qed.

(** ** The double follows the view as well *)

Lemma memory_guarded h m :
  mem_poisoned m = false →
  MemoryStorage.guarded h m = (Ok tt, mkMemory (h (mem_state m)) false).
Proof.
  intros Hc. unfold MemoryStorage.guarded, MemoryStorage.state, st_reads, st_modify, mbind, st_bind.
  by rewrite Hc.
Qed.

Lemma log_repr_nil f : 1 ≤ f → log_repr f [] ∅.
Proof. intros Hf. split; [done|done|]. intros i. rewrite lookup_empty. by destruct (f <=? i). Qed.

Lemma memory_next m v :
  mem_repr m v →
  from_option le_index (ms_snap_index (mem_state m)) (list.last (ms_log (mem_state m))) + 1 = lv_next v ∧
  log_repr (lv_next v - N.of_nat (length (ms_log (mem_state m)))) (ms_log (mem_state m)) (lv_log v).
Proof.
  intros []. destruct mr_log0 as [f Hl]. unfold lv_next.
  destruct (list.last (ms_log (mem_state m))) as [e|] eqn:He; cbn.
  - destruct (log_repr_last _ _ _ Hl _ He) as (Hend & Hmax & Hg).
    rewrite decide_False, Hmax by (intros Hz; by rewrite Hz, lookup_empty in Hg). split; [done|].
    pose proof (lr_first _ _ _ Hl). replace (le_index e + 1 - _) with f by lia. done.
  - apply last_None in He. rewrite He in Hl |- *. pose proof (log_repr_empty _ _ _ Hl eq_refl) as Hz.
    rewrite decide_True, Hz by done. split; [by f_equal|]. apply log_repr_nil. cbn. lia.
Qed.

Lemma memory_append es m v :
  mem_repr m v → Forall wire_ok es → follow_on v es →
  ∃ m', MemoryStorage.append_entries es m = (Ok tt, m') ∧
    mem_repr m' (set_log (log_insert (lv_log v) es) v).
Proof.
  intros Hm. assert (MemoryStorage.append_entries es m = MemoryStorage.append_loop es m) as ->.
  { unfold MemoryStorage.append_entries, MemoryStorage.state, st_reads, mbind, st_bind.
    by rewrite (mr_clean _ _ Hm). }
  revert m v Hm. induction es as [|e es IH]; intros m v Hm Hok Hfit.
  { exists m. split; [done|]. destruct Hm. by split. }
  apply Forall_cons_iff in Hok as [He Hok]. destruct Hfit as [Hi Hfit]. cbn in Hi.
  destruct (memory_next _ _ Hm) as [Hnext Hl].
  set (m1 := mkMemory (MemoryStorage.with_log (ms_log (mem_state m) ++ [e]) (mem_state m)) false).
  destruct (IH m1 (set_log (<[le_index e := e]> (lv_log v)) v)) as (m' & Hrun & Hm'); [|done..|].
  - destruct Hm. split; try done. cbn. eexists. apply log_repr_snoc; [done|].
    pose proof (lr_first _ _ _ Hl). lia.
  - exists m'. split; [|done]. cbn [MemoryStorage.append_loop].
    unfold mbind at 1, st_bind at 1, st_reads, MemoryStorage.state.
    rewrite (mr_clean _ _ Hm). unfold mbind at 1, st_bind at 1, st_lift.
    unfold index_add. rewrite newtype_add_exact; rewrite Hnext, <-Hi; [|apply He].
    cbn [map_err]. rewrite N.eqb_refl. unfold mbind, st_bind.
    by rewrite memory_guarded by apply Hm.
Qed.

Lemma log_below_none f l g i : log_repr f l g → i ≤ f → log_below i g = ∅.
Proof.
  intros Hl Hi. apply map_empty_filter. intros j e He Hlt. cbn in Hlt.
  destruct (proj1 (log_repr_some _ _ _ Hl j)); [by eexists|lia].
Qed.

Lemma log_beyond_all f l g i : log_repr f l g → i < f → log_beyond i g = g.
Proof.
  intros Hl Hi. apply map_filter_id. intros j e He. right. cbn.
  destruct (proj1 (log_repr_some _ _ _ Hl j)); [by eexists|lia].
Qed.

Lemma drain_min {A} n (l : list A) :
  drain_front (N.min n (N.of_nat (length l))) l = drop (N.to_nat n) l.
Proof.
  unfold drain_front. destruct (N.min_spec n (N.of_nat (length l))) as [[_ ->]|[Hge ->]]; [done|].
  by rewrite !drop_ge by lia.
Qed.

Lemma memory_follows op m v :
  mem_repr m v → op_fits v op →
  ∃ m', run_op op m = (Ok tt, m') ∧ mem_repr m' (view_op op v).
Proof.
  intros Hm Hf. pose proof (mr_clean _ _ Hm) as Hc.
  destruct op as [t o|i|es|es i|i|i|i t]; cbn in Hf |- *; destruct_and?;
    try (eexists; split; [by apply memory_guarded|]; destruct Hm; by split).
  - by apply memory_append.
  - destruct (memory_append es m v) as (m1 & Hrun & Hm1); [done..|].
    unfold append_then_commit, mbind, st_bind. rewrite Hrun.
    eexists. split; [apply memory_guarded, Hm1|]. destruct Hm1. by split.
  - eexists. split; [by apply memory_guarded|]. destruct Hm as [? ? ? ? ? ? [f Hl]]. cbn.
    destruct (ms_log (mem_state m)) as [|e l] eqn:Hlog.
    { split; try done. cbn. exists f. rewrite Hlog, (log_repr_empty _ _ _ Hl eq_refl).
      apply log_repr_nil, Hl. }
    pose proof (log_repr_head _ _ _ Hl _ _ eq_refl) as ->.
    destruct (N.leb_spec i f); split; try done; cbn; exists f.
    + rewrite (log_below_none _ _ _ _ Hl) by done. apply log_repr_nil, Hl.
    + pose proof (log_repr_take _ _ _ Hl (N.to_nat (i - f))) as Ht.
      by replace (f + N.of_nat (N.to_nat (i - f))) with i in Ht by lia.
  - eexists. split; [by apply memory_guarded|]. destruct Hm as [? ? ? ? ? ? [f Hl]]. cbn.
    destruct (ms_log (mem_state m)) as [|e l] eqn:Hlog.
    { split; try done. cbn. exists f. rewrite Hlog, (log_repr_empty _ _ _ Hl eq_refl).
      apply log_repr_nil, Hl. }
    pose proof (log_repr_head _ _ _ Hl _ _ eq_refl) as ->.
    destruct (N.leb_spec f i); split; try done; cbn.
    + pose proof (log_repr_drop _ _ _ Hl (N.to_nat (i - f + 1))) as Ht.
      replace (f + N.of_nat (N.to_nat (i - f + 1)) - 1) with i in Ht by lia. eexists.
      rewrite <-drain_min in Ht. exact Ht.
    + exists f. by rewrite Hlog, (log_beyond_all _ _ _ _ Hl).
Qed.

(** *** The reads *)

Lemma memory_reads m v :
  mem_repr m v →
  current_term m = Ok (lv_term v) ∧ voted_for m = Ok (lv_vote v) ∧
  last_committed m = Ok (lv_committed v) ∧
  last_included_index m = Ok (lv_snap_index v) ∧ last_included_term m = Ok (lv_snap_term v) ∧
  last_log_index m = Ok (lv_last_index v) ∧ last_log_term m = Ok (lv_last_term v).
Proof.
  intros [Hc ? ? ? ? ? [f Hl]]. cbn.
  unfold MemoryStorage.current_term, MemoryStorage.voted_for, MemoryStorage.last_committed,
    MemoryStorage.last_included_index, MemoryStorage.last_included_term,
    MemoryStorage.last_log_index, MemoryStorage.last_log_term, MemoryStorage.state.
  rewrite Hc. unfold mbind, result_bind, mret, result_ret.
  split_and!; try (by f_equal).
  - f_equal. unfold lv_last_index. f_equal; [|done].
    destruct (list.last _) as [e|] eqn:He; cbn.
    + by destruct (log_repr_last _ _ _ Hl _ He) as (_ & -> & _).
    + apply last_None in He. by rewrite (log_repr_empty _ _ _ Hl He).
  - unfold lv_last_term. destruct (list.last _) as [e|] eqn:He; cbn [from_option].
    + destruct (log_repr_last _ _ _ Hl _ He) as (_ & -> & ->).
      destruct (0 <? le_term e); [done|by f_equal].
    + apply last_None in He. rewrite (log_repr_empty _ _ _ Hl He), lookup_empty. cbn. by f_equal.
Qed.

Lemma memory_read_entry i m v : mem_repr m v → read_entry i m = Ok (lv_log v !! i).
Proof.
  intros [Hc ? ? ? ? ? [f Hl]]. cbn. unfold MemoryStorage.read_entry, MemoryStorage.state.
  rewrite Hc, (lr_lookup _ _ _ Hl). pose proof (lr_first _ _ _ Hl).
  destruct (N.eqb_spec i 0) as [->|Hi]; [destruct (N.leb_spec f 0); [lia|done]|].
  unfold mbind, result_bind. destruct (ms_log (mem_state m)) as [|e l] eqn:Hlog.
  - by destruct (f <=? i).
  - rewrite (log_repr_head _ _ _ Hl _ _ eq_refl).
    destruct (N.ltb_spec i f), (N.leb_spec f i); try lia; done.
Qed.

Lemma memory_read_entries a b m v :
  mem_repr m v → a ≠ 0 → (∀ i, a ≤ i ≤ b → is_Some (lv_log v !! i)) →
  read_entries a b m = Ok (lv_range v a b).
Proof.
  intros [Hc ? ? ? ? ? [f Hl]] Ha Hheld. cbn. unfold MemoryStorage.read_entries, MemoryStorage.state.
  destruct (N.eqb_spec a 0); [done|]. destruct (N.ltb_spec b a).
  { unfold lv_range, u64_range. by replace (b + 1 - a) with 0 by lia. }
  rewrite Hc. unfold mbind, result_bind.
  destruct (proj1 (log_repr_some _ _ _ Hl a)) as [Hfa Hal]; [apply Hheld; lia|].
  destruct (ms_log (mem_state m)) as [|e l] eqn:Hlog; [cbn in Hal; lia|].
  rewrite (log_repr_head _ _ _ Hl _ _ eq_refl). destruct (N.ltb_spec a f); [lia|].
  by rewrite (log_repr_slice _ _ _ Hl a b).
Qed.

(** ** The double stands for the store *)

(** [m] gives every answer that [s] gives. *)
Definition same_answer {A} (r r' : result LogStorageError A) : Prop :=
  match r with Ok x => r' = Ok x | Err e => io_error e end.

Lemma same_answer_of {A} (r r' : result LogStorageError A) x :
  reads_as r x → r' = Ok x → same_answer r r'.
Proof. intros Hr ->. destruct r; cbn in *; congruence. Qed.

Record stands_for {S} `{LogStorage S} (m : Memory) (s : S) : Prop := {
  sf_term : same_answer (current_term s) (current_term m);
  sf_vote : same_answer (voted_for s) (voted_for m);
  sf_committed : same_answer (last_committed s) (last_committed m);
  sf_snap_index : same_answer (last_included_index s) (last_included_index m);
  sf_snap_term : same_answer (last_included_term s) (last_included_term m);
  sf_last_index : same_answer (last_log_index s) (last_log_index m);
  sf_last_term : same_answer (last_log_term s) (last_log_term m);
  sf_entry i : U64 i → same_answer (read_entry i s) (read_entry i m);
  sf_range a b : U64 a → U64 b → a ≠ 0 →
    (∀ i, a ≤ i ≤ b → read_entry i m ≠ Ok None) → same_answer (read_entries a b s) (read_entries a b m);
}.

Lemma stands_for_view {S} `{LogStorageLaws S} m s v : mem_repr m v → repr s v → stands_for m s.
Proof.
  intros Hm Hs. destruct (memory_reads _ _ Hm) as (? & ? & ? & ? & ? & ? & ?). split.
  - by eapply same_answer_of; [apply current_term_law|].
  - by eapply same_answer_of; [apply voted_for_law|].
  - by eapply same_answer_of; [apply last_committed_law|].
  - by eapply same_answer_of; [apply last_included_index_law|].
  - by eapply same_answer_of; [apply last_included_term_law|].
  - by eapply same_answer_of; [apply last_log_index_law|].
  - by eapply same_answer_of; [apply last_log_term_law|].
  - intros i Hi. by eapply same_answer_of; [apply read_entry_law|apply memory_read_entry].
  - intros a b Ha Hb Hz Hheld. eapply same_answer_of; [by apply read_entries_law|].
    apply memory_read_entries; [done..|]. intros i Hi. specialize (Hheld i Hi).
    rewrite (memory_read_entry i m v Hm) in Hheld. by destruct (lv_log v !! i).
Qed.

Lemma scripts_follow {S} `{LogStorageLaws S} ops s s' m v :
  repr s v → mem_repr m v → script_fits v ops → run_ops ops s = (Ok tt, s') →
  ∃ m', run_ops ops m = (Ok tt, m') ∧ repr s' (view_ops ops v) ∧ mem_repr m' (view_ops ops v).
Proof.
  revert s m v. induction ops as [|op ops IH]; intros s m v Hs Hm.
  { cbn. intros _ [= <-]. by exists m. }
  intros [Hf Hfs] Hrun. cbn in Hrun |- *. unfold mbind, st_bind in Hrun |- *.
  destruct (run_op op s) as [[[]|] s1] eqn:Hs1; [|done].
  destruct (memory_follows op m v Hm Hf) as (m1 & -> & Hm1).
  apply (IH s1 m1 (view_op op v)); [by eapply store_follows|done..].
Qed.

(** C38: The in-memory double refines the same specification as the store on
    disk: a script of writes that appends where the log ends, and that a
    store following the trait's laws carries out, the double carries out as
    well, and afterwards every accessor, every entry and every range the log
    holds reads the same on both, unless the disk fails to answer. *)
Theorem memory_stands_for_store {S} `{LogStorageLaws S} ops s s' :
  repr s empty_view → script_fits empty_view ops → run_ops ops s = (Ok tt, s') →
  ∃ m, run_ops ops MemoryStorage.new = (Ok tt, m) ∧ stands_for m s'.
Proof.
  intros Hs Hf Hrun. assert (mem_repr MemoryStorage.new empty_view) as Hm.
  { split; try done. exists 1. by apply log_repr_nil. }
  destruct (scripts_follow _ _ _ _ _ Hs Hm Hf Hrun) as (m & Hrun' & Hs' & Hm').
  exists m. split; [done|by eapply stands_for_view].
Qed.

(** Where they part: a range that reaches past the end is empty in memory,
    and an append that leaves a gap is refused. *)
Lemma memory_range_past_end e :
  le_index e = 1 → U64 (le_term e) →
  ∃ m, run_ops [OpAppend [e]] MemoryStorage.new = (Ok tt, m) ∧
    read_entries 1 2 m = Ok [] ∧ read_entries 1 1 m = Ok [e].
Proof.
  destruct e as [t i d]. cbn. intros -> Ht. eexists. split; [reflexivity|]. by split.
Qed.
Lemma memory_refuses_gap e :
  le_index e = 2 →
  (run_ops [OpAppend [e]] MemoryStorage.new).1 = Err (LS_Invariant "Non-contiguous log append").
Proof. destruct e as [t i d]. cbn. by intros ->. Qed.

(** *** A script on the disk and in memory *)

From S2P Require Import Timing Node Engine Concrete.

Definition entry_at (i : LogIndex) : LogEntry := LogEntry_new i 2 [i].
Definition script : list StorageOp :=
  [OpHardState 2 (Some 3); OpAppend [entry_at 1; entry_at 2; entry_at 3]; OpTruncate 3;
   OpAppendCommit [entry_at 3; entry_at 4; entry_at 5] 3; OpSnapshot 2 2; OpTruncateFront 2;
   OpAppend [entry_at 6]; OpCommitted 6].
Definition scripted : DB := (run_ops (S:=DB) script MemSled.empty).2.

Lemma memory_stands_for_store_witness :
  ∃ m, run_ops script MemoryStorage.new = (Ok tt, m) ∧ stands_for m scripted ∧
    read_entries 3 5 m = Ok [entry_at 3; entry_at 4; entry_at 5].
Proof.
  destruct (memory_stands_for_store (S:=DB) script MemSled.empty scripted) as (m & Hrun & Hm).
  - apply empty_repr.
  - repeat split; try (repeat constructor; vm_compute; done); by apply (bool_decide_unpack _).
  - by vm_compute.
  - exists m. split; [done|]. split; [done|]. vm_compute in Hrun. by injection Hrun as <-.
Defined.
