(* ===== verification/StorageProps.v ===== *)
(** What the storage engine guarantees its callers: hard state and log
    entries written are read back, also after a crash, truncation removes
    exactly the suffix or the prefix, and a store that holds a view never
    reports corruption. *)
From S2P Require Import Prelude Machine Types Wire Sled Storage SledStore Timing Node.

Section props.
Context {D : Type} `{SledLaws D} `{!Message LogEntry, !Message HardState} `{!MessageLaws LogEntry, !MessageLaws HardState}.
Implicit Types (d : D) (v : LogView).

(** C12: a hard state that [save_hard_state] has acknowledged survives a crash:
    once the process has restarted on the same files, the term and the vote
    read back are the ones saved, whatever the store held before. *)
Theorem hard_state_survives_crash d d1 d2 v t o :
  store_repr d v → U64 t → vote_ok o →
  SledStorage.save_hard_state t o d = (Ok tt, d1) → sled_reopened d1 d2 →
  reads_as (SledStorage.current_term d2) t ∧ reads_as (SledStorage.voted_for d2) o.
Proof.
  intros Hv Ht Ho Hsave Hreopen.
  pose proof (save_hard_state_law t o d v Hv Ht Ho) as Hwp.
  destruct (wp_run _ _ _ _ _ _ Hwp Hsave) as [_ Hd].
  pose proof (λ w, reopened_law d1 d2 w) as Hre. destruct (Hre _ Hreopen Hd) as [Hr _].
  split; [apply (current_term_law _ _ Hr)|apply (voted_for_law _ _ Hr)].
Qed.

Lemma log_insert_lookup l es e :
  NoDup (le_index <$> es) → e ∈ es → log_insert l es !! le_index e = Some e.
Proof.
  unfold log_insert. revert l. induction es as [|e0 es IH]; intros l; [by intros _ ?%elem_of_nil|].
  cbn. intros [Hnin Hnd]%list.NoDup_cons [->|Hin]%elem_of_cons; [|by apply IH].
  clear IH. revert l. induction es as [|e1 es IH]; intros l; cbn.
  - apply lookup_insert_eq.
  - cbn in Hnin, Hnd. apply list.NoDup_cons in Hnd as [_ Hnd].
    rewrite insert_insert_ne by set_solver. apply IH; set_solver.
Qed.

Lemma log_insert_lookup_ne l es i :
  i ∉ (le_index <$> es) → log_insert l es !! i = l !! i.
Proof.
  unfold log_insert. revert l. induction es as [|e es IH]; intros l Hnin; [done|].
  cbn in *. rewrite IH by set_solver. apply lookup_insert_ne. set_solver.
Qed.

(** Entries that [append_entries] has acknowledged are read back, one by
    one, under their own index, after a crash as well; every other index
    reads as before. *)
Theorem appended_entries_survive_crash d d1 d2 v es :
  store_repr d v → Forall wire_ok es → NoDup (le_index <$> es) →
  SledStorage.append_entries es d = (Ok tt, d1) → sled_reopened d1 d2 →
  (∀ e, e ∈ es → reads_as (SledStorage.read_entry (le_index e) d2) (Some e)) ∧
  (∀ i, U64 i → i ∉ (le_index <$> es) → reads_as (SledStorage.read_entry i d2) (lv_log v !! i)).
Proof.
  intros Hv Hes Hnd Hrun Hreopen.
  pose proof (append_entries_law es d v) as Hlaw.
  destruct (wp_run _ _ _ _ _ _ (Hlaw Hv Hes) Hrun) as [_ Hd].
  pose proof (λ w, reopened_law d1 d2 w) as Hre. destruct (Hre _ Hreopen Hd) as [Hr _]. split.
  - intros e He. assert (U64 (le_index e)) as Hu.
    { eapply List.Forall_forall in Hes as (_ & Hu & _); [done|by apply list_elem_of_In]. }
    pose proof (read_entry_law _ _ _ Hr Hu) as Hread. cbn in Hread.
    by rewrite log_insert_lookup in Hread.
  - intros i Hi Hnin. pose proof (read_entry_law _ _ _ Hr Hi) as Hread. cbn in Hread.
    by rewrite log_insert_lookup_ne in Hread.
Qed.

(** [truncate_log i] removes the entries from [i] on and nothing else, so
    the log then ends before [i], or at the snapshot. *)
Theorem truncate_log_exact d d1 v i :
  store_repr d v → U64 i → SledStorage.truncate_log i d = (Ok tt, d1) →
  (∀ j, U64 j → reads_as (SledStorage.read_entry j d1) (if j <? i then lv_log v !! j else None)) ∧
  (∀ last, SledStorage.last_log_index d1 = Ok last → last < i ∨ last = lv_snap_index v).
Proof.
  intros Hv Hi Hrun.
  pose proof (truncate_log_law i d v) as Hlaw.
  destruct (wp_run _ _ _ _ _ _ (Hlaw Hv Hi) Hrun) as [Hr _]. split.
  - intros j Hj. pose proof (read_entry_law _ _ _ Hr Hj) as Hread. cbn in Hread.
    replace (if j <? i then lv_log v !! j else None) with (log_below i (lv_log v) !! j); [done|].
    unfold log_below. destruct (N.ltb_spec j i).
    + destruct (lv_log v !! j) eqn:He.
      * by apply map_lookup_filter_Some_2.
      * apply map_lookup_filter_None_2. by left.
    + apply map_lookup_filter_None_2. right. cbn. lia.
  - intros last Hlast. pose proof (last_log_index_law _ _ Hr) as Hread. cbn in Hread.
    rewrite Hlast in Hread. cbn in Hread. unfold lv_last_index in Hread. cbn in Hread.
    destruct (proj2 (max_key_insert_spec (log_below i (lv_log v)))) as [H0'|[e He]].
    + right. lia.
    + apply map_lookup_filter_Some in He as [_ He]. cbn in He. lia.
Qed.

(** A store that holds a view never reports corruption: whatever a read
    of the node returns, an error is the disk's and is not one that the Halt
    Mandate calls fatal. *)
Theorem reads_never_report_corruption d v i :
  store_repr d v → U64 i →
  (∀ e, node_read (S:=D) current_term d = Err e → is_fatal e = false) ∧
  (∀ e, node_read (S:=D) voted_for d = Err e → is_fatal e = false) ∧
  (∀ e, node_read (S:=D) last_log_index d = Err e → is_fatal e = false) ∧
  (∀ e, node_read (S:=D) last_log_term d = Err e → is_fatal e = false) ∧
  (∀ e, get_term_at (S:=D) i d = Err e → is_fatal e = false).
Proof.
  intros Hv Hi.
  assert (∀ A (f : D → result LogStorageError A) a e,
    reads_as (f d) a → node_read f d = Err e → is_fatal e = false) as Hread.
  { intros A f a e Hf. unfold node_read. destruct (f d); cbn in *; [done|].
    destruct Hf as [msg ->]. by intros [= <-]. }
  split_and!; intros e.
  - eapply Hread, current_term_law, Hv.
  - eapply Hread, voted_for_law, Hv.
  - eapply Hread, last_log_index_law, Hv.
  - eapply Hread, last_log_term_law, Hv.
  - unfold get_term_at, mbind, result_bind. destruct (i =? 0); [done|].
    destruct (node_read last_included_index d) as [j|e'] eqn:Hj.
    2: { intros [= ->]. eapply Hread; [apply last_included_index_law, Hv|exact Hj]. }
    destruct (i =? j); [eapply Hread, last_included_term_law, Hv|].
    destruct (node_read (read_entry i) d) as [o|e'] eqn:Ho; [done|].
    intros [= ->]. eapply Hread; [by apply read_entry_law|exact Ho].
Qed.
End props.

(** ** The properties at a concrete store *)

From S2P Require Import Engine Concrete.

Definition entry_1 : LogEntry := LogEntry_new 1 4 [7].
Definition entry_2 : LogEntry := LogEntry_new 2 5 [8; 9].
Definition saved : DB := (SledStorage.save_hard_state 4 (Some 3) MemSled.empty).2.
Definition appended : DB := (SledStorage.append_entries [entry_1; entry_2] MemSled.empty).2.
Definition truncated : DB := (SledStorage.truncate_log 2 appended).2.
Definition appended_view : LogView := set_log (log_insert ∅ [entry_1; entry_2]) empty_view.

Lemma entries_ok : Forall wire_ok [entry_1; entry_2].
Proof. repeat constructor; vm_compute; done. Qed.

Lemma appended_repr : store_repr appended appended_view.
Proof.
  pose proof (append_entries_law [entry_1; entry_2] MemSled.empty empty_view) as Hlaw.
  assert (SledStorage.append_entries [entry_1; entry_2] MemSled.empty = (Ok tt, appended)) as Hrun
    by (by vm_compute).
  by destruct (wp_run _ _ _ _ _ _ (Hlaw empty_repr entries_ok) Hrun) as [Hr _].
Qed.

Lemma hard_state_survives_crash_witness :
  reads_as (SledStorage.current_term (MemSled.reopen saved)) 4 ∧
  reads_as (SledStorage.voted_for (MemSled.reopen saved)) (Some 3).
Proof.
  apply (hard_state_survives_crash MemSled.empty saved (MemSled.reopen saved) empty_view);
    [apply empty_trees_repr|done|done|by vm_compute|done].
Defined.

Lemma appended_entries_survive_crash_witness :
  reads_as (SledStorage.read_entry 2 (MemSled.reopen appended)) (Some entry_2) ∧
  reads_as (SledStorage.read_entry 3 (MemSled.reopen appended)) None.
Proof.
  destruct (appended_entries_survive_crash MemSled.empty appended (MemSled.reopen appended)
    empty_view [entry_1; entry_2]) as [H1 H2];
    [apply empty_trees_repr|apply entries_ok|by apply (bool_decide_unpack _)|by vm_compute|done|].
  split; [apply (H1 entry_2); by right; left|].
  apply (H2 3); [done|]. by apply (bool_decide_unpack _).
Defined.

Lemma truncate_log_exact_witness :
  reads_as (SledStorage.read_entry 1 truncated) (Some entry_1) ∧
  reads_as (SledStorage.read_entry 2 truncated) None ∧
  (∀ last, SledStorage.last_log_index truncated = Ok last → last < 2 ∨ last = 0).
Proof.
  destruct (truncate_log_exact appended truncated appended_view 2) as [H1 H2];
    [apply appended_repr|done|by vm_compute|].
  split; [apply (H1 1); done|]. split; [apply (H1 2); done|apply H2].
Defined.

(** A disk that does not answer. *)
Definition mute_disk : DB := MemSled.mkDb ∅ ∅ false.
Definition mute_error : NodeError :=
  match get_term_at (S:=DB) 7 mute_disk with Err e => e | Ok _ => Protocol "" end.
Lemma reads_never_report_corruption_witness :
  get_term_at (S:=DB) 7 mute_disk = Err mute_error ∧ is_fatal mute_error = false.
Proof.
  split; [by vm_compute|].
  apply (reads_never_report_corruption mute_disk empty_view 7); [apply empty_trees_repr|done|by vm_compute].
Defined.
