(* ===== verification/Consensus.v ===== *)
(** Consensus orchestration (raft-engine/src/consensus): what the tick loop,
    the campaigns and the replication rounds do to the logical node.  The
    asynchronous tasks take the write lock, run one of the operations below
    and release it; between two of them any other task may run, so each
    locked block is an operation of its own. *)
From S2P Require Import Prelude Machine Types Wire Storage Timing Node Engine.

(** ** types.rs *)

(** [tonic::Status]. *)
Inductive Code : Type :=
| C_Cancelled | C_Unknown | C_InvalidArgument | C_DeadlineExceeded | C_NotFound
| C_PermissionDenied | C_ResourceExhausted | C_FailedPrecondition | C_Aborted
| C_Internal | C_Unavailable | C_DataLoss | C_Unauthenticated.
#[global] Instance Code_eq_dec : EqDecision Code.
Proof. solve_decision. Defined.
Record Status : Type := mkStatus { status_code : Code; status_message : string }.
#[global] Instance Status_eq_dec : EqDecision Status.
Proof. solve_decision. Defined.
Abbreviation RpcResult := (result Status) (only parsing).

Record ElectionCampaignParams : Type := mkCampaignParams {
  ec_term : Term;
  ec_node_id : NodeId;
  ec_last_log_index : LogIndex;
  ec_last_log_term : Term;
}.

Record ReplicationRoundParams : Type := mkRoundParams {
  rp_term : Term;
  rp_node_id : NodeId;
  rp_last_committed : LogIndex;
}.

Inductive VoteAction : Type := QuorumReached | Demoted | Continue.
Inductive ReplicationAction : Type := RA_Demoted | RA_Continue.

Inductive ReplicationOutcome : Type :=
| RO_AppendEntries (sent_prev_index : LogIndex) (sent_entries_len : N)
    (response : AppendEntriesResponse)
| RO_InstallSnapshot (last_included_index : LogIndex) (response : InstallSnapshotResponse).

Inductive ReplicationStrategy : Type :=
| RS_AppendEntries (req : AppendEntriesRequest)
| RS_InstallSnapshot (last_included_index : LogIndex) (last_included_term : Term).

(** [(total_nodes / 2) + 1] with [total_nodes = peers + 1]. *)
Definition quorum_of (peers : nat) : N := N.of_nat ((peers + 1) / 2 + 1).

(** [values] sorted, [values\[(len - 1) / 2\]]. *)
Definition median (l : list N) : N :=
  default 0 (merge_sort N.le l !! ((length l - 1) / 2)%nat).

Section consensus.
Context {S G : Type} `{LogStorage S} `{RngExt G}.
Abbreviation eng := (st (LogicalNode S G) halt) (only parsing).

(** ** rpc.rs *)

(** The peer's [next_index], by default 1. *)
Definition next_index_of (l : Leader) (peer_id : NodeId) : LogIndex :=
  default 1 (ld_next_index l !! peer_id).

Definition build_append_entries_request (peer_id : NodeId) (term : Term)
    (node_id : NodeId) (last_committed : LogIndex) :
    eng (result NodeError AppendEntriesRequest) :=
  n ← st_get;
  let next_idx :=
    match ln_state n with
    | RS_Leader m => next_index_of (rn_state m) peer_id
    | _ => 1
    end in
  last_log_idx ← eng_last_log_index;
  match index_sub next_idx 1 with
  | Err e => mret (Err (Arithmetic e))
  | Ok prev_log_index =>
      prev_log_term ← eng_get_term_at prev_log_index;
      entries ← eng_read_entries next_idx last_log_idx;
      mret (Ok (AppendEntriesRequest_new term node_id prev_log_index prev_log_term
                  entries last_committed))
  end.

Definition determine_replication_strategy (peer_id : NodeId) (params : ReplicationRoundParams) :
    eng (result NodeError (option ReplicationStrategy)) :=
  n ← st_get;
  match ln_state n with
  | RS_Leader m =>
      let next_idx := next_index_of (rn_state m) peer_id in
      last_included ← eng_last_included_index;
      if next_idx <=? last_included then
        last_term ← eng_last_included_term;
        mret (Ok (Some (RS_InstallSnapshot last_included last_term)))
      else
        r ← build_append_entries_request peer_id (rp_term params) (rp_node_id params)
              (rp_last_committed params);
        mret (match r with
              | Ok req => Ok (Some (RS_AppendEntries req))
              | Err e => Err e
              end)
  | _ => mret (Ok None)
  end.

Definition update_leader_last_committed : eng unit :=
  last_idx ← eng_last_log_index;
  current ← eng_current_term;
  n ← st_get;
  match ln_state n with
  | RS_Leader m =>
      let match_indices := (map_to_list (ld_match_index (rn_state m))).*2 ++ [last_idx] in
      let median_idx := median match_indices in
      commit_idx ← eng_last_committed;
      if commit_idx <? median_idx then
        t ← eng_get_term_at median_idx;
        if t =? current then eng_advance_last_committed median_idx else mret tt
      else mret tt
  | _ => mret tt
  end.

(** ** election.rs *)

Definition process_vote_response (term : Term) (peer_ids : list NodeId) (peer_id : NodeId)
    (res : RpcResult RequestVoteResponse) : eng VoteAction :=
  match res with
  | Err _ => mret Continue
  | Ok resp =>
      let resp_term := rvr_term resp in
      if term <? resp_term then
        _ ← into_follower resp_term None;
        mret Demoted
      else if rvr_vote_granted resp then
        let quorum := quorum_of (length peer_ids) in
        current ← eng_current_term;
        n ← st_get;
        match ln_state n with
        | RS_Candidate m =>
            if current =? term then
              let c := add_vote peer_id (rn_state m) in
              _ ← st_put (set_state (RS_Candidate (set_node_state c m)) n);
              if quorum <=? vote_count c then
                _ ← eng_last_log_index;
                _ ← into_leader peer_ids;
                mret QuorumReached
              else mret Continue
            else mret Continue
        | _ => mret Continue
        end
      else mret Continue
  end.

(** The read of the tally after [Continue] in [initiate_election]. *)
Definition read_tally (votes_granted : N) (n : LogicalNode S G) : N :=
  match ln_state n with
  | RS_Candidate m => vote_count (rn_state m)
  | _ => votes_granted
  end.

(** The promotion after the loop of [initiate_election]: the tally was read
    before, the write lock is taken anew. *)
Definition promote_after_loop (votes_granted : N) (peer_ids : list NodeId) : eng unit :=
  if quorum_of (length peer_ids) <=? votes_granted then into_leader peer_ids else mret tt.

(** The locked block of [initiate_pre_vote] when a peer reports its term;
    the result says whether the campaign is over. *)
Definition pre_vote_term_check (campaign_term peer_term : Term) : eng bool :=
  if campaign_term <? peer_term then
    current ← eng_current_term;
    if current <? peer_term then
      _ ← into_follower peer_term None;
      mret true
    else mret false
  else mret false.

Definition process_pre_vote_response (res : RpcResult PreVoteResponse) : bool :=
  match res with Ok resp => pvr_vote_granted resp | Err _ => false end.

(** The locked block of [initiate_pre_vote] on a quorum of pre-votes. *)
Definition pre_vote_won : eng ElectionCampaignParams :=
  _ ← eng_current_term;
  _ ← into_candidate;
  new_term ← eng_current_term;
  id ← eng_node_id;
  last ← eng_last_log_index;
  last_term ← eng_last_log_term;
  mret (mkCampaignParams new_term id last last_term).

(** ** replication.rs *)

Definition protocol_err {A} (msg : string) (r : result ArithmeticError A) :
    result NodeError A := map_err (λ _, Protocol msg) r.

(** The index bookkeeping for one outcome: the new leader data and whether
    a match index has moved. *)
Definition record_outcome (peer_id : NodeId) (outcome : ReplicationOutcome) (l : Leader) :
    result NodeError (Leader * bool) :=
  match outcome with
  | RO_AppendEntries sent_prev_index sent_entries_len response =>
      if aer_success response then
        new_match ← protocol_err "Arithmetic overflow calculating match_index"
                      (index_add sent_prev_index sent_entries_len);
        new_next ← protocol_err "Arithmetic overflow calculating next_index"
                     (index_add new_match 1);
        let current_match := default 0 (ld_match_index l !! peer_id) in
        if current_match <? new_match then
          mret (set_match_index (<[peer_id := new_match]> (ld_match_index l))
                  (set_next_index (<[peer_id := new_next]> (ld_next_index l)) l), true)
        else mret (l, false)
      else
        let current_next := next_index_of l peer_id in
        let last_log_index := aer_last_log_index response in
        new_next ←
          (if 0 <? last_log_index then
             next ← protocol_err "Arithmetic overflow calculating next_index backoff"
                      (index_add last_log_index 1);
             mret (N.min current_next next)
           else
             prev ← protocol_err "Arithmetic underflow calculating next_index backoff"
                      (index_sub current_next 1);
             mret (N.max prev 1));
        mret (set_next_index (<[peer_id := new_next]> (ld_next_index l)) l, false)
  | RO_InstallSnapshot last_included_index _ =>
      new_next ← protocol_err "Arithmetic overflow calculating next_index after snapshot"
                   (index_add last_included_index 1);
      mret (set_match_index (<[peer_id := last_included_index]> (ld_match_index l))
              (set_next_index (<[peer_id := new_next]> (ld_next_index l)) l), true)
  end.

Definition outcome_term (outcome : ReplicationOutcome) : Term :=
  match outcome with
  | RO_AppendEntries _ _ response => aer_term response
  | RO_InstallSnapshot _ response => isr_term response
  end.

Definition process_replication_response (term : Term) (peer_id : NodeId)
    (res : RpcResult (option ReplicationOutcome)) : eng (result NodeError ReplicationAction) :=
  match res with
  | Err _ | Ok None => mret (Ok RA_Continue)
  | Ok (Some outcome) =>
      let resp_term := outcome_term outcome in
      if term <? resp_term then
        _ ← into_follower resp_term None;
        mret (Ok RA_Demoted)
      else
        current ← eng_current_term;
        n ← st_get;
        match ln_state n with
        | RS_Leader m =>
            if current =? term then
              let quorum := quorum_of (size (ld_next_index (rn_state m))) in
              let l := acknowledge_heartbeat peer_id quorum (rn_state m) in
              _ ← st_put (set_state (RS_Leader (set_node_state l m)) n);
              match record_outcome peer_id outcome l with
              | Err e => mret (Err e)
              | Ok (l', last_committed_updated) =>
                  _ ← st_put (set_state (RS_Leader (set_node_state l' m)) n);
                  _ ← (if last_committed_updated : bool then update_leader_last_committed
                       else mret tt);
                  mret (Ok RA_Continue)
              end
            else mret (Ok RA_Continue)
        | _ => mret (Ok RA_Continue)
        end
  end.

(** The spawned round: an error of a response is fatal. *)
Definition replication_response_step (term : Term) (peer_id : NodeId)
    (res : RpcResult (option ReplicationOutcome)) : eng ReplicationAction :=
  r ← process_replication_response term peer_id res; or_fatal r.

(** ** lifecycle.rs *)

Definition should_compact_log (snapshot_threshold : N) (is_frozen : bool) : eng bool :=
  if is_frozen then mret false
  else
    applied ← eng_last_applied;
    last_snap ← eng_last_included_index;
    let log_length := default 0 (ok (index_sub applied last_snap)) in
    mret (snapshot_threshold <? log_length).

(** What the locked block of one tick hands to the tasks it spawns. *)
Record TickDispatch : Type := mkDispatch {
  td_action : TickAction;
  td_compaction : option (LogIndex * Term);
  td_campaign : option ElectionCampaignParams;
  td_pre_vote : option ElectionCampaignParams;
  td_replication : option ReplicationRoundParams;
}.

Definition campaign_params (term : Term) : eng ElectionCampaignParams :=
  id ← eng_node_id;
  last ← eng_last_log_index;
  last_term ← eng_last_log_term;
  mret (mkCampaignParams term id last last_term).

(** The match on the action: transitions, and the parameters of the tasks. *)
Definition tick_dispatch (action : TickAction) (term : Term) (compaction : option (LogIndex * Term)) :
    eng TickDispatch :=
  match action with
  | StartElection =>
      _ ← into_candidate;
      new_term ← eng_current_term;
      params ← campaign_params new_term;
      mret (mkDispatch action compaction (Some params) None None)
  | StartPreVote =>
      _ ← into_pre_candidate;
      params ← campaign_params term;
      mret (mkDispatch action compaction None (Some params) None)
  | SendHeartbeat =>
      id ← eng_node_id;
      committed ← eng_last_committed;
      mret (mkDispatch action compaction None None (Some (mkRoundParams term id committed)))
  | _ => mret (mkDispatch action compaction None None None)
  end.

(** The node's part of the locked block of [spawn_tick_loop]; [is_frozen] is
    the shell's counter. *)
Definition tick_step (snapshot_threshold : N) (is_frozen : bool) : eng TickDispatch :=
  action ← tick;
  term ← eng_current_term;
  compact ← should_compact_log snapshot_threshold is_frozen;
  compaction ← (if compact : bool then
                  index ← eng_last_applied;
                  t ← eng_get_term_at index;
                  mret (Some (index, t))
                else mret None);
  tick_dispatch action term compaction.

(** The dispatch of [TickAction::StepDown]: a lock of its own. *)
Definition step_down : eng unit :=
  current ← eng_current_term;
  into_follower current None.
End consensus.
