(* ===== verification/VoteSpec.v ===== *)
(** What the node's mutations do to the persistent term and vote, proved
    against the interface of the store: reads, log writes, term changes,
    campaigns and vote grants, with every failure of the disk included. *)
From S2P Require Import Prelude Machine Types Wire Storage Timing Node.

(** ** Hard states *)

Abbreviation hard := (N * option N)%type (only parsing).
Definition hs (v : LogView) : hard := (lv_term v, lv_vote v).

(** The order in which a node's hard state may move: to a later term, or
    within a term from no vote to a vote. *)
Definition hs_le (h h' : hard) : Prop :=
  h.1 < h'.1 ∨ h.1 = h'.1 ∧ (h.2 = None ∨ h.2 = h'.2).

(** The hard state remembers a vote for [c] in term [t]. *)
Definition reflects (t : Term) (c : NodeId) (h : hard) : Prop :=
  t < h.1 ∨ t = h.1 ∧ h.2 = Some c.

#[global] Instance hs_le_refl : Reflexive hs_le.
Proof. intros h. right. auto. Qed.
#[global] Instance hs_le_trans : Transitive hs_le.
Proof.
  intros h1 h2 h3 [?|[? H1]] [?|[? H2]]; [left; lia..|].
  right. split; [lia|]. destruct H1 as [?|Heq]; [by left|]. by rewrite Heq.
Qed.
Lemma reflects_le t c h h' : reflects t c h → hs_le h h' → reflects t c h'.
Proof.
  intros [?|[? Hc]] [?|[? Hv]]; [left; lia..|]. right. split; [lia|].
  destruct Hv as [Hv|Hv]; congruence.
Qed.
Lemma reflects_fun t c c' h : reflects t c h → reflects t c' h → h.1 = t → c = c'.
Proof. intros [?|[_ H1]] [?|[_ H2]] ?; try lia. congruence. Qed.

Lemma add_vote_fresh id start timeout :
  add_vote id (Candidate_new start timeout) = mkCandidate {[id]} start timeout.
Proof. unfold add_vote, Candidate_new. f_equal. apply (right_id_L ∅ (∪)). Qed.

Section specs.
Context {S : Type} `{LogStorageLaws S}.
Implicit Types (s : S) (v : LogView).

(** Reads see [v], the disk holds [vd]. *)
Definition held s v vd : Prop := repr s v ∧ durable s vd.

(** The hard states move along [hs_le]; on disk, the old one or a later
    one. *)
Definition evolved v vd s : Prop :=
  ∃ v' vd', held s v' vd' ∧ hs_le (hs v) (hs v') ∧
            (hs vd' = hs vd ∨ hs_le (hs v) (hs vd')).
(** The hard state stays. *)
Definition steady v vd s : Prop :=
  ∃ v' vd', held s v' vd' ∧ hs v' = hs v ∧ (hs vd' = hs vd ∨ hs vd' = hs v).

Lemma held_steady s v vd : held s v vd → steady v vd s.
Proof. intros Hh. exists v, vd. auto. Qed.
Lemma steady_evolved v vd s : steady v vd s → evolved v vd s.
Proof.
  intros (v' & vd' & Hh & Heq & Hd). exists v', vd'. rewrite Heq. split_and!; [done..|].
  destruct Hd as [->| ->]; [by left|by right].
Qed.
Lemma steady_trans v vd v' vd' s :
  hs v' = hs v → (hs vd' = hs vd ∨ hs vd' = hs v) → steady v' vd' s → steady v vd s.
Proof.
  intros Hv Hd (v'' & vd'' & Hh & Heq & Hd'). exists v'', vd''.
  split_and!; [done|congruence|]. rewrite Hv in Hd'. intuition congruence.
Qed.

(** *** Reads *)

Lemma node_reads_spec {A} (f : S → result LogStorageError A) a s (Q : A → S → Prop) R :
  reads_as (f s) a → Q a s → (∀ e, is_fatal e = false → R e s) → wp (node_reads f) Q R s.
Proof.
  intros Hf HQ HR. apply wp_reads; unfold node_read; destruct (f s) as [a'|e]; cbn in *; try done.
  - intros ? [= <-]. by subst.
  - intros e' [= <-]. destruct Hf as [msg ->]. by apply HR.
Qed.

(** A read that returns agrees with the view. *)
Lemma node_read_Ok {A} (f : S → result LogStorageError A) a s x :
  reads_as (f s) a → node_read f s = Ok x → x = a.
Proof. unfold node_read. destruct (f s); cbn; [by intros -> [= <-]|done]. Qed.

(** *** Writes *)

Lemma written_held (v : LogView) (u : unit) s : written v u s → held s v v.
Proof. done. Qed.

Lemma failed_evolved s0 v vd vs e s :
  held s0 v vd → (∀ x, x ∈ vs → hs_le (hs v) (hs x)) → failed s0 vs e s → evolved v vd s.
Proof.
  intros [_ Hd0] Hvs (_ & (v' & Hin & Hv') & Hd).
  destruct (Hd vd Hd0) as (vd' & Hvd' & Hor). exists v', vd'.
  split_and!; [done|auto|]. destruct Hor as [->|]; auto.
Qed.
Lemma failed_steady s0 v vd vs e s :
  held s0 v vd → (∀ x, x ∈ vs → hs x = hs v) → failed s0 vs e s → steady v vd s.
Proof.
  intros [_ Hd0] Hvs (_ & (v' & Hin & Hv') & Hd).
  destruct (Hd vd Hd0) as (vd' & Hvd' & Hor). exists v', vd'.
  split_and!; [done|auto|]. destruct Hor as [->|]; auto.
Qed.

(** A write that does not touch the hard state. *)
Lemma log_write_spec (m : st S LogStorageError unit) s v vd v' vs :
  held s v vd → (∀ x, x ∈ vs → hs x = hs v) → hs v' = hs v →
  wp m (λ _ s', repr s' v' ∧ (durable s' v' ∨ s' = s)) (failed s vs) s →
  wp (node_write m) (λ _ s', steady v vd s') (λ _ s', steady v vd s') s.
Proof.
  intros Hh Hvs Hv' Hm. apply wp_map_err. wp_use Hm.
  - intros _ s' [Hr Hd]. destruct Hd as [Hd| ->].
    + exists v', v'. split_and!; [done..|]. by right.
    + exists v', vd. split_and!; [|done|by left]. split; [done|apply Hh].
  - intros e s'. by eapply failed_steady.
Qed.

Lemma hard_write_spec t o s v vd :
  held s v vd → U64 t → vote_ok o → hs_le (hs v) (t, o) →
  wp (node_write (save_hard_state t o))
    (λ _ s', held s' (set_hard_state t o v) (set_hard_state t o v))
    (λ _ s', evolved v vd s') s.
Proof.
  intros Hh Ht Ho Hle. apply wp_map_err.
  wp_use save_hard_state_law; [apply Hh|done..| |]; cbn beta.
  - done.
  - intros e s'. apply (failed_evolved s v vd); [done|].
    intros x [->|[->|Hx]%elem_of_cons]%elem_of_cons; [done|done|by apply elem_of_nil in Hx].
Qed.

(** ** shared.rs *)

Lemma advance_term_spec t s v vd :
  held s v vd → U64 t →
  wp (advance_term t)
    (λ _ s', evolved v vd s' ∧ lv_term v ≤ t ∧ (lv_term v = t → s' = s))
    (λ _ s', evolved v vd s') s.
Proof.
  intros Hh Ht. unfold advance_term. wp_steps.
  eapply node_reads_spec; [apply current_term_law, Hh| |]; cbn beta.
  2: { intros _ _. by apply steady_evolved, held_steady. }
  destruct (N.ltb_spec t (lv_term v)).
  { apply wp_fail. by apply steady_evolved, held_steady. }
  destruct (N.ltb_spec (lv_term v) t).
  - eapply wp_mono; [apply (hard_write_spec _ _ _ _ _ Hh); [done..|]|..]; cbn beta.
    + left. done.
    + intros _ s' Hh'. split_and!; [|done|lia].
      exists (set_hard_state t None v), (set_hard_state t None v).
      split_and!; [done|by left|]. right. by left.
    + done.
  - apply wp_ret. split_and!; [|done|done]. by apply steady_evolved, held_steady.
Qed.

Lemma try_into_follower_spec {R} (n : RaftNode R) t o tick timeout s v vd :
  held s v vd → U64 t →
  wp (try_into_follower n t o tick timeout)
    (λ m s', m = transition n (Follower_new o tick timeout) ∧ evolved v vd s' ∧
             lv_term v ≤ t)
    (λ _ s', evolved v vd s') s.
Proof.
  intros Hh Ht. unfold try_into_follower. wp_steps.
  eapply wp_mono; [by apply advance_term_spec|..]; cbn beta; [|done].
  intros _ s' (? & ? & _). by apply wp_ret.
Qed.

(** A campaign votes for the node itself in a new term, on disk. *)
Lemma campaign_spec {R} (n : RaftNode R) start timeout s v vd :
  held s v vd → valid_node_id (rn_node_id n) →
  wp (campaign n start timeout)
    (λ m s', let v' := set_hard_state (lv_term v + 1) (Some (rn_node_id n)) v in
       held s' v' v' ∧
       m = transition n (mkCandidate {[rn_node_id n]} start timeout))
    (λ _ s', evolved v vd s') s.
Proof.
  intros Hh Hid. unfold campaign. wp_steps.
  eapply node_reads_spec; [apply current_term_law, Hh| |]; cbn beta.
  2: { intros _ _. by apply steady_evolved, held_steady. }
  wp_steps. apply wp_lift.
  2: { intros e _. by apply steady_evolved, held_steady. }
  intros t' Ht'. destruct (term_add (lv_term v) 1) as [t|] eqn:Ht; [|done].
  injection Ht' as <-. apply newtype_add_Ok in Ht as [-> Ht].
  unfold advance_term_and_vote. wp_steps.
  eapply node_reads_spec; [apply current_term_law, Hh| |]; cbn beta.
  2: { intros _ _. by apply steady_evolved, held_steady. }
  destruct (N.ltb_spec (lv_term v + 1) (lv_term v)); [lia|].
  eapply wp_mono; [apply (hard_write_spec _ _ _ _ _ Hh); [done|done|]|..]; cbn beta.
  - left. cbn. lia.
  - intros _ s' Hh'. apply wp_ret. split; [done|].
    unfold transition, set_node_state. f_equal. apply add_vote_fresh.
  - done.
Qed.

Lemma try_into_leader_spec (n : RaftNode Candidate) peers tick s v vd :
  held s v vd →
  wp (try_into_leader n peers tick)
    (λ m s', s' = s ∧ rn_identity m = rn_identity n ∧
             rn_last_committed m = rn_last_committed n)
    (λ _ s', s' = s) s.
Proof.
  intros Hh. unfold try_into_leader. wp_steps.
  eapply node_reads_spec; [apply last_log_index_law, Hh| |]; cbn beta; [|done].
  wp_steps. apply wp_lift; [|done]. intros l _. by apply wp_ret.
Qed.

(** ** follower.rs *)

(** A granted vote is for the request's term, which is the node's own, is
    the first of the term or repeats it, and is on disk. *)
Lemma attempt_grant_vote_spec c t li lt s v vd :
  held s v vd → valid_node_id c →
  wp (attempt_grant_vote c t li lt)
    (λ granted s',
       if granted : bool then
         t = lv_term v ∧ hs_le (hs v) (t, Some c) ∧
         (lv_last_term v < lt ∨ lv_last_term v = lt ∧ lv_last_index v ≤ li) ∧
         held s' (set_hard_state t (Some c) v) (set_hard_state t (Some c) v)
       else s' = s)
    (λ _ s', evolved v vd s') s.
Proof.
  intros Hh Hc. unfold attempt_grant_vote. wp_steps.
  eapply node_reads_spec; [apply current_term_law, Hh| |]; cbn beta.
  2: { intros _ _. by apply steady_evolved, held_steady. }
  wp_steps. eapply node_reads_spec; [apply voted_for_law, Hh| |]; cbn beta.
  2: { intros _ _. by apply steady_evolved, held_steady. }
  destruct (_ && _) eqn:Hguard; [|by apply wp_ret].
  apply andb_true_iff in Hguard as [Hterm%N.eqb_eq Hvote].
  assert (hs_le (hs v) (t, Some c)) as Hle.
  { right. split; [done|]. apply orb_true_iff in Hvote as [Hv|Hv]; apply bool_decide_eq_true in Hv; auto. }
  wp_steps. apply wp_reads.
  2: { intros _ _. by apply steady_evolved, held_steady. }
  intros b Hb. destruct b; [|by apply wp_ret].
  assert (lv_last_term v < lt ∨ lv_last_term v = lt ∧ lv_last_index v ≤ li) as Hup.
  { unfold is_log_up_to_date in Hb. cbn in Hb.
    destruct (node_read last_log_term s) as [llt|] eqn:E1; cbn in Hb; [|done].
    destruct (node_read last_log_index s) as [lli|] eqn:E2; cbn in Hb; [|done].
    apply (node_read_Ok _ (lv_last_term v)) in E1; [|apply last_log_term_law, Hh].
    apply (node_read_Ok _ (lv_last_index v)) in E2; [|apply last_log_index_law, Hh].
    subst. injection Hb as Hb. destruct (N.eqb_spec lt (lv_last_term v)); cbn in Hb; lia. }
  unfold persist_vote. wp_steps.
  eapply node_reads_spec; [apply current_term_law, Hh| |]; cbn beta.
  2: { intros _ _. by apply steady_evolved, held_steady. }
  rewrite <-Hterm. wp_steps.
  eapply wp_mono; [apply (hard_write_spec _ _ _ _ _ Hh); [|done|done]|..]; cbn beta.
  - rewrite Hterm. eapply vo_term, repr_ok, Hh.
  - intros _ s' Hh'. apply wp_ret. by split_and!.
  - done.
Qed.

(** ** Operations that keep the hard state

    [g] finds the store in the state the operation threads. *)
Definition keeps {T E A} (g : T → S) (m : st T E A) : Prop :=
  ∀ t v vd, held (g t) v vd →
    wp m (λ _ t', steady v vd (g t')) (λ _ t', steady v vd (g t')) t.

Lemma keeps_bind {T E A B} (g : T → S) (m : st T E A) (k : A → st T E B) :
  keeps g m → (∀ a, keeps g (k a)) → keeps g (m ≫= k).
Proof.
  intros Hm Hk t v vd Hh. wp_step. eapply wp_mono; [by apply Hm| |done].
  intros a t' (v' & vd' & Hh' & Hv & Hd).
  eapply wp_mono; [by apply Hk|..]; intros; by eapply steady_trans.
Qed.
(** The continuation may rely on a fact about the value. *)
Lemma keeps_bind_value {T E A B} (g : T → S) (m : st T E A) (k : A → st T E B) (P : A → Prop) :
  keeps g m → (∀ t a t', m t = (Ok a, t') → P a) → (∀ a, P a → keeps g (k a)) →
  keeps g (m ≫= k).
Proof.
  intros Hm HP Hk t v vd Hh. wp_step. specialize (Hm t v vd Hh). apply wp_intro.
  - intros a t' Heq. pose proof (wp_run _ _ _ _ _ _ Hm Heq) as (v' & vd' & Hh' & Hv & Hd).
    eapply wp_mono; [apply Hk; [by eapply HP|done]|..]; intros; by eapply steady_trans.
  - intros e t' Heq. by pose proof (wp_run _ _ _ _ _ _ Hm Heq).
Qed.
Lemma keeps_ret {T E A} (g : T → S) (a : A) : keeps (E:=E) g (mret a).
Proof. intros t v vd Hh. apply wp_ret. by apply held_steady. Qed.
Lemma keeps_fail {T E A} (g : T → S) (e : E) : keeps (A:=A) g (st_fail e).
Proof. intros t v vd Hh. apply wp_fail. by apply held_steady. Qed.
Lemma keeps_reads {T E A} (g : T → S) (f : T → result E A) : keeps g (st_reads f).
Proof. intros t v vd Hh. apply wp_reads; intros; by apply held_steady. Qed.
Lemma keeps_lift {T E A} (g : T → S) (r : result E A) : keeps g (st_lift r).
Proof. intros t v vd Hh. apply wp_lift; intros; by apply held_steady. Qed.
Lemma keeps_gets {T E A} (g : T → S) (f : T → A) : keeps (E:=E) g (st_gets f).
Proof. intros t v vd Hh. apply wp_gets. by apply held_steady. Qed.
Lemma keeps_modify {T E} (g : T → S) (f : T → T) :
  (∀ t, g (f t) = g t) → keeps (E:=E) g (st_modify f).
Proof. intros Hf t v vd Hh. apply wp_modify. rewrite Hf. by apply held_steady. Qed.
Lemma keeps_on_store {X A} (m : st S NodeError A) :
  keeps id m → keeps fst (on_store (X:=X) m).
Proof. intros Hm [s x] v vd Hh. apply wp_zoom. by apply Hm. Qed.

Lemma keeps_write (m : st S LogStorageError unit) (f : LogView → LogView) (vs : LogView → list LogView) :
  (∀ v, hs (f v) = hs v) → (∀ v x, x ∈ vs v → hs x = hs v) →
  (∀ s v, repr s v → wp m (λ _ s', repr s' (f v) ∧ (durable s' (f v) ∨ s' = s)) (failed s (vs v)) s) →
  keeps id (node_write m).
Proof.
  intros Hf Hvs Hm s v vd Hh.
  apply (log_write_spec m s v vd (f v) (vs v)); [done|auto|auto|apply Hm, Hh].
Qed.
End specs.

#[export] Hint Resolve keeps_ret keeps_fail keeps_reads keeps_lift keeps_gets
  keeps_on_store : keeps.
Ltac keeps_step :=
  lazymatch goal with
  | |- keeps _ (mbind _ _) => apply keeps_bind; [|intros ?]
  | |- keeps _ (on_store _) => apply keeps_on_store
  | |- keeps _ (match ?x with _ => _ end) => destruct x
  | |- keeps _ (if ?x then _ else _) => destruct x
  | |- keeps _ (node_reads _) => apply keeps_reads
  | |- keeps _ (arith _) => apply keeps_lift
  | |- keeps _ _ => solve [eauto with keeps]
  end.

Section log_ops.
Context {S : Type} `{LogStorageLaws S}.

Ltac two_views :=
  intros v x [->|[->|Hx]%elem_of_cons]%elem_of_cons; [done|done|by apply elem_of_nil in Hx].
Ltac from_written Hlaw :=
  intros s v Hv; eapply wp_mono; [by apply Hlaw|intros _ s' []; auto|done].

Lemma keeps_append es : Forall wire_ok es → keeps id (node_write (append_entries es)).
Proof.
  intros Hes. apply (keeps_write _ (λ v, set_log (log_insert (lv_log v) es) v)
    (λ v, [v; set_log (log_insert (lv_log v) es) v])); [done|two_views|].
  from_written append_entries_law.
Qed.
Lemma keeps_save_committed i : U64 i → keeps id (node_write (save_last_committed i)).
Proof.
  intros Hi. apply (keeps_write _ (set_committed i) (λ v, [v; set_committed i v]));
    [done|two_views|]. from_written save_last_committed_law.
Qed.
Lemma keeps_append_and_commit es i :
  Forall wire_ok es → U64 i → keeps id (node_write (append_entries_and_advance_commit es i)).
Proof.
  intros Hes Hi.
  apply (keeps_write _ (λ v, set_committed i (set_log (log_insert (lv_log v) es) v))
    (λ v, [v; set_log (log_insert (lv_log v) es) v;
           set_committed i (set_log (log_insert (lv_log v) es) v)])); [done| |].
  - intros v x [->|[->|[->|Hx]%elem_of_cons]%elem_of_cons]%elem_of_cons; try done.
    by apply elem_of_nil in Hx.
  - from_written append_entries_and_advance_commit_law.
Qed.
Lemma keeps_truncate i : U64 i → keeps id (node_write (truncate_log i)).
Proof.
  intros Hi. apply (keeps_write _ (λ v, set_log (log_below i (lv_log v)) v)
    (λ v, [v; set_log (log_below i (lv_log v)) v])); [done|two_views|].
  intros s v Hv. eapply wp_mono; [by apply truncate_log_law|intros _ s' [? [?|[? _]]]; auto|done].
Qed.
Lemma keeps_truncate_front i : U64 i → keeps id (node_write (truncate_log_front i)).
Proof.
  intros Hi. apply (keeps_write _ (λ v, set_log (log_beyond i (lv_log v)) v)
    (λ v, [v; set_log (log_beyond i (lv_log v)) v])); [done|two_views|].
  from_written truncate_log_front_law.
Qed.
Lemma keeps_snapshot_metadata i t :
  U64 i → U64 t → keeps id (node_write (save_snapshot_metadata i t)).
Proof.
  intros Hi Ht. apply (keeps_write _ (set_snapshot i t) (λ v, [v; set_snapshot i t v]));
    [done|two_views|]. from_written save_snapshot_metadata_law.
Qed.

(** *** The node's log operations *)

Lemma keeps_cut_conflict es : Forall wire_ok es → keeps id (cut_conflict es).
Proof.
  induction 1 as [|e es He _ IH]; cbn [cut_conflict]; repeat keeps_step.
  apply keeps_truncate, He.
Qed.

Lemma select_new_sub next es l :
  select_new next es = Ok (Some l) → ∀ e, e ∈ l → e ∈ es.
Proof.
  revert next l. induction es as [|e es IH]; intros next l; cbn.
  { intros [= <-]. done. }
  destruct (next <=? le_index e).
  - destruct (negb _); [done|]. destruct (index_add next 1) as [next'|]; cbn; [|done].
    destruct (select_new next' es) as [[l'|]|] eqn:Hsel; cbn; try done.
    intros [= <-] x [->|Hx]%elem_of_cons; [by left|]. right. by eapply IH.
  - intros Hsel x Hx. right. by eapply IH.
Qed.

Lemma keeps_reconciled b : keeps fst (reconciled b).
Proof. unfold reconciled. repeat keeps_step. Qed.

Lemma keeps_persist_reconciled es o :
  Forall wire_ok es → (∀ i, o = Some i → U64 i) → keeps fst (persist_reconciled es o).
Proof.
  intros Hes Ho. unfold persist_reconciled. destruct es, o; repeat keeps_step.
  all: try (by apply keeps_modify).
  - apply keeps_save_committed. auto.
  - apply keeps_append_and_commit; auto.
  - by apply keeps_append.
Qed.

Lemma select_new_ok next es o :
  Forall wire_ok es → select_new next es = Ok o → ∀ l, o = Some l → Forall wire_ok l.
Proof.
  intros Hes Hsel l ->. apply List.Forall_forall. intros e He%list_elem_of_In.
  eapply select_new_sub in He; [|done]. eapply List.Forall_forall; [done|].
  by apply list_elem_of_In.
Qed.

Lemma keeps_reconcile_log pi pt es lc :
  Forall wire_ok es → U64 lc → keeps fst (reconcile_log pi pt es lc).
Proof.
  intros Hes Hlc. unfold reconcile_log.
  apply keeps_bind; [repeat keeps_step|intros consistent].
  destruct (negb consistent); [apply keeps_reconciled|].
  apply keeps_bind; [by apply keeps_on_store, keeps_cut_conflict|intros _].
  apply keeps_bind; [repeat keeps_step|intros last].
  apply keeps_bind; [repeat keeps_step|intros next_expected].
  apply keeps_bind_value with (P := λ o, ∀ l, o = Some l → Forall wire_ok l).
  { repeat keeps_step. }
  { intros [s0 n0] o t'. unfold on_store, st_zoom, arith, st_lift. cbn.
    destruct (select_new _ es) eqn:Hsel; cbn; [|done]. intros [= <- _].
    by eapply select_new_ok. }
  intros [to_append|] Happ; [|apply keeps_reconciled].
  keeps_step; [keeps_step|].
  apply keeps_bind_value with (P := λ o, ∀ i, o = Some i → U64 i).
  - repeat keeps_step.
  - intros t o t'. destruct (_ <? lc); cbn; [|by intros [= <- _]].
    unfold mbind, st_bind. destruct (match list.last to_append with _ => _ end t) as [[]]; [|done].
    intros [= <- _] i [= <-]. unfold U64 in *. lia.
  - intros o Ho. keeps_step; [|apply keeps_reconciled]. apply keeps_persist_reconciled; auto.
Qed.

(** The bound against the end of the log makes any index safe to pass. *)
Lemma keeps_update_commit {R} i : keeps fst (update_commit_index_only (R:=R) i).
Proof.
  intros [s n] v vd Hh. cbn in Hh. unfold update_commit_index_only. wp_steps. cbn.
  destruct (i <? rn_last_committed n); [apply wp_ret; by apply held_steady|].
  wp_steps. apply wp_zoom. eapply node_reads_spec; [apply last_log_index_law, Hh| |]; cbn beta.
  2: { intros _ _. cbn. by apply held_steady. }
  cbn. destruct (N.ltb_spec (lv_last_index v) i) as [|Hle]; [apply wp_fail; by apply held_steady|].
  assert (U64 i) as Hi.
  { pose proof (lv_last_index_U64 v (repr_ok _ _ (proj1 Hh))). unfold U64 in *. lia. }
  destruct (_ <? i); [|apply wp_ret; by apply held_steady].
  apply (keeps_bind fst); [by apply keeps_on_store, keeps_save_committed
    |intros; by apply keeps_modify|done].
Qed.
Lemma keeps_advance_horizon {R} i : keeps fst (advance_horizon_after_snapshot (R:=R) i).
Proof.
  unfold advance_horizon_after_snapshot.
  keeps_step; [apply keeps_update_commit|by apply keeps_modify].
Qed.

Lemma keeps_propose command : Forall is_byte command → keeps id (propose command).
Proof.
  intros Hc s v vd Hh. unfold propose. wp_steps.
  eapply node_reads_spec; [apply last_log_index_law, Hh| |]; cbn beta.
  2: { intros _ _. by apply held_steady. }
  wp_steps. apply wp_lift; [|intros; by apply held_steady].
  intros i Hi. destruct (index_add _ 1) as [j|] eqn:Hj; [|done]. injection Hi as <-.
  apply newtype_add_Ok in Hj as [_ Hj]. wp_steps.
  eapply node_reads_spec; [apply current_term_law, Hh| |]; cbn beta.
  2: { intros _ _. by apply held_steady. }
  wp_steps. eapply wp_mono; [apply keeps_append; [|done]|..]; cbn beta.
  - apply Forall_singleton. split_and!; [|done|done]. eapply vo_term, repr_ok, Hh.
  - intros _ s' Hs. by apply wp_ret.
  - done.
Qed.
End log_ops.
