(* ===== verification/LogSpec.v ===== *)
(** Log reconciliation as a function on views (raft-engine/src/node/
    follower.rs, [reconcile_log]), the refinement of the code to it, and what
    the function guarantees: contiguous logs stay contiguous, an accepted
    request leaves the leader's entries in place, the log and the commit index
    afterwards are exactly determined, and logs that match keep matching. *)
From S2P Require Import Prelude Machine Types Wire Storage Timing Node VoteSpec.

(** ** The specification *)

(** [get_term_at] on a view. *)
Definition term_at (v : LogView) (i : LogIndex) : Term :=
  if i =? 0 then 0
  else if i =? lv_snap_index v then lv_snap_term v
  else from_option le_term 0 (lv_log v !! i).

Definition consistent (v : LogView) (prev_index : LogIndex) (prev_term : Term) : bool :=
  (prev_index =? 0) ||
  ((prev_index <=? lv_last_index v) && (term_at v prev_index =? prev_term)).

Definition conflicts (v : LogView) (e : LogEntry) : bool :=
  negb (term_at v (le_index e) =? 0) && negb (term_at v (le_index e) =? le_term e).

Fixpoint cut (es : list LogEntry) (v : LogView) : LogView :=
  match es with
  | [] => v
  | e :: rest =>
      if conflicts v e then set_log (log_below (le_index e) (lv_log v)) v else cut rest v
  end.

Definition commit_to (lc committed last_new : LogIndex) : option LogIndex :=
  if committed <? lc then Some (N.min lc last_new) else None.

Definition with_commit (o : option LogIndex) (v : LogView) : LogView :=
  match o with Some c => set_committed c v | None => v end.

(** The answer, the view left behind and the volatile commit index. *)
Definition reconcile_view (pi : LogIndex) (pt : Term) (es : list LogEntry) (lc : LogIndex)
    (v : LogView) (committed : LogIndex) :
    result ArithmeticError (ReconciliationResult * LogView * LogIndex) :=
  if negb (consistent v pi pt) then Ok (mkReconciliation false (lv_last_index v), v, committed)
  else
    let v1 := cut es v in
    next ← index_add (lv_last_index v1) 1;
    selected ← select_new next es;
    match selected with
    | None => mret (mkReconciliation false (lv_last_index v1), v1, committed)
    | Some new =>
        let last_new := match list.last new with Some e => le_index e | None => lv_last_index v1 end in
        let commit := commit_to lc committed last_new in
        let v2 := with_commit commit (set_log (log_insert (lv_log v1) new) v1) in
        mret (mkReconciliation true (lv_last_index v2), v2, default committed commit)
    end.

Lemma set_log_id v : set_log (lv_log v) v = v.
Proof. by destruct v. Qed.

(** ** The refinement *)

Section refinement.
Context {S : Type} `{LogStorageLaws S}.
Implicit Types (s : S) (v : LogView).

Lemma get_term_at_view i s v x : repr s v → U64 i → get_term_at i s = Ok x → x = term_at v i.
Proof.
  intros Hv Hi. unfold get_term_at, term_at, mbind, result_bind.
  destruct (i =? 0); [by intros [= <-]|].
  destruct (node_read last_included_index s) as [j|] eqn:Hj; [|done].
  apply (node_read_Ok _ (lv_snap_index v)) in Hj as ->; [|by apply last_included_index_law].
  destruct (i =? lv_snap_index v).
  { intros Ht. apply (node_read_Ok _ (lv_snap_term v)) in Ht; [done|by apply last_included_term_law]. }
  destruct (node_read (read_entry i) s) as [o|] eqn:Ho; [|done].
  apply (node_read_Ok _ (lv_log v !! i)) in Ho as ->; [|by apply read_entry_law].
  by intros [= <-].
Qed.

Lemma verify_log_consistency_view pi pt s v b :
  repr s v → verify_log_consistency pi pt s = Ok b → b = consistent v pi pt.
Proof.
  intros Hv. unfold verify_log_consistency, consistent, mbind, result_bind.
  destruct (pi =? 0); [by intros [= <-]|].
  destruct (node_read last_log_index s) as [l|] eqn:Hl; [|done].
  apply (node_read_Ok _ (lv_last_index v)) in Hl as ->; [|by apply last_log_index_law].
  destruct (N.ltb_spec (lv_last_index v) pi).
  { intros [= <-]. cbn. destruct (N.leb_spec pi (lv_last_index v)); [lia|done]. }
  destruct (get_term_at pi s) as [t|] eqn:Ht; [|done]. intros [= <-]. cbn.
  destruct (N.leb_spec pi (lv_last_index v)); [|lia]. cbn.
  apply (get_term_at_view _ _ _ _ Hv) in Ht as ->; [done|].
  pose proof (lv_last_index_U64 v (repr_ok _ _ Hv)). unfold U64 in *. lia.
Qed.

Lemma cut_conflict_view es s v :
  repr s v → Forall wire_ok es →
  wp (cut_conflict es) (λ _ s', repr s' (cut es v)) (λ _ _, True) s.
Proof.
  intros Hv Hes. revert s Hv. induction Hes as [|e es He _ IH]; intros s Hv; cbn [cut_conflict cut].
  { by apply wp_ret. }
  wp_step. apply wp_reads; [|done]. intros t Ht.
  apply (get_term_at_view _ _ _ _ Hv) in Ht as ->; [|apply He]. unfold conflicts.
  destruct (negb _ && negb _); [|by apply IH].
  apply wp_map_err. eapply wp_mono; [apply (truncate_log_law _ _ _ Hv), He|..]; [|done].
  by intros _ s' [].
Qed.

Lemma node_reads_view {A} (f : S → result LogStorageError A) a s (Q : A → S → Prop) :
  reads_as (f s) a → Q a s → wp (node_reads f) Q (λ _ _, True) s.
Proof. intros Hf HQ. by eapply node_reads_spec. Qed.

Lemma persist_reconciled_view new o s (n : RaftNode Follower) v :
  repr s v → Forall wire_ok new → (∀ c, o = Some c → U64 c) →
  wp (persist_reconciled new o)
    (λ _ p, repr p.1 (with_commit o (set_log (log_insert (lv_log v) new) v)) ∧
            rn_last_committed p.2 = default (rn_last_committed n) o)
    (λ _ _, True) (s, n).
Proof.
  intros Hv Hnew Ho. unfold persist_reconciled.
  destruct new as [|e new], o as [c|]; cbn [with_commit default];
    rewrite ?(eq_refl : log_insert (lv_log v) [] = lv_log v), ?set_log_id.
  - wp_steps. apply wp_zoom, wp_map_err.
    eapply wp_mono; [apply (save_last_committed_law _ _ _ Hv); auto| |done].
    intros _ s' [Hs' _]. unfold set_committed_field. by wp_steps.
  - by apply wp_ret.
  - wp_steps. apply wp_zoom, wp_map_err.
    eapply wp_mono; [apply (append_entries_and_advance_commit_law _ _ _ _ Hv); auto| |done].
    intros _ s' [Hs' _]. unfold set_committed_field. by wp_steps.
  - apply wp_zoom, wp_map_err.
    eapply wp_mono; [apply (append_entries_law _ _ _ Hv); auto| |done].
    by intros _ s' [Hs' _].
Qed.

Lemma reconciled_view b s (n : RaftNode Follower) v :
  repr s v →
  wp (reconciled b) (λ res p, res = mkReconciliation b (lv_last_index v) ∧ p = (s, n))
    (λ _ _, True) (s, n).
Proof.
  intros Hv. unfold reconciled. wp_steps. apply wp_zoom.
  eapply node_reads_view; [by apply last_log_index_law|]. by apply wp_ret.
Qed.

Lemma commit_to_U64 lc c last i : U64 lc → commit_to lc c last = Some i → U64 i.
Proof.
  unfold commit_to. destruct (c <? lc); [|done]. intros Hu [= <-]. unfold U64 in *. lia.
Qed.

Lemma commit_advance_view new (committed lc : LogIndex) s (n : RaftNode Follower) v :
  repr s v →
  wp (if committed <? lc then
        last_new_idx ← (match list.last new with
                        | Some e => mret (le_index e)
                        | None => on_store (node_reads last_log_index)
                        end);
        mret (Some (N.min lc last_new_idx))
      else mret None)
    (λ o p, o = commit_to lc committed
              (match list.last new with Some e => le_index e | None => lv_last_index v end) ∧
            p = (s, n))
    (λ _ _, True) (s, n).
Proof.
  intros Hv. unfold commit_to. destruct (committed <? lc); [|by apply wp_ret].
  wp_steps. destruct (list.last new); [by wp_steps|]. apply wp_zoom.
  eapply node_reads_view; [by apply last_log_index_law|]. by wp_steps.
Qed.

(** [reconcile_log] computes [reconcile_view] whenever the disk lets it. *)
Lemma reconcile_log_view pi pt es lc s (n : RaftNode Follower) v :
  repr s v → Forall wire_ok es → U64 lc →
  wp (reconcile_log pi pt es lc)
    (λ res p, ∃ v', reconcile_view pi pt es lc v (rn_last_committed n)
                      = Ok (res, v', rn_last_committed p.2) ∧ repr p.1 v')
    (λ _ _, True) (s, n).
Proof.
  intros Hv Hes Hlc. unfold reconcile_log, reconcile_view. wp_steps.
  apply wp_zoom, wp_reads; [|done]. intros b Hb.
  apply (verify_log_consistency_view _ _ _ _ _ Hv) in Hb as ->. cbn [fst snd].
  destruct (negb (consistent v pi pt)).
  { eapply wp_mono; [by apply (reconciled_view false s n v)| |done].
    intros res p [-> ->]. by exists v. }
  wp_steps. apply wp_zoom. eapply wp_mono; [by apply cut_conflict_view| |done].
  intros [] s1 Hv1. cbn [fst snd]. wp_steps. apply wp_zoom.
  eapply node_reads_view; [by apply last_log_index_law|]. cbn [fst snd].
  wp_steps. apply wp_zoom, wp_lift; [|done]. intros next Hnext.
  destruct (index_add _ 1) as [next'|]; [|done]. injection Hnext as ->. cbn [fst snd].
  wp_steps. apply wp_zoom, wp_lift; [|done]. intros sel Hsel. cbn [fst snd].
  destruct (select_new next es) as [sel'|] eqn:Hs; [|done]. injection Hsel as ->.
  destruct sel as [new|].
  2: { eapply wp_mono; [by apply (reconciled_view false s1 n (cut es v))| |done].
       intros res p [-> ->]. exists (cut es v). cbn. by rewrite Hs. }
  wp_steps. cbn [fst snd].
  eapply wp_mono; [by apply (commit_advance_view new (rn_last_committed n) lc s1 n (cut es v))| |done].
  intros o p [-> ->]. wp_steps.
  eapply wp_mono; [apply (persist_reconciled_view new _ s1 n (cut es v)); [done| |]| |done].
  - by eapply select_new_ok.
  - intros c. by apply commit_to_U64.
  - intros [] [s2 n2] [Hv2 Hc2]. cbn [fst snd] in *.
    eapply wp_mono; [by apply reconciled_view| |done].
    intros res p [-> ->]. eexists. split; [|done]. cbn. by rewrite Hs, Hc2.
Qed.
End refinement.

(** ** Well-formed logs *)

(** Above the snapshot the log holds exactly the indices up to [a]. *)
Definition spans (v : LogView) (a : LogIndex) : Prop :=
  ∀ i, lv_snap_index v < i → is_Some (lv_log v !! i) ↔ i ≤ a.

(** No gap above the snapshot, and no entry of term 0, the term that stands
    for an absent entry. *)
Record well_formed (v : LogView) : Prop := {
  wf_spans : spans v (lv_last_index v);
  wf_terms i e : lv_log v !! i = Some e → 0 < le_term e;
}.

Lemma wf_present v i :
  well_formed v → lv_snap_index v < i → is_Some (lv_log v !! i) ↔ i ≤ lv_last_index v.
Proof. intros [Hs _]. apply Hs. Qed.

(** The entries sit at consecutive indices from [i] on. *)
Fixpoint run_from (i : LogIndex) (es : list LogEntry) : Prop :=
  match es with
  | [] => True
  | e :: rest => le_index e = i ∧ run_from (i + 1) rest
  end.

(** What a leader sends: consecutive entries of real terms. *)
Definition request_ok (pi : LogIndex) (es : list LogEntry) : Prop :=
  run_from (pi + 1) es ∧ Forall (λ e, 0 < le_term e) es.

Lemma spans_last v a : spans v a → lv_snap_index v ≤ a → lv_last_index v = a.
Proof.
  intros Ha Hs. unfold lv_last_index.
  destruct (max_key_insert_spec (lv_log v)) as [Hup Hin].
  destruct (decide (lv_snap_index v < a)) as [Hlt|].
  - apply N.le_antisymm.
    + destruct Hin as [->|Hin]; [lia|].
      destruct (decide (lv_snap_index v < max_key (lv_log v))); [|lia].
      apply Ha in Hin; lia.
    + specialize (Hup a ltac:(by apply Ha)). lia.
  - assert (lv_snap_index v = a) as <- by lia.
    destruct Hin as [->|Hin]; [lia|].
    destruct (decide (lv_snap_index v < max_key (lv_log v))) as [Hlt|]; [|lia].
    apply Ha in Hin; lia.
Qed.

Lemma run_from_index i es k e : run_from i es → es !! k = Some e → le_index e = i + N.of_nat k.
Proof.
  revert i k. induction es as [|x es IH]; intros i k Hr Hk; [done|].
  destruct Hr as [Hx Hes], k as [|k]; cbn in Hk.
  - injection Hk as ->. lia.
  - rewrite (IH (i + 1) k) by done. lia.
Qed.
Lemma run_from_drop i es k : run_from i es → run_from (i + N.of_nat k) (drop k es).
Proof.
  revert i k. induction es as [|x es IH]; intros i [|k] Hr; cbn [drop]; try done.
  - by rewrite N.add_0_r.
  - destruct Hr as [_ Hr]. replace (i + N.of_nat (S k)) with (i + 1 + N.of_nat k) by lia.
    by apply IH.
Qed.
Lemma run_from_app i es1 es2 :
  run_from i (es1 ++ es2) → run_from (i + N.of_nat (length es1)) es2.
Proof. intros Hr. rewrite <-(drop_app_length es1 es2). by apply run_from_drop. Qed.

(** The entry of a run at an index. *)
Definition run_at (i : LogIndex) (es : list LogEntry) (j : LogIndex) : option LogEntry :=
  if i <=? j then es !! N.to_nat (j - i) else None.

Lemma run_at_cons i e es j :
  run_at i (e :: es) j = if j =? i then Some e else run_at (i + 1) es j.
Proof.
  unfold run_at. destruct (N.eqb_spec j i) as [->|Hne].
  - rewrite N.leb_refl, N.sub_diag. done.
  - destruct (N.leb_spec i j), (N.leb_spec (i + 1) j); try lia; [|done].
    replace (N.to_nat (j - i)) with (S (N.to_nat (j - (i + 1)))) by lia. done.
Qed.

Lemma log_insert_run l i es j :
  run_from i es →
  log_insert l es !! j = match run_at i es j with Some e => Some e | None => l !! j end.
Proof.
  revert l i. induction es as [|e es IH]; intros l i Hr.
  - unfold run_at. cbn. by destruct (_ <=? _).
  - destruct Hr as [He Hr]. rewrite run_at_cons. change (log_insert l (e :: es))
      with (log_insert (<[le_index e := e]> l) es). rewrite (IH _ (i + 1)) by done. subst i.
    destruct (N.eqb_spec j (le_index e)) as [->|Hne].
    + unfold run_at. destruct (N.leb_spec (le_index e + 1) (le_index e)); [lia|].
      by rewrite lookup_insert_eq.
    + destruct (run_at _ es j); [done|]. by rewrite lookup_insert_ne.
Qed.

Lemma run_at_Some i es j :
  is_Some (run_at i es j) ↔ i ≤ j ∧ j < i + N.of_nat (length es).
Proof.
  unfold run_at. destruct (N.leb_spec i j).
  - rewrite lookup_lt_is_Some. lia.
  - split; [by intros []|lia].
Qed.
Lemma run_at_drop i es k j :
  i + N.of_nat k ≤ j → run_at (i + N.of_nat k) (drop k es) j = run_at i es j.
Proof.
  intros Hj. unfold run_at. destruct (N.leb_spec (i + N.of_nat k) j), (N.leb_spec i j); try lia.
  rewrite lookup_drop. f_equal. lia.
Qed.

(** ** The filter and the conflict scan on a run *)

Lemma select_new_run next i es o :
  run_from i es → i ≤ next → select_new next es = Ok o →
  o = Some (drop (N.to_nat (next - i)) es).
Proof.
  revert next i o. induction es as [|e es IH]; intros next i o Hr Hle; cbn.
  { intros [= <-]. by rewrite drop_nil. }
  destruct Hr as [-> Hr]. destruct (N.leb_spec next i).
  - assert (next = i) as -> by lia. rewrite N.eqb_refl, N.sub_diag. cbn.
    destruct (index_add i 1) as [next|] eqn:Hn; cbn; [|done].
    apply newtype_add_Ok in Hn as [-> _].
    destruct (select_new (i + 1) es) as [o'|] eqn:Hs; cbn; [|done].
    apply (IH _ (i + 1)) in Hs as ->; [|done|lia]. intros [= <-]. cbn.
    by rewrite N.sub_diag, drop_0.
  - intros Hs. apply (IH _ (i + 1)) in Hs as ->; [|done|lia].
    replace (N.to_nat (next - i)) with (S (N.to_nat (next - (i + 1)))) by lia. done.
Qed.

(** The scan keeps the log, or cuts it at the first entry in conflict. *)
Lemma cut_cases es v :
  (cut es v = v ∧ ∀ e, e ∈ es → conflicts v e = false) ∨
  ∃ es1 e es2, es = es1 ++ e :: es2 ∧ (∀ x, x ∈ es1 → conflicts v x = false) ∧
    conflicts v e = true ∧ cut es v = set_log (log_below (le_index e) (lv_log v)) v.
Proof.
  induction es as [|e es IH]; cbn [cut].
  { left. split; [done|]. by intros e ?%elem_of_nil. }
  destruct (conflicts v e) eqn:He.
  { right. exists [], e, es. split_and!; try done. by intros x ?%elem_of_nil. }
  destruct IH as [[-> IH]|(es1 & x & es2 & -> & Hno & Hx & ->)].
  - left. split; [done|]. intros y [->|Hy]%elem_of_cons; auto.
  - right. exists (e :: es1), x, es2. split_and!; try done.
    intros y [->|Hy]%elem_of_cons; auto.
Qed.

Lemma term_at_entry v i e :
  lv_snap_index v < i → lv_log v !! i = Some e → term_at v i = le_term e.
Proof.
  intros Hi He. unfold term_at. rewrite (proj2 (N.eqb_neq i 0)) by lia.
  rewrite (proj2 (N.eqb_neq i (lv_snap_index v))) by lia. by rewrite He.
Qed.

Lemma conflicts_present v e :
  well_formed v → conflicts v e = true → 0 < le_index e ∧ le_index e ≤ lv_last_index v.
Proof.
  intros Hwf. unfold conflicts, term_at. destruct (N.eqb_spec (le_index e) 0); [done|].
  intros Hc. split; [lia|]. destruct (N.eqb_spec (le_index e) (lv_snap_index v)) as [->|Hne].
  { unfold lv_last_index. lia. }
  destruct (lv_log v !! le_index e) eqn:He; [|done]. unfold lv_last_index.
  pose proof (max_key_upper (lv_log v) (le_index e) ltac:(by eexists)). lia.
Qed.

Lemma lookup_log_below i j l : log_below i l !! j = if j <? i then l !! j else None.
Proof.
  unfold log_below. rewrite map_lookup_filter. destruct (l !! j) as [e|]; cbn.
  - destruct (N.ltb_spec j i); [by rewrite option_guard_True|by rewrite option_guard_False by (cbn; lia)].
  - by destruct (_ <? _).
Qed.

(** ** What the scan leaves *)

(** Entries of the run at or below the end of the cut log hold no conflict. *)
Lemma cut_spec pi es v :
  well_formed v → run_from (pi + 1) es → (pi = 0 ∨ pi ≤ lv_last_index v) →
  let v1 := cut es v in
  well_formed v1 ∧ pi ≤ lv_last_index v1 ∧ lv_snap_index v1 = lv_snap_index v ∧
  (∀ i, i ≤ pi → lv_log v1 !! i = lv_log v !! i) ∧
  (∀ i, lv_snap_index v < i → i ≤ lv_last_index v1 → lv_log v1 !! i = lv_log v !! i) ∧
  (∀ e, e ∈ es → lv_snap_index v < le_index e → le_index e ≤ lv_last_index v1 →
        conflicts v e = false) ∧
  (∀ c, c ≤ lv_last_index v → (∀ e, e ∈ es → le_index e ≤ c → conflicts v e = false) →
        c ≤ lv_last_index v1).
Proof.
  intros Hwf Hrun Hpi. cbn zeta.
  destruct (cut_cases es v) as [[-> Hno]|(es1 & e & es2 & -> & Hno & He & ->)].
  { split_and!; try done; [lia|]. intros e He _ _. by apply Hno. }
  destruct (conflicts_present v e Hwf He) as [Hpos Hle].
  assert (pi + 1 ≤ le_index e) as Hidx.
  { apply run_from_app in Hrun as [-> _]. lia. }
  set (j := le_index e) in *. set (v1 := set_log (log_below j (lv_log v)) v).
  assert (spans v1 (N.max (j - 1) (lv_snap_index v))) as Hsp.
  { intros i Hi. cbn. rewrite lookup_log_below. cbn in Hi. destruct (N.ltb_spec i j).
    - rewrite (wf_present v i Hwf Hi). lia.
    - split; [by intros []|lia]. }
  assert (lv_last_index v1 = N.max (j - 1) (lv_snap_index v)) as Hlast.
  { apply spans_last; [done|]. cbn. lia. }
  split_and!.
  - split; [by rewrite Hlast|]. intros i x. cbn. rewrite lookup_log_below.
    destruct (i <? j); [apply wf_terms, Hwf|done].
  - rewrite Hlast. lia.
  - done.
  - intros i Hi. cbn. rewrite lookup_log_below. destruct (N.ltb_spec i j); [done|lia].
  - intros i Hi Hil. cbn. rewrite lookup_log_below. destruct (N.ltb_spec i j); [done|lia].
  - intros x Hx Hsnap Hxl. apply Hno. apply elem_of_app in Hx as [Hx|Hx]; [done|].
    exfalso. apply run_from_app in Hrun. apply list_elem_of_lookup_1 in Hx as [k Hk].
    pose proof (run_from_index _ _ _ _ Hrun Hk). destruct Hrun as [Hj _]. lia.
  - intros c Hc Hkeep. rewrite Hlast. destruct (decide (j ≤ c)) as [Hj|]; [|lia].
    specialize (Hkeep e ltac:(set_solver) Hj). congruence.
Qed.

(** ** What an accepted request leaves *)

Record installed (pi : LogIndex) (es : list LogEntry) (v v' : LogView) : Prop := {
  ins_wf : well_formed v';
  (** everything up to the request's anchor stays, *)
  ins_prefix i : i ≤ pi → lv_log v' !! i = lv_log v !! i;
  (** every entry sent is there, under its term, *)
  ins_entries e : e ∈ es → lv_snap_index v < le_index e →
    ∃ x, lv_log v' !! le_index e = Some x ∧ le_term x = le_term e;
  (** and nothing is there that was not in the log or in the request; *)
  ins_origin i x : lv_log v' !! i = Some x → lv_log v !! i = Some x ∨ x ∈ es ∧ le_index x = i;
  (** the log reaches at least the end of the request. *)
  ins_last : pi + N.of_nat (length es) ≤ lv_last_index v';
  (** A log that goes on beyond the request has not been touched. *)
  ins_tail i : lv_snap_index v < i → pi + N.of_nat (length es) < i → is_Some (lv_log v' !! i) →
    lv_log v' = lv_log v;
}.

Lemma append_run_spec pi es v1 k :
  well_formed v1 → request_ok pi es → pi ≤ lv_last_index v1 →
  k = N.to_nat (lv_last_index v1 - pi) →
  let v2 := set_log (log_insert (lv_log v1) (drop k es)) v1 in
  well_formed v2 ∧ lv_last_index v2 = N.max (lv_last_index v1) (pi + N.of_nat (length es)) ∧
  ∀ i, lv_log v2 !! i =
    if lv_last_index v1 <? i then
      match run_at (pi + 1) es i with Some e => Some e | None => lv_log v1 !! i end
    else lv_log v1 !! i.
Proof.
  intros Hwf [Hrun Hpos] Hpi ->. set (k := N.to_nat _). cbn zeta.
  set (v2 := set_log _ _).
  assert (pi + 1 + N.of_nat k = lv_last_index v1 + 1) as Hk by lia.
  pose proof (run_from_drop _ _ k Hrun) as Hdrop.
  assert (∀ i, lv_log v2 !! i =
    if lv_last_index v1 <? i then
      match run_at (pi + 1) es i with Some e => Some e | None => lv_log v1 !! i end
    else lv_log v1 !! i) as Hlook.
  { intros i. cbn. rewrite (log_insert_run _ _ _ i Hdrop). destruct (N.ltb_spec (lv_last_index v1) i).
    - by rewrite run_at_drop by lia.
    - unfold run_at at 1. destruct (N.leb_spec (pi + 1 + N.of_nat k) i); [lia|done]. }
  assert (spans v2 (N.max (lv_last_index v1) (pi + N.of_nat (length es)))) as Hsp.
  { intros i Hi. rewrite Hlook. destruct (N.ltb_spec (lv_last_index v1) i) as [Hlt|Hge].
    - pose proof (run_at_Some (pi + 1) es i) as Hr.
      destruct (run_at (pi + 1) es i) as [e|].
      + split; [|done]. intros _. destruct (proj1 Hr ltac:(by eexists)). lia.
      + rewrite (wf_present v1 i Hwf Hi). split; [lia|]. intros Hle.
        destruct (proj2 Hr); [lia|done].
    - rewrite (wf_present v1 i Hwf Hi). lia. }
  assert (lv_last_index v2 = N.max (lv_last_index v1) (pi + N.of_nat (length es))) as Hlast.
  { apply spans_last; [done|]. unfold v2, lv_last_index. cbn. lia. }
  split_and!; [|done..]. split; [by rewrite Hlast|].
  intros i e. rewrite Hlook. destruct (_ <? i); [|apply wf_terms, Hwf].
  destruct (run_at (pi + 1) es i) as [x|] eqn:Hx; [|apply wf_terms, Hwf].
  intros [= <-]. unfold run_at in Hx. destruct (_ <=? i); [|done].
  by eapply (Forall_lookup_1 _ es) in Hpos.
Qed.

Lemma with_commit_fields o v :
  lv_log (with_commit o v) = lv_log v ∧ lv_snap_index (with_commit o v) = lv_snap_index v.
Proof. by destruct o. Qed.
Lemma well_formed_ext v v' :
  lv_log v' = lv_log v → lv_snap_index v' = lv_snap_index v → well_formed v → well_formed v'.
Proof.
  intros Hl Hs [Hsp Ht]. split.
  - unfold spans, lv_last_index. rewrite Hl, Hs. apply Hsp.
  - rewrite Hl. apply Ht.
Qed.
Lemma installed_ext pi es v v1 v2 :
  lv_log v2 = lv_log v1 → lv_snap_index v2 = lv_snap_index v1 →
  installed pi es v v1 → installed pi es v v2.
Proof.
  intros Hl Hs [Hwf Hp He Ho Hla Hta]. split; rewrite ?Hl; try done.
  - by eapply well_formed_ext.
  - unfold lv_last_index. by rewrite Hl, Hs.
Qed.

Lemma cut_sub es v i x : lv_log (cut es v) !! i = Some x → lv_log v !! i = Some x.
Proof.
  destruct (cut_cases es v) as [[-> _]|(_ & e & _ & _ & _ & _ & ->)]; [done|].
  cbn. rewrite lookup_log_below. by destruct (i <? _).
Qed.

Lemma installed_run pi es v k :
  well_formed v → request_ok pi es → (pi = 0 ∨ pi ≤ lv_last_index v) →
  k = N.to_nat (lv_last_index (cut es v) - pi) →
  installed pi es v (set_log (log_insert (lv_log (cut es v)) (drop k es)) (cut es v)).
Proof.
  intros Hwf Hreq Hpi Hk.
  destruct (cut_spec pi es v Hwf (proj1 Hreq) Hpi) as (Hwf1 & Hpi1 & Hs1 & Hpre & Hlow & Hno & _).
  destruct (append_run_spec pi es (cut es v) k Hwf1 Hreq Hpi1 Hk) as (Hwf2 & Hlast & Hlook).
  split; [done|..].
  - intros i Hi. rewrite Hlook. destruct (N.ltb_spec (lv_last_index (cut es v)) i); [lia|]. auto.
  - intros e He Hsnap. rewrite Hlook.
    apply list_elem_of_lookup_1 in He as [m Hm].
    pose proof (run_from_index _ _ _ _ (proj1 Hreq) Hm) as Hi.
    destruct (N.ltb_spec (lv_last_index (cut es v)) (le_index e)) as [Hlt|Hge].
    + exists e. split; [|done]. unfold run_at. destruct (N.leb_spec (pi + 1) (le_index e)); [|lia].
      replace (N.to_nat (le_index e - (pi + 1))) with m by lia. by rewrite Hm.
    + destruct (proj2 (wf_spans _ Hwf1 (le_index e) ltac:(by rewrite Hs1)) Hge) as [x Hx].
      exists x. split; [done|]. rewrite Hlow in Hx by done.
      pose proof (wf_terms v Hwf _ _ Hx) as Hp.
      specialize (Hno e ltac:(by apply list_elem_of_lookup_2 in Hm) Hsnap Hge).
      unfold conflicts in Hno. rewrite (term_at_entry v _ x) in Hno by done. lia.
  - intros i x. rewrite Hlook. destruct (_ <? i); [|by intros ?%cut_sub; left].
    destruct (run_at (pi + 1) es i) as [y|] eqn:Hy; [|by intros ?%cut_sub; left].
    intros [= <-]. right. unfold run_at in Hy. destruct (N.leb_spec (pi + 1) i); [|done].
    pose proof (run_from_index _ _ _ _ (proj1 Hreq) Hy). split; [|lia].
    by eapply list_elem_of_lookup_2.
  - rewrite Hlast. lia.
  - intros i Hi Hend Hsome. rewrite (wf_present _ i Hwf2 ltac:(cbn; by rewrite Hs1)), Hlast in Hsome.
    rewrite drop_ge by lia. cbn.
    assert (is_Some (lv_log (cut es v) !! i)) as [x Hx] by (apply (wf_present _ i Hwf1); [by rewrite Hs1|lia]).
    destruct (cut_cases es v) as [[-> _]|(es1 & e & es2 & -> & _ & _ & Hcut)]; [done|].
    rewrite Hcut in Hx. cbn in Hx. rewrite lookup_log_below in Hx.
    destruct (N.ltb_spec i (le_index e)); [|done].
    pose proof (run_from_app _ _ _ (proj1 Hreq)) as [Hj _]. rewrite length_app in Hend. cbn in Hend. lia.
Qed.

(** A request is accepted exactly when its anchor is in the log. *)
Lemma reconcile_view_spec pi pt es lc v committed res v' committed' :
  well_formed v → request_ok pi es →
  reconcile_view pi pt es lc v committed = Ok (res, v', committed') →
  rr_success res = consistent v pi pt ∧ rr_last_index res = lv_last_index v' ∧
  (committed ≤ lv_last_index v →
   (∀ e, e ∈ es → le_index e ≤ committed → conflicts v e = false) → committed ≤ committed') ∧
  committed' ≤ N.max committed (N.min lc (lv_last_index v')) ∧
  if consistent v pi pt then installed pi es v v' else v' = v ∧ committed' = committed.
Proof.
  intros Hwf Hreq. unfold reconcile_view. destruct (consistent v pi pt) eqn:Hc; cbn [negb].
  2: { intros [= <- <- <-]. cbn. split_and!; try done. lia. }
  assert (pi = 0 ∨ pi ≤ lv_last_index v) as Hpi by (unfold consistent in Hc; lia).
  destruct (cut_spec pi es v Hwf (proj1 Hreq) Hpi) as (Hwf1 & Hpi1 & _ & _ & _ & _ & Hcom).
  set (v1 := cut es v) in *. cbn.
  destruct (index_add (lv_last_index v1) 1) as [next|] eqn:Hn; cbn; [|done].
  apply newtype_add_Ok in Hn as [-> _].
  destruct (select_new _ es) as [sel|] eqn:Hsel; cbn; [|done].
  apply (select_new_run _ (pi + 1)) in Hsel as ->; [|apply Hreq|lia].
  replace (N.to_nat (lv_last_index v1 + 1 - (pi + 1))) with (N.to_nat (lv_last_index v1 - pi)) by lia.
  set (k := N.to_nat _). set (o := commit_to _ _ _). set (v2 := set_log _ _).
  intros [= <- <- <-]. cbn.
  destruct (with_commit_fields o v2) as [Hl Hs].
  assert (lv_last_index (with_commit o v2) = lv_last_index v2) as Hlast2.
  { unfold lv_last_index. by rewrite Hl, Hs. }
  assert (installed pi es v v2) as Hins by (by apply installed_run).
  destruct (append_run_spec pi es v1 k Hwf1 Hreq Hpi1 eq_refl) as (_ & Hlast & _).
  fold v2 in Hlast. rewrite Hlast2.
  set (last_new := match list.last (drop k es) with Some e => le_index e | None => lv_last_index v1 end) in *.
  assert (lv_last_index v1 ≤ last_new ≤ lv_last_index v2) as Hnew.
  { unfold last_new. destruct (list.last (drop k es)) as [e|] eqn:He; [|lia].
    rewrite last_lookup, lookup_drop in He.
    pose proof (run_from_index _ _ _ _ (proj1 Hreq) He).
    apply lookup_lt_Some in He. lia. }
  split_and!; try done.
  - intros Hle Hkeep. specialize (Hcom _ Hle Hkeep).
    unfold o, commit_to. destruct (N.ltb_spec committed lc); cbn; lia.
  - unfold o, commit_to. destruct (N.ltb_spec committed lc); cbn; lia.
  - by eapply installed_ext.
Qed.

(** ** The log and the commit index afterwards, exactly *)

(** The first entry sent that is in conflict with the log. *)
Definition first_conflict (es : list LogEntry) (v : LogView) : option LogEntry := List.find (conflicts v) es.
Lemma cut_first es v :
  cut es v = match first_conflict es v with
             | Some e => set_log (log_below (le_index e) (lv_log v)) v
             | None => v
             end.
Proof.
  unfold first_conflict. induction es as [|e es IH]; cbn; [done|]. by destruct (conflicts v e).
Qed.

(** What the log holds at [i], above the snapshot, after a request anchored at
    [pi]: its own entries before the first conflict, or all of them when there
    is none, and from there on the entries sent. *)
Definition log_after (pi : LogIndex) (es : list LogEntry) (v : LogView) (i : LogIndex) : option LogEntry :=
  match first_conflict es v with
  | Some e => if i <? le_index e then lv_log v !! i else run_at (pi + 1) es i
  | None => if i <=? lv_last_index v then lv_log v !! i else run_at (pi + 1) es i
  end.
(** A request that was taken: [c] and [c'] are the commit index in memory. *)
Record taken (pi : LogIndex) (es : list LogEntry) (lc : LogIndex) (v : LogView) (c : LogIndex)
    (v' : LogView) (c' : LogIndex) : Prop := {
  tk_snapshot : lv_snap_index v' = lv_snap_index v ∧ lv_snap_term v' = lv_snap_term v;
  tk_log i : lv_snap_index v < i → lv_log v' !! i = log_after pi es v i;
  tk_committed : c' = if c <? lc then N.min lc (lv_last_index v') else c;
  tk_saved : lv_committed v' = if c <? lc then c' else lv_committed v;
}.

Lemma appended_log pi es v k :
  well_formed v → request_ok pi es → (pi = 0 ∨ pi ≤ lv_last_index v) →
  k = N.to_nat (lv_last_index (cut es v) - pi) →
  ∀ i, lv_snap_index v < i → log_insert (lv_log (cut es v)) (drop k es) !! i = log_after pi es v i.
Proof.
  intros Hwf Hreq Hpi Hk i Hi.
  destruct (cut_spec pi es v Hwf (proj1 Hreq) Hpi) as (Hwf1 & Hpi1 & Hs1 & _).
  destruct (append_run_spec pi es (cut es v) k Hwf1 Hreq Hpi1 Hk) as (_ & _ & Hlook).
  specialize (Hlook i). cbn in Hlook. rewrite Hlook. unfold log_after. clear Hlook.
  pose proof (wf_present _ i Hwf1 ltac:(by rewrite Hs1)) as Hpres. rewrite cut_first in Hpres |- *.
  destruct (first_conflict es v) as [e|] eqn:He; cbn [lv_log set_log] in *.
  - apply List.find_some in He as [_ [_ Hle]%conflicts_present]; [|done].
    pose proof (wf_present v i Hwf Hi) as Hv. rewrite lookup_log_below in *.
    destruct (N.ltb_spec (lv_last_index (set_log (log_below (le_index e) (lv_log v)) v)) i) as [Hlt|Hge];
      destruct (N.ltb_spec i (le_index e)) as [Hie|Hie].
    + exfalso. apply N.lt_nge in Hlt. apply Hlt, Hpres, Hv. lia.
    + by destruct (run_at (pi + 1) es i).
    + done.
    + exfalso. destruct (proj2 Hpres Hge). done.
  - destruct (N.leb_spec i (lv_last_index v)), (N.ltb_spec (lv_last_index v) i); try lia; [done|].
    destruct (run_at (pi + 1) es i); [done|]. apply eq_None_not_Some. rewrite Hpres. lia.
Qed.

Lemma reconcile_view_exact pi pt es lc v committed res v' committed' :
  well_formed v → request_ok pi es → consistent v pi pt = true →
  reconcile_view pi pt es lc v committed = Ok (res, v', committed') →
  taken pi es lc v committed v' committed'.
Proof.
  intros Hwf Hreq Hc. unfold reconcile_view. rewrite Hc. cbn [negb].
  assert (pi = 0 ∨ pi ≤ lv_last_index v) as Hpi by (unfold consistent in Hc; lia).
  destruct (cut_spec pi es v Hwf (proj1 Hreq) Hpi) as (Hwf1 & Hpi1 & Hs1 & _).
  assert (lv_snap_term (cut es v) = lv_snap_term v ∧ lv_committed (cut es v) = lv_committed v) as [Hst1 Hc1]
    by (rewrite cut_first; by destruct (first_conflict es v)).
  cbn. destruct (index_add (lv_last_index (cut es v)) 1) as [next|] eqn:Hn; cbn; [|done].
  apply newtype_add_Ok in Hn as [-> _].
  destruct (select_new _ es) as [sel|] eqn:Hsel; cbn; [|done].
  apply (select_new_run _ (pi + 1)) in Hsel as ->; [|apply Hreq|lia].
  replace (N.to_nat (lv_last_index (cut es v) + 1 - (pi + 1))) with (N.to_nat (lv_last_index (cut es v) - pi)) by lia.
  set (k := N.to_nat _). set (last_new := match list.last (drop k es) with Some e => _ | None => _ end).
  set (v2 := set_log _ _). intros [= _ <- <-].
  destruct (append_run_spec pi es (cut es v) k Hwf1 Hreq Hpi1 eq_refl) as (_ & Hlast & _). fold v2 in Hlast.
  assert (last_new = lv_last_index v2) as Hnew.
  { unfold last_new. rewrite Hlast. destruct (list.last (drop k es)) as [e|] eqn:He.
    - rewrite last_lookup, lookup_drop in He. pose proof (run_from_index _ _ _ _ (proj1 Hreq) He).
      pose proof (lookup_lt_Some _ _ _ He). rewrite length_drop in *. lia.
    - apply last_None in He. pose proof (f_equal length He) as Hlen. rewrite length_drop in Hlen. cbn in Hlen. lia. }
  assert (∀ o, lv_last_index (with_commit o v2) = lv_last_index v2) as Hlast2 by by intros [].
  assert (∀ o, lv_log (with_commit o v2) = lv_log v2) as Hlog2 by by intros [].
  split.
  - unfold commit_to. by destruct (committed <? lc); cbn; rewrite Hs1, Hst1.
  - intros i Hi. rewrite Hlog2. by apply appended_log.
  - rewrite Hlast2. unfold commit_to. rewrite Hnew. by destruct (committed <? lc).
  - unfold commit_to. destruct (committed <? lc); cbn; [done|exact Hc1].
Qed.

(** ** Log Matching

    Logs without a snapshot: an entry shared by two logs, index and term,
    makes them equal up to it. *)
Definition uncompacted (v : LogView) : Prop := lv_snap_index v = 0.
Definition matches (v w : LogView) : Prop :=
  ∀ i x y, lv_log v !! i = Some x → lv_log w !! i = Some y → le_term x = le_term y →
  ∀ j, 0 < j → j ≤ i → lv_log v !! j = lv_log w !! j.

(** A request cut from the log of [vl]: the anchor and all that follows. *)
Definition sent_by (vl : LogView) (pi : LogIndex) (pt : Term) (es : list LogEntry) : Prop :=
  pt = term_at vl pi ∧ es = lv_range vl (pi + 1) (lv_last_index vl).

#[global] Instance matches_refl : Reflexive matches.
Proof. by intros v i x y _ _ _ j. Qed.
#[global] Instance matches_sym : Symmetric matches.
Proof. intros v w Hm i x y Hx Hy Ht j Hj Hi. symmetry. by eapply Hm. Qed.

Lemma omap_all_run (l : gmap N LogEntry) k a :
  (∀ i e, l !! i = Some e → le_index e = i) →
  (∀ i, a ≤ i → i < a + N.of_nat k → is_Some (l !! i)) →
  let es := omap (λ i, l !! i) ((λ d, a + N.of_nat d) <$> seq 0 k) in
  run_from a es ∧ length es = k ∧
  ∀ d e, es !! d = Some e → l !! (a + N.of_nat d) = Some e.
Proof.
  revert a. induction k as [|k IH]; intros a Hidx Hall; cbn zeta; [done|].
  assert ((λ d, a + N.of_nat d) <$> seq 0 (S k) = a :: ((λ d, a + 1 + N.of_nat d) <$> seq 0 k)) as ->.
  { cbn [seq]. rewrite fmap_cons, N.add_0_r, <-fmap_S_seq, <-list_fmap_compose. f_equal.
    apply list_fmap_ext. intros. cbn. lia. }
  destruct (Hall a) as [e He]; [lia..|]. cbn [omap list_omap]. rewrite He.
  destruct (IH (a + 1) Hidx) as (Hrun & Hlen & Hlook).
  { intros i Hlo Hhi. apply Hall; lia. }
  assert (∀ d, a + 1 + N.of_nat d = a + N.of_nat (S d)) as Hsucc by lia.
  split_and!.
  - cbn [run_from]. split; [by apply Hidx|done].
  - cbn. by f_equal.
  - intros [|d] x; cbn.
    + intros [= <-]. by rewrite N.add_0_r.
    + intros Hx. rewrite <-Hsucc. by apply Hlook.
Qed.

Lemma sent_by_request vl pi pt es :
  view_ok vl → well_formed vl → lv_snap_index vl ≤ pi → sent_by vl pi pt es →
  request_ok pi es ∧ Forall wire_ok es ∧
  (pi ≤ lv_last_index vl → pi + N.of_nat (length es) = lv_last_index vl) ∧
  (∀ e, e ∈ es → lv_log vl !! le_index e = Some e) ∧
  (∀ i, pi < i → i ≤ lv_last_index vl → ∃ e, e ∈ es ∧ lv_log vl !! i = Some e).
Proof.
  intros Hok Hwf Hsnap [_ ->]. unfold lv_range, u64_range.
  set (k := N.to_nat _).
  destruct (omap_all_run (lv_log vl) k (pi + 1)) as (Hrun & Hlen & Hlook).
  { intros i e He. by apply (vo_log _ Hok). }
  { intros i Hlo Hhi. apply (wf_present vl i Hwf); lia. }
  set (es := omap _ _) in *.
  assert (∀ e, e ∈ es → lv_log vl !! le_index e = Some e) as Hin.
  { intros e [d Hd]%list_elem_of_lookup_1. pose proof (Hlook _ _ Hd) as He.
    by destruct (vo_log _ Hok _ _ He) as [-> _]. }
  split_and!.
  - split; [done|]. apply list.Forall_forall. intros e He%Hin. by eapply wf_terms.
  - apply list.Forall_forall. intros e He%Hin. by apply (vo_log _ Hok) in He as [_ ?].
  - lia.
  - done.
  - intros i Hlo Hhi.
    destruct (lookup_lt_is_Some_2 es (N.to_nat (i - (pi + 1)))) as [e He]; [lia|].
    exists e. split; [by eapply list_elem_of_lookup_2|].
    rewrite <-(Hlook _ _ He). f_equal. lia.
Qed.

(** An accepted request makes the follower's log match every log that both
    the leader's and its own matched, and equal to the leader's over its
    whole length. *)
Lemma installed_matches vl v v' pi pt es :
  view_ok vl → well_formed vl → uncompacted vl → well_formed v → uncompacted v →
  sent_by vl pi pt es → consistent v pi pt → installed pi es v v' → matches vl v →
  (∀ j, 0 < j → j ≤ lv_last_index vl → lv_log v' !! j = lv_log vl !! j) ∧
  ∀ w, matches vl w → matches v w → matches v' w.
Proof.
  intros Hok Hwl Hul Hwf Hu Hsent Hcons [Hwf' Hpre Hent Horig Hlast Htail] Hm.
  unfold uncompacted in *.
  destruct (sent_by_request vl pi pt es Hok Hwl ltac:(lia) Hsent) as (_ & _ & Hlen & Hes & Hcover).
  destruct Hsent as [-> _].
  (* the anchor, and all before it, agree *)
  assert (pi ≤ lv_last_index vl ∧ ∀ j, 0 < j → j ≤ pi → lv_log v !! j = lv_log vl !! j) as [Hpl Hanchor].
  { unfold consistent in Hcons. destruct (N.eqb_spec pi 0) as [->|Hne]; [split; lia|].
    apply Is_true_true, andb_true_iff in Hcons as [Hle%N.leb_le Ht%N.eqb_eq].
    destruct (proj2 (wf_present v pi Hwf ltac:(lia)) Hle) as [x Hx].
    rewrite (term_at_entry v pi x) in Ht by (done || lia). pose proof (wf_terms v Hwf _ _ Hx).
    unfold term_at in Ht. rewrite (proj2 (N.eqb_neq pi 0) Hne), Hul in Ht.
    rewrite (proj2 (N.eqb_neq pi 0) Hne) in Ht.
    destruct (lv_log vl !! pi) as [y|] eqn:Hy; cbn in Ht; [|lia]. split.
    - apply (wf_present vl pi Hwl); [lia|by eexists].
    - intros j Hj Hji. symmetry. by eapply (Hm pi y x). }
  assert (∀ j, 0 < j → j ≤ lv_last_index vl → lv_log v' !! j = lv_log vl !! j) as Hfull.
  { intros j Hj Hjl. destruct (N.le_gt_cases j pi) as [Hle|Hgt].
    { rewrite Hpre by done. auto. }
    destruct (Hcover j Hgt Hjl) as (e & He & Hej). rewrite Hej.
    pose proof (Hes e He) as Hee.
    assert (le_index e = j) as Hidx by (by destruct (vo_log _ Hok _ _ Hej)).
    destruct (Hent e He ltac:(lia)) as (x & Hx & Ht). rewrite Hidx in Hx.
    rewrite Hx. destruct (Horig _ _ Hx) as [Hvx|[Hxe Hxj]].
    - rewrite <-Hvx, <-Hej. symmetry. by eapply (Hm j e x).
    - rewrite <-Hej, <-(Hes x Hxe). by rewrite Hxj. }
  split; [done|]. intros w Hlw Hvw i x y Hx Hy Ht j Hj Hji.
  destruct (N.le_gt_cases i (lv_last_index vl)) as [Hle|Hgt].
  - rewrite Hfull by lia. rewrite Hfull in Hx by lia. by eapply (Hlw i x y).
  - rewrite (Htail i) in Hx |- * by (lia || (rewrite ?Hx; eauto)). by eapply (Hvw i x y).
Qed.
