(* ===== verification/Election.v ===== *)
(** The abstract election protocol: what one node promises about its hard
    state and its role, as a labelled step relation, and the cluster of such
    nodes, in which two leaders of one term are the same node.  The engine is
    shown to refine it in the files that follow. *)
From S2P Require Import Prelude Machine Types Storage VoteSpec.

(** ** One node *)

Inductive ARole : Type :=
| AIdle
| ACampaign (votes : gset N)
| ALeading.

(** The hard state reads see, the one on disk, and the role. *)
Record Local : Type := mkLocal {
  l_hs : hard;
  l_disk : hard;
  l_role : ARole;
}.

Inductive label : Type :=
| Tau
| Grant (t : Term) (c : NodeId)   (** a vote for [c] in term [t] *)
| Count (q : NodeId).             (** the reply of [q] is tallied *)

Inductive lstep (quorum : N) (id : NodeId) : label → Local → Local → Prop :=
(** Demotion, a halt, a failed write: the role ends. *)
| L_idle h d r h' d' :
    hs_le h h' → d' = d ∨ hs_le h d' →
    lstep quorum id Tau (mkLocal h d r) (mkLocal h' d' AIdle)
(** Writes elsewhere: the disk may catch up. *)
| L_keep h d r d' :
    d' = d ∨ d' = h → lstep quorum id Tau (mkLocal h d r) (mkLocal h d' r)
(** A campaign: a new term, a vote for oneself, on disk. *)
| L_campaign t o d r :
    lstep quorum id (Grant (t + 1) id) (mkLocal (t, o) d r)
      (mkLocal (t + 1, Some id) (t + 1, Some id) (ACampaign {[id]}))
(** A vote for another candidate, on disk before it is answered. *)
| L_grant h d r t c :
    hs_le h (t, Some c) → r = AIdle →
    lstep quorum id (Grant t c) (mkLocal h d r) (mkLocal (t, Some c) (t, Some c) AIdle)
| L_count h d votes q :
    lstep quorum id (Count q) (mkLocal h d (ACampaign votes))
      (mkLocal h d (ACampaign ({[q]} ∪ votes)))
| L_elect h d votes :
    quorum ≤ N.of_nat (size votes) →
    lstep quorum id Tau (mkLocal h d (ACampaign votes)) (mkLocal h d ALeading)
(** A crash: what reads saw is gone. *)
| L_crash h d r : lstep quorum id Tau (mkLocal h d r) (mkLocal d d AIdle).

Inductive lsteps (quorum : N) (id : NodeId) : list label → Local → Local → Prop :=
| lsteps_nil L : lsteps quorum id [] L L
| lsteps_cons a l L L' L'' :
    lstep quorum id a L L' → lsteps quorum id l L' L'' → lsteps quorum id (a :: l) L L''.

Lemma lsteps_app quorum id l l' L L' L'' :
  lsteps quorum id l L L' → lsteps quorum id l' L' L'' → lsteps quorum id (l ++ l') L L''.
Proof. induction 1; [done|]. intros. econstructor; eauto. Qed.
Lemma lsteps_one quorum id a L L' : lstep quorum id a L L' → lsteps quorum id [a] L L'.
Proof. intros. econstructor; [done|constructor]. Qed.

(** ** The cluster *)

Section cluster.
Context (members : gset N).
Definition quorum : N := N.of_nat (size members / 2 + 1).

(** The local states and every vote ever given: voter, term, candidate. *)
Record ACluster : Type := mkACluster {
  ac_nodes : gmap N Local;
  ac_votes : gset (N * N * N);
}.

Definition votes_of (id : NodeId) (a : label) : gset (N * N * N) :=
  match a with Grant t c => {[(id, t, c)]} | _ => ∅ end.

(** A counted reply was given, for the candidate's own term, by a member. *)
Definition count_ok (C : ACluster) (id : NodeId) (L : Local) (a : label) : Prop :=
  match a with
  | Count q => q ∈ members ∧ (q, (l_hs L).1, id) ∈ ac_votes C
  | _ => True
  end.

Inductive astep : ACluster → ACluster → Prop :=
| A_step C id a L L' :
    id ∈ members → ac_nodes C !! id = Some L → count_ok C id L a →
    lstep quorum id a L L' →
    astep C (mkACluster (<[id := L']> (ac_nodes C)) (votes_of id a ∪ ac_votes C)).

Definition a_initial (C : ACluster) : Prop :=
  ac_votes C = ∅ ∧ ∀ id L, ac_nodes C !! id = Some L → l_role L = AIdle.

(** *** The invariant *)

Definition votes_reflected (C : ACluster) : Prop :=
  ∀ p t c, (p, t, c) ∈ ac_votes C →
    ∃ L, ac_nodes C !! p = Some L ∧ reflects t c (l_hs L) ∧ reflects t c (l_disk L).
Definition votes_unique (C : ACluster) : Prop :=
  ∀ p t c c', (p, t, c) ∈ ac_votes C → (p, t, c') ∈ ac_votes C → c = c'.
(** [votes] members have voted for [id] in [t]. *)
Definition voted (C : ACluster) (votes : gset N) (t : Term) (id : NodeId) : Prop :=
  votes ⊆ members ∧ ∀ q, q ∈ votes → (q, t, id) ∈ ac_votes C.
Definition role_backed (C : ACluster) (id : NodeId) (L : Local) : Prop :=
  match l_role L with
  | AIdle => True
  | ACampaign votes => voted C votes (l_hs L).1 id
  | ALeading => ∃ votes, voted C votes (l_hs L).1 id ∧ quorum ≤ N.of_nat (size votes)
  end.

Record ainv (C : ACluster) : Prop := {
  ai_reflected : votes_reflected C;
  ai_unique : votes_unique C;
  ai_backed : ∀ id L, ac_nodes C !! id = Some L → role_backed C id L;
}.

(** One node's step keeps what its past votes rely on. *)
Lemma lstep_reflects q id a L L' t c :
  lstep q id a L L' →
  reflects t c (l_hs L) → reflects t c (l_disk L) →
  reflects t c (l_hs L') ∧ reflects t c (l_disk L').
Proof.
  intros Hstep Hh Hd. destruct Hstep as [h d r h' d' Hle Hdisk|h d r d' Hdisk|t' o d r
    |h d r t' c' Hle _| | |]; cbn in *; try done.
  - split; [by apply (reflects_le _ _ h)|].
    destruct Hdisk as [->|]; [done|by apply (reflects_le _ _ h)].
  - destruct Hdisk as [->| ->]; done.
  - assert (hs_le (t', o) (t' + 1, Some id)) by (left; cbn; lia).
    split; by apply (reflects_le _ _ (t', o)).
  - split; by apply (reflects_le _ _ h).
Qed.

(** A new vote is remembered at once and is the only one of its term. *)
Lemma lstep_grant q id t c L L' :
  lstep q id (Grant t c) L L' →
  hs_le (l_hs L) (t, Some c) ∧ l_hs L' = (t, Some c) ∧ l_disk L' = (t, Some c).
Proof.
  inversion 1; subst; cbn; [|done]. split_and!; try done. left. cbn. lia.
Qed.

Lemma hs_le_reflects t c c' h : hs_le h (t, Some c) → reflects t c' h → c' = c.
Proof.
  intros [?|[? Hv]] [?|[? Hc]]; cbn in *; try lia. destruct Hv; congruence.
Qed.

Lemma voted_mono C C' votes t id :
  ac_votes C ⊆ ac_votes C' → voted C votes t id → voted C' votes t id.
Proof. intros Hsub [? Hv]. split; [done|]. intros q Hq. by apply Hsub, Hv. Qed.
Lemma role_backed_mono C C' id L :
  ac_votes C ⊆ ac_votes C' → role_backed C id L → role_backed C' id L.
Proof.
  intros Hsub. unfold role_backed. destruct (l_role L); [done|by apply voted_mono|].
  intros (votes & ? & ?). exists votes. split; [by eapply voted_mono|done].
Qed.

Lemma lstep_backed C C' id a L L' :
  id ∈ members → ac_votes C' = votes_of id a ∪ ac_votes C → count_ok C id L a →
  lstep quorum id a L L' → role_backed C id L → role_backed C' id L'.
Proof.
  intros Hid HC Hcount Hstep Hb.
  assert (role_backed C' id L) as Hb' by (eapply role_backed_mono; [|done]; set_solver).
  destruct Hstep as [| |t o d r| |h d votes q|h d votes Hq|]; try done.
  - split; [set_solver|]. intros q ->%elem_of_singleton. rewrite HC. cbn. set_solver.
  - destruct Hcount as [Hqm Hqv], Hb' as [Hsub Hv]. split; [set_solver|].
    intros q' [->%elem_of_singleton|Hq']%elem_of_union; [|by apply Hv].
    rewrite HC. set_solver.
  - exists votes. done.
Qed.

Lemma astep_inv C C' : ainv C → astep C C' → ainv C'.
Proof.
  intros Hinv Hs. destruct Hs as [D id a L L' Hid HL Hcount Hstep].
  destruct Hinv as [Hr Hu Hb]. split.
  - intros p t c Hin. cbn in *. apply elem_of_union in Hin as [Hin|Hin].
    + destruct a as [|t0 c0|]; cbn in Hin; [set_solver| |set_solver].
      apply elem_of_singleton in Hin as [= -> -> ->].
      apply lstep_grant in Hstep as (_ & Hh & Hd). exists L'. rewrite lookup_insert_eq, Hh, Hd.
      split_and!; [done|by right..].
    + destruct (Hr p t c Hin) as (Lp & HLp & Hh & Hd).
      destruct (decide (p = id)) as [->|Hne].
      * rewrite HL in HLp. injection HLp as <-. exists L'. rewrite lookup_insert_eq.
        split; [done|]. by eapply lstep_reflects.
      * exists Lp. by rewrite lookup_insert_ne.
  - assert (∀ t c c', a = Grant t c → (id, t, c') ∈ ac_votes D → c' = c) as Hnew.
    { intros t c c' -> Hin. destruct (Hr _ _ _ Hin) as (L0 & HL0 & Hh & _).
      rewrite HL in HL0. injection HL0 as <-.
      apply lstep_grant in Hstep as [Hle _]. by eapply hs_le_reflects. }
    intros p t c c' H1 H2. cbn in H1, H2.
    assert (∀ c, (p, t, c) ∈ votes_of id a → p = id ∧ a = Grant t c) as Hof.
    { intros c0. destruct a; cbn; set_solver. }
    apply elem_of_union in H1 as [H1|H1]; apply elem_of_union in H2 as [H2|H2];
      [| | |by eapply Hu].
    + apply Hof in H1 as [_ ->], H2 as [_ [=]]. done.
    + apply Hof in H1 as [-> ->]. symmetry. by eapply Hnew.
    + apply Hof in H2 as [-> ->]. by eapply Hnew.
  - intros p Lp HLp. cbn in HLp. destruct (decide (p = id)) as [->|Hne].
    + rewrite lookup_insert_eq in HLp. injection HLp as <-.
      eapply lstep_backed; [done|done|done|done|by apply Hb].
    + rewrite lookup_insert_ne in HLp by done.
      eapply role_backed_mono; [|by apply Hb]. cbn. set_solver.
Qed.

Lemma a_initial_inv C : a_initial C → ainv C.
Proof.
  intros [Hv Hidle]. split.
  - intros p t c. rewrite Hv. set_solver.
  - intros p t c c'. rewrite Hv. set_solver.
  - intros id L HL. unfold role_backed. by rewrite (Hidle _ _ HL).
Qed.

(** Two quorums of the members meet. *)
Lemma quorums_meet (v1 v2 : gset N) :
  v1 ⊆ members → v2 ⊆ members →
  quorum ≤ N.of_nat (size v1) → quorum ≤ N.of_nat (size v2) → ∃ q, q ∈ v1 ∧ q ∈ v2.
Proof.
  intros H1 H2 Hq1 Hq2. destruct (set_choose_or_empty (v1 ∩ v2)) as [[q Hq]|Hd].
  { exists q. set_solver. }
  assert (size (v1 ∪ v2) ≤ size members)%nat as Hle by (apply subseteq_size; set_solver).
  rewrite size_union in Hle by set_solver. unfold quorum in *.
  pose proof (Nat.div_mod_eq (size members) 2). pose proof (Nat.mod_upper_bound (size members) 2).
  lia.
Qed.

Lemma leaders_agree C p p' L L' :
  ainv C → ac_nodes C !! p = Some L → ac_nodes C !! p' = Some L' →
  l_role L = ALeading → l_role L' = ALeading → (l_hs L).1 = (l_hs L').1 → p = p'.
Proof.
  intros [_ Hu Hb] HL HL' Hr Hr' Ht.
  pose proof (Hb _ _ HL) as B1. pose proof (Hb _ _ HL') as B2.
  unfold role_backed in B1, B2. rewrite Hr in B1. rewrite Hr' in B2.
  destruct B1 as (v1 & [Hs1 Hv1] & Hq1), B2 as (v2 & [Hs2 Hv2] & Hq2).
  destruct (quorums_meet v1 v2) as (q & Hin1 & Hin2); [done..|].
  apply (Hu q (l_hs L).1); [by apply Hv1|rewrite Ht; by apply Hv2].
Qed.
End cluster.
