(* ===== verification/EngineSpec.v ===== *)
(** The logical node refines the abstract election protocol: each operation
    of engine.rs and of the consensus tasks, whether it returns or halts, is
    a sequence of steps of [Election.lstep]; only [handle_request_vote]
    grants votes to others and only [process_vote_response] counts them. *)
From S2P Require Import Prelude Machine Types Wire Storage Timing Node Engine Consensus VoteSpec Election.

Definition arole (r : RoleState) : ARole :=
  match r with
  | RS_Candidate n => ACampaign (ca_votes_received (rn_state n))
  | RS_Leader _ => ALeading
  | _ => AIdle
  end.

(** The node inside belongs to [id]. *)
Definition owned (id : NodeId) (r : RoleState) : Prop :=
  match r with
  | RS_Follower n => rn_node_id n = id
  | RS_PreCandidate n => rn_node_id n = id
  | RS_Candidate n => rn_node_id n = id
  | RS_Leader n => rn_node_id n = id
  | RS_Poisoned => True
  end.

(** An operation on the inner node that leaves its identity and its role data
    alone. *)
Definition frames {S R A} (op : st (S * RaftNode R) NodeError A) : Prop :=
  ∀ p, let p' := (op p).2 in
    rn_identity p'.2 = rn_identity p.2 ∧ rn_state p'.2 = rn_state p.2.

Lemma frames_bind {S R A B} (m : st (S * RaftNode R) NodeError A) (k : A → st (S * RaftNode R) NodeError B) :
  frames m → (∀ a, frames (k a)) → frames (m ≫= k).
Proof.
  intros Hm Hk p. unfold mbind, st_bind. specialize (Hm p). destruct (m p) as [[a|e] p'].
  - destruct Hm as [<- <-]. apply Hk.
  - done.
Qed.
Lemma frames_on_store {S R A} (m : st S NodeError A) :
  frames (R:=R) (on_store m).
Proof. intros [s n]. unfold on_store, st_zoom. cbn. by destruct (m s). Qed.
Lemma frames_modify {S R} (f : S * RaftNode R → S * RaftNode R) :
  (∀ p, rn_identity (f p).2 = rn_identity p.2 ∧ rn_state (f p).2 = rn_state p.2) →
  frames (st_modify f).
Proof. done. Qed.

Ltac frames_step :=
  lazymatch goal with
  | |- frames (mbind _ _) => apply frames_bind; [|intros ?]
  | |- frames (on_store _) => apply frames_on_store
  | |- frames (match ?x with _ => _ end) => destruct x
  | |- frames (if ?x then _ else _) => destruct x
  | |- frames _ => done
  end.

Lemma frames_update_commit {S R} `{LogStorage S} i :
  frames (R:=R) (update_commit_index_only i).
Proof. unfold update_commit_index_only. repeat frames_step. Qed.
Lemma frames_advance_horizon {S R} `{LogStorage S} i :
  frames (R:=R) (advance_horizon_after_snapshot i).
Proof.
  unfold advance_horizon_after_snapshot. apply frames_bind; [apply frames_update_commit|].
  intros _. done.
Qed.
Lemma frames_reconcile_log {S} `{LogStorage S} pi pt es lc :
  frames (reconcile_log pi pt es lc).
Proof. unfold reconcile_log, reconciled, persist_reconciled. repeat frames_step. Qed.

Section refinement.
Context {S G : Type} `{LogStorageLaws S} `{RngExt G}.
Context (q : N) (Hq : 1 ≤ q) (id : NodeId) (Hid : valid_node_id id).
Abbreviation node := (LogicalNode S G).
Abbreviation eng := (st (LogicalNode S G) halt) (only parsing).
Implicit Types (n : node) (L : Local) (v : LogView).

(** Between two operations a candidate has its own vote and not yet a
    quorum, unless one vote is a quorum. *)
Definition tally_ok (a : ARole) : Prop :=
  match a with
  | ACampaign votes => 1 ≤ N.of_nat (size votes) ∧ (N.of_nat (size votes) < q ∨ q = 1)
  | _ => True
  end.

(** [L] is what the protocol sees of the node [n]. *)
Definition models n L : Prop :=
  ∃ v vd, held (ln_store n) v vd ∧ L = mkLocal (hs v) (hs vd) (arole (ln_state n)) ∧
          owned id (ln_state n) ∧ tally_ok (arole (ln_state n)).

(** Labels of a node on its own: it votes for no one else. *)
Definition own (a : label) : Prop := a = Tau ∨ ∃ t, a = Grant t id.
Definition solo_moves L n' : Prop :=
  ∃ l L', models n' L' ∧ lsteps q id l L L' ∧ Forall own l.
Definition solo {A} (m : eng A) : Prop :=
  ∀ n L, models n L → wp m (λ _ n', solo_moves L n') (λ _ n', solo_moves L n') n.

Lemma solo_moves_refl n L : models n L → solo_moves L n.
Proof. intros Hm. exists [], L. split_and!; [done|constructor|constructor]. Qed.
Lemma solo_moves_trans L l L' n' :
  lsteps q id l L L' → Forall own l → solo_moves L' n' → solo_moves L n'.
Proof.
  intros Hs Ho (l' & L'' & Hm & Hs' & Ho'). exists (l ++ l'), L''.
  split_and!; [done|by eapply lsteps_app|by apply Forall_app].
Qed.
Lemma solo_moves_tau n' L L' : models n' L' → lstep q id Tau L L' → solo_moves L n'.
Proof.
  intros Hm Hs. exists [Tau], L'. split_and!; [done|by apply lsteps_one|].
  apply Forall_singleton. by left.
Qed.

(** *** Composition *)

Lemma wp_solo_bind {A B} (m : eng A) (k : A → eng B) n L :
  models n L → solo m → (∀ a, solo (k a)) →
  wp (m ≫= k) (λ _ n', solo_moves L n') (λ _ n', solo_moves L n') n.
Proof.
  intros Hm Hsm Hk. wp_step. eapply wp_mono; [by apply Hsm| |done].
  intros a n' (l & L' & Hm' & Hs & Ho).
  eapply wp_mono; [by apply Hk|..]; intros; by eapply solo_moves_trans.
Qed.
Lemma solo_bind {A B} (m : eng A) (k : A → eng B) :
  solo m → (∀ a, solo (k a)) → solo (m ≫= k).
Proof. intros ?? n L Hm. by apply wp_solo_bind. Qed.
Lemma solo_ret {A} (a : A) : solo (mret a).
Proof. intros n L Hm. apply wp_ret. by apply solo_moves_refl. Qed.
Lemma solo_fail {A} h : solo (A:=A) (st_fail h).
Proof. intros n L Hm. apply wp_fail. by apply solo_moves_refl. Qed.
Lemma solo_gets {A} (f : node → A) : solo (st_gets f).
Proof. intros n L Hm. apply wp_gets. by apply solo_moves_refl. Qed.
Lemma solo_get_bind {A} (k : node → eng A) :
  (∀ n L, models n L → wp (k n) (λ _ n', solo_moves L n') (λ _ n', solo_moves L n') n) →
  solo (st_get ≫= k).
Proof. intros Hk n L Hm. wp_steps. by apply Hk. Qed.

(** A change of the role that stays on the same side of the abstraction. *)
Lemma models_set_state n L r :
  models n L → arole r = arole (ln_state n) → owned id r → models (set_state r n) L.
Proof. intros (v & vd & Hh & -> & _ & Ht) Hr Ho. exists v, vd. cbn. by rewrite Hr. Qed.
Lemma models_idle n L r s v vd v' vd' :
  held (ln_store n) v vd → L = mkLocal (hs v) (hs vd) (arole (ln_state n)) →
  held s v' vd' → hs_le (hs v) (hs v') → (hs vd' = hs vd ∨ hs_le (hs v) (hs vd')) →
  arole r = AIdle → owned id r → solo_moves L (set_state r (set_store s n)).
Proof.
  intros Hh -> Hh' Hle Hd Hr Ho. eapply (solo_moves_tau _ _ (mkLocal (hs v') (hs vd') AIdle)).
  - exists v', vd'. cbn. by rewrite Hr.
  - by constructor.
Qed.
Lemma models_evolved n L r s v vd :
  held (ln_store n) v vd → L = mkLocal (hs v) (hs vd) (arole (ln_state n)) →
  evolved v vd s → arole r = AIdle → owned id r → solo_moves L (set_state r (set_store s n)).
Proof. intros ? ? (v' & vd' & ? & ? & ?) ? ?. by eapply models_idle. Qed.

Lemma solo_poisoned n L : models n L → solo_moves L (set_state RS_Poisoned n).
Proof.
  intros (v & vd & Hh & -> & _). apply (solo_moves_tau _ _ (mkLocal (hs v) (hs vd) AIdle)).
  - by exists v, vd.
  - constructor; [done|by left].
Qed.

(** *** The Halt Mandate *)

Lemma solo_apply_fatal {A} e : solo (A:=A) (apply_fatal e).
Proof. intros n L Hm. unfold apply_fatal. wp_steps. by apply solo_poisoned. Qed.
Lemma solo_or_fatal {A} (r : result NodeError A) : solo (or_fatal r).
Proof. destruct r; [apply solo_ret|apply solo_apply_fatal]. Qed.
Lemma solo_delegate_read {A} (f : S → result NodeError A) : solo (delegate_read f).
Proof.
  apply solo_get_bind. intros n L Hm.
  destruct (ln_state n); by (apply wp_ret || apply wp_fail); apply solo_moves_refl.
Qed.
Lemma solo_delegate_field {A} (f : ∀ R, RaftNode R → A) : solo (delegate_field f).
Proof.
  apply solo_get_bind. intros n L Hm.
  destruct (ln_state n); by (apply wp_ret || apply wp_fail); apply solo_moves_refl.
Qed.
Lemma solo_read_or_fatal {A} (f : S → result NodeError A) : solo (read_or_fatal f).
Proof. apply solo_bind; [apply solo_delegate_read|intros; apply solo_or_fatal]. Qed.

(** A read that returns saw the store. *)
Lemma read_or_fatal_spec {A} (f : S → result NodeError A) n L :
  models n L →
  wp (read_or_fatal f)
    (λ a n', n' = n ∧ f (ln_store n) = Ok a ∧ ln_state n ≠ RS_Poisoned)
    (λ _ n', solo_moves L n') n.
Proof.
  intros Hm. unfold read_or_fatal, delegate_read. wp_steps.
  destruct (ln_state n) eqn:Hst; try (apply wp_ret; destruct (f (ln_store n)) eqn:Hf;
    [by apply wp_ret|by unfold or_fatal, apply_fatal; wp_steps; apply solo_poisoned]).
  apply wp_fail. by apply solo_moves_refl.
Qed.

(** *** Mutations of the inner node *)

Lemma wp_run_node_steps {R A} (mk : RaftNode R → RoleState) (m : RaftNode R)
    (op : st (S * RaftNode R) NodeError A) n L :
  (∀ m', rn_identity m' = rn_identity m → rn_state m' = rn_state m →
     arole (mk m') = arole (mk m) ∧ (owned id (mk m) → owned id (mk m'))) →
  keeps fst op → frames op → models n L → ln_state n = mk m →
  wp (run_node mk m op)
    (λ _ n', ∃ L', models n' L' ∧ lstep q id Tau L L' ∧ ∃ m', ln_state n' = mk m')
    (λ _ _, False) n.
Proof.
  intros Hmk Hk Hf (v & vd & Hh & -> & Ho & Ht) Hst. unfold wp, run_node.
  specialize (Hk (ln_store n, m) v vd Hh). specialize (Hf (ln_store n, m)). cbn in Hf.
  unfold wp in Hk. destruct (op (ln_store n, m)) as [r [s' m']]. cbn in *.
  destruct Hf as [Hi Hs]. destruct (Hmk m' Hi Hs) as [Har How]. rewrite Hst in Ho, Ht |- *.
  assert (steady v vd s') as (v' & vd' & Hh' & Hv & Hd) by (by destruct r).
  exists (mkLocal (hs v') (hs vd') (arole (mk m'))). split_and!.
  - exists v', vd'. cbn. split; [done|]. split; [done|].
    split; [by apply How|by rewrite Har].
  - rewrite Hv, Har. by constructor.
  - by exists m'.
Qed.

Lemma mk_follower m m' :
  rn_identity m' = rn_identity m → rn_state m' = rn_state m →
  arole (RS_Follower m') = arole (RS_Follower m) ∧
  (owned id (RS_Follower m) → owned id (RS_Follower m')).
Proof. cbn. unfold rn_node_id. intros -> _. auto. Qed.

Lemma solo_delegate_mut {A} (op : ∀ R, st (S * RaftNode R) NodeError A) :
  (∀ R, keeps fst (op R)) → (∀ R, frames (op R)) → solo (delegate_mut op).
Proof.
  intros Hk Hf. apply solo_get_bind. intros n L Hm. destruct (ln_state n) eqn:Hst.
  5: { apply wp_fail. by apply solo_moves_refl. }
  all: eapply wp_mono; [eapply wp_run_node_steps; [|apply Hk|apply Hf|done|done]|..]; cbn beta.
  all: try (by intros ? ? []).
  all: try (intros _ n' (L' & Hm' & Hs & _); by eapply solo_moves_tau).
  all: cbn; unfold rn_node_id; intros m' -> Hs; rewrite ?Hs; auto.
Qed.

(** *** Transitions *)

Lemma wp_transition (f : RoleState → st S halt RoleState) (Q : LogicalNode S G → Prop) n :
  wp (f (ln_state n)) (λ r s', Q (set_state r (set_store s' n)))
    (λ _ s', Q (set_state RS_Poisoned (set_store s' n))) (ln_store n) →
  wp (eng_transition f) (λ _ n', Q n') (λ _ n', Q n') n.
Proof.
  unfold wp, eng_transition. by destruct (f (ln_state n) (ln_store n)) as [[r|h] s'].
Qed.

Lemma solo_draw_timeout : solo draw_timeout.
Proof.
  intros n L (v & vd & Hh & -> & Ho & Ht). unfold wp, draw_timeout.
  destruct (generate_election_timeout _ _) as [t g]. apply solo_moves_refl. by exists v, vd.
Qed.

Lemma wp_as_role {R} (mk : RaftNode R → RoleState) (m : st S NodeError (RaftNode R))
    (Q : RoleState → S → Prop) (R' : halt → S → Prop) s :
  wp m (λ x s', Q (mk x) s') (λ e s', R' (Halt e) s') s → wp (as_role mk m) Q R' s.
Proof.
  intros Hm. unfold as_role, apply_fatal_static. wp_steps. eapply wp_mono; [done| |done].
  intros. by apply wp_ret.
Qed.

Lemma wp_follower_role {R} (m : RaftNode R) t o tick timeout n v vd L :
  held (ln_store n) v vd → L = mkLocal (hs v) (hs vd) (arole (ln_state n)) →
  rn_node_id m = id → U64 t →
  wp (as_role RS_Follower (try_into_follower m t o tick timeout))
    (λ r s', solo_moves L (set_state r (set_store s' n)))
    (λ _ s', solo_moves L (set_state RS_Poisoned (set_store s' n))) (ln_store n).
Proof.
  intros Hh HL Hm Ht. apply wp_as_role.
  eapply wp_mono; [by apply try_into_follower_spec|..]; cbn beta.
  - intros x s' (-> & Hev & _). by eapply models_evolved.
  - intros e s' Hev. by eapply models_evolved.
Qed.

Lemma solo_into_follower t o : U64 t → solo (into_follower t o).
Proof.
  intros Ht. apply solo_bind; [apply solo_draw_timeout|intros timeout].
  apply solo_bind; [apply solo_gets|intros tick].
  intros n L (v & vd & Hh & HL & Ho & Htally). apply wp_transition.
  destruct (ln_state n) eqn:Hst.
  5: { apply wp_fail. eapply models_evolved; [done|by rewrite Hst| |done|done].
       by apply steady_evolved, held_steady. }
  all: eapply wp_follower_role; [done|by rewrite Hst|done|done].
Qed.

Lemma wp_candidate_role {R} (m : RaftNode R) start timeout n v vd L :
  held (ln_store n) v vd → L = mkLocal (hs v) (hs vd) (arole (ln_state n)) →
  rn_node_id m = id →
  wp (as_role RS_Candidate (campaign m start timeout))
    (λ r s', solo_moves L (set_state r (set_store s' n)))
    (λ _ s', solo_moves L (set_state RS_Poisoned (set_store s' n))) (ln_store n).
Proof.
  intros Hh HL Hm. apply wp_as_role.
  eapply wp_mono; [apply campaign_spec; [done|by rewrite Hm]|..]; cbn beta.
  - intros x s' [Hh' ->]. set (v' := set_hard_state _ _ v) in Hh'.
    exists [Grant (lv_term v + 1) id], (mkLocal (hs v') (hs v') (ACampaign {[id]})).
    split_and!.
    + exists v', v'. cbn. split; [done|]. split; [by rewrite Hm|].
      split; [done|]. cbn. rewrite size_singleton. lia.
    + apply lsteps_one. rewrite HL. subst v'. unfold hs. cbn. rewrite Hm. constructor.
    + apply Forall_singleton. right. by eexists.
  - intros e s' Hev. by eapply models_evolved.
Qed.

Lemma wp_same_role n v vd L s' :
  held (ln_store n) v vd → L = mkLocal (hs v) (hs vd) (arole (ln_state n)) →
  owned id (ln_state n) → tally_ok (arole (ln_state n)) → s' = ln_store n →
  solo_moves L (set_state (ln_state n) (set_store s' n)).
Proof.
  intros Hh -> Ho Ht ->. apply solo_moves_refl. by exists v, vd.
Qed.

Lemma solo_into_candidate : solo into_candidate.
Proof.
  apply solo_bind; [apply solo_draw_timeout|intros timeout].
  apply solo_bind; [apply solo_gets|intros tick].
  intros n L (v & vd & Hh & HL & Ho & Htally). apply wp_transition.
  destruct (ln_state n) eqn:Hst.
  4-5: apply wp_ret; rewrite <-Hst in *; by eapply wp_same_role.
  all: eapply wp_candidate_role; [done|by rewrite Hst|done].
Qed.

Lemma solo_into_pre_candidate : solo into_pre_candidate.
Proof.
  apply solo_bind; [apply solo_gets|intros tick].
  intros n L (v & vd & Hh & HL & Ho & Htally). apply wp_transition.
  destruct (ln_state n) eqn:Hst.
  2-5: apply wp_ret; rewrite <-Hst in *; by eapply wp_same_role.
  apply wp_as_role. unfold try_into_pre_candidate. apply wp_ret.
  eapply models_evolved; [done|by rewrite Hst| |done|done].
  by apply steady_evolved, held_steady.
Qed.

(** *** The clock and the leader's RPCs *)

Lemma models_set_tick n L t : models n L → models (set_tick t n) L.
Proof. done. Qed.

Lemma solo_tick : solo tick.
Proof.
  intros n L Hm. unfold tick. wp_steps. by apply solo_moves_refl, models_set_tick.
Qed.

Lemma solo_reset_heartbeat : solo reset_heartbeat.
Proof.
  intros n L Hm. unfold reset_heartbeat. apply wp_modify. apply solo_moves_refl.
  pose proof Hm as (_ & _ & _ & _ & Ho & _).
  destruct (ln_state n) eqn:Hst; try done;
    (apply models_set_state; [done|by rewrite Hst|done]).
Qed.

Lemma solo_validate_leader_rpc_term t lid : U64 t → solo (validate_leader_rpc_term t lid).
Proof.
  intros Ht. apply solo_bind; [apply solo_read_or_fatal|intros current].
  destruct (t <? current); [apply solo_ret|]. destruct (current <? t).
  { apply solo_bind; [by apply solo_into_follower|intros; apply solo_ret]. }
  apply solo_get_bind. intros n L Hm. pose proof Hm as (_ & _ & _ & _ & Ho & _).
  destruct (ln_state n) eqn:Hst.
  - wp_steps. apply solo_moves_refl, models_set_state; [done|by rewrite Hst|done].
  - apply wp_solo_bind; [done|by apply solo_into_follower|intros; apply solo_ret].
  - apply wp_solo_bind; [done|by apply solo_into_follower|intros; apply solo_ret].
  - by apply solo_apply_fatal.
  - apply wp_ret. by apply solo_moves_refl.
Qed.

Lemma solo_handle_install_snapshot lid t i : U64 t → solo (handle_install_snapshot lid t i).
Proof.
  intros Ht. apply solo_bind; [apply solo_read_or_fatal|intros current].
  apply solo_bind; [by apply solo_validate_leader_rpc_term|intros []]; [|apply solo_ret].
  apply solo_bind; [apply solo_delegate_field|intros applied].
  destruct (i <=? applied); [apply solo_ret|].
  apply solo_bind; [apply solo_reset_heartbeat|intros _].
  apply solo_bind; [apply solo_read_or_fatal|intros; apply solo_ret].
Qed.

Lemma solo_handle_append_entries lid t pi pt es lc :
  U64 t → Forall wire_ok es → U64 lc → solo (handle_append_entries lid t pi pt es lc).
Proof.
  intros Ht Hes Hlc. apply solo_bind; [apply solo_read_or_fatal|intros current].
  apply solo_bind; [by apply solo_validate_leader_rpc_term|intros []]; [|apply solo_ret].
  apply solo_bind; [apply solo_reset_heartbeat|intros _].
  apply solo_get_bind. intros n L Hm.
  destruct (ln_state n) eqn:Hst;
    try (apply wp_solo_bind; [done|apply solo_read_or_fatal|intros; apply solo_ret]).
  wp_step. eapply wp_mono; [eapply (wp_run_node_steps RS_Follower);
    [apply mk_follower|by apply keeps_reconcile_log|apply frames_reconcile_log|done|done]|..];
    cbn beta; [|done].
  intros r n' (L' & Hm' & Hs & _).
  eapply wp_mono; [apply wp_solo_bind; [done|apply solo_or_fatal|intros res]|..]; cbn beta.
  - apply solo_bind; [apply solo_read_or_fatal|intros; apply solo_ret].
  - intros _ n'' Hmv. eapply solo_moves_trans; [by apply lsteps_one| |done].
    apply Forall_singleton. by left.
  - intros _ n'' Hmv. eapply solo_moves_trans; [by apply lsteps_one| |done].
    apply Forall_singleton. by left.
Qed.

Lemma solo_handle_pre_vote c t li lt : solo (handle_pre_vote c t li lt).
Proof.
  apply solo_bind; [apply solo_read_or_fatal|intros current].
  apply solo_get_bind. intros n L Hm.
  apply wp_solo_bind; [done| |intros; apply solo_ret].
  destruct (ln_state n); (apply solo_or_fatal || apply solo_ret).
Qed.


(** A mutation of the store that keeps the hard state. *)
Lemma wp_run_store_keeps {A} (op : st S NodeError A) n L :
  keeps (λ s, s) op → models n L →
  wp (run_store op) (λ _ n', ∃ L', models n' L' ∧ lstep q id Tau L L' ∧ ln_state n' = ln_state n)
    (λ _ _, False) n.
Proof.
  intros Hk (v & vd & Hh & -> & Ho & Ht). unfold run_store. apply wp_zoom, wp_try.
  eapply wp_mono; [by apply Hk|..]; cbn beta; intros x s' (v' & vd' & Hh' & Hv & Hd);
    exists (mkLocal (hs v') (hs vd') (arole (ln_state n)));
    (split; [by exists v', vd'|]); rewrite Hv; (split; [by constructor|done]).
Qed.

Lemma solo_propose command : Forall is_byte command → solo (eng_propose command).
Proof.
  intros Hc. apply solo_get_bind. intros n L Hm. destruct (ln_state n) eqn:Hst.
  1-3: apply wp_solo_bind; [done|apply solo_read_or_fatal|intros; apply solo_ret].
  - wp_step. eapply wp_mono; [apply wp_run_store_keeps; [by apply keeps_propose|done]| |done].
    cbn beta. intros r n' (L' & Hm' & Hs & _).
    eapply wp_mono; [apply wp_solo_bind; [done|apply solo_or_fatal|intros idx]|..]; cbn beta.
    + apply solo_bind; [apply solo_read_or_fatal|intros; apply solo_ret].
    + intros _ n'' Hmv. eapply solo_moves_trans; [by apply lsteps_one| |done].
      apply Forall_singleton. by left.
    + intros _ n'' Hmv. eapply solo_moves_trans; [by apply lsteps_one| |done].
      apply Forall_singleton. by left.
  - apply wp_fail. by apply solo_moves_refl.
Qed.

Lemma solo_save_snapshot_metadata i t :
  U64 i → U64 t → solo (eng_save_snapshot_metadata i t).
Proof.
  intros Hi Ht. apply solo_bind; [|intros; apply solo_or_fatal].
  apply solo_delegate_mut; intros R; [|apply frames_on_store].
  by apply keeps_on_store, keeps_snapshot_metadata.
Qed.
Lemma solo_advance_last_committed i : solo (eng_advance_last_committed i).
Proof.
  apply solo_bind; [|intros; apply solo_or_fatal].
  apply solo_delegate_mut; intros R; [apply keeps_update_commit|apply frames_update_commit].
Qed.
Lemma solo_advance_horizon i : solo (eng_advance_horizon_after_snapshot i).
Proof.
  apply solo_delegate_mut; intros R;
    [apply keeps_advance_horizon|apply frames_advance_horizon].
Qed.

(** *** Becoming leader *)

(** Promotion is allowed when the tally has a quorum. *)
Lemma solo_into_leader_when peers n L :
  models n L → (∀ m, ln_state n = RS_Candidate m → q ≤ vote_count (rn_state m)) →
  wp (into_leader peers) (λ _ n', solo_moves L n') (λ _ n', solo_moves L n') n.
Proof.
  intros (v & vd & Hh & HL & Ho & Ht) Hvotes. unfold into_leader. wp_steps.
  apply wp_transition. destruct (ln_state n) eqn:Hst.
  1-2,4-5: apply wp_ret; rewrite <-Hst in *; by eapply wp_same_role.
  apply wp_as_role. eapply wp_mono; [by eapply try_into_leader_spec|..]; cbn beta.
  - intros m s' (-> & Hi & _). eapply (solo_moves_tau _ _ (mkLocal (hs v) (hs vd) ALeading)).
    + exists v, vd. cbn. split_and!; [apply Hh..|done| |done].
      unfold rn_node_id. by rewrite Hi.
    + rewrite HL. constructor. by apply Hvotes.
  - intros e s' ->. eapply models_evolved; [done|by rewrite Hst| |done|done].
    by apply steady_evolved, held_steady.
Qed.

(** *** The consensus tasks *)

Lemma solo_build_append_entries_request p t i c :
  solo (build_append_entries_request p t i c).
Proof.
  apply solo_get_bind. intros n L Hm. apply wp_solo_bind; [done|apply solo_read_or_fatal|].
  intros last. destruct (index_sub _ 1); [|apply solo_ret].
  apply solo_bind; [apply solo_read_or_fatal|intros].
  apply solo_bind; [apply solo_read_or_fatal|intros; apply solo_ret].
Qed.

Lemma solo_determine_replication_strategy p params :
  solo (determine_replication_strategy p params).
Proof.
  apply solo_get_bind. intros n L Hm.
  destruct (ln_state n); try (apply wp_ret; by apply solo_moves_refl).
  apply wp_solo_bind; [done|apply solo_read_or_fatal|]. intros last. destruct (_ <=? last).
  - apply solo_bind; [apply solo_read_or_fatal|intros; apply solo_ret].
  - apply solo_bind; [apply solo_build_append_entries_request|intros; apply solo_ret].
Qed.

Lemma solo_update_leader_last_committed : solo update_leader_last_committed.
Proof.
  apply solo_bind; [apply solo_read_or_fatal|intros last].
  apply solo_bind; [apply solo_read_or_fatal|intros current].
  apply solo_get_bind. intros n L Hm.
  destruct (ln_state n); try (apply wp_ret; by apply solo_moves_refl).
  apply wp_solo_bind; [done|apply solo_delegate_field|intros commit].
  destruct (commit <? _); [|apply solo_ret].
  apply solo_bind; [apply solo_read_or_fatal|intros t].
  destruct (t =? current); [apply solo_advance_last_committed|apply solo_ret].
Qed.

Lemma solo_process_replication_response t p res :
  U64 t → (∀ o, res = Ok (Some o) → U64 (outcome_term o)) →
  solo (process_replication_response t p res).
Proof.
  intros Ht Hres. unfold process_replication_response.
  destruct res as [[o|]|]; [|apply solo_ret..].
  destruct (t <? outcome_term o).
  { apply solo_bind; [apply solo_into_follower; auto|intros; apply solo_ret]. }
  apply solo_bind; [apply solo_read_or_fatal|intros current].
  apply solo_get_bind. intros n L Hm. pose proof Hm as (_ & _ & _ & _ & Ho & _).
  destruct (ln_state n) as [| | |m|] eqn:Hst; try (apply wp_ret; by apply solo_moves_refl).
  destruct (current =? t); [|apply wp_ret; by apply solo_moves_refl].
  assert (∀ l, models (set_state (RS_Leader (set_node_state l m)) n) L) as Hset.
  { intros l. apply models_set_state; [done|by rewrite Hst|done]. }
  wp_step. apply wp_put.
  destruct (record_outcome _ _ _) as [[l' b]|]; [|apply wp_ret; by apply solo_moves_refl].
  wp_step. apply wp_put. apply wp_solo_bind; [done| |intros; apply solo_ret].
  destruct b; [apply solo_update_leader_last_committed|apply solo_ret].
Qed.

Lemma solo_replication_response_step t p res :
  U64 t → (∀ o, res = Ok (Some o) → U64 (outcome_term o)) →
  solo (replication_response_step t p res).
Proof.
  intros Ht Hres.
  apply solo_bind; [by apply solo_process_replication_response|intros; apply solo_or_fatal].
Qed.

Lemma solo_campaign_params t : solo (campaign_params t).
Proof.
  apply solo_bind; [apply solo_delegate_field|intros].
  apply solo_bind; [apply solo_read_or_fatal|intros].
  apply solo_bind; [apply solo_read_or_fatal|intros; apply solo_ret].
Qed.

Lemma solo_should_compact_log k b : solo (should_compact_log k b).
Proof.
  unfold should_compact_log. destruct b; [apply solo_ret|].
  apply solo_bind; [apply solo_delegate_field|intros].
  apply solo_bind; [apply solo_read_or_fatal|intros; apply solo_ret].
Qed.

Lemma solo_tick_step k b : solo (tick_step k b).
Proof.
  apply solo_bind; [apply solo_tick|intros action].
  apply solo_bind; [apply solo_read_or_fatal|intros term].
  apply solo_bind; [apply solo_should_compact_log|intros compact].
  apply solo_bind; [destruct compact|intros compaction].
  { apply solo_bind; [apply solo_delegate_field|intros].
    apply solo_bind; [apply solo_read_or_fatal|intros; apply solo_ret]. }
  { apply solo_ret. }
  destruct action; try apply solo_ret.
  - apply solo_bind; [apply solo_into_candidate|intros].
    apply solo_bind; [apply solo_read_or_fatal|intros].
    apply solo_bind; [apply solo_campaign_params|intros; apply solo_ret].
  - apply solo_bind; [apply solo_into_pre_candidate|intros].
    apply solo_bind; [apply solo_campaign_params|intros; apply solo_ret].
  - apply solo_bind; [apply solo_delegate_field|intros].
    apply solo_bind; [apply solo_delegate_field|intros; apply solo_ret].
Qed.

Lemma solo_pre_vote_term_check t pt : U64 pt → solo (pre_vote_term_check t pt).
Proof.
  intros Ht. unfold pre_vote_term_check. destruct (t <? pt); [|apply solo_ret].
  apply solo_bind; [apply solo_read_or_fatal|intros current].
  destruct (current <? pt); [|apply solo_ret].
  apply solo_bind; [by apply solo_into_follower|intros; apply solo_ret].
Qed.

Lemma solo_pre_vote_won : solo pre_vote_won.
Proof.
  apply solo_bind; [apply solo_read_or_fatal|intros _].
  apply solo_bind; [apply solo_into_candidate|intros _].
  apply solo_bind; [apply solo_read_or_fatal|intros].
  apply solo_bind; [apply solo_delegate_field|intros].
  apply solo_bind; [apply solo_read_or_fatal|intros].
  apply solo_bind; [apply solo_read_or_fatal|intros; apply solo_ret].
Qed.

Lemma solo_step_down : solo step_down.
Proof.
  intros n L Hm. unfold step_down. wp_step.
  eapply wp_mono; [by apply read_or_fatal_spec|..]; cbn beta; [|done].
  intros t n' (-> & Ht & _). apply solo_into_follower; [|done].
  destruct Hm as (v & vd & Hh & _). apply (node_read_Ok _ (lv_term v)) in Ht as ->.
  - eapply vo_term, repr_ok, Hh.
  - apply current_term_law, Hh.
Qed.

(** *** Granting a vote *)

(** The labels of an answered vote request: a vote that is granted is the
    last thing that happens. *)
Definition answers (c : NodeId) (t : Term) (res : RequestVoteResult) (l : list label) : Prop :=
  U64 (vr_term res) ∧
  if vr_vote_granted res then vr_term res = t ∧ ∃ l0, l = l0 ++ [Grant t c] ∧ Forall own l0
  else Forall own l.
Definition own_or (b : label) (a : label) : Prop := own a ∨ a = b.

Lemma own_or_weaken b l : Forall own l → Forall (own_or b) l.
Proof. apply List.Forall_impl. by left. Qed.

(** What the request did to the store before the answer is read back. *)
Lemma wp_grant c t li lt n L :
  models n L → valid_node_id c → arole (ln_state n) = AIdle →
  wp (r ← run_store (attempt_grant_vote c t li lt); or_fatal r)
    (λ granted n', ∃ L', models n' L' ∧ ln_state n' = ln_state n ∧
       if granted : bool then lstep q id (Grant t c) L L' ∧ (l_hs L').1 = t else L' = L)
    (λ _ n', solo_moves L n') n.
Proof.
  intros (v & vd & Hh & -> & Ho & Ht) Hc Hidle. wp_step. unfold run_store.
  apply wp_zoom, wp_try.
  eapply wp_mono; [by apply attempt_grant_vote_spec|..]; cbn beta.
  - intros granted s' Hg. apply wp_ret. destruct granted.
    + destruct Hg as (-> & Hle & _ & Hh'). set (v' := set_hard_state _ _ v) in Hh'.
      exists (mkLocal (hs v') (hs v') AIdle). split_and!.
      * exists v', v'. cbn. by rewrite Hidle.
      * done.
      * by constructor.
      * done.
    + subst s'. eexists. split_and!; [by exists v, vd|done|done].
  - intros e s' (v' & vd' & Hh' & Hle & Hd). unfold or_fatal, apply_fatal. wp_steps.
    by eapply (models_idle n _ RS_Poisoned s' v vd v' vd').
Qed.

Lemma request_vote_spec c t li lt n L :
  models n L → valid_node_id c → U64 t →
  wp (handle_request_vote c t li lt)
    (λ res n', ∃ l L', models n' L' ∧ lsteps q id l L L' ∧ answers c t res l)
    (λ _ n', ∃ l L', models n' L' ∧ lsteps q id l L L' ∧ Forall (own_or (Grant t c)) l) n.
Proof.
  intros Hm Hc Ht. unfold handle_request_vote.
  assert (∀ L0 n0, solo_moves L0 n0 →
    ∃ l L', models n0 L' ∧ lsteps q id l L0 L' ∧ Forall (own_or (Grant t c)) l) as Hweak.
  { intros L0 n0 (l & L' & ? & ? & Hl). exists l, L'. split_and!; [done..|].
    by apply own_or_weaken. }
  wp_step. eapply wp_mono; [by apply read_or_fatal_spec| |intros; by apply Hweak]; cbn beta.
  intros current n0 (-> & Hcur & Hnp). wp_step.
  assert (solo (if current <? t then into_follower t None else mret tt)) as Hpre.
  { destruct (current <? t); [by apply solo_into_follower|apply solo_ret]. }
  eapply wp_mono; [by apply Hpre| |intros; by apply Hweak]; cbn beta.
  intros _ n1 (l1 & L1 & Hm1 & Hs1 & Ho1). wp_steps.
  set (post := λ (granted : bool) n2, ∃ L2, models n2 L2 ∧
    if granted then lstep q id (Grant t c) L1 L2 ∧ (l_hs L2).1 = t else L2 = L1).
  assert (wp (match ln_state n1 with
    | RS_Follower _ => r ← run_store (attempt_grant_vote c t li lt); or_fatal r
    | _ => mret false end) post (λ _ n2, solo_moves L1 n2) n1) as Hg.
  { destruct (ln_state n1) eqn:Hst; try (apply wp_ret; by exists L1).
    eapply wp_mono; [apply wp_grant; [done|done|by rewrite Hst]| |done]; cbn beta.
    intros g n2 (L2 & ? & _ & ?). by exists L2. }
  eapply wp_mono; [exact Hg|..]; cbn beta; clear Hg.
  - intros granted n2 (L2 & Hm2 & Hg). wp_step.
    eapply wp_mono; [by apply read_or_fatal_spec|..]; cbn beta.
    + intros t2 n3 (-> & Ht2 & _). apply wp_ret.
      assert (t2 = (l_hs L2).1 ∧ U64 t2) as [-> Hu2].
      { destruct Hm2 as (v & vd & Hh & -> & _). cbn.
        apply (node_read_Ok _ (lv_term v)) in Ht2 as ->; [|apply current_term_law, Hh].
        split; [done|]. eapply vo_term, repr_ok, Hh. }
      destruct granted.
      * destruct Hg as [Hs2 Hterm]. exists (l1 ++ [Grant t c]), L2.
        split_and!; [done|eapply lsteps_app; [done|by apply lsteps_one]|].
        split; [done|]. split; [done|by exists l1].
      * subst L2. exists l1, L1. by split_and!.
    + intros h n3 (l3 & L3 & Hm3 & Hs3 & Ho3).
      assert (∃ l2, lsteps q id l2 L1 L2 ∧ Forall (own_or (Grant t c)) l2) as (l2 & Hs2 & Ho2).
      { destruct granted.
        - exists [Grant t c]. split; [by apply lsteps_one; destruct Hg|].
          apply Forall_singleton. by right.
        - subst L2. exists []. split; constructor. }
      exists (l1 ++ l2 ++ l3), L3. split_and!; [done|by do 2 (eapply lsteps_app; [done|])|].
      rewrite !Forall_app. split_and!; [|done|]; by apply own_or_weaken.
  - intros h n2 (l2 & L2 & Hm2 & Hs2 & Ho2). exists (l1 ++ l2), L2.
    split_and!; [done|by eapply lsteps_app|].
    rewrite Forall_app. split; by apply own_or_weaken.
Qed.

(** *** Counting votes *)

(** A reply that is counted was granted and belongs to the node's term. *)
Definition counts (t : Term) (p : NodeId) (res : RpcResult RequestVoteResponse) L
    (l : list label) : Prop :=
  Forall own l ∨
  ∃ l', l = Count p :: l' ∧ Forall own l' ∧ (l_hs L).1 = t ∧
        ∃ resp, res = Ok resp ∧ rvr_vote_granted resp = true.

(** The victory: the tally has a quorum, the node leads or halts. *)
Lemma wp_victory peers n m v vd votes :
  held (ln_store n) v vd → ln_state n = RS_Candidate m → rn_node_id m = id →
  ca_votes_received (rn_state m) = votes → q ≤ N.of_nat (size votes) →
  let L := mkLocal (hs v) (hs vd) (ACampaign votes) in
  wp (_ ← eng_last_log_index; _ ← into_leader peers; mret QuorumReached)
    (λ _ n', solo_moves L n') (λ _ n', solo_moves L n') n.
Proof.
  intros Hh Hst Hown Hvotes Hquorum L.
  assert (solo_moves L (set_state RS_Poisoned (set_store (ln_store n) n))) as Hpoison.
  { eapply models_evolved; [done| |by apply steady_evolved, held_steady|done|done].
    rewrite Hst. cbn. by rewrite Hvotes. }
  unfold eng_last_log_index, read_or_fatal, delegate_read. wp_steps. rewrite Hst. wp_steps.
  destruct (node_read last_log_index (ln_store n)) as [i|e]; cbn [or_fatal];
    [wp_steps|by unfold apply_fatal; wp_steps].
  apply wp_transition. rewrite Hst. apply wp_as_role.
  eapply wp_mono; [by eapply try_into_leader_spec|..]; cbn beta.
  - intros l s' (-> & Hi & _).
    apply (solo_moves_tau _ _ (mkLocal (hs v) (hs vd) ALeading)); [|by constructor].
    exists v, vd. cbn. split_and!; [apply Hh..|done| |done]. unfold rn_node_id. by rewrite Hi.
  - by intros e s' ->.
Qed.

Lemma vote_response_spec t peers p res n L :
  quorum_of (length peers) = q → models n L →
  (∀ resp, res = Ok resp → U64 (rvr_term resp)) →
  wp (process_vote_response t peers p res)
    (λ _ n', ∃ l L', models n' L' ∧ lsteps q id l L L' ∧ counts t p res L l)
    (λ _ n', ∃ l L', models n' L' ∧ lsteps q id l L L' ∧ counts t p res L l) n.
Proof.
  intros Hpeers Hm Hres. unfold process_vote_response.
  assert (∀ n', solo_moves L n' →
    ∃ l L', models n' L' ∧ lsteps q id l L L' ∧ counts t p res L l) as Hweak.
  { intros n' (l & L' & ? & ? & ?). exists l, L'. by split_and!; [..|left]. }
  pose proof (Hweak n (solo_moves_refl _ _ Hm)) as Hstay.
  destruct res as [resp|]; [|by apply wp_ret].
  destruct (t <? rvr_term resp).
  { eapply wp_mono; [apply wp_solo_bind; [done|by apply solo_into_follower, Hres
      |intros; apply solo_ret]|..]; cbn beta; auto. }
  destruct (rvr_vote_granted resp) eqn:Hgr; [|by apply wp_ret].
  wp_step. eapply wp_mono; [by apply read_or_fatal_spec| |auto]; cbn beta.
  intros current n' (-> & Hcur & _). wp_steps.
  destruct (ln_state n) as [| |m| |] eqn:Hst; try (by apply wp_ret).
  destruct (N.eqb_spec current t) as [->|]; [|by apply wp_ret].
  destruct Hm as (v & vd & Hh & HL & Ho & Htally). rewrite Hst in HL, Ho, Htally.
  apply (node_read_Ok _ (lv_term v)) in Hcur; [|apply current_term_law, Hh].
  set (votes := {[p]} ∪ ca_votes_received (rn_state m)).
  set (Lc := mkLocal (hs v) (hs vd) (ACampaign votes)).
  assert (∀ n', solo_moves Lc n' →
    ∃ l L', models n' L' ∧ lsteps q id l L L' ∧ counts t p (Ok resp) L l) as Hcounted.
  { intros n' (l & L' & ? & Hs & ?). exists (Count p :: l), L'. split_and!; [done| |].
    - econstructor; [|done]. rewrite HL. constructor.
    - right. exists l. split_and!; [done|done|by rewrite HL|eauto]. }
  wp_steps. rewrite Hpeers. destruct (N.leb_spec q (vote_count (add_vote p (rn_state m)))) as [Hge|Hlt].
  - eapply wp_mono; [eapply wp_victory; [done|done|done|done|done]|..]; cbn beta; auto.
  - apply wp_ret, Hcounted, solo_moves_refl. exists v, vd. cbn.
    split; [done|]. split; [done|]. split; [done|]. split; [|left; exact Hlt].
    destruct (size votes) eqn:Hsize; [|unfold votes in Hsize; lia].
    apply size_empty_inv in Hsize. set_solver.
Qed.

Lemma solo_promote_after_loop k peers :
  quorum_of (length peers) = q → k < q ∨ q = 1 → solo (promote_after_loop k peers).
Proof.
  intros Hpeers Hk n L Hm. unfold promote_after_loop. rewrite Hpeers.
  destruct (N.leb_spec q k); [|apply wp_ret; by apply solo_moves_refl].
  apply solo_into_leader_when; [done|]. intros m Hst.
  destruct Hm as (v & vd & _ & _ & _ & Ht). rewrite Hst in Ht. unfold vote_count. cbn in Ht. lia.
Qed.
End refinement.
