(* ===== verification/Cluster.v ===== *)
(** A cluster of logical nodes over an asynchronous network: votes answered
    are never forgotten, replies may be lost, delayed, duplicated and
    reordered, nodes halt, crash and restart from their disks, and the
    locked blocks of a node's tasks interleave in any order.  The cluster
    refines the abstract election protocol, which gives Election Safety. *)
From S2P Require Import Prelude Machine Types Wire Storage Timing Node Engine Consensus VoteSpec Election EngineSpec Sled SledStore Concrete.

(** ** The cluster's operations *)

(** A vote answered: voter, candidate, the request's term and the response. *)
Record VoteReply : Type := mkVoteReply {
  vp_voter : NodeId;
  vp_candidate : NodeId;
  vp_req_term : Term;
  vp_response : RequestVoteResponse;
}.

(** What a node may be asked to do, beyond votes: the RPCs of leaders, the
    pre-vote, the tick loop, the campaign and replication tasks, compaction
    and the applier. *)
Inductive command : Type :=
| CAppendEntries (leader : NodeId) (term : Term) (prev : LogIndex) (prev_term : Term)
    (entries : list LogEntry) (commit : LogIndex)
| CInstallSnapshot (leader : NodeId) (term : Term) (index : LogIndex)
| CPreVote (candidate : NodeId) (term : Term) (last : LogIndex) (last_term : Term)
| CTick (threshold : N) (frozen : bool)
| CStepDown
| CPropose (data : bytes)
| CReplicationResponse (term : Term) (peer : NodeId) (res : RpcResult (option ReplicationOutcome))
| CStrategy (peer : NodeId) (params : ReplicationRoundParams)
| CPreVoteTerm (campaign_term peer_term : Term)
| CPreVoteWon
| CSnapshotMetadata (index : LogIndex) (term : Term)
| CAdvanceHorizon (index : LogIndex).

(** The arguments are values of their types. *)
Definition command_ok (c : command) : Prop :=
  match c with
  | CAppendEntries _ term _ _ entries commit => U64 term ∧ Forall wire_ok entries ∧ U64 commit
  | CInstallSnapshot _ term _ => U64 term
  | CPropose data => Forall is_byte data
  | CReplicationResponse term _ res =>
      U64 term ∧ ∀ o, res = Ok (Some o) → U64 (outcome_term o)
  | CPreVoteTerm _ peer_term => U64 peer_term
  | CSnapshotMetadata index term => U64 index ∧ U64 term
  | _ => True
  end.

Section cluster.
Context {S G : Type} `{LogStorageLaws S} `{RngExt G} (members : gset N).
Abbreviation node := (LogicalNode S G).
Abbreviation q := (quorum members).

Definition discard {A} (m : st node halt A) : st node halt unit := _ ← m; mret tt.

Definition run_command (c : command) : st node halt unit :=
  match c with
  | CAppendEntries leader term prev prev_term entries commit =>
      discard (handle_append_entries leader term prev prev_term entries commit)
  | CInstallSnapshot leader term index => discard (handle_install_snapshot leader term index)
  | CPreVote candidate term last last_term =>
      discard (handle_pre_vote candidate term last last_term)
  | CTick threshold frozen => discard (tick_step threshold frozen)
  | CStepDown => step_down
  | CPropose data => discard (eng_propose data)
  | CReplicationResponse term peer res => discard (replication_response_step term peer res)
  | CStrategy peer params => discard (determine_replication_strategy peer params)
  | CPreVoteTerm campaign_term peer_term =>
      discard (pre_vote_term_check campaign_term peer_term)
  | CPreVoteWon => discard pre_vote_won
  | CSnapshotMetadata index term => eng_save_snapshot_metadata index term
  | CAdvanceHorizon index => discard (eng_advance_horizon_after_snapshot index)
  end.

(** A panic under the write lock poisons the node (the guard's [drop]). *)
Definition settle {A} (r : result halt A) (n : node) : node :=
  match r with Ok _ => n | Err _ => set_state RS_Poisoned n end.

Definition peers_of (id : NodeId) : list NodeId := elements (members ∖ {[id]}).

Record cluster : Type := mkCluster {
  cl_nodes : gmap N node;
  cl_replies : list VoteReply;
  cl_tallies : list (NodeId * N);   (** tallies read by campaign tasks *)
}.

Definition set_node (id : NodeId) (n : node) (C : cluster) : cluster :=
  mkCluster (<[id := n]> (cl_nodes C)) (cl_replies C) (cl_tallies C).
Definition add_reply (r : VoteReply) (C : cluster) : cluster :=
  mkCluster (cl_nodes C) (r :: cl_replies C) (cl_tallies C).
Definition add_tally (t : NodeId * N) (C : cluster) : cluster :=
  mkCluster (cl_nodes C) (cl_replies C) (t :: cl_tallies C).

(** A tally a campaign task may hold: its initial one or one it has read. *)
Definition known_tally (C : cluster) (id : NodeId) (k : N) : Prop :=
  k = 1 ∨ (id, k) ∈ cl_tallies C.

Inductive cstep (C : cluster) : cluster → Prop :=
| CS_command id n c r n' :
    cl_nodes C !! id = Some n → command_ok c → run_command c n = (r, n') →
    cstep C (set_node id (settle r n') C)
| CS_request_vote id n c t li lt res n' :
    cl_nodes C !! id = Some n → valid_node_id c → U64 t →
    handle_request_vote c t li lt n = (Ok res, n') →
    cstep C (add_reply
      (mkVoteReply id c t (RequestVoteResponse_new (vr_term res) (vr_vote_granted res)))
      (set_node id n' C))
| CS_request_vote_halt id n c t li lt h n' :
    cl_nodes C !! id = Some n → valid_node_id c → U64 t →
    handle_request_vote c t li lt n = (Err h, n') →
    cstep C (set_node id (set_state RS_Poisoned n') C)
| CS_vote_reply id n reply r n' :
    cl_nodes C !! id = Some n → reply ∈ cl_replies C → vp_candidate reply = id →
    process_vote_response (vp_req_term reply) (peers_of id) (vp_voter reply)
      (Ok (vp_response reply)) n = (r, n') →
    cstep C (set_node id (settle r n') C)
| CS_read_tally id n k :
    cl_nodes C !! id = Some n → known_tally C id k →
    cstep C (add_tally (id, read_tally k n) C)
| CS_promote id n k r n' :
    cl_nodes C !! id = Some n → known_tally C id k →
    promote_after_loop k (peers_of id) n = (r, n') →
    cstep C (set_node id (settle r n') C)
| CS_truncate_front id n i r s' :
    cl_nodes C !! id = Some n → U64 i → truncate_log_front i (ln_store n) = (r, s') →
    cstep C (set_node id
      (match r with Ok _ => set_store s' n | Err _ => set_state RS_Poisoned (set_store s' n) end) C)
| CS_restart id n s' identity applied thresholds rng n' :
    cl_nodes C !! id = Some n → reopened (ln_store n) s' → node_id identity = id →
    LogicalNode_try_new identity applied thresholds rng s' = Ok n' →
    cstep C (set_node id n' C).

(** Every member has started on a store that holds some view. *)
Record initial (C : cluster) : Prop := {
  in_members id n : cl_nodes C !! id = Some n → id ∈ members ∧ valid_node_id id;
  in_store id n : cl_nodes C !! id = Some n → ∃ v vd, held (ln_store n) v vd;
  in_follower id n : cl_nodes C !! id = Some n →
    ∃ m, ln_state n = RS_Follower m ∧ rn_node_id m = id;
  in_replies : cl_replies C = [];
  in_tallies : cl_tallies C = [];
}.

Definition reachable (C : cluster) : Prop := ∃ C0, initial C0 ∧ rtc cstep C0 C.

(** ** The refinement *)

Record refines (C : cluster) (A : ACluster) : Prop := {
  rf_nodes id n : cl_nodes C !! id = Some n →
    id ∈ members ∧ valid_node_id id ∧
    ∃ L, ac_nodes A !! id = Some L ∧ models q id n L;
  rf_replies r : r ∈ cl_replies C →
    vp_voter r ∈ members ∧ U64 (rvr_term (vp_response r)) ∧
    (rvr_vote_granted (vp_response r) = true →
     (vp_voter r, vp_req_term r, vp_candidate r) ∈ ac_votes A);
  rf_tallies id k : (id, k) ∈ cl_tallies C → k < q ∨ q = 1;
}.

Lemma quorum_pos : 1 ≤ q.
Proof. unfold quorum. lia. Qed.

Lemma quorum_of_peers id : id ∈ members → quorum_of (length (peers_of id)) = q.
Proof.
  intros Hid. unfold quorum_of, peers_of, quorum. do 2 f_equal.
  change (length (elements (members ∖ {[id]}))) with (size (members ∖ {[id]})).
  rewrite size_difference by set_solver. rewrite size_singleton.
  assert (size members ≠ 0%nat) by (intros ?%size_empty_inv; set_solver).
  f_equal. lia.
Qed.

(** *** Sequences of local steps in the cluster *)

Definition not_count (a : label) : Prop := match a with Count _ => False | _ => True end.

Lemma own_not_count id l : Forall (own id) l → Forall not_count l.
Proof. apply List.Forall_impl. by intros a [->|[t ->]]. Qed.
Lemma own_or_not_count id t c l : Forall (own_or id (Grant t c)) l → Forall not_count l.
Proof. apply List.Forall_impl. by intros a [[->|[t' ->]]| ->]. Qed.

Lemma asteps id l L L' A :
  id ∈ members → ac_nodes A !! id = Some L → Forall not_count l →
  lsteps q id l L L' →
  ∃ A', rtc (astep members) A A' ∧ ac_nodes A' = <[id := L']> (ac_nodes A) ∧
        ac_votes A ⊆ ac_votes A' ∧
        ∀ t c, Grant t c ∈ l → (id, t, c) ∈ ac_votes A'.
Proof.
  intros Hid HL Hl Hs. revert A HL Hl. induction Hs as [L|a l L L' L'' Hstep _ IH]; intros A HL Hl.
  { exists A. split_and!; [done|by rewrite insert_id|done|]. by intros t c ?%elem_of_nil. }
  apply Forall_cons_iff in Hl as [Ha Hl].
  set (A1 := mkACluster (<[id := L']> (ac_nodes A)) (votes_of id a ∪ ac_votes A)).
  destruct (IH A1) as (A' & Hr & Hn & Hv & Hg); [by apply lookup_insert_eq|done|].
  exists A'. split_and!.
  - eapply rtc_l; [|done]. econstructor; [done|done| |done]. by destruct a.
  - rewrite Hn. apply insert_insert_eq.
  - etrans; [|done]. cbn. set_solver.
  - intros t c [<-|Hin]%elem_of_cons; [|by apply Hg]. apply Hv. cbn. set_solver.
Qed.

Lemma refines_set_node C A A' id n n' L' :
  refines C A → cl_nodes C !! id = Some n →
  ac_nodes A' = <[id := L']> (ac_nodes A) → ac_votes A ⊆ ac_votes A' →
  models q id n' L' → refines (set_node id n' C) A'.
Proof.
  intros [Hn Hr Ht] Hid Hnodes Hvotes Hm. split.
  - intros id' n0 Hn0. cbn in Hn0. destruct (decide (id' = id)) as [->|Hne].
    + rewrite lookup_insert_eq in Hn0. injection Hn0 as <-.
      destruct (Hn id n Hid) as (Hmem & Hval & _). split; [done|]. split; [done|]. exists L'.
      by rewrite Hnodes, lookup_insert_eq.
    + rewrite lookup_insert_ne in Hn0 by done. destruct (Hn id' n0 Hn0) as (Hmem & Hval & L0 & HL0 & ?).
      split; [done|]. split; [done|]. exists L0. by rewrite Hnodes, lookup_insert_ne.
  - intros r Hin. destruct (Hr r Hin) as (? & ? & Hg). split_and!; [done..|]. auto.
  - done.
Qed.

(** A node moves by steps that count nothing. *)
Lemma refines_moves C A id n n' l L L' :
  refines C A → cl_nodes C !! id = Some n → ac_nodes A !! id = Some L →
  models q id n' L' → lsteps q id l L L' → Forall not_count l →
  ∃ A', rtc (astep members) A A' ∧ refines (set_node id n' C) A' ∧
        ∀ t c, Grant t c ∈ l → (id, t, c) ∈ ac_votes A'.
Proof.
  intros Hrf Hn HL Hm Hs Hl. destruct (rf_nodes _ _ Hrf _ _ Hn) as (Hid & _ & _).
  destruct (asteps id l L L' A) as (A' & Hr & Hnodes & Hv & Hg); [done..|].
  exists A'. split_and!; [done| |done]. by eapply refines_set_node.
Qed.

(** An operation that is [solo], followed by the guard's drop. *)
Lemma models_settle {B} id (r : result halt B) n L :
  models q id n L → ∃ l L', models q id (settle r n) L' ∧ lsteps q id l L L' ∧ Forall (own id) l.
Proof.
  intros Hm. destruct r as [b|h]; cbn.
  - exists [], L. split_and!; [done|constructor|constructor].
  - by apply (solo_poisoned q id n L).
Qed.

Lemma refines_solo {B} (m : st node halt B) C A id n r n' :
  refines C A → cl_nodes C !! id = Some n → m n = (r, n') → solo q id m →
  ∃ A', rtc (astep members) A A' ∧ refines (set_node id (settle r n') C) A'.
Proof.
  intros Hrf Hn Hrun Hsolo. destruct (rf_nodes _ _ Hrf _ _ Hn) as (Hid & _ & L & HL & Hm).
  pose proof (wp_run _ _ _ _ _ _ (Hsolo n L Hm) Hrun) as Hpost.
  assert (solo_moves q id L n') as (l & L1 & Hm1 & Hs & Ho) by (by destruct r).
  destruct (models_settle id r n' L1 Hm1) as (l' & L2 & Hm2 & Hs2 & Ho2).
  destruct (refines_moves C A id n (settle r n') (l ++ l') L L2) as (A' & ? & ? & _);
    [done..|by eapply lsteps_app| |by exists A'].
  apply Forall_app. split; by eapply own_not_count.
Qed.

Lemma solo_discard {B} id (m : st node halt B) : solo q id m → solo q id (discard m).
Proof. intros Hm. apply solo_bind; [done|intros; apply solo_ret]. Qed.

Lemma solo_run_command id c : valid_node_id id → command_ok c → solo q id (run_command c).
Proof.
  intros Hid Hc. pose proof quorum_pos as Hq.
  destruct c; cbn in Hc |- *; try apply solo_discard.
  - apply solo_handle_append_entries; tauto.
  - by apply solo_handle_install_snapshot.
  - apply solo_handle_pre_vote.
  - by apply solo_tick_step.
  - apply solo_step_down.
  - by apply solo_propose.
  - apply solo_replication_response_step; tauto.
  - apply solo_determine_replication_strategy.
  - by apply solo_pre_vote_term_check.
  - by apply solo_pre_vote_won.
  - apply solo_save_snapshot_metadata; tauto.
  - apply solo_advance_horizon.
Qed.

(** A counted reply. *)
Lemma refines_vote_reply C A id n reply r n' :
  refines C A → cl_nodes C !! id = Some n → reply ∈ cl_replies C →
  vp_candidate reply = id →
  process_vote_response (vp_req_term reply) (peers_of id) (vp_voter reply)
    (Ok (vp_response reply)) n = (r, n') →
  ∃ A', rtc (astep members) A A' ∧ refines (set_node id (settle r n') C) A'.
Proof.
  intros Hrf Hn Hin Hcand Hrun.
  destruct (rf_nodes _ _ Hrf _ _ Hn) as (Hid & Hval & L & HL & Hm).
  destruct (rf_replies _ _ Hrf _ Hin) as (Hvoter & Hu & Hgranted).
  pose proof (vote_response_spec q quorum_pos id Hval (vp_req_term reply) (peers_of id) (vp_voter reply)
    (Ok (vp_response reply)) n L (quorum_of_peers id Hid) Hm ltac:(by intros resp [= <-])) as Hwp.
  pose proof (wp_run _ _ _ _ _ _ Hwp Hrun) as Hpost. clear Hwp.
  assert (∃ l L', models q id n' L' ∧ lsteps q id l L L' ∧
    counts id (vp_req_term reply) (vp_voter reply) (Ok (vp_response reply)) L l)
    as (l & L1 & Hm1 & Hs & Hcounts) by (by destruct r). clear Hpost.
  destruct (models_settle id r n' L1 Hm1) as (l' & L2 & Hm2 & Hs2 & Ho2).
  destruct Hcounts as [Ho|(l1 & -> & Ho & Hterm & resp & [= <-] & Hgr)].
  { destruct (refines_moves C A id n (settle r n') (l ++ l') L L2) as (A' & ? & ? & _);
      [done..|by eapply lsteps_app| |by exists A'].
    apply Forall_app. split; by eapply own_not_count. }
  inversion Hs as [|a0 l0 La Lb Lc Hcount Hrest]; subst.
  set (A1 := mkACluster (<[vp_candidate reply := Lb]> (ac_nodes A)) (ac_votes A)).
  assert (astep members A A1) as Hastep.
  { replace A1 with (mkACluster (<[vp_candidate reply := Lb]> (ac_nodes A))
      (votes_of (vp_candidate reply) (Count (vp_voter reply)) ∪ ac_votes A)).
    - econstructor; [done|done| |done]. split; [done|]. rewrite Hterm. by apply Hgranted.
    - unfold A1. f_equal. cbn. apply (left_id_L ∅ (∪)). }
  destruct (asteps (vp_candidate reply) (l1 ++ l') Lb L2 A1) as (A' & Hr & Hnodes & Hv & _);
    [done|by apply lookup_insert_eq| |by eapply lsteps_app|].
  { apply Forall_app. split; by eapply own_not_count. }
  exists A'. split; [by eapply rtc_l|]. eapply refines_set_node; [done..| |done|done].
  rewrite Hnodes. apply insert_insert_eq.
Qed.

Lemma refines_add_reply C A r :
  refines C A → vp_voter r ∈ members → U64 (rvr_term (vp_response r)) →
  (rvr_vote_granted (vp_response r) = true →
   (vp_voter r, vp_req_term r, vp_candidate r) ∈ ac_votes A) →
  refines (add_reply r C) A.
Proof.
  intros [Hn Hr Ht] Hvoter Hu Hg. split; [done| |done].
  intros r' [->|Hin]%elem_of_cons; [done|by apply Hr].
Qed.


Lemma refines_request_vote C A id n c t li lt r n' :
  refines C A → cl_nodes C !! id = Some n → valid_node_id c → U64 t →
  handle_request_vote c t li lt n = (r, n') →
  ∃ A', rtc (astep members) A A' ∧
    match r with
    | Ok res => refines (add_reply
        (mkVoteReply id c t (RequestVoteResponse_new (vr_term res) (vr_vote_granted res)))
        (set_node id n' C)) A'
    | Err _ => refines (set_node id (set_state RS_Poisoned n') C) A'
    end.
Proof.
  intros Hrf Hn Hc Ht Hrun.
  destruct (rf_nodes _ _ Hrf _ _ Hn) as (Hid & Hval & L & HL & Hm).
  pose proof (wp_run _ _ _ _ _ _ (request_vote_spec q id c t li lt n L Hm Hc Ht) Hrun) as Hpost.
  destruct r as [res|h].
  - destruct Hpost as (l & L' & Hm' & Hs & Hu & Hans).
    assert (Forall not_count l) as Hnc.
    { destruct (vr_vote_granted res); [|by eapply own_not_count].
      destruct Hans as (_ & l0 & -> & Ho). apply Forall_app.
      split; [by eapply own_not_count|by apply Forall_singleton]. }
    destruct (refines_moves C A id n n' l L L') as (A' & Hr & Hrf' & Hg); [done..|].
    exists A'. split; [done|]. apply refines_add_reply; [done..|]. cbn. intros Hgr.
    rewrite Hgr in Hans. destruct Hans as (_ & l0 & -> & _). apply Hg, elem_of_app. right. by left.
  - destruct Hpost as (l & L' & Hm' & Hs & Ho).
    destruct (solo_poisoned q id n' L' Hm') as (l2 & L2 & Hm2 & Hs2 & Ho2).
    destruct (refines_moves C A id n (set_state RS_Poisoned n') (l ++ l2) L L2)
      as (A' & ? & ? & _); [done..|by eapply lsteps_app| |by exists A'].
    apply Forall_app. split; [by eapply own_or_not_count|by eapply own_not_count].
Qed.

Lemma refines_truncate_front C A id n i r s' :
  refines C A → cl_nodes C !! id = Some n → U64 i →
  truncate_log_front i (ln_store n) = (r, s') →
  ∃ A', rtc (astep members) A A' ∧ refines (set_node id
    (match r with Ok _ => set_store s' n | Err _ => set_state RS_Poisoned (set_store s' n) end) C) A'.
Proof.
  intros Hrf Hn Hi Hrun.
  destruct (rf_nodes _ _ Hrf _ _ Hn) as (Hid & _ & L & HL & v & vd & Hh & -> & Ho & Ht).
  assert (steady v vd s') as (v' & vd' & Hh' & Hv & Hd).
  { pose proof (keeps_truncate_front i Hi (ln_store n) v vd Hh) as Hk.
    unfold node_write, st_map_err, wp in Hk. rewrite Hrun in Hk. by destruct r. }
  set (L1 := mkLocal (hs v') (hs vd') (arole (ln_state n))).
  assert (lstep q id Tau (mkLocal (hs v) (hs vd) (arole (ln_state n))) L1) as Hs1.
  { unfold L1. rewrite Hv. by constructor. }
  assert (models q id (set_store s' n) L1) as Hm1 by (by exists v', vd').
  destruct r as [u|e].
  - destruct (refines_moves C A id n (set_store s' n) [Tau] _ L1 Hrf Hn HL) as (A' & ? & ? & _);
      [done|by apply lsteps_one|by apply Forall_singleton|by exists A'].
  - destruct (solo_poisoned q id _ _ Hm1) as (l2 & L2 & Hm2 & Hs2 & Ho2).
    destruct (refines_moves C A id n (set_state RS_Poisoned (set_store s' n)) (Tau :: l2) _ L2 Hrf Hn HL)
      as (A' & ? & ? & _); [done|by econstructor| |by exists A'].
    constructor; [done|by eapply own_not_count].
Qed.

Lemma try_new_follower identity applied thresholds rng s (n' : node) :
  LogicalNode_try_new identity applied thresholds rng s = Ok n' →
  ln_store n' = s ∧ ∃ m, ln_state n' = RS_Follower m ∧ rn_identity m = identity.
Proof.
  unfold LogicalNode_try_new. destruct (generate_election_timeout _ _) as [timeout g].
  destruct applied as [a|]; cbn; [|done].
  destruct (node_read last_committed s) as [c|] eqn:Hc; cbn; [|done]. destruct (c <? a); [done|].
  unfold try_new_with_applied, mbind, st_bind, node_reads, st_reads. rewrite Hc.
  intros [= <-]. eauto.
Qed.

Lemma refines_restart C A id n s' identity applied thresholds rng n' :
  refines C A → cl_nodes C !! id = Some n → reopened (ln_store n) s' → node_id identity = id →
  LogicalNode_try_new identity applied thresholds rng s' = Ok n' →
  ∃ A', rtc (astep members) A A' ∧ refines (set_node id n' C) A'.
Proof.
  intros Hrf Hn Hreopen Hident Hnew.
  destruct (rf_nodes _ _ Hrf _ _ Hn) as (Hid & _ & L & HL & v & vd & Hh & -> & _).
  destruct (try_new_follower _ _ _ _ _ _ Hnew) as (Hstore & m & Hst & Hm).
  destruct (reopened_law _ _ vd Hreopen (proj2 Hh)) as [Hr Hd].
  destruct (refines_moves C A id n n' [Tau] _ (mkLocal (hs vd) (hs vd) AIdle) Hrf Hn HL)
    as (A' & ? & ? & _); [|by apply lsteps_one; constructor|by apply Forall_singleton|by exists A'].
  exists vd, vd. rewrite Hst, Hstore. split; [done|]. split; [done|]. split; [|done].
  unfold owned, rn_node_id. by rewrite Hm.
Qed.

(** Every step of the cluster is a run of the abstract protocol. *)
Lemma cstep_refines C C' A :
  refines C A → cstep C C' → ∃ A', rtc (astep members) A A' ∧ refines C' A'.
Proof.
  intros Hrf Hstep.
  destruct Hstep as [id n c r n' Hn Hc Hrun|id n c t li lt res n' Hn Hc Ht Hrun
    |id n c t li lt h n' Hn Hc Ht Hrun|id n reply r n' Hn Hin Hcand Hrun|id n k Hn Hk
    |id n k r n' Hn Hk Hrun|id n i r s' Hn Hi Hrun|id n s' identity applied th rng n' Hn Hre Hid Hnew].
  - eapply refines_solo; [done..|]. apply solo_run_command; [|done].
    by destruct (rf_nodes _ _ Hrf _ _ Hn) as (_ & ? & _).
  - by apply (refines_request_vote C A id n c t li lt (Ok res)).
  - by apply (refines_request_vote C A id n c t li lt (Err h)).
  - by eapply refines_vote_reply.
  - exists A. split; [done|]. destruct Hrf as [Hns Hr Ht]. split; [done..|].
    intros id' k' [[= -> ->]|Hin]%elem_of_cons; [|by eapply Ht].
    destruct (Hns _ _ Hn) as (_ & _ & L & _ & v & vd & _ & _ & _ & Htally).
    unfold read_tally. destruct (ln_state n) as [| |m| |]; cbn in Htally; try (by destruct Htally).
    all: destruct Hk as [->|Hk]; [pose proof quorum_pos; lia|by eapply Ht].
  - eapply refines_solo; [done..|].
    destruct (rf_nodes _ _ Hrf _ _ Hn) as (Hid & _ & _).
    apply solo_promote_after_loop; [apply quorum_pos|by apply quorum_of_peers|].
    destruct Hk as [->|Hk]; [pose proof quorum_pos; lia|by eapply rf_tallies].
  - by eapply refines_truncate_front.
  - by eapply refines_restart.
Qed.

Lemma initial_refines C : initial C → ∃ A, a_initial A ∧ refines C A.
Proof.
  intros [Hmem Hstore Hfol Hrep Htal].
  assert (∃ M : gmap N Local, ∀ id, match cl_nodes C !! id with
    | Some n => ∃ L, M !! id = Some L ∧ models q id n L ∧ l_role L = AIdle
    | None => M !! id = None end) as [M HM].
  { clear Hmem Hrep Htal. induction (cl_nodes C) as [|id n m Hid IH] using map_ind.
    - exists ∅. intros id. by rewrite !lookup_empty.
    - destruct IH as [M HM].
      { intros id' n' Hn'. apply (Hstore id'). rewrite lookup_insert_ne; [done|congruence]. }
      { intros id' n' Hn'. apply (Hfol id'). rewrite lookup_insert_ne; [done|congruence]. }
      destruct (Hstore id n) as (v & vd & Hh); [apply lookup_insert_eq|].
      destruct (Hfol id n) as (f & Hst & Hf); [apply lookup_insert_eq|].
      exists (<[id := mkLocal (hs v) (hs vd) AIdle]> M). intros id'.
      destruct (decide (id' = id)) as [->|Hne].
      + rewrite !lookup_insert_eq. eexists. split; [done|]. split; [|done].
        exists v, vd. by rewrite Hst.
      + rewrite !lookup_insert_ne by done. apply HM. }
  exists (mkACluster M ∅). split; [split; [done|]|split].
  - intros id L HL. cbn in HL. specialize (HM id). destruct (cl_nodes C !! id).
    + destruct HM as (L' & HL' & _ & Hidle). congruence.
    + congruence.
  - intros id n Hn. destruct (Hmem id n Hn). split; [done|]. split; [done|].
    specialize (HM id). rewrite Hn in HM. destruct HM as (L & ? & ? & _). by exists L.
  - rewrite Hrep. by intros r ?%elem_of_nil.
  - rewrite Htal. by intros id k ?%elem_of_nil.
Qed.

Lemma reachable_refines C : reachable C → ∃ A, ainv members A ∧ refines C A.
Proof.
  intros (C0 & Hinit & Hsteps).
  destruct (initial_refines C0 Hinit) as (A0 & HA0 & Hrf0).
  apply (a_initial_inv members) in HA0.
  revert A0 HA0 Hrf0. clear Hinit. induction Hsteps as [C|C C1 C' Hstep _ IH]; intros A HA Hrf.
  { by exists A. }
  destruct (cstep_refines _ _ _ Hrf Hstep) as (A1 & Hr & Hrf1).
  apply (IH A1); [|done]. clear -HA Hr. induction Hr as [|A B D Hstep _ IH]; [done|].
  apply IH. by eapply astep_inv.
Qed.

(** C1: Election Safety.  In every cluster that the members can reach,
    through any interleaving of the nodes' tasks, lost, delayed or repeated
    vote replies, disk failures, halts, crashes and restarts, two nodes
    that are leaders of the same term are the same node. *)
Theorem election_safety C p p' n n' m m' t :
  reachable C →
  cl_nodes C !! p = Some n → cl_nodes C !! p' = Some n' →
  ln_state n = RS_Leader m → ln_state n' = RS_Leader m' →
  current_term (ln_store n) = Ok t → current_term (ln_store n') = Ok t → p = p'.
Proof.
  intros Hreach Hn Hn' Hst Hst' Ht Ht'.
  destruct (reachable_refines C Hreach) as (A & HA & Hrf).
  destruct (rf_nodes _ _ Hrf _ _ Hn) as (_ & _ & L & HL & v & vd & Hh & -> & _).
  destruct (rf_nodes _ _ Hrf _ _ Hn') as (_ & _ & L' & HL' & v' & vd' & Hh' & -> & _).
  rewrite Hst in HL. rewrite Hst' in HL'.
  eapply (leaders_agree members A); [done..|]. cbn.
  pose proof (current_term_law _ _ (proj1 Hh)) as R1. rewrite Ht in R1.
  pose proof (current_term_law _ _ (proj1 Hh')) as R2. rewrite Ht' in R2.
  cbn in *. congruence.
Qed.
End cluster.

(** ** A run of three nodes

    Node 1 wins its pre-vote, node 2 votes for it, the reply makes it
    leader. *)
Module ThreeNodes.
Definition members : gset N := {[1; 2; 3]}.
Definition C0 : cluster := mkCluster {[1 := fresh 1; 2 := fresh 2; 3 := fresh 3]} [] [].
Definition candidate : Node := after (run_command CPreVoteWon) (fresh 1).
Definition C1 : cluster := set_node 1 candidate C0.
Definition voter : Node := after (handle_request_vote 1 1 0 0) (fresh 2).
Definition reply : VoteReply := mkVoteReply 2 1 1 (RequestVoteResponse_new 1 true).
Definition C2 : cluster := add_reply reply (set_node 2 voter C1).
Definition leader : Node :=
  after (process_vote_response 1 (peers_of members 1) 2 (Ok (RequestVoteResponse_new 1 true)))
    candidate.
Definition C3 : cluster := set_node 1 leader C2.

Lemma C0_initial : initial members C0.
Proof.
  split; [| | |done|done]; intros id n; unfold C0; cbn [cl_nodes]; rewrite !lookup_insert_Some,
    lookup_singleton_Some; intros Hn.
  - assert (id = 1 ∨ id = 2 ∨ id = 3) as [-> | [-> | ->]] by naive_solver; (split; [set_solver|done]).
  - exists empty_view, empty_view. assert (ln_store n = MemSled.empty) as -> by naive_solver.
    split; [apply empty_repr|apply empty_durable].
  - assert (n = fresh id) as -> by naive_solver. by eexists.
Qed.

Lemma C3_reachable : reachable members C3.
Proof.
  exists C0. split; [apply C0_initial|].
  eapply rtc_l; [apply (CS_command members C0 1 (fresh 1) CPreVoteWon (Ok tt) candidate);
    [done|done|by vm_compute]|].
  eapply rtc_l; [apply (CS_request_vote members C1 2 (fresh 2) 1 1 0 0
    (mkRequestVoteResult 1 true) voter); [done|done|done|by vm_compute]|].
  eapply rtc_l; [apply (CS_vote_reply members C2 1 candidate reply (Ok QuorumReached) leader);
    [done|by left|done|by vm_compute]|].
  apply rtc_refl.
Qed.
End ThreeNodes.

Lemma election_safety_witness :
  ∃ m, ln_state ThreeNodes.leader = RS_Leader m ∧
       current_term (ln_store ThreeNodes.leader) = Ok 1 ∧ 1 = 1.
Proof.
  eexists. split; [by vm_compute|]. split; [by vm_compute|].
  eapply (election_safety ThreeNodes.members ThreeNodes.C3 1 1 ThreeNodes.leader ThreeNodes.leader);
    [apply ThreeNodes.C3_reachable|done|done|by vm_compute|by vm_compute|by vm_compute|by vm_compute].
Defined.
