(* ===== verification/NodeProps.v ===== *)
(** What one node guarantees about its log and its votes: the handlers of
    engine.rs and the leader's commit rule, stated on the view of the store
    that the node leaves behind. *)
From S2P Require Import Prelude Machine Types Wire Storage Timing Node Engine Consensus VoteSpec LogSpec Cluster.

(** The commit index a role keeps in memory. *)
Definition role_committed (r : RoleState) : option LogIndex :=
  match r with
  | RS_Follower m => Some (rn_last_committed m)
  | RS_PreCandidate m => Some (rn_last_committed m)
  | RS_Candidate m => Some (rn_last_committed m)
  | RS_Leader m => Some (rn_last_committed m)
  | RS_Poisoned => None
  end.

Lemma set_hard_state_id v : set_hard_state (lv_term v) (lv_vote v) v = v.
Proof. by destruct v. Qed.

Section views.
Context {S G : Type} `{LogStorageLaws S} `{RngExt G}.
Abbreviation node := (LogicalNode S G).
Implicit Types (n : node) (v : LogView).

Lemma wp_read_or_fatal {A} (f : S → result NodeError A) n (Q : A → node → Prop) :
  (∀ a, f (ln_store n) = Ok a → ln_state n ≠ RS_Poisoned → Q a n) →
  wp (read_or_fatal f) Q (λ _ _, True) n.
Proof.
  intros HQ. unfold read_or_fatal, delegate_read. wp_steps.
  destruct (ln_state n) eqn:Hst; try (by apply wp_fail);
    (apply wp_ret; destruct (f (ln_store n)) eqn:Hf;
     [by apply wp_ret, HQ|by unfold or_fatal, apply_fatal; wp_steps]).
Qed.
Lemma wp_eng_current_term n v (Q : Term → node → Prop) :
  repr (ln_store n) v → (ln_state n ≠ RS_Poisoned → Q (lv_term v) n) →
  wp eng_current_term Q (λ _ _, True) n.
Proof.
  intros Hv HQ. apply wp_read_or_fatal. intros t Ht Hnp.
  apply (node_read_Ok _ (lv_term v)) in Ht as ->; [by apply HQ|by apply current_term_law].
Qed.
Lemma wp_eng_last_log_index n v (Q : LogIndex → node → Prop) :
  repr (ln_store n) v → (ln_state n ≠ RS_Poisoned → Q (lv_last_index v) n) →
  wp eng_last_log_index Q (λ _ _, True) n.
Proof.
  intros Hv HQ. apply wp_read_or_fatal. intros t Ht Hnp.
  apply (node_read_Ok _ (lv_last_index v)) in Ht as ->; [by apply HQ|by apply last_log_index_law].
Qed.
Lemma wp_or_fatal {A} (r : result NodeError A) n (Q : A → node → Prop) :
  (∀ a, r = Ok a → Q a n) → wp (or_fatal r) Q (λ _ _, True) n.
Proof. intros HQ. destruct r; [by apply wp_ret, HQ|]. unfold or_fatal, apply_fatal. by wp_steps. Qed.

(** *** Stepping down *)

Lemma advance_term_view t s v :
  repr s v → U64 t →
  wp (advance_term t)
    (λ _ s', lv_term v ≤ t ∧
       ∃ o, repr s' (set_hard_state t o v) ∧ (lv_term v = t → o = lv_vote v) ∧
         ∀ vd, durable s vd → ∃ vd', durable s' vd')
    (λ _ _, True) s.
Proof.
  intros Hv Ht. unfold advance_term. wp_steps.
  eapply node_reads_view; [by apply current_term_law|].
  destruct (N.ltb_spec t (lv_term v)); [by apply wp_fail|].
  destruct (N.ltb_spec (lv_term v) t).
  - apply wp_map_err. eapply wp_mono; [by apply (save_hard_state_law t None _ v)| |done].
    intros _ s' [Hs' Hd]. split; [done|]. exists None. split_and!; [done|lia|eauto].
  - apply wp_ret. split; [done|]. exists (lv_vote v).
    assert (t = lv_term v) as -> by lia. rewrite set_hard_state_id. split_and!; eauto.
Qed.

(** The node is a follower of term [t] whose log and commit index are those
    before. *)
Definition follows_from n v t n' : Prop :=
  lv_term v ≤ t ∧
  (∃ o, repr (ln_store n') (set_hard_state t o v) ∧ (lv_term v = t → o = lv_vote v) ∧
     ∀ vd, durable (ln_store n) vd → ∃ vd', durable (ln_store n') vd') ∧
  ∃ m, ln_state n' = RS_Follower m ∧ role_committed (ln_state n) = Some (rn_last_committed m).

Lemma as_follower_view {R} (m : RaftNode R) t o tick timeout n v :
  repr (ln_store n) v → U64 t → role_committed (ln_state n) = Some (rn_last_committed m) →
  wp (as_role RS_Follower (try_into_follower m t o tick timeout))
    (λ r s', follows_from n v t (set_state r (set_store s' n))) (λ _ _, True) (ln_store n).
Proof.
  intros Hv Ht Hc. unfold as_role, apply_fatal_static, try_into_follower. wp_steps.
  eapply wp_mono; [by apply advance_term_view| |done]. intros _ s' [Hle Ho]. wp_steps.
  split; [done|]. split; [done|]. by eexists.
Qed.

Lemma wp_draw_timeout n (Q : TickDuration → node → Prop) (R : halt → node → Prop) :
  (∀ timeout g, Q timeout (set_rng g n)) → wp draw_timeout Q R n.
Proof.
  intros HQ. unfold wp, draw_timeout. by destruct (generate_election_timeout _ _).
Qed.
(** A transition that returns. *)
Lemma wp_transition_ok (f : RoleState → st S halt RoleState) n (Q : node → Prop) :
  wp (f (ln_state n)) (λ r s', Q (set_state r (set_store s' n))) (λ _ _, True) (ln_store n) →
  wp (eng_transition f) (λ _ n', Q n') (λ _ _, True) n.
Proof. unfold wp, eng_transition. by destruct (f (ln_state n) (ln_store n)) as [[r|h] s']. Qed.

Lemma wp_run_node {R A} (mk : RaftNode R → RoleState) (m : RaftNode R)
    (op : st (S * RaftNode R) NodeError A) n (Q : result NodeError A → node → Prop) (F : halt → node → Prop) :
  wp op (λ a p, Q (Ok a) (set_state (mk p.2) (set_store p.1 n)))
    (λ e p, Q (Err e) (set_state (mk p.2) (set_store p.1 n))) (ln_store n, m) →
  wp (run_node mk m op) Q F n.
Proof. unfold wp, run_node. by destruct (op _) as [[a|e] [s' m']]. Qed.
Lemma wp_run_store {A} (op : st S NodeError A) n (Q : result NodeError A → node → Prop) (F : halt → node → Prop) :
  wp op (λ a s', Q (Ok a) (set_store s' n)) (λ e s', Q (Err e) (set_store s' n)) (ln_store n) →
  wp (run_store op) Q F n.
Proof. intros Hop. unfold run_store. by apply wp_zoom, wp_try. Qed.

Lemma into_follower_view t o n v :
  repr (ln_store n) v → U64 t →
  wp (into_follower t o) (λ _ n', follows_from n v t n') (λ _ _, True) n.
Proof.
  intros Hv Ht. unfold into_follower. wp_step. apply wp_draw_timeout. intros timeout g.
  wp_steps. apply (wp_transition_ok _ _ (follows_from n v t)). cbn.
  destruct (ln_state n) as [m|m|m|m|] eqn:Hst; [..|by apply wp_fail].
  all: eapply wp_mono; [apply (as_follower_view m t o _ timeout (set_rng g n) v); [done|done|]| |done];
    [cbn; by rewrite Hst|done].
Qed.

(** A request of a term that is not stale makes the node its follower. *)
Lemma validate_leader_rpc_term_view t lid n v :
  repr (ln_store n) v → U64 t →
  wp (validate_leader_rpc_term t lid)
    (λ check n', match check with
                 | TC_Stale => n' = n ∧ t < lv_term v
                 | TC_Valid => follows_from n v t n'
                 end)
    (λ _ _, True) n.
Proof.
  intros Hv Ht. unfold validate_leader_rpc_term. wp_step.
  eapply wp_eng_current_term; [done|]. intros Hnp.
  assert (∀ o, wp (_ ← into_follower t o; mret TC_Valid)
    (λ check n', match check with
                 | TC_Stale => n' = n ∧ t < lv_term v
                 | TC_Valid => follows_from n v t n'
                 end) (λ _ _, True) n) as Hdown.
  { intros o. wp_step. eapply wp_mono; [by apply into_follower_view| |done]. intros; by apply wp_ret. }
  destruct (N.ltb_spec t (lv_term v)); [by apply wp_ret|].
  destruct (N.ltb_spec (lv_term v) t); [apply Hdown|].
  assert (t = lv_term v) as -> by lia. wp_step. apply wp_get.
  destruct (ln_state n) as [m|m|m|m|] eqn:Hst; [|apply Hdown..| |done].
  - wp_steps. split; [done|]. split.
    { exists (lv_vote v). rewrite set_hard_state_id. split_and!; eauto. }
    rewrite Hst. by eexists.
  - unfold apply_fatal. by wp_steps.
Qed.

Lemma reset_heartbeat_follower n m :
  ln_state n = RS_Follower m →
  wp reset_heartbeat
    (λ _ n', ln_store n' = ln_store n ∧
       ∃ m', ln_state n' = RS_Follower m' ∧ rn_last_committed m' = rn_last_committed m)
    (λ _ _, True) n.
Proof. intros Hst. unfold reset_heartbeat. apply wp_modify. rewrite Hst. cbn. eauto. Qed.

(** *** AppendEntries *)

(** What the answer says about the store left behind. *)
Definition append_post (t : Term) (pi : LogIndex) (pt : Term) (es : list LogEntry) (lc : LogIndex)
    n v (res : AppendEntriesResult) n' : Prop :=
  if lv_term v <=? t then
    ∃ v', repr (ln_store n') v' ∧ lv_term v' = t ∧ ar_term res = t ∧
      ar_success res = consistent v pi pt ∧ ar_conflict_index res = lv_last_index v' ∧
      (if consistent v pi pt then installed pi es v v' else lv_log v' = lv_log v) ∧
      ∃ c c', role_committed (ln_state n) = Some c ∧ role_committed (ln_state n') = Some c' ∧
        c' ≤ N.max c (N.min lc (lv_last_index v')) ∧
        (c ≤ lv_last_index v → (∀ e, e ∈ es → le_index e ≤ c → conflicts v e = false) → c ≤ c') ∧
        (consistent v pi pt = true → taken pi es lc v c v' c') ∧
        (∃ m, ln_state n' = RS_Follower m)
  else res = AppendEntriesResult_stale_term (lv_term v) ∧ n' = n.

Lemma consistent_hard_state t o v pi pt :
  consistent (set_hard_state t o v) pi pt = consistent v pi pt.
Proof. done. Qed.
Lemma installed_hard_state t o pi es v v' :
  installed pi es (set_hard_state t o v) v' → installed pi es v v'.
Proof. intros [Hwf Hp He Ho Hl]. by split. Qed.
Lemma taken_hard_state t o pi es lc v c v' c' :
  taken pi es lc (set_hard_state t o v) c v' c' → taken pi es lc v c v' c'.
Proof. intros [Hs Hl Hc Hd]. by split. Qed.
Lemma well_formed_hard_state t o v : well_formed v → well_formed (set_hard_state t o v).
Proof. by apply well_formed_ext. Qed.
Lemma reconcile_view_hard pi pt es lc v c res v' c' :
  reconcile_view pi pt es lc v c = Ok (res, v', c') → hs v' = hs v.
Proof.
  unfold reconcile_view. destruct (negb _); [by intros [= _ <- _]|]. cbn.
  assert (∀ es v, hs (cut es v) = hs v) as Hcut.
  { clear. intros es v. destruct (cut_cases es v) as [[-> _]|(?&?&?&_&_&_&->)]; done. }
  destruct (index_add _ _) as [next|]; cbn; [|done].
  destruct (select_new _ _) as [[new|]|]; cbn; [| |done].
  - intros [= _ <- _]. destruct (commit_to _ _ _); cbn; apply Hcut.
  - intros [= _ <- _]. apply Hcut.
Qed.

Lemma handle_append_entries_view lid t pi pt es lc n v :
  repr (ln_store n) v → well_formed v → request_ok pi es → Forall wire_ok es → U64 t → U64 lc →
  wp (handle_append_entries lid t pi pt es lc) (append_post t pi pt es lc n v) (λ _ _, True) n.
Proof.
  intros Hv Hwf Hreq Hes Ht Hlc. unfold handle_append_entries. wp_step.
  eapply wp_eng_current_term; [done|]. intros _. wp_step.
  eapply wp_mono; [by apply (validate_leader_rpc_term_view t lid n v)| |done].
  intros [|] n1; [intros (Hle & (o & Hv1 & _) & m & Hst1 & Hc)|intros [-> Hlt]].
  2: { apply wp_ret. unfold append_post. destruct (N.leb_spec (lv_term v) t); [lia|done]. }
  wp_step. eapply wp_mono; [by eapply reset_heartbeat_follower| |done].
  intros _ n2 (Hs2 & m2 & Hst2 & Hc2). wp_step. apply wp_get. rewrite Hst2. wp_step.
  set (v1 := set_hard_state t o v) in *. rewrite <-Hs2 in Hv1.
  apply wp_run_node.
  eapply wp_mono; [by apply (reconcile_log_view pi pt es lc _ m2 v1)|..]; cbn beta.
  2: { intros e p _. wp_step. by apply wp_or_fatal. }
  intros res [s3 m3] (v3 & Hrv & Hv3). cbn in Hv3, Hrv.
  wp_step. apply wp_or_fatal. intros ? [= <-].
  wp_step. apply (wp_eng_current_term _ v3); [done|]. intros _. apply wp_ret.
  pose proof (reconcile_view_hard _ _ _ _ _ _ _ _ _ Hrv) as Hhs. injection Hhs as Hterm _.
  assert (consistent v pi pt = true → taken pi es lc v (rn_last_committed m) v3 (rn_last_committed m3)) as Htaken.
  { intros Hc1. rewrite <-Hc2. eapply taken_hard_state, reconcile_view_exact;
      [by apply well_formed_hard_state|done|exact Hc1|exact Hrv]. }
  apply reconcile_view_spec in Hrv as (Hsucc & Hlast & Hmono & Hbound & Hins);
    [|by apply well_formed_hard_state|done].
  unfold append_post. destruct (N.leb_spec (lv_term v) t); [|lia].
  exists v3. rewrite Hsucc, Hterm, Hlast. change (consistent v1 pi pt) with (consistent v pi pt) in *.
  split; [done|]. split; [done|].
  destruct (consistent v pi pt); cbn; split_and!; try done.
  - by eapply installed_hard_state.
  - exists (rn_last_committed m), (rn_last_committed m3). rewrite Hc2 in *. split_and!; try done. by exists m3.
  - by destruct Hins as [-> _].
  - exists (rn_last_committed m), (rn_last_committed m3). rewrite Hc2 in *. split_and!; try done. by exists m3.
Qed.

(** *** Requests *)

(** The index of the peer's next entry is a value of its type. *)
Definition next_fits peer n : Prop :=
  ∀ m, ln_state n = RS_Leader m → U64 (next_index_of (rn_state m) peer).

Lemma build_request_view peer t id c n v :
  repr (ln_store n) v → next_fits peer n →
  wp (build_append_entries_request peer t id c)
    (λ r n', ∀ req, r = Ok req →
       n' = n ∧ aeq_term req = t ∧ aeq_leader_commit req = c ∧
       sent_by v (aeq_prev_log_index req) (aeq_prev_log_term req) (aeq_entries req))
    (λ _ _, True) n.
Proof.
  intros Hv Hfits. unfold build_append_entries_request. wp_step. apply wp_get.
  set (next := match ln_state n with RS_Leader m => _ | _ => 1 end).
  assert (U64 next) as Hnext by (unfold next; destruct (ln_state n) eqn:Hst; try done; by apply Hfits).
  wp_step. eapply wp_eng_last_log_index; [done|]. intros _.
  destruct (index_sub next 1) as [prev|] eqn:Hprev; [|by apply wp_ret].
  apply index_sub_Ok in Hprev as [-> Hpos].
  wp_step. apply wp_read_or_fatal. intros pt Hpt _.
  wp_step. apply wp_read_or_fatal. intros es Hes _. apply wp_ret. intros req [= <-]. cbn.
  pose proof (lv_last_index_U64 v (repr_ok _ _ Hv)) as Hlast.
  apply (node_read_Ok _ (lv_range v next (lv_last_index v))) in Hes as ->;
    [|apply read_entries_law; [done..|lia]].
  apply (get_term_at_view _ _ _ _ Hv) in Hpt as ->; [|unfold U64 in *; lia].
  split_and!; [done..|]. split; [done|]. by rewrite N.sub_add.
Qed.
End views.

(** ** AppendEntries: the properties *)

Section append_entries.
Context {S G : Type} `{LogStorageLaws S} `{RngExt G}.
Implicit Types (n : LogicalNode S G) (v : LogView).

(** C13: what success means.  A follower answers success to a request only
    when the request's term is not behind its own and the anchor is in its
    log, or before its first entry, under the term given.  It has then adopted
    the term and is a follower; above its snapshot its log is exactly its own
    before the first entry sent that conflicts with it, all of it when none
    does, and the entries sent from there on, so that without a conflict not a
    single entry is removed; every entry sent is there under its term; the
    answer reports the end of that log.  The commit index follows the
    leader's, when that is ahead, up to the end of the log, in memory and on
    disk, and stays otherwise. *)
Theorem append_entries_accepted lid t pi pt es lc n v res n' :
  repr (ln_store n) v → well_formed v → request_ok pi es → Forall wire_ok es → U64 t → U64 lc →
  handle_append_entries lid t pi pt es lc n = (Ok res, n') → ar_success res = true →
  lv_term v ≤ t ∧ (pi = 0 ∨ pi ≤ lv_last_index v ∧ term_at v pi = pt) ∧
  ∃ v' c m', repr (ln_store n') v' ∧ lv_term v' = t ∧ ar_term res = t ∧
    ar_conflict_index res = lv_last_index v' ∧ well_formed v' ∧
    lv_snap_index v' = lv_snap_index v ∧ lv_snap_term v' = lv_snap_term v ∧
    (∀ i, lv_snap_index v < i → lv_log v' !! i = log_after pi es v i) ∧
    (∀ e, e ∈ es → lv_snap_index v < le_index e →
       ∃ x, lv_log v' !! le_index e = Some x ∧ le_term x = le_term e) ∧
    role_committed (ln_state n) = Some c ∧ ln_state n' = RS_Follower m' ∧
    rn_last_committed m' = (if c <? lc then N.min lc (lv_last_index v') else c) ∧
    lv_committed v' = (if c <? lc then rn_last_committed m' else lv_committed v).
Proof.
  intros Hv Hwf Hreq Hes Ht Hlc Hrun Hsucc.
  pose proof (wp_run _ _ _ _ _ _ (handle_append_entries_view lid t pi pt es lc n v
    Hv Hwf Hreq Hes Ht Hlc) Hrun) as Hpost. unfold append_post in Hpost.
  destruct (N.leb_spec (lv_term v) t) as [Hle|]; [|by destruct Hpost as [-> _]]. split; [done|].
  destruct Hpost as (v' & Hv' & Ht' & Hart & Hs & Hl & Hins & c & c' & Hc & Hc' & _ & _ & Htaken & m' & Hm').
  rewrite Hs in Hsucc. rewrite Hsucc in Hins. split.
  { unfold consistent in Hsucc. lia. }
  rewrite Hm' in Hc'. injection Hc' as <-. destruct (Htaken Hsucc) as [[Hsi Hst] Hlog Hcom Hsav].
  exists v', c, m'. split_and!; try done; [apply Hins|]. intros e. by apply (ins_entries _ _ _ _ Hins).
Qed.

(** C27: a request is refused only because its term is stale or its anchor is
    not in the log, and then no entry of the log changes; a request whose
    anchor is in the log is never refused. *)
Theorem append_entries_refused lid t pi pt es lc n v res n' :
  repr (ln_store n) v → well_formed v → request_ok pi es → Forall wire_ok es → U64 t → U64 lc →
  handle_append_entries lid t pi pt es lc n = (Ok res, n') → ar_success res = false →
  (t < lv_term v ∨ consistent v pi pt = false) ∧
  ∃ v', repr (ln_store n') v' ∧ lv_log v' = lv_log v ∧ lv_term v' = N.max t (lv_term v) ∧
        ar_term res = N.max t (lv_term v).
Proof.
  intros Hv Hwf Hreq Hes Ht Hlc Hrun Hfail.
  pose proof (wp_run _ _ _ _ _ _ (handle_append_entries_view lid t pi pt es lc n v
    Hv Hwf Hreq Hes Ht Hlc) Hrun) as Hpost. unfold append_post in Hpost.
  destruct (N.leb_spec (lv_term v) t).
  - destruct Hpost as (v' & Hv' & Ht' & Hart & Hs & Hl & Hins & _).
    rewrite Hfail in Hs. rewrite <-Hs in Hins. split; [by right|].
    exists v'. split_and!; [done..|lia|lia].
  - destruct Hpost as [-> ->]. split; [by left|]. exists v. cbn. split_and!; [done..|lia|lia].
Qed.

(** Log Matching is preserved by replication.  A leader cuts a request
    from its log, a follower whose log matches it accepts: the follower's
    log is then the leader's over the leader's whole length, and it matches
    every log of the cluster that both matched before. *)
Theorem replication_log_matching peer t id c (nl nl' : LogicalNode S G) req vl lid n n' res v :
  repr (ln_store nl) vl → well_formed vl → uncompacted vl → next_fits peer nl →
  build_append_entries_request peer t id c nl = (Ok (Ok req), nl') →
  repr (ln_store n) v → well_formed v → uncompacted v → U64 t → U64 c →
  handle_append_entries lid (aeq_term req) (aeq_prev_log_index req) (aeq_prev_log_term req)
    (aeq_entries req) (aeq_leader_commit req) n = (Ok res, n') →
  ar_success res = true → matches vl v →
  ∃ v', repr (ln_store n') v' ∧ well_formed v' ∧
    (∀ j, 0 < j → j ≤ lv_last_index vl → lv_log v' !! j = lv_log vl !! j) ∧
    (∀ w, matches vl w → matches v w → matches v' w).
Proof.
  intros Hvl Hwl Hul Hfits Hbuild Hv Hwf Hu Ht Hc Hrun Hsucc Hm.
  destruct (wp_run _ _ _ _ _ _ (build_request_view peer t id c nl vl Hvl Hfits) Hbuild req eq_refl)
    as (_ & Hqt & Hqc & Hsent).
  pose proof (repr_ok _ _ Hvl) as Hok.
  destruct (sent_by_request _ _ _ _ Hok Hwl ltac:(unfold uncompacted in *; lia) Hsent)
    as (Hreq & Hes & _).
  rewrite Hqt, Hqc in Hrun.
  pose proof (wp_run _ _ _ _ _ _ (handle_append_entries_view lid t _ _ _ c n v
    Hv Hwf Hreq Hes Ht Hc) Hrun) as Hpost. unfold append_post in Hpost.
  destruct (lv_term v <=? t); [|by destruct Hpost as [-> _]].
  destruct Hpost as (v' & Hv' & _ & _ & Hs & _ & Hins & _). rewrite Hs in Hsucc.
  rewrite Hsucc in Hins. exists v'. split; [done|]. split; [apply Hins|].
  apply (installed_matches vl v v' _ _ _ Hok Hwl Hul Hwf Hu Hsent); [by rewrite Hsucc|done|done].
Qed.
End append_entries.

(** ** Votes: the properties *)

Section votes.
Context {S G : Type} `{LogStorageLaws S} `{RngExt G}.
Implicit Types (n : LogicalNode S G) (v : LogView).

(** The candidate's log is at least as up to date (section 5.4.1). *)
Definition up_to_date v (li : LogIndex) (lt : Term) : Prop :=
  lv_last_term v < lt ∨ lv_last_term v = lt ∧ lv_last_index v ≤ li.

(** A vote that is answered is already on disk, for the request's term,
    is the first of that term or repeats it, and went to a candidate whose
    log is at least as up to date as the voter's; the log is untouched. *)
Theorem vote_granted_durable c t li lt n v vd res n' :
  held (ln_store n) v vd → valid_node_id c → U64 t →
  handle_request_vote c t li lt n = (Ok res, n') → vr_vote_granted res = true →
  ∃ v', repr (ln_store n') v' ∧ durable (ln_store n') v' ∧
    lv_term v' = t ∧ lv_vote v' = Some c ∧ vr_term res = t ∧ lv_log v' = lv_log v ∧
    lv_term v ≤ t ∧ (lv_term v = t → lv_vote v = None ∨ lv_vote v = Some c) ∧
    up_to_date v li lt.
Proof.
  intros [Hv Hd] Hc Ht Hrun Hgr.
  set (post := λ (res : RequestVoteResult) n', vr_vote_granted res = true →
    ∃ v', repr (ln_store n') v' ∧ durable (ln_store n') v' ∧
      lv_term v' = t ∧ lv_vote v' = Some c ∧ vr_term res = t ∧ lv_log v' = lv_log v ∧
      lv_term v ≤ t ∧ (lv_term v = t → lv_vote v = None ∨ lv_vote v = Some c) ∧
      up_to_date v li lt).
  enough (wp (handle_request_vote c t li lt) post (λ _ _, True) n) as Hwp
    by (by eapply (wp_run _ _ _ _ _ _ Hwp) in Hrun; apply Hrun).
  clear Hrun Hgr n' res. unfold handle_request_vote. wp_step.
  eapply wp_eng_current_term; [done|]. intros _. wp_step.
  apply wp_mono with (Q := λ _ n1, lv_term v ≤ N.max t (lv_term v) ∧
      (∃ o vd', held (ln_store n1) (set_hard_state (N.max t (lv_term v)) o v) vd' ∧
         (lv_term v = N.max t (lv_term v) → o = lv_vote v))) (R := λ _ _, True); [| |done].
  { destruct (N.ltb_spec (lv_term v) t).
    - rewrite N.max_l by lia. eapply wp_mono; [by apply into_follower_view| |done].
      intros _ n1 (Hle & (o & Hr & Ho & Hdur) & _). destruct (Hdur vd Hd) as [vd' Hd'].
      split; [done|]. by exists o, vd'.
    - apply wp_ret. rewrite N.max_r by lia. split; [done|].
      exists (lv_vote v), vd. by rewrite set_hard_state_id. }
  intros _ n1 (Hle & o & vd1 & Hh1 & Ho). wp_step. apply wp_get. wp_step.
  set (v1 := set_hard_state _ o v) in Hh1.
  apply wp_mono with (Q := λ (granted : bool) n2,
    ∃ v2, repr (ln_store n2) v2 ∧ (granted = true →
      v2 = set_hard_state t (Some c) v1 ∧ durable (ln_store n2) v2 ∧ t = lv_term v1 ∧
      hs_le (hs v1) (t, Some c) ∧ up_to_date v li lt)) (R := λ _ _, True); [| |done].
  { destruct (ln_state n1); try (apply wp_ret; exists v1; split; [apply Hh1|done]).
    wp_step. apply wp_run_store.
    eapply wp_mono; [by apply (attempt_grant_vote_spec c t li lt _ v1 vd1)|..]; cbn beta.
    - intros [] s'.
      + intros (Ht1 & Hle' & Hup & Hr & Hdur). apply wp_or_fatal. intros _ [= <-].
        eexists. split; [done|]. by intros _.
      + intros ->. apply wp_or_fatal. intros _ [= <-]. exists v1. split; [apply Hh1|done].
    - intros e s' _. by apply wp_or_fatal. }
  intros granted n2 (v2 & Hr2 & Hg). wp_step. eapply wp_eng_current_term; [done|].
  intros _. apply wp_ret. unfold post. destruct granted; [|done]. intros _.
  destruct (Hg eq_refl) as (-> & Hdur & Hterm & Hle2 & Hup). cbn in Hterm. rewrite <-Hterm in *.
  eexists. split_and!; [done..| |done]. intros Heq. specialize (Ho Heq).
  destruct Hle2 as [Hlt|[_ Hvote]]; cbn in *; [lia|]. subst o. destruct Hvote; auto.
Qed.

(** Pre-votes are free of side effects: whatever it answers, the handler
    leaves the node as it was, disk included, and it grants exactly when the
    node is a follower, the term is not behind and the candidate's log is
    up to date. *)
Theorem pre_vote_read_only c t li lt n v res n' :
  repr (ln_store n) v →
  handle_pre_vote c t li lt n = (Ok res, n') →
  n' = n ∧ vr_term res = lv_term v ∧
  (vr_vote_granted res = true ↔
   (∃ m, ln_state n = RS_Follower m) ∧ lv_term v ≤ t ∧ up_to_date v li lt).
Proof.
  intros Hv. apply (wp_run (handle_pre_vote c t li lt) (λ res n', n' = n ∧ vr_term res = lv_term v ∧
    (vr_vote_granted res = true ↔
     (∃ m, ln_state n = RS_Follower m) ∧ lv_term v ≤ t ∧ up_to_date v li lt)) (λ _ _, True) n (Ok res)).
  unfold handle_pre_vote. wp_step. eapply wp_eng_current_term; [done|]. intros _.
  wp_step. apply wp_get. wp_step. destruct (ln_state n) as [m| | | |] eqn:Hst;
    try (wp_steps; cbn; split_and!; [done..|]; split; [done|by intros [[? ?] _]]).
  apply wp_or_fatal. intros granted Hgr. wp_steps. split; [done|]. split; [by destruct granted|].
  assert (granted = true ↔ lv_term v ≤ t ∧ up_to_date v li lt) as Hiff.
  { unfold grant_pre_vote, is_log_up_to_date, mbind, result_bind in Hgr.
    destruct (node_read current_term (ln_store n)) as [ct|] eqn:E0; [|done].
    apply (node_read_Ok _ (lv_term v)) in E0 as ->; [|by apply current_term_law].
    destruct (N.ltb_spec t (lv_term v)).
    { injection Hgr as <-. split; [done|]. intros [? _]. lia. }
    destruct (node_read last_log_term (ln_store n)) as [x|] eqn:E1; [|done].
    apply (node_read_Ok _ (lv_last_term v)) in E1 as ->; [|by apply last_log_term_law].
    destruct (node_read last_log_index (ln_store n)) as [y|] eqn:E2; [|done].
    apply (node_read_Ok _ (lv_last_index v)) in E2 as ->; [|by apply last_log_index_law].
    injection Hgr as <-. unfold up_to_date.
    destruct (N.eqb_spec lt (lv_last_term v)); cbn; lia. }
  destruct granted; cbn; [split; [|done]|split; [done|]].
  - intros _. split; [by eexists|]. by apply Hiff.
  - intros [_ Hx]. by apply Hiff.
Qed.
End votes.

(** ** The median rule *)

(** How many values reach [x]. *)
Definition reaching (x : N) (l : list N) : nat := length (filter (λ y, x ≤ y) l).

Lemma reaching_Permutation x l l' : l ≡ₚ l' → reaching x l = reaching x l'.
Proof. intros Hp. unfold reaching. by rewrite Hp. Qed.

Lemma sorted_suffix_reaching l k x :
  Sorted N.le l → l !! k = Some x → (length l - k ≤ reaching x l)%nat.
Proof.
  intros Hs Hk. apply Sorted_StronglySorted in Hs; [|intros a b c; lia].
  revert k Hk. induction Hs as [|a l Hs IH Hall]; intros k Hk; [done|].
  assert (∀ l, reaching x (a :: l) = if decide (x ≤ a) then S (reaching x l) else reaching x l) as Hcons.
  { intros l'. unfold reaching. rewrite filter_cons. by destruct (decide (x ≤ a)). }
  rewrite Hcons. destruct k as [|k]; cbn in Hk.
  - injection Hk as ->. rewrite decide_True by lia. cbn.
    assert (reaching x l = length l) as ->; [|lia].
    unfold reaching. f_equal. clear -Hall. induction Hall as [|y l Hy _ IHl]; [done|].
    rewrite filter_cons_True by done. by f_equal.
  - specialize (IH k Hk). destruct (decide _); cbn; lia.
Qed.

(** At least a quorum of the values reach the median. *)
Lemma median_quorum l p :
  length l = (p + 1)%nat → quorum_of p ≤ N.of_nat (reaching (median l) l).
Proof.
  intros Hlen. unfold median, quorum_of.
  pose proof (merge_sort_Permutation N.le l) as Hp.
  assert (length (merge_sort N.le l) = (p + 1)%nat) as Hlen' by (by rewrite Hp).
  destruct (lookup_lt_is_Some_2 (merge_sort N.le l) ((length l - 1) / 2)%nat) as [x Hx].
  { rewrite Hlen', Hlen. replace (p + 1 - 1)%nat with p by lia.
    pose proof (Nat.Div0.div_le_upper_bound p 2 p). lia. }
  rewrite Hx. change (default 0 (Some x)) with x. rewrite <-(reaching_Permutation x _ _ Hp).
  pose proof (sorted_suffix_reaching _ _ _ (Sorted_merge_sort N.le l) Hx) as Hge.
  rewrite Hlen', Hlen in Hge. replace (p + 1 - 1)%nat with p in Hge by lia.
  pose proof (Nat.div_mod p 2 ltac:(lia)). pose proof (Nat.mod_upper_bound p 2 ltac:(lia)).
  pose proof (Nat.div_mod (p + 1) 2 ltac:(lia)). pose proof (Nat.mod_upper_bound (p + 1) 2 ltac:(lia)).
  lia.
Qed.

(** ** The leader's commit rule *)

Section commit.
Context {S G : Type} `{LogStorageLaws S} `{RngExt G}.
Implicit Types (n : LogicalNode S G) (v : LogView).

Lemma update_commit_index_view {R} i s (m : RaftNode R) v :
  repr s v →
  wp (update_commit_index_only i)
    (λ _ p, ∃ v', repr p.1 v' ∧ lv_log v' = lv_log v ∧ (∃ k, v' = set_committed k v) ∧
       p.2 = set_node_committed (N.max i (rn_last_committed m)) m ∧
       (rn_last_committed m < i → i ≤ lv_last_index v ∧ v' = set_committed i v ∧ durable p.1 v'))
    (λ _ _, True) (s, m).
Proof.
  intros Hv. unfold update_commit_index_only. wp_steps. cbn [snd].
  assert (∀ c, c = rn_last_committed m → set_node_committed c m = m) as Hid.
  { intros c ->. by destruct m. }
  assert (∃ k, v = set_committed k v) as Hk by (exists (lv_committed v); by destruct v).
  destruct (N.ltb_spec i (rn_last_committed m)).
  { apply wp_ret. exists v. cbn. rewrite Hid by lia. split_and!; [done..|lia]. }
  wp_steps. apply wp_zoom. eapply node_reads_view; [by apply last_log_index_law|].
  destruct (N.ltb_spec (lv_last_index v) i); [by apply wp_fail|].
  destruct (N.ltb_spec (rn_last_committed m) i).
  - wp_steps. apply wp_zoom, wp_map_err.
    assert (U64 i) as Hi.
    { pose proof (lv_last_index_U64 v (repr_ok _ _ Hv)). unfold U64 in *. lia. }
    eapply wp_mono; [by apply (save_last_committed_law i s v)| |done].
    intros _ s' [Hr Hd]. unfold set_committed_field. wp_steps. cbn.
    exists (set_committed i v). rewrite N.max_l by lia. split_and!; [done..|by exists i|done|done].
  - apply wp_ret. exists v. cbn. rewrite Hid by lia. split_and!; [done..|lia].
Qed.

(** The commit index moves forward only, never past the end of the log,
    and a move is on disk before the node acts on it. *)
Theorem commit_index_monotone {R} i s (m : RaftNode R) v s' m' :
  repr s v → update_commit_index_only i (s, m) = (Ok tt, (s', m')) →
  rn_last_committed m' = N.max i (rn_last_committed m) ∧
  (rn_last_committed m < rn_last_committed m' →
   rn_last_committed m' ≤ lv_last_index v ∧ durable s' (set_committed (rn_last_committed m') v)).
Proof.
  intros Hv Hrun.
  destruct (wp_run _ _ _ _ _ _ (update_commit_index_view i s m v Hv) Hrun)
    as (v' & Hv' & _ & _ & Hm & Hmove). cbn in *. subst m'. cbn. split; [done|].
  intros Hlt. destruct Hmove as (Hle & -> & Hd); [lia|]. rewrite N.max_l in * by lia. done.
Qed.

(** The leader's commit rule.  When processing the match indices moves
    the commit index to [c], the entry at [c] is of the leader's own term,
    and [c] is reached by the leader and enough peers to make a quorum. *)
Theorem leader_commits_quorum n v m n' m' :
  repr (ln_store n) v → ln_state n = RS_Leader m →
  update_leader_last_committed n = (Ok tt, n') → ln_state n' = RS_Leader m' →
  rn_last_committed m ≤ rn_last_committed m' ∧ rn_state m' = rn_state m ∧
  (rn_last_committed m < rn_last_committed m' →
   let c := rn_last_committed m' in
   term_at v c = lv_term v ∧ c ≤ lv_last_index v ∧
   quorum_of (size (ld_match_index (rn_state m)))
     ≤ 1 + N.of_nat (reaching c ((map_to_list (ld_match_index (rn_state m))).*2))).
Proof.
  intros Hv Hst Hrun Hst'.
  set (mi := (map_to_list (ld_match_index (rn_state m))).*2).
  set (c := median (mi ++ [lv_last_index v])).
  assert (wp (update_leader_last_committed (S:=S) (G:=G)) (λ _ n', n' = n ∨
    ∃ s', n' = set_state (RS_Leader (set_node_committed c m)) (set_store s' n) ∧
      rn_last_committed m < c ∧ c ≤ lv_last_index v ∧ term_at v c = lv_term v)
    (λ _ _, True) n) as Hwp.
  { unfold update_leader_last_committed. wp_step. eapply wp_eng_last_log_index; [done|]. intros _.
    wp_step. eapply wp_eng_current_term; [done|]. intros _. wp_step. apply wp_get. rewrite Hst.
    fold mi. fold c. wp_step. unfold eng_last_committed, delegate_field. wp_steps. rewrite Hst. wp_steps.
    destruct (N.ltb_spec (rn_last_committed m) c); [|apply wp_ret; by left].
    wp_step. apply wp_read_or_fatal. intros t Ht _.
    destruct (N.eqb_spec t (lv_term v)) as [->|]; [|apply wp_ret; by left].
    unfold eng_advance_last_committed, delegate_mut. wp_steps. rewrite Hst. apply wp_run_node.
    eapply wp_mono; [by apply (update_commit_index_view c (ln_store n) m v)|..].
    2: { intros e p _. by apply wp_or_fatal. }
    intros [] [s' m1] (v' & Hv' & _ & _ & Hm1 & Hmove). cbn [fst snd] in *. apply wp_or_fatal. intros _ _.
    right. exists s'. rewrite Hm1, N.max_l by lia. destruct Hmove as (Hle & _); [done|].
    split_and!; [done..|]. symmetry. eapply (get_term_at_view c (ln_store n) v); [done| |done].
    pose proof (lv_last_index_U64 v (repr_ok _ _ Hv)). unfold U64 in *. lia. }
  destruct (wp_run _ _ _ _ _ _ Hwp Hrun) as [->|(s' & -> & Hlt & Hle & Ht)].
  { rewrite Hst in Hst'. injection Hst' as <-. split_and!; [lia|done|lia]. }
  cbn in Hst'. injection Hst' as <-. cbn. split_and!; [lia|done|]. intros _. split_and!; [done..|].
  assert (length (mi ++ [lv_last_index v]) = (size (ld_match_index (rn_state m)) + 1)%nat) as Hlen.
  { rewrite length_app. cbn. f_equal. unfold mi. rewrite length_fmap.
    apply length_map_to_list. }
  pose proof (median_quorum _ _ Hlen) as Hq. fold c in Hq. unfold reaching in Hq.
  rewrite list.filter_app, length_app in Hq. fold (reaching c mi) in Hq.
  rewrite filter_cons_True in Hq by done. cbn in Hq. lia.
Qed.

(** A proposal appends exactly one entry, at the end of the log, under
    the leader's term, and it is on disk when the index is returned. *)
Theorem propose_appends command n v m i n' :
  repr (ln_store n) v → ln_state n = RS_Leader m → Forall is_byte command →
  eng_propose command n = (Ok (Ok i), n') →
  i = lv_last_index v + 1 ∧ ln_state n' = ln_state n ∧
  let v' := set_log (<[i := LogEntry_new i (lv_term v) command]> (lv_log v)) v in
  repr (ln_store n') v' ∧ durable (ln_store n') v'.
Proof.
  intros Hv Hst Hc Hrun.
  assert (wp (eng_propose (S:=S) (G:=G) command) (λ r n', ∀ i, r = Ok i →
    i = lv_last_index v + 1 ∧ ln_state n' = ln_state n ∧
    let v' := set_log (<[i := LogEntry_new i (lv_term v) command]> (lv_log v)) v in
    repr (ln_store n') v' ∧ durable (ln_store n') v') (λ _ _, True) n) as Hwp.
  { unfold eng_propose. wp_step. apply wp_get. rewrite Hst. wp_step. apply wp_run_store.
    unfold propose. wp_step. eapply node_reads_spec; [by apply last_log_index_law| |].
    2: { intros e _. wp_step. by apply wp_or_fatal. }
    wp_step. apply wp_lift. 2: { intros e _. wp_step. by apply wp_or_fatal. }
    intros j Hj. destruct (index_add _ 1) as [k|] eqn:Hk; [|done]. injection Hj as <-.
    apply newtype_add_Ok in Hk as [-> Hk].
    wp_step. eapply node_reads_spec; [by apply current_term_law| |].
    2: { intros e _. wp_step. by apply wp_or_fatal. }
    wp_step. apply wp_map_err. eapply wp_mono; [apply (append_entries_law _ _ v Hv)|..].
    { apply Forall_singleton. split_and!; [|done|done]. eapply vo_term, repr_ok, Hv. }
    2: { intros e s' _. wp_step. by apply wp_or_fatal. }
    intros _ s' [Hr Hd]. wp_steps. apply wp_or_fatal. intros _ [= <-]. wp_step.
    eapply wp_eng_current_term; [exact Hr|]. intros _. apply wp_ret.
    intros _ [= <-]. by split_and!. }
  exact (wp_run _ _ _ _ _ _ Hwp Hrun i eq_refl).
Qed.
End commit.

(** ** The Halt Mandate *)

Section halted.
Context {S G : Type} `{LogStorage S} `{RngExt G}.
Abbreviation node := (LogicalNode S G).
Implicit Types (n : node).

(** An operation that leaves a poisoned node poisoned and its store alone. *)
Definition halted_at (s : S) n : Prop := ln_state n = RS_Poisoned ∧ ln_store n = s.
Definition inert {A} (m : st node halt A) : Prop :=
  ∀ s n, halted_at s n → wp m (λ _, halted_at s) (λ _, halted_at s) n.
(** An operation that never returns on a poisoned node. *)
Definition mute {A} (m : st node halt A) : Prop :=
  ∀ s n, halted_at s n → wp m (λ _ _, False) (λ _, halted_at s) n.

Lemma mute_inert {A} (m : st node halt A) : mute m → inert m.
Proof. intros Hm s n Hn. by eapply wp_mono; [apply Hm|..]. Qed.
Lemma mute_bind {A B} (m : st node halt A) (k : A → st node halt B) : mute m → mute (m ≫= k).
Proof. intros Hm s n Hn. wp_step. by eapply wp_mono; [by apply Hm|..]. Qed.
Lemma inert_mute_bind {A B} (m : st node halt A) (k : A → st node halt B) :
  inert m → (∀ a, mute (k a)) → mute (m ≫= k).
Proof.
  intros Hm Hk s n Hn. wp_step. eapply wp_mono; [by apply Hm| |done].
  intros a n' Hn'. by apply Hk.
Qed.
Lemma inert_bind {A B} (m : st node halt A) (k : A → st node halt B) :
  inert m → (∀ a, inert (k a)) → inert (m ≫= k).
Proof.
  intros Hm Hk s n Hn. wp_step. eapply wp_mono; [by apply Hm| |done].
  intros a n' Hn'. by apply Hk.
Qed.
Lemma inert_ret {A} (a : A) : inert (mret a).
Proof. intros s n Hn. by apply wp_ret. Qed.
Lemma inert_gets {A} (f : node → A) : inert (st_gets f).
Proof. intros s n Hn. by apply wp_gets. Qed.
Lemma inert_draw : inert draw_timeout.
Proof. intros s n Hn. unfold wp, draw_timeout. by destruct (generate_election_timeout _ _). Qed.
Lemma mute_read {A} (f : S → result NodeError A) : mute (read_or_fatal f).
Proof.
  intros s n [Hp Hs]. unfold read_or_fatal, delegate_read. wp_steps. rewrite Hp. by apply wp_fail.
Qed.
Lemma mute_field {A} (f : ∀ R, RaftNode R → A) : mute (delegate_field f).
Proof. intros s n [Hp Hs]. unfold delegate_field. wp_steps. rewrite Hp. by apply wp_fail. Qed.
Lemma mute_delegate {A} (op : ∀ R, st (S * RaftNode R) NodeError A) : mute (delegate_mut op).
Proof. intros s n [Hp Hs]. unfold delegate_mut. wp_steps. rewrite Hp. by apply wp_fail. Qed.
(** The transitions that name [Poisoned] panic; the others pass it on. *)
Lemma mute_transition (f : RoleState → st S halt RoleState) :
  (∀ s, f RS_Poisoned s = (Err HaltPoisoned, s)) → mute (eng_transition f).
Proof. intros Hf s n [Hp Hs]. unfold wp, eng_transition. by rewrite Hp, Hf, Hs. Qed.
Lemma inert_transition (f : RoleState → st S halt RoleState) :
  (∀ s, f RS_Poisoned s = (Ok RS_Poisoned, s)) → inert (eng_transition f).
Proof. intros Hf s n [Hp Hs]. unfold wp, eng_transition. by rewrite Hp, Hf, Hs. Qed.
(** A choice on the role takes the branch of [Poisoned]. *)
Lemma mute_get {A} (k : node → st node halt A) :
  (∀ n, ln_state n = RS_Poisoned → mute (k n)) → mute (st_get ≫= k).
Proof. intros Hk s n Hn. wp_steps. by apply Hk; [apply Hn|]. Qed.
Lemma inert_get {A} (k : node → st node halt A) :
  (∀ n, ln_state n = RS_Poisoned → inert (k n)) → inert (st_get ≫= k).
Proof. intros Hk s n Hn. wp_steps. by apply Hk; [apply Hn|]. Qed.

Lemma mute_into_follower t o : mute (into_follower t o).
Proof.
  apply inert_mute_bind; [apply inert_draw|intros].
  apply inert_mute_bind; [apply inert_gets|intros]. by apply mute_transition.
Qed.
Lemma inert_into_leader peers : inert (into_leader peers).
Proof. apply inert_bind; [apply inert_gets|intros]. by apply inert_transition. Qed.
Lemma inert_tick : inert tick.
Proof. intros s n [Hp Hs]. unfold tick. by wp_steps. Qed.

Lemma mute_propose command : mute (eng_propose command).
Proof. apply mute_get. intros n ->. intros s n' Hn. by apply wp_fail. Qed.
Lemma inert_strategy p params : inert (determine_replication_strategy p params).
Proof. apply inert_get. intros n ->. apply inert_ret. Qed.
Lemma inert_replication_response t p res : inert (replication_response_step t p res).
Proof.
  apply inert_bind.
  - unfold process_replication_response. destruct res as [[o|]|]; [|apply inert_ret..].
    destruct (t <? _); [apply mute_inert, mute_bind, mute_into_follower|].
    apply mute_inert, mute_bind, mute_read.
  - intros [a|e]; [apply inert_ret|]. intros s n [_ Hs]. unfold or_fatal, apply_fatal. by wp_steps.
Qed.

(** The operations that answer to someone: the RPC handlers, the proposals
    and the tick. *)
Definition answering (c : command) : bool :=
  match c with
  | CReplicationResponse _ _ _ | CStrategy _ _ | CPreVoteTerm _ _ => false
  | _ => true
  end.

Lemma mute_run_command c : answering c = true → mute (run_command (S:=S) (G:=G) c).
Proof.
  destruct c; try done; intros _; cbn [run_command]; unfold discard.
  - apply mute_bind, mute_bind, mute_read.
  - apply mute_bind, mute_bind, mute_read.
  - apply mute_bind, mute_bind, mute_read.
  - apply mute_bind, inert_mute_bind; [apply inert_tick|intros]. apply mute_bind, mute_read.
  - apply mute_bind, mute_read.
  - apply mute_bind, mute_propose.
  - apply mute_bind, mute_bind, mute_read.
  - apply mute_bind, mute_delegate.
  - apply mute_bind, mute_delegate.
Qed.
Lemma inert_run_command c : inert (run_command (S:=S) (G:=G) c).
Proof.
  destruct (answering c) eqn:Ha; [by apply mute_inert, mute_run_command|].
  destruct c; try done; cbn [run_command]; unfold discard;
    (apply inert_bind; [|intros; apply inert_ret]).
  - apply inert_replication_response.
  - apply inert_strategy.
  - unfold pre_vote_term_check. destruct (_ <? _); [|apply inert_ret].
    apply mute_inert, mute_bind, mute_read.
Qed.

(** The Halt Mandate is final.  Nothing that reaches a poisoned node
    revives it or touches its store: no command, no vote request, no vote
    reply, no promotion; and it answers nobody: vote requests, leader RPCs,
    pre-votes, proposals and ticks never return. *)
Theorem poisoned_absorbing n c cand t li lt peers p res k :
  ln_state n = RS_Poisoned →
  halted_at (ln_store n) (run_command c n).2 ∧
  halted_at (ln_store n) (handle_request_vote cand t li lt n).2 ∧
  halted_at (ln_store n) (process_vote_response t peers p res n).2 ∧
  halted_at (ln_store n) (promote_after_loop k peers n).2 ∧
  is_ok (handle_request_vote cand t li lt n).1 = false ∧
  (answering c = true → is_ok (run_command c n).1 = false).
Proof.
  intros Hp. assert (halted_at (ln_store n) n) as Hn by done.
  assert (∀ A (m : st node halt A), inert m → halted_at (ln_store n) (m n).2) as Hinert.
  { intros A m Hm. specialize (Hm _ _ Hn). unfold wp in Hm. by destruct (m n) as [[]]. }
  assert (∀ A (m : st node halt A), mute m → is_ok (m n).1 = false) as Hmute.
  { intros A m Hm. specialize (Hm _ _ Hn). unfold wp in Hm. by destruct (m n) as [[]]. }
  assert (mute (handle_request_vote (S:=S) (G:=G) cand t li lt)) as Hvote
    by apply mute_bind, mute_read.
  split_and!.
  - apply Hinert, inert_run_command.
  - by apply Hinert, mute_inert.
  - apply Hinert. unfold process_vote_response. destruct res as [resp|]; [|apply inert_ret].
    destruct (t <? _); [apply mute_inert, mute_bind, mute_into_follower|].
    destruct (rvr_vote_granted resp); [apply mute_inert, mute_bind, mute_read|apply inert_ret].
  - apply Hinert. unfold promote_after_loop. destruct (_ <=? _); [apply inert_into_leader|apply inert_ret].
  - by apply Hmute.
  - intros Hc. by apply Hmute, mute_run_command.
Qed.
End halted.

(** ** The leader's books *)

(** Every peer's next index is at least 1. *)
Definition next_positive (l : Leader) : Prop :=
  ∀ p i, ld_next_index l !! p = Some i → 1 ≤ i.

Lemma next_positive_insert l p i :
  next_positive l → 1 ≤ i → next_positive (set_next_index (<[p := i]> (ld_next_index l)) l).
Proof.
  intros Hl Hi q j. cbn. destruct (decide (q = p)) as [->|Hne].
  - rewrite lookup_insert_eq. by intros [= <-].
  - rewrite lookup_insert_ne by done. apply Hl.
Qed.

Lemma index_peers_positive last peers next mi next' mi' :
  (∀ p i, next !! p = Some i → 1 ≤ i) → index_peers last peers next mi = Ok (next', mi') →
  ∀ p i, next' !! p = Some i → 1 ≤ i.
Proof.
  revert next mi. induction peers as [|q peers IH]; intros next mi Hn; cbn.
  { by intros [= <- _]. }
  destruct (index_add last 1) as [j|] eqn:Hj; cbn; [|done].
  apply newtype_add_Ok in Hj as [-> _]. apply IH. intros p i.
  destruct (decide (p = q)) as [->|Hne].
  - rewrite lookup_insert_eq. intros [= <-]. lia.
  - rewrite lookup_insert_ne by done. apply Hn.
Qed.
Lemma Leader_new_positive peers last tick l :
  Leader_new peers last tick = Ok l → next_positive l.
Proof.
  unfold Leader_new. destruct (index_peers last peers ∅ ∅) as [[next mi]|] eqn:Hp; cbn; [|done].
  intros [= <-] p i. cbn. eapply index_peers_positive; [|done]. intros ? ?. by rewrite lookup_empty.
Qed.

Lemma record_outcome_positive p o l l' b :
  next_positive l → record_outcome p o l = Ok (l', b) → next_positive l'.
Proof.
  intros Hl. destruct o as [prev len resp|i resp]; cbn.
  - destruct (aer_success resp); cbn.
    + destruct (index_add prev len) as [nm|]; cbn; [|done].
      destruct (index_add nm 1) as [nn|] eqn:Hn; cbn; [|done].
      apply newtype_add_Ok in Hn as [-> _]. destruct (_ <? nm); intros [= <- _]; [|done].
      apply (next_positive_insert l p (nm + 1)); [done|lia].
    + assert (1 ≤ next_index_of l p) as Hpos.
      { unfold next_index_of. destruct (ld_next_index l !! p) eqn:Hp; cbn; [by eapply Hl|lia]. }
      destruct (0 <? aer_last_log_index resp).
      * destruct (index_add _ 1) as [k|] eqn:Hk; cbn; [|done].
        apply newtype_add_Ok in Hk as [-> _]. intros [= <- _].
        apply next_positive_insert; [done|lia].
      * destruct (index_sub _ 1) as [k|]; cbn; [|done]. intros [= <- _].
        apply next_positive_insert; [done|lia].
  - destruct (index_add i 1) as [k|] eqn:Hk; cbn; [|done].
    apply newtype_add_Ok in Hk as [-> _]. intros [= <- _].
    apply (next_positive_insert l p (i + 1)); [done|lia].
Qed.

(** The books of a leader stay usable.  A new leader's next indices are
    at least 1, every response keeps them so, and a leader whose books are
    so never fails to build the next request: the subtraction that finds the
    anchor cannot underflow. *)
Theorem next_indices_usable {S G} `{LogStorage S} (n : LogicalNode S G) m p params r n' :
  ln_state n = RS_Leader m → next_positive (rn_state m) →
  determine_replication_strategy p params n = (Ok r, n') →
  is_ok r = true ∧
  (∀ o l' b, record_outcome p o (rn_state m) = Ok (l', b) → next_positive l') ∧
  (∀ peers last tick l0, Leader_new peers last tick = Ok l0 → next_positive l0).
Proof.
  intros Hst Hl Hrun. split_and!.
  2: { intros o l' b. by apply record_outcome_positive. }
  2: { intros peers last tick l0. apply Leader_new_positive. }
  revert Hrun. apply (wp_run _ (λ r _, is_ok r = true) (λ _ _, True) _ (Ok r)).
  unfold determine_replication_strategy. wp_step. apply wp_get. rewrite Hst. wp_step.
  apply wp_read_or_fatal. intros last_included _ _. destruct (_ <=? last_included).
  { wp_step. apply wp_read_or_fatal. intros. by apply wp_ret. }
  unfold build_append_entries_request. wp_steps. rewrite Hst.
  apply wp_read_or_fatal. intros last_log _ _. unfold index_sub, checked_sub.
  assert (1 ≤ next_index_of (rn_state m) p) as Hpos.
  { unfold next_index_of. destruct (ld_next_index (rn_state m) !! p) eqn:Hp; cbn; [by eapply Hl|lia]. }
  destruct (N.leb_spec 1 (next_index_of (rn_state m) p)); [|lia]. cbn [ok_or].
  wp_step. apply wp_read_or_fatal. intros. wp_step. apply wp_read_or_fatal. intros. by wp_steps.
Qed.

(** ** Linearizable reads: the epoch *)

Lemma ack_fold quorum ps l :
  let l' := foldl (λ l p, acknowledge_heartbeat p quorum l) l ps in
  ld_heartbeat_acks l' = list_to_set ps ∪ ld_heartbeat_acks l ∧
  ld_current_read_epoch l' = ld_current_read_epoch l ∧
  (ld_confirmed_read_epoch l' = ld_current_read_epoch l ↔
   ld_confirmed_read_epoch l = ld_current_read_epoch l ∨
   ps ≠ [] ∧ quorum ≤ N.of_nat (size (list_to_set ps ∪ ld_heartbeat_acks l : gset N))).
Proof.
  revert l. induction ps as [|p ps IH]; intros l; cbn zeta.
  { cbn. split; [set_solver|]. split; [done|]. split; [by left|]. intros [?|[? _]]; done. }
  cbn [foldl]. specialize (IH (acknowledge_heartbeat p quorum l)). cbn zeta in IH.
  set (l' := foldl _ _ _) in *. destruct IH as (Hacks & Hcur & Hconf).
  cbn [acknowledge_heartbeat ld_heartbeat_acks ld_current_read_epoch ld_confirmed_read_epoch] in *.
  assert (list_to_set ps ∪ ({[p]} ∪ ld_heartbeat_acks l)
    = list_to_set (p :: ps) ∪ ld_heartbeat_acks l) as Heq by set_solver.
  rewrite Heq in *. split_and!; [done..|]. rewrite Hconf.
  assert (N.of_nat (size ({[p]} ∪ ld_heartbeat_acks l))
    ≤ N.of_nat (size (list_to_set (p :: ps) ∪ ld_heartbeat_acks l : gset N))) as Hsub.
  { enough (size ({[p]} ∪ ld_heartbeat_acks l)
      ≤ size (list_to_set (p :: ps) ∪ ld_heartbeat_acks l : gset N))%nat by lia.
    apply subseteq_size. set_solver. }
  destruct (N.leb_spec quorum (N.of_nat (size ({[p]} ∪ ld_heartbeat_acks l)))) as [Hq|Hq].
  - split; [|by left]. intros _. right. split; [done|lia].
  - split; intros [Hl|[Hne Hr]]; [by left|right; split; [done|lia]|by left|].
    right. split; [|done]. intros ->. cbn in Hr.
    rewrite (right_id_L ∅ (∪)) in Hr. lia.
Qed.

(** C37: a linearizable read waits for a quorum.  A probe prepared when no
    other is pending opens a fresh epoch, and after any sequence of
    acknowledgements that epoch is confirmed exactly when the leader and the
    peers that acknowledged make a quorum; repeated acknowledgements of a
    peer count once. *)
Theorem read_epoch_needs_quorum self quorum ps l epoch l1 :
  U64 (ld_current_read_epoch l) → ld_confirmed_read_epoch l = ld_current_read_epoch l →
  prepare_read_probe self l = (epoch, l1) → ps ≠ [] →
  epoch ≠ ld_confirmed_read_epoch l ∧
  (ld_confirmed_read_epoch (foldl (λ l p, acknowledge_heartbeat p quorum l) l1 ps) = epoch ↔
   quorum ≤ N.of_nat (size (list_to_set ps ∪ {[self]} : gset N))).
Proof.
  intros Hu Heq Hprep Hne. unfold prepare_read_probe in Hprep. rewrite Heq, N.eqb_refl in Hprep.
  injection Hprep as <- <-. cbn [ld_current_read_epoch].
  assert (wrapping_add (ld_current_read_epoch l) 1 ≠ ld_current_read_epoch l) as Hfresh.
  { unfold wrapping_add, U64, u64_modulus in *.
    destruct (N.eq_dec (ld_current_read_epoch l + 1) (2 ^ 64)) as [Hmax|].
    - rewrite Hmax, N.Div0.mod_same. lia.
    - rewrite N.mod_small by lia. lia. }
  split; [by rewrite Heq|].
  destruct (ack_fold quorum ps (mkLeader (ld_next_index l) (ld_match_index l) (ld_last_heartbeat l)
    (wrapping_add (ld_current_read_epoch l) 1) (ld_current_read_epoch l) {[self]})) as (_ & _ & Hc).
  cbn [ld_current_read_epoch ld_confirmed_read_epoch ld_heartbeat_acks] in Hc.
  rewrite Hc. split; [|by right]. intros [?|[_ ?]]; [congruence|done].
Qed.

(** ** Start-up *)

Lemma try_new_view {S G} `{LogStorageLaws S} `{RngLaws G} identity applied th (rng : G) s v r :
  repr s v → min_election th ≤ max_election th →
  LogicalNode_try_new identity (Ok applied) th rng s = r →
  (∀ n, r = Ok n → applied ≤ lv_committed v ∧
     ∃ m, ln_state n = RS_Follower m ∧ rn_last_committed m = lv_committed v ∧
       rn_last_applied m = applied ∧ rn_identity m = identity ∧
       min_election th ≤ fo_timeout (rn_state m) ≤ max_election th) ∧
  (∀ msg, r = Err (Protocol msg) → lv_committed v < applied).
Proof.
  intros Hv Hth <-. unfold LogicalNode_try_new.
  pose proof (random_range_in (min_election th) (max_election th) rng Hth) as Hrange.
  unfold generate_election_timeout.
  destruct (random_range _ _ rng) as [timeout g]. cbn in Hrange.
  cbn [mbind result_bind]. unfold mbind, result_bind.
  pose proof (last_committed_law s v Hv) as Hc. unfold try_new_with_applied, mbind, st_bind, node_reads, st_reads.
  unfold node_read in *. destruct (last_committed s) as [c|e]; cbn in *.
  - subst c. destruct (N.ltb_spec (lv_committed v) applied); cbn.
    + split; [done|]. done.
    + split; [|done]. intros n [= <-]. split; [done|]. by eexists.
  - destruct Hc as [msg ->]. done.
Qed.

(** A node starts only when the state machine is not ahead of the
    committed log; it then starts as a follower with the commit index of its
    disk, and with an election timeout within the thresholds. *)
Theorem startup_causal {S G} `{LogStorageLaws S} `{RngLaws G} identity applied th (rng : G) s v r :
  repr s v → min_election th ≤ max_election th →
  LogicalNode_try_new identity (Ok applied) th rng s = r →
  (∀ n, r = Ok n → applied ≤ lv_committed v ∧
     ∃ m, ln_state n = RS_Follower m ∧ rn_last_committed m = lv_committed v ∧
       rn_last_applied m = applied ∧ rn_identity m = identity ∧
       min_election th ≤ fo_timeout (rn_state m) ≤ max_election th) ∧
  (∀ msg, r = Err (Protocol msg) → lv_committed v < applied).
Proof. apply try_new_view. Qed.

(** ** The properties at concrete nodes

    A leader of term 5 with two entries, and a fresh follower. *)

From S2P Require Import Sled SledStore Concrete StorageProps.

Definition led : DB := (SledStorage.save_hard_state 5 (Some 1) appended).2.
Definition led_view : LogView := set_hard_state 5 (Some 1) appended_view.
Definition led_books : Leader := mkLeader {[2 := 1; 3 := 3]} {[2 := 0; 3 := 2]} 0 0 0 ∅.
Definition led_node : RaftNode Leader := mkNode (mkIdentity "cluster" 1) 0 0 led_books.
Definition leading : Node :=
  mkLogicalNode led (RS_Leader led_node) 0 (calculate_thresholds RaftConfig_default) tt.

Lemma empty_well_formed : well_formed empty_view.
Proof.
  split.
  - intros i Hi. change (lv_last_index empty_view) with 0. cbn in *. rewrite lookup_empty.
    split; [by intros []|lia].
  - intros i e. cbn. by rewrite lookup_empty.
Qed.
Lemma entries_request : request_ok 0 [entry_1; entry_2].
Proof. split; [done|]. repeat constructor. Qed.
Lemma appended_well_formed : well_formed appended_view.
Proof. by apply (append_run_spec 0 [entry_1; entry_2] empty_view 0 empty_well_formed entries_request). Qed.
Lemma led_well_formed : well_formed led_view.
Proof. apply (well_formed_hard_state 5 (Some 1)), appended_well_formed. Qed.
Lemma led_repr : repr led led_view.
Proof.
  pose proof (save_hard_state_law 5 (Some 1) appended appended_view appended_repr eq_refl
    ltac:(by apply (bool_decide_unpack _))) as Hlaw.
  assert (SledStorage.save_hard_state 5 (Some 1) appended = (Ok tt, led)) as Hrun by (by vm_compute).
  by destruct (wp_run _ _ _ _ _ _ Hlaw Hrun) as [Hr _].
Qed.
Lemma fresh_held : held (ln_store (fresh 2)) empty_view empty_view.
Proof. split; [apply empty_repr|apply empty_durable]. Qed.

Definition append_op : st Node halt AppendEntriesResult :=
  handle_append_entries 1 5 0 0 [entry_1; entry_2] 1.

Lemma append_entries_accepted_witness :
  ∃ v', repr (ln_store (after append_op (fresh 2))) v' ∧ lv_term v' = 5 ∧
    lv_log v' !! 2 = Some entry_2 ∧ lv_last_index v' = 2 ∧ lv_committed v' = 1.
Proof.
  destruct (append_entries_accepted 1 5 0 0 [entry_1; entry_2] 1 (fresh 2) empty_view
    (mkAppendEntriesResult 5 true 2) (after append_op (fresh 2)))
    as (_ & _ & v' & c & m' & Hr & Ht & _ & Hl & _ & _ & _ & Hlog & _ & Hc & Hm & Hcom & Hsav);
    [apply fresh_held|apply empty_well_formed|apply entries_request|apply entries_ok|done|done
    |by vm_compute|done|].
  injection Hc as <-. exists v'. split_and!; [exact Hr|exact Ht| |by rewrite <-Hl|].
  - rewrite Hlog by done. reflexivity.
  - rewrite Hsav, Hcom, <-Hl. reflexivity.
Defined.

(** The anchor at index 7 is unknown to an empty log. *)
Definition refused_op : st Node halt AppendEntriesResult := handle_append_entries 1 5 7 4 [] 1.
Lemma append_entries_refused_witness :
  (5 < 0 ∨ consistent empty_view 7 4 = false) ∧
  ∃ v', repr (ln_store (after refused_op (fresh 2))) v' ∧ lv_log v' = ∅.
Proof.
  destruct (append_entries_refused 1 5 7 4 [] 1 (fresh 2) empty_view
    (mkAppendEntriesResult 5 false 0) (after refused_op (fresh 2)))
    as [Hwhy (v' & Hr & Hl & _)];
    [apply fresh_held|apply empty_well_formed|done|done|done|done|by vm_compute|done|].
  split; [done|]. by exists v'.
Defined.

Definition sent : AppendEntriesRequest :=
  AppendEntriesRequest_new 5 1 0 0 [entry_1; entry_2] 1.
Lemma replication_log_matching_witness :
  ∃ v', repr (ln_store (after append_op (fresh 2))) v' ∧ lv_log v' !! 2 = Some entry_2.
Proof.
  destruct (replication_log_matching 2 5 1 1 leading leading sent led_view 1 (fresh 2)
    (after append_op (fresh 2)) (mkAppendEntriesResult 5 true 2) empty_view)
    as (v' & Hr & _ & Hfull & _); [apply led_repr|apply led_well_formed|done
    |by intros m [= <-]|by vm_compute|apply empty_repr|apply empty_well_formed|done|done|done
    |by vm_compute|done| |].
  { intros i x y _. cbn. by rewrite lookup_empty. }
  exists v'. split; [done|]. by rewrite (Hfull 2).
Defined.

Definition vote_op : st Node halt RequestVoteResult := handle_request_vote 1 3 2 2.
Lemma vote_granted_durable_witness :
  ∃ v', durable (ln_store (after vote_op (fresh 2))) v' ∧ lv_term v' = 3 ∧ lv_vote v' = Some 1.
Proof.
  destruct (vote_granted_durable 1 3 2 2 (fresh 2) empty_view empty_view (mkRequestVoteResult 3 true)
    (after vote_op (fresh 2))) as (v' & _ & Hd & Ht & Hvote & _);
    [apply fresh_held|done|done|by vm_compute|done|].
  by exists v'.
Defined.

Lemma pre_vote_read_only_witness :
  outcome (handle_pre_vote 1 3 2 2) (fresh 2) = Ok (mkRequestVoteResult 0 true) ∧
  after (handle_pre_vote 1 3 2 2) (fresh 2) = fresh 2.
Proof.
  split; [by vm_compute|].
  apply (pre_vote_read_only 1 3 2 2 (fresh 2) empty_view (mkRequestVoteResult 0 true)
    (after (handle_pre_vote 1 3 2 2) (fresh 2))); [apply empty_repr|by vm_compute].
Defined.

Lemma commit_index_monotone_witness :
  let p := (update_commit_index_only 2 (led, led_node)).2 in
  rn_last_committed p.2 = 2 ∧ durable p.1 (set_committed 2 led_view).
Proof.
  set (p := (update_commit_index_only 2 (led, led_node)).2).
  destruct (commit_index_monotone 2 led led_node led_view p.1 p.2) as [Heq Hmove];
    [apply led_repr|by vm_compute|].
  change (rn_last_committed p.2 = 2) in Heq. split; [done|].
  rewrite Heq in Hmove. by apply Hmove.
Defined.

Definition committing : Node := after update_leader_last_committed leading.
Lemma leader_commits_quorum_witness :
  let m' := set_node_committed 2 led_node in
  ln_state committing = RS_Leader m' ∧ term_at led_view 2 = lv_term led_view.
Proof.
  split; [by vm_compute|].
  destruct (leader_commits_quorum leading led_view led_node committing (set_node_committed 2 led_node))
    as (_ & _ & Hmove); [apply led_repr|done|by vm_compute|by vm_compute|].
  by destruct Hmove.
Defined.

Lemma propose_appends_witness :
  outcome (eng_propose [42]) leading = Ok (Ok 3) ∧
  repr (ln_store (after (eng_propose [42]) leading))
    (set_log (<[3 := LogEntry_new 3 5 [42]]> (lv_log led_view)) led_view).
Proof.
  split; [by vm_compute|].
  apply (propose_appends [42] leading led_view led_node 3 (after (eng_propose [42]) leading));
    [apply led_repr|done|by repeat constructor|by vm_compute].
Defined.

Definition halted : Node := set_state RS_Poisoned (fresh 2).
Lemma poisoned_absorbing_witness :
  halted_at MemSled.empty (run_command (CTick 10 false) halted).2.
Proof. by apply (poisoned_absorbing halted (CTick 10 false) 1 1 0 0 [] 1 (Ok (RequestVoteResponse_new 1 true)) 1). Defined.

Lemma next_indices_usable_witness :
  next_positive (set_next_index {[2 := 1; 3 := 2]} led_books).
Proof.
  destruct (next_indices_usable leading led_node 3 (mkRoundParams 5 1 0)
    (Ok (Some (RS_AppendEntries (AppendEntriesRequest_new 5 1 2 5 [] 0)))) leading)
    as (_ & Hrec & _); [done| |by vm_compute|].
  - intros p i. cbn. rewrite lookup_insert_Some, lookup_singleton_Some. lia.
  - apply (Hrec (RO_AppendEntries 2 0 (AppendEntriesResponse_new 5 false 1)) _ false). by vm_compute.
Defined.

Lemma read_epoch_needs_quorum_witness :
  ld_confirmed_read_epoch
    (foldl (λ l p, acknowledge_heartbeat p 2 l) (prepare_read_probe 1 led_books).2 [3; 3]) = 1.
Proof.
  apply (read_epoch_needs_quorum 1 2 [3; 3] led_books 1 (prepare_read_probe 1 led_books).2);
    [done|done|done|done|]. by apply (bool_decide_unpack _).
Defined.

Lemma startup_causal_witness :
  ∃ m, ln_state (fresh 2) = RS_Follower m ∧ rn_last_committed m = 0.
Proof.
  destruct (startup_causal (mkIdentity "cluster" 2) 0 (calculate_thresholds RaftConfig_default) tt
    MemSled.empty empty_view (Ok (fresh 2))) as [Hok _]; [apply empty_repr|done|by vm_compute|].
  destruct (Hok (fresh 2) eq_refl) as (_ & m & Hst & Hc & _). by exists m.
Defined.
