(* ===== verification/Raft.v ===== *)
(** The abstract replication protocol: terms, votes, logs and commit indices
    of a cluster without snapshots, as labelled steps of one node and a global
    state with the ghost history that safety needs.  Its invariant gives Log
    Matching, Leader Completeness and State Machine Safety.  The engine is
    shown to refine it in RaftSpec.v. *)
From S2P Require Import Prelude Machine Types Wire Storage VoteSpec Election.

(** ** One node *)

Inductive RRole : Type :=
| RDown                            (** poisoned: only the disk counts *)
| RIdle
| RCampaign (votes : gset N)
| RLeading (matched : gmap N N).

(** The hard state, the log and the commit index, on disk as in memory. *)
Record ANode : Type := mkA {
  an_hs : hard;
  an_log : list LogEntry;
  an_commit : nat;
  an_role : RRole;
}.
Definition an_term (a : ANode) : Term := (an_hs a).1.

Definition last_term (l : list LogEntry) : Term := from_option le_term 0 (list.last l).

(** The comparison of a vote request with the voter's log. *)
Definition up_to_date (l : list LogEntry) (n : nat) (t : Term) : Prop :=
  last_term l < t ∨ last_term l = t ∧ (length l ≤ n)%nat.

(** The log after a request with the leader's log [c] has been accepted. *)
Definition merge (l c : list LogEntry) : list LogEntry :=
  if decide (c `prefix_of` l) then l else c.

(** What an interrupted acceptance may leave: all of [l] that does not
    conflict with [c]. *)
Definition retains (l c l' : list LogEntry) : Prop :=
  (l' `prefix_of` l ∨ l' = merge l c) ∧
  ∀ x, x `prefix_of` l → x `prefix_of` c ∨ c `prefix_of` x → x `prefix_of` l'.

(** A request of a leader: the term it claims, the term in which its sender
    led when it read its log, that log, and the commit index it carries. *)
Record Msg : Type := mkMsg {
  m_from : NodeId;
  m_term : Term;
  m_lead_term : Term;
  m_log : list LogEntry;
  m_commit : nat;
}.

Inductive nlabel : Type :=
| NTau
| NCampaign
| NVote (c : NodeId) (t : Term) (n : nat) (lt : Term)  (** to the claim of [c] *)
| NCount (q : NodeId)
| NElect
| NAppend (e : LogEntry)
| NAccept (m : Msg) (ok : bool)
| NMatch (q : NodeId) (i : N)
| NCommit (n : nat).

Section node.
Context (quorum : N) (id : NodeId).

(** [Q] has the entries up to [n], as far as the leader knows. *)
Definition quorum_matched (matched : gmap N N) (n : nat) : Prop :=
  ∃ Q : gset N, quorum ≤ N.of_nat (size Q) ∧
    ∀ q, q ∈ Q → q = id ∨ ∃ i, matched !! q = Some i ∧ (n ≤ N.to_nat i)%nat.

Inductive nstep : nlabel → ANode → ANode → Prop :=
(** Demotion, a halt, a restart: the role ends. *)
| N_idle h l c r h' r' :
    hs_le h h' → r' = RIdle ∨ r' = RDown →
    nstep NTau (mkA h l c r) (mkA h' l c r')
| N_campaign t o l c r :
    nstep NCampaign (mkA (t, o) l c r) (mkA (t + 1, Some id) l c (RCampaign {[id]}))
| N_vote h l c t cand n lt :
    hs_le h (t, Some cand) → up_to_date l n lt →
    nstep (NVote cand t n lt) (mkA h l c RIdle) (mkA (t, Some cand) l c RIdle)
| N_count h l c votes q :
    nstep (NCount q) (mkA h l c (RCampaign votes)) (mkA h l c (RCampaign ({[q]} ∪ votes)))
| N_elect h l c votes matched :
    quorum ≤ N.of_nat (size votes) → (∀ q i, matched !! q = Some i → i = 0) →
    nstep NElect (mkA h l c (RCampaign votes)) (mkA h l c (RLeading matched))
| N_append h l c matched e :
    le_term e = h.1 →
    nstep (NAppend e) (mkA h l c (RLeading matched)) (mkA h (l ++ [e]) c (RLeading matched))
| N_accept h l c m (ok : bool) l' c' r' :
    h.1 = m_term m → retains l (m_log m) l' →
    (c' = c ∨ l' = merge l (m_log m) ∧ (c' ≤ m_commit m)%nat) →
    (if ok then l' = merge l (m_log m) ∧ r' = RIdle else r' = RDown) →
    nstep (NAccept m ok) (mkA h l c RIdle) (mkA h l' c' r')
| N_match h l c matched q i :
    nstep (NMatch q i) (mkA h l c (RLeading matched)) (mkA h l c (RLeading (<[q := i]> matched)))
| N_commit h l c matched n :
    (c < n)%nat → le_term <$> l !! pred n = Some h.1 → quorum_matched matched n →
    nstep (NCommit n) (mkA h l c (RLeading matched)) (mkA h l n (RLeading matched)).

Inductive nsteps : list nlabel → ANode → ANode → Prop :=
| nsteps_nil a : nsteps [] a a
| nsteps_cons x l a a' a'' : nstep x a a' → nsteps l a' a'' → nsteps (x :: l) a a''.

Lemma nsteps_app l l' a a' a'' : nsteps l a a' → nsteps l' a' a'' → nsteps (l ++ l') a a''.
Proof. induction 1; [done|]. intros. econstructor; eauto. Qed.
Lemma nsteps_one x a a' : nstep x a a' → nsteps [x] a a'.
Proof. intros. econstructor; [done|constructor]. Qed.

(** A node's hard state only moves forward. *)
Lemma nstep_hs x a a' : nstep x a a' → hs_le (an_hs a) (an_hs a').
Proof. destruct 1; cbn; try done. left. cbn. lia. Qed.
End node.

(** ** The cluster and its history *)

(** What is remembered of the leader of a term: who it is, the length of the
    log it was elected with, its log as it is by now, and the voters counted. *)
Record Leadership : Type := mkLead {
  ls_owner : NodeId;
  ls_base : nat;
  ls_log : list LogEntry;
  ls_voters : gset N;
}.

Record RState : Type := mkR {
  r_nodes : gmap N ANode;
  r_votes : gset (N * N * N);        (** voter, term, candidate *)
  r_acks : gset (N * N * nat);       (** who, in which term, up to where *)
  r_lead : gmap N Leadership;
  r_claims : list (N * N * nat * N); (** candidate, term, end of its log *)
  r_rounds : list (N * N * nat);     (** sender, term, commit index *)
  r_msgs : list Msg;
}.

Section protocol.
Context (members : gset N).
Abbreviation quorum := (quorum members).
Implicit Types (R : RState) (a : ANode) (L : Leadership).

Definition is_quorum (Q : gset N) : Prop := Q ⊆ members ∧ quorum ≤ N.of_nat (size Q).

(** *** Steps *)

(** What a label needs from the history, *)
Definition label_ok R (id : NodeId) a (x : nlabel) : Prop :=
  match x with
  | NVote c t n lt => (t, c, n, lt) ∈ r_claims R
  | NCount q => q ∈ members ∧ (q, an_term a, id) ∈ r_votes R
  | NAccept m _ => m ∈ r_msgs R
  | NMatch q i => (q, an_term a, N.to_nat i) ∈ r_acks R
  | _ => True
  end.

(** and what it adds to it; [a] is the node before the step, [a'] after. *)
Definition add_votes (id : NodeId) a' (x : nlabel) : gset (N * N * N) :=
  match x with
  | NCampaign => {[(id, an_term a', id)]}
  | NVote c t _ _ => {[(id, t, c)]}
  | _ => ∅
  end.
Definition add_acks (id : NodeId) a' (x : nlabel) : gset (N * N * nat) :=
  match x with
  | NAppend _ => {[(id, an_term a', length (an_log a'))]}
  | NAccept m true =>
      if m_term m =? m_lead_term m then {[(id, m_term m, length (m_log m))]} else ∅
  | _ => ∅
  end.
Definition add_lead (id : NodeId) a a' (x : nlabel) (M : gmap N Leadership) : gmap N Leadership :=
  match x with
  | NElect =>
      <[an_term a' := mkLead id (length (an_log a')) (an_log a')
          (match an_role a with RCampaign votes => votes | _ => ∅ end)]> M
  | NAppend _ =>
      alter (λ L, mkLead (ls_owner L) (ls_base L) (an_log a') (ls_voters L)) (an_term a') M
  | _ => M
  end.
Definition apply_label R id a a' x : RState :=
  mkR (<[id := a']> (r_nodes R)) (add_votes id a' x ∪ r_votes R) (add_acks id a' x ∪ r_acks R)
    (add_lead id a a' x (r_lead R)) (r_claims R) (r_rounds R) (r_msgs R).

Inductive rstep R : RState → Prop :=
| R_node id a a' x :
    id ∈ members → r_nodes R !! id = Some a → label_ok R id a x → nstep quorum id x a a' →
    rstep R (apply_label R id a a' x)
(** A node reads its term and the end of its log to ask for votes, *)
| R_claim id a :
    r_nodes R !! id = Some a →
    rstep R (mkR (r_nodes R) (r_votes R) (r_acks R) (r_lead R)
      ((an_term a, id, length (an_log a), last_term (an_log a)) :: r_claims R) (r_rounds R) (r_msgs R))
(** its term and commit index to start a round, *)
| R_round id a :
    r_nodes R !! id = Some a →
    rstep R (mkR (r_nodes R) (r_votes R) (r_acks R) (r_lead R) (r_claims R)
      ((id, an_term a, an_commit a) :: r_rounds R) (r_msgs R))
(** and, leading, its log, for a round that may be of an earlier term. *)
| R_send id a matched t c :
    r_nodes R !! id = Some a → an_role a = RLeading matched → (id, t, c) ∈ r_rounds R →
    rstep R (mkR (r_nodes R) (r_votes R) (r_acks R) (r_lead R) (r_claims R) (r_rounds R)
      (mkMsg id t (an_term a) (an_log a) c :: r_msgs R)).

Record r_initial R : Prop := {
  ini_members id a : r_nodes R !! id = Some a → id ∈ members;
  ini_idle id a : r_nodes R !! id = Some a → an_role a = RIdle ∧ an_log a = [] ∧ an_commit a = O;
  ini_votes : r_votes R = ∅;
  ini_acks : r_acks R = ∅;
  ini_lead : r_lead R = ∅;
  ini_claims : r_claims R = [];
  ini_rounds : r_rounds R = [];
  ini_msgs : r_msgs R = [];
}.

(** *** What the history says *)

(** Every entry was created by the leader of its term, above that leader's
    first log, and brings along all that was below it. *)
Definition good R (l : list LogEntry) : Prop :=
  ∀ k e, l !! k = Some e →
    ∃ L, r_lead R !! le_term e = Some L ∧ (ls_base L ≤ k)%nat ∧ take (S k) l `prefix_of` ls_log L.

Definition acked R (q : NodeId) (t : Term) (i : nat) : Prop :=
  ∃ m, (i ≤ m)%nat ∧ (q, t, m) ∈ r_acks R.

(** The entry [i] of term [t] can no longer be committed: every quorum has a
    member that has left the term without acknowledging it. *)
Definition dead R (t : Term) (i : nat) : Prop :=
  ∀ Q, is_quorum Q → ∃ q a, q ∈ Q ∧ r_nodes R !! q = Some a ∧ t < an_term a ∧ ¬ acked R q t i.

(** [l] is below an entry that a quorum has acknowledged in a term up to [t]. *)
Definition safe R (l : list LogEntry) (t : Term) : Prop :=
  l = [] ∨ ∃ T L n Q, r_lead R !! T = Some L ∧ T ≤ t ∧ (ls_base L < n ≤ length (ls_log L))%nat ∧
    is_quorum Q ∧ (∀ q, q ∈ Q → acked R q T n) ∧ l `prefix_of` take n (ls_log L).

(** The entry [i] of term [t] is in the log [l], or dead. *)
Definition kept R (l : list LogEntry) (t : Term) (i : nat) : Prop :=
  ∀ L, r_lead R !! t = Some L → (ls_base L < i)%nat →
    take i (ls_log L) `prefix_of` l ∨ dead R t i.

Definition campaigning a : Prop := ∃ votes, an_role a = RCampaign votes.

(** *** The invariant *)

(** What a voter of a candidate had acknowledged, the candidate holds; and
    no voter has elected the leader of a term after the candidate's. *)
Definition voter_ok R a (x : NodeId) : Prop :=
  (∀ t m i, (x, t, m) ∈ r_acks R → t < an_term a → (i ≤ m)%nat → kept R (an_log a) t i) ∧
  (∀ e L, e ∈ an_log a → an_term a < le_term e → r_lead R !! le_term e = Some L → x ∉ ls_voters L).

Record node_ok R (p : NodeId) a : Prop := {
  no_member : p ∈ members;
  no_good : good R (an_log a);
  no_commit : (an_commit a ≤ length (an_log a))%nat ∧ safe R (take (an_commit a) (an_log a)) (an_term a);
  no_votes V : an_role a = RCampaign V →
    0 < an_term a ∧ V ⊆ members ∧ ∀ q, q ∈ V → (q, an_term a, p) ∈ r_votes R;
  no_voter x : campaigning a → (x, an_term a, p) ∈ r_votes R → voter_ok R a x;
  no_leading mt : an_role a = RLeading mt →
    ∃ L, r_lead R !! an_term a = Some L ∧ ls_owner L = p ∧ ls_log L = an_log a ∧
      (∀ q i, mt !! q = Some i → i = 0 ∨ (q, an_term a, N.to_nat i) ∈ r_acks R) ∧
      ((ls_base L < length (ls_log L))%nat → (p, an_term a, length (ls_log L)) ∈ r_acks R);
}.

Record lead_ok R (T : Term) L : Prop := {
  lo_pos : 0 < T;
  lo_base : (ls_base L ≤ length (ls_log L))%nat;
  lo_good : good R (ls_log L);
  lo_terms k e : ls_log L !! k = Some e → if decide (k < ls_base L)%nat then le_term e < T else le_term e = T;
  lo_sorted j k x y : (j ≤ k)%nat → ls_log L !! j = Some x → ls_log L !! k = Some y → le_term x ≤ le_term y;
  lo_quorum : is_quorum (ls_voters L);
  lo_voted q : q ∈ ls_voters L → (q, T, ls_owner L) ∈ r_votes R;
  lo_owner : ∃ a, r_nodes R !! ls_owner L = Some a ∧ T ≤ an_term a ∧ (an_term a = T → ¬ campaigning a);
}.

Record ballot_ok R (x t c : N) : Prop := {
  vo_reflected : ∃ a, r_nodes R !! x = Some a ∧ reflects t c (an_hs a);
  vo_candidate : ∃ a, r_nodes R !! c = Some a ∧ t ≤ an_term a;
}.

Definition ack_ok R (x t : N) (m : nat) : Prop :=
  x ∈ members ∧
  ∃ L a, r_lead R !! t = Some L ∧ (m ≤ length (ls_log L))%nat ∧ r_nodes R !! x = Some a ∧
    t ≤ an_term a ∧ ∀ i, (i ≤ m)%nat → kept R (an_log a) t i.

Definition claim_ok R (t c : N) (n : nat) (lt : Term) : Prop :=
  ∃ a, r_nodes R !! c = Some a ∧ t ≤ an_term a ∧
    (campaigning a → an_term a = t → n = length (an_log a) ∧ lt = last_term (an_log a)).

Definition round_ok R (p t : N) (c : nat) : Prop :=
  (∃ a, r_nodes R !! p = Some a ∧ t ≤ an_term a) ∧ ∃ l, length l = c ∧ safe R l t.

Definition msg_ok R (m : Msg) : Prop :=
  ∃ L, r_lead R !! m_lead_term m = Some L ∧ ls_owner L = m_from m ∧ m_log m `prefix_of` ls_log L ∧
    m_term m ≤ m_lead_term m ∧ (m_commit m ≤ length (m_log m))%nat ∧
    safe R (take (m_commit m) (m_log m)) (m_term m).

Record rinv R : Prop := {
  ri_node p a : r_nodes R !! p = Some a → node_ok R p a;
  ri_lead T L : r_lead R !! T = Some L → lead_ok R T L;
  (** An entry that may still be committed is in the logs of all later
      leaders. *)
  ri_elected T T' L L' i : r_lead R !! T = Some L → r_lead R !! T' = Some L' → T < T' →
    (i ≤ length (ls_log L))%nat → kept R (ls_log L') T i;
  ri_vote x t c : (x, t, c) ∈ r_votes R → ballot_ok R x t c;
  ri_unique x t c c' : (x, t, c) ∈ r_votes R → (x, t, c') ∈ r_votes R → c = c';
  ri_ack x t m : (x, t, m) ∈ r_acks R → ack_ok R x t m;
  ri_claim t c n lt : (t, c, n, lt) ∈ r_claims R → claim_ok R t c n lt;
  ri_round p t c : (p, t, c) ∈ r_rounds R → round_ok R p t c;
  ri_msg m : m ∈ r_msgs R → msg_ok R m;
}.

(** *** Prefixes *)

Lemma prefix_cases (l1 l2 l : list LogEntry) :
  l1 `prefix_of` l → l2 `prefix_of` l → l1 `prefix_of` l2 ∨ l2 `prefix_of` l1.
Proof. apply prefix_weak_total. Qed.
Lemma prefix_take_eq (l1 l : list LogEntry) : l1 `prefix_of` l → l1 = take (length l1) l.
Proof. intros [k ->]. by rewrite take_app_length. Qed.
Lemma prefix_same_length (l1 l2 l : list LogEntry) :
  l1 `prefix_of` l → l2 `prefix_of` l → length l1 = length l2 → l1 = l2.
Proof. intros H1%prefix_take_eq H2%prefix_take_eq Hlen. congruence. Qed.
Lemma take_prefix n (l : list LogEntry) : take n l `prefix_of` l.
Proof. exists (drop n l). by rewrite take_drop. Qed.
Lemma take_prefix_mono n m (l : list LogEntry) : (n ≤ m)%nat → take n l `prefix_of` take m l.
Proof. intros Hle. rewrite <-(Nat.min_l n m Hle), <-take_take. apply take_prefix. Qed.
Lemma prefix_take_mono n (l l' : list LogEntry) :
  l `prefix_of` l' → (n ≤ length l)%nat → take n l = take n l'.
Proof. intros [k ->] Hn. by rewrite take_app_le. Qed.

Lemma prefix_by_length (l1 l2 l : list LogEntry) :
  l1 `prefix_of` l → l2 `prefix_of` l → (length l1 ≤ length l2)%nat → l1 `prefix_of` l2.
Proof.
  intros H1 H2 Hle. rewrite (prefix_take_eq l1 l), (prefix_take_eq l2 l) by done.
  by apply take_prefix_mono.
Qed.

Lemma merge_has l c : c `prefix_of` merge l c.
Proof. unfold merge. by case_decide. Qed.
Lemma merge_origin l c : merge l c = l ∨ merge l c = c.
Proof. unfold merge. case_decide; auto. Qed.
Lemma retains_merge l c : retains l c (merge l c).
Proof.
  split; [by right|]. intros x Hxl [Hxc|Hcx].
  - by etrans; [|apply merge_has].
  - unfold merge. rewrite decide_True by (by etrans). done.
Qed.
(** What is in [l] and does not conflict with [c] stays. *)
Lemma retains_keeps l c l' x y :
  retains l c l' → x `prefix_of` l → x `prefix_of` y → c `prefix_of` y → x `prefix_of` l'.
Proof. intros [_ Hr] Hxl Hxy Hcy. apply Hr; [done|]. by eapply prefix_cases. Qed.

(** *** Extensions: what one step of a node does to the history *)

Record ext (id : NodeId) a a' R R' : Prop := {
  ex_before : r_nodes R !! id = Some a;
  ex_nodes : r_nodes R' = <[id := a']> (r_nodes R);
  ex_hs : hs_le (an_hs a) (an_hs a');
  ex_votes : r_votes R ⊆ r_votes R';
  ex_acks : r_acks R ⊆ r_acks R';
  ex_new_acks x t m : (x, t, m) ∈ r_acks R' → (x, t, m) ∈ r_acks R ∨ x = id ∧ t = an_term a';
  ex_lead T L : r_lead R !! T = Some L → ∃ L', r_lead R' !! T = Some L' ∧
    ls_owner L' = ls_owner L ∧ ls_base L' = ls_base L ∧ ls_voters L' = ls_voters L ∧
    ls_log L `prefix_of` ls_log L' ∧ (ls_owner L ≠ id → L' = L);
}.

Lemma hs_le_term h h' : hs_le h h' → h.1 ≤ h'.1.
Proof. intros [?|[? _]]; lia. Qed.
Lemma reflects_term t c h : reflects t c h → t ≤ h.1.
Proof. intros [?|[? _]]; lia. Qed.

Section extension.
Context {id : NodeId} {a a' : ANode} {R R' : RState} (Hext : ext id a a' R R').

Lemma ext_node p b :
  r_nodes R !! p = Some b →
  ∃ b', r_nodes R' !! p = Some b' ∧ hs_le (an_hs b) (an_hs b') ∧ (p ≠ id → b' = b) ∧ (p = id → b' = a').
Proof.
  intros Hb. rewrite (ex_nodes _ _ _ _ _ Hext). destruct (decide (p = id)) as [->|Hne].
  - rewrite lookup_insert_eq. exists a'. rewrite (ex_before _ _ _ _ _ Hext) in Hb. injection Hb as <-.
    split_and!; [done|apply (ex_hs _ _ _ _ _ Hext)|done|done].
  - rewrite lookup_insert_ne by done. by exists b.
Qed.
Lemma ext_node_inv p b' :
  r_nodes R' !! p = Some b' → p = id ∧ b' = a' ∨ p ≠ id ∧ r_nodes R !! p = Some b'.
Proof.
  rewrite (ex_nodes _ _ _ _ _ Hext), lookup_insert_Some. intros [[<- <-]|[? ?]]; auto.
Qed.

Lemma acked_mono q t i : acked R q t i → acked R' q t i.
Proof. intros (m & ? & ?). exists m. split; [done|]. by apply (ex_acks _ _ _ _ _ Hext). Qed.
Lemma dead_mono t i : dead R t i → dead R' t i.
Proof.
  intros Hd Q HQ. destruct (Hd Q HQ) as (q & b & Hq & Hb & Ht & Hn).
  destruct (ext_node q b Hb) as (b' & Hb' & Hle%hs_le_term & _ & Hid). exists q, b'.
  unfold an_term in *. split_and!; [done|done|lia|]. intros (m & Hm & Hin).
  apply (ex_new_acks _ _ _ _ _ Hext) in Hin as [Hin|[-> ->]]; [by apply Hn; exists m|].
  rewrite Hid in Hle by done. unfold an_term in *. lia.
Qed.
Lemma lead_mono T L :
  r_lead R !! T = Some L → ∃ L', r_lead R' !! T = Some L' ∧ ls_base L' = ls_base L ∧
    ls_log L `prefix_of` ls_log L'.
Proof. intros (L' & ? & _ & ? & _ & ? & _)%(ex_lead _ _ _ _ _ Hext). by exists L'. Qed.
Lemma good_mono l : good R l → good R' l.
Proof.
  intros Hg k e He. destruct (Hg k e He) as (L & HL & Hb & Hp).
  destruct (lead_mono _ _ HL) as (L' & HL' & Hb' & Hp'). exists L'. rewrite Hb'.
  split_and!; [done..|]. by etrans.
Qed.
Lemma safe_mono l t t' : t ≤ t' → safe R l t → safe R' l t'.
Proof.
  intros Hle [->|(T & L & n & Q & HL & HT & Hn & HQ & Hack & Hl)]; [by left|right].
  destruct (lead_mono _ _ HL) as (L' & HL' & Hb' & Hp'). exists T, L', n, Q.
  apply prefix_length in Hp' as Hlen. rewrite Hb'. split_and!; [done|lia|lia|lia|done| |].
  - intros q Hq. by apply acked_mono, Hack.
  - by rewrite <-(prefix_take_mono n (ls_log L)) by (done || lia).
Qed.
Lemma kept_mono l t i L :
  r_lead R !! t = Some L → (i ≤ length (ls_log L))%nat → kept R l t i → kept R' l t i.
Proof.
  intros HL Hi Hk L1 HL1 Hb. destruct (lead_mono _ _ HL) as (L' & HL' & Hb' & Hp').
  rewrite HL' in HL1. injection HL1 as <-. rewrite <-(prefix_take_mono i (ls_log L)) by done.
  destruct (Hk L HL ltac:(lia)) as [?|?]; [by left|right; by apply dead_mono].
Qed.

Lemma ballot_ok_mono x t c : ballot_ok R x t c → ballot_ok R' x t c.
Proof.
  intros [(b & Hb & Hr) (d & Hd & Ht)]. split.
  - destruct (ext_node _ _ Hb) as (b' & ? & ? & _). exists b'. split; [done|]. by eapply reflects_le.
  - destruct (ext_node _ _ Hd) as (d' & ? & Hle%hs_le_term & _). exists d'. unfold an_term in *.
    split; [done|lia].
Qed.

Hypothesis Hinv : rinv R.

(** A candidate and its voters, when neither has moved. *)
Lemma voter_ok_mono p b x :
  r_nodes R !! p = Some b → campaigning b → (x, an_term b, p) ∈ r_votes R →
  voter_ok R b x → voter_ok R' b x.
Proof.
  intros Hb Hc Hvote [Hv Hf]. split.
  - intros t m i Hin Ht Hi. apply (ex_new_acks _ _ _ _ _ Hext) in Hin as [Hin|[-> ->]].
    + destruct (ri_ack _ Hinv _ _ _ Hin) as (_ & L & _ & HL & Hm & _).
      eapply kept_mono; [done|lia|by eapply Hv].
    + destruct (ri_vote _ Hinv _ _ _ Hvote) as [(d & Hd & Hr%reflects_term) _].
      rewrite (ex_before _ _ _ _ _ Hext) in Hd. injection Hd as <-.
      pose proof (hs_le_term _ _ (ex_hs _ _ _ _ _ Hext)). unfold an_term in *. lia.
  - intros e L' He Ht HL' Hin.
    apply list_elem_of_lookup in He as [k Hk].
    destruct (no_good _ _ _ (ri_node _ Hinv _ _ Hb) k e Hk) as (L & HL & _).
    destruct (ex_lead _ _ _ _ _ Hext _ _ HL) as (L1 & HL1 & _ & _ & Hvs & _).
    rewrite HL' in HL1. injection HL1 as <-. rewrite Hvs in Hin.
    eapply Hf; [by eapply list_elem_of_lookup_2|done|done|done].
Qed.

Lemma node_ok_mono p b :
  r_nodes R !! p = Some b →
  (∀ mt, an_role b = RLeading mt → r_lead R' !! an_term b = r_lead R !! an_term b) →
  (∀ x, campaigning b → (x, an_term b, p) ∈ r_votes R' →
     (x, an_term b, p) ∈ r_votes R ∨ voter_ok R' b x) →
  node_ok R' p b.
Proof.
  intros Hb Hlead Hnew. destruct (ri_node _ Hinv _ _ Hb) as [Hmem Hg [Hc Hs] Hvs Hvok Hl]. split.
  - done.
  - by apply good_mono.
  - split; [done|]. by eapply safe_mono.
  - intros V HV. destruct (Hvs V HV) as (? & ? & Hq). split_and!; [done..|].
    intros q ?. by apply (ex_votes _ _ _ _ _ Hext), Hq.
  - intros x Hcamp Hvote. destruct (Hnew x Hcamp Hvote) as [Hold|]; [|done].
    by eapply voter_ok_mono, Hvok.
  - intros mt Hmt. rewrite (Hlead mt Hmt). destruct (Hl mt Hmt) as (L & ? & ? & ? & Ha & Hs').
    exists L. split_and!; [done..| |].
    + intros q i Hqi. destruct (Ha q i Hqi); [by left|right].
      by apply (ex_acks _ _ _ _ _ Hext).
    + intros Hlt. by apply (ex_acks _ _ _ _ _ Hext), Hs'.
Qed.

Lemma lead_ok_mono T L :
  lead_ok R T L → (an_term a' = an_term a → campaigning a' → campaigning a) → lead_ok R' T L.
Proof.
  intros [Hp Hb Hg Ht Hs Hq Hv (b & Hob & Hle & Hc)] Hcamp. split; try done.
  - by apply good_mono.
  - intros q ?. by apply (ex_votes _ _ _ _ _ Hext), Hv.
  - destruct (ext_node _ _ Hob) as (b' & Hb' & Hterm%hs_le_term & Hother & Hid). exists b'.
    unfold an_term in *. split_and!; [done|lia|]. intros HT.
    destruct (decide (ls_owner L = id)) as [Ho|Hne]; [|rewrite Hother in * by done; auto].
    rewrite Ho in *. rewrite Hid in * by done.
    rewrite (ex_before _ _ _ _ _ Hext) in Hob. injection Hob as <-.
    intros Hca'. apply Hc; [lia|]. apply Hcamp; [lia|done].
Qed.

(** A step keeps the invariant when what is new about it is right. *)
Lemma rinv_ext :
  node_ok R' id a' →
  (∀ t m i, (id, t, m) ∈ r_acks R → (i ≤ m)%nat → kept R (an_log a') t i) →
  (an_term a' = an_term a → campaigning a' → campaigning a ∧ an_log a' = an_log a) →
  (∀ p b mt, p ≠ id → r_nodes R !! p = Some b → an_role b = RLeading mt →
     r_lead R' !! an_term b = r_lead R !! an_term b) →
  (∀ p b x, p ≠ id → r_nodes R !! p = Some b → campaigning b → (x, an_term b, p) ∈ r_votes R' →
     (x, an_term b, p) ∈ r_votes R ∨ voter_ok R' b x) →
  (∀ T L', r_lead R' !! T = Some L' → r_lead R !! T = Some L' ∨ lead_ok R' T L') →
  (∀ T T' L L' i, r_lead R' !! T = Some L → r_lead R' !! T' = Some L' → T < T' →
     (i ≤ length (ls_log L))%nat →
     (∃ L0, r_lead R !! T = Some L0 ∧ (i ≤ length (ls_log L0))%nat ∧ is_Some (r_lead R !! T')) ∨
     kept R' (ls_log L') T i) →
  (∀ x t c, (x, t, c) ∈ r_votes R' → (x, t, c) ∈ r_votes R ∨
     ballot_ok R' x t c ∧ ∀ c', (x, t, c') ∈ r_votes R' → c' = c) →
  (∀ x t m, (x, t, m) ∈ r_acks R' → (x, t, m) ∈ r_acks R ∨ ack_ok R' x t m) →
  (∀ t c n lt, (t, c, n, lt) ∈ r_claims R' → (t, c, n, lt) ∈ r_claims R ∨ claim_ok R' t c n lt) →
  (∀ p t c, (p, t, c) ∈ r_rounds R' → (p, t, c) ∈ r_rounds R ∨ round_ok R' p t c) →
  (∀ m, m ∈ r_msgs R' → m ∈ r_msgs R ∨ msg_ok R' m) →
  rinv R'.
Proof.
  intros Hid Hkeep Hcamp Hothers Hvoters Hleads Helect Hvotes Hacks Hclaims Hrounds Hmsgs. split.
  - intros p b Hb. destruct (ext_node_inv p b Hb) as [[-> ->]|[Hne Hb0]]; [done|].
    apply node_ok_mono; [done|by intros; eapply Hothers|by intros; eapply Hvoters].
  - intros T L HL. destruct (Hleads T L HL) as [HL0|]; [|done].
    apply lead_ok_mono; [by apply (ri_lead _ Hinv)|]. by intros ? ?; eapply Hcamp.
  - intros T T' L L' i HL HL' HT Hi.
    destruct (Helect T T' L L' i) as [(L0 & HL0 & Hi0 & [L0' HL0'])|]; [done..| |done].
    pose proof (ri_elected _ Hinv _ _ _ _ _ HL0 HL0' HT Hi0) as Hk.
    apply (kept_mono _ _ _ _ HL0 Hi0) in Hk.
    destruct (lead_mono _ _ HL0') as (L1 & HL1 & _ & Hp). rewrite HL' in HL1. injection HL1 as <-.
    intros L2 HL2 Hb. destruct (Hk L2 HL2 Hb); [left; by etrans|by right].
  - intros x t c Hin. destruct (Hvotes x t c Hin) as [Hin0|[? _]]; [|done].
    by apply ballot_ok_mono, (ri_vote _ Hinv).
  - intros x t c c' H1 H2.
    destruct (Hvotes x t c H1) as [H1'|[_ Hu]]; [|symmetry; by apply Hu].
    destruct (Hvotes x t c' H2) as [H2'|[_ Hu]]; [|by apply Hu]. by eapply (ri_unique _ Hinv).
  - intros x t m Hin. destruct (Hacks x t m Hin) as [Hin0|]; [|done].
    destruct (ri_ack _ Hinv _ _ _ Hin0) as (Hx & L & b & HL & Hm & Hb & Ht & Hk).
    destruct (lead_mono _ _ HL) as (L' & HL' & _ & Hp%prefix_length).
    destruct (ext_node _ _ Hb) as (b' & Hb' & Hle%hs_le_term & Hother & Hsame).
    split; [done|]. exists L', b'. unfold an_term in *. split_and!; [done|lia|done|lia|].
    intros i Hi. eapply kept_mono; [done|lia|].
    destruct (decide (x = id)) as [->|Hne].
    + rewrite Hsame by done. by eapply Hkeep.
    + rewrite Hother by done. by apply Hk.
  - intros t c n lt Hin. destruct (Hclaims t c n lt Hin) as [Hin0|]; [|done].
    destruct (ri_claim _ Hinv _ _ _ _ Hin0) as (b & Hb & Ht & Hc).
    destruct (ext_node _ _ Hb) as (b' & Hb' & Hle%hs_le_term & Hother & Hsame). exists b'.
    unfold an_term in *. split_and!; [done|lia|]. intros Hcb Hterm.
    destruct (decide (c = id)) as [->|Hne]; [|rewrite Hother in * by done; auto].
    rewrite Hsame in * by done. rewrite (ex_before _ _ _ _ _ Hext) in Hb. injection Hb as <-.
    destruct (Hcamp ltac:(unfold an_term; lia) Hcb) as [Hca ->]. apply Hc; [done|]. lia.
  - intros p t c Hin. destruct (Hrounds p t c Hin) as [Hin0|]; [|done].
    destruct (ri_round _ Hinv _ _ _ Hin0) as [(b & Hb & Ht) (l & Hl & Hs)].
    destruct (ext_node _ _ Hb) as (b' & Hb' & Hle%hs_le_term & _). split.
    + exists b'. unfold an_term in *. split; [done|lia].
    + exists l. split; [done|]. by eapply safe_mono.
  - intros m Hin. destruct (Hmsgs m Hin) as [Hin0|]; [|done].
    destruct (ri_msg _ Hinv _ Hin0) as (L & HL & Ho & Hp & Ht & Hc & Hs).
    destruct (ex_lead _ _ _ _ _ Hext _ _ HL) as (L' & HL' & Ho' & _ & _ & Hp' & _). exists L'.
    split_and!; [done|congruence|by etrans|done|done|]. by eapply safe_mono.
Qed.
End extension.

(** *** What the invariant says of logs *)

Section facts.
Context {R : RState} (Hinv : rinv R).

Lemma good_prefix l l' : l' `prefix_of` l → good R l → good R l'.
Proof.
  intros Hp Hg k e He. pose proof (lookup_lt_Some _ _ _ He).
  destruct (Hg k e) as (L & HL & Hb & Ht); [by eapply prefix_lookup_Some|].
  exists L. split_and!; [done..|]. by rewrite (prefix_take_mono (S k) l' l) by (done || lia).
Qed.

(** Log Matching: entries of the same index and term have the same past. *)
Lemma good_agree l1 l2 k x y :
  good R l1 → good R l2 → l1 !! k = Some x → l2 !! k = Some y → le_term x = le_term y →
  take (S k) l1 = take (S k) l2.
Proof.
  intros H1 H2 Hx Hy Ht.
  destruct (H1 k x Hx) as (L & HL & _ & Hp1), (H2 k y Hy) as (L' & HL' & _ & Hp2).
  rewrite Ht, HL' in HL. injection HL as ->.
  apply lookup_lt_Some in Hx, Hy.
  eapply prefix_same_length; [done..|]. rewrite !length_take. lia.
Qed.

Lemma good_sorted l j k x y :
  good R l → (j ≤ k)%nat → l !! j = Some x → l !! k = Some y → le_term x ≤ le_term y.
Proof.
  intros Hg Hjk Hx Hy. destruct (Hg k y Hy) as (L & HL & _ & Hp).
  pose proof (lo_sorted _ _ _ (ri_lead _ Hinv _ _ HL)) as Hs.
  eapply (Hs j k); [done| |]; (eapply prefix_lookup_Some; [|done]);
    rewrite lookup_take_lt by lia; done.
Qed.

Lemma last_term_lookup (l : list LogEntry) : l ≠ [] → ∃ e, l !! pred (length l) = Some e ∧ last_term l = le_term e.
Proof.
  intros Hne. unfold last_term. rewrite last_lookup.
  destruct (l !! pred (length l)) as [e|] eqn:He; [by exists e|].
  apply lookup_ge_None in He. destruct l; [done|]. cbn in He. lia.
Qed.

(** A log is below the log of the leader of its last term. *)
Lemma good_last l :
  good R l → l ≠ [] →
  ∃ L, r_lead R !! last_term l = Some L ∧ (ls_base L < length l)%nat ∧ l `prefix_of` ls_log L.
Proof.
  intros Hg Hne. destruct (last_term_lookup l Hne) as (e & He & ->).
  destruct (Hg _ _ He) as (L & HL & Hb & Hp). pose proof (lookup_lt_Some _ _ _ He).
  exists L. split_and!; [done|lia|]. by rewrite take_ge in Hp by lia.
Qed.
Lemma good_last_ge l k e : good R l → l !! k = Some e → le_term e ≤ last_term l.
Proof.
  intros Hg He. pose proof (lookup_lt_Some _ _ _ He) as Hlt.
  destruct (last_term_lookup l) as (x & Hx & ->); [by destruct l|].
  eapply good_sorted; [done| |done|done]. lia.
Qed.

Lemma quorums_intersect Q1 Q2 : is_quorum Q1 → is_quorum Q2 → ∃ q, q ∈ Q1 ∧ q ∈ Q2.
Proof. intros [? ?] [? ?]. by apply (quorums_meet members). Qed.

(** An entry that a quorum has acknowledged is not dead. *)
Lemma acked_alive t i Q : is_quorum Q → (∀ q, q ∈ Q → acked R q t i) → ¬ dead R t i.
Proof. intros HQ Hack Hd. destruct (Hd Q HQ) as (q & a & Hq & _ & _ & Hn). by apply Hn, Hack. Qed.

Lemma safe_intro l t T L n Q :
  r_lead R !! T = Some L → T ≤ t → (ls_base L < n ≤ length (ls_log L))%nat → is_quorum Q →
  (∀ q, q ∈ Q → acked R q T n) → l `prefix_of` take n (ls_log L) → safe R l t.
Proof. intros. right. by exists T, L, n, Q. Qed.

Lemma safe_prefix l l' t : l' `prefix_of` l → safe R l t → safe R l' t.
Proof.
  intros Hp [->|(T & L & n & Q & HL & Ht & Hn & HQ & Hack & Hl)].
  - apply prefix_nil_inv in Hp as ->. by left.
  - apply (safe_intro _ _ T L n Q); try done. by etrans.
Qed.
Lemma acked_dec q t i : Decision (acked R q t i).
Proof.
  destruct (decide (set_Exists (λ p, p.1.1 = q ∧ p.1.2 = t ∧ (i ≤ p.2)%nat) (r_acks R))) as [Hy|Hn].
  - left. destruct Hy as ([[q' t'] m] & Hin & <- & <- & Hm). by exists m.
  - right. intros (m & Hm & Hin). apply Hn. by exists (q, t, m).
Qed.

(** A voter's term has reached the term of its vote. *)
Lemma voter_term x t c : (x, t, c) ∈ r_votes R → ∃ a, r_nodes R !! x = Some a ∧ t ≤ an_term a.
Proof.
  intros Hin. destruct (ri_vote _ Hinv _ _ _ Hin) as [(a & Ha & Hr%reflects_term) _]. by exists a.
Qed.
(** The entry at which a leader's own part begins, and above, is of its term. *)
Lemma take_last_term L t i :
  r_lead R !! t = Some L → (ls_base L < i ≤ length (ls_log L))%nat →
  ∃ e, ls_log L !! pred i = Some e ∧ le_term e = t.
Proof.
  intros HL Hi. destruct (lookup_lt_is_Some_2 (ls_log L) (pred i)) as [e He]; [lia|].
  exists e. split; [done|]. pose proof (lo_terms _ _ _ (ri_lead _ Hinv _ _ HL) _ _ He) as Ht.
  case_decide; [lia|done].
Qed.

(** Leader Completeness: what is safe in a term is in the log of every leader
    from that term on. *)
Lemma safe_in_lead l t T L : safe R l t → t ≤ T → r_lead R !! T = Some L → l `prefix_of` ls_log L.
Proof.
  intros [->|(T0 & L0 & n & Q & HL0 & Ht & Hn & HQ & Hack & Hl)] Hle HL; [apply prefix_nil|].
  destruct (decide (T0 = T)) as [->|Hne].
  - rewrite HL in HL0. injection HL0 as ->. etrans; [done|apply take_prefix].
  - destruct (ri_elected _ Hinv T0 T L0 L n) with (L := L0) as [Hp|Hd]; [done|done|lia|lia|done|lia|by etrans|].
    by apply (acked_alive T0 n Q) in Hd.
Qed.

(** State Machine Safety: two safe logs are comparable. *)
Lemma safe_comparable l l' t t' :
  safe R l t → safe R l' t' → l `prefix_of` l' ∨ l' `prefix_of` l.
Proof.
  intros Hs Hs'. pose proof Hs as [->|(T & L & n & Q & HL & _ & Hn & HQ & Hack & Hl)];
    [left; apply prefix_nil|].
  pose proof Hs' as [->|(T' & L' & n' & Q' & HL' & _ & Hn' & HQ' & Hack' & Hl')];
    [right; apply prefix_nil|].
  assert (safe R l T) as H1 by (apply (safe_intro _ _ T L n Q); try done; lia).
  assert (safe R l' T') as H2 by (apply (safe_intro _ _ T' L' n' Q'); try done; lia).
  destruct (N.le_ge_cases T T') as [Hle|Hle].
  - apply (prefix_cases _ _ (ls_log L')); [by eapply safe_in_lead|by eapply safe_in_lead].
  - apply (prefix_cases _ _ (ls_log L)); [by eapply safe_in_lead|by eapply safe_in_lead].
Qed.
End facts.

(** *** The steps keep the invariant *)

Section steps.
Context {R : RState} (Hinv : rinv R).

Lemma ext_apply id a a' x :
  r_nodes R !! id = Some a → nstep quorum id x a a' →
  (∀ y t m, (y, t, m) ∈ add_acks id a' x → y = id ∧ t = an_term a') →
  (∀ T L, r_lead R !! T = Some L → ∃ L', add_lead id a a' x (r_lead R) !! T = Some L' ∧
    ls_owner L' = ls_owner L ∧ ls_base L' = ls_base L ∧ ls_voters L' = ls_voters L ∧
    ls_log L `prefix_of` ls_log L' ∧ (ls_owner L ≠ id → L' = L)) →
  ext id a a' R (apply_label R id a a' x).
Proof.
  intros Hid Hstep Hacks Hlead. split; cbn; try done.
  - by eapply nstep_hs.
  - set_solver.
  - set_solver.
  - intros y t m [Hin|Hin]%elem_of_union; [right; by eapply Hacks|by left].
Qed.
Lemma ext_plain id a a' x :
  r_nodes R !! id = Some a → nstep quorum id x a a' → add_acks id a' x = ∅ →
  add_lead id a a' x (r_lead R) = r_lead R → ext id a a' R (apply_label R id a a' x).
Proof.
  intros Hid Hstep Ha Hl. apply ext_apply; [done|done| |].
  - intros y t m. rewrite Ha. set_solver.
  - intros T L HL. rewrite Hl. by exists L.
Qed.

(** A step whose only trace is the node itself. *)
Lemma rinv_local id a a' x :
  r_nodes R !! id = Some a → nstep quorum id x a a' →
  add_votes id a' x = ∅ → add_acks id a' x = ∅ → add_lead id a a' x (r_lead R) = r_lead R →
  an_log a' = an_log a → (campaigning a' → campaigning a) →
  (ext id a a' R (apply_label R id a a' x) → node_ok (apply_label R id a a' x) id a') →
  rinv (apply_label R id a a' x).
Proof.
  intros Hid Hstep Hv Ha Hl Hlog Hcamp Hnode.
  pose proof (ext_plain id a a' x Hid Hstep Ha Hl) as Hext.
  eapply (rinv_ext Hext Hinv); cbn; rewrite ?Hv, ?Ha, ?Hl, ?union_empty_l_L.
  - by apply Hnode.
  - intros t m i Hin Hi. rewrite Hlog.
    destruct (ri_ack _ Hinv _ _ _ Hin) as (_ & L & b & _ & _ & Hb & _ & Hk).
    rewrite Hid in Hb. injection Hb as <-. by apply Hk.
  - intros _ Hc. by split; [apply Hcamp|].
  - done.
  - by intros; left.
  - by intros; left.
  - intros T T' L L' i HL HL' _ Hi. left. exists L. by rewrite HL'.
  - by intros; left.
  - by intros; left.
  - by intros; left.
  - by intros; left.
  - by intros; left.
Qed.

Lemma rinv_idle id h l c r h' r' :
  r_nodes R !! id = Some (mkA h l c r) → hs_le h h' → r' = RIdle ∨ r' = RDown →
  rinv (apply_label R id (mkA h l c r) (mkA h' l c r') NTau).
Proof.
  intros Hid Hle Hr. apply rinv_local; try done.
  - by constructor.
  - intros [V ?]. cbn in *. by destruct Hr; subst.
  - intros Hext. destruct (ri_node _ Hinv _ _ Hid) as [Hm Hg [Hc Hs] _ _ _]. cbn in *. split; cbn.
    + done.
    + by eapply good_mono.
    + split; [done|]. eapply safe_mono; [done| |done]. apply (hs_le_term _ _ Hle).
    + intros V ->. by destruct Hr.
    + intros x [V ?]. cbn in *. by destruct Hr; subst.
    + intros mt ->. by destruct Hr.
Qed.

Lemma rinv_count id h l c V q :
  r_nodes R !! id = Some (mkA h l c (RCampaign V)) → q ∈ members → (q, h.1, id) ∈ r_votes R →
  rinv (apply_label R id (mkA h l c (RCampaign V)) (mkA h l c (RCampaign ({[q]} ∪ V))) (NCount q)).
Proof.
  intros Hid Hq Hvote. set (a := mkA h l c (RCampaign V)) in *. set (a' := mkA h l c _).
  apply rinv_local; try done.
  - constructor.
  - by intros _; exists V.
  - intros Hext. destruct (ri_node _ Hinv _ _ Hid) as [Hm Hg [Hc Hs] Hvs Hvok _]. split; cbn.
    + done.
    + by eapply good_mono.
    + split; [done|]. by eapply safe_mono.
    + intros V' [= <-]. destruct (Hvs V eq_refl) as (? & ? & Hin). split_and!; [done|set_solver|].
      intros p Hp. rewrite union_empty_l_L. apply elem_of_union in Hp as [->%elem_of_singleton|Hp]; [done|].
      by apply Hin.
    + intros x _. rewrite union_empty_l_L. intros Hx.
      eapply (voter_ok_mono Hext Hinv id a); [done|by exists V|done|]. apply Hvok; [by exists V|done].
    + done.
Qed.

Lemma rinv_match id h l c mt q i :
  r_nodes R !! id = Some (mkA h l c (RLeading mt)) → (q, h.1, N.to_nat i) ∈ r_acks R →
  rinv (apply_label R id (mkA h l c (RLeading mt)) (mkA h l c (RLeading (<[q := i]> mt))) (NMatch q i)).
Proof.
  intros Hid Hack. apply rinv_local; try done.
  - constructor.
  - by intros [V ?].
  - intros Hext. destruct (ri_node _ Hinv _ _ Hid) as [Hm Hg [Hc Hs] _ _ Hl]. split; cbn.
    + done.
    + by eapply good_mono.
    + split; [done|]. by eapply safe_mono.
    + done.
    + by intros x [V ?].
    + intros mt' [= <-]. destruct (Hl mt eq_refl) as (L & ? & ? & ? & Ha & Hself).
      rewrite union_empty_l_L. exists L. split_and!; [done..| |done].
      intros p j. rewrite lookup_insert_Some. intros [[<- <-]|[_ Hp]]; [by right|by eapply Ha].
Qed.

Lemma rinv_commit id h l c mt n :
  r_nodes R !! id = Some (mkA h l c (RLeading mt)) → (c < n)%nat →
  le_term <$> l !! pred n = Some h.1 → quorum_matched quorum id mt n →
  rinv (apply_label R id (mkA h l c (RLeading mt)) (mkA h l n (RLeading mt)) (NCommit n)).
Proof.
  intros Hid Hn Hterm Hq. apply rinv_local; try done.
  - by constructor.
  - intros Hext. destruct (ri_node _ Hinv _ _ Hid) as [Hm Hg [Hc Hs] _ _ Hl]. cbn in *.
    destruct (Hl mt eq_refl) as (L & HL & Ho & Hlog & Ha & Hself). cbn in *.
    destruct (l !! pred n) as [e|] eqn:He; [|done]. injection Hterm as Hterm.
    apply lookup_lt_Some in He as Hlt.
    assert (ls_base L < n)%nat as Hbase.
    { destruct (Hg _ _ He) as (L' & HL' & Hb & _). rewrite Hterm in HL'. change h.1 with (an_term (mkA h l c (RLeading mt))) in HL'.
      rewrite HL in HL'. injection HL' as <-. lia. }
    assert (safe R (take n l) h.1) as Hsafe.
    { destruct Hq as (Q & Hsize & HQ).
      assert (∀ q, q ∈ Q → q ∈ members ∧ acked R q h.1 n) as Hqs.
      { intros q Hin. destruct (HQ q Hin) as [->|(i & Hi & Hni)].
        - split; [done|]. exists (length l). split; [lia|]. rewrite <-Hlog. apply Hself. rewrite Hlog. lia.
        - destruct (Ha q i Hi) as [->|Hack]; [lia|]. split; [by apply (ri_ack _ Hinv) in Hack as [? _]|].
          exists (N.to_nat i). by split. }
      apply (safe_intro _ _ h.1 L n Q); [done|lia|rewrite Hlog; cbn; lia| | |by rewrite Hlog].
      - split; [|done]. intros q Hin. by apply Hqs.
      - intros q Hin. by apply Hqs. }
    split; cbn.
    + done.
    + by eapply good_mono.
    + split; [lia|]. by eapply safe_mono.
    + done.
    + by intros x [V ?].
    + intros mt' [= <-]. rewrite union_empty_l_L. by exists L.
Qed.

Lemma rinv_campaign id t o l c r :
  r_nodes R !! id = Some (mkA (t, o) l c r) → id ∈ members →
  rinv (apply_label R id (mkA (t, o) l c r) (mkA (t + 1, Some id) l c (RCampaign {[id]})) NCampaign).
Proof.
  intros Hid Hm. set (a := mkA (t, o) l c r) in *. set (a' := mkA _ l c _).
  assert (ext id a a' R (apply_label R id a a' NCampaign)) as Hext by (apply ext_plain; [done|constructor|done|done]).
  destruct (ri_node _ Hinv _ _ Hid) as [_ Hg [Hc Hs] _ _ _].
  assert (∀ x t' c', (x, t', c') ∈ {[(id, t + 1, id)]} ∪ r_votes R → x = id → t' = t + 1 → c' = id) as Hown.
  { intros x t' c' [Hin%elem_of_singleton|Hin]%elem_of_union -> ->; [by injection Hin|].
    destruct (voter_term Hinv _ _ _ Hin) as (b & Hb & Hle). rewrite Hid in Hb. injection Hb as <-.
    unfold an_term in Hle. cbn in Hle. lia. }
  eapply (rinv_ext Hext Hinv); cbn; rewrite ?union_empty_l_L.
  - split; cbn.
    + done.
    + by eapply good_mono.
    + split; [done|]. eapply safe_mono; [done| |done]. cbn. lia.
    + intros V [= <-]. split_and!; [lia|set_solver|]. intros q ->%elem_of_singleton. set_solver.
    + intros x _ [[= ->]%elem_of_singleton|Hin]%elem_of_union.
      2: { destruct (vo_candidate _ _ _ _ (ri_vote _ Hinv _ _ _ Hin)) as (b & Hb & Hle).
           rewrite Hid in Hb. injection Hb as <-. unfold an_term in Hle. cbn in Hle. lia. }
      split; cbn.
      * rewrite union_empty_l_L. intros t0 m i Hin _ Hi.
        destruct (ri_ack _ Hinv _ _ _ Hin) as (_ & L & b & HL & Hlen & Hb & _ & Hk).
        rewrite Hid in Hb. injection Hb as <-. eapply kept_mono; [done|done|lia|by apply Hk].
      * intros e L He Hlt HL Hv. pose proof (lo_voted _ _ _ (ri_lead _ Hinv _ _ HL) _ Hv) as Hin.
        destruct (voter_term Hinv _ _ _ Hin) as (b & Hb & Hle). rewrite Hid in Hb. injection Hb as <-.
        unfold an_term in *. cbn in *. lia.
    + done.
  - intros t0 m i Hin Hi. destruct (ri_ack _ Hinv _ _ _ Hin) as (_ & L & b & _ & _ & Hb & _ & Hk).
    rewrite Hid in Hb. injection Hb as <-. by apply Hk.
  - unfold an_term. cbn. lia.
  - done.
  - intros p b x Hne _ _ [[= -> ?]%elem_of_singleton|Hin]%elem_of_union; [done|by left].
  - by intros; left.
  - intros T T' L L' i HL HL' _ Hi. left. exists L. by rewrite HL'.
  - intros x t' c' [[= -> -> ->]%elem_of_singleton|Hin]%elem_of_union; [right|by left]. split.
    + split; exists a'; cbn; rewrite lookup_insert_eq; (split; [done|]); [by right|unfold an_term; cbn; lia].
    + intros c' Hin. by eapply Hown.
  - by intros; left.
  - by intros; left.
  - by intros; left.
  - by intros; left.
Qed.

(** The log of a candidate covers the log of a voter that finds it up to
    date. *)
Lemma up_to_date_covers b l t i L :
  good R l → good R (an_log b) → up_to_date l (length (an_log b)) (last_term (an_log b)) →
  r_lead R !! t = Some L → (ls_base L < i ≤ length (ls_log L))%nat →
  take i (ls_log L) `prefix_of` l → take i (ls_log L) `prefix_of` an_log b ∨ dead R t i.
Proof.
  intros Hgl Hgb Hup HL Hi Hp. destruct (take_last_term Hinv L t i HL Hi) as (e & He & Het).
  assert (l !! pred i = Some e) as Hle.
  { eapply prefix_lookup_Some; [|done]. rewrite lookup_take_lt by lia. done. }
  pose proof (good_last_ge Hinv l _ _ Hgl Hle) as Hge.
  assert (l ≠ []) as Hne by (by intros ->).
  destruct (good_last l Hgl Hne) as (L1 & HL1 & Hb1 & Hp1).
  pose proof (lo_pos _ _ _ (ri_lead _ Hinv _ _ HL1)) as Hpos.
  assert (an_log b ≠ []) as Hneb.
  { intros Heq. rewrite Heq in Hup. destruct Hup as [Hup|[Hup _]]; cbn in Hup; lia. }
  destruct (good_last (an_log b) Hgb Hneb) as (L2 & HL2 & Hb2 & Hp2).
  destruct Hup as [Hlt|[Heq Hlen]].
  - destruct (ri_elected _ Hinv _ _ _ _ i HL HL2 ltac:(lia) ltac:(lia) L HL) as [Hp3|]; [lia| |by right].
    left. assert (ls_log L2 !! pred i = Some e) as He2.
    { eapply prefix_lookup_Some; [|done]. rewrite lookup_take_lt by lia. done. }
    pose proof (lo_terms _ _ _ (ri_lead _ Hinv _ _ HL2) _ _ He2) as Ht2. case_decide; [|lia].
    eapply prefix_by_length; [done|done|]. rewrite length_take. lia.
  - left. rewrite Heq, HL2 in HL1. injection HL1 as ->. etrans; [done|]. by eapply prefix_by_length.
Qed.

Lemma rinv_vote id h l c t cand n lt :
  r_nodes R !! id = Some (mkA h l c RIdle) → id ∈ members → (t, cand, n, lt) ∈ r_claims R →
  hs_le h (t, Some cand) → up_to_date l n lt →
  rinv (apply_label R id (mkA h l c RIdle) (mkA (t, Some cand) l c RIdle) (NVote cand t n lt)).
Proof.
  intros Hid Hm Hclaim Hle Hup. set (a := mkA h l c RIdle) in *. set (a' := mkA _ l c RIdle).
  set (x := NVote cand t n lt).
  assert (ext id a a' R (apply_label R id a a' x)) as Hext by (apply ext_plain; [done|by constructor|done|done]).
  destruct (ri_node _ Hinv _ _ Hid) as [_ Hg [Hc Hs] _ _ _]. cbn in Hg, Hc, Hs.
  destruct (ri_claim _ Hinv _ _ _ _ Hclaim) as (b0 & Hb0 & Htb & Hlast).
  eapply (rinv_ext Hext Hinv); cbn; rewrite ?union_empty_l_L.
  - split; cbn; try done.
    + split; [done|]. eapply safe_mono; [done| |done]. by apply hs_le_term in Hle.
    + by intros y [V ?].
  - intros t0 m i Hin Hi. destruct (ri_ack _ Hinv _ _ _ Hin) as (_ & L & b & _ & _ & Hb & _ & Hk).
    rewrite Hid in Hb. injection Hb as <-. by apply Hk.
  - by intros _ [V ?].
  - done.
  - intros p b y Hne Hb Hcamp [Hin%elem_of_singleton|Hin]%elem_of_union; [right|by left].
    injection Hin as -> Ht ->. rewrite Hb0 in Hb. injection Hb as ->.
    destruct (Hlast Hcamp Ht) as [-> ->]. split; cbn.
    + rewrite union_empty_l_L. intros t0 m i Hin Hlt Hi.
      destruct (ri_ack _ Hinv _ _ _ Hin) as (_ & L & a1 & HL & Hlen & Ha1 & _ & Hk).
      rewrite Hid in Ha1. injection Ha1 as <-.
      eapply kept_mono; [done|done|lia|]. intros L1 HL1 Hb1. rewrite HL in HL1. injection HL1 as <-.
      destruct (Hk i Hi L HL Hb1) as [Hp|]; [|by right].
      eapply up_to_date_covers; [done|by apply (no_good _ _ _ (ri_node _ Hinv _ _ Hb0))|done|done|lia|done].
    + intros e L He Hlt HL Hv. pose proof (lo_voted _ _ _ (ri_lead _ Hinv _ _ HL) _ Hv) as Hin.
      destruct (voter_term Hinv _ _ _ Hin) as (a1 & Ha1 & Hle1). rewrite Hid in Ha1. injection Ha1 as <-.
      apply hs_le_term in Hle. unfold an_term in *. cbn in *. lia.
  - by intros; left.
  - intros T T' L L' i HL HL' _ Hi. left. exists L. by rewrite HL'.
  - intros y t' c' [[= -> -> ->]%elem_of_singleton|Hin]%elem_of_union; [right|by left]. split.
    + split; cbn.
      * exists a'. rewrite lookup_insert_eq. split; [done|by right].
      * destruct (ext_node Hext _ _ Hb0) as (b' & Hb' & Hle'%hs_le_term & _). exists b'.
        unfold an_term in *. split; [done|lia].
    + intros c' [[= ->]%elem_of_singleton|Hin]%elem_of_union; [done|].
      destruct (ri_vote _ Hinv _ _ _ Hin) as [(a1 & Ha1 & Hr) _]. rewrite Hid in Ha1. injection Ha1 as <-.
      by eapply hs_le_reflects.
  - by intros; left.
  - by intros; left.
  - by intros; left.
  - by intros; left.
Qed.

(** A candidate's log ends before its term, and its term has no leader yet. *)
Lemma elected_fresh id a V :
  r_nodes R !! id = Some a → an_role a = RCampaign V → is_quorum V →
  r_lead R !! an_term a = None ∧ ∀ e, e ∈ an_log a → le_term e < an_term a.
Proof.
  intros Hid HV HQ. destruct (ri_node _ Hinv _ _ Hid) as [_ Hg _ Hvs Hvok _].
  destruct (Hvs V HV) as (_ & _ & Hin).
  assert (r_lead R !! an_term a = None) as Hnone.
  { destruct (r_lead R !! an_term a) as [L|] eqn:HL; [|done].
    destruct (ri_lead _ Hinv _ _ HL) as [_ _ _ _ _ HQL Hvoted (b & Hb & _ & Hno)].
    destruct (quorums_intersect _ _ HQ HQL) as (q & Hq1 & Hq2).
    assert (ls_owner L = id) as Ho by (eapply (ri_unique _ Hinv); [by apply Hvoted|by apply Hin]).
    rewrite Ho, Hid in Hb. injection Hb as <-. exfalso. apply Hno; [done|by exists V]. }
  split; [done|]. intros e He. apply list_elem_of_lookup in He as Hk. destruct Hk as [k Hk].
  destruct (Hg k e Hk) as (L & HL & _).
  destruct (N.lt_trichotomy (le_term e) (an_term a)) as [?|[Heq|Hgt]]; [done|congruence|].
  destruct (quorums_intersect _ _ HQ (lo_quorum _ _ _ (ri_lead _ Hinv _ _ HL))) as (q & Hq1 & Hq2).
  destruct (Hvok q) as [_ Hf]; [by exists V|by apply Hin|]. by destruct (Hf e L He Hgt HL).
Qed.

(** What a quorum of voters had acknowledged, the new leader holds: the rest
    is dead. *)
Lemma elected_covers id a V T i :
  r_nodes R !! id = Some a → an_role a = RCampaign V → is_quorum V → T < an_term a →
  kept R (an_log a) T i.
Proof.
  intros Hid HV HQ HT L HL Hb.
  destruct (decide (take i (ls_log L) `prefix_of` an_log a)) as [?|Hn]; [by left|right].
  destruct (ri_node _ Hinv _ _ Hid) as [_ Hg _ Hvs Hvok _]. destruct (Hvs V HV) as (_ & _ & Hin).
  intros Q HQ'. destruct (quorums_intersect _ _ HQ HQ') as (q & Hq1 & Hq2).
  destruct (voter_term Hinv _ _ _ (Hin q Hq1)) as (b & Hqb & Hle).
  destruct (acked_dec (R:=R) q T i) as [(m & Hm & Hack)|Hna].
  - destruct (Hvok q) as [Hv _]; [by exists V|by apply Hin|].
    destruct (Hv T m i Hack HT Hm L HL Hb) as [?|Hd]; [done|]. by apply Hd.
  - exists q, b. split_and!; [done|done|lia|done].
Qed.

Lemma ext_elect id h l c V mt :
  r_nodes R !! id = Some (mkA h l c (RCampaign V)) → quorum ≤ N.of_nat (size V) →
  (∀ q i, mt !! q = Some i → i = 0) →
  let a := mkA h l c (RCampaign V) in let a' := mkA h l c (RLeading mt) in
  ext id a a' R (apply_label R id a a' NElect).
Proof.
  intros Hid Hsize Hmt a a'. destruct (no_votes _ _ _ (ri_node _ Hinv _ _ Hid) V eq_refl) as (_ & Hsub & _).
  destruct (elected_fresh id a V Hid eq_refl) as [Hnone _]; [done|].
  apply ext_apply; [done|by constructor|by intros ? ? ? ?|].
  intros T L HL. exists L. cbn. rewrite lookup_insert_ne by (intros <-; unfold an_term in *; cbn in *; congruence).
  done.
Qed.

Lemma rinv_elect id h l c V mt :
  r_nodes R !! id = Some (mkA h l c (RCampaign V)) → quorum ≤ N.of_nat (size V) →
  (∀ q i, mt !! q = Some i → i = 0) →
  rinv (apply_label R id (mkA h l c (RCampaign V)) (mkA h l c (RLeading mt)) NElect).
Proof.
  intros Hid Hsize Hmt. set (a := mkA h l c (RCampaign V)) in *. set (a' := mkA h l c (RLeading mt)).
  destruct (ri_node _ Hinv _ _ Hid) as [Hm Hg [Hc Hs] Hvs Hvok _].
  destruct (Hvs V eq_refl) as (Hpos & Hsub & Hin). assert (is_quorum V) as HQ by done.
  destruct (elected_fresh id a V Hid eq_refl HQ) as [Hnone Hterms].
  set (L' := mkLead id (length l) l V).
  pose proof (ext_elect id h l c V mt Hid Hsize Hmt) as Hext. fold a a' in Hext. cbn zeta in Hext.
  eapply (rinv_ext Hext Hinv); cbn; rewrite ?union_empty_l_L.
  - split; cbn; try done.
    + by eapply good_mono.
    + split; [done|]. by eapply safe_mono.
    + by intros y [? ?].
    + intros mt' [= <-]. exists L'. unfold an_term. cbn. rewrite lookup_insert_eq, union_empty_l_L.
      split_and!; [done..| |lia]. intros q i Hq. left. by eapply Hmt.
  - intros t0 m i Hin' Hi. destruct (ri_ack _ Hinv _ _ _ Hin') as (_ & L & b & _ & _ & Hb & _ & Hk).
    rewrite Hid in Hb. injection Hb as <-. by apply Hk.
  - by intros _ [? ?].
  - intros p b mt' Hne Hb Hr. rewrite lookup_insert_ne; [done|]. intros Heq.
    destruct (no_leading _ _ _ (ri_node _ Hinv _ _ Hb) mt' Hr) as (L & HL & _).
    rewrite <-Heq in HL. unfold an_term in *. cbn in *. congruence.
  - by intros; left.
  - intros T L0. unfold an_term. cbn. rewrite lookup_insert_Some. intros [[<- <-]|[_ ?]]; [right|by left].
    split; cbn; try done.
    + by eapply good_mono.
    + intros k e Hk. pose proof (lookup_lt_Some _ _ _ Hk). rewrite decide_True by done.
      apply Hterms. by eapply list_elem_of_lookup_2.
    + intros j k x y Hjk Hx Hy. by eapply (good_sorted Hinv l).
    + intros q Hq. rewrite union_empty_l_L. by apply Hin.
    + exists a'. rewrite lookup_insert_eq. split_and!; [done|unfold an_term; cbn; lia|]. by intros _ [? ?].
  - intros T T' L L0 i. unfold an_term. cbn. rewrite !lookup_insert_Some.
    intros [[<- <-]|[HneT HL]] HL' Hlt Hi.
    { right. cbn in Hi. intros L1. cbn. unfold an_term. cbn. rewrite lookup_insert_eq.
      intros [= <-]. cbn. lia. }
    destruct HL' as [[<- <-]|[_ HL']]; [right|left; exists L; by rewrite HL'].
    eapply kept_mono; [done|done|done|].
    by apply (elected_covers id a V T i Hid eq_refl HQ).
  - by intros; left.
  - by intros; left.
  - by intros; left.
  - by intros; left.
  - by intros; left.
Qed.

(** The log of the leader of [h.1] after one more entry. *)
Lemma appended_lead_ok R' L id a' e :
  (∀ l, good R l → good R' l) → lead_ok R (le_term e) L → good R' (ls_log L ++ [e]) →
  r_votes R ⊆ r_votes R' → ls_owner L = id → r_nodes R' !! id = Some a' →
  an_term a' = le_term e → ¬ campaigning a' →
  lead_ok R' (le_term e) (mkLead (ls_owner L) (ls_base L) (ls_log L ++ [e]) (ls_voters L)).
Proof.
  intros Hgm [Hp Hb Hg Ht Hs Hq Hv _] Hg' Hvotes Ho Hn Hterm Hc. split; cbn; try done.
  - rewrite length_app. lia.
  - intros k x. rewrite lookup_app_Some, list_lookup_singleton_Some. intros [Hk|(? & ? & <-)]; [by apply Ht|].
    case_decide; [lia|done].
  - assert (∀ j x, ls_log L !! j = Some x → le_term x ≤ le_term e) as Hle.
    { intros j x Hx. pose proof (Ht _ _ Hx). case_decide; lia. }
    intros j k x y Hjk. rewrite !lookup_app_Some, !list_lookup_singleton_Some.
    intros [Hx|(? & ? & <-)] [Hy|(? & ? & <-)].
    + by eapply (Hs j k).
    + by eapply Hle.
    + apply lookup_lt_Some in Hy. lia.
    + lia.
  - intros q ?. by apply Hvotes, Hv.
  - exists a'. rewrite Ho. split_and!; [done|lia|done].
Qed.

Lemma ext_append id h l c mt e :
  r_nodes R !! id = Some (mkA h l c (RLeading mt)) → le_term e = h.1 →
  let a := mkA h l c (RLeading mt) in let a' := mkA h (l ++ [e]) c (RLeading mt) in
  ext id a a' R (apply_label R id a a' (NAppend e)).
Proof.
  intros Hid He a a'.
  destruct (no_leading _ _ _ (ri_node _ Hinv _ _ Hid) mt eq_refl) as (L & HL & Ho & Hlog & _).
  apply ext_apply; [done|by constructor| |].
  - intros y t m Hin. cbn in Hin. by apply elem_of_singleton in Hin as [= -> -> ->].
  - intros T L0 HL0. cbn. destruct (decide (T = an_term a')) as [->|HT].
    + change (an_term (mkA h l c (RLeading mt))) with (an_term a') in HL. rewrite HL in HL0. injection HL0 as <-.
      rewrite lookup_alter_eq, HL. eexists. split_and!; try done. cbn. rewrite Hlog. by apply prefix_app_r.
    + exists L0. by rewrite lookup_alter_ne.
Qed.

Lemma rinv_append id h l c mt e :
  r_nodes R !! id = Some (mkA h l c (RLeading mt)) → le_term e = h.1 →
  rinv (apply_label R id (mkA h l c (RLeading mt)) (mkA h (l ++ [e]) c (RLeading mt)) (NAppend e)).
Proof.
  intros Hid He. set (a := mkA h l c (RLeading mt)) in *. set (a' := mkA h (l ++ [e]) c (RLeading mt)).
  set (R' := apply_label R id a a' (NAppend e)).
  destruct (ri_node _ Hinv _ _ Hid) as [Hm Hg [Hc Hs] _ _ Hl]. cbn in Hg, Hc, Hs.
  destruct (Hl mt eq_refl) as (L & HL & Ho & Hlog & Ha & Hself). unfold an_term in HL, Ha, Hself.
  cbn in HL, Hlog, Ha, Hself.
  set (L' := mkLead (ls_owner L) (ls_base L) (l ++ [e]) (ls_voters L)).
  assert (r_lead R' !! h.1 = Some L') as HL'.
  { unfold R'. cbn. unfold an_term. cbn. by rewrite lookup_alter_eq, HL. }
  assert (∀ T, T ≠ h.1 → r_lead R' !! T = r_lead R !! T) as Hne'.
  { intros T HT. unfold R'. cbn. unfold an_term. cbn. by rewrite lookup_alter_ne. }
  pose proof (ext_append id h l c mt e Hid He) as Hext. cbn zeta in Hext. fold a a' R' in Hext.
  assert (good R' (l ++ [e])) as Hg'.
  { intros k x. rewrite lookup_app_Some, list_lookup_singleton_Some. intros [Hk|(Hk & Hz & <-)].
    - destruct (good_mono Hext _ Hg k x Hk) as (L1 & ? & ? & ?). apply lookup_lt_Some in Hk. exists L1.
      rewrite take_app_le by lia. by split_and!.
    - exists L'. rewrite He. split_and!; [done| |].
      + cbn. pose proof (lo_base _ _ _ (ri_lead _ Hinv _ _ HL)) as Hbase. rewrite Hlog in Hbase. lia.
      + apply take_prefix. }
  eapply (rinv_ext Hext Hinv).
  - split; cbn; try done.
    + split; [rewrite length_app; lia|]. rewrite take_app_le by done. by eapply safe_mono.
    + by intros y [? ?].
    + intros mt' [= <-]. exists L'. split_and!; [done..| |].
      * intros q i Hq. destruct (Ha q i Hq); [by left|right]. set_solver.
      * intros _. unfold L', an_term. cbn. set_solver.
  - intros t0 m i Hin' Hi. destruct (ri_ack _ Hinv _ _ _ Hin') as (_ & L0 & b & _ & _ & Hb & _ & Hk).
    rewrite Hid in Hb. injection Hb as <-. intros L1 HL1 Hb1.
    destruct (Hk i Hi L1 HL1 Hb1); [left; cbn; by apply prefix_app_r|by right].
  - by intros _ [? ?].
  - intros p b mt' Hne Hb Hr. apply Hne'. intros Heq.
    destruct (no_leading _ _ _ (ri_node _ Hinv _ _ Hb) mt' Hr) as (L0 & HL0 & Ho0 & _).
    rewrite Heq, HL in HL0. injection HL0 as <-. congruence.
  - cbn. rewrite union_empty_l_L. by intros; left.
  - intros T L0 HT. destruct (decide (T = h.1)) as [->|HneT]; [right|left; by rewrite <-Hne'].
    rewrite HL' in HT. injection HT as <-. rewrite <-He. unfold L'. rewrite <-Hlog.
    apply (appended_lead_ok R' L id a'); try done.
    + intros l0. apply (good_mono Hext).
    + rewrite He. by apply (ri_lead _ Hinv).
    + by rewrite Hlog.
    + apply Hext.
    + unfold R'. cbn. apply lookup_insert_eq.
    + by intros [? ?].
  - intros T T' L1 L2 i HL1 HL2 Hlt Hi. destruct (decide (T = h.1)) as [->|HneT].
    + rewrite HL' in HL1. injection HL1 as <-. rewrite Hne' in HL2 by lia.
      destruct (decide (i ≤ length l)%nat) as [Hle|Hgt].
      { left. exists L. rewrite HL2, Hlog. by split_and!. }
      right. intros L1 _ _. right. intros Q HQ.
      destruct (ri_lead _ Hinv _ _ HL2) as [_ _ _ _ _ HQ2 Hvoted _].
      destruct (quorums_intersect _ _ HQ HQ2) as (q & Hq1 & Hq2).
      destruct (voter_term Hinv _ _ _ (Hvoted q Hq2)) as (b & Hb & Hle).
      destruct (ext_node Hext _ _ Hb) as (b' & Hb' & Hle'%hs_le_term & _ & Hsame). exists q, b'.
      unfold an_term in *. split_and!; [done|done|lia|]. intros (m & Hm' & [Hin|Hin]%elem_of_union).
      * cbn in Hin. apply elem_of_singleton in Hin as [= -> _]. rewrite Hsame in Hle' by done. unfold a' in Hle'. cbn in Hle'. lia.
      * destruct (ri_ack _ Hinv _ _ _ Hin) as (_ & L3 & _ & HL3 & Hlen & _). rewrite HL in HL3. injection HL3 as <-.
        rewrite Hlog in Hlen. lia.
    + left. rewrite Hne' in HL1 by done. exists L1. split_and!; [done|done|].
      destruct (decide (T' = h.1)) as [->|HneT']; [by exists L|]. rewrite Hne' in HL2 by done. by exists L2.
  - cbn. rewrite union_empty_l_L. by intros; left.
  - intros x t m [Hin|Hin]%elem_of_union; [right|by left].
    cbn in Hin. apply elem_of_singleton in Hin as [= -> -> ->].
    split; [done|]. exists L', a'. unfold R'. cbn. rewrite lookup_insert_eq. split_and!; [done|done|done|lia|].
    intros i Hi L1 HL1 _. change (r_lead R' !! h.1 = Some L1) in HL1.
    rewrite HL' in HL1. injection HL1 as <-. left. apply take_prefix.
  - by intros; left.
  - by intros; left.
  - by intros; left.
Qed.

Lemma ext_accept id a a' m (ok : bool) :
  r_nodes R !! id = Some a → nstep quorum id (NAccept m ok) a a' →
  ext id a a' R (apply_label R id a a' (NAccept m ok)).
Proof.
  intros Hid Hstep. apply ext_apply; [done|done| |by intros T L0 HL0; exists L0].
  intros y t n. cbn. destruct ok; [|set_solver]. destruct (_ =? _); [|set_solver].
  intros [= -> -> ->]%elem_of_singleton. split; [done|]. inversion Hstep. by subst.
Qed.

Lemma rinv_accept id h l c m (ok : bool) l' c' r' :
  r_nodes R !! id = Some (mkA h l c RIdle) → m ∈ r_msgs R →
  nstep quorum id (NAccept m ok) (mkA h l c RIdle) (mkA h l' c' r') →
  rinv (apply_label R id (mkA h l c RIdle) (mkA h l' c' r') (NAccept m ok)).
Proof.
  intros Hid Hin Hstep. set (a := mkA h l c RIdle) in *. set (a' := mkA h l' c' r') in *.
  set (R' := apply_label R id a a' (NAccept m ok)).
  assert (h.1 = m_term m ∧ retains l (m_log m) l' ∧ (c' = c ∨ l' = merge l (m_log m) ∧ (c' ≤ m_commit m)%nat) ∧
    (if ok then l' = merge l (m_log m) ∧ r' = RIdle else r' = RDown)) as (Hterm & Hret & Hcom & Hok)
    by (by inversion Hstep).
  assert (r' = RIdle ∨ r' = RDown) as Hr' by (by destruct ok; [left|right]; destruct Hok).
  destruct (ri_node _ Hinv _ _ Hid) as [Hm Hg [Hc Hs] _ _ _]. cbn in Hg, Hc, Hs.
  destruct (ri_msg _ Hinv _ Hin) as (L & HL & _ & Hp & Hle & Hmc & Hms).
  assert (∀ x, x `prefix_of` l → x `prefix_of` ls_log L → x `prefix_of` l') as Hkeeps.
  { intros x Hx1 Hx2. by eapply retains_keeps. }
  assert (ext id a a' R R') as Hext by (by apply ext_accept).
  assert (good R l') as Hg'.
  { destruct Hret as [[Hpre|Hmerge] _]; [by eapply good_prefix|].
    rewrite Hmerge. destruct (merge_origin l (m_log m)) as [-> | ->]; [done|].
    eapply good_prefix; [done|]. by apply (lo_good _ _ _ (ri_lead _ Hinv _ _ HL)). }
  assert ((c' ≤ length l')%nat ∧ safe R (take c' l') h.1) as Hcommit.
  { destruct Hcom as [->|[-> Hcle]].
    - pose proof (safe_in_lead Hinv (take c l) h.1 (m_lead_term m) L Hs ltac:(lia) HL) as Hx.
      pose proof (Hkeeps _ (take_prefix _ _) Hx) as Hx'.
      pose proof (prefix_take_eq _ _ Hx') as Heq. pose proof (prefix_length _ _ Hx') as Hlen.
      rewrite length_take, Nat.min_l in Heq, Hlen by done. split; [done|]. by rewrite <-Heq.
    - pose proof (merge_has l (m_log m)) as Hh. pose proof (prefix_length _ _ Hh). split; [lia|].
      rewrite <-(prefix_take_mono c' _ _ Hh) by lia. rewrite Hterm.
      eapply safe_prefix; [|done]. by apply take_prefix_mono. }
  eapply (rinv_ext Hext Hinv).
  - split; cbn.
    + done.
    + by eapply good_mono.
    + split; [apply Hcommit|]. eapply safe_mono; [done| |apply Hcommit]. done.
    + intros V ->. by destruct Hr'.
    + intros x [V ?]. cbn in *. by destruct Hr'; subst.
    + intros mt ->. by destruct Hr'.
  - intros t n i Hack Hi. destruct (ri_ack _ Hinv _ _ _ Hack) as (_ & L0 & b & HL0 & Hlen & Hb & Ht & Hk).
    rewrite Hid in Hb. injection Hb as <-. unfold an_term in Ht. cbn in Ht.
    intros L1 HL1 Hb1. rewrite HL0 in HL1. injection HL1 as <-.
    destruct (Hk i Hi L0 HL0 Hb1) as [Hpre|]; [|by right]. cbn in Hpre.
    destruct (decide (t = m_lead_term m)) as [->|Hne].
    + rewrite HL in HL0. injection HL0 as <-. left. apply Hkeeps; [done|]. apply take_prefix.
    + destruct (ri_elected _ Hinv _ _ _ _ i HL0 HL ltac:(lia) ltac:(lia) L0 HL0 Hb1) as [Hp2|]; [|by right].
      left. by apply Hkeeps.
  - intros _ [V ?]. cbn in *. by destruct Hr'; subst.
  - done.
  - cbn. rewrite union_empty_l_L. by intros; left.
  - by intros; left.
  - intros T T' L1 L2 i HL1 HL2 _ Hi. left. exists L1. split_and!; [done|done|by exists L2].
  - cbn. rewrite union_empty_l_L. by intros; left.
  - intros x t n. cbn. destruct ok; [|rewrite union_empty_l_L; by left].
    destruct (N.eqb_spec (m_term m) (m_lead_term m)) as [Heq|]; [|rewrite union_empty_l_L; by left].
    intros [[= -> -> ->]%elem_of_singleton|Hack]%elem_of_union; [right|by left].
    split; [done|]. exists L, a'. rewrite Heq. unfold R'. cbn. rewrite lookup_insert_eq.
    split_and!; [done|by apply prefix_length|done|unfold an_term; cbn; lia|].
    intros i Hi L1 HL1 _. change (r_lead R !! m_lead_term m = Some L1) in HL1. rewrite HL in HL1. injection HL1 as <-.
    left. rewrite <-(prefix_take_mono i _ _ Hp) by done. destruct Hok as [-> _].
    etrans; [apply take_prefix|apply merge_has].
  - by intros; left.
  - by intros; left.
  - by intros; left.
Qed.

Lemma ext_record id a claims rounds msgs :
  r_nodes R !! id = Some a →
  ext id a a R (mkR (r_nodes R) (r_votes R) (r_acks R) (r_lead R) claims rounds msgs).
Proof.
  intros Hid. split; cbn; try done; [by rewrite insert_id|by left|]. intros T L HL. by exists L.
Qed.

(** A step that only records something: the nodes and the history stay. *)
Lemma rinv_record id a claims rounds msgs :
  r_nodes R !! id = Some a →
  let R' := mkR (r_nodes R) (r_votes R) (r_acks R) (r_lead R) claims rounds msgs in
  (∀ t c n lt, (t, c, n, lt) ∈ claims → (t, c, n, lt) ∈ r_claims R ∨ claim_ok R' t c n lt) →
  (∀ p t c, (p, t, c) ∈ rounds → (p, t, c) ∈ r_rounds R ∨ round_ok R' p t c) →
  (∀ m, m ∈ msgs → m ∈ r_msgs R ∨ msg_ok R' m) → rinv R'.
Proof.
  intros Hid R' Hcl Hro Hms.
  pose proof (ext_record id a claims rounds msgs Hid) as Hext. fold R' in Hext.
  eapply (rinv_ext Hext Hinv); try done.
  - apply (node_ok_mono Hext Hinv); [done|done|by left].
  - intros t m i Hin Hi. destruct (ri_ack _ Hinv _ _ _ Hin) as (_ & L & b & _ & _ & Hb & _ & Hk).
    rewrite Hid in Hb. injection Hb as <-. by apply Hk.
  - by intros; left.
  - by intros; left.
  - intros T T' L1 L2 i HL1 HL2 _ Hi. left. exists L1. split_and!; [done|done|by exists L2].
  - by intros; left.
  - by intros; left.
Qed.

Lemma rinv_send id a mt t c :
  r_nodes R !! id = Some a → an_role a = RLeading mt → (id, t, c) ∈ r_rounds R →
  msg_ok R (mkMsg id t (an_term a) (an_log a) c).
Proof.
  intros Hid Hr Hround. destruct (no_leading _ _ _ (ri_node _ Hinv _ _ Hid) mt Hr) as (L & HL & Ho & Hlog & _).
  destruct (ri_round _ Hinv _ _ _ Hround) as [(b & Hb & Ht) (l & Hlen & Hs)].
  rewrite Hid in Hb. injection Hb as <-.
  pose proof (safe_in_lead Hinv _ _ _ _ Hs Ht HL) as Hp. rewrite Hlog in Hp.
  exists L. rewrite Hlog. split_and!; [done|done|done|done| |]; cbn.
  - apply prefix_length in Hp. lia.
  - apply prefix_take_eq in Hp. rewrite Hlen in Hp. by rewrite <-Hp.
Qed.
End steps.

Lemma rstep_ext R R' : rinv R → rstep R R' → ∃ id a a', ext id a a' R R'.
Proof.
  intros Hinv Hstep. destruct Hstep as [id a a' x Hm Hid Hok Hs|id a Hid|id a Hid|id a mt t c Hid Hr Hround];
    [exists id, a, a'|by exists id, a, a; apply ext_record..].
  pose proof Hs as Hs'. destruct Hs as [| | | | | | | |]; cbn in Hok.
  all: try (apply ext_plain; by try done).
  - by apply ext_elect.
  - by apply ext_append.
  - by apply ext_accept.
Qed.

Lemma rstep_inv R R' : rinv R → rstep R R' → rinv R'.
Proof.
  intros Hinv Hstep. destruct Hstep as [id a a' x Hm Hid Hok Hs|id a Hid|id a Hid|id a mt t c Hid Hr Hround].
  - destruct Hs as [h l c r h' r' Hle Hr|t o l c r|h l c t cand n lt Hle Hup|h l c V q|h l c V mt Hq Hmt
      |h l c mt e He|h l c m ok l' c' r' Ht Hret Hc Hb|h l c mt q i|h l c mt n Hn Ht Hq]; cbn in Hok.
    + by apply rinv_idle.
    + by apply rinv_campaign.
    + by apply rinv_vote.
    + destruct Hok. by apply rinv_count.
    + by apply rinv_elect.
    + by apply rinv_append.
    + apply rinv_accept; [done|done|done|by constructor].
    + by apply rinv_match.
    + by apply rinv_commit.
  - eapply (rinv_record Hinv); [done| |by left|by left].
    intros t c n lt [[= -> -> -> ->]|Hin]%elem_of_cons; [right|by left]. by exists a.
  - eapply (rinv_record Hinv); [done|by left| |by left].
    intros p t c [[= -> -> ->]|Hin]%elem_of_cons; [right|by left]. split; [by exists a|].
    destruct (no_commit _ _ _ (ri_node _ Hinv _ _ Hid)) as [Hc Hs].
    exists (take (an_commit a) (an_log a)). split; [|done]. rewrite length_take. lia.
  - eapply (rinv_record Hinv); [done|by left|by left|].
    intros m [->|Hin]%elem_of_cons; [right|by left]. by eapply (rinv_send Hinv).
Qed.

Lemma r_initial_inv R : r_initial R → rinv R.
Proof.
  intros [Hm Hi Hv Ha Hl Hc Hr Hms]. split.
  - intros p a Hp. destruct (Hi p a Hp) as (Hrole & Hlog & Hcom). split.
    + by eapply Hm.
    + intros k e. by rewrite Hlog.
    + rewrite Hlog, Hcom. split; [done|by left].
    + congruence.
    + intros x [V HV]. congruence.
    + congruence.
  - intros T L. by rewrite Hl, lookup_empty.
  - intros T T' L L' i. by rewrite Hl, lookup_empty.
  - intros x t c. rewrite Hv. set_solver.
  - intros x t c c'. rewrite Hv. set_solver.
  - intros x t m. rewrite Ha. set_solver.
  - intros t c n lt. rewrite Hc. by intros ?%elem_of_nil.
  - intros p t c. rewrite Hr. by intros ?%elem_of_nil.
  - intros m. rewrite Hms. by intros ?%elem_of_nil.
Qed.

(** A sender has reached the term in which it led. *)
Lemma sender_term R m a : rinv R → m ∈ r_msgs R → r_nodes R !! m_from m = Some a → m_lead_term m ≤ an_term a.
Proof.
  intros Hinv Hm Ha. destruct (ri_msg _ Hinv _ Hm) as (L & HL & Ho & _).
  destruct (lo_owner _ _ _ (ri_lead _ Hinv _ _ HL)) as (b & Hb & Hle & _).
  rewrite Ho, Ha in Hb. by injection Hb as <-.
Qed.

(** Entries are of terms in which someone led, which are positive. *)
Lemma good_positive R l : rinv R → good R l → Forall (λ e, 0 < le_term e) l.
Proof.
  intros Hinv Hg. apply Forall_lookup. intros k e He. destruct (Hg k e He) as (L & HL & _).
  apply (lo_pos _ _ _ (ri_lead _ Hinv _ _ HL)).
Qed.

Lemma msg_good R m : rinv R → m ∈ r_msgs R → good R (m_log m).
Proof.
  intros Hinv Hm. destruct (ri_msg _ Hinv _ Hm) as (L & HL & _ & Hp & _).
  eapply good_prefix; [done|]. apply (lo_good _ _ _ (ri_lead _ Hinv _ _ HL)).
Qed.

(** *** Safety across time *)

(** What was safe stays safe. *)
Lemma rsteps_safe R R' l t : rinv R → rtc rstep R R' → safe R l t → rinv R' ∧ safe R' l t.
Proof.
  intros Hinv Hsteps. revert Hinv. induction Hsteps as [R|R R1 R' Hstep _ IH]; intros Hinv Hs; [done|].
  destruct (rstep_ext _ _ Hinv Hstep) as (id & a & a' & Hext).
  apply IH; [by eapply rstep_inv|]. by eapply safe_mono.
Qed.

(** Logs that cannot be lost share their entries. *)
Lemma safe_lookup R l l' t t' j e :
  rinv R → safe R l t → safe R l' t' → l !! j = Some e → (j < length l')%nat → l' !! j = Some e.
Proof.
  intros Hinv Hl Hl' He Hj. destruct (safe_comparable Hinv _ _ _ _ Hl Hl') as [Hp|Hp]; [by eapply prefix_lookup_Some|].
  destruct (lookup_lt_is_Some_2 _ _ Hj) as [e' He']. rewrite He'. symmetry. rewrite <-He.
  by eapply prefix_lookup_Some.
Qed.

(** While it leads in one term, a node only appends. *)
Lemma rsteps_lead R R' T L :
  rinv R → rtc rstep R R' → r_lead R !! T = Some L →
  rinv R' ∧ ∃ L', r_lead R' !! T = Some L' ∧ ls_log L `prefix_of` ls_log L'.
Proof.
  intros Hinv Hsteps. revert L Hinv. induction Hsteps as [R|R R1 R' Hstep _ IH]; intros L Hinv HL; [split; [done|by exists L]|].
  destruct (rstep_ext _ _ Hinv Hstep) as (id & a & a' & Hext).
  destruct (lead_mono Hext _ _ HL) as (L1 & HL1 & _ & Hp1).
  destruct (IH L1 (rstep_inv _ _ Hinv Hstep) HL1) as (? & L' & ? & ?). split; [done|]. exists L'. split; [done|by etrans].
Qed.
Lemma leading_appends R R' p p' a a' mt mt' :
  rinv R → rtc rstep R R' → r_nodes R !! p = Some a → r_nodes R' !! p' = Some a' →
  an_role a = RLeading mt → an_role a' = RLeading mt' → an_term a = an_term a' → an_log a `prefix_of` an_log a'.
Proof.
  intros Hinv Hsteps Ha Ha' Hr Hr' Ht.
  destruct (no_leading _ _ _ (ri_node _ Hinv _ _ Ha) mt Hr) as (L & HL & _ & <- & _).
  destruct (rsteps_lead _ _ _ _ Hinv Hsteps HL) as (Hinv' & L' & HL' & Hp).
  destruct (no_leading _ _ _ (ri_node _ Hinv' _ _ Ha') mt' Hr') as (L2 & HL2 & _ & <- & _).
  rewrite <-Ht, HL' in HL2. by injection HL2 as <-.
Qed.

(** Two nodes of one run, at one time or at different times, have committed
    the same entries. *)
Lemma committed_agree R R' p p' a a' i :
  rinv R → rtc rstep R R' → r_nodes R !! p = Some a → r_nodes R' !! p' = Some a' →
  (i < an_commit a)%nat → (i < an_commit a')%nat → an_log a !! i = an_log a' !! i ∧ is_Some (an_log a !! i).
Proof.
  intros Hinv Hsteps Ha Ha' Hi Hi'. destruct (no_commit _ _ _ (ri_node _ Hinv _ _ Ha)) as [Hc Hs].
  destruct (rsteps_safe _ _ _ _ Hinv Hsteps Hs) as [Hinv' Hs1].
  destruct (no_commit _ _ _ (ri_node _ Hinv' _ _ Ha')) as [Hc' Hs'].
  rewrite <-(lookup_take_lt (an_log a) (an_commit a)), <-(lookup_take_lt (an_log a') (an_commit a')) by done.
  assert (is_Some (take (an_commit a) (an_log a) !! i)) as [e He].
  { apply lookup_lt_is_Some_2. rewrite length_take. lia. }
  assert (is_Some (take (an_commit a') (an_log a') !! i)) as [e' He'].
  { apply lookup_lt_is_Some_2. rewrite length_take. lia. }
  split; [|by exists e]. destruct (safe_comparable Hinv' _ _ _ _ Hs1 Hs') as [Hp|Hp].
  - rewrite He. symmetry. by eapply prefix_lookup_Some.
  - rewrite He'. by eapply prefix_lookup_Some.
Qed.

(** What a node has committed is in the log of every leader of its term or a
    later one, from then on. *)
Lemma committed_in_leader R R' p p' a a' mt :
  rinv R → rtc rstep R R' → r_nodes R !! p = Some a → r_nodes R' !! p' = Some a' →
  an_role a' = RLeading mt → an_term a ≤ an_term a' →
  take (an_commit a) (an_log a) `prefix_of` an_log a'.
Proof.
  intros Hinv Hsteps Ha Ha' Hr Ht. destruct (no_commit _ _ _ (ri_node _ Hinv _ _ Ha)) as [Hc Hs].
  destruct (rsteps_safe _ _ _ _ Hinv Hsteps Hs) as [Hinv' Hs1].
  destruct (no_leading _ _ _ (ri_node _ Hinv' _ _ Ha') mt Hr) as (L & HL & _ & <- & _).
  by eapply safe_in_lead.
Qed.
End protocol.
