(* ===== verification/RaftLog.v ===== *)
(** Logs as lists: without snapshots the view of a store holds a list of
    entries, and log reconciliation, also when it is interrupted, is the
    [merge] of the abstract protocol. *)
From S2P Require Import Prelude Machine Types Wire Storage Timing Node VoteSpec LogSpec Election Raft.

(** ** Views that hold a list *)

Definition log_is (v : LogView) (l : list LogEntry) : Prop :=
  lv_snap_index v = 0 ∧ lv_snap_term v = 0 ∧
  ∀ i, lv_log v !! i = if i =? 0 then None else l !! N.to_nat (i - 1).

(** Entries of real terms: 0 stands for an absent entry. *)
Definition real (l : list LogEntry) : Prop := Forall (λ e, 0 < le_term e) l.

Lemma real_lookup l k e : real l → l !! k = Some e → 0 < le_term e.
Proof. intros Hr He. by eapply (Forall_lookup_1 _ l) in Hr. Qed.
Lemma real_take l k : real l → real (take k l).
Proof. apply Forall_take. Qed.

Lemma run_from_indices j m : (∀ i e, m !! i = Some e → le_index e = j + N.of_nat i) → run_from j m.
Proof.
  revert j. induction m as [|e m IH]; intros j Hm; [done|]. split.
  - rewrite (Hm 0%nat e) by done. lia.
  - apply IH. intros i x Hx. rewrite (Hm (S i) x) by done. lia.
Qed.
Lemma run_from_suffix k c :
  (∀ k e, c !! k = Some e → le_index e = N.of_nat k + 1) → run_from (N.of_nat k + 1) (drop k c).
Proof.
  intros Hidx. apply run_from_indices. intros i e. rewrite lookup_drop. intros He.
  rewrite (Hidx _ _ He). lia.
Qed.

Section views.
Context {v : LogView} {l : list LogEntry} (Hl : log_is v l).

Lemma log_is_lookup k : lv_log v !! (N.of_nat k + 1) = l !! k.
Proof.
  destruct Hl as (_ & _ & Hi). rewrite Hi. destruct (N.eqb_spec (N.of_nat k + 1) 0); [lia|].
  f_equal. lia.
Qed.
Lemma log_is_Some i e : lv_log v !! i = Some e ↔ i ≠ 0 ∧ l !! N.to_nat (i - 1) = Some e.
Proof. destruct Hl as (_ & _ & Hi). rewrite Hi. destruct (N.eqb_spec i 0); naive_solver. Qed.
Lemma log_is_spans : spans v (N.of_nat (length l)).
Proof.
  intros i Hi. destruct Hl as (Hs & _ & Hlk). rewrite Hlk.
  destruct (N.eqb_spec i 0); [lia|]. rewrite lookup_lt_is_Some. lia.
Qed.
Lemma log_is_last : lv_last_index v = N.of_nat (length l).
Proof. apply spans_last; [apply log_is_spans|]. destruct Hl as [-> _]. lia. Qed.
Lemma log_is_max : max_key (lv_log v) = N.of_nat (length l).
Proof. pose proof log_is_last as Hm. unfold lv_last_index in Hm. destruct Hl as (Hs & _). lia. Qed.
Lemma log_is_well_formed : real l → well_formed v.
Proof.
  intros Hr. split; [rewrite log_is_last; apply log_is_spans|].
  intros i e [_ He]%log_is_Some. by eapply real_lookup.
Qed.
Lemma log_is_term_at k : term_at v (N.of_nat k) = if decide (k = 0)%nat then 0 else from_option le_term 0 (l !! pred k).
Proof.
  unfold term_at. destruct Hl as (-> & _ & Hi). destruct k as [|k]; [done|].
  destruct (N.eqb_spec (N.of_nat (S k)) 0); [lia|]. rewrite Hi. destruct (N.eqb_spec (N.of_nat (S k)) 0); [lia|].
  do 2 f_equal. cbn. lia.
Qed.
Lemma log_is_last_term : real l → lv_last_term v = last_term l.
Proof.
  intros Hr. unfold lv_last_term, last_term. rewrite log_is_max, last_lookup.
  destruct (length l) as [|k] eqn:Hlen.
  - destruct l; [|done]. destruct Hl as (_ & -> & Hi). rewrite Hi. done.
  - destruct Hl as (_ & -> & Hi). rewrite Hi. destruct (N.eqb_spec (N.of_nat (S k)) 0); [lia|].
    replace (N.to_nat (N.of_nat (S k) - 1)) with k by lia. cbn.
    destruct (l !! k) as [e|] eqn:He; [|done]. cbn.
    pose proof (real_lookup _ _ _ Hr He). by destruct (N.ltb_spec 0 (le_term e)); [|lia].
Qed.
Lemma log_is_indices k e : view_ok v → l !! k = Some e → le_index e = N.of_nat k + 1 ∧ wire_ok e.
Proof. intros Hok He. rewrite <-log_is_lookup in He. by apply (vo_log _ Hok) in He. Qed.
Lemma log_is_wire : view_ok v → Forall wire_ok l.
Proof.
  intros Hok. apply Forall_forall. intros e [k Hk]%list_elem_of_In%list_elem_of_lookup.
  by eapply log_is_indices.
Qed.
(** The entries from an index on, as a request carries them. *)
Lemma log_is_range k : view_ok v → lv_range v (N.of_nat k + 1) (lv_last_index v) = drop k l.
Proof.
  intros Hok. unfold lv_range, u64_range. rewrite log_is_last.
  replace (N.to_nat (N.of_nat (length l) + 1 - (N.of_nat k + 1))) with (length l - k)%nat by lia.
  destruct (omap_all_run (lv_log v) (length l - k) (N.of_nat k + 1)) as (_ & Hlen & Hlk).
  - intros i e Hi. by destruct (vo_log _ Hok _ _ Hi).
  - intros i Hlo Hhi. destruct Hl as (_ & _ & Hi). rewrite Hi. destruct (N.eqb_spec i 0); [lia|].
    apply lookup_lt_is_Some_2. lia.
  - apply list_eq_same_length with (length l - k)%nat; [by rewrite length_drop|done|].
    intros i x y Hi Hx Hy. apply Hlk in Hx. rewrite lookup_drop in Hy.
    replace (N.of_nat k + 1 + N.of_nat i) with (N.of_nat (k + i) + 1) in Hx by lia.
    rewrite log_is_lookup in Hx. congruence.
Qed.
End views.

Lemma log_is_ext v v' l :
  lv_log v' = lv_log v → lv_snap_index v' = lv_snap_index v → lv_snap_term v' = lv_snap_term v →
  log_is v l → log_is v' l.
Proof. unfold log_is. by intros -> -> ->. Qed.
Lemma log_is_take v l k : log_is v l → (0 < k)%nat →
  log_is (set_log (log_below (N.of_nat k) (lv_log v)) v) (take (pred k) l).
Proof.
  intros (Hs & Ht & Hi) Hk. split_and!; [done|done|]. intros i. cbn. rewrite lookup_log_below, Hi.
  destruct (N.eqb_spec i 0) as [->|Hne]; [by destruct (0 <? _)|].
  destruct (N.ltb_spec i (N.of_nat k)).
  - rewrite lookup_take_lt by lia. done.
  - rewrite lookup_take_ge by lia. done.
Qed.
Lemma log_is_append v l es :
  log_is v l → run_from (N.of_nat (length l) + 1) es →
  log_is (set_log (log_insert (lv_log v) es) v) (l ++ es).
Proof.
  intros (Hs & Ht & Hi) Hrun. split_and!; [done|done|]. intros i. cbn.
  rewrite (log_insert_run _ _ _ i Hrun), Hi. unfold run_at.
  destruct (N.eqb_spec i 0) as [->|Hne].
  - by destruct (N.leb_spec (N.of_nat (length l) + 1) 0); [lia|].
  - destruct (N.leb_spec (N.of_nat (length l) + 1) i) as [Hle|Hgt].
    + rewrite lookup_app_r by lia.
      replace (N.to_nat (i - 1) - length l)%nat with (N.to_nat (i - (N.of_nat (length l) + 1))) by lia.
      destruct (es !! _); [done|]. apply lookup_ge_None. lia.
    + rewrite lookup_app_l by lia. done.
Qed.

(** ** Reconciliation on lists *)

(** Entries of one index and term have the same past. *)
Definition agreeing (l c : list LogEntry) : Prop :=
  ∀ k x y, l !! k = Some x → c !! k = Some y → le_term x = le_term y → take (S k) l = take (S k) c.

(** The term a leader with the log [c] sends for the anchor [pi]. *)
Definition anchor_term (c : list LogEntry) (pi : nat) : Term :=
  if decide (pi = 0)%nat then 0 else from_option le_term 0 (c !! pred pi).

Lemma take_full_prefix (l c : list LogEntry) :
  take (Nat.min (length l) (length c)) l = take (Nat.min (length l) (length c)) c →
  l `prefix_of` c ∨ c `prefix_of` l.
Proof.
  intros Heq. destruct (Nat.le_ge_cases (length l) (length c)).
  - left. rewrite Nat.min_l, (take_ge l) in Heq by lia. rewrite Heq. apply take_prefix.
  - right. rewrite Nat.min_r, (take_ge c) in Heq by lia. rewrite <-Heq. apply take_prefix.
Qed.
Lemma merge_append (l c : list LogEntry) :
  l `prefix_of` c ∨ c `prefix_of` l → l ++ drop (length l) c = merge l c.
Proof.
  unfold merge. intros [[m ->]|Hp].
  - rewrite drop_app_length. case_decide as Hd; [|done].
    apply prefix_length in Hd. rewrite length_app in Hd. destruct m; [by rewrite app_nil_r|cbn in Hd; lia].
  - rewrite decide_True by done. rewrite drop_ge; [by rewrite app_nil_r|by apply prefix_length].
Qed.

Lemma commit_to_le lc c last i : commit_to lc c last = Some i → i ≤ lc.
Proof. unfold commit_to. destruct (c <? lc); [|done]. intros [= <-]. lia. Qed.

(** What an interrupted reconciliation leaves on disk. *)
Definition interrupted pi pt es (lc : LogIndex) v (vd : LogView) : Prop :=
  vd = v ∨ consistent v pi pt = true ∧
  (vd = cut es v ∨ ∃ new o, select_new (lv_last_index (cut es v) + 1) es = Ok (Some new) ∧
     (∀ c, o = Some c → c ≤ lc) ∧
     vd = with_commit o (set_log (log_insert (lv_log (cut es v)) new) (cut es v))).

Section reconcile.
Context (v : LogView) (l c : list LogEntry) (pi : nat).
Context (Hl : log_is v l) (Hr : real l) (Hagree : agreeing l c).
Context (Hidx : ∀ k e, c !! k = Some e → le_index e = N.of_nat k + 1).

Lemma conflicts_list k e :
  c !! k = Some e → conflicts v e = true ↔ ∃ x, l !! k = Some x ∧ le_term x ≠ le_term e.
Proof.
  intros He. unfold conflicts. rewrite (Hidx _ _ He).
  replace (N.of_nat k + 1) with (N.of_nat (S k)) by lia. rewrite (log_is_term_at Hl), decide_False by lia.
  rewrite andb_true_iff, !negb_true_iff, !N.eqb_neq. cbn [pred].
  destruct (l !! k) as [x|] eqn:Hx; cbn [from_option].
  - pose proof (real_lookup _ _ _ Hr Hx). split; [intros [_ ?]; by exists x|].
    intros (y & [= <-] & ?). split; [lia|done].
  - split; [by intros []|]. by intros (? & ? & _).
Qed.

Lemma consistent_anchored :
  consistent v (N.of_nat pi) (anchor_term c pi) = true → (pi ≤ length l)%nat ∧ take pi l = take pi c.
Proof.
  unfold consistent, anchor_term. rewrite (log_is_last Hl), (log_is_term_at Hl).
  destruct pi as [|k]; [intros _; split; [lia|done]|]. destruct (N.eqb_spec (N.of_nat (S k)) 0); [lia|]. cbn [orb].
  rewrite !decide_False by lia. cbn [pred].
  intros [Hle%N.leb_le Ht%N.eqb_eq]%andb_true_iff.
  destruct (lookup_lt_is_Some_2 l k) as [x Hx]; [lia|]. rewrite Hx in Ht. cbn in Ht.
  pose proof (real_lookup _ _ _ Hr Hx). split; [lia|].
  destruct (c !! k) as [y|] eqn:Hy; cbn in Ht; [|lia]. by eapply Hagree.
Qed.

Lemma anchored_length : (pi ≤ length l)%nat → take pi l = take pi c → (pi ≤ length c)%nat.
Proof. intros Hle Heq%(f_equal length). rewrite !length_take in Heq. lia. Qed.

(** The scan for conflicts cuts the list; what is appended then makes it the
    merge. *)
Lemma cut_list :
  (pi ≤ length l)%nat → take pi l = take pi c →
  ∃ k, (pi ≤ k ≤ length l)%nat ∧ log_is (cut (drop pi c) v) (take k l) ∧
    take k l ++ drop k c = merge l c ∧ retains l c (take k l).
Proof.
  intros Hpi Hanchor.
  assert (∀ k e, drop pi c !! k = Some e → conflicts v e = false → (pi + k < length l)%nat →
    take (S (pi + k)) l = take (S (pi + k)) c) as Hno.
  { intros k e He Hc Hlt. rewrite lookup_drop in He.
    destruct (lookup_lt_is_Some_2 l (pi + k)) as [x Hx]; [done|]. eapply Hagree; [done|done|].
    destruct (decide (le_term x = le_term e)) as [?|Hne]; [done|].
    assert (conflicts v e = true); [|congruence]. apply (conflicts_list _ _ He). by exists x. }
  assert (∀ j, (pi ≤ j)%nat → (j ≤ length l)%nat → (j ≤ length c)%nat →
    (∀ k e, drop pi c !! k = Some e → (pi + k < j)%nat → conflicts v e = false) →
    take j l = take j c) as Hupto.
  { intros j Hj Hjl Hjc Hall. destruct (decide (j = pi)) as [->|Hne]; [done|].
    destruct (lookup_lt_is_Some_2 (drop pi c) (pred j - pi)) as [e He]; [rewrite length_drop; lia|].
    specialize (Hno _ _ He). replace (S (pi + (pred j - pi))) with j in Hno by lia.
    apply Hno; [|lia]. eapply Hall; [done|lia]. }
  pose proof (anchored_length Hpi Hanchor) as Hpc.
  destruct (cut_cases (drop pi c) v) as [[-> Hall]|(es1 & e & es2 & Hes & Hall & Hce & ->)].
  - exists (length l). rewrite take_ge by lia. split_and!; [lia|lia|done| |].
    + apply merge_append, take_full_prefix, Hupto; [lia..|].
      intros k e He _. apply Hall. by eapply list_elem_of_lookup_2.
    + split; [by left|done].
  - assert (c !! (pi + length es1)%nat = Some e) as He.
    { rewrite <-lookup_drop, Hes. by rewrite lookup_app_r, Nat.sub_diag by lia. }
    remember (pi + length es1)%nat as k eqn:Hk.
    pose proof (proj1 (conflicts_list _ _ He) Hce) as (x & Hx & Hne).
    apply lookup_lt_Some in Hx as Hkl. apply lookup_lt_Some in He as Hkc.
    assert (take k l = take k c) as Htake.
    { apply Hupto; [lia..|]. intros i y Hy Hi. apply Hall. rewrite Hes in Hy.
      rewrite lookup_app_l in Hy by lia. by eapply list_elem_of_lookup_2. }
    assert (¬ c `prefix_of` l) as Hnp.
    { intros Hp. pose proof (prefix_lookup_Some _ _ _ _ He Hp). congruence. }
    assert (∀ y, y `prefix_of` l → y `prefix_of` c → y `prefix_of` take k l) as Hshared.
    { intros y Hyl Hyc. apply (prefix_by_length y (take k l) l); [done|apply take_prefix|]. rewrite length_take.
      destruct (decide (length y ≤ k)%nat) as [|Hgt]; [lia|].
      destruct (lookup_lt_is_Some_2 y k) as [z Hz]; [lia|].
      pose proof (prefix_lookup_Some _ _ _ _ Hz Hyl). pose proof (prefix_lookup_Some _ _ _ _ Hz Hyc).
      congruence. }
    exists k. split_and!; [lia|lia| | |].
    + rewrite (Hidx _ _ He). replace (N.of_nat k + 1) with (N.of_nat (S k)) by lia.
      apply (log_is_take v l (S k)); [done|lia].
    + rewrite Htake, take_drop. unfold merge. by rewrite decide_False.
    + split; [left; apply take_prefix|]. intros y Hyl [Hyc|Hcy]; [by apply Hshared|].
      destruct Hnp. by etrans.
Qed.

(** The scan and the append, on views. *)
Lemma reconcile_steps new :
  consistent v (N.of_nat pi) (anchor_term c pi) = true →
  (select_new (lv_last_index (cut (drop pi c) v) + 1) (drop pi c) = Ok new →
   ∃ es, new = Some es ∧ log_is (set_log (log_insert (lv_log (cut (drop pi c) v)) es) (cut (drop pi c) v)) (merge l c)) ∧
  ∃ l', log_is (cut (drop pi c) v) l' ∧ retains l c l'.
Proof.
  intros Hc. destruct (consistent_anchored Hc) as [Hpi Hanchor].
  destruct (cut_list Hpi Hanchor) as (k & Hk & Hcut & Hmerge & Hret).
  split; [|by exists (take k l)]. rewrite (log_is_last Hcut), length_take_le by lia.
  intros Hsel. pose proof (run_from_suffix pi c Hidx) as Hrun.
  apply (select_new_run _ _ _ _ Hrun) in Hsel; [|lia].
  replace (N.to_nat (N.of_nat k + 1 - (N.of_nat pi + 1))) with (k - pi)%nat in Hsel by lia.
  rewrite drop_drop in Hsel. replace (pi + (k - pi))%nat with k in Hsel by lia.
  eexists. split; [done|]. rewrite <-Hmerge. apply log_is_append; [done|].
  rewrite length_take_le by lia. by apply run_from_suffix.
Qed.

Lemma cut_fields es w : hs (cut es w) = hs w ∧ lv_committed (cut es w) = lv_committed w.
Proof. destruct (cut_cases es w) as [[-> _]|(? & ? & ? & _ & _ & _ & ->)]; done. Qed.
Lemma with_commit_is o w m :
  log_is w m → log_is (with_commit o w) m ∧ hs (with_commit o w) = hs w ∧
  lv_committed (with_commit o w) = default (lv_committed w) o.
Proof. by destruct o. Qed.

(** An answered request: refused, or the log is the merge. *)
Lemma reconcile_list lc res v' committed' :
  reconcile_view (N.of_nat pi) (anchor_term c pi) (drop pi c) lc v (lv_committed v)
    = Ok (res, v', committed') →
  rr_success res = false ∧ v' = v ∧ committed' = lv_committed v ∨
  rr_success res = true ∧ log_is v' (merge l c) ∧ hs v' = hs v ∧ lv_committed v' = committed' ∧
    (committed' = lv_committed v ∨ committed' ≤ lc).
Proof.
  unfold reconcile_view. destruct (consistent v _ _) eqn:Hc; cbn [negb].
  2: { intros [= <- <- <-]. by left. }
  cbn. destruct (index_add _ 1) as [next|] eqn:Hn; cbn; [|done]. apply newtype_add_Ok in Hn as [-> _].
  destruct (select_new _ _) as [sel|] eqn:Hsel; cbn; [|done].
  destruct (reconcile_steps sel Hc) as [Hsteps _]. destruct (Hsteps Hsel) as (es & -> & Hm).
  set (o := commit_to _ _ _). destruct (with_commit_is o _ _ Hm) as (Hlog & Hhs & Hcom).
  destruct (cut_fields (drop pi c) v) as [Hchs Hccom].
  intros [= <- <- <-]. right. cbn in Hhs, Hcom. split_and!; [done|done| | |].
  - rewrite Hhs. exact Hchs.
  - rewrite Hcom. cbn. by rewrite Hccom.
  - destruct o as [i|] eqn:Ho; cbn; [right; by eapply commit_to_le|by left].
Qed.

(** An interrupted one: part of the work, the commit index last. *)
Lemma interrupted_list lc vd :
  interrupted (N.of_nat pi) (anchor_term c pi) (drop pi c) lc v vd →
  ∃ l', log_is vd l' ∧ hs vd = hs v ∧ retains l c l' ∧
    (lv_committed vd = lv_committed v ∨ l' = merge l c ∧ lv_committed vd ≤ lc).
Proof.
  destruct (cut_fields (drop pi c) v) as [Hchs Hccom].
  intros [->|[Hc [->|(new & o & Hsel & Ho & ->)]]].
  - exists l. split_and!; [done|done| |by left]. split; [by left|done].
  - destruct (reconcile_steps None Hc) as [_ (l' & Hl' & Hret)]. exists l'. auto.
  - destruct (reconcile_steps (Some new) Hc) as [Hsteps _]. destruct (Hsteps Hsel) as (es & [= <-] & Hm).
    destruct (with_commit_is o _ _ Hm) as (Hlog & Hhs & Hcom). exists (merge l c).
    split_and!; [done|by rewrite Hhs|apply retains_merge|]. rewrite Hcom.
    destruct o as [i|]; cbn; [right; auto|by left].
Qed.
End reconcile.

(** ** Reconciliation on a store

    A healthy node's reads and its disk agree; when an operation fails, what
    counts is what the disk is left with. *)

Section store.
Context {S : Type} `{LogStorageLaws S}.
Implicit Types (s : S) (v : LogView).

Definition leaves (s : S) (P : LogView → Prop) : Prop := ∃ v vd, held s v vd ∧ P vd.

Lemma leaves_held s v vd (P : LogView → Prop) : held s v vd → P vd → leaves s P.
Proof. intros ? ?. by exists v, vd. Qed.
Lemma leaves_mono s (P Q : LogView → Prop) : leaves s P → (∀ vd, P vd → Q vd) → leaves s Q.
Proof. intros (v & vd & ? & ?) HPQ. exists v, vd. auto. Qed.

(** A write of a healthy node. *)
Lemma live_write (m : st S LogStorageError unit) s v v' vs :
  held s v v → wp m (written v') (failed s vs) s →
  wp (node_write m) (λ _ s', held s' v' v') (λ _ s', leaves s' (λ vd, vd = v ∨ vd ∈ vs)) s.
Proof.
  intros [_ Hd] Hm. apply wp_map_err. wp_use Hm; [done|].
  intros e s' (_ & (v1 & _ & Hv1) & Hdisk). destruct (Hdisk v Hd) as (vd & Hvd & Hor).
  by exists v1, vd.
Qed.

Lemma cut_conflict_live es s v :
  held s v v → Forall wire_ok es →
  wp (cut_conflict es) (λ _ s', held s' (cut es v) (cut es v))
    (λ _ s', leaves s' (λ vd, vd = v ∨ vd = cut es v)) s.
Proof.
  intros Hh Hes. induction Hes as [|e es He _ IH]; cbn [cut_conflict cut].
  { by apply wp_ret. }
  wp_step. apply wp_reads; [|intros; eapply leaves_held; [done|by left]].
  intros t Ht. apply (get_term_at_view _ _ _ _ (proj1 Hh)) in Ht as ->; [|apply He]. unfold conflicts.
  destruct (negb _ && negb _); [|by apply IH].
  set (v' := set_log _ v). apply wp_map_err.
  eapply wp_mono; [apply (truncate_log_law _ _ _ (proj1 Hh)), He|..].
  - intros _ s' [Hr [Hd|[-> Heq]]]; [done|]. fold v' in Hr, Heq |- *. by rewrite Heq.
  - intros _ s' (_ & (v1 & _ & Hv1) & Hdisk). destruct (Hdisk v (proj2 Hh)) as (vd & Hvd & Hor).
    exists v1, vd. split; [done|]. destruct Hor as [->|Hin]; [by left|].
    apply elem_of_cons in Hin as [->|Hin]; [by left|]. apply list_elem_of_singleton in Hin as ->. by right.
Qed.

Lemma persist_reconciled_live new o s (n : RaftNode Follower) v :
  held s v v → Forall wire_ok new → (∀ c, o = Some c → U64 c) →
  let v1 := set_log (log_insert (lv_log v) new) v in
  wp (persist_reconciled new o)
    (λ _ p, held p.1 (with_commit o v1) (with_commit o v1) ∧
            rn_last_committed p.2 = default (rn_last_committed n) o)
    (λ _ p, leaves p.1 (λ vd, vd = v ∨ vd = v1 ∨ vd = with_commit o v1)) (s, n).
Proof.
  intros Hh Hnew Ho v1. unfold persist_reconciled.
  destruct new as [|e new], o as [c|]; cbn [with_commit default];
    unfold v1; rewrite ?(eq_refl : log_insert (lv_log v) [] = lv_log v), ?set_log_id.
  - wp_steps. apply wp_zoom.
    eapply wp_mono; [eapply live_write; [done|apply save_last_committed_law; [apply Hh|auto]]|..]; cbn beta.
    + intros _ s' Hs'. unfold set_committed_field. by wp_steps.
    + intros _ s' Hs'. eapply leaves_mono; [done|]. set_solver.
  - by apply wp_ret.
  - wp_steps. apply wp_zoom.
    eapply wp_mono; [eapply live_write; [done|apply append_entries_and_advance_commit_law; [apply Hh|done|auto]]|..]; cbn beta.
    + intros _ s' Hs'. unfold set_committed_field. by wp_steps.
    + intros _ s' Hs'. eapply leaves_mono; [done|]. set_solver.
  - apply wp_zoom.
    eapply wp_mono; [eapply live_write; [done|apply append_entries_law; [apply Hh|done]]|..]; cbn beta.
    + done.
    + intros _ s' Hs'. eapply leaves_mono; [done|]. set_solver.
Qed.

Lemma reconciled_live b s (n : RaftNode Follower) v (P : LogView → Prop) :
  held s v v → P v →
  wp (reconciled b) (λ res p, res = mkReconciliation b (lv_last_index v) ∧ p = (s, n))
    (λ _ p, leaves p.1 P) (s, n).
Proof.
  intros Hh HP. unfold reconciled. wp_steps. apply wp_zoom.
  eapply node_reads_spec; [apply last_log_index_law, Hh|by apply wp_ret|].
  intros _ _. by eapply leaves_held.
Qed.

Lemma commit_advance_live new (committed lc : LogIndex) s (n : RaftNode Follower) v (P : LogView → Prop) :
  held s v v → P v →
  wp (if committed <? lc then
        last_new_idx ← (match list.last new with
                        | Some e => mret (le_index e)
                        | None => on_store (node_reads last_log_index)
                        end);
        mret (Some (N.min lc last_new_idx))
      else mret None)
    (λ o p, o = commit_to lc committed
              (match list.last new with Some e => le_index e | None => lv_last_index v end) ∧
            p = (s, n))
    (λ _ p, leaves p.1 P) (s, n).
Proof.
  intros Hh HP. unfold commit_to. destruct (committed <? lc); [|by apply wp_ret].
  wp_steps. destruct (list.last new); [by wp_steps|]. apply wp_zoom.
  eapply node_reads_spec; [apply last_log_index_law, Hh|by wp_steps|].
  intros _ _. by eapply leaves_held.
Qed.

Lemma reconcile_log_live pi pt es lc s (n : RaftNode Follower) v :
  held s v v → Forall wire_ok es → U64 lc →
  wp (reconcile_log pi pt es lc)
    (λ res p, ∃ v', reconcile_view pi pt es lc v (rn_last_committed n)
                      = Ok (res, v', rn_last_committed p.2) ∧ held p.1 v' v')
    (λ _ p, leaves p.1 (interrupted pi pt es lc v)) (s, n).
Proof.
  intros Hh Hes Hlc. unfold reconcile_log, reconcile_view. wp_steps.
  assert (interrupted pi pt es lc v v) as Hkeep by (by left).
  apply wp_zoom, wp_reads; [|intros; by eapply leaves_held]. intros b Hb.
  apply (verify_log_consistency_view _ _ _ _ _ (proj1 Hh)) in Hb as ->. cbn [fst snd].
  destruct (consistent v pi pt) eqn:Hcons; cbn [negb].
  2: { eapply wp_mono; [by apply (reconciled_live false s n v (interrupted pi pt es lc v))| |done].
       intros res p [-> ->]. by exists v. }
  assert (interrupted pi pt es lc v (cut es v)) as Hcut by (right; split; [done|by left]).
  wp_steps. apply wp_zoom. eapply wp_mono; [by apply cut_conflict_live|..]; cbn beta.
  2: { intros _ s1 Hs1. eapply leaves_mono; [done|]. by intros vd [->| ->]. }
  intros [] s1 Hh1. cbn [fst snd]. wp_steps. apply wp_zoom.
  eapply node_reads_spec; [apply last_log_index_law, Hh1| |intros; by eapply leaves_held]. cbn [fst snd].
  wp_steps. apply wp_zoom, wp_lift; [|intros; by eapply leaves_held]. intros next Hnext.
  destruct (index_add _ 1) as [next'|] eqn:Hadd; [|done]. injection Hnext as ->. cbn [fst snd].
  pose proof Hadd as Hadd'. apply newtype_add_Ok in Hadd' as [Hn _].
  wp_steps. apply wp_zoom, wp_lift; [|intros; by eapply leaves_held]. intros sel Hsel. cbn [fst snd].
  destruct (select_new next es) as [sel'|] eqn:Hs; [|done]. injection Hsel as ->.
  destruct sel as [new|].
  2: { eapply wp_mono; [by apply (reconciled_live false s1 n (cut es v) (interrupted pi pt es lc v))| |done].
       intros res p [-> ->]. exists (cut es v). cbn. by rewrite Hs. }
  wp_steps. cbn [fst snd].
  eapply wp_mono; [by apply (commit_advance_live new (rn_last_committed n) lc s1 n (cut es v)
    (interrupted pi pt es lc v))| |done].
  intros o p [Ho ->]. wp_steps.
  assert (∀ o', (o' = None ∨ o' = o) → interrupted pi pt es lc v
    (with_commit o' (set_log (log_insert (lv_log (cut es v)) new) (cut es v)))) as Hint.
  { intros o' Ho'. right. split; [done|]. right. exists new, o'. rewrite <-Hn. split_and!; [done| |done].
    intros c ->. destruct Ho' as [|Ho']; [done|]. rewrite <-Ho' in Ho. symmetry in Ho. by apply commit_to_le in Ho. }
  eapply wp_mono; [apply (persist_reconciled_live new o s1 n (cut es v)); [done| |]|..]; cbn beta.
  - by eapply select_new_ok.
  - intros c ->. symmetry in Ho. by eapply commit_to_U64.
  - intros [] [s2 n2] [Hv2 Hc2]. cbn [fst snd] in *.
    eapply wp_mono; [apply (reconciled_live true s2 n2 _ (interrupted pi pt es lc v) Hv2)| |done].
    + apply Hint. by right.
    + intros res p [-> ->]. eexists. split; [|done]. cbn. by rewrite Hs, Hc2, Ho.
  - intros _ p Hp. eapply leaves_mono; [done|]. intros vd [->|[->| ->]]; [done| |].
    + apply (Hint None). by left.
    + apply Hint. by right.
Qed.
End store.
