(* ===== verification/RaftSpec.v ===== *)
(** The logical node refines the abstract replication protocol: without
    snapshots each operation of engine.rs and of the consensus tasks, whether
    it returns or halts, is a sequence of steps of [Raft.nstep]. *)
From S2P Require Import Prelude Machine Types Wire Storage Timing Node Engine Consensus VoteSpec LogSpec Election EngineSpec Cluster NodeProps Raft RaftLog.

Definition rrole (r : RoleState) : RRole :=
  match r with
  | RS_Candidate n => RCampaign (ca_votes_received (rn_state n))
  | RS_Leader n => RLeading (ld_match_index (rn_state n))
  | RS_Poisoned => RDown
  | _ => RIdle
  end.

(** The view shows the node's hard state, log and commit index. *)
Definition shows (v : LogView) (a : ANode) : Prop :=
  hs v = an_hs a ∧ lv_committed v = N.of_nat (an_commit a) ∧ log_is v (an_log a).

Definition with_hs (h : hard) (r : RRole) (a : ANode) : ANode := mkA h (an_log a) (an_commit a) r.
Definition as_down (a : ANode) : ANode := with_hs (an_hs a) RDown a.

Lemma shows_hard v a t o r :
  shows v a → shows (set_hard_state t o v) (with_hs (t, o) r a).
Proof. intros (_ & Hc & Hl). split_and!; [done|done|]. by eapply log_is_ext. Qed.
Lemma shows_role v a a' :
  shows v a → an_hs a' = an_hs a → an_log a' = an_log a → an_commit a' = an_commit a → shows v a'.
Proof. unfold shows. by intros ? -> -> ->. Qed.
Lemma shows_term v a : shows v a → lv_term v = an_term a.
Proof. intros [Hh _]. unfold an_term. by rewrite <-Hh. Qed.

Section refinement.
Context {S G : Type} `{LogStorageLaws S} `{RngExt G}.
Context (members : gset N) (id : NodeId) (Hmem : id ∈ members) (Hid : valid_node_id id).
Abbreviation node := (LogicalNode S G).
Abbreviation eng := (st (LogicalNode S G) halt) (only parsing).
Abbreviation q := (quorum members).
Abbreviation nsteps := (nsteps q id).
Abbreviation nstep := (nstep q id).
Implicit Types (n : node) (a : ANode) (v : LogView).

(** A leader keeps books on its peers; a next index is a value of its type. *)
Definition books_ok (l : Leader) : Prop :=
  dom (ld_match_index l) = members ∖ {[id]} ∧ next_positive l ∧ ∀ p, U64 (next_index_of l p).

(** A candidate has its own vote and not yet a quorum, unless one vote is a
    quorum. *)
Definition inner_ok (r : RoleState) : Prop :=
  match r with
  | RS_Candidate m =>
      let k := N.of_nat (size (ca_votes_received (rn_state m))) in 1 ≤ k ∧ (k < q ∨ q = 1)
  | RS_Leader m => books_ok (rn_state m)
  | _ => True
  end.

(** [a] is what the protocol sees of [n]: of a halted node, its disk. *)
Record stands n a : Prop := {
  sn_role : rrole (ln_state n) = an_role a;
  sn_owned : owned id (ln_state n);
  sn_inner : inner_ok (ln_state n);
  sn_store : if is_poisoned n then leaves (ln_store n) (λ vd, shows vd a)
    else ∃ v, held (ln_store n) v v ∧ shows v a ∧ role_committed (ln_state n) = Some (lv_committed v);
}.

Lemma stands_live n v a r s :
  held s v v → shows v a → rrole r = an_role a → owned id r → inner_ok r →
  role_committed r = Some (lv_committed v) → stands (set_state r (set_store s n)) a.
Proof.
  intros Hh Hs Hr Ho Hi Hc. split; try done. unfold is_poisoned. cbn.
  destruct r; try done; exists v; by split_and!.
Qed.
Lemma stands_down n a s :
  leaves s (λ vd, shows vd a) → an_role a = RDown → stands (set_state RS_Poisoned (set_store s n)) a.
Proof. intros Hs Hr. by split. Qed.
Lemma stands_view n a :
  stands n a → ln_state n ≠ RS_Poisoned →
  ∃ v, held (ln_store n) v v ∧ shows v a ∧ role_committed (ln_state n) = Some (lv_committed v).
Proof. intros [_ _ _ Hs] Hnp. unfold is_poisoned in Hs. by destruct (ln_state n). Qed.
Lemma stands_leaves n a : stands n a → leaves (ln_store n) (λ vd, shows vd a).
Proof.
  intros [_ _ _ Hs]. destruct (is_poisoned n); [done|]. destruct Hs as (v & ? & ? & _). by exists v, v.
Qed.

(** *** Moves *)

(** The labels of a node on its own. *)
Definition quiet (x : nlabel) : Prop := x = NTau ∨ x = NCampaign.
Definition moves (P : list nlabel → Prop) a n' : Prop :=
  ∃ l a', stands n' a' ∧ nsteps l a a' ∧ P l.
Abbreviation qmoves := (moves (Forall quiet)).
Definition qop {A} (m : eng A) : Prop :=
  ∀ n a, stands n a → wp m (λ _ n', qmoves a n') (λ _ n', qmoves a n') n.

Lemma qmoves_refl n a : stands n a → qmoves a n.
Proof. intros Hn. exists [], a. split_and!; [done|constructor|constructor]. Qed.
Lemma qmoves_trans l a a' n' : nsteps l a a' → Forall quiet l → qmoves a' n' → qmoves a n'.
Proof.
  intros Hs Hq (l' & a'' & Hn & Hs' & Hq'). exists (l ++ l'), a''.
  split_and!; [done|by eapply nsteps_app|by apply Forall_app].
Qed.
Lemma qmoves_step x n' a a' : stands n' a' → nstep x a a' → quiet x → qmoves a n'.
Proof.
  intros Hn Hs Hq. exists [x], a'. split_and!; [done|by apply nsteps_one|by apply Forall_singleton].
Qed.
(** Quiet steps leave the log and the commit index alone. *)
Lemma quiet_same l a a' :
  nsteps l a a' → Forall quiet l →
  an_log a' = an_log a ∧ an_commit a' = an_commit a ∧ hs_le (an_hs a) (an_hs a').
Proof.
  induction 1 as [|x l a a1 a2 Hs _ IH]; [done|]. intros [Hq Hqs]%Forall_cons_iff.
  destruct (IH Hqs) as (-> & -> & Hle). pose proof (nstep_hs _ _ _ _ _ Hs) as Hle'.
  assert (an_log a1 = an_log a ∧ an_commit a1 = an_commit a) as [-> ->].
  { destruct Hq as [->| ->]; by inversion Hs. }
  split_and!; [done..|by etrans].
Qed.

Lemma q_idle_step a h r : hs_le (an_hs a) h → r = RIdle ∨ r = RDown → nstep NTau a (with_hs h r a).
Proof. destruct a. intros Hle Hr. by apply (N_idle _ _ an_hs). Qed.

Lemma qmoves_poison n a : stands n a → qmoves a (set_state RS_Poisoned n).
Proof.
  intros Hn. apply (qmoves_step NTau _ _ (as_down a)); [|by apply q_idle_step; [|right]|by left].
  pose proof (stands_leaves n a Hn) as (v & vd & Hh & Hs). split; try done.
  cbn. exists v, vd. split; [done|]. by eapply shows_role.
Qed.

(** *** Composition *)

Lemma wp_q_bind {A B} (m : eng A) (k : A → eng B) n a :
  stands n a → qop m → (∀ x, qop (k x)) → wp (m ≫= k) (λ _ n', qmoves a n') (λ _ n', qmoves a n') n.
Proof.
  intros Hn Hm Hk. wp_step. eapply wp_mono; [by apply Hm| |done].
  intros x n' (l & a' & Hn' & Hs & Hq).
  eapply wp_mono; [by apply Hk|..]; intros; by eapply qmoves_trans.
Qed.
Lemma q_bind {A B} (m : eng A) (k : A → eng B) : qop m → (∀ x, qop (k x)) → qop (m ≫= k).
Proof. intros ?? n a Hn. by apply wp_q_bind. Qed.
Lemma q_ret {A} (x : A) : qop (mret x).
Proof. intros n a Hn. apply wp_ret. by apply qmoves_refl. Qed.
Lemma q_fail {A} h : qop (A:=A) (st_fail h).
Proof. intros n a Hn. apply wp_fail. by apply qmoves_refl. Qed.
Lemma q_gets {A} (f : node → A) : qop (st_gets f).
Proof. intros n a Hn. apply wp_gets. by apply qmoves_refl. Qed.
Lemma q_get_bind {A} (k : node → eng A) :
  (∀ n a, stands n a → wp (k n) (λ _ n', qmoves a n') (λ _ n', qmoves a n') n) → qop (st_get ≫= k).
Proof. intros Hk n a Hn. wp_steps. by apply Hk. Qed.
Lemma q_apply_fatal {A} e : qop (A:=A) (apply_fatal e).
Proof. intros n a Hn. unfold apply_fatal. wp_steps. by apply qmoves_poison. Qed.
Lemma q_or_fatal {A} (r : result NodeError A) : qop (or_fatal r).
Proof. destruct r; [apply q_ret|apply q_apply_fatal]. Qed.
Lemma q_delegate_read {A} (f : S → result NodeError A) : qop (delegate_read f).
Proof.
  apply q_get_bind. intros n a Hn.
  destruct (ln_state n); by (apply wp_ret || apply wp_fail); apply qmoves_refl.
Qed.
Lemma q_delegate_field {A} (f : ∀ R, RaftNode R → A) : qop (delegate_field f).
Proof.
  apply q_get_bind. intros n a Hn.
  destruct (ln_state n); by (apply wp_ret || apply wp_fail); apply qmoves_refl.
Qed.
Lemma q_read_or_fatal {A} (f : S → result NodeError A) : qop (read_or_fatal f).
Proof. apply q_bind; [apply q_delegate_read|intros; apply q_or_fatal]. Qed.

(** A read that returns saw the store of a healthy node. *)
Lemma q_read_spec {A} (f : S → result NodeError A) n a :
  stands n a →
  wp (read_or_fatal f)
    (λ x n', n' = n ∧ f (ln_store n) = Ok x ∧ ln_state n ≠ RS_Poisoned)
    (λ _ n', qmoves a n') n.
Proof.
  intros Hn. unfold read_or_fatal, delegate_read. wp_steps.
  destruct (ln_state n) eqn:Hst; try (apply wp_ret; destruct (f (ln_store n)) eqn:Hf;
    [by apply wp_ret|by unfold or_fatal, apply_fatal; wp_steps; apply qmoves_poison]).
  apply wp_fail. by apply qmoves_refl.
Qed.
Lemma q_term_spec n a :
  stands n a →
  wp eng_current_term (λ t n', n' = n ∧ t = an_term a ∧ ln_state n ≠ RS_Poisoned ∧ U64 t)
    (λ _ n', qmoves a n') n.
Proof.
  intros Hn. eapply wp_mono; [by apply q_read_spec| |done]; cbn beta.
  intros t n' (-> & Ht & Hnp). destruct (stands_view _ _ Hn Hnp) as (v & Hh & Hs & _).
  apply (node_read_Ok _ (lv_term v)) in Ht as ->; [|apply current_term_law, Hh].
  split_and!; [done|by apply shows_term|done|]. apply (vo_term v), (repr_ok (ln_store n)), Hh.
Qed.

(** *** The hard state on disk *)

(** Only the hard state has moved. *)
Definition moved v (vd : LogView) : Prop := ∃ h, hs_le (hs v) h ∧ vd = set_hard_state h.1 h.2 v.

Lemma moved_refl v : moved v v.
Proof. exists (hs v). split; [done|]. by destruct v. Qed.

Lemma hard_write_live t o s v :
  held s v v → U64 t → vote_ok o → hs_le (hs v) (t, o) →
  let v' := set_hard_state t o v in
  wp (node_write (save_hard_state t o)) (λ _ s', held s' v' v') (λ _ s', leaves s' (moved v)) s.
Proof.
  intros Hh Ht Ho Hle v'.
  eapply wp_mono; [eapply live_write; [done|apply save_hard_state_law; [apply Hh|done|done]]|done|]; cbn beta.
  intros _ s' Hs'. eapply leaves_mono; [done|]. cbn beta. intros vd [->|Hin]; [apply moved_refl|].
  apply elem_of_cons in Hin as [->|Hin]; [apply moved_refl|]. apply list_elem_of_singleton in Hin as ->.
  by exists (t, o).
Qed.

Lemma advance_term_live t s v :
  held s v v → U64 t →
  wp (advance_term t)
    (λ _ s', ∃ h, hs_le (hs v) h ∧ h.1 = t ∧ let v' := set_hard_state h.1 h.2 v in held s' v' v')
    (λ _ s', leaves s' (moved v)) s.
Proof.
  intros Hh Ht. unfold advance_term. wp_steps.
  pose proof (leaves_held s v v (moved v) Hh (moved_refl v)) as Hkeep.
  eapply node_reads_spec; [apply current_term_law, Hh| |done]; cbn beta.
  destruct (N.ltb_spec t (lv_term v)); [by apply wp_fail|].
  destruct (N.ltb_spec (lv_term v) t).
  - eapply wp_mono; [apply (hard_write_live _ _ _ _ Hh Ht); [done|by left]| |done]; cbn beta.
    intros _ s' Hs'. exists (t, None). split_and!; [by left|done|done].
  - apply wp_ret. exists (hs v). split_and!; [done|cbn; lia|]. by destruct v.
Qed.

Lemma campaign_live {R} (m : RaftNode R) start timeout s v :
  held s v v → rn_node_id m = id →
  wp (campaign m start timeout)
    (λ m' s', let v' := set_hard_state (lv_term v + 1) (Some id) v in
       held s' v' v' ∧ m' = transition m (mkCandidate {[id]} start timeout))
    (λ _ s', leaves s' (moved v)) s.
Proof.
  intros Hh Hm. pose proof (leaves_held s v v (moved v) Hh (moved_refl v)) as Hkeep.
  unfold campaign. wp_steps. eapply node_reads_spec; [apply current_term_law, Hh| |done]; cbn beta.
  wp_steps. apply wp_lift; [|done]. intros t' Ht'.
  destruct (term_add (lv_term v) 1) as [t|] eqn:Ht; [|done]. injection Ht' as <-.
  apply newtype_add_Ok in Ht as [-> Ht]. unfold advance_term_and_vote. wp_steps.
  eapply node_reads_spec; [apply current_term_law, Hh| |done]; cbn beta.
  destruct (N.ltb_spec (lv_term v + 1) (lv_term v)); [lia|].
  assert (rn_node_id (transition m (Candidate_new start timeout)) = id) as -> by done.
  eapply wp_mono; [apply (hard_write_live _ _ _ _ Hh Ht); [done|left; cbn; lia]| |done]; cbn beta.
  intros _ s' Hh'. apply wp_ret. split; [done|].
  unfold transition, set_node_state. f_equal. apply add_vote_fresh.
Qed.

Lemma attempt_grant_vote_live c t li lt s v :
  held s v v → valid_node_id c →
  wp (attempt_grant_vote c t li lt)
    (λ granted s',
       if granted : bool then
         t = lv_term v ∧ hs_le (hs v) (t, Some c) ∧
         (lv_last_term v < lt ∨ lv_last_term v = lt ∧ lv_last_index v ≤ li) ∧
         held s' (set_hard_state t (Some c) v) (set_hard_state t (Some c) v)
       else s' = s)
    (λ _ s', leaves s' (moved v)) s.
Proof.
  intros Hh Hc. pose proof (leaves_held s v v (moved v) Hh (moved_refl v)) as Hkeep.
  assert (wp (attempt_grant_vote c t li lt) (λ _ _, True) (λ _ s', leaves s' (moved v)) s) as Herr.
  { unfold attempt_grant_vote. wp_steps.
    eapply node_reads_spec; [apply current_term_law, Hh| |done]; cbn beta. wp_steps.
    eapply node_reads_spec; [apply voted_for_law, Hh| |done]; cbn beta.
    destruct (_ && _) eqn:Hguard; [|by apply wp_ret].
    apply andb_true_iff in Hguard as [Hterm%N.eqb_eq Hvote].
    wp_steps. apply wp_reads; [|done]. intros b _. destruct b; [|by apply wp_ret].
    unfold persist_vote. wp_steps. eapply node_reads_spec; [apply current_term_law, Hh| |done]; cbn beta.
    wp_steps. eapply wp_mono; [apply (hard_write_live _ _ _ _ Hh); [|done|]|by intros; apply wp_ret|done].
    - eapply vo_term, repr_ok, Hh.
    - right. split; [done|]. apply orb_true_iff in Hvote as [Hv|Hv]; apply bool_decide_eq_true in Hv; auto. }
  pose proof (wp_and _ _ _ _ _ _ (attempt_grant_vote_spec c t li lt s v v Hh Hc) Herr) as Hboth.
  eapply wp_mono; [exact Hboth| |]; cbn beta; [by intros b s' []|by intros e s' []].
Qed.

Lemma index_peers_books last peers next mi next' mi' :
  index_peers last peers next mi = Ok (next', mi') →
  dom mi' = list_to_set peers ∪ dom mi ∧
  ((∀ p i, mi !! p = Some i → i = 0) → ∀ p i, mi' !! p = Some i → i = 0) ∧
  ((∀ p i, next !! p = Some i → U64 i) → ∀ p i, next' !! p = Some i → U64 i).
Proof.
  revert next mi. induction peers as [|p peers IH]; intros next mi; cbn.
  { intros [= -> ->]. split; [set_solver|done]. }
  destruct (index_add last 1) as [k|] eqn:Hk; cbn; [|done]. apply newtype_add_Ok in Hk as [_ Hk].
  intros (Hd & Hz & Hn)%IH. split_and!.
  - rewrite Hd, dom_insert_L. set_solver.
  - intros Hzero. apply Hz. intros r i. rewrite lookup_insert_Some. intros [[_ <-]|[_ ?]]; [done|by eapply Hzero].
  - intros Hfit. apply Hn. intros r i. rewrite lookup_insert_Some. intros [[_ <-]|[_ ?]]; [done|by eapply Hfit].
Qed.
Lemma Leader_new_books peers last tick l :
  Leader_new peers last tick = Ok l →
  dom (ld_match_index l) = list_to_set peers ∧ (∀ p i, ld_match_index l !! p = Some i → i = 0) ∧
  next_positive l ∧ ∀ p, U64 (next_index_of l p).
Proof.
  intros Hl. pose proof (Leader_new_positive _ _ _ _ Hl) as Hpos. revert Hl. unfold Leader_new. destruct (index_peers _ _ _ _) as [[next mi]|] eqn:Hi; cbn; [|done].
  intros [= <-]. apply index_peers_books in Hi as (Hd & Hz & Hn). cbn. split_and!.
  - rewrite Hd, dom_empty_L. set_solver.
  - apply Hz. intros p i. by rewrite lookup_empty.
  - done.
  - intros p. unfold next_index_of. cbn. destruct (next !! p) as [i|] eqn:Hp; [|done].
    eapply Hn; [|done]. intros r j. by rewrite lookup_empty.
Qed.
Lemma list_to_set_peers : list_to_set (peers_of members id) = members ∖ {[id]}.
Proof. apply list_to_set_elements_L. Qed.
Lemma try_into_leader_live (m : RaftNode Candidate) tick s v :
  held s v v →
  wp (try_into_leader m (peers_of members id) tick)
    (λ m' s', s' = s ∧ ∃ l, m' = transition m l ∧ books_ok l ∧ ∀ p i, ld_match_index l !! p = Some i → i = 0)
    (λ _ s', s' = s) s.
Proof.
  intros Hh. unfold try_into_leader. wp_steps.
  eapply node_reads_spec; [apply last_log_index_law, Hh| |done]; cbn beta.
  wp_steps. apply wp_lift; [|done]. intros l (Hd & Hz & Hn)%Leader_new_books. apply wp_ret. split; [done|].
  exists l. split_and!; [done|split; [by rewrite Hd, list_to_set_peers|done]|done].
Qed.

(** *** Transitions *)

Lemma stands_ext n n' a :
  ln_state n' = ln_state n → ln_store n' = ln_store n → stands n a → stands n' a.
Proof. intros Hst Hs [Hr Ho Hi Hv]. split; unfold is_poisoned in *; by rewrite ?Hst, ?Hs. Qed.

Lemma qmoves_moved n a s v :
  shows v a → leaves s (moved v) → qmoves a (set_state RS_Poisoned (set_store s n)).
Proof.
  intros Hs (v1 & vd & Hh & [t o] & Hle & ->).
  apply (qmoves_step NTau _ _ (with_hs (t, o) RDown a)); [|apply q_idle_step; [|by right]|by left].
  - apply stands_down; [|done]. eapply leaves_held; [done|]. by apply shows_hard.
  - destruct Hs as [<- _]. done.
Qed.

Lemma wp_transition_split (f : RoleState → st S halt RoleState) (Q R : node → Prop) n :
  wp (f (ln_state n)) (λ r s', Q (set_state r (set_store s' n)))
    (λ _ s', R (set_state RS_Poisoned (set_store s' n))) (ln_store n) →
  wp (eng_transition f) (λ _ n', Q n') (λ _ n', R n') n.
Proof.
  unfold wp, eng_transition. by destruct (f (ln_state n) (ln_store n)) as [[r|h] s'].
Qed.

Lemma wp_draw (Q : TickDuration → node → Prop) (R : halt → node → Prop) n :
  (∀ t g, Q t (set_rng g n)) → wp draw_timeout Q R n.
Proof. intros HQ. unfold wp, draw_timeout. destruct (generate_election_timeout _ _). apply HQ. Qed.

Lemma wp_follower_live {R} (m : RaftNode R) t o tick timeout n n1 v a (Q : RoleState → S → Prop) :
  held (ln_store n) v v → shows v a → rn_node_id m = id → rn_last_committed m = lv_committed v → U64 t →
  (∀ h s' m', hs_le (an_hs a) h → h.1 = t →
     stands (set_state (RS_Follower m') (set_store s' n1)) (with_hs h RIdle a) → Q (RS_Follower m') s') →
  wp (as_role RS_Follower (try_into_follower m t o tick timeout)) Q
    (λ _ s', qmoves a (set_state RS_Poisoned (set_store s' n1))) (ln_store n).
Proof.
  intros Hh Hs Hm Hc Ht HQ. apply wp_as_role. unfold try_into_follower. wp_steps.
  eapply wp_mono; [by apply advance_term_live|..]; cbn beta.
  - intros _ s' (h & Hle & <- & Hh'). wp_steps. destruct Hs as [Hhs Hrest].
    apply (HQ h); [by rewrite <-Hhs|done|]. destruct h as [t o'].
    apply (stands_live _ (set_hard_state t o' v));
      [done|by apply shows_hard; split|done..|cbn; by rewrite Hc].
  - intros e s' Hl. by eapply qmoves_moved.
Qed.

Lemma into_follower_spec t o n a :
  stands n a → U64 t →
  wp (into_follower t o)
    (λ _ n', (∃ m, ln_state n' = RS_Follower m) ∧
       ∃ h, hs_le (an_hs a) h ∧ h.1 = t ∧ stands n' (with_hs h RIdle a))
    (λ _ n', qmoves a n') n.
Proof.
  intros Hn Ht. unfold into_follower. wp_step. apply wp_draw. intros timeout g. wp_steps.
  apply wp_transition_split. change (ln_state (set_rng g n)) with (ln_state n).
  change (ln_store (set_rng g n)) with (ln_store n).
  pose proof (sn_owned _ _ Hn) as Ho. destruct (ln_state n) eqn:Hst.
  5: { apply wp_fail. apply (qmoves_poison (set_rng g n)). by apply (stands_ext n). }
  all: destruct (stands_view n a Hn) as (v & Hh & Hs & Hc); [by rewrite Hst|];
    rewrite Hst in Hc; injection Hc as Hc;
    (eapply wp_follower_live; [done|done|done|done|done|]);
    intros h s' m' Hle Hterm Hn'; (split; [by eexists|by exists h]).
Qed.
Lemma q_into_follower t o : U64 t → qop (into_follower t o).
Proof.
  intros Ht n a Hn. eapply wp_mono; [by apply into_follower_spec| |done]; cbn beta.
  intros _ n' (_ & h & Hle & _ & Hn'). eapply qmoves_step; [done|by apply q_idle_step; [|left]|by left].
Qed.

(** A campaign starts, or the role is not one that campaigns. *)
Lemma q_into_candidate : qop into_candidate.
Proof.
  intros n a Hn. unfold into_candidate. wp_step. apply wp_draw. intros timeout g. wp_steps.
  apply wp_transition_split. change (ln_state (set_rng g n)) with (ln_state n).
  change (ln_store (set_rng g n)) with (ln_store n).
  pose proof (sn_owned _ _ Hn) as Ho. destruct (ln_state n) as [m|m|m|m|] eqn:Hst.
  4-5: apply wp_ret; apply qmoves_refl; by apply (stands_ext n).
  all: destruct (stands_view n a Hn) as (v & Hh & Hs & Hc); [by rewrite Hst|];
    rewrite Hst in Hc; injection Hc as Hc; apply wp_as_role;
    (eapply wp_mono; [by apply campaign_live|..]; cbn beta;
      [intros m' s' [Hh' ->]|intros e s' Hl; by eapply qmoves_moved]);
    pose proof (shows_term _ _ Hs) as Hterm; destruct a as [[t o] l c r];
    (eapply (qmoves_step NCampaign);
      [|apply N_campaign|by right]);
    (eapply (stands_live _ (set_hard_state (lv_term v + 1) (Some id) v));
      [done|rewrite Hterm; by apply (shows_hard v (mkA (t, o) l c r))|done|done
      |cbn; rewrite size_singleton; pose proof (quorum_pos members); lia|cbn; by rewrite Hc]).
Qed.

Lemma q_into_pre_candidate : qop into_pre_candidate.
Proof.
  intros n a Hn. unfold into_pre_candidate. wp_steps. apply wp_transition_split.
  pose proof (sn_owned _ _ Hn) as Ho. pose proof (sn_role _ _ Hn) as Hrole.
  destruct (ln_state n) as [m|m|m|m|] eqn:Hst.
  2-5: apply wp_ret; apply qmoves_refl; by apply (stands_ext n).
  destruct (stands_view n a Hn) as (v & Hh & Hs & Hc); [by rewrite Hst|].
  rewrite Hst in Hc. injection Hc as Hc. apply wp_as_role. unfold try_into_pre_candidate. apply wp_ret.
  apply qmoves_refl. apply (stands_live _ v); try done. cbn. by rewrite Hc.
Qed.

(** *** The leader's requests *)

Lemma stands_set_role n a r :
  stands n a → rrole r = rrole (ln_state n) → owned id r → inner_ok r →
  role_committed r = role_committed (ln_state n) → stands (set_state r n) a.
Proof.
  intros [Hr Ho Hi Hs] Hr' Ho' Hi' Hc. split; [by etrans|done|done|].
  unfold is_poisoned in *. cbn. rewrite Hc.
  destruct r, (ln_state n); try done.
Qed.

Lemma reset_heartbeat_stands n a n' :
  stands n a → reset_heartbeat n = (Ok tt, n') →
  stands n' a ∧ rrole (ln_state n') = rrole (ln_state n).
Proof.
  intros Hn. unfold reset_heartbeat, st_modify. intros [= <-].
  pose proof (sn_owned _ _ Hn) as Ho. pose proof (sn_inner _ _ Hn) as Hi.
  destruct (ln_state n) eqn:Hst; try (split; [done|by rewrite Hst]);
    (split; [apply stands_set_role; [done|by rewrite Hst|done|done|by rewrite Hst]|done]).
Qed.
Lemma wp_reset_heartbeat n a (Q : unit → node → Prop) (R : halt → node → Prop) :
  stands n a → (∀ n', stands n' a → Q tt n') → wp reset_heartbeat Q R n.
Proof.
  intros Hn HQ. destruct (reset_heartbeat n) as [[[]|h] n'] eqn:Hr.
  - unfold wp. rewrite Hr. apply HQ. by eapply reset_heartbeat_stands.
  - unfold reset_heartbeat, st_modify in Hr. done.
Qed.
Lemma q_reset_heartbeat : qop reset_heartbeat.
Proof. intros n a Hn. eapply wp_reset_heartbeat; [done|]. intros n' ?. by apply qmoves_refl. Qed.

Lemma validate_leader_rpc_term_spec t lid n a :
  stands n a → U64 t →
  wp (validate_leader_rpc_term t lid)
    (λ r n', ∃ l a', stands n' a' ∧ nsteps l a a' ∧ Forall quiet l ∧ (r = TC_Valid → an_term a' = t))
    (λ _ n', qmoves a n') n.
Proof.
  intros Hn Ht. unfold validate_leader_rpc_term.
  assert (∀ n0, stands n0 a →
    wp (_ ← into_follower t (Some lid); mret TC_Valid)
      (λ r n', ∃ l a', stands n' a' ∧ nsteps l a a' ∧ Forall quiet l ∧ (r = TC_Valid → an_term a' = t))
      (λ _ n', qmoves a n') n0) as Hdown.
  { intros n0 Hn0. wp_step. eapply wp_mono; [by apply into_follower_spec| |done]; cbn beta.
    intros _ n' (_ & h & Hle & Hterm & Hn'). apply wp_ret. exists [NTau], (with_hs h RIdle a).
    split_and!; [done|apply nsteps_one, q_idle_step; [done|by left]|apply Forall_singleton; by left|done]. }
  wp_step. eapply wp_mono; [by apply q_term_spec| |done]; cbn beta.
  intros current n' (-> & -> & Hnp & _).
  destruct (N.ltb_spec t (an_term a)); [apply wp_ret; exists [], a; split_and!; [done|constructor|constructor|done]|].
  destruct (N.ltb_spec (an_term a) t); [by apply Hdown|].
  wp_steps. pose proof (sn_owned _ _ Hn) as Ho.
  destruct (ln_state n) eqn:Hst; [|by apply Hdown|by apply Hdown|by unfold apply_fatal; wp_steps; apply qmoves_poison|done].
  wp_steps. exists [], a. split_and!; [|constructor|constructor|lia].
  apply stands_set_role; [done|by rewrite Hst|done|done|by rewrite Hst].
Qed.

Lemma wp_run_node_split {R A} (mk : RaftNode R → RoleState) (m : RaftNode R)
    (op : st (S * RaftNode R) NodeError A) n (Q : result NodeError A → node → Prop) R' :
  wp op (λ x p, Q (Ok x) (set_state (mk p.2) (set_store p.1 n)))
    (λ e p, Q (Err e) (set_state (mk p.2) (set_store p.1 n))) (ln_store n, m) →
  wp (run_node mk m op) Q R' n.
Proof. unfold wp, run_node. destruct (op (ln_store n, m)) as [[x|e] [s' m']]; auto. Qed.

(** The labels of an answered request. *)
Definition mine (m : Msg) (x : nlabel) : Prop := quiet x ∨ ∃ ok, x = NAccept m ok.
Lemma quiet_mine m l : Forall quiet l → Forall (mine m) l.
Proof. apply List.Forall_impl. by left. Qed.
Lemma moves_weaken (P Q : list nlabel → Prop) a n' : moves P a n' → (∀ l, P l → Q l) → moves Q a n'.
Proof. intros (l & a' & ? & ? & ?) HPQ. exists l, a'. split_and!; auto. Qed.
Lemma moves_after (P : list nlabel → Prop) l a a' n' :
  nsteps l a a' → moves (λ l', P (l ++ l')) a' n' → moves P a n'.
Proof.
  intros Hs (l' & a'' & ? & ? & ?). exists (l ++ l'), a''. split_and!; [done|by eapply nsteps_app|done].
Qed.

(** What a request reads of its sender's log. *)
Record request_of (m : Msg) (a : ANode) : Prop := {
  rq_term : U64 (m_term m);
  rq_commit : U64 (N.of_nat (m_commit m));
  rq_wire : Forall wire_ok (m_log m);
  rq_real : real (m_log m);
  rq_index k e : m_log m !! k = Some e → le_index e = N.of_nat k + 1;
  rq_here : real (an_log a);
  rq_agree : agreeing (an_log a) (m_log m);
}.

(** The reconciliation under the lock; a failure is about to poison the
    node. *)
Lemma reconcile_moves m pi n a f :
  stands n a → ln_state n = RS_Follower f → request_of m a → an_term a = m_term m →
  wp (run_node RS_Follower f
        (reconcile_log (N.of_nat pi) (anchor_term (m_log m) pi) (drop pi (m_log m)) (N.of_nat (m_commit m))))
    (λ r n',
      match r with
      | Ok res => moves (λ l, Forall (mine m) l ∧
          (rr_success res = true → NAccept m true ∈ l ∧ (pi ≤ length (m_log m))%nat)) a n'
      | Err e => moves (Forall (mine m)) a (set_state RS_Poisoned n')
      end) (λ _ _, False) n.
Proof.
  intros Hn Hst Hrq Hterm. destruct Hrq as [Ht Hc Hw Hrm Hidx Hr Hag].
  destruct (stands_view n a Hn) as (v & Hh & Hs & Hcom); [by rewrite Hst|].
  rewrite Hst in Hcom. injection Hcom as Hcom. pose proof (sn_owned _ _ Hn) as Ho. rewrite Hst in Ho.
  pose proof (sn_role _ _ Hn) as Hrole. rewrite Hst in Hrole. cbn in Hrole.
  destruct Hs as (Hhs & Hcommit & Hlog). destruct a as [h l c r]. cbn in *. subst r.
  assert (Forall wire_ok (drop pi (m_log m))) as Hwd by (by apply Forall_drop).
  apply wp_run_node_split.
  pose proof (reconcile_log_live (N.of_nat pi) (anchor_term (m_log m) pi) (drop pi (m_log m))
    (N.of_nat (m_commit m)) (ln_store n) f v Hh Hwd Hc) as Hlive.
  pose proof (frames_reconcile_log (N.of_nat pi) (anchor_term (m_log m) pi) (drop pi (m_log m))
    (N.of_nat (m_commit m)) (ln_store n, f)) as Hframe.
  set (op := reconcile_log _ _ _ _) in *. apply wp_intro.
  - intros res [s' f'] Hrun. rewrite Hrun in Hframe. cbn in Hframe. destruct Hframe as [Hident _].
    apply (wp_run _ _ _ _ _ _ Hlive) in Hrun as (v' & Hview & Hh'). cbn in Hview, Hh'.
    rewrite Hcom in Hview. pose proof Hview as Hview'.
    apply (reconcile_list v l (m_log m) pi Hlog Hr Hag Hidx) in Hview
      as [(Hf & -> & Hc')|(Hsucc & Hlog' & Hhs' & Hcv & Hbound)].
    + exists [], (mkA h l c RIdle). split_and!; [|constructor|constructor|congruence]. cbn [fst snd].
      apply (stands_live _ v); try done; [by unfold owned, rn_node_id; rewrite Hident|]. cbn. by rewrite Hc'.
    + set (c' := N.to_nat (rn_last_committed f')).
      exists [NAccept m true], (mkA h (merge l (m_log m)) c' RIdle). cbn [fst snd]. split_and!.
      * apply (stands_live _ v'); [done| |done|by unfold owned, rn_node_id; rewrite Hident|done|cbn; by rewrite Hcv].
        split_and!; cbn; [congruence|unfold c'; lia|done].
      * apply nsteps_one. apply N_accept; [done|apply retains_merge| |done].
        unfold c'. destruct Hbound as [Hb|Hb]; [left|right; split; [done|]]; lia.
      * apply Forall_singleton. right. by eexists.
      * intros _. split; [by left|].
        unfold reconcile_view in Hview'. destruct (consistent v _ _) eqn:Hcons; cbn [negb] in Hview'.
        2: { injection Hview' as <- _ _. done. }
        destruct (consistent_anchored v l (m_log m) pi Hlog Hr Hag Hcons) as [Hpi Hanchor].
        by eapply anchored_length.
  - intros e [s' f'] Hrun. apply (wp_run _ _ _ _ _ _ Hlive) in Hrun as (v1 & vd & Hh' & Hint). cbn in Hh'.
    apply (interrupted_list v l (m_log m) pi Hlog Hr Hag Hidx) in Hint as (l' & Hlog' & Hhs' & Hret & Hbound).
    set (c' := N.to_nat (lv_committed vd)).
    exists [NAccept m false], (mkA h l' c' RDown). cbn [fst snd]. split_and!.
    + split; try done. unfold is_poisoned. cbn. exists v1, vd. split; [done|].
      split_and!; cbn; [congruence|unfold c'; lia|done].
    + apply nsteps_one. apply N_accept; [done|done| |done].
      unfold c'. destruct Hbound as [Hb|[? Hb]]; [left|right; split; [done|]]; lia.
    + apply Forall_singleton. right. by eexists.
Qed.

Lemma handle_append_entries_spec lid m pi n a :
  stands n a → request_of m a →
  wp (handle_append_entries lid (m_term m) (N.of_nat pi) (anchor_term (m_log m) pi) (drop pi (m_log m))
        (N.of_nat (m_commit m)))
    (λ res n', moves (λ l, Forall (mine m) l ∧
       (ar_success res = true → NAccept m true ∈ l ∧ (pi ≤ length (m_log m))%nat)) a n' ∧ U64 (ar_term res))
    (λ _ n', moves (Forall (mine m)) a n') n.
Proof.
  intros Hn Hrq. unfold handle_append_entries.
  assert (∀ a0 n0, qmoves a0 n0 → moves (Forall (mine m)) a0 n0) as Hq.
  { intros a0 n0 Hm. eapply moves_weaken; [done|]. apply quiet_mine. }
  wp_step. eapply wp_mono; [by apply q_term_spec| |auto]; cbn beta.
  intros current n0 (-> & -> & _ & Hu0). wp_step.
  eapply wp_mono; [apply validate_leader_rpc_term_spec; [done|apply Hrq]| |auto]; cbn beta.
  intros chk n1 (l1 & a1 & Hn1 & Hs1 & Hq1 & Hterm).
  pose proof (quiet_same _ _ _ Hs1 Hq1) as (Hlog1 & Hcom1 & _). apply quiet_mine with (m:=m) in Hq1 as Hm1.
  destruct chk; [specialize (Hterm eq_refl)|].
  2: { apply wp_ret. split; [|done]. exists l1, a1. split_and!; done. }
  wp_step. eapply wp_reset_heartbeat; [done|]. intros n2 Hn2. wp_steps.
  assert (request_of m a1) as Hrq1 by (destruct Hrq; split; rewrite ?Hlog1; done).
  assert (∀ (k : Term → AppendEntriesResult) n3 a3 l3, stands n3 a3 → nsteps l3 a1 a3 → Forall (mine m) l3 →
    (∀ t, ar_term (k t) = t) →
    (∀ t, ar_success (k t) = true → NAccept m true ∈ l3 ∧ (pi ≤ length (m_log m))%nat) →
    wp (term ← eng_current_term; mret (k term))
      (λ res n', moves (λ l, Forall (mine m) l ∧
        (ar_success res = true → NAccept m true ∈ l ∧ (pi ≤ length (m_log m))%nat)) a n' ∧ U64 (ar_term res))
      (λ _ n', moves (Forall (mine m)) a n') n3) as Hend.
  { intros k n3 a3 l3 Hn3 Hs3 Hm3 Hkt Hk. wp_step. eapply wp_mono; [by apply q_term_spec| |]; cbn beta.
    - intros t n4 (-> & -> & _ & Hu). apply wp_ret. split; [|by rewrite Hkt].
      exists (l1 ++ l3), a3. split_and!; [done|by eapply nsteps_app|by apply Forall_app|].
      intros Hs%Hk. split; [apply elem_of_app; right|]; apply Hs.
    - intros h n4 Hm4. apply Hq in Hm4. eapply moves_after; [exact Hs1|]. eapply moves_after; [exact Hs3|].
      eapply moves_weaken; [exact Hm4|]. intros l Hl. rewrite !Forall_app. by split_and!. }
  destruct (ln_state n2) eqn:Hst;
    try (apply (Hend (λ t, AppendEntriesResult_inconsistent t 0) n2 a1 []); [done|constructor|constructor|done|done]).
  wp_step. eapply wp_mono; [by eapply reconcile_moves| |done]; cbn beta.
  intros [res|e] n3 Hr'; cbn [or_fatal].
  - wp_step. apply wp_ret. destruct Hr' as (l3 & a3 & Hn3 & Hs3 & Hm3 & Hok).
    apply (Hend (λ t, if rr_success res then AppendEntriesResult_success t (rr_last_index res)
      else AppendEntriesResult_inconsistent t (rr_last_index res)) n3 a3 l3); [done|done|done|intros; by destruct (rr_success res)|].
    intros t Ht. apply Hok. by destruct (rr_success res).
  - unfold apply_fatal. wp_steps. eapply moves_after; [exact Hs1|]. eapply moves_weaken; [exact Hr'|].
    intros l Hl. apply Forall_app. by split.
Qed.

(** *** Votes *)

Definition ballot c t k lt (x : nlabel) : Prop := quiet x ∨ x = NVote c t k lt.

Lemma request_vote_moves c t k lt n a :
  stands n a → valid_node_id c → U64 t → real (an_log a) →
  wp (handle_request_vote c t (N.of_nat k) lt)
    (λ res n', moves (λ l, Forall (ballot c t k lt) l ∧
       (vr_vote_granted res = true → NVote c t k lt ∈ l)) a n' ∧ U64 (vr_term res))
    (λ _ n', moves (Forall (ballot c t k lt)) a n') n.
Proof.
  intros Hn Hc Ht Hr. unfold handle_request_vote.
  assert (∀ a0 n0, qmoves a0 n0 → moves (Forall (ballot c t k lt)) a0 n0) as Hq.
  { intros a0 n0 Hm. eapply moves_weaken; [done|]. intros l. apply List.Forall_impl. by left. }
  wp_step. eapply wp_mono; [by apply q_term_spec| |auto]; cbn beta.
  intros current n0 (-> & -> & _ & _). wp_step.
  assert (qop (if an_term a <? t then into_follower t None else mret tt)) as Hpre.
  { destruct (_ <? _); [by apply q_into_follower|apply q_ret]. }
  eapply wp_mono; [by apply Hpre| |auto]; cbn beta.
  intros _ n1 (l1 & a1 & Hn1 & Hs1 & Hq1). pose proof (quiet_same _ _ _ Hs1 Hq1) as (Hlog1 & _ & _).
  assert (Forall (ballot c t k lt) l1) as Hb1 by (eapply List.Forall_impl; [|exact Hq1]; by left).
  wp_steps.
  assert (∀ (g : bool) n2 a2 l2, stands n2 a2 → nsteps l2 a1 a2 → Forall (ballot c t k lt) l2 →
    (g = true → NVote c t k lt ∈ l2) →
    wp (term ← eng_current_term; mret (if g then RequestVoteResult_granted term else RequestVoteResult_rejected term))
      (λ res n', moves (λ l, Forall (ballot c t k lt) l ∧
         (vr_vote_granted res = true → NVote c t k lt ∈ l)) a n' ∧ U64 (vr_term res))
      (λ _ n', moves (Forall (ballot c t k lt)) a n') n2) as Hend.
  { intros g n2 a2 l2 Hn2 Hs2 Hb2 Hg. wp_step. eapply wp_mono; [by apply q_term_spec| |]; cbn beta.
    - intros t2 n3 (-> & -> & _ & Hu). apply wp_ret. split; [|by destruct g].
      exists (l1 ++ l2), a2. split_and!; [done|by eapply nsteps_app|by apply Forall_app|].
      intros Hgr. apply elem_of_app. right. apply Hg. by destruct g.
    - intros h n3 Hm3. apply Hq in Hm3. eapply moves_after; [exact Hs1|]. eapply moves_after; [exact Hs2|].
      eapply moves_weaken; [exact Hm3|]. intros l Hl. rewrite !Forall_app. by split_and!. }
  destruct (ln_state n1) as [f|f|f|f|] eqn:Hst;
    try (apply wp_ret; apply (Hend false n1 a1 []); [done|constructor|constructor|done]).
  destruct (stands_view n1 a1 Hn1) as (v & Hh & Hs & Hcom); [by rewrite Hst|].
  pose proof (sn_owned _ _ Hn1) as Ho. pose proof (sn_role _ _ Hn1) as Hrole. rewrite Hst in Ho, Hrole, Hcom.
  assert (real (an_log a1)) as Hr1 by (by rewrite Hlog1).
  wp_step. unfold run_store. apply wp_zoom, wp_try.
  eapply wp_mono; [by apply attempt_grant_vote_live|..]; cbn beta.
  - intros granted s' Hg. apply wp_ret. destruct granted.
    + destruct Hg as (Hterm & Hle & Hup & Hh'). destruct a1 as [h l ci r]. cbn in Hrole. subst r.
      apply (Hend true _ (mkA (t, Some c) l ci RIdle) [NVote c t k lt]).
      * destruct Hs as (Hhs & Hci & Hlog). split; cbn; try done; rewrite ?Hst; try done.
        unfold is_poisoned. cbn. rewrite Hst. exists (set_hard_state t (Some c) v). split; [exact Hh'|]. split; [|done].
        split_and!; [done|done|by eapply log_is_ext].
      * destruct Hs as (Hhs & Hci & Hlog). cbn in Hhs, Hci, Hlog, Hr1. apply nsteps_one.
        apply N_vote; [by rewrite <-Hhs|]. unfold up_to_date.
        rewrite <-(log_is_last_term Hlog) by done.
        rewrite (log_is_last Hlog) in Hup. destruct Hup as [?|[? ?]]; [by left|right; split; [done|lia]].
      * apply Forall_singleton. by right.
      * intros _. by left.
    + subst s'. apply (Hend false _ a1 []); [by apply (stands_ext n1)|constructor|constructor|done].
  - intros e s' Hl. unfold or_fatal, apply_fatal. wp_steps. eapply moves_after; [exact Hs1|].
    eapply moves_weaken; [apply (qmoves_moved n1 a1 s' v); done|].
    intros l Hql. apply Forall_app. split; [done|]. eapply List.Forall_impl; [|exact Hql]. by left.
Qed.

Definition promoting (x : nlabel) : Prop := quiet x ∨ x = NElect.

(** The victory of a candidate whose tally has a quorum. *)
Lemma victory_moves n m v a votes :
  held (ln_store n) v v → shows v a → an_role a = RCampaign votes →
  ln_state n = RS_Candidate m → ca_votes_received (rn_state m) = votes → rn_node_id m = id →
  rn_last_committed m = lv_committed v → q ≤ N.of_nat (size votes) →
  wp (into_leader (peers_of members id)) (λ _ n', moves (Forall promoting) a n')
    (λ _ n', moves (Forall promoting) a n') n.
Proof.
  intros Hh Hs Hr Hst Hv Ho Hc Hq. unfold into_leader. wp_steps. apply wp_transition_split.
  rewrite Hst. apply wp_as_role. eapply wp_mono; [by eapply try_into_leader_live|..]; cbn beta.
  - intros m' s' (-> & l & -> & Hbooks & Hz). destruct a as [h lg c r]. cbn in Hr. subst r.
    exists [NElect], (mkA h lg c (RLeading (ld_match_index l))). split_and!.
    + apply (stands_live _ v); try done. cbn. by rewrite Hc.
    + apply nsteps_one. by constructor.
    + apply Forall_singleton. by right.
  - intros e s' ->. eapply moves_weaken; [eapply (qmoves_moved _ _ _ v); [done|]|].
    + eapply leaves_held; [done|apply moved_refl].
    + intros l. apply List.Forall_impl. by left.
Qed.

Lemma q_promoting a n : qmoves a n → moves (Forall promoting) a n.
Proof. intros Hm. eapply moves_weaken; [done|]. intros l. apply List.Forall_impl. by left. Qed.

(** The labels of a tallied reply. *)
Definition tallied (t : Term) (p : NodeId) (res : RpcResult RequestVoteResponse) a (l : list nlabel) : Prop :=
  Forall quiet l ∨
  ∃ l', l = NCount p :: l' ∧ Forall promoting l' ∧ an_term a = t ∧
        ∃ resp, res = Ok resp ∧ rvr_vote_granted resp = true.

Lemma vote_response_moves t p res n a :
  stands n a → (∀ resp, res = Ok resp → U64 (rvr_term resp)) →
  wp (process_vote_response t (peers_of members id) p res)
    (λ _ n', moves (tallied t p res a) a n') (λ _ n', moves (tallied t p res a) a n') n.
Proof.
  intros Hn Hres. unfold process_vote_response.
  assert (∀ n', qmoves a n' → moves (tallied t p res a) a n') as Hq.
  { intros n' Hm. eapply moves_weaken; [done|]. by left. }
  pose proof (Hq n (qmoves_refl _ _ Hn)) as Hstay.
  destruct res as [resp|]; [|by apply wp_ret].
  destruct (t <? rvr_term resp).
  { eapply wp_mono; [apply wp_q_bind; [done|by apply q_into_follower, Hres|intros; apply q_ret]|..]; auto. }
  destruct (rvr_vote_granted resp) eqn:Hgr; [|by apply wp_ret].
  wp_step. eapply wp_mono; [by apply q_term_spec| |auto]; cbn beta.
  intros current n' (-> & -> & _ & _). wp_steps.
  destruct (ln_state n) as [| |m| |] eqn:Hst; try (by apply wp_ret).
  destruct (N.eqb_spec (an_term a) t) as [Hterm|]; [|by apply wp_ret].
  destruct (stands_view n a Hn) as (v & Hh & Hs & Hc); [by rewrite Hst|].
  pose proof (sn_owned _ _ Hn) as Ho. pose proof (sn_role _ _ Hn) as Hrole. rewrite Hst in Ho, Hrole, Hc.
  cbn in Hrole. injection Hc as Hc. destruct a as [h lg c r]. cbn in Hrole. subst r.
  set (votes := {[p]} ∪ ca_votes_received (rn_state m)).
  set (a1 := mkA h lg c (RCampaign votes)).
  assert (∀ n', moves (Forall promoting) a1 n' →
    moves (tallied t p (Ok resp) (mkA h lg c (RCampaign (ca_votes_received (rn_state m)))))
      (mkA h lg c (RCampaign (ca_votes_received (rn_state m)))) n') as Hcounted.
  { intros n' (l & a' & ? & Hsl & ?). exists (NCount p :: l), a'. split_and!; [done| |].
    - econstructor; [|done]. constructor.
    - right. exists l. split_and!; [done|done|done|eauto]. }
  wp_steps. rewrite (quorum_of_peers members id) by done.
  destruct (N.leb_spec q (vote_count (add_vote p (rn_state m)))) as [Hge|Hlt].
  - wp_step. unfold eng_last_log_index, read_or_fatal, delegate_read. cbn [ln_state set_state].
    wp_steps. cbn [ln_state set_state].
    match goal with |- wp _ _ _ ?n => set (n1 := n) end.
    assert (moves (Forall promoting) a1 (set_state RS_Poisoned n1)) as Hpoison.
    { apply q_promoting. eapply (qmoves_moved n1 a1 (ln_store n) v); [done|].
      eapply leaves_held; [done|apply moved_refl]. }
    destruct (node_read last_log_index _) as [i|e]; unfold or_fatal.
    2: { unfold apply_fatal. wp_steps. apply Hcounted. exact Hpoison. }
    wp_step. cbn beta. do 2 wp_step. eapply wp_mono; [eapply (victory_moves n1 _ v a1 votes); done|..]; cbn beta.
    + intros _ n' Hm. apply wp_ret. auto.
    + auto.
  - apply wp_ret, Hcounted, q_promoting, qmoves_refl.
    split; cbn; try done; [split; [|left; exact Hlt]|exists v; split; [done|split; [done|by rewrite Hc]]].
    destruct (size votes) eqn:Hsize; [|unfold votes in Hsize; lia].
    apply size_empty_inv in Hsize. set_solver.
Qed.

Lemma promote_moves k n a :
  stands n a → k < q ∨ q = 1 →
  wp (promote_after_loop k (peers_of members id)) (λ _ n', moves (Forall promoting) a n')
    (λ _ n', moves (Forall promoting) a n') n.
Proof.
  intros Hn Hk. unfold promote_after_loop. rewrite (quorum_of_peers members id) by done.
  pose proof (q_promoting _ _ (qmoves_refl _ _ Hn)) as Hstay.
  destruct (N.leb_spec q k); [|by apply wp_ret].
  destruct (ln_state n) as [| |m| |] eqn:Hst.
  1-2,4-5: unfold into_leader; wp_steps; apply wp_transition_split; rewrite Hst; apply wp_ret;
    apply q_promoting, qmoves_refl; by apply (stands_ext n).
  destruct (stands_view n a Hn) as (v & Hh & Hs & Hc); [by rewrite Hst|].
  pose proof (sn_owned _ _ Hn) as Ho. pose proof (sn_role _ _ Hn) as Hrole. pose proof (sn_inner _ _ Hn) as Hi.
  rewrite Hst in Ho, Hrole, Hc, Hi. cbn in Hrole, Hi. injection Hc as Hc.
  eapply victory_moves; try done. lia.
Qed.

End refinement.
