(* ===== verification/RaftLead.v ===== *)
(** The leader's side of the refinement: proposals, requests, replies, the
    commit rule and the ticks of a logical node as steps of [Raft.nstep]. *)
From S2P Require Import Prelude Machine Types Wire Storage Timing Node Engine Consensus VoteSpec LogSpec Election EngineSpec Cluster NodeProps Raft RaftLog RaftSpec.

Section leader.
Context {S G : Type} `{LogStorageLaws S} `{RngExt G}.
Context (members : gset N) (id : NodeId) (Hmem : id ∈ members) (Hid : valid_node_id id).
Abbreviation node := (LogicalNode S G).
Abbreviation eng := (st (LogicalNode S G) halt) (only parsing).
Abbreviation q := (quorum members).
Abbreviation nsteps := (nsteps q id).
Abbreviation nstep := (nstep q id).
Abbreviation stands := (stands members id).
Abbreviation moves := (moves members id).
Abbreviation qmoves := (moves (Forall quiet)).
Abbreviation qop := (qop (S:=S) (G:=G) members id).
Abbreviation books_ok := (books_ok members id).
Implicit Types (n : node) (a : ANode) (v : LogView).

(** *** Proposals *)

Definition proposed v (command : bytes) : LogEntry := LogEntry_new (lv_last_index v + 1) (lv_term v) command.
Definition with_proposal v (command : bytes) : LogView :=
  set_log (log_insert (lv_log v) [proposed v command]) v.

Lemma propose_live command s v :
  held s v v → Forall is_byte command →
  wp (propose command)
    (λ i s', i = lv_last_index v + 1 ∧ held s' (with_proposal v command) (with_proposal v command))
    (λ _ s', leaves s' (λ vd, vd = v ∨ vd = with_proposal v command)) s.
Proof.
  intros Hh Hc. assert (leaves s (λ vd, vd = v ∨ vd = with_proposal v command)) as Hkeep.
  { eapply leaves_held; [done|by left]. }
  unfold propose. wp_steps. eapply node_reads_spec; [apply last_log_index_law, Hh| |done]; cbn beta.
  wp_steps. apply wp_lift; [|done]. intros i Hi.
  destruct (index_add (lv_last_index v) 1) as [i'|] eqn:Hadd; [|done]. injection Hi as <-.
  apply newtype_add_Ok in Hadd as [-> Hu]. wp_steps.
  eapply node_reads_spec; [apply current_term_law, Hh| |done]; cbn beta. wp_steps.
  eapply wp_mono; [eapply live_write; [done|apply append_entries_law; [apply Hh|]]|..]; cbn beta.
  - apply Forall_singleton. split_and!; [eapply vo_term, repr_ok, Hh|done|done].
  - intros _ s' Hh'. by apply wp_ret.
  - intros _ s' Hl. eapply leaves_mono; [done|]. set_solver.
Qed.

Definition appending (command : bytes) (x : nlabel) : Prop :=
  quiet x ∨ ∃ e, x = NAppend e ∧ le_data e = command.

Lemma with_proposal_log v command l : log_is v l → log_is (with_proposal v command) (l ++ [proposed v command]).
Proof.
  intros Hl. apply log_is_append; [done|]. split; [|done]. cbn. by rewrite (log_is_last Hl).
Qed.

Lemma q_weaken (P : nlabel → Prop) a n : (∀ x, quiet x → P x) → qmoves a n → moves (Forall P) a n.
Proof. intros HP Hm. eapply moves_weaken; [done|]. intros l. by apply List.Forall_impl. Qed.

(** The entry of a proposal, in the log of a leader. *)
Definition proposed_at (command : bytes) (i : LogIndex) a : Prop :=
  1 ≤ i ∧ (∃ matched, an_role a = RLeading matched) ∧
  ∃ e, an_log a !! N.to_nat (i - 1) = Some e ∧ le_data e = command ∧ le_term e = an_term a.

Lemma propose_spec command n a :
  stands n a → Forall is_byte command →
  wp (eng_propose command)
    (λ r n', ∃ l a', stands n' a' ∧ nsteps l a a' ∧ Forall (appending command) l ∧
       ∀ i, r = Ok i → proposed_at command i a')
    (λ _ n', moves (Forall (appending command)) a n') n.
Proof.
  intros Hn Hc. assert (∀ a0 n0, qmoves a0 n0 → moves (Forall (appending command)) a0 n0) as Hq.
  { intros a0 n0. apply q_weaken. by left. }
  unfold eng_propose. wp_step. apply wp_get. destruct (ln_state n) as [| | |m|] eqn:Hst.
  1-3: wp_step; eapply wp_mono; [by apply q_read_or_fatal|..]; cbn beta; [|intros _ n' Hm; by apply Hq];
    intros hint n' (l & a' & ? & ? & Hl)%Hq; apply wp_ret; exists l, a'; by split_and!.
  2: { apply wp_fail, Hq. by apply qmoves_refl. }
  destruct (stands_view _ _ _ _ Hn) as (v & Hh & Hs & Hcom); [by rewrite Hst|].
  pose proof (sn_role _ _ _ _ Hn) as Hrole. destruct a as [h l c r]. rewrite Hst in Hrole. cbn in Hrole. subst r.
  set (a := mkA h l c _) in *.
  set (a' := mkA h (l ++ [proposed v command]) c (RLeading (ld_match_index (rn_state m)))).
  destruct Hs as (Hhs & Hci & Hlog). cbn in Hhs, Hci, Hlog.
  assert (nstep (NAppend (proposed v command)) a a') as Happ.
  { apply N_append. by rewrite <-Hhs. }
  assert (Forall (appending command) [NAppend (proposed v command)]) as Hlab.
  { constructor; [|done]. right. by exists (proposed v command). }
  assert (shows (with_proposal v command) a') as Hs'.
  { split_and!; [done|done|by apply with_proposal_log]. }
  assert (∀ n', qmoves a' n' → moves (Forall (appending command)) a n') as Happended.
  { intros n' Hm. eapply moves_after; [by apply nsteps_one|]. eapply moves_weaken; [by apply Hq|].
    intros l' Hl'. by apply (Forall_app_2 _ [_] l'). }
  wp_step. unfold run_store. apply wp_zoom, wp_try. eapply wp_mono; [by apply propose_live|..]; cbn beta.
  - intros i s' [-> Hh']. unfold or_fatal. wp_step. apply wp_ret.
    assert (stands (set_store s' n) a') as Hn'.
    { apply (stands_ext _ _ (set_state (RS_Leader m) (set_store s' n))); [done|done|].
      pose proof (sn_owned _ _ _ _ Hn) as Ho. pose proof (sn_inner _ _ _ _ Hn) as Hi. rewrite Hst in Ho, Hi, Hcom.
      by apply (stands_live _ _ _ (with_proposal v command)). }
    wp_step. eapply wp_mono; [by apply q_read_spec|..]; cbn beta.
    + intros t n' (-> & _). apply wp_ret. exists [NAppend (proposed v command)], a'.
      split_and!; [done|by apply nsteps_one|done|]. intros i [= <-]. split; [lia|]. split; [by eexists|].
      exists (proposed v command). split_and!; [|done|by unfold an_term; cbn; rewrite <-Hhs].
      cbn [an_log a']. apply lookup_snoc_Some. right. split; [|done]. rewrite (log_is_last Hlog). lia.
    + intros _ n' Hm. by apply Happended.
  - intros e s' Hl. unfold or_fatal, apply_fatal. wp_steps.
    destruct Hl as (v1 & vd & Hhd & [->| ->]).
    + apply Hq. apply (qmoves_step _ _ NTau _ _ (as_down a)); [|by apply q_idle_step; [|right]|by left].
      apply stands_down; [|done]. by eapply leaves_held.
    + apply Happended.
      apply (qmoves_step _ _ NTau _ _ (as_down a')); [|by apply q_idle_step; [|right]|by left].
      apply stands_down; [|done]. by eapply leaves_held.
Qed.
Lemma propose_moves command n a :
  stands n a → Forall is_byte command →
  wp (eng_propose command) (λ _ n', moves (Forall (appending command)) a n')
    (λ _ n', moves (Forall (appending command)) a n') n.
Proof.
  intros Hn Hc. eapply wp_mono; [by apply propose_spec| |auto]; cbn beta.
  intros r n' (l & a' & ? & ? & ? & _). by exists l, a'.
Qed.

(** *** Requests *)

(** The request built from the leader's log for the anchor [pi]. *)
Definition request_from (l : list LogEntry) (params : ReplicationRoundParams) (pi : nat) : AppendEntriesRequest :=
  AppendEntriesRequest_new (rp_term params) (rp_node_id params) (N.of_nat pi) (anchor_term l pi) (drop pi l)
    (rp_last_committed params).

Lemma next_index_positive l p : next_positive l → 1 ≤ next_index_of l p.
Proof. intros Hp. unfold next_index_of. destruct (ld_next_index l !! p) as [i|] eqn:Hi; [by apply (Hp p)|done]. Qed.

Lemma build_request_spec p params n a m :
  stands n a → ln_state n = RS_Leader m →
  wp (build_append_entries_request p (rp_term params) (rp_node_id params) (rp_last_committed params))
    (λ r n', n' = n ∧ ∃ pi, r = Ok (request_from (an_log a) params pi) ∧ U64 (N.of_nat pi))
    (λ _ n', qmoves a n') n.
Proof.
  intros Hn Hst. destruct (stands_view _ _ _ _ Hn) as (v & Hh & (_ & _ & Hlog) & _); [by rewrite Hst|].
  pose proof (sn_inner _ _ _ _ Hn) as Hi. rewrite Hst in Hi. destruct Hi as (_ & Hpos & Hfit).
  specialize (Hfit p). apply (next_index_positive _ p) in Hpos.
  unfold build_append_entries_request. wp_steps. rewrite Hst.
  set (next := next_index_of (rn_state m) p) in *.
  eapply wp_mono; [by apply q_read_spec| |done]; cbn beta. intros last n' (-> & Hlast & _).
  apply (node_read_Ok _ (lv_last_index v)) in Hlast as ->; [|apply last_log_index_law, Hh].
  assert (index_sub next 1 = Ok (next - 1)) as ->.
  { unfold index_sub, checked_sub. by destruct (N.leb_spec 1 next); [|lia]. }
  wp_step. eapply wp_mono; [by apply q_read_spec| |done]; cbn beta. intros pt n' (-> & Hpt & _).
  assert (next = N.of_nat (N.to_nat (next - 1)) + 1) as Hnext by lia.
  apply (get_term_at_view _ _ _ _ (proj1 Hh)) in Hpt as ->; [|unfold U64 in *; lia].
  wp_step. eapply wp_mono; [by apply q_read_spec| |done]; cbn beta. intros es n' (-> & Hes & _).
  pose proof (repr_ok _ _ (proj1 Hh)) as Hok.
  apply (node_read_Ok _ (lv_range v next (lv_last_index v))) in Hes as ->;
    [|apply read_entries_law; [apply Hh|done|by apply lv_last_index_U64|lia]].
  apply wp_ret. split; [done|]. exists (N.to_nat (next - 1)). split; [|unfold U64 in *; lia].
  unfold request_from. rewrite Hnext at 3. rewrite (log_is_range Hlog) by done.
  replace (next - 1) with (N.of_nat (N.to_nat (next - 1))) at 1 2 by lia.
  by rewrite (log_is_term_at Hlog).
Qed.

Lemma strategy_spec p params n a :
  stands n a →
  wp (determine_replication_strategy p params)
    (λ r n', n' = n ∧ (r = Ok None ∨ ∃ matched pi, an_role a = RLeading matched ∧
       r = Ok (Some (RS_AppendEntries (request_from (an_log a) params pi))) ∧ U64 (N.of_nat pi)))
    (λ _ n', qmoves a n') n.
Proof.
  intros Hn. unfold determine_replication_strategy. wp_step. apply wp_get.
  destruct (ln_state n) as [| | |m|] eqn:Hst; try (apply wp_ret; auto).
  destruct (stands_view _ _ _ _ Hn) as (v & Hh & (_ & _ & Hlog) & _); [by rewrite Hst|].
  pose proof (sn_inner _ _ _ _ Hn) as Hi. rewrite Hst in Hi. destruct Hi as (_ & Hpos & _).
  apply (next_index_positive _ p) in Hpos.
  pose proof (sn_role _ _ _ _ Hn) as Hrole. rewrite Hst in Hrole. cbn in Hrole.
  wp_step. eapply wp_mono; [by apply q_read_spec| |done]; cbn beta. intros i n' (-> & Hi & _).
  apply (node_read_Ok _ (lv_snap_index v)) in Hi as ->; [|apply last_included_index_law, Hh].
  destruct Hlog as (-> & _). destruct (N.leb_spec (next_index_of (rn_state m) p) 0); [lia|].
  wp_step. eapply wp_mono; [by eapply build_request_spec| |done]; cbn beta.
  intros r n' (-> & pi & -> & Hu). apply wp_ret. split; [done|]. right. eauto.
Qed.
(** *** The commit rule *)

Lemma update_commit_live {R} i s (m : RaftNode R) v :
  held s v v → rn_last_committed m = lv_committed v →
  wp (update_commit_index_only i)
    (λ _ p, i ≤ lv_committed v ∧ p = (s, m) ∨
       lv_committed v < i ≤ lv_last_index v ∧ held p.1 (set_committed i v) (set_committed i v) ∧
       p.2 = set_node_committed i m)
    (λ _ p, p.2 = m ∧ leaves p.1 (λ vd, vd = v ∨ lv_committed v < i ≤ lv_last_index v ∧ vd = set_committed i v))
    (s, m).
Proof.
  intros Hh Hc. unfold update_commit_index_only. wp_steps. cbn [snd]. rewrite Hc.
  destruct (N.ltb_spec i (lv_committed v)); [apply wp_ret; left; split; [lia|done]|].
  assert (leaves s (λ vd, vd = v ∨ lv_committed v < i ≤ lv_last_index v ∧ vd = set_committed i v)) as Hkeep.
  { eapply leaves_held; [done|by left]. }
  wp_steps. apply wp_zoom. eapply node_reads_spec; [apply last_log_index_law, Hh| |done]; cbn beta.
  destruct (N.ltb_spec (lv_last_index v) i); [by apply wp_fail|].
  destruct (N.ltb_spec (lv_committed v) i); [|apply wp_ret; left; split; [lia|done]].
  wp_steps. apply wp_zoom. eapply wp_mono; [eapply live_write; [done|apply save_last_committed_law; [apply Hh|]]|..]; cbn beta.
  - pose proof (lv_last_index_U64 v (repr_ok _ _ (proj1 Hh))). unfold U64 in *. lia.
  - intros _ s' Hh'. unfold set_committed_field. wp_steps. by right.
  - intros _ s' Hl. split; [done|]. eapply leaves_mono; [done|]. cbn beta. intros vd Hvd. set_solver.
Qed.

Definition committing (x : nlabel) : Prop := quiet x ∨ ∃ k, x = NCommit k.

(** The peers whose match index reaches the median, and the leader. *)
Lemma median_matched (mi : gmap N N) last c :
  dom mi = members ∖ {[id]} → c = median ((map_to_list mi).*2 ++ [last]) → c ≤ last →
  quorum_matched q id mi (N.to_nat c).
Proof.
  intros Hdom -> Hle. set (c := median _) in *.
  set (l := (map_to_list mi).*2) in *.
  assert (length (l ++ [last]) = (size mi + 1)%nat) as Hlen.
  { rewrite length_app. unfold l. rewrite length_fmap, length_map_to_list. done. }
  pose proof (median_quorum _ _ Hlen) as Hq. fold c in Hq.
  assert (quorum_of (size mi) = q) as Hqq.
  { rewrite <-(quorum_of_peers members id) by done. f_equal. unfold peers_of. rewrite <-Hdom.
    change (length (elements (dom mi))) with (size (dom mi)). by rewrite size_dom. }
  rewrite Hqq in Hq. unfold reaching in Hq. rewrite list.filter_app, length_app in Hq.
  rewrite (filter_cons_True _ last) in Hq by done. cbn in Hq.
  set (F := filter (λ p : N * N, c ≤ p.2) (map_to_list mi)).
  assert (length (filter (λ y, c ≤ y) l) = length F) as HF.
  { unfold l, F. clearbody c. clear -c. induction (map_to_list mi) as [|[p i] L IH]; [done|].
    rewrite fmap_cons, !filter_cons. cbn [snd]. destruct (decide (c ≤ i)); [|exact IH]. cbn [length]. by f_equal. }
  rewrite HF in Hq.
  assert (NoDup F.*1) as Hnd.
  { unfold F. eapply sublist_NoDup; [apply (NoDup_fst_map_to_list mi)|].
    f_equiv. apply sublist_filter. }
  assert (∀ p, p ∈ F.*1 → ∃ i, mi !! p = Some i ∧ c ≤ i) as HFp.
  { intros p [[p' i] [-> Hin]]%list_elem_of_fmap. unfold F in Hin. apply list_elem_of_filter in Hin as [Hc Hin].
    apply elem_of_map_to_list in Hin. by exists i. }
  exists ({[id]} ∪ list_to_set F.*1). split.
  - rewrite size_union, size_singleton, size_list_to_set, length_fmap; [lia|done|].
    intros x ->%elem_of_singleton. rewrite elem_of_list_to_set. intros (i & Hi & _)%HFp.
    assert (id ∈ dom mi) as Hin by (by apply elem_of_dom_2 in Hi). rewrite Hdom in Hin. set_solver.
  - intros p [->%elem_of_singleton|Hp%elem_of_list_to_set]%elem_of_union; [by left|right].
    apply HFp in Hp as (i & Hi & Hci). exists i. split; [done|]. lia.
Qed.
Lemma commit_rule_moves n a :
  stands n a →
  wp update_leader_last_committed (λ _ n', moves (Forall committing) a n') (λ _ n', moves (Forall committing) a n') n.
Proof.
  intros Hn. assert (∀ n0, qmoves a n0 → moves (Forall committing) a n0) as Hq.
  { intros n0. apply q_weaken. by left. }
  pose proof (Hq n (qmoves_refl _ _ _ _ Hn)) as Hstay.
  unfold update_leader_last_committed. wp_step.
  eapply wp_mono; [by apply q_read_spec| |auto]; cbn beta. intros last n' (-> & Hlast & Hnp).
  destruct (stands_view _ _ _ _ Hn Hnp) as (v & Hh & Hs & Hcom).
  apply (node_read_Ok _ (lv_last_index v)) in Hlast as ->; [|apply last_log_index_law, Hh].
  wp_step. eapply wp_mono; [by apply q_term_spec| |auto]; cbn beta. intros t n' (-> & -> & _).
  wp_step. apply wp_get. destruct (ln_state n) as [| | |m|] eqn:Hst; try (by apply wp_ret).
  set (c := median _). wp_step. unfold eng_last_committed, delegate_field. wp_steps. rewrite Hst.
  injection Hcom as Hcom. wp_steps. rewrite Hcom.
  destruct (N.ltb_spec (lv_committed v) c) as [Hlt|]; [|by apply wp_ret].
  wp_step. eapply wp_mono; [by apply q_read_spec| |auto]; cbn beta. intros ct n' (-> & Hct & _).
  destruct (N.eqb_spec ct (an_term a)) as [Hterm|]; [|by apply wp_ret].
  unfold eng_advance_last_committed, delegate_mut. wp_steps. rewrite Hst.
  pose proof (sn_role _ _ _ _ Hn) as Hrole. pose proof (sn_inner _ _ _ _ Hn) as Hi.
  pose proof (sn_owned _ _ _ _ Hn) as Ho. rewrite Hst in Hrole, Hi, Ho.
  destruct a as [h l ci r]. cbn in Hrole. subst r. destruct Hs as (Hhs & Hci & Hlog). cbn in Hhs, Hci, Hlog.
  set (mi := ld_match_index (rn_state m)) in *. set (a := mkA h l ci (RLeading mi)) in *.
  set (a' := mkA h l (N.to_nat c) (RLeading mi)).
  assert (c ≤ lv_last_index v → nstep (NCommit (N.to_nat c)) a a') as Hstep.
  { intros Hle. pose proof (lv_last_index_U64 v (repr_ok _ _ (proj1 Hh))) as Hu.
    apply (get_term_at_view _ _ _ _ (proj1 Hh)) in Hct; [|unfold U64 in *; lia].
    rewrite (log_is_last Hlog) in Hle. apply N_commit; [lia| |].
    - replace c with (N.of_nat (N.to_nat c)) in Hct by lia. rewrite (log_is_term_at Hlog) in Hct.
      rewrite decide_False in Hct by lia. destruct (lookup_lt_is_Some_2 l (pred (N.to_nat c))) as [e He]; [lia|].
      rewrite He in Hct |- *. cbn in Hct |- *. rewrite <-Hct, Hterm. done.
    - eapply median_matched; [apply Hi|done|]. by rewrite (log_is_last Hlog). }
  assert (shows (set_committed c v) a') as Hs'.
  { split_and!; [done|cbn; lia|by eapply log_is_ext]. }
  apply wp_run_node_split. eapply wp_mono; [by apply (update_commit_live c _ m v)|..]; cbn beta.
  - intros [] [s' m'] [[Hle _]|([_ Hle] & Hh' & Hm')]; [lia|]. cbn [fst snd] in *. subst m'. unfold or_fatal. apply wp_ret.
    exists [NCommit (N.to_nat c)], a'. split_and!; [|by apply nsteps_one, Hstep|apply Forall_singleton; right; eauto].
    by apply (stands_live _ _ _ (set_committed c v)).
  - intros e [s' m'] [-> Hl]. cbn [fst snd] in *. unfold or_fatal, apply_fatal. wp_steps.
    destruct Hl as (v1 & vd & Hhd & [->|([_ Hle] & ->)]).
    + apply Hq. apply (qmoves_step _ _ NTau _ _ (as_down a)); [|by apply q_idle_step; [|right]|by left].
      apply stands_down; [|done]. by eapply leaves_held.
    + exists [NCommit (N.to_nat c); NTau], (as_down a'). split_and!.
      * apply stands_down; [|done]. by eapply leaves_held.
      * eapply nsteps_cons; [by apply Hstep|]. apply nsteps_one. apply q_idle_step; [done|by right].
      * constructor; [right; by eexists|]. apply Forall_singleton. left. by left.
Qed.
(** *** Replies *)

Lemma record_outcome_books p prev len resp l l' b :
  p ∈ members ∖ {[id]} → books_ok l → record_outcome p (RO_AppendEntries prev len resp) l = Ok (l', b) →
  books_ok l' ∧
  (if b then aer_success resp = true ∧ ld_match_index l' = <[p := prev + len]> (ld_match_index l)
   else ld_match_index l' = ld_match_index l).
Proof.
  intros Hp (Hd & Hpos & Hfit) Hrec. pose proof (record_outcome_positive _ _ _ _ _ Hpos Hrec) as Hpos'. revert Hrec.
  assert (∀ i mi, U64 i → ∀ r, U64 (next_index_of (set_match_index mi (set_next_index (<[p := i]> (ld_next_index l)) l)) r)) as Hins.
  { intros i mi Hi r. unfold next_index_of. cbn. destruct (decide (r = p)) as [->|Hne];
      [by rewrite lookup_insert_eq|rewrite lookup_insert_ne by done; apply Hfit]. }
  unfold record_outcome. destruct (aer_success resp).
  - destruct (index_add prev len) as [i|] eqn:Hi; cbn; [|done].
    destruct (index_add i 1) as [k|] eqn:Hk; cbn; [|done].
    apply newtype_add_Ok in Hi as [-> _], Hk as [-> Hk].
    destruct (_ <? _); intros [= <- <-]; (split; [|done]).
    + split_and!; [|done|by apply Hins]. cbn. rewrite dom_insert_L, Hd. set_solver.
    + done.
  - cbn. assert (∀ i, U64 i → next_positive (set_next_index (<[p := i]> (ld_next_index l)) l) →
      books_ok (set_next_index (<[p := i]> (ld_next_index l)) l)) as Hset.
    { intros i Hi Hpi. split_and!; [done..|]. by apply (Hins i (ld_match_index l)). }
    pose proof (Hfit p) as Hcur. destruct (0 <? _).
    + destruct (index_add _ 1) as [k|] eqn:Hk; cbn; [|done]. apply newtype_add_Ok in Hk as [-> Hk].
      intros [= <- <-]. split; [|done]. apply Hset; [unfold U64 in *; lia|done].
    + destruct (index_sub _ 1) as [k|] eqn:Hk; cbn; [|done]. apply index_sub_Ok in Hk as [-> _].
      intros [= <- <-]. split; [|done]. apply Hset; [unfold U64, u64_modulus in *; lia|done].
Qed.

(** The labels of a processed reply. *)
Definition replied (t : Term) (p : NodeId) (res : RpcResult (option ReplicationOutcome)) a (l : list nlabel) : Prop :=
  Forall quiet l ∨
  ∃ prev len resp l', res = Ok (Some (RO_AppendEntries prev len resp)) ∧ aer_success resp = true ∧
    an_term a = t ∧ (∃ matched, an_role a = RLeading matched) ∧
    l = NMatch p (prev + len) :: l' ∧ Forall committing l'.

(** A reply to AppendEntries, or none. *)
Definition reply_ok (res : RpcResult (option ReplicationOutcome)) : Prop :=
  ∀ o, res = Ok (Some o) → ∃ prev len resp, o = RO_AppendEntries prev len resp ∧ U64 (aer_term resp).

Lemma process_reply_moves t p res n a :
  stands n a → p ∈ members ∖ {[id]} → reply_ok res →
  wp (process_replication_response t p res) (λ _ n', moves (replied t p res a) a n')
    (λ _ n', moves (replied t p res a) a n') n.
Proof.
  intros Hn Hp Hres. assert (∀ n0, qmoves a n0 → moves (replied t p res a) a n0) as Hq.
  { intros n0 Hm. eapply moves_weaken; [done|]. by left. }
  pose proof (Hq n (qmoves_refl _ _ _ _ Hn)) as Hstay. unfold process_replication_response.
  destruct res as [[o|]|]; [|by apply wp_ret..].
  destruct (Hres o eq_refl) as (prev & len & resp & -> & Hu).
  destruct (t <? outcome_term _).
  { eapply wp_mono; [apply wp_q_bind; [done|by apply q_into_follower|intros; apply q_ret]|auto|auto]. }
  wp_step. eapply wp_mono; [by apply q_term_spec| |auto]; cbn beta. intros t' n' (-> & -> & _ & _).
  wp_step. apply wp_get. destruct (ln_state n) as [| | |m|] eqn:Hst; try (by apply wp_ret).
  destruct (N.eqb_spec (an_term a) t) as [Hterm|]; [|by apply wp_ret].
  pose proof (sn_role _ _ _ _ Hn) as Hrole. pose proof (sn_inner _ _ _ _ Hn) as Hi.
  pose proof (sn_owned _ _ _ _ Hn) as Ho. rewrite Hst in Hrole, Hi, Ho.
  set (l := acknowledge_heartbeat _ _ _). wp_step. apply wp_put.
  assert (∀ l', ld_match_index l' = ld_match_index (rn_state m) → books_ok l' →
    stands (set_state (RS_Leader (set_node_state l' m)) n) a) as Hset.
  { intros l' Hl' Hb. apply stands_set_role; try done; [cbn; by rewrite Hl', Hst|by rewrite Hst]. }
  destruct (record_outcome _ _ l) as [[l' b]|e] eqn:Hrec.
  2: { apply wp_ret, Hq, qmoves_refl. by apply Hset. }
  apply record_outcome_books in Hrec as [Hb Hm]; [|done|done].
  wp_step. apply wp_put. wp_step. destruct b.
  2: { wp_step. apply wp_ret, Hq, qmoves_refl. by apply Hset. }
  destruct Hm as [Hsucc Hm]. change (ld_match_index l) with (ld_match_index (rn_state m)) in Hm.
  destruct (stands_view _ _ _ _ Hn) as (v & Hh & Hs & Hcom); [by rewrite Hst|].
  rewrite Hst in Hcom. destruct a as [h lg ci r]. cbn in Hrole. subst r.
  set (a1 := mkA h lg ci (RLeading (<[p := prev + len]> (ld_match_index (rn_state m))))).
  assert (stands (set_state (RS_Leader (set_node_state l' m)) n) a1) as Hn1.
  { apply (stands_ext _ _ (set_state (RS_Leader (set_node_state l' m)) (set_store (ln_store n) n))); [done|done|].
    apply (stands_live _ _ _ v); try done. cbn. by rewrite Hm. }
  match goal with |- wp _ _ _ ?n => change n with (set_state (RS_Leader (set_node_state l' m)) n) end.
  assert (∀ n', moves (Forall committing) a1 n' →
    moves (replied t p (Ok (Some (RO_AppendEntries prev len resp))) (mkA h lg ci (RLeading (ld_match_index (rn_state m)))))
      (mkA h lg ci (RLeading (ld_match_index (rn_state m)))) n') as Hfin.
  { intros n' Hmv. eapply moves_after; [apply nsteps_one, N_match|]. eapply moves_weaken; [exact Hmv|].
    intros l1 Hl1. right. exists prev, len, resp, l1. split_and!; eauto. }
  eapply wp_mono; [by apply (commit_rule_moves _ a1)|..]; cbn beta; intros; [apply wp_ret|]; auto.
Qed.

Lemma reply_moves t p res n a :
  stands n a → p ∈ members ∖ {[id]} → reply_ok res →
  wp (replication_response_step t p res) (λ _ n', moves (replied t p res a) a n')
    (λ _ n', moves (replied t p res a) a n') n.
Proof.
  intros Hn Hp Hres. unfold replication_response_step. wp_step.
  eapply wp_mono; [by apply process_reply_moves| |done]; cbn beta.
  intros r n' (l & a' & Hn' & Hs & Hl).
  eapply wp_mono; [by apply q_or_fatal|..]; cbn beta; intros _ n'' (l' & a'' & ? & Hs' & Hq);
    exists (l ++ l'), a''; (split_and!; [done|by eapply nsteps_app|]);
    (destruct Hl as [Hl|(prev & len & resp & l1 & ? & ? & ? & ? & -> & Hl1)];
     [left; by apply Forall_app|right]; exists prev, len, resp, (l1 ++ l'); split_and!; try done;
     apply Forall_app; (split; [done|]); eapply List.Forall_impl; [|exact Hq]; by left).
Qed.
(** *** Ticks and campaigns *)

(** What a node tells of its log to ask for votes, and of its commit index to
    start a round. *)
Definition claims a (params : ElectionCampaignParams) : Prop :=
  ec_term params = an_term a ∧ ec_node_id params = id ∧
  ec_last_log_index params = N.of_nat (length (an_log a)) ∧ ec_last_log_term params = last_term (an_log a) ∧
  U64 (ec_term params).
Definition rounds a (params : ReplicationRoundParams) : Prop :=
  rp_term params = an_term a ∧ rp_node_id params = id ∧ rp_last_committed params = N.of_nat (an_commit a) ∧
  U64 (rp_term params) ∧ U64 (rp_last_committed params).

Lemma q_id_spec n a : stands n a → wp eng_node_id (λ i n', n' = n ∧ i = id) (λ _ n', qmoves a n') n.
Proof.
  intros Hn. pose proof (sn_owned _ _ _ _ Hn) as Ho. unfold eng_node_id, delegate_field. wp_steps.
  destruct (ln_state n); try (by apply wp_ret). apply wp_fail. by apply qmoves_refl.
Qed.
Lemma stands_U64 n a : stands n a → ln_state n ≠ RS_Poisoned → U64 (an_term a) ∧ U64 (N.of_nat (an_commit a)).
Proof.
  intros Hn Hnp. destruct (stands_view _ _ _ _ Hn Hnp) as (v & Hh & Hs & _). pose proof (repr_ok _ _ (proj1 Hh)) as Hok.
  rewrite <-(shows_term _ _ Hs). destruct Hs as (_ & <- & _). split; [apply (vo_term _ Hok)|apply (vo_committed _ Hok)].
Qed.
Lemma q_committed_spec n a :
  stands n a →
  wp eng_last_committed
    (λ c n', n' = n ∧ c = N.of_nat (an_commit a) ∧ U64 (an_term a) ∧ U64 (N.of_nat (an_commit a)))
    (λ _ n', qmoves a n') n.
Proof.
  intros Hn. pose proof (stands_view _ _ _ _ Hn) as Hview. pose proof (stands_U64 _ _ Hn) as Hu.
  unfold eng_last_committed, delegate_field. wp_steps.
  destruct (ln_state n); try (apply wp_fail; by apply qmoves_refl);
    (destruct Hview as (v & _ & (_ & Hc & _) & [= Hcom]); [done|]);
    apply wp_ret; (split; [done|]); (split; [by rewrite Hcom|by apply Hu]).
Qed.

Lemma campaign_params_spec n a :
  stands n a → real (an_log a) →
  wp (campaign_params (an_term a)) (λ params n', n' = n ∧ claims a params) (λ _ n', qmoves a n') n.
Proof.
  intros Hn Hr. unfold campaign_params. wp_step.
  eapply wp_mono; [by apply q_id_spec| |done]; cbn beta. intros i n' [-> ->].
  wp_step. eapply wp_mono; [by apply q_read_spec| |done]; cbn beta. intros last n' (-> & Hlast & Hnp).
  destruct (stands_view _ _ _ _ Hn Hnp) as (v & Hh & (_ & _ & Hlog) & _).
  apply (node_read_Ok _ (lv_last_index v)) in Hlast as ->; [|apply last_log_index_law, Hh].
  wp_step. eapply wp_mono; [by apply q_read_spec| |done]; cbn beta. intros lt n' (-> & Hlt & _).
  apply (node_read_Ok _ (lv_last_term v)) in Hlt as ->; [|apply last_log_term_law, Hh].
  apply wp_ret. split; [done|].
  split_and!; [done|done|apply (log_is_last Hlog)|by apply (log_is_last_term Hlog)|by apply (stands_U64 n)].
Qed.

(** What a tick hands to the tasks, read from the node as it is then. *)
Definition dispatched a (d : TickDispatch) : Prop :=
  (∀ params, td_campaign d = Some params → claims a params) ∧
  (∀ params, td_replication d = Some params → rounds a params).

(** A read-out after quiet steps. *)
Definition quietly {A} (P : ANode → A → Prop) a (x : A) n' : Prop :=
  ∃ l a', stands n' a' ∧ nsteps l a a' ∧ Forall quiet l ∧ P a' x.
Lemma quietly_here {A} (P : ANode → A → Prop) a (x : A) n : stands n a → P a x → quietly P a x n.
Proof. intros. exists [], a. split_and!; [done|constructor|constructor|done]. Qed.
Lemma quietly_after {A} (P : ANode → A → Prop) l a a' (x : A) n' :
  nsteps l a a' → Forall quiet l → quietly P a' x n' → quietly P a x n'.
Proof.
  intros Hs Hq (l' & a'' & ? & ? & ? & ?). exists (l ++ l'), a''.
  split_and!; [done|by eapply nsteps_app|by apply Forall_app|done].
Qed.

(** An operation that moves quietly, then one that reads. *)
Lemma wp_quietly {A B} (m : eng A) (k : A → eng B) (P : ANode → B → Prop) n a :
  stands n a → qop m →
  (∀ x n' a', stands n' a' → an_log a' = an_log a →
     wp (k x) (λ y n'', quietly P a' y n'') (λ _ n'', qmoves a' n'') n') →
  wp (m ≫= k) (λ y n', quietly P a y n') (λ _ n', qmoves a n') n.
Proof.
  intros Hn Hm Hk. wp_step. eapply wp_mono; [by apply Hm| |done]; cbn beta.
  intros x n' (l & a' & Hn' & Hs & Hq). pose proof (quiet_same _ _ _ _ _ Hs Hq) as (Hlog & _).
  eapply wp_mono; [by apply Hk|..]; cbn beta.
  - intros y n'' Hy. by eapply quietly_after.
  - intros _ n'' Hm'. by eapply qmoves_trans.
Qed.

Lemma q_tick : qop tick.
Proof.
  intros n a Hn. unfold tick. wp_steps. apply qmoves_refl. by apply (stands_ext _ _ n).
Qed.
(** Reads: they leave the node alone, or it halts. *)
Definition peek {A} (m : eng A) : Prop :=
  ∀ n a, stands n a → wp m (λ _ n', n' = n) (λ _ n', qmoves a n') n.
Lemma peek_bind {A B} (m : eng A) (k : A → eng B) : peek m → (∀ x, peek (k x)) → peek (m ≫= k).
Proof.
  intros Hm Hk n a Hn. wp_step. eapply wp_mono; [by apply Hm| |done]; cbn beta. intros x n' ->. by apply Hk.
Qed.
Lemma peek_ret {A} (x : A) : peek (mret x).
Proof. intros n a Hn. by apply wp_ret. Qed.
Lemma peek_read {A} (f : S → result NodeError A) : peek (read_or_fatal f).
Proof. intros n a Hn. eapply wp_mono; [by apply q_read_spec| |done]. by intros x n' (-> & _). Qed.
Lemma peek_field {A} (f : ∀ R, RaftNode R → A) : peek (delegate_field f).
Proof.
  intros n a Hn. unfold delegate_field. wp_steps.
  destruct (ln_state n); try (by apply wp_ret). apply wp_fail. by apply qmoves_refl.
Qed.
Lemma peek_should_compact k b : peek (should_compact_log k b).
Proof.
  unfold should_compact_log. destruct b; [apply peek_ret|]. apply peek_bind; [apply peek_field|intros applied].
  apply peek_bind; [apply peek_read|intros; apply peek_ret].
Qed.
Lemma peek_campaign_params t : peek (campaign_params t).
Proof.
  apply peek_bind; [apply peek_field|intros]. apply peek_bind; [apply peek_read|intros].
  apply peek_bind; [apply peek_read|intros; apply peek_ret].
Qed.

(** A campaign, then a reading [f] of what it stands for. *)
Lemma campaign_moves {A} (f : Term → eng A) (P : ANode → A → Prop) n a :
  stands n a → real (an_log a) →
  (∀ n' a', stands n' a' → real (an_log a') →
     wp (f (an_term a')) (λ y n'', n'' = n' ∧ P a' y) (λ _ n'', qmoves a' n'') n') →
  wp (_ ← into_candidate; new_term ← eng_current_term; f new_term)
    (λ y n', quietly P a y n') (λ _ n', qmoves a n') n.
Proof.
  intros Hn Hr Hf. apply wp_quietly; [done|by apply q_into_candidate|]. intros _ n1 a1 Hn1 Hlog1.
  wp_step. eapply wp_mono; [by apply q_term_spec| |done]; cbn beta. intros t n2 (-> & -> & _).
  eapply wp_mono; [apply Hf; [done|by rewrite Hlog1]| |done]; cbn beta.
  intros y n2 [-> Hp]. by apply quietly_here.
Qed.

(** The hand-offs of a tick whose action and term have been read. *)
Lemma tick_dispatch_spec action compaction n a :
  stands n a → real (an_log a) →
  wp (tick_dispatch action (an_term a) compaction)
    (λ d n', quietly dispatched a d n') (λ _ n', qmoves a n') n.
Proof.
  intros Hn Hr. unfold tick_dispatch. destruct action; try (apply wp_ret; by apply quietly_here).
  - apply campaign_moves; [done..|]. intros n' a' Hn' Hr'.
    wp_step. eapply wp_mono; [by apply campaign_params_spec| |done]; cbn beta. intros params n4 [-> Hp].
    apply wp_ret. split; [done|]. split; [by intros ? [= <-]|done].
  - apply wp_quietly; [done|apply q_into_pre_candidate|]. intros _ n4 a4 Hn4 Hl4. wp_step.
    eapply wp_mono; [by apply peek_campaign_params| |done]; cbn beta. intros params n5 ->. apply wp_ret.
    by apply quietly_here.
  - wp_step. wp_use (q_id_spec n a); [done| |done]. intros i n4 [-> ->].
    wp_step. wp_use (q_committed_spec n a); [done| |done]. intros c n4 (-> & -> & Ht & Hc). apply wp_ret.
    apply quietly_here; [done|]. split; [done|]. intros ? [= <-]. by split_and!.
Qed.

Lemma pre_vote_won_spec n a :
  stands n a → real (an_log a) →
  wp pre_vote_won (λ params n', quietly claims a params n') (λ _ n', qmoves a n') n.
Proof.
  intros Hn Hr. unfold pre_vote_won. wp_step. eapply wp_mono; [by apply (peek_read (node_read current_term))| |done].
  cbn beta. intros _ n' ->. apply (campaign_moves campaign_params); [done..|]. by apply campaign_params_spec.
Qed.

(** *** The quiet operations *)

Lemma q_pre_vote c t li lt : qop (handle_pre_vote c t li lt).
Proof.
  apply q_bind; [apply q_read_or_fatal|intros current]. apply q_get_bind. intros n a Hn.
  apply wp_q_bind; [done| |intros; apply q_ret]. destruct (ln_state n); try apply q_ret. apply q_or_fatal.
Qed.
Lemma q_pre_vote_term t pt : U64 pt → qop (pre_vote_term_check t pt).
Proof.
  intros Ht. unfold pre_vote_term_check. destruct (t <? pt); [|apply q_ret].
  apply q_bind; [apply q_read_or_fatal|intros current]. destruct (current <? pt); [|apply q_ret].
  apply q_bind; [by apply q_into_follower|intros; apply q_ret].
Qed.
Lemma q_step_down : qop step_down.
Proof.
  intros n a Hn. unfold step_down. wp_step. eapply wp_mono; [by apply q_term_spec| |done]; cbn beta.
  intros t n' (-> & _ & _ & Hu). by apply q_into_follower.
Qed.

(** The applier's step for an index that is committed. *)
Lemma update_commit_stays {R} i s (m : RaftNode R) :
  i ≤ rn_last_committed m →
  wp (update_commit_index_only i) (λ _ p, p = (s, m)) (λ _ p, p = (s, m)) (s, m).
Proof.
  intros Hi. unfold update_commit_index_only. wp_steps. cbn [snd].
  destruct (N.ltb_spec i (rn_last_committed m)); [by apply wp_ret|]. wp_steps. apply wp_zoom, wp_reads; [|done].
  intros last _. destruct (last <? i); [by apply wp_fail|].
  destruct (N.ltb_spec (rn_last_committed m) i); [lia|]. by apply wp_ret.
Qed.

Definition set_applied (i : LogIndex) (r : RoleState) : RoleState :=
  match r with
  | RS_Follower m => RS_Follower (set_node_applied i m)
  | RS_PreCandidate m => RS_PreCandidate (set_node_applied i m)
  | RS_Candidate m => RS_Candidate (set_node_applied i m)
  | RS_Leader m => RS_Leader (set_node_applied i m)
  | RS_Poisoned => RS_Poisoned
  end.
Lemma horizon_spec i n a :
  stands n a → i ≤ N.of_nat (an_commit a) →
  wp (eng_advance_horizon_after_snapshot i) (λ _ n', stands n' a) (λ _ n', stands n' a) n.
Proof.
  intros Hn Hi. unfold eng_advance_horizon_after_snapshot, delegate_mut. wp_step. apply wp_get.
  assert (ln_state n ≠ RS_Poisoned → ∀ c, role_committed (ln_state n) = Some c → i ≤ c) as Hc.
  { intros Hnp c Hrc. destruct (stands_view _ _ _ _ Hn Hnp) as (v & _ & (_ & Hcv & _) & Hcom).
    rewrite Hrc in Hcom. injection Hcom as ->. by rewrite Hcv. }
  assert (stands (set_state (set_applied i (ln_state n)) n) a) as Hset.
  { pose proof (sn_owned _ _ _ _ Hn) as Ho. pose proof (sn_inner _ _ _ _ Hn) as Hin.
    apply stands_set_role; [done|..]; by destruct (ln_state n). }
  destruct (ln_state n) eqn:Hst; try (apply wp_fail; done);
    (apply wp_run_node_split; unfold advance_horizon_after_snapshot; wp_step;
     eapply wp_mono; [apply update_commit_stays; by apply Hc|..]; cbn beta;
     [intros _ p ->; wp_steps; cbn [fst snd]|intros e p ->; cbn [fst snd]]).
  all: (eapply stands_ext; [..|exact Hn]; by rewrite ?Hst) || (eapply stands_ext; [..|exact Hset]; done).
Qed.
End leader.
