(* ===== verification/Limits.v ===== *)
(** Behaviours of the consensus code that fall short of what it means to do:
    each is a run of the model, evaluated. *)
From S2P Require Import Prelude Machine Types Wire Storage Timing Node Engine Consensus VoteSpec LogSpec.

(** ** A refused anchor that the follower holds under another term

    The follower reports the end of its log, the leader backs off to at most
    that: the next index stays, and the next request has the same anchor. *)

Lemma backoff_stays l p prev len resp l' b :
  next_index_of l p = prev + 1 → aer_success resp = false →
  0 < prev → prev ≤ aer_last_log_index resp →
  record_outcome p (RO_AppendEntries prev len resp) l = Ok (l', b) →
  next_index_of l' p = prev + 1 ∧ ld_match_index l' = ld_match_index l.
Proof.
  intros Hnext Hfail Hpos Hle. unfold record_outcome. rewrite Hfail, Hnext. cbn.
  destruct (N.ltb_spec 0 (aer_last_log_index resp)); [|lia].
  destruct (index_add _ 1) as [k|] eqn:Hk; cbn; [|done].
  apply newtype_add_Ok in Hk as [-> _]. intros [= <- _]. unfold next_index_of. cbn.
  rewrite lookup_insert_eq. cbn. split; [lia|done].
Qed.

(** Replication cannot get past a conflicting anchor.  When the follower
    holds the anchor's index under another term, its refusal reports the end
    of its log, which is not before the anchor, and the leader's bookkeeping
    then leaves the peer's next index where it was: the same request is
    refused again for ever. *)
Theorem conflicting_anchor_livelock l p pi pt es lc v committed res v' committed' t l' b :
  well_formed v → request_ok pi es → 0 < pi → pi ≤ lv_last_index v → term_at v pi ≠ pt →
  reconcile_view pi pt es lc v committed = Ok (res, v', committed') →
  next_index_of l p = pi + 1 →
  record_outcome p (RO_AppendEntries pi (N.of_nat (length es))
    (AppendEntriesResponse_new t (rr_success res) (rr_last_index res))) l = Ok (l', b) →
  rr_success res = false ∧ v' = v ∧ next_index_of l' p = pi + 1.
Proof.
  intros Hwf Hreq Hpos Hle Hterm Hrec Hnext Hout.
  assert (consistent v pi pt = false) as Hc by (unfold consistent; lia).
  apply reconcile_view_spec in Hrec as (Hs & Hl & _ & _ & Hv); [|done..].
  rewrite Hc in Hs, Hv. destruct Hv as [-> _]. rewrite Hs in Hout.
  split_and!; [done..|].
  eapply backoff_stays in Hout as [-> _]; [done|done|done|done|]. cbn. by rewrite Hl.
Qed.

From S2P Require Import Sled SledStore Concrete StorageProps NodeProps.

(** The leader of term 5 probes node 2, whose entry 2 is of term 4. *)
Definition stale_entry : LogEntry := LogEntry_new 2 4 [1].
Definition stale : DB := (SledStorage.append_entries [entry_1; stale_entry] MemSled.empty).2.
Definition stale_view : LogView := set_log (log_insert ∅ [entry_1; stale_entry]) empty_view.

Lemma stale_request : request_ok 0 [entry_1; stale_entry].
Proof. split; [done|]. repeat constructor. Qed.
Lemma stale_well_formed : well_formed stale_view.
Proof. by apply (append_run_spec 0 [entry_1; stale_entry] empty_view 0 empty_well_formed stale_request). Qed.

Lemma conflicting_anchor_livelock_witness :
  let resp := AppendEntriesResponse_new 5 false 2 in
  ∃ l', record_outcome 3 (RO_AppendEntries 2 0 resp) led_books = Ok (l', false) ∧
        next_index_of l' 3 = 3.
Proof.
  eexists. split; [by vm_compute|].
  apply (conflicting_anchor_livelock led_books 3 2 5 [] 0 stale_view 0 (mkReconciliation false 2)
    stale_view 0 5 _ false); [apply stale_well_formed|done|done|done|by vm_compute
    |by vm_compute|done|by vm_compute].
Defined.

(** ** The reachability probe before a snapshot

    It carries no entries and the leader's commit index: nothing is appended,
    so the follower caps the commit index at the end of its own log and not
    at the probe's anchor. *)

(** An empty request can commit entries the leader does not have.  The
    follower holds an entry of term 4 at index 2 that no leader committed; a
    probe of the leader of term 5 anchored at index 1, whose own entry at
    index 2 is of term 5 and committed, moves the follower's commit index to
    2, onto its stale entry. *)
Theorem probe_commits_stale_entry :
  let follower := started 2 stale in
  let n' := after (handle_append_entries 1 5 1 4 [] 2) follower in
  outcome (handle_append_entries 1 5 1 4 [] 2) follower = Ok (mkAppendEntriesResult 5 true 2) ∧
  role_committed (ln_state n') = Some 2 ∧
  read_entry 2 (ln_store n') = Ok (Some stale_entry) ∧
  read_entry 2 led = Ok (Some entry_2) ∧ entry_2 ≠ stale_entry.
Proof. split_and!; by vm_compute. Qed.

(** ** Late replies

    A reply is compared with the term of the campaign it belongs to, and the
    node then steps down to the reply's term: when the node has moved on to a
    later term in the meantime, that is a regression, which halts it. *)

(** A late vote reply halts a healthy node.  The node has moved on to
    term 7; the reply to its campaign of term 5 says term 6, and the node is
    poisoned. *)
Theorem late_vote_reply_halts :
  let node7 := after (into_follower 7 None) (fresh 1) in
  let op := process_vote_response 5 [2; 3] 2 (Ok (RequestVoteResponse_new 6 false)) in
  node_role node7 = NR_Follower ∧ current_term (ln_store node7) = Ok 7 ∧
  outcome op node7 = Err (Halt (Protocol "Term regression detected!")) ∧
  node_role (after op node7) = NR_Poisoned.
Proof. split_and!; by vm_compute. Qed.

(** ** The term at the end of the log *)

(** After a snapshot that goes beyond the log, the store reports the end
    of the log at the snapshot but the term of an older entry: the two halves
    of the up-to-date comparison speak of different positions. *)
Theorem last_term_behind_snapshot :
  let d := (SledStorage.save_snapshot_metadata 9 6 appended).2 in
  SledStorage.last_log_index d = Ok 9 ∧ get_term_at 9 d = Ok 6 ∧
  SledStorage.last_log_term d = Ok 5.
Proof. split_and!; by vm_compute. Qed.

(** ** The stability check of the configuration *)

(** The check that an election timeout spans three heartbeats multiplies
    in u64: a heartbeat period near 2^64 / 3 passes it with an election
    timeout far below one period. *)
Theorem stability_check_wraps :
  let c := mkRaftConfig 10 6148914691236517206 150 300 40 30000 10000 in
  RaftConfig_validate c = Ok tt ∧
  max_election (calculate_thresholds c) < heartbeat_interval (calculate_thresholds c).
Proof. split_and!; by vm_compute. Qed.
