(* ===== verification/Fsm.v ===== *)
(** The replicated state machine (lacto-fsm/src/lib.rs, [LactoStore]): the
    inventory, the session table and the clinical clock in three sled trees.
    Log statements are left out; an error message keeps the literal text of
    its format string. *)
From S2P Require Import Prelude Machine Types Wire Sled.

(** [uuid::Uuid::parse_str] followed by [to_string]: the canonical text.
    [ClientId] (common/src/types/client.rs) is that text. *)
Class UuidText : Type := uuid_parse : string → option string.

Definition ClientId_from_str `{UuidText} (s : string) : result IdentityError string :=
  ok_or (InvalidClientId "invalid uuid") (uuid_parse s).
(** [ClientId::truncated]: the first eight characters. *)
Definition ClientId_truncated (s : string) : string :=
  if (String.length s <=? 8)%nat then s else String.substring 0 8 s.

Record LactoStore (D : Type) : Type := mkLactoStore {
  fs_db : D;
  fs_poisoned : bool;
}.
Arguments mkLactoStore {D} _ _.
Arguments fs_db {D} _.
Arguments fs_poisoned {D} _.

Module Lacto.
Definition KEY_LAST_APPLIED : bytes := as_bytes "last_applied".
Definition KEY_LAST_EFFECTIVE_TIME : bytes := as_bytes "last_effective_time".
Definition KEY_RESTORE_IN_PROGRESS : bytes := as_bytes "restore_in_progress".
Definition TREE_INVENTORY : string := "inventory".
Definition TREE_META : string := "meta".
Definition TREE_SESSIONS : string := "sessions".
(** [b"true"]. *)
Definition TRUE : bytes := as_bytes "true".

Section ops.
Context {D : Type} `{Sled D, UuidText}.
Context `{Message GroceryItem, Message SessionRecord, Message CommittedMutation, Message Timestamp, Message SnapshotData}.
Abbreviation fsm := (st (LactoStore D) FsmError) (only parsing).

Definition set_db (d : D) (s : LactoStore D) : LactoStore D := mkLactoStore d (fs_poisoned s).
Definition poison_store : fsm unit := st_modify (λ s, mkLactoStore (fs_db s) true).

Definition persistence {A} (msg : string) (m : result SledError A) : result FsmError A :=
  map_err (λ _, Fsm_Persistence msg) m.
(** A write to the database. *)
Definition writes {A} (msg : string) (m : st D SledError A) : fsm A :=
  st_map_err (λ _, Fsm_Persistence msg) (st_zoom fs_db set_db m).
Definition reads {A} (f : D → result FsmError A) : fsm A := st_reads (λ s, f (fs_db s)).

(** *** Reads *)

Definition is_restoration_stale (d : D) : result FsmError bool :=
  o ← persistence "Failed to read restore flag" (sled_get TREE_META KEY_RESTORE_IN_PROGRESS d);
  mret (match o with Some v => bool_decide (v = TRUE) | None => false end).

Definition decode_timestamp (b : bytes) : result FsmError Timestamp :=
  map_err (λ _, Fsm_Deserialization "Failed to decode clinical timestamp") (decode_msg b).

Definition last_effective_time (d : D) : result FsmError Timestamp :=
  o ← persistence "Failed to read meta tree" (sled_get TREE_META KEY_LAST_EFFECTIVE_TIME d);
  opt ← transpose (decode_timestamp <$> o);
  mret (default (mkTimestamp 0 0) opt).

Definition get_session_record (client_id : string) (d : D) :
    result FsmError (option SessionRecord) :=
  o ← persistence "Failed to read session table" (sled_get TREE_SESSIONS (as_bytes client_id) d);
  transpose ((λ b, map_err (λ _, Fsm_Deserialization "Corrupt SessionRecord") (decode_msg b)) <$> o).

Definition check_not_poisoned : fsm unit :=
  st_reads (λ s, if fs_poisoned s then Err Fsm_Poisoned else Ok tt).

(** [StateMachine::last_applied_index]. *)
Definition applied_value (k : bytes) : result FsmError LogIndex :=
  ok_or (Fsm_Deserialization "last_applied index byte conversion failed") (from_be_bytes k).
Definition read_applied (d : D) : result FsmError LogIndex :=
  o ← persistence "Failed to read last_applied index" (sled_get TREE_META KEY_LAST_APPLIED d);
  opt ← transpose (applied_value <$> o);
  mret (default 0 opt).
Definition last_applied_index : fsm LogIndex := _ ← check_not_poisoned; reads read_applied.

(** *** Pure helpers *)

Definition item_from_mutation (index : LogIndex) (m : CommittedMutation) : GroceryItem :=
  GroceryItem_new (cm_resolved_item_key m) (cm_updated_base_quantity m) (cm_base_unit m)
    (cm_updated_category m) (cm_client_id m) (default Timestamp_default (cm_event_time m))
    index (cm_display_unit m).

Definition max_timestamp (t1 t2 : Timestamp) : Timestamp :=
  if (ts_seconds t2 <? ts_seconds t1)%Z ||
     ((ts_seconds t1 =? ts_seconds t2)%Z && (ts_nanos t2 <? ts_nanos t1)%Z)
  then t1 else t2.

(** A record that cannot be read or decoded is skipped. *)
Definition decode_inventory_entry (res : result SledError (bytes * bytes)) : option GroceryItem :=
  match res with
  | Ok (_, v) => ok (decode_msg v)
  | Err _ => None
  end.

(** *** Start-up *)

Definition purge_all_data : fsm unit :=
  _ ← writes "Failed to purge inventory" (sled_clear TREE_INVENTORY);
  _ ← writes "Failed to purge sessions" (sled_clear TREE_SESSIONS);
  _ ← writes "Failed to purge meta" (sled_clear TREE_META);
  writes "Failed to flush after purge" sled_flush.

Definition new_body : fsm unit :=
  _ ← writes "Failed to open inventory tree" (sled_open_tree TREE_INVENTORY);
  _ ← writes "Failed to open sessions tree" (sled_open_tree TREE_SESSIONS);
  _ ← writes "Failed to open meta tree" (sled_open_tree TREE_META);
  stale ← reads is_restoration_stale;
  if stale : bool then purge_all_data else mret tt.
(** [LactoStore::new] on an open database. *)
Definition new (db : D) : result FsmError unit * LactoStore D := new_body (mkLactoStore db false).

(** *** Guards of [apply] *)

Definition arith {A} (r : result ArithmeticError A) : fsm A := st_lift (map_err Fsm_Arithmetic r).

Definition validate_log_monotonicity (index : LogIndex) : fsm unit :=
  current_applied ← last_applied_index;
  next ← arith (index_add current_applied 1);
  if negb (index =? next) then
    _ ← poison_store;
    st_fail (Fsm_Invariant "Non-sequential LogIndex apply attempted.")
  else mret tt.

Definition parse_client_id (raw_client_id : string) : fsm string :=
  match ClientId_from_str raw_client_id with
  | Ok id => mret id
  | Err _ =>
      _ ← poison_store;
      st_fail (Fsm_Invariant "Invalid client_id in ledger. Identity metadata is corrupted")
  end.

Definition advance_last_applied_for_duplicate (index : LogIndex) : fsm unit :=
  _ ← writes "Failed to persist last_applied index"
        (sled_insert TREE_META KEY_LAST_APPLIED (to_be_bytes index));
  writes "FSM flush failure during deduplication" sled_flush.

(** *** [apply] *)

(** The writes of the transaction. *)
Definition commit_ops (index : LogIndex) (m : CommittedMutation) (status : MutationStatus)
    (record : SessionRecord) (next_effective : Timestamp) : list (string * batch_op) :=
  (if decide (status = MS_Committed) then
     [(TREE_INVENTORY,
       if cm_is_delete m then BRemove (as_bytes (cm_resolved_item_key m))
       else BInsert (as_bytes (cm_resolved_item_key m)) (encode_to_vec (item_from_mutation index m)))]
   else []) ++
  [(TREE_SESSIONS, BInsert (as_bytes (cm_client_id m)) (encode_to_vec record));
   (TREE_META, BInsert KEY_LAST_APPLIED (to_be_bytes index));
   (TREE_META, BInsert KEY_LAST_EFFECTIVE_TIME (encode_to_vec next_effective))].

Definition apply (index : LogIndex) (data : bytes) : fsm unit :=
  _ ← check_not_poisoned;
  mutation ← st_lift (map_err (λ _, Fsm_Deserialization "Failed to deserialize mutation")
                        (decode_msg (M:=CommittedMutation) data));
  _ ← validate_log_monotonicity index;
  let client_id := cm_client_id mutation in
  let seq := cm_sequence_id mutation in
  client_id_obj ← parse_client_id client_id;
  session ← reads (get_session_record client_id);
  let last_seen := from_option sr_last_sequence_id 0 session in
  expected_seq ← arith (seq_add last_seen 1);
  if seq <=? last_seen then advance_last_applied_for_duplicate index
  else if expected_seq <? seq then
    _ ← poison_store;
    st_fail (Fsm_Invariant "Sequence gap for client")
  else
    match MutationStatus_try_from (cm_status mutation) with
    | None =>
        _ ← poison_store;
        st_fail (Fsm_Invariant "Unknown MutationStatus integer")
    | Some status =>
        match cm_event_time mutation with
        | None =>
            _ ← poison_store;
            st_fail (Fsm_Invariant "Mutation is missing mandatory event_time.")
        | Some event_time =>
            current_effective ← reads last_effective_time;
            let next_effective := max_timestamp event_time current_effective in
            let record := SessionRecord_new client_id_obj seq status index
                            (cm_moral_justification mutation) event_time in
            _ ← writes "Atomic transaction failure"
                  (sled_transaction (commit_ops index mutation status record next_effective));
            writes "FSM flush failure after commitment" sled_flush
        end
    end.

(** *** Sessions and queries *)

(** [SessionProvider::check_session]. *)
Definition check_session (client_id : string) (sequence_id : SequenceId) :
    fsm (option SessionRecord) :=
  _ ← check_not_poisoned;
  session ← reads (get_session_record client_id);
  mret (match session with
        | Some record =>
            if (sequence_id =? 0) || (sr_last_sequence_id record =? sequence_id)
            then Some record else None
        | None => None
        end).

(** [InventoryReader::get_inventory]. *)
Definition get_inventory : fsm (list GroceryItem) :=
  _ ← check_not_poisoned;
  st_gets (λ s, omap decode_inventory_entry (sled_iter TREE_INVENTORY (fs_db s))).

Definition current_version : fsm LogIndex := _ ← check_not_poisoned; last_applied_index.

(** *** Snapshots *)

Fixpoint collect_sessions (l : list (result SledError (bytes * bytes))) :
    result FsmError (list SessionRecord) :=
  match l with
  | [] => Ok []
  | res :: l' =>
      p ← persistence "Session iteration failure" res;
      r ← map_err (λ _, Fsm_Deserialization "Failed to decode SessionRecord") (decode_msg p.2);
      rs ← collect_sessions l';
      mret (r :: rs)
  end.

Definition snapshot : fsm bytes :=
  _ ← check_not_poisoned;
  inventory ← get_inventory;
  sessions ← reads (λ d, collect_sessions (sled_iter TREE_SESSIONS d));
  time ← reads last_effective_time;
  mret (encode_to_vec (mkSnapshotData inventory sessions (Some time))).

Definition set_restoration_tombstone : fsm unit :=
  _ ← writes "Failed to set restore flag" (sled_insert TREE_META KEY_RESTORE_IN_PROGRESS TRUE);
  writes "FSM flush failure during dirty-marking" sled_flush.

(** The loop over the metadata: each key but the tombstone is removed. *)
Fixpoint remove_meta (l : list (result SledError (bytes * bytes))) : fsm unit :=
  match l with
  | [] => mret tt
  | res :: l' =>
      p ← st_lift (persistence "Meta iteration failure during clear" res);
      _ ← (if decide (p.1 = KEY_RESTORE_IN_PROGRESS) then mret tt
           else writes "Failed to remove meta key" (sled_remove TREE_META p.1));
      remove_meta l'
  end.

Definition clear_state_except_tombstone : fsm unit :=
  _ ← writes "Failed to clear inventory" (sled_clear TREE_INVENTORY);
  _ ← writes "Failed to clear sessions" (sled_clear TREE_SESSIONS);
  l ← st_gets (λ s, sled_iter TREE_META (fs_db s));
  remove_meta l.

Definition restore_inventory_batch (inventory : list GroceryItem) : fsm unit :=
  writes "Failed to apply inventory batch"
    (sled_apply_batch TREE_INVENTORY
       ((λ item, BInsert (as_bytes (gi_item_key item)) (encode_to_vec item)) <$> inventory)).

Definition restore_session_batch (sessions : list SessionRecord) : fsm unit :=
  writes "Failed to apply session batch"
    (sled_apply_batch TREE_SESSIONS
       ((λ r, BInsert (as_bytes (sr_client_id r)) (encode_to_vec r)) <$> sessions)).

Definition finalize_ops (last_included_index : LogIndex) (time : option Timestamp) : list batch_op :=
  [BInsert KEY_LAST_APPLIED (to_be_bytes last_included_index)] ++
  (match time with Some t => [BInsert KEY_LAST_EFFECTIVE_TIME (encode_to_vec t)] | None => [] end) ++
  [BRemove KEY_RESTORE_IN_PROGRESS].

Definition finalize_restoration (last_included_index : LogIndex) (time : option Timestamp) : fsm unit :=
  _ ← writes "Failed to apply meta batch"
        (sled_apply_batch TREE_META (finalize_ops last_included_index time));
  writes "FSM flush failure after snapshot restoration" sled_flush.

Definition install_snapshot (last_included_index : LogIndex) (data : bytes) : fsm unit :=
  _ ← check_not_poisoned;
  snap ← st_lift (map_err (λ _, Fsm_Deserialization "Failed to decode SnapshotData")
                    (decode_msg (M:=SnapshotData) data));
  _ ← set_restoration_tombstone;
  _ ← clear_state_except_tombstone;
  _ ← restore_inventory_batch (sd_inventory snap);
  _ ← restore_session_batch (sd_sessions snap);
  finalize_restoration last_included_index (sd_last_effective_time snap).
End ops.
End Lacto.
