(* ===== verification/FsmSpec.v ===== *)
(** What the state machine holds, as maps, and the refinement of [apply] to a
    step on them: every branch of [apply], with what is on disk when it
    returns. *)
From S2P Require Import Prelude Machine Types Wire Sled Fsm.

(** ** The abstract state *)

Record FsmView : Type := mkFsmView {
  fv_inventory : gmap string GroceryItem;
  fv_sessions : gmap string SessionRecord;
  fv_applied : LogIndex;
  fv_time : Timestamp;
}.

Definition empty_fsm : FsmView := mkFsmView ∅ ∅ 0 (mkTimestamp 0 0).

(** The last sequence number of a client. *)
Definition last_seen (v : FsmView) (client : string) : SequenceId :=
  from_option sr_last_sequence_id 0 (fv_sessions v !! client).

Definition set_applied (i : LogIndex) (v : FsmView) : FsmView :=
  mkFsmView (fv_inventory v) (fv_sessions v) i (fv_time v).

(** The effect of a mutation that counts. *)
Definition commit_view (index : LogIndex) (m : CommittedMutation) (status : MutationStatus)
    (record : SessionRecord) (event_time : Timestamp) (v : FsmView) : FsmView :=
  mkFsmView
    (if decide (status = MS_Committed) then
       if cm_is_delete m then delete (cm_resolved_item_key m) (fv_inventory v)
       else <[cm_resolved_item_key m := Lacto.item_from_mutation index m]> (fv_inventory v)
     else fv_inventory v)
    (<[cm_client_id m := record]> (fv_sessions v))
    index
    (Lacto.max_timestamp event_time (fv_time v)).

(** The entry's effect on its client's session and on the inventory. *)
Definition session_step `{UuidText} (index : LogIndex) (m : CommittedMutation) (v : FsmView) :
    result FsmError FsmView :=
  match ClientId_from_str (cm_client_id m) with
  | Err _ => Err (Fsm_Invariant "Invalid client_id in ledger. Identity metadata is corrupted")
  | Ok id =>
      expected ← map_err Fsm_Arithmetic (seq_add (last_seen v (cm_client_id m)) 1);
      if cm_sequence_id m <=? last_seen v (cm_client_id m) then Ok (set_applied index v)
      else if expected <? cm_sequence_id m then Err (Fsm_Invariant "Sequence gap for client")
      else
        match MutationStatus_try_from (cm_status m), cm_event_time m with
        | None, _ => Err (Fsm_Invariant "Unknown MutationStatus integer")
        | Some _, None => Err (Fsm_Invariant "Mutation is missing mandatory event_time.")
        | Some status, Some t =>
            Ok (commit_view index m status
                  (SessionRecord_new id (cm_sequence_id m) status index
                     (cm_moral_justification m) t) t v)
        end
  end.

(** One committed log entry: the indices must follow one another. *)
Definition fsm_step `{UuidText} (index : LogIndex) (m : CommittedMutation) (v : FsmView) :
    result FsmError FsmView :=
  next ← map_err Fsm_Arithmetic (index_add (fv_applied v) 1);
  if negb (index =? next) then Err (Fsm_Invariant "Non-sequential LogIndex apply attempted.")
  else session_step index m v.

(** A violation of an invariant poisons the store; other errors do not. *)
Definition poisons (e : FsmError) : bool :=
  match e with Fsm_Invariant _ => true | _ => false end.

(** Values of their types; every item under its own key. *)
Record fv_ok (v : FsmView) : Prop := {
  fo_items k i : fv_inventory v !! k = Some i → wire_ok i ∧ gi_item_key i = k;
  fo_sessions k r : fv_sessions v !! k = Some r → wire_ok r;
  fo_applied : U64 (fv_applied v);
  fo_time : wire_ok (fv_time v);
}.

(** ** The trees *)

#[global] Instance as_bytes_Inj : Inj (=) (=) as_bytes := as_bytes_inj.

Definition tree_of {M} `{Message M} (m : gmap string M) : gmap bytes bytes :=
  kmap as_bytes (encode_to_vec <$> m).

Section trees.
Context {M : Type} `{Message M}.
Implicit Types (m : gmap string M).

Lemma lookup_tree_of m k : tree_of m !! as_bytes k = encode_to_vec <$> (m !! k).
Proof. unfold tree_of. by rewrite (lookup_kmap as_bytes), lookup_fmap. Qed.
Lemma lookup_tree_of_Some m b x :
  tree_of m !! b = Some x ↔ ∃ k a, b = as_bytes k ∧ m !! k = Some a ∧ x = encode_to_vec a.
Proof.
  unfold tree_of. rewrite (lookup_kmap_Some as_bytes). split.
  - intros (k & -> & Hk). rewrite lookup_fmap_Some in Hk. destruct Hk as (a & <- & Ha). eauto.
  - intros (k & a & -> & Ha & ->). exists k. split; [done|]. by rewrite lookup_fmap, Ha.
Qed.
Lemma tree_of_insert m k a : <[as_bytes k := encode_to_vec a]> (tree_of m) = tree_of (<[k := a]> m).
Proof. unfold tree_of. by rewrite fmap_insert, (kmap_insert as_bytes). Qed.
Lemma tree_of_delete m k : delete (as_bytes k) (tree_of m) = tree_of (delete k m).
Proof. unfold tree_of. by rewrite fmap_delete, (kmap_delete as_bytes). Qed.
Lemma tree_of_empty : tree_of ∅ = ∅.
Proof. unfold tree_of. by rewrite fmap_empty, kmap_empty. Qed.
End trees.

(** An optional slot of the metadata with its default. *)
Definition slot {A : Type} (m : gmap bytes bytes) (k : bytes) (enc : A → bytes) (dflt a : A) : Prop :=
  m !! k = Some (enc a) ∨ m !! k = None ∧ a = dflt.

Lemma slot_insert {A : Type} (m : gmap bytes bytes) k (enc : A → bytes) dflt a :
  slot (<[k := enc a]> m) k enc dflt a.
Proof. left. apply lookup_insert_eq. Qed.
Lemma slot_ne {A : Type} (m : gmap bytes bytes) k k' (enc : A → bytes) dflt a x :
  k' ≠ k → slot m k enc dflt a → slot (<[k' := x]> m) k enc dflt a.
Proof. intros Hne. unfold slot. by rewrite lookup_insert_ne. Qed.

Section repr.
Context {D : Type} `{SledLaws D, UuidText}.
Context `{Message GroceryItem, Message SessionRecord, Message CommittedMutation, Message Timestamp, Message SnapshotData}.
Context `{!MessageLaws GroceryItem, !MessageLaws SessionRecord, !MessageLaws Timestamp}.
Implicit Types (ts : gmap string (gmap bytes bytes)) (v : FsmView) (s : LactoStore D).

Record meta_repr (m : gmap bytes bytes) v : Prop := {
  mr_applied : slot m Lacto.KEY_LAST_APPLIED to_be_bytes 0 (fv_applied v);
  mr_time : slot m Lacto.KEY_LAST_EFFECTIVE_TIME encode_to_vec (mkTimestamp 0 0) (fv_time v);
  mr_clean : m !! Lacto.KEY_RESTORE_IN_PROGRESS ≠ Some Lacto.TRUE;
}.

Record fsm_repr ts v : Prop := {
  fr_inventory : tree_at ts Lacto.TREE_INVENTORY = tree_of (fv_inventory v);
  fr_sessions : tree_at ts Lacto.TREE_SESSIONS = tree_of (fv_sessions v);
  fr_meta : meta_repr (tree_at ts Lacto.TREE_META) v;
  fr_ok : fv_ok v;
}.

(** Reads see [v]; [v] is also on disk. *)
Definition holds s v : Prop := fsm_repr (sled_trees (fs_db s)) v.
Definition stored s v : Prop := fsm_repr (sled_disk (fs_db s)) v.

Definition io_failure (e : FsmError) : Prop := ∃ msg, e = Fsm_Persistence msg.

(** *** Reads *)

Lemma wp_reads_db {A : Type} (f : D → result FsmError A) (a : A) s (Q : A → LactoStore D → Prop) (R : FsmError → LactoStore D → Prop) :
  match f (fs_db s) with Ok x => x = a | Err e => io_failure e end →
  Q a s → (∀ e, io_failure e → R e s) → wp (Lacto.reads f) Q R s.
Proof.
  intros Hf HQ HR. unfold Lacto.reads. apply wp_reads; intros x Hx; rewrite Hx in Hf.
  - by subst.
  - by apply HR.
Qed.

Lemma slot_read {A : Type} (m : gmap bytes bytes) k (enc : A → bytes) dflt a (dec : bytes → result FsmError A) d t
    (msg : string) :
  m = tree_at (sled_trees d) t → slot m k enc dflt a → dec (enc a) = Ok a →
  match (o ← Lacto.persistence msg (sled_get t k d); opt ← transpose (dec <$> o); mret (default dflt opt)) with
  | Ok x => x = a | Err e => io_failure e end.
Proof.
  intros -> Hs Hdec. unfold Lacto.persistence, mbind, result_bind.
  destruct (sled_get t k d) as [o|] eqn:Hget; cbn; [|by eexists].
  apply sled_get_law in Hget as ->. destruct Hs as [Hs|[Hs ->]]; rewrite Hs; cbn; [|done].
  by rewrite Hdec.
Qed.

Lemma read_applied_law d v :
  fsm_repr (sled_trees d) v →
  match Lacto.read_applied d with Ok x => x = fv_applied v | Err e => io_failure e end.
Proof.
  intros [_ _ [Ha _ _] Hok]. eapply slot_read; [done|exact Ha|].
  unfold Lacto.applied_value. rewrite from_to_be_bytes; [done|apply Hok].
Qed.
Lemma last_effective_time_law d v :
  fsm_repr (sled_trees d) v →
  match Lacto.last_effective_time d with Ok x => x = fv_time v | Err e => io_failure e end.
Proof.
  intros [_ _ [_ Ht _] Hok]. eapply slot_read; [done|exact Ht|].
  unfold Lacto.decode_timestamp. rewrite decode_encode_to_vec; [done|apply Hok].
Qed.
Lemma get_session_record_law d v client :
  fsm_repr (sled_trees d) v →
  match Lacto.get_session_record client d with
  | Ok x => x = fv_sessions v !! client | Err e => io_failure e end.
Proof.
  intros [_ Hs _ Hok]. unfold Lacto.get_session_record, Lacto.persistence, mbind, result_bind.
  destruct (sled_get _ _ d) as [o|] eqn:Hget; cbn; [|by eexists].
  apply sled_get_law in Hget as ->. rewrite Hs, lookup_tree_of.
  destruct (fv_sessions v !! client) as [r|] eqn:Hr; cbn; [|done].
  rewrite decode_encode_to_vec; [done|]. by eapply fo_sessions.
Qed.

(** *** Writes *)

Lemma wp_writes {A : Type} msg (m : st D SledError A) s (Q : A → LactoStore D → Prop) (R : FsmError → LactoStore D → Prop) :
  wp m (λ a d', Q a (Lacto.set_db d' s)) (λ _ d', R (Fsm_Persistence msg) (Lacto.set_db d' s)) (fs_db s) →
  wp (Lacto.writes msg m) Q R s.
Proof. intros Hm. unfold Lacto.writes. by apply wp_map_err, wp_zoom. Qed.

(** The two keys and the tombstone are distinct. *)
Lemma keys_distinct :
  Lacto.KEY_LAST_APPLIED ≠ Lacto.KEY_LAST_EFFECTIVE_TIME ∧
  Lacto.KEY_LAST_APPLIED ≠ Lacto.KEY_RESTORE_IN_PROGRESS ∧
  Lacto.KEY_LAST_EFFECTIVE_TIME ≠ Lacto.KEY_RESTORE_IN_PROGRESS.
Proof. split_and!; intros Heq; vm_compute in Heq; congruence. Qed.

Lemma meta_repr_applied m v i :
  meta_repr m v →
  meta_repr (<[Lacto.KEY_LAST_APPLIED := to_be_bytes i]> m) (set_applied i v).
Proof.
  destruct keys_distinct as (H1' & H2' & _). intros [Ha Ht Hc]. split.
  - apply slot_insert.
  - by apply slot_ne.
  - by rewrite lookup_insert_ne.
Qed.
Lemma meta_repr_commit m v i t inv ses :
  meta_repr m v →
  meta_repr (<[Lacto.KEY_LAST_EFFECTIVE_TIME := encode_to_vec t]>
               (<[Lacto.KEY_LAST_APPLIED := to_be_bytes i]> m)) (mkFsmView inv ses i t).
Proof.
  destruct keys_distinct as (H1' & H2' & H3'). intros [Ha Ht Hc]. split; cbn.
  - apply slot_ne; [done|]. apply slot_insert.
  - apply slot_insert.
  - by rewrite !lookup_insert_ne.
Qed.

Lemma max_timestamp_ok t1 t2 : wire_ok t1 → wire_ok t2 → wire_ok (Lacto.max_timestamp t1 t2).
Proof. unfold Lacto.max_timestamp. by destruct (_ || _). Qed.

Lemma commit_view_ok index m status record t v :
  fv_ok v → U64 index → wire_ok m → wire_ok record → wire_ok t →
  fv_ok (commit_view index m status record t v).
Proof.
  intros Hv Hi Hm Hr Ht. split; cbn.
  - intros k i. destruct (decide _); [|apply Hv]. destruct (cm_is_delete m).
    + rewrite lookup_delete_Some. intros [_ Hk]. by eapply fo_items.
    + rewrite lookup_insert_Some. intros [[<- <-]|[_ Hk]]; [|by eapply fo_items].
      split; [|done]. split; [done|]. cbn. by destruct Hm as (_ & Hm & _), (cm_event_time m).
  - intros k r. rewrite lookup_insert_Some. intros [[<- <-]|[_ Hk]]; [done|by eapply fo_sessions].
  - done.
  - apply max_timestamp_ok; [done|apply Hv].
Qed.

(** The transaction is the abstract commit. *)
Lemma commit_ops_repr ts v index m status record t :
  fsm_repr ts v → U64 index → wire_ok m → wire_ok record → wire_ok t →
  fsm_repr
    (apply_tree_ops ts (Lacto.commit_ops index m status record (Lacto.max_timestamp t (fv_time v))))
    (commit_view index m status record t v).
Proof.
  intros [Hinv Hses Hmeta Hok] Hi Hm Hr Ht. unfold Lacto.commit_ops, apply_tree_ops.
  rewrite foldl_app. set (ts1 := foldl apply_tree_op ts _).
  assert (tree_at ts1 Lacto.TREE_INVENTORY = tree_of (fv_inventory (commit_view index m status record t v)) ∧
    tree_at ts1 Lacto.TREE_SESSIONS = tree_at ts Lacto.TREE_SESSIONS ∧
    tree_at ts1 Lacto.TREE_META = tree_at ts Lacto.TREE_META) as (H1' & H2' & H3').
  { unfold ts1, commit_view. cbn [fv_inventory]. destruct (decide (status = MS_Committed)); [|done].
    cbn -[tree_at]. unfold apply_tree_op. cbn -[tree_at]. rewrite tree_at_insert_eq, !tree_at_insert_ne by done.
    rewrite Hinv. split_and!; [|done..].
    destruct (cm_is_delete m); cbn [apply_op]; [apply tree_of_delete|apply tree_of_insert]. }
  clearbody ts1. cbn -[tree_at]. unfold apply_tree_op. cbn -[tree_at].
  split.
  - by rewrite !tree_at_insert_ne by done.
  - rewrite 2!tree_at_insert_ne, tree_at_insert_eq by done. rewrite H2', Hses. apply tree_of_insert.
  - rewrite !tree_at_insert_eq, tree_at_insert_ne by done. rewrite H3'.
    by apply (meta_repr_commit _ v).
  - by apply commit_view_ok.
Qed.

Lemma applied_op_repr ts v i :
  fsm_repr ts v → U64 i →
  fsm_repr (apply_tree_op ts (Lacto.TREE_META, BInsert Lacto.KEY_LAST_APPLIED (to_be_bytes i)))
    (set_applied i v).
Proof.
  intros [Hinv Hses Hmeta Hok] Hi. unfold apply_tree_op. cbn [fst snd apply_op]. split.
  - by rewrite tree_at_insert_ne.
  - by rewrite tree_at_insert_ne.
  - rewrite tree_at_insert_eq. by apply meta_repr_applied.
  - destruct Hok. by split.
Qed.

(** A write of the view [v'] followed by a flush. *)
Lemma write_and_flush msg1 msg2 (m : st D SledError unit) s v v' :
  holds s v →
  (∀ ts, fsm_repr ts v → sled_trees (fs_db s) = ts →
    ∃ ts', fsm_repr ts' v' ∧
      wp m (λ _ d', sled_trees d' = ts' ∧ disk_step (fs_db s) d')
        (λ _ d', (sled_trees d' = sled_trees (fs_db s) ∨ sled_trees d' = ts') ∧ disk_step (fs_db s) d')
        (fs_db s)) →
  wp (_ ← Lacto.writes msg1 m; Lacto.writes msg2 sled_flush)
    (λ _ s', holds s' v' ∧ stored s' v' ∧ fs_poisoned s' = fs_poisoned s)
    (λ e s', io_failure e ∧ fs_poisoned s' = fs_poisoned s ∧ (holds s' v ∨ holds s' v') ∧
       (stored s v → stored s' v ∨ stored s' v')) s.
Proof.
  intros Hv Hm. destruct (Hm _ Hv eq_refl) as (ts' & Hts' & Hwp). clear Hm.
  unfold holds, stored in *.
  wp_step. apply wp_writes. eapply wp_mono; [exact Hwp|..]; cbn beta.
  - intros _ d1 [Ht1 Hd1]. apply wp_writes. eapply wp_mono; [apply sled_flush_law|..]; cbn beta; cbn [fs_db Lacto.set_db fs_poisoned].
    + intros _ d2 [-> ->]. by rewrite Ht1.
    + intros _ d2 [Ht2 Hd2]. split_and!; [by eexists|done|right; by rewrite Ht2, Ht1|].
      intros Hst. destruct Hd2 as [->|[->| ->]]; [|right; by rewrite Ht1|right; by rewrite Ht2, Ht1].
      destruct Hd1 as [->|[->| ->]]; [by left|by left|right; by rewrite Ht1].
  - intros _ d1 [Ht1 Hd1]. cbn [fs_db Lacto.set_db fs_poisoned]. split_and!; [by eexists|done| |].
    + destruct Ht1 as [->| ->]; auto.
    + intros Hst. destruct Hd1 as [->|[->| ->]]; [by left|by left|].
      destruct Ht1 as [->| ->]; auto.
Qed.

(** ** [apply] *)

Definition apply_ok index m v s' : Prop :=
  ∃ v', fsm_step index m v = Ok v' ∧ holds s' v' ∧ stored s' v' ∧ fs_poisoned s' = false.
(** A failed [apply]: an error of the step, which leaves the database alone
    and poisons the store when it is a violation, or a failure of the disk. *)
Definition apply_failed index m s v (e : FsmError) s' : Prop :=
  fsm_step index m v = Err e ∧ fs_db s' = fs_db s ∧ fs_poisoned s' = poisons e ∨
  io_failure e ∧ fs_poisoned s' = false ∧
  (holds s' v ∨ ∃ v', fsm_step index m v = Ok v' ∧ holds s' v') ∧
  (stored s v → stored s' v ∨ ∃ v', fsm_step index m v = Ok v' ∧ stored s' v').

Lemma read_failed index m s v e :
  holds s v → fs_poisoned s = false → io_failure e → apply_failed index m s v e s.
Proof. intros Hv Hp He. right. split_and!; eauto. Qed.

Lemma wp_check_not_poisoned s (Q : unit → LactoStore D → Prop) (R : FsmError → LactoStore D → Prop) :
  fs_poisoned s = false → Q tt s → wp Lacto.check_not_poisoned Q R s.
Proof. intros Hp HQ. apply wp_reads; rewrite Hp; [by intros ? [= <-]|done]. Qed.

(** A violation found by [apply]. *)
Lemma wp_violation {A : Type} msg s (Q : A → LactoStore D → Prop) (R : FsmError → LactoStore D → Prop) :
  R (Fsm_Invariant msg) (mkLactoStore (fs_db s) true) →
  wp (_ ← Lacto.poison_store; st_fail (Fsm_Invariant msg)) Q R s.
Proof. intros HR. unfold Lacto.poison_store. by wp_steps. Qed.

Lemma validate_log_monotonicity_spec index s v (Q : unit → LactoStore D → Prop) (R : FsmError → LactoStore D → Prop) :
  fs_poisoned s = false → holds s v →
  (∀ e, io_failure e → R e s) →
  (∀ e, index_add (fv_applied v) 1 = Err e → R (Fsm_Arithmetic e) s) →
  (∀ next, index_add (fv_applied v) 1 = Ok next → (index =? next) = false →
     R (Fsm_Invariant "Non-sequential LogIndex apply attempted.") (mkLactoStore (fs_db s) true)) →
  (∀ next, index_add (fv_applied v) 1 = Ok next → (index =? next) = true → Q tt s) →
  wp (Lacto.validate_log_monotonicity index) Q R s.
Proof.
  intros Hp Hv Hio Har Hbad Hgood. unfold Lacto.validate_log_monotonicity, Lacto.last_applied_index.
  wp_steps. apply wp_check_not_poisoned; [done|].
  eapply wp_reads_db; [by apply read_applied_law| |done].
  wp_step. apply wp_lift; intros x Hx; destruct (index_add (fv_applied v) 1) as [next|e] eqn:Hn; try done;
    injection Hx as <-; [|by apply Har].
  destruct (index =? next) eqn:Heq; cbn [negb]; [apply wp_ret; by apply (Hgood next)|].
  apply wp_violation. by apply (Hbad next).
Qed.

(** A write that completes a step. *)
Lemma finish_step msg1 msg2 (w : st D SledError unit) index m s v v' ts' :
  holds s v → fs_poisoned s = false → fsm_step index m v = Ok v' → fsm_repr ts' v' →
  wp w (λ _ d', sled_trees d' = ts' ∧ disk_step (fs_db s) d')
    (λ _ d', (sled_trees d' = sled_trees (fs_db s) ∨ sled_trees d' = ts') ∧ disk_step (fs_db s) d')
    (fs_db s) →
  wp (_ ← Lacto.writes msg1 w; Lacto.writes msg2 sled_flush)
    (λ _ s', apply_ok index m v s') (apply_failed index m s v) s.
Proof.
  intros Hv Hp Hstep Hts Hw.
  eapply wp_mono; [apply (write_and_flush _ _ _ s v v' Hv); intros ? _ _; by exists ts'|..]; cbn beta.
  - intros _ s' (? & ? & ?). exists v'. split_and!; [done..|congruence].
  - intros e s' (He & Hps & Hh & Hst). right. split_and!; [done|congruence| |].
    + destruct Hh; [by left|right; eauto].
    + intros Hs0. destruct (Hst Hs0); [by left|right; eauto].
Qed.

Lemma apply_spec index data m s v :
  decode_msg data = Ok m → wire_ok m → fs_poisoned s = false → holds s v →
  wp (Lacto.apply index data) (λ _ s', apply_ok index m v s') (apply_failed index m s v) s.
Proof.
  intros Hdec Hm Hp Hv. unfold Lacto.apply. wp_step. apply wp_check_not_poisoned; [done|].
  wp_step. apply wp_lift; intros x Hx; rewrite Hdec in Hx; [injection Hx as <-|done].
  wp_step. apply (validate_log_monotonicity_spec index s v); try done.
  { intros e He. by apply read_failed. }
  { intros e He. left. unfold fsm_step. by rewrite He. }
  { intros next Hn Heq. left. unfold fsm_step. rewrite Hn. cbn. by rewrite Heq. }
  intros next Hn Heq. assert (U64 index) as Hi.
  { apply N.eqb_eq in Heq as ->. by apply newtype_add_Ok in Hn as [_ ?]. }
  assert (fsm_step index m v = session_step index m v) as Hstep.
  { unfold fsm_step. rewrite Hn. cbn. by rewrite Heq. }
  unfold session_step in Hstep. clear Hn Heq. wp_step. unfold Lacto.parse_client_id.
  destruct (ClientId_from_str (cm_client_id m)) as [id|]; [apply wp_ret|].
  2: { apply wp_violation. left. by rewrite Hstep. }
  wp_step. eapply wp_reads_db; [by apply get_session_record_law| |].
  2: { intros e He. by apply read_failed. }
  fold (last_seen v (cm_client_id m)). wp_step. apply wp_lift.
  2: { intros e He. left. destruct (seq_add _ 1) as [|e'] eqn:Hs; [done|]. injection He as <-.
       by rewrite Hstep. }
  intros expected Hexp. destruct (seq_add _ 1) as [x|] eqn:Hs; [|done]. injection Hexp as ->. cbn in Hstep.
  destruct (cm_sequence_id m <=? last_seen v (cm_client_id m)).
  { eapply finish_step; [done|done|exact Hstep|by apply applied_op_repr|apply sled_insert_law]. }
  destruct (expected <? cm_sequence_id m).
  { apply wp_violation. left. by rewrite Hstep. }
  destruct (MutationStatus_try_from (cm_status m)) as [status|] eqn:Hstatus.
  2: { apply wp_violation. left. by rewrite Hstep. }
  destruct (cm_event_time m) as [t|] eqn:Htime.
  2: { apply wp_violation. left. by rewrite Hstep. }
  assert (wire_ok t) as Ht by (destruct Hm as (_ & Hm & _); by rewrite Htime in Hm).
  wp_step. eapply wp_reads_db; [by apply last_effective_time_law| |].
  2: { intros e He. by apply read_failed. }
  eapply finish_step; [done|done|exact Hstep| |apply sled_transaction_law].
  apply commit_ops_repr; try done. split_and!; cbn; [apply Hm|done| |done]. by destruct status.
Qed.

(** Empty trees hold the empty view. *)
Lemma empty_fsm_repr : fsm_repr ∅ empty_fsm.
Proof.
  split; try change (tree_at _ _) with (∅ : gmap bytes bytes).
  - symmetry. apply tree_of_empty.
  - symmetry. apply tree_of_empty.
  - split; [right|right|]; by rewrite lookup_empty.
  - split; cbn; [intros k i; by rewrite lookup_empty|intros k r; by rewrite lookup_empty|done|split; cbn; lia].
Qed.
End repr.
