(* ===== verification/FsmProps.v ===== *)
(** Properties of the state machine: exactly-once application, gap-free
    sessions, a monotone clock, agreement of replicas, snapshots and their
    crash recovery. *)
From S2P Require Import Prelude Machine Types Wire Sled Fsm FsmSpec.

(** ** Replaying a log *)

(** The order of clinical times. *)
Definition time_le (t u : Timestamp) : Prop :=
  (ts_seconds t < ts_seconds u ∨ ts_seconds t = ts_seconds u ∧ ts_nanos t ≤ ts_nanos u)%Z.
#[global] Instance time_le_refl : Reflexive time_le.
Proof. intros t. right. lia. Qed.
#[global] Instance time_le_trans : Transitive time_le.
Proof. intros t u w [] []; unfold time_le; lia. Qed.

Lemma max_timestamp_le t u :
  time_le t (Lacto.max_timestamp t u) ∧ time_le u (Lacto.max_timestamp t u).
Proof.
  unfold Lacto.max_timestamp, time_le.
  destruct (Z.ltb_spec (ts_seconds u) (ts_seconds t)); cbn; [lia|].
  destruct (Z.eqb_spec (ts_seconds t) (ts_seconds u)); cbn; [|lia].
  destruct (Z.ltb_spec (ts_nanos u) (ts_nanos t)); cbn; lia.
Qed.

Section abstract.
Context `{UuidText}.

(** The entries [ms] in order, the first at the index after the last one
    applied. *)
Fixpoint fsm_replay (ms : list CommittedMutation) (v : FsmView) : result FsmError FsmView :=
  match ms with
  | [] => Ok v
  | m :: rest =>
      v' ← fsm_step (fv_applied v + 1) m v;
      fsm_replay rest v'
  end.

(** What a successful step did. *)
Lemma fsm_step_cases index m v v' :
  fsm_step index m v = Ok v' →
  index = fv_applied v + 1 ∧
  (cm_sequence_id m ≤ last_seen v (cm_client_id m) ∧ v' = set_applied index v ∨
   cm_sequence_id m = last_seen v (cm_client_id m) + 1 ∧
   ∃ id status t, ClientId_from_str (cm_client_id m) = Ok id ∧
     MutationStatus_try_from (cm_status m) = Some status ∧ cm_event_time m = Some t ∧
     v' = commit_view index m status
            (SessionRecord_new id (cm_sequence_id m) status index (cm_moral_justification m) t) t v).
Proof.
  unfold fsm_step. destruct (index_add _ 1) as [next|] eqn:Hn; cbn; [|done].
  apply newtype_add_Ok in Hn as [-> _].
  destruct (N.eqb_spec index (fv_applied v + 1)) as [->|]; cbn; [|done].
  unfold session_step. destruct (ClientId_from_str (cm_client_id m)) as [id|]; [|done].
  destruct (seq_add _ 1) as [ex|] eqn:Hs; cbn; [|done]. apply newtype_add_Ok in Hs as [-> _].
  destruct (N.leb_spec (cm_sequence_id m) (last_seen v (cm_client_id m))).
  { intros [= <-]. split; [done|]. by left. }
  destruct (N.ltb_spec (last_seen v (cm_client_id m) + 1) (cm_sequence_id m)); [done|].
  destruct (MutationStatus_try_from _) as [status|]; [|done].
  destruct (cm_event_time m) as [t|]; [|done]. intros [= <-].
  split; [done|]. right. split; [lia|]. by exists id, status, t.
Qed.

Lemma last_seen_commit index m status id t v c :
  last_seen (commit_view index m status
    (SessionRecord_new id (cm_sequence_id m) status index (cm_moral_justification m) t) t v) c
  = if decide (c = cm_client_id m) then cm_sequence_id m else last_seen v c.
Proof.
  unfold last_seen. cbn. destruct (decide (c = cm_client_id m)) as [->|Hne].
  - by rewrite lookup_insert_eq.
  - by rewrite lookup_insert_ne.
Qed.

Lemma fsm_step_time index m v v' : fsm_step index m v = Ok v' → time_le (fv_time v) (fv_time v').
Proof.
  intros Hs. destruct (fsm_step_cases _ _ _ _ Hs) as [_ [[_ ->]|(_ & id & st & t & _ & _ & _ & ->)]].
  - cbn. reflexivity.
  - cbn. apply max_timestamp_le.
Qed.

(** Every session record carries the client id it is filed under. *)
Definition canonical (v : FsmView) : Prop := ∀ k r, fv_sessions v !! k = Some r → sr_client_id r = k.

(** A ledger whose client ids are in canonical form keeps it so. *)
Lemma fsm_step_canonical index m v v' :
  canonical v → uuid_parse (cm_client_id m) = Some (cm_client_id m) →
  fsm_step index m v = Ok v' → canonical v'.
Proof.
  intros Hc Hid Hs. destruct (fsm_step_cases _ _ _ _ Hs) as [_ [[_ ->]|(_ & id & st & t & Hp & _ & _ & ->)]].
  { done. }
  unfold ClientId_from_str in Hp. rewrite Hid in Hp. injection Hp as <-.
  intros k r. cbn. rewrite lookup_insert_Some. intros [[<- <-]|[_ Hr]]; [done|by apply Hc].
Qed.

Lemma fsm_replay_canonical ms v v' :
  canonical v → Forall (λ m, uuid_parse (cm_client_id m) = Some (cm_client_id m)) ms →
  fsm_replay ms v = Ok v' → canonical v'.
Proof.
  intros Hc Hms. revert v Hc. induction Hms as [|m ms Hm _ IH]; intros v Hc; cbn; [by intros [= <-]|].
  destruct (fsm_step _ m v) as [v1|] eqn:Hs; cbn; [|done]. apply IH. by eapply fsm_step_canonical.
Qed.
Lemma fsm_replay_app ms1 ms2 v :
  fsm_replay (ms1 ++ ms2) v = (v' ← fsm_replay ms1 v; fsm_replay ms2 v').
Proof.
  revert v. induction ms1 as [|m ms1 IH]; intros v; [done|]. cbn.
  destruct (fsm_step _ m v); cbn; [apply IH|done].
Qed.
(** A session never goes back. *)
Lemma fsm_replay_last_seen ms v v' c :
  fsm_replay ms v = Ok v' → last_seen v c ≤ last_seen v' c ∧
  (∀ m, m ∈ ms → cm_sequence_id m ≤ last_seen v' (cm_client_id m)).
Proof.
  revert v c. induction ms as [|m ms IH]; intros v c; cbn.
  { intros [= <-]. split; [done|]. by intros m ?%elem_of_nil. }
  destruct (fsm_step _ m v) as [v1|] eqn:Hs; cbn; [|done]. intros Hr.
  assert (last_seen v c ≤ last_seen v1 c ∧ cm_sequence_id m ≤ last_seen v1 (cm_client_id m)) as [H1 H2].
  { destruct (fsm_step_cases _ _ _ _ Hs) as [_ [[? ->]|(? & id & st & t & _ & _ & _ & ->)]]; [done|].
    rewrite !last_seen_commit, (decide_True (P:=cm_client_id m = cm_client_id m)) by done.
    destruct (decide _); subst; lia. }
  split; [destruct (IH _ c Hr); lia|]. intros x [->|Hx]%elem_of_cons.
  - destruct (IH _ (cm_client_id m) Hr). lia.
  - by apply (IH _ c Hr).
Qed.
(** Replaying what every session has seen moves the applied index only. *)
Lemma fsm_replay_duplicates ms v v' :
  (∀ m, m ∈ ms → cm_sequence_id m ≤ last_seen v (cm_client_id m)) →
  fsm_replay ms v = Ok v' → v' = set_applied (fv_applied v + N.of_nat (length ms)) v.
Proof.
  revert v. induction ms as [|m ms IH]; intros v Hdup; cbn.
  { intros [= <-]. destruct v. unfold set_applied. cbn. f_equal. lia. }
  destruct (fsm_step _ m v) as [v1|] eqn:Hs; cbn; [|done].
  specialize (Hdup m ltac:(set_solver)) as Hm.
  destruct (fsm_step_cases _ _ _ _ Hs) as [_ [[_ ->]|(? & _)]]; [|lia].
  intros Hr%IH; [|intros x Hx; apply (Hdup x); set_solver].
  rewrite Hr. unfold set_applied. cbn. f_equal. lia.
Qed.

(** The sequence numbers of a client among [ms] are those from 1 on, with no
    gap, and repetitions. *)
Definition gap_free (ms : list CommittedMutation) (c : string) (n : SequenceId) : Prop :=
  (∀ m, m ∈ ms → cm_client_id m = c → cm_sequence_id m ≤ n) ∧
  (∀ q, 1 ≤ q → q ≤ n → ∃ m, m ∈ ms ∧ cm_client_id m = c ∧ cm_sequence_id m = q).

Lemma gap_free_step ms m index v v' c :
  gap_free ms c (last_seen v c) → fsm_step index m v = Ok v' →
  gap_free (ms ++ [m]) c (last_seen v' c).
Proof.
  intros [Hle Hall] Hs.
  destruct (fsm_step_cases _ _ _ _ Hs) as [_ [[Hdup ->]|(Hnew & id & st & t & _ & _ & _ & ->)]].
  - change (last_seen (set_applied index v) c) with (last_seen v c). split.
    + intros x [Hx|Hx]%elem_of_app; [by apply Hle|]. apply list_elem_of_singleton in Hx as ->.
      by intros <-.
    + intros q H1 H2. destruct (Hall q H1 H2) as (x & Hx & ? & ?). exists x. set_solver.
  - rewrite last_seen_commit. destruct (decide (c = cm_client_id m)) as [->|Hne]; split.
    + intros x [Hx|Hx]%elem_of_app Hc.
      * specialize (Hle x Hx Hc). lia.
      * apply list_elem_of_singleton in Hx as ->. lia.
    + intros q H1 H2. destruct (N.eq_dec q (cm_sequence_id m)) as [->|Hne].
      * exists m. set_solver.
      * destruct (Hall q H1) as (x & Hx & ? & ?); [lia|]. exists x. set_solver.
    + intros x [Hx|Hx]%elem_of_app Hc; [by apply Hle|].
      apply list_elem_of_singleton in Hx as ->. congruence.
    + intros q H1 H2. destruct (Hall q H1 H2) as (x & Hx & ? & ?). exists x. set_solver.
Qed.

Lemma fsm_replay_gap_free seen ms v v' :
  (∀ c, gap_free seen c (last_seen v c)) → fsm_replay ms v = Ok v' →
  ∀ c, gap_free (seen ++ ms) c (last_seen v' c).
Proof.
  revert seen v. induction ms as [|m ms IH]; intros seen v Hseen; cbn.
  { intros [= <-]. by rewrite app_nil_r. }
  destruct (fsm_step _ m v) as [v1|] eqn:Hs; cbn; [|done]. intros Hr c.
  replace (seen ++ m :: ms) with ((seen ++ [m]) ++ ms) by (by rewrite <-app_assoc).
  eapply IH; [|done]. intros c'. by eapply gap_free_step.
Qed.
Lemma fsm_replay_time ms v v' : fsm_replay ms v = Ok v' → time_le (fv_time v) (fv_time v').
Proof.
  revert v. induction ms as [|m ms IH]; intros v; cbn; [by intros [= <-]|].
  destruct (fsm_step _ m v) as [v1|] eqn:Hs; cbn; [|done]. intros Hr.
  transitivity (fv_time v1); [by eapply fsm_step_time|by apply IH].
Qed.
Lemma fsm_replay_applied ms v v' :
  fsm_replay ms v = Ok v' → fv_applied v' = fv_applied v + N.of_nat (length ms).
Proof.
  revert v. induction ms as [|m ms IH]; intros v; cbn; [intros [= <-]; lia|].
  destruct (fsm_step _ m v) as [v1|] eqn:Hs; cbn; [|done]. intros Hr%IH. rewrite Hr.
  destruct (fsm_step_cases _ _ _ _ Hs) as [_ [[_ ->]|(_ & id & st & t & _ & _ & _ & ->)]]; cbn; lia.
Qed.
End abstract.

(** ** The code *)

Section props.
Context {D : Type} `{SledLaws D, UuidText}.
Context `{Message GroceryItem, Message SessionRecord, Message CommittedMutation, Message Timestamp, Message SnapshotData}.
Context `{!MessageLaws GroceryItem, !MessageLaws SessionRecord, !MessageLaws CommittedMutation, !MessageLaws Timestamp, !MessageLaws SnapshotData}.
Implicit Types (s : LactoStore D) (v : FsmView).

(** The applier's loop: the entries in order, the first at [index]. *)
Fixpoint apply_all (index : LogIndex) (log : list bytes) : st (LactoStore D) FsmError unit :=
  match log with
  | [] => mret tt
  | data :: rest =>
      _ ← Lacto.apply index data;
      apply_all (index + 1) rest
  end.

Definition decodes (log : list bytes) (ms : list CommittedMutation) : Prop :=
  Forall2 (λ data m, decode_msg data = Ok m ∧ wire_ok m) log ms.

Lemma apply_all_replay log ms index s v s' :
  decodes log ms → fs_poisoned s = false → holds s v → index = fv_applied v + 1 →
  apply_all index log s = (Ok tt, s') →
  fs_poisoned s' = false ∧ ∃ v', fsm_replay ms v = Ok v' ∧ holds s' v'.
Proof.
  intros Hlog. revert index s v. induction Hlog as [|data m log ms [Hdec Hm] _ IH]; intros index s v Hp Hv ->; cbn.
  { intros [= <-]. split; [done|]. by exists v. }
  unfold mbind, st_bind. destruct (Lacto.apply (fv_applied v + 1) data s) as [[[]|e] s1] eqn:Hrun; [|done].
  pose proof (wp_run _ _ _ _ _ _ (apply_spec _ data m s v Hdec Hm Hp Hv) Hrun) as (v1 & Hs & Hv1 & _ & Hp1).
  intros Hrest. rewrite Hs. cbn.
  eapply (IH (fv_applied v + 1 + 1) s1 v1); [done|done| |done].
  destruct (fsm_step_cases _ _ _ _ Hs) as [_ [[_ ->]|(_ & id & st & t & _ & _ & _ & ->)]]; done.
Qed.

(** C11: [apply] refines the abstract step.  When it returns, the database
    holds the stepped state and so does the disk; an error of the step leaves
    the database alone and poisons the store exactly when it is a violated
    invariant; a failure of the disk leaves the old or the new state, never a
    mixture. *)
Theorem apply_refines index data m s v r s' :
  decode_msg data = Ok m → wire_ok m → fs_poisoned s = false → holds s v →
  Lacto.apply index data s = (r, s') →
  match r with
  | Ok _ => ∃ v', fsm_step index m v = Ok v' ∧ holds s' v' ∧ stored s' v' ∧ fs_poisoned s' = false
  | Err e => apply_failed index m s v e s'
  end.
Proof. intros Hdec Hm Hp Hv Hrun. by destruct r; apply (wp_run _ _ _ _ _ _ (apply_spec index data m s v Hdec Hm Hp Hv) Hrun). Qed.

(** Exactly-once.  An entry that is applied and then retried, at the
    next index, changes nothing the second time but the applied index: the
    inventory, the sessions and the clock are those after the first. *)
Theorem retry_applies_once index data m s v s1 s2 :
  decode_msg data = Ok m → wire_ok m → fs_poisoned s = false → holds s v →
  Lacto.apply index data s = (Ok tt, s1) → Lacto.apply (index + 1) data s1 = (Ok tt, s2) →
  ∃ v1, fsm_step index m v = Ok v1 ∧ holds s1 v1 ∧ holds s2 (set_applied (index + 1) v1).
Proof.
  intros Hdec Hm Hp Hv Hrun1 Hrun2.
  destruct (wp_run _ _ _ _ _ _ (apply_spec _ data m s v Hdec Hm Hp Hv) Hrun1) as (v1 & Hs1 & Hv1 & _ & Hp1).
  destruct (wp_run _ _ _ _ _ _ (apply_spec _ data m s1 v1 Hdec Hm Hp1 Hv1) Hrun2) as (v2 & Hs2 & Hv2 & _).
  exists v1. split_and!; [done..|].
  destruct (fsm_step_cases _ _ _ _ Hs2) as [_ [[_ ->]|(Hnew & _)]]; [done|]. exfalso.
  destruct (fsm_step_cases _ _ _ _ Hs1) as [_ [[Hle ->]|(_ & id & st & t & _ & _ & _ & ->)]].
  - unfold last_seen in *. cbn in Hnew. lia.
  - rewrite last_seen_commit, decide_True in Hnew by done. lia.
Qed.

(** C28: no lost mutation.  After any log that the state machine accepts, the
    sequence numbers each client has in the log are exactly those from 1 to
    the one in its session record: a gap is never accepted. *)
Theorem sessions_gap_free log ms s s' :
  decodes log ms → fs_poisoned s = false → holds s empty_fsm →
  apply_all 1 log s = (Ok tt, s') →
  ∃ v, holds s' v ∧ ∀ c, gap_free ms c (last_seen v c).
Proof.
  intros Hlog Hp Hh Hrun.
  destruct (apply_all_replay log ms 1 s empty_fsm s' Hlog Hp Hh eq_refl Hrun) as (_ & v & Hr & Hv).
  exists v. split; [done|]. apply (fsm_replay_gap_free [] ms empty_fsm v); [|done].
  intros c. unfold last_seen. cbn. rewrite lookup_empty. cbn. split; [by intros m ?%elem_of_nil|lia].
Qed.

(** The clinical clock never runs backwards, whatever the event times of
    the entries. *)
Theorem clock_monotone log ms index s v s' :
  decodes log ms → fs_poisoned s = false → holds s v → index = fv_applied v + 1 →
  apply_all index log s = (Ok tt, s') →
  ∃ v', holds s' v' ∧ time_le (fv_time v) (fv_time v').
Proof.
  intros Hlog Hp Hh Hi Hrun.
  destruct (apply_all_replay log ms index s v s' Hlog Hp Hh Hi Hrun) as (_ & v' & Hr & Hv).
  exists v'. split; [done|]. by eapply fsm_replay_time.
Qed.

(** A poisoned state machine refuses everything: no operation reads or
    changes it. *)
Theorem poisoned_store_refuses index data client seq s :
  fs_poisoned s = true →
  Lacto.apply index data s = (Err Fsm_Poisoned, s) ∧
  Lacto.install_snapshot index data s = (Err Fsm_Poisoned, s) ∧
  Lacto.snapshot s = (Err Fsm_Poisoned, s) ∧
  Lacto.check_session client seq s = (Err Fsm_Poisoned, s) ∧
  Lacto.get_inventory s = (Err Fsm_Poisoned, s) ∧
  Lacto.last_applied_index s = (Err Fsm_Poisoned, s).
Proof.
  intros Hp. assert (Lacto.check_not_poisoned s = (Err Fsm_Poisoned, s)) as Hc.
  { unfold Lacto.check_not_poisoned, st_reads. by rewrite Hp. }
  unfold Lacto.apply, Lacto.install_snapshot, Lacto.snapshot, Lacto.check_session,
    Lacto.get_inventory, Lacto.last_applied_index, mbind, st_bind. by rewrite Hc.
Qed.
End props.

(** ** The properties at a concrete store

    Any text of 36 characters is a client id, and is its own canonical form. *)
Module FsmExample.
#[export] Instance uuid_text : UuidText := λ s, if (String.length s =? 36)%nat then Some s else None.
#[export] Instance item_message : Message GroceryItem := BitCodec.codec GroceryItem.
#[export] Instance session_message : Message SessionRecord := BitCodec.codec SessionRecord.
#[export] Instance mutation_message : Message CommittedMutation := BitCodec.codec CommittedMutation.
#[export] Instance time_message : Message Timestamp := BitCodec.codec Timestamp.
#[export] Instance snapshot_message : Message SnapshotData := BitCodec.codec SnapshotData.
#[export] Instance item_laws : MessageLaws GroceryItem := BitCodec.codec_laws GroceryItem.
#[export] Instance session_laws : MessageLaws SessionRecord := BitCodec.codec_laws SessionRecord.
#[export] Instance mutation_laws : MessageLaws CommittedMutation := BitCodec.codec_laws CommittedMutation.
#[export] Instance time_laws : MessageLaws Timestamp := BitCodec.codec_laws Timestamp.
#[export] Instance snapshot_laws : MessageLaws SnapshotData := BitCodec.codec_laws SnapshotData.

Definition alice : string := "0a1b2c3d-0000-4000-8000-000000000001".
(** Alice sets the milk to [qty] as her mutation number [seq] at time [t]. *)
Definition milk (seq : N) (qty : string) (t : Z) : CommittedMutation :=
  mkCommittedMutation "whole_milk" "Whole Milk" qty "ml" "ml" "Dairy" alice seq "milk" "calcium"
    (Some (mkTimestamp t 0)) false 1.
Definition blank : LactoStore MemSled.db := mkLactoStore MemSled.empty false.
Definition bytes_of (m : CommittedMutation) : bytes := encode_to_vec m.
Definition first : CommittedMutation := milk 1 "1000" 50.
Definition second : CommittedMutation := milk 2 "500" 40.
Definition log : list bytes := [bytes_of first; bytes_of first; bytes_of second].
Definition muts : list CommittedMutation := [first; first; second].

Lemma blank_holds : holds blank empty_fsm.
Proof. apply empty_fsm_repr. Qed.
Lemma milk_ok seq qty t : seq < 10 → (0 ≤ t < 1000)%Z → wire_ok (milk seq qty t).
Proof. intros Hs Ht. split_and!; cbn; unfold U64, u64_modulus, i32_ok; try split; cbn; lia. Qed.
Lemma log_decodes : decodes log muts.
Proof.
  unfold decodes, log, muts. repeat apply Forall2_cons_2; try apply Forall2_nil_2; split;
    try (apply (decode_encode_to_vec (M:=CommittedMutation)); apply milk_ok; lia);
    apply milk_ok; lia.
Qed.
Definition done1 : LactoStore MemSled.db := (Lacto.apply 1 (bytes_of first) blank).2.
Lemma first_decodes : decode_msg (bytes_of first) = Ok first.
Proof. by apply (decode_encode_to_vec (M:=CommittedMutation)), milk_ok. Qed.
Lemma done1_run : Lacto.apply 1 (bytes_of first) blank = (Ok tt, done1).
Proof. apply run_returns. by vm_compute. Qed.
Definition done2 : LactoStore MemSled.db := (Lacto.apply 2 (bytes_of first) done1).2.
Lemma done2_run : Lacto.apply 2 (bytes_of first) done1 = (Ok tt, done2).
Proof. apply run_returns. by vm_compute. Qed.
Definition finished : LactoStore MemSled.db := (apply_all 1 log blank).2.
Lemma finished_run : apply_all 1 log blank = (Ok tt, finished).
Proof. apply run_returns. by vm_compute. Qed.
End FsmExample.

Import FsmExample.

Lemma apply_refines_witness :
  ∃ v', fsm_step 1 first empty_fsm = Ok v' ∧ holds done1 v' ∧ stored done1 v' ∧ fs_poisoned done1 = false.
Proof.
  apply (apply_refines 1 (bytes_of first) first blank empty_fsm (Ok tt) done1);
    [apply first_decodes|by apply milk_ok|done|apply blank_holds|apply done1_run].
Defined.

Lemma retry_applies_once_witness :
  ∃ v1, fsm_step 1 first empty_fsm = Ok v1 ∧ holds done1 v1 ∧ holds done2 (set_applied 2 v1).
Proof.
  apply (retry_applies_once 1 (bytes_of first) first blank empty_fsm done1 done2);
    [apply first_decodes|by apply milk_ok|done|apply blank_holds|apply done1_run|apply done2_run].
Defined.

Lemma sessions_gap_free_witness :
  ∃ v, holds finished v ∧ ∀ c, gap_free muts c (last_seen v c).
Proof.
  apply (sessions_gap_free log muts blank finished);
    [apply log_decodes|done|apply blank_holds|apply finished_run].
Defined.

Lemma clock_monotone_witness :
  ∃ v', holds finished v' ∧ time_le (mkTimestamp 0 0) (fv_time v').
Proof.
  apply (clock_monotone log muts 1 blank empty_fsm finished);
    [apply log_decodes|done|apply blank_holds|done|apply finished_run].
Defined.

Lemma poisoned_store_refuses_witness :
  Lacto.apply 1 (bytes_of first) (mkLactoStore MemSled.empty true)
  = (Err Fsm_Poisoned, mkLactoStore MemSled.empty true).
Proof.
  by apply (poisoned_store_refuses 1 (bytes_of first) alice 1 (mkLactoStore MemSled.empty true)).
Defined.
