(* ===== verification/FsmSnapshot.v ===== *)
(** Snapshots of the state machine: what a snapshot carries, what installing
    it leaves, and the restoration tombstone that makes the installation
    atomic across crashes. *)
From S2P Require Import Prelude Machine Types Wire Sled Fsm FsmSpec FsmProps.

(** ** Batches of insertions *)

Lemma apply_ops_inserts (l : list (bytes * bytes)) m :
  NoDup l.*1 →
  ∀ k, apply_ops m ((λ p, BInsert p.1 p.2) <$> l) !! k
       = match (list_to_map l : gmap bytes bytes) !! k with Some x => Some x | None => m !! k end.
Proof.
  revert m. induction l as [|[k0 x0] l IH]; intros m Hnd k; [done|].
  cbn in Hnd. apply list.NoDup_cons in Hnd as [Hnin Hnd].
  change (apply_ops m ((λ p, BInsert p.1 p.2) <$> (k0, x0) :: l))
    with (apply_ops (<[k0 := x0]> m) ((λ p, BInsert p.1 p.2) <$> l)).
  rewrite IH by done. cbn. destruct (decide (k = k0)) as [->|Hne].
  - rewrite lookup_insert_eq, (not_elem_of_list_to_map_1 l k0) by done. by rewrite lookup_insert_eq.
  - by rewrite !lookup_insert_ne by done.
Qed.

(** Writing back a listing of a tree gives the tree. *)
Lemma apply_ops_listing t l : lists t (λ _, True) l → apply_ops ∅ ((λ p, BInsert p.1 p.2) <$> l) = t.
Proof.
  intros (_ & Hnd & Hin). apply map_eq. intros k. rewrite apply_ops_inserts by done.
  destruct (list_to_map l !! k) as [x|] eqn:Hk.
  - apply elem_of_list_to_map_2 in Hk. apply Hin in Hk as [-> _]. done.
  - rewrite lookup_empty. symmetry. apply eq_None_not_Some. intros [x Hx].
    assert ((k, x) ∈ l) as Hel by (by apply Hin). apply not_elem_of_list_to_map_2 in Hk.
    apply Hk, list_elem_of_fmap. by exists (k, x).
Qed.

(** The batch that restores decoded records is the listing they came from. *)
Section restore.
Context {M : Type} `{MessageLaws M} (key : M → string).

Definition keyed (m : gmap string M) : Prop :=
  ∀ k a, m !! k = Some a → wire_ok a ∧ key a = k.

Lemma listing_records (m : gmap string M) l :
  keyed m → lists (tree_of m) (λ _, True) l →
  ∃ rs, (λ p, decode_msg p.2) <$> l = Ok <$> rs ∧ Forall wire_ok rs ∧
        ((λ a, BInsert (as_bytes (key a)) (encode_to_vec a)) <$> rs) = ((λ p, BInsert p.1 p.2) <$> l).
Proof.
  intros Hkeyed (_ & _ & Hin).
  assert (∀ k b, (k, b) ∈ l → ∃ a, k = as_bytes (key a) ∧ b = encode_to_vec a ∧ wire_ok a) as Hall.
  { intros k b [Hk _]%Hin. apply lookup_tree_of_Some in Hk as (x & a & -> & Ha & ->).
    destruct (Hkeyed _ _ Ha) as [Hok <-]. eauto. }
  clear Hin. induction l as [|[k b] l IH]; [by exists []|].
  destruct (Hall k b) as (a & -> & -> & Hok); [by left|].
  destruct IH as (rs & Hdec & Hrs & Hops); [intros; apply Hall; by right|].
  exists (a :: rs). cbn. rewrite Hdec, Hops, decode_encode_to_vec by done.
  split_and!; [done|by constructor|done].
Qed.
End restore.

Section snapshots.
Context {D : Type} `{SledLaws D, UuidText}.
Context `{Message GroceryItem, Message SessionRecord, Message CommittedMutation, Message Timestamp, Message SnapshotData}.
Context `{!MessageLaws GroceryItem, !MessageLaws SessionRecord, !MessageLaws CommittedMutation, !MessageLaws Timestamp, !MessageLaws SnapshotData}.
Implicit Types (s : LactoStore D) (v : FsmView) (ts : gmap string (gmap bytes bytes)).

Lemma fv_ok_items v : fv_ok v → keyed gi_item_key (fv_inventory v).
Proof. intros Hok k a. apply Hok. Qed.
Lemma fv_ok_sessions v : fv_ok v → canonical v → keyed sr_client_id (fv_sessions v).
Proof. intros Hok Hc k r Hr. split; [by eapply fo_sessions|by apply Hc]. Qed.

(** ** What a snapshot carries *)

(** The records [items] and [rs], written back, are the two tables. *)
Definition carries (items : list GroceryItem) (rs : list SessionRecord) v : Prop :=
  apply_ops ∅ ((λ a, BInsert (as_bytes (gi_item_key a)) (encode_to_vec a)) <$> items)
    = tree_of (fv_inventory v) ∧
  apply_ops ∅ ((λ a, BInsert (as_bytes (sr_client_id a)) (encode_to_vec a)) <$> rs)
    = tree_of (fv_sessions v) ∧
  Forall wire_ok items ∧ Forall wire_ok rs.

Lemma omap_decode_listing (l : list (bytes * bytes)) (items : list GroceryItem) :
  (λ p, decode_msg p.2) <$> l = Ok <$> items →
  omap Lacto.decode_inventory_entry (Ok <$> l) = items.
Proof.
  revert items. induction l as [|[k b] l IH]; intros [|i items]; cbn; try done.
  intros [= Hb Hl]. rewrite Hb. cbn. f_equal. auto.
Qed.
Lemma collect_sessions_Ok l rs :
  Lacto.collect_sessions l = Ok rs →
  ∃ l', l = Ok <$> l' ∧ (λ p, decode_msg p.2) <$> l' = Ok <$> rs.
Proof.
  revert rs. induction l as [|[[k b]|] l IH]; intros rs; cbn; [intros [= <-]; by exists []| |done].
  destruct (decode_msg b) as [r|] eqn:Hb; cbn; [|done].
  destruct (Lacto.collect_sessions l) as [rs'|] eqn:Hrs; cbn; [|done]. intros [= <-].
  destruct (IH rs' eq_refl) as (l' & -> & Hl'). exists ((k, b) :: l'). cbn. by rewrite Hb, Hl'.
Qed.
(** The scan of the inventory meets no read error; [get_inventory] would
    skip the record. *)
Definition scan_ok s : Prop :=
  ∃ l, sled_iter Lacto.TREE_INVENTORY (fs_db s) = Ok <$> l.

Lemma snapshot_spec s v data s' :
  holds s v → canonical v → scan_ok s → Lacto.snapshot s = (Ok data, s') →
  s' = s ∧ ∃ items rs, data = encode_to_vec (mkSnapshotData items rs (Some (fv_time v))) ∧ carries items rs v.
Proof.
  intros Hv Hc [l Hl]. unfold Lacto.snapshot, Lacto.get_inventory, Lacto.reads, mbind, st_bind.
  unfold Lacto.check_not_poisoned, st_reads, st_gets. destruct (fs_poisoned s); [done|].
  destruct (Lacto.collect_sessions _) as [rs|] eqn:Hrs; [|done].
  pose proof (last_effective_time_law (fs_db s) v Hv) as Ht.
  destruct (Lacto.last_effective_time (fs_db s)) as [t|]; [|done]. subst t. intros [= <- <-].
  split; [done|]. destruct Hv as [Hinv Hses _ Hok].
  pose proof (sled_iter_law _ _ _ Hl) as Hlist. rewrite Hinv in Hlist.
  destruct (listing_records gi_item_key _ _ (fv_ok_items v Hok) Hlist) as (items & Hdec & His & Hops).
  apply collect_sessions_Ok in Hrs as (l' & Hl' & Hdec').
  pose proof (sled_iter_law _ _ _ Hl') as Hlist'. rewrite Hses in Hlist'.
  destruct (listing_records sr_client_id _ _ (fv_ok_sessions v Hok Hc) Hlist') as (rs' & Hdec2 & Hrs' & Hops').
  rewrite Hdec' in Hdec2. apply MemSled.fmap_Ok_inj in Hdec2 as <-.
  exists items, rs. rewrite Hl, (omap_decode_listing l items) by done. split; [done|].
  split_and!; [|..|done|done].
  - rewrite Hops. by apply apply_ops_listing.
  - rewrite Hops'. by apply apply_ops_listing.
Qed.

(** ** Installing a snapshot *)

(** The tombstone is set. *)
Definition tombstoned ts : Prop :=
  tree_at ts Lacto.TREE_META !! Lacto.KEY_RESTORE_IN_PROGRESS = Some Lacto.TRUE.
(** For reads and on disk. *)
Definition marked s : Prop := tombstoned (sled_trees (fs_db s)) ∧ tombstoned (sled_disk (fs_db s)).

(** A write that keeps the tombstone. *)
Lemma marked_write msg (m : st D SledError unit) s ts' (F : D → Prop) :
  marked s → tombstoned ts' →
  (∀ d', F d' → tombstoned (sled_trees d')) →
  wp m (λ _ d', sled_trees d' = ts' ∧ disk_step (fs_db s) d')
    (λ _ d', F d' ∧ disk_step (fs_db s) d') (fs_db s) →
  wp (Lacto.writes msg m)
    (λ _ s', marked s' ∧ sled_trees (fs_db s') = ts' ∧ fs_poisoned s' = fs_poisoned s)
    (λ _ s', marked s' ∧ fs_poisoned s' = fs_poisoned s) s.
Proof.
  intros [Ht Hd] Hts HF Hm. apply wp_writes. eapply wp_mono; [exact Hm|..]; cbn beta.
  - intros _ d' [Heq Hstep]. split_and!; [|done|done]. split; cbn; [by rewrite Heq|].
    destruct Hstep as [->|[->| ->]]; [done..|by rewrite Heq].
  - intros _ d' [Hf Hstep]. split; [|done]. split; cbn; [by apply HF|].
    destruct Hstep as [->|[->| ->]]; [done..|by apply HF].
Qed.

Lemma marked_clear msg t s :
  marked s → t ≠ Lacto.TREE_META →
  wp (Lacto.writes msg (sled_clear t))
    (λ _ s', marked s' ∧ sled_trees (fs_db s') = <[t := ∅]> (sled_trees (fs_db s)) ∧
             fs_poisoned s' = fs_poisoned s)
    (λ _ s', marked s' ∧ fs_poisoned s' = fs_poisoned s) s.
Proof.
  intros Hm Hne. assert (∀ x, tombstoned (<[t := x]> (sled_trees (fs_db s)))) as Hk.
  { intros x. unfold tombstoned. rewrite tree_at_insert_ne by done. apply Hm. }
  eapply (marked_write _ _ _ _ (λ d', tombstoned (sled_trees d'))); [done|apply Hk|done|].
  eapply wp_mono; [apply sled_clear_law|done|]. cbn beta.
  intros _ d' [[->|(x & _ & ->)] Hstep]; split; [apply Hm|done|apply Hk|done].
Qed.
Lemma marked_batch msg t ops s :
  marked s → t ≠ Lacto.TREE_META →
  wp (Lacto.writes msg (sled_apply_batch t ops))
    (λ _ s', marked s' ∧
       sled_trees (fs_db s') = <[t := apply_ops (tree_at (sled_trees (fs_db s)) t) ops]> (sled_trees (fs_db s)) ∧
       fs_poisoned s' = fs_poisoned s)
    (λ _ s', marked s' ∧ fs_poisoned s' = fs_poisoned s) s.
Proof.
  intros Hm Hne. assert (∀ x, tombstoned (<[t := x]> (sled_trees (fs_db s)))) as Hk.
  { intros x. unfold tombstoned. rewrite tree_at_insert_ne by done. apply Hm. }
  eapply (marked_write _ _ _ _ (λ d', tombstoned (sled_trees d'))); [done|apply Hk|done|].
  eapply wp_mono; [apply sled_apply_batch_law|done|]. cbn beta.
  intros _ d' [[->| ->] Hstep]; split; [apply Hm|done|apply Hk|done].
Qed.

Abbreviation meta s := (tree_at (sled_trees (fs_db s)) Lacto.TREE_META).

Lemma marked_remove msg k s :
  marked s → k ≠ Lacto.KEY_RESTORE_IN_PROGRESS →
  wp (Lacto.writes msg (sled_remove Lacto.TREE_META k))
    (λ _ s', marked s' ∧
       sled_trees (fs_db s') = <[Lacto.TREE_META := delete k (meta s)]> (sled_trees (fs_db s)) ∧
       fs_poisoned s' = fs_poisoned s)
    (λ _ s', marked s' ∧ fs_poisoned s' = fs_poisoned s) s.
Proof.
  intros Hm Hne.
  assert (tombstoned (<[Lacto.TREE_META := delete k (meta s)]> (sled_trees (fs_db s)))) as Hk.
  { unfold tombstoned. rewrite tree_at_insert_eq, lookup_delete_ne by done. apply Hm. }
  eapply (marked_write _ _ _ _ (λ d', tombstoned (sled_trees d'))); [done|apply Hk|done|].
  eapply wp_mono; [apply sled_remove_law|done|]. cbn beta.
  intros _ d' [[->| ->] Hstep]; split; [apply Hm|done|apply Hk|done].
Qed.

(** The loop removes every key it is given but the tombstone. *)
Lemma remove_meta_spec l s :
  marked s →
  wp (Lacto.remove_meta l)
    (λ _ s', marked s' ∧ fs_poisoned s' = fs_poisoned s ∧
       (∀ t, t ≠ Lacto.TREE_META → tree_at (sled_trees (fs_db s')) t = tree_at (sled_trees (fs_db s)) t) ∧
       ∃ l', l = Ok <$> l' ∧
         (∀ k, k ∈ l'.*1 → k ≠ Lacto.KEY_RESTORE_IN_PROGRESS → meta s' !! k = None) ∧
         (∀ k, meta s !! k = None → meta s' !! k = None))
    (λ _ s', marked s' ∧ fs_poisoned s' = fs_poisoned s) s.
Proof.
  revert s. induction l as [|[[k x]|] l IH]; intros s Hm; cbn [Lacto.remove_meta].
  { apply wp_ret. split_and!; [done..|]. exists []. split_and!; [done| |done]. by intros k ?%elem_of_nil. }
  2: { wp_step. by apply wp_lift. }
  wp_step. apply wp_lift; [|done]. intros ? [= <-]. cbn [fst]. wp_step.
  destruct (decide (k = Lacto.KEY_RESTORE_IN_PROGRESS)) as [->|Hne].
  - apply wp_ret. eapply wp_mono; [by apply IH| |done].
    intros _ s' (Hm' & Hp & Ho & l' & -> & Hk & Hn). split_and!; [done..|].
    exists ((Lacto.KEY_RESTORE_IN_PROGRESS, x) :: l'). split_and!; [done| |done].
    intros k [->|Hin]%elem_of_cons Hne; [done|by apply Hk].
  - eapply wp_mono; [by apply marked_remove|..]; cbn beta; [|done].
    intros _ s1 (Hm1 & Ht1 & Hp1). eapply wp_mono; [by apply IH|..]; cbn beta.
    + intros _ s' (Hm' & Hp & Ho & l' & -> & Hk & Hn). rewrite Ht1 in *. split_and!; [done|congruence| |].
      * intros t Ht. rewrite Ho, tree_at_insert_ne by done. done.
      * exists ((k, x) :: l'). rewrite tree_at_insert_eq in Hn. split_and!; [done| |].
        -- intros k' [->|Hin]%elem_of_cons Hne'; [|by apply Hk]. apply Hn, lookup_delete_eq.
        -- intros k' Hk'. apply Hn. rewrite lookup_delete_None. by right.
    + intros _ s' [Hm' Hp]. split; [done|congruence].
Qed.

(** After the clearing: two empty tables and the tombstone alone. *)
Lemma clear_state_spec s :
  marked s →
  wp Lacto.clear_state_except_tombstone
    (λ _ s', marked s' ∧ fs_poisoned s' = fs_poisoned s ∧
       tree_at (sled_trees (fs_db s')) Lacto.TREE_INVENTORY = ∅ ∧
       tree_at (sled_trees (fs_db s')) Lacto.TREE_SESSIONS = ∅ ∧
       ∀ k, k ≠ Lacto.KEY_RESTORE_IN_PROGRESS → meta s' !! k = None)
    (λ _ s', marked s' ∧ fs_poisoned s' = fs_poisoned s) s.
Proof.
  intros Hm. unfold Lacto.clear_state_except_tombstone. wp_step.
  eapply wp_mono; [by apply marked_clear| |done]; cbn beta. intros _ s1 (Hm1 & Ht1 & Hp1).
  wp_step. eapply wp_mono; [by apply marked_clear| |intros ? ? []; split; [done|congruence]]; cbn beta.
  intros _ s2 (Hm2 & Ht2 & Hp2). wp_steps.
  eapply wp_mono; [by apply remove_meta_spec| |intros ? ? []; split; [done|congruence]]; cbn beta.
  intros _ s3 (Hm3 & Hp3 & Ho & l' & Hl & Hk & Hn). split_and!; [done|congruence|..].
  - rewrite Ho, Ht2, tree_at_insert_ne, Ht1, tree_at_insert_eq by done. done.
  - rewrite Ho, Ht2, tree_at_insert_eq by done. done.
  - intros k Hne. destruct (decide (k ∈ l'.*1)) as [Hin|Hnin]; [by apply Hk|]. apply Hn.
    apply eq_None_not_Some. intros [x Hx]. apply Hnin, list_elem_of_fmap. exists (k, x). split; [done|].
    apply (sled_iter_law _ _ _ Hl). done.
Qed.

(** What a restart may find on disk: the state before, the finished one, or
    the tombstone. *)
Definition recoverable v v' s : Prop :=
  stored s v ∨ stored s v' ∨ tombstoned (sled_disk (fs_db s)).

Lemma marked_recoverable v v' s : marked s → recoverable v v' s.
Proof. intros [_ Hd]. by right; right. Qed.

Lemma set_tombstone_spec s v v' :
  stored s v → holds s v →
  wp Lacto.set_restoration_tombstone
    (λ _ s', marked s' ∧ fs_poisoned s' = fs_poisoned s)
    (λ _ s', recoverable v v' s' ∧ fs_poisoned s' = fs_poisoned s) s.
Proof.
  intros Hs Hv. unfold Lacto.set_restoration_tombstone. wp_step. apply wp_writes.
  set (ts1 := apply_tree_op (sled_trees (fs_db s))
    (Lacto.TREE_META, BInsert Lacto.KEY_RESTORE_IN_PROGRESS Lacto.TRUE)).
  assert (tombstoned ts1) as Hts1.
  { unfold tombstoned, ts1, apply_tree_op. cbn [fst snd apply_op].
    by rewrite tree_at_insert_eq, lookup_insert_eq. }
  eapply wp_mono; [apply sled_insert_law|..]; cbn beta; fold ts1.
  - intros _ d1 [Ht1 Hd1]. apply wp_writes.
    eapply wp_mono; [apply sled_flush_law|..]; cbn beta; cbn [fs_db Lacto.set_db fs_poisoned].
    + intros _ d2 [Ht2 Hd2]. split; [|done]. split; cbn; by rewrite ?Ht2, ?Hd2, Ht1.
    + intros _ d2 [Ht2 Hd2]. split; [|done]. unfold recoverable, stored. cbn.
      destruct Hd2 as [->|[->| ->]]; [|right; right; by rewrite Ht1|right; right; by rewrite Ht2, Ht1].
      destruct Hd1 as [->|[->| ->]]; [by left|by left|right; right; by rewrite Ht1].
  - intros _ d1 [Ht1 Hd1]. split; [|done]. unfold recoverable, stored. cbn.
    destruct Hd1 as [->|[->| ->]]; [by left|by left|].
    destruct Ht1 as [->| ->]; [by left|by right; right].
Qed.

(** The last batch replaces the tombstone by the new metadata at once. *)
Lemma finalize_meta (m : gmap bytes bytes) inv ses i time :
  (∀ k, k ≠ Lacto.KEY_RESTORE_IN_PROGRESS → m !! k = None) →
  meta_repr (apply_ops m (Lacto.finalize_ops i time))
    (mkFsmView inv ses i (default (mkTimestamp 0 0) time)).
Proof.
  intros Hm. destruct keys_distinct as (Hd1 & Hd2 & Hd3).
  destruct time as [t|]; cbn; split; unfold slot; cbn.
  - left. rewrite lookup_delete_ne, lookup_insert_ne, lookup_insert_eq by done. done.
  - left. rewrite lookup_delete_ne, lookup_insert_eq by done. done.
  - by rewrite lookup_delete_eq.
  - left. rewrite lookup_delete_ne, lookup_insert_eq by done. done.
  - right. rewrite lookup_delete_ne, lookup_insert_ne by done. split; [|done]. by apply Hm.
  - by rewrite lookup_delete_eq.
Qed.

Lemma finalize_spec i time s v v' :
  marked s → v' = mkFsmView (fv_inventory v') (fv_sessions v') i (default (mkTimestamp 0 0) time) →
  fv_ok v' →
  tree_at (sled_trees (fs_db s)) Lacto.TREE_INVENTORY = tree_of (fv_inventory v') →
  tree_at (sled_trees (fs_db s)) Lacto.TREE_SESSIONS = tree_of (fv_sessions v') →
  (∀ k, k ≠ Lacto.KEY_RESTORE_IN_PROGRESS → meta s !! k = None) →
  wp (Lacto.finalize_restoration i time)
    (λ _ s', holds s' v' ∧ stored s' v' ∧ fs_poisoned s' = fs_poisoned s)
    (λ _ s', recoverable v v' s' ∧ fs_poisoned s' = fs_poisoned s) s.
Proof.
  intros [Hmt Hmd] Hv' Hok Hinv Hses Hmeta. unfold Lacto.finalize_restoration. wp_step. apply wp_writes.
  set (ts1 := <[Lacto.TREE_META := apply_ops (meta s) (Lacto.finalize_ops i time)]> (sled_trees (fs_db s))).
  assert (fsm_repr ts1 v') as Hts1.
  { split; [by unfold ts1; rewrite tree_at_insert_ne|by unfold ts1; rewrite tree_at_insert_ne| |done].
    unfold ts1. rewrite tree_at_insert_eq, Hv'. by apply finalize_meta. }
  eapply wp_mono; [apply sled_apply_batch_law|..]; cbn beta; fold ts1.
  - intros _ d1 [Ht1 Hd1]. apply wp_writes.
    eapply wp_mono; [apply sled_flush_law|..]; cbn beta; cbn [fs_db Lacto.set_db fs_poisoned].
    + intros _ d2 [Ht2 Hd2]. unfold holds, stored. cbn. by rewrite Ht2, Hd2, Ht1.
    + intros _ d2 [Ht2 Hd2]. split; [|done]. unfold recoverable, stored. cbn.
      destruct Hd2 as [->|[->| ->]]; [|right; left; by rewrite Ht1|right; left; by rewrite Ht2, Ht1].
      destruct Hd1 as [->|[->| ->]]; [by right; right|by right; right|right; left; by rewrite Ht1].
  - intros _ d1 [Ht1 Hd1]. split; [|done]. unfold recoverable, stored. cbn.
    destruct Hd1 as [->|[->| ->]]; [by right; right|by right; right|].
    destruct Ht1 as [->| ->]; [by right; right|by right; left].
Qed.

Lemma install_snapshot_spec i data items rs time s v w :
  decode_msg data = Ok (mkSnapshotData items rs time) → carries items rs w →
  fs_poisoned s = false → holds s v → stored s v →
  let v' := mkFsmView (fv_inventory w) (fv_sessions w) i (default (mkTimestamp 0 0) time) in
  fv_ok v' →
  wp (Lacto.install_snapshot i data)
    (λ _ s', holds s' v' ∧ stored s' v' ∧ fs_poisoned s' = false)
    (λ _ s', recoverable v v' s' ∧ fs_poisoned s' = false) s.
Proof.
  intros Hdec (Hitems & Hrs & _) Hp Hv Hs v' Hok. unfold Lacto.install_snapshot.
  wp_step. apply wp_check_not_poisoned; [done|].
  wp_step. apply wp_lift; intros x Hx; rewrite Hdec in Hx; [injection Hx as <-|done].
  assert (∀ (e : FsmError) s', marked s' ∧ fs_poisoned s' = false → recoverable v v' s' ∧ fs_poisoned s' = false) as Hw.
  { intros _ s' [Hm Hps]. split; [by apply marked_recoverable|done]. }
  cbn [sd_inventory sd_sessions sd_last_effective_time].
  wp_step. eapply wp_mono; [by apply (set_tombstone_spec s v v')| |by intros ? ? []; split; [|congruence]].
  intros _ s1 [Hm1 Hp1]. wp_step.
  eapply wp_mono; [by apply clear_state_spec| |intros e s' []; apply (Hw e); split; [done|congruence]].
  intros _ s2 (Hm2 & Hp2 & Hi2 & Hs2 & Hk2). unfold Lacto.restore_inventory_batch, Lacto.restore_session_batch.
  wp_step. eapply wp_mono; [by apply marked_batch| |intros e s' []; apply (Hw e); split; [done|congruence]].
  intros _ s3 (Hm3 & Ht3 & Hp3).
  wp_step. eapply wp_mono; [by apply marked_batch| |intros e s' []; apply (Hw e); split; [done|congruence]].
  intros _ s4 (Hm4 & Ht4 & Hp4).
  eapply wp_mono; [apply (finalize_spec i time s4 v v'); [done|done|done|..]|..].
  - rewrite Ht4, tree_at_insert_ne, Ht3, tree_at_insert_eq, Hi2 by done. exact Hitems.
  - rewrite Ht4, tree_at_insert_eq, Ht3, tree_at_insert_ne, Hs2 by done. exact Hrs.
  - rewrite Ht4, tree_at_insert_ne, Ht3, tree_at_insert_ne by done. exact Hk2.
  - intros _ s5 (? & ? & ?). split_and!; [done..|congruence].
  - intros _ s5 [? ?]. split; [done|congruence].
Qed.

(** ** Start-up *)

Lemma open_tree_repr ts v t : fsm_repr ts v → fsm_repr (<[t := tree_at ts t]> ts) v.
Proof.
  assert (∀ t', tree_at (<[t := tree_at ts t]> ts) t' = tree_at ts t') as Hid.
  { intros t'. destruct (decide (t = t')) as [->|]; [by rewrite tree_at_insert_eq|by rewrite tree_at_insert_ne]. }
  intros [? ? ? ?]. split; by rewrite ?Hid.
Qed.
Lemma open_tree_tombstoned ts t : tombstoned ts → tombstoned (<[t := tree_at ts t]> ts).
Proof.
  intros Ht. unfold tombstoned in *. destruct (decide (t = Lacto.TREE_META)) as [->|Hne].
  - by rewrite tree_at_insert_eq.
  - by rewrite tree_at_insert_ne.
Qed.

Lemma empty_fsm_ok : fv_ok empty_fsm.
Proof. split; cbn; [intros k i; by rewrite lookup_empty|intros k r; by rewrite lookup_empty|done|split; cbn; lia]. Qed.

Lemma purge_spec s :
  wp Lacto.purge_all_data
    (λ _ s', holds s' empty_fsm ∧ stored s' empty_fsm ∧ fs_poisoned s' = fs_poisoned s) (λ _ _, True) s.
Proof.
  unfold Lacto.purge_all_data. wp_step. apply wp_writes.
  eapply wp_mono; [apply sled_clear_law| |done]. intros _ d1 [Ht1 _]. wp_step. apply wp_writes.
  eapply wp_mono; [apply sled_clear_law| |done]. intros _ d2 [Ht2 _]. wp_step. apply wp_writes.
  eapply wp_mono; [apply sled_clear_law| |done]. intros _ d3 [Ht3 _]. apply wp_writes.
  eapply wp_mono; [apply sled_flush_law| |done]. intros _ d4 [Ht4 Hd4].
  unfold holds, stored. cbn [fs_db Lacto.set_db] in *.
  enough (fsm_repr (sled_trees d3) empty_fsm) by (by rewrite Ht4, Hd4).
  rewrite Ht3, Ht2, Ht1. split.
  - rewrite !tree_at_insert_ne, tree_at_insert_eq by done. symmetry. apply tree_of_empty.
  - rewrite tree_at_insert_ne, tree_at_insert_eq by done. symmetry. apply tree_of_empty.
  - rewrite tree_at_insert_eq. split; [right|right|]; by rewrite lookup_empty.
  - apply empty_fsm_ok.
Qed.

(** A start on a clean database keeps it; one that finds the tombstone
    starts empty. *)
Lemma new_spec d r s :
  Lacto.new d = (r, s) → is_ok r = true →
  fs_poisoned s = false ∧
  (∀ v, fsm_repr (sled_trees d) v → holds s v) ∧
  (tombstoned (sled_trees d) → holds s empty_fsm ∧ stored s empty_fsm).
Proof.
  unfold Lacto.new. intros Hrun Hok. destruct r as [[]|]; [|done]. revert Hrun.
  apply (wp_run Lacto.new_body (λ _ s, fs_poisoned s = false ∧
    (∀ v, fsm_repr (sled_trees d) v → holds s v) ∧
    (tombstoned (sled_trees d) → holds s empty_fsm ∧ stored s empty_fsm)) (λ _ _, True) _ (Ok tt)).
  unfold Lacto.new_body. wp_step. apply wp_writes.
  eapply wp_mono; [apply sled_open_tree_law| |done]. intros _ d1 [Ht1 _]. wp_step. apply wp_writes.
  eapply wp_mono; [apply sled_open_tree_law| |done]. intros _ d2 [Ht2 _]. wp_step. apply wp_writes.
  eapply wp_mono; [apply sled_open_tree_law| |done]. intros _ d3 [Ht3 _].
  cbn [fs_db Lacto.set_db fs_poisoned] in *.
  assert (∀ v, fsm_repr (sled_trees d) v → fsm_repr (sled_trees d3) v) as Hkeep.
  { intros v Hv. rewrite Ht3, Ht2, Ht1. by do 3 apply open_tree_repr. }
  assert (tombstoned (sled_trees d) → tombstoned (sled_trees d3)) as Hmark.
  { intros Hv. rewrite Ht3, Ht2, Ht1. by do 3 apply open_tree_tombstoned. }
  clear Ht1 Ht2 Ht3. wp_step. unfold Lacto.reads. apply wp_reads; [|done]. cbn [fs_db].
  intros stale Hstale.
  assert (stale = true ↔ tombstoned (sled_trees d3)) as Hiff.
  { unfold Lacto.is_restoration_stale, Lacto.persistence, mbind, result_bind in Hstale.
    cbn [fs_db Lacto.set_db] in Hstale.
    destruct (sled_get Lacto.TREE_META _ d3) as [o|] eqn:Hget; cbn in Hstale; [|done].
    apply sled_get_law in Hget as ->. unfold tombstoned. injection Hstale as <-.
    destruct (_ !! _) as [x|]; [|done]. rewrite bool_decide_eq_true. split; congruence. }
  destruct stale.
  - eapply wp_mono; [apply purge_spec| |done]. intros _ s' (Hh & Hst & Hp). split_and!; [done| |done].
    intros v Hv%Hkeep. destruct (mr_clean _ _ (fr_meta _ _ Hv)). by apply Hiff.
  - apply wp_ret. split_and!; [done|by apply Hkeep|]. intros Ht%Hmark. by apply Hiff in Ht.
Qed.
End snapshots.

(** ** The properties *)

Section props.
Context {D : Type} `{SledLaws D, UuidText}.
Context `{Message GroceryItem, Message SessionRecord, Message CommittedMutation, Message Timestamp, Message SnapshotData}.
Context `{!MessageLaws GroceryItem, !MessageLaws SessionRecord, !MessageLaws CommittedMutation, !MessageLaws Timestamp, !MessageLaws SnapshotData}.
Implicit Types (s t : LactoStore D) (v w : FsmView).

(** The state a snapshot of [v] installs at index [i]. *)
Definition at_index (i : LogIndex) v : FsmView :=
  mkFsmView (fv_inventory v) (fv_sessions v) i (fv_time v).

Lemma at_index_ok i v : U64 i → fv_ok v → fv_ok (at_index i v).
Proof. intros Hi [? ? ? ?]. by split. Qed.
Lemma carries_wire items rs v : fv_ok v → carries items rs v → wire_ok (mkSnapshotData items rs (Some (fv_time v))).
Proof. intros Hok (_ & _ & Hi & Hr). split_and!; [done|done|apply Hok]. Qed.

(** Snapshots round-trip.  A snapshot taken from a state machine and
    installed in another, at index [i], gives it the first one's inventory,
    sessions and clock, with [i] as its applied index, on disk as well,
    whatever it held before. *)
Theorem snapshot_install_roundtrip s v data s' i t w t' :
  holds s v → canonical v → scan_ok s → Lacto.snapshot s = (Ok data, s') →
  fs_poisoned t = false → holds t w → stored t w → U64 i →
  Lacto.install_snapshot i data t = (Ok tt, t') →
  s' = s ∧ holds t' (at_index i v) ∧ stored t' (at_index i v).
Proof.
  intros Hv Hc Hscan Hsnap Hp Hw Hst Hi Hinst.
  destruct (snapshot_spec s v data s' Hv Hc Hscan Hsnap) as (-> & items & rs & -> & Hcar).
  pose proof (fr_ok _ _ Hv) as Hok.
  pose proof (decode_encode_to_vec _ (carries_wire items rs v Hok Hcar)) as Hdec.
  destruct (wp_run _ _ _ _ _ _ (install_snapshot_spec i _ items rs _ t w v Hdec Hcar Hp Hw Hst
    (at_index_ok i v Hi Hok)) Hinst) as (Hh & Hs & _). done.
Qed.

(** C34: an interrupted installation is atomic.  When installing a snapshot
    fails at any point, or the process dies there, the next start comes up
    with the state before, with the complete new state, or empty, to be
    filled again from the leader; never with a mixture. *)
Theorem interrupted_install_atomic s v data s' i t w e t' d r u :
  holds s v → canonical v → scan_ok s → Lacto.snapshot s = (Ok data, s') →
  fs_poisoned t = false → holds t w → stored t w → U64 i →
  Lacto.install_snapshot i data t = (Err e, t') →
  sled_reopened (fs_db t') d → Lacto.new d = (r, u) → is_ok r = true →
  holds u w ∨ holds u (at_index i v) ∨ holds u empty_fsm.
Proof.
  intros Hv Hc Hscan Hsnap Hp Hw Hst Hi Hinst [Hre _] Hnew Hok.
  destruct (snapshot_spec s v data s' Hv Hc Hscan Hsnap) as (-> & items & rs & -> & Hcar).
  pose proof (fr_ok _ _ Hv) as Hvok.
  pose proof (decode_encode_to_vec _ (carries_wire items rs v Hvok Hcar)) as Hdec.
  destruct (wp_run _ _ _ _ _ _ (install_snapshot_spec i _ items rs _ t w v Hdec Hcar Hp Hw Hst
    (at_index_ok i v Hi Hvok)) Hinst) as [Hrec _].
  destruct (new_spec d r u Hnew Hok) as (_ & Hkeep & Hmark). rewrite Hre in Hkeep, Hmark.
  destruct Hrec as [Hs|[Hs|Hm]]; [left; by apply Hkeep|right; left; by apply Hkeep|].
  right; right. by apply Hmark.
Qed.

(** C10: a snapshot may run ahead of its label.  The leader labels its
    snapshot with the compaction horizon [length log1], but takes it from a
    state machine that has also applied [log2]; the follower installs it at
    the label and applies [log2] again, and ends in the leader's state: the
    sessions make every entry of [log2] a retry. *)
Theorem snapshot_ahead_converges log1 log2 ms1 ms2 s s1 data s' t w t1 t2 :
  decodes log1 ms1 → decodes log2 ms2 →
  Forall (λ m, uuid_parse (cm_client_id m) = Some (cm_client_id m)) (ms1 ++ ms2) →
  fs_poisoned s = false → holds s empty_fsm → apply_all 1 (log1 ++ log2) s = (Ok tt, s1) →
  scan_ok s1 → Lacto.snapshot s1 = (Ok data, s') →
  fs_poisoned t = false → holds t w → stored t w → U64 (N.of_nat (length log1)) →
  Lacto.install_snapshot (N.of_nat (length log1)) data t = (Ok tt, t1) →
  apply_all (N.of_nat (length log1) + 1) log2 t1 = (Ok tt, t2) →
  ∃ v, holds s1 v ∧ holds t2 v ∧ fv_applied v = N.of_nat (length log1 + length log2).
Proof.
  intros Hd1 Hd2 Hcan Hp Hh Hrun Hscan Hsnap Hpt Hw Hst Hi Hinst Hrest.
  assert (decodes (log1 ++ log2) (ms1 ++ ms2)) as Hd by by apply Forall2_app.
  destruct (apply_all_replay _ _ 1 s empty_fsm s1 Hd Hp Hh eq_refl Hrun) as (_ & v & Hr & Hv).
  pose proof (fsm_replay_applied _ _ _ Hr) as Happ. cbn in Happ.
  rewrite <-(Forall2_length Hd), length_app in Happ.
  assert (canonical v) as Hc.
  { eapply fsm_replay_canonical; [|done|done]. intros k r. cbn. by rewrite lookup_empty. }
  assert (∀ m, m ∈ ms2 → cm_sequence_id m ≤ last_seen v (cm_client_id m)) as Hdup.
  { intros m Hm. apply (fsm_replay_last_seen _ _ _ "" Hr). set_solver. }
  destruct (snapshot_spec s1 v data s' Hv Hc Hscan Hsnap) as (-> & items & rs & -> & Hcar).
  pose proof (fr_ok _ _ Hv) as Hok.
  pose proof (decode_encode_to_vec _ (carries_wire items rs v Hok Hcar)) as Hdec.
  destruct (wp_run _ _ _ _ _ _ (install_snapshot_spec _ _ items rs _ t w v Hdec Hcar Hpt Hw Hst
    (at_index_ok _ v Hi Hok)) Hinst) as (Hh1 & _ & Hp1).
  destruct (apply_all_replay _ _ _ t1 _ t2 Hd2 Hp1 Hh1 eq_refl Hrest) as (_ & v2 & Hr2 & Hv2).
  apply fsm_replay_duplicates in Hr2; [|exact Hdup]. exists v. split; [done|].
  assert (v2 = v) as ->; [|split; [done|lia]].
  rewrite Hr2, <-(Forall2_length Hd2). unfold set_applied, at_index. cbn. destruct v. cbn in *. f_equal. lia.
Qed.
End props.

(** ** The properties at concrete stores *)

Import FsmExample.

Definition snapped : bytes := match (Lacto.snapshot done1).1 with Ok b => b | Err _ => [] end.
Definition restored : LactoStore MemSled.db := (Lacto.install_snapshot 9 snapped blank).2.

Lemma done1_state : ∃ v, fsm_step 1 first empty_fsm = Ok v ∧ holds done1 v ∧ canonical v.
Proof.
  pose proof (apply_spec 1 (bytes_of first) first blank empty_fsm first_decodes
    ltac:(by apply milk_ok) eq_refl blank_holds) as Hwp.
  destruct (wp_run _ _ _ _ _ _ Hwp done1_run) as (v & Hs & Hv & _). exists v. split_and!; [done..|].
  apply (fsm_step_canonical 1 first empty_fsm v); [|by vm_compute|done]. intros k r. cbn. by rewrite lookup_empty.
Qed.
Lemma done1_scan : scan_ok done1.
Proof. exists (MemSled.listing (tree_at (MemSled.ms_trees (fs_db done1)) Lacto.TREE_INVENTORY)). done. Qed.
Lemma done1_snapshot : Lacto.snapshot done1 = (Ok snapped, done1).
Proof.
  unfold snapped. assert ((Lacto.snapshot done1).2 = done1) as Heq by done.
  destruct (Lacto.snapshot done1) as [[b|] s'] eqn:Hs; cbn in *; [by subst|].
  assert (is_ok (Lacto.snapshot done1).1 = true) as Hok by (by vm_compute). by rewrite Hs in Hok.
Qed.
Lemma blank_stored : stored blank empty_fsm.
Proof. apply blank_holds. Qed.

Lemma snapshot_install_roundtrip_witness :
  ∃ v, fsm_step 1 first empty_fsm = Ok v ∧ holds restored (at_index 9 v) ∧ stored restored (at_index 9 v).
Proof.
  destruct done1_state as (v & Hs & Hv & Hc). exists v. split; [done|].
  apply (snapshot_install_roundtrip done1 v snapped done1 9 blank empty_fsm restored);
    [done|done|apply done1_scan|apply done1_snapshot|done|apply blank_holds|apply blank_stored|done
    |apply run_returns; by vm_compute].
Defined.

(** The snapshot of the three applied entries, labelled with the first. *)
Definition ahead : bytes := match (Lacto.snapshot finished).1 with Ok b => b | Err _ => [] end.
Definition behind : LactoStore MemSled.db := (Lacto.install_snapshot 1 ahead blank).2.
Definition caught_up : LactoStore MemSled.db :=
  (apply_all 2 [bytes_of first; bytes_of second] behind).2.
Lemma finished_snapshot : Lacto.snapshot finished = (Ok ahead, (Lacto.snapshot finished).2).
Proof.
  assert (is_ok (Lacto.snapshot finished).1 = true) as Hok by (by vm_compute).
  unfold ahead. by destruct (Lacto.snapshot finished) as [[b|] s'].
Qed.
Lemma finished_scan : scan_ok finished.
Proof. exists (MemSled.listing (tree_at (MemSled.ms_trees (fs_db finished)) Lacto.TREE_INVENTORY)). done. Qed.
Lemma behind_run : Lacto.install_snapshot 1 ahead blank = (Ok tt, behind).
Proof. unfold behind. apply run_returns. by vm_compute. Qed.
Lemma caught_up_run : apply_all 2 [bytes_of first; bytes_of second] behind = (Ok tt, caught_up).
Proof. unfold caught_up. apply run_returns. by vm_compute. Qed.
Lemma tail_decodes : decodes [bytes_of first; bytes_of second] [first; second].
Proof. pose proof log_decodes as Hd. by inversion Hd. Qed.
Lemma head_decodes : decodes [bytes_of first] [first].
Proof. apply Forall2_cons_2; [|apply Forall2_nil_2]. split; [apply first_decodes|by apply milk_ok]. Qed.

Lemma snapshot_ahead_converges_witness :
  ∃ v, holds finished v ∧ holds caught_up v ∧ fv_applied v = 3.
Proof.
  apply (snapshot_ahead_converges [bytes_of first] [bytes_of first; bytes_of second] [first] [first; second]
    blank finished ahead (Lacto.snapshot finished).2 blank empty_fsm behind caught_up);
    [apply head_decodes|apply tail_decodes|by repeat constructor|done|apply blank_holds|apply finished_run
    |apply finished_scan|apply finished_snapshot|done|apply blank_holds|apply blank_stored|done
    |apply behind_run|apply caught_up_run].
Defined.

(** The disk stops answering: nothing is installed, and the next start finds
    the state before. *)
Definition deaf : LactoStore MemSled.db := mkLactoStore (MemSled.mkDb ∅ ∅ false) false.
Definition failed_install : LactoStore MemSled.db := (Lacto.install_snapshot 9 snapped deaf).2.
Lemma interrupted_install_atomic_witness :
  ∃ v, holds (Lacto.new (MemSled.reopen (fs_db failed_install))).2 empty_fsm ∨
       holds (Lacto.new (MemSled.reopen (fs_db failed_install))).2 (at_index 9 v) ∨
       holds (Lacto.new (MemSled.reopen (fs_db failed_install))).2 empty_fsm.
Proof.
  destruct done1_state as (v & Hs & Hv & Hc). exists v.
  apply (interrupted_install_atomic done1 v snapped done1 9 deaf empty_fsm
    (Fsm_Persistence "Failed to set restore flag") failed_install
    (MemSled.reopen (fs_db failed_install)) (Lacto.new (MemSled.reopen (fs_db failed_install))).1);
    [done|done|apply done1_scan|apply done1_snapshot|done|apply blank_holds|apply blank_stored|done
    |by vm_compute|done|by destruct (Lacto.new _)|by vm_compute].
Defined.

(** A record of the inventory that does not decode is left out of the
    snapshot, and no error is reported. *)
Definition corrupt : LactoStore MemSled.db :=
  mkLactoStore (sled_insert Lacto.TREE_INVENTORY (as_bytes "rice") [] MemSled.empty).2 false.
Lemma snapshot_skips_corrupt_item :
  sled_get Lacto.TREE_INVENTORY (as_bytes "rice") (fs_db corrupt) = Ok (Some []) ∧
  (Lacto.snapshot corrupt).1 = Ok (encode_to_vec (mkSnapshotData [] [] (Some (mkTimestamp 0 0)))).
Proof. split; by vm_compute. Qed.
