(* ===== verification/Text.v ===== *)
(** Canonical strings (common/src/slug.rs, common/src/taxonomy.rs): slugs and
    the twelve categories.  A string is its UTF-8 bytes: [slugify] looks at
    ASCII letters and digits only, and a run of other bytes is one separator
    as a run of other characters is. *)
From Stdlib Require Import Ascii.
From S2P Require Import Prelude Machine.

Abbreviation chars := (list Ascii.ascii) (only parsing).
Definition to_chars : string → chars := String.list_ascii_of_string.
Definition of_chars : chars → string := String.string_of_list_ascii.

Lemma of_to_chars s : of_chars (to_chars s) = s.
Proof. apply String.string_of_list_ascii_of_string. Qed.
Lemma to_of_chars l : to_chars (of_chars l) = l.
Proof. apply String.list_ascii_of_string_of_list_ascii. Qed.

(** ** char and str methods of the standard library *)

Definition in_span (c lo hi : Ascii.ascii) : bool :=
  (Ascii.N_of_ascii lo <=? Ascii.N_of_ascii c) && (Ascii.N_of_ascii c <=? Ascii.N_of_ascii hi).
Definition is_ascii_uppercase (c : Ascii.ascii) : bool := in_span c "A"%char "Z"%char.
Definition is_ascii_alphanumeric (c : Ascii.ascii) : bool :=
  in_span c "0"%char "9"%char || in_span c "A"%char "Z"%char || in_span c "a"%char "z"%char.
Definition to_ascii_lowercase (c : Ascii.ascii) : Ascii.ascii :=
  if is_ascii_uppercase c then Ascii.ascii_of_N (Ascii.N_of_ascii c + 32) else c.
Definition is_ascii (c : Ascii.ascii) : bool := Ascii.N_of_ascii c <? 128.
Definition is_ascii_space (c : Ascii.ascii) : bool :=
  (Ascii.N_of_ascii c =? 32) || ((9 <=? Ascii.N_of_ascii c) && (Ascii.N_of_ascii c <=? 13)).

Definition eq_ignore_ascii_case (s t : string) : bool :=
  bool_decide (to_ascii_lowercase <$> to_chars s = to_ascii_lowercase <$> to_chars t).

Fixpoint drop_spaces (l : chars) : chars :=
  match l with
  | c :: l' => if is_ascii_space c then drop_spaces l' else l
  | [] => []
  end.
(** [str::trim] on ASCII text. *)
Definition ascii_trim (s : string) : string :=
  of_chars (rev (drop_spaces (rev (drop_spaces (to_chars s))))).
Definition ascii_lowercase (s : string) : string := of_chars (to_ascii_lowercase <$> to_chars s).

Definition newline : string := String (Ascii.ascii_of_N 10) "".
Definition ascii_trim_end (s : string) : string := of_chars (rev (drop_spaces (rev (to_chars s)))).

(** [trim], [trim_end], [to_lowercase] and [split_whitespace] follow the Unicode tables of
    the standard library; on ASCII text they are the functions above. *)
Class UnicodeText : Type := {
  str_trim : string → string;
  str_trim_end : string → string;
  str_to_lowercase : string → string;
  str_split_whitespace : string → list string;
}.
Class UnicodeTextLaws `{UnicodeText} : Prop := {
  str_trim_ascii s : forallb is_ascii (to_chars s) = true → str_trim s = ascii_trim s;
  str_trim_end_ascii s : forallb is_ascii (to_chars s) = true → str_trim_end s = ascii_trim_end s;
  str_to_lowercase_ascii s :
    forallb is_ascii (to_chars s) = true → str_to_lowercase s = ascii_lowercase s;
}.

(** [replace(['-', ' '], "_")]. *)
Definition replace_separators (s : string) : string :=
  of_chars ((λ c, if Ascii.eqb c "-" || Ascii.eqb c " " then "_"%char else c) <$> to_chars s).

(** ** slug.rs *)

(** The loop over the characters, with [prev_was_sep]. *)
Fixpoint slug_loop (prev_was_sep : bool) (l : chars) : chars :=
  match l with
  | [] => []
  | c :: l' =>
      if is_ascii_alphanumeric c then to_ascii_lowercase c :: slug_loop false l'
      else if prev_was_sep then slug_loop true l'
      else "_"%char :: slug_loop true l'
  end.
(** [ends_with('_')] and [truncate]. *)
Fixpoint drop_last_underscore (l : chars) : chars :=
  match l with
  | [] => []
  | [c] => if Ascii.eqb c "_" then [] else [c]
  | c :: l' => c :: drop_last_underscore l'
  end.
Definition slugify (input : string) : string :=
  of_chars (drop_last_underscore (slug_loop true (to_chars input))).

(** ** taxonomy.rs *)

Inductive GroceryCategory : Type :=
| PrimaryFlora | AnimalSecretions | FleshAndMarrow | ShelfStableCarbohydrates | CulturedDoughs
| LiquefiedHydration | CondimentsAndCatalysts | NutrientSparseCommodities | EthanolSolutions
| BiomedicalMaintenance | SanitizationAndUtility | AnomalousInputs.
#[global] Instance GroceryCategory_eq_dec : EqDecision GroceryCategory.
Proof. solve_decision. Defined.

Definition all_categories : list GroceryCategory :=
  [PrimaryFlora; AnimalSecretions; FleshAndMarrow; ShelfStableCarbohydrates; CulturedDoughs;
   LiquefiedHydration; CondimentsAndCatalysts; NutrientSparseCommodities; EthanolSolutions;
   BiomedicalMaintenance; SanitizationAndUtility; AnomalousInputs].

(** The two serializations of strum's attributes, the displayed one first. *)
Definition category_names (c : GroceryCategory) : string * string :=
  match c with
  | PrimaryFlora => ("Primary Flora", "PrimaryFlora")
  | AnimalSecretions => ("Animal Secretions", "AnimalSecretions")
  | FleshAndMarrow => ("Flesh And Marrow", "FleshAndMarrow")
  | ShelfStableCarbohydrates => ("Shelf Stable Carbohydrates", "ShelfStableCarbohydrates")
  | CulturedDoughs => ("Cultured Doughs", "CulturedDoughs")
  | LiquefiedHydration => ("Liquefied Hydration", "LiquefiedHydration")
  | CondimentsAndCatalysts => ("Condiments And Catalysts", "CondimentsAndCatalysts")
  | NutrientSparseCommodities => ("Nutrient Sparse Commodities", "NutrientSparseCommodities")
  | EthanolSolutions => ("Ethanol Solutions", "EthanolSolutions")
  | BiomedicalMaintenance => ("Biomedical Maintenance", "BiomedicalMaintenance")
  | SanitizationAndUtility => ("Sanitization And Utility", "SanitizationAndUtility")
  | AnomalousInputs => ("Anomalous Inputs", "AnomalousInputs")
  end%string.
Definition category_to_string (c : GroceryCategory) : string := (category_names c).1.
Definition category_from_str (s : string) : option GroceryCategory :=
  snd <$> list_find (λ c, eq_ignore_ascii_case s (category_names c).1 = true ∨
                          eq_ignore_ascii_case s (category_names c).2 = true) all_categories.
Definition category_slug (c : GroceryCategory) : string :=
  match c with
  | PrimaryFlora => "primary_flora"
  | AnimalSecretions => "animal_secretions"
  | FleshAndMarrow => "flesh_and_marrow"
  | ShelfStableCarbohydrates => "shelf_stable_carbohydrates"
  | CulturedDoughs => "cultured_doughs"
  | LiquefiedHydration => "liquefied_hydration"
  | CondimentsAndCatalysts => "condiments_and_catalysts"
  | NutrientSparseCommodities => "nutrient_sparse_commodities"
  | EthanolSolutions => "ethanol_solutions"
  | BiomedicalMaintenance => "biomedical_maintenance"
  | SanitizationAndUtility => "sanitization_and_utility"
  | AnomalousInputs => "anomalous_inputs"
  end%string.

(** ** Slugs are canonical *)

(** Lowercase letters and digits in groups separated by single underscores;
    [prev] tells whether a separator may not come next. *)
Fixpoint slug_shape (prev : bool) (l : chars) : bool :=
  match l with
  | [] => true
  | c :: l' =>
      if is_ascii_alphanumeric c && negb (is_ascii_uppercase c) then slug_shape false l'
      else Ascii.eqb c "_" && negb prev && match l' with [] => false | _ => slug_shape true l' end
  end.
Definition is_slug (s : string) : bool := slug_shape true (to_chars s).

Lemma lowercase_alnum c :
  is_ascii_alphanumeric c = true →
  is_ascii_alphanumeric (to_ascii_lowercase c) = true ∧
  is_ascii_uppercase (to_ascii_lowercase c) = false.
Proof. destruct c as [[] [] [] [] [] [] [] []]; by vm_compute. Qed.
Lemma lowercase_id c : is_ascii_uppercase c = false → to_ascii_lowercase c = c.
Proof. unfold to_ascii_lowercase. by intros ->. Qed.

(** As [slug_shape], with a separator allowed at the end. *)
Fixpoint loop_shape (prev : bool) (l : chars) : bool :=
  match l with
  | [] => true
  | c :: l' =>
      if is_ascii_alphanumeric c && negb (is_ascii_uppercase c) then loop_shape false l'
      else Ascii.eqb c "_" && negb prev && loop_shape true l'
  end.

Lemma slug_loop_shape prev l : loop_shape prev (slug_loop prev l) = true.
Proof.
  revert prev. induction l as [|c l IH]; intros prev; [done|]. cbn [slug_loop].
  destruct (is_ascii_alphanumeric c) eqn:Hc; [|destruct prev; [apply IH|cbn; apply IH]].
  destruct (lowercase_alnum c Hc) as [Ha Hu]. cbn [loop_shape]. rewrite Ha, Hu. apply IH.
Qed.
Lemma drop_last_shape prev l :
  loop_shape prev l = true → slug_shape prev (drop_last_underscore l) = true.
Proof.
  revert prev. induction l as [|c [|d l] IH]; intros prev; [done| |].
  - cbn. destruct (Ascii.eqb_spec c "_"); [done|].
    unfold slug_shape. by destruct (_ && negb (is_ascii_uppercase c)).
  - change (drop_last_underscore (c :: d :: l)) with (c :: drop_last_underscore (d :: l)).
    cbn [loop_shape slug_shape]. destruct (_ && negb (is_ascii_uppercase c)); [apply IH|].
    intros [Hc Hs]%andb_prop. rewrite Hc. cbn [andb].
    cbn [loop_shape] in Hs. destruct l as [|x l].
    + (* a separator before the end cannot be followed by another *)
      revert Hs. cbn [drop_last_underscore loop_shape].
      destruct (Ascii.eqb_spec d "_") as [->|Hd]; [done|]. rewrite andb_true_r. cbn.
      by destruct (is_ascii_alphanumeric d && _); destruct prev.
    + specialize (IH true Hs).
      change (drop_last_underscore (d :: x :: l)) with (d :: drop_last_underscore (x :: l)) in *.
      exact IH.
Qed.
Lemma slugify_is_slug s : is_slug (slugify s) = true.
Proof. unfold is_slug, slugify. rewrite to_of_chars. apply drop_last_shape, slug_loop_shape. Qed.

Lemma slug_loop_id prev l :
  slug_shape prev l = true → slug_loop prev l = l ∧ drop_last_underscore l = l.
Proof.
  revert prev. induction l as [|c l IH]; intros prev; [done|]. cbn [slug_shape slug_loop].
  destruct (is_ascii_alphanumeric c) eqn:Hc; cbn [andb].
  - destruct (is_ascii_uppercase c) eqn:Hu; cbn [negb].
    + destruct (Ascii.eqb_spec c "_") as [->|]; [by cbn in Hc|done].
    + intros Hs. destruct (IH false Hs) as [-> Hd]. rewrite lowercase_id by done. split; [done|].
      destruct l as [|d l]; [|cbn in *; by rewrite Hd].
      cbn. destruct (Ascii.eqb_spec c "_") as [->|]; [by cbn in Hc|done].
  - destruct (Ascii.eqb_spec c "_") as [->|]; cbn [andb]; [|done].
    destruct prev; cbn [negb andb]; [done|]. destruct l as [|d l]; [done|].
    intros Hs. destruct (IH true Hs) as [-> Hd]. split; [done|]. cbn in *. by rewrite Hd.
Qed.

(** Slugs are canonical.  [slugify] always returns lowercase groups of
    letters and digits joined by single underscores, it leaves such a string
    alone, so it is idempotent, and the gateway's test
    [slugify(key) == key] accepts exactly these strings. *)
Theorem slugify_canonical s :
  is_slug (slugify s) = true ∧ slugify (slugify s) = slugify s ∧
  (slugify s = s ↔ is_slug s = true).
Proof.
  assert (∀ t, is_slug t = true → slugify t = t) as Hid.
  { intros t Ht. unfold slugify. destruct (slug_loop_id true _ Ht) as [-> ->]. apply of_to_chars. }
  split_and!; [apply slugify_is_slug|apply Hid, slugify_is_slug|].
  split; [intros <-; apply slugify_is_slug|apply Hid].
Qed.
