(* ===== verification/Units.v ===== *)
(** Physical quantities (common/src/units.rs): the unit registry, conversion
    to base units with banker's rounding, and the dimensional fence.  The
    decimal type is the rust_decimal library's: an interface here. *)
From S2P Require Import Prelude Machine Types Text.

(** ** rust_decimal *)

Class Decimal (Q : Type) : Type := {
  dec_one : Q;
  dec_from : N → Q;
  (** [from_parts(lo, mid, hi, negative, scale)]. *)
  dec_from_parts : N → N → N → bool → N → Q;
  dec_from_str : string → option Q;
  dec_to_string : Q → string;
  dec_checked_add : Q → Q → option Q;
  dec_checked_sub : Q → Q → option Q;
  dec_checked_mul : Q → Q → option Q;
  dec_checked_div : Q → Q → option Q;
  (** [round_dp_with_strategy(dp, MidpointNearestEven)]. *)
  dec_round : N → Q → Q;
  dec_is_sign_negative : Q → bool;
  dec_is_zero : Q → bool;
}.
(** A printed decimal parses, to a decimal that multiplies by one. *)
Class DecimalLaws (Q : Type) `{Decimal Q} : Prop := {
  dec_printed_parses q :
    ∃ q' p, dec_from_str (dec_to_string q) = Some q' ∧ dec_checked_mul q' dec_one = Some p;
}.

(** ** units.rs *)

Definition SI_STABILIZATION_PRECISION : N := 4.

Inductive UnitError : Type :=
| UE_InvalidSymbol (symbol : string)
| UE_DimensionalMismatch
| UE_InvalidQuantity (quantity : string)
| UE_ArithmeticError.

Inductive Dimension : Type := D_Mass | D_Volume | D_Count | D_Anomalous.
#[global] Instance Dimension_eq_dec : EqDecision Dimension.
Proof. solve_decision. Defined.
Definition base_unit (d : Dimension) : string :=
  match d with D_Mass => "g" | D_Volume => "ml" | D_Count => "units" | D_Anomalous => "misc" end.

(** The newtypes [Mass], [Volume], [Count] and [Anomalous] each wrap the
    value. *)
Inductive PhysicalQuantity (Q : Type) : Type :=
| PQ_Mass (q : Q)
| PQ_Volume (q : Q)
| PQ_Count (q : Q)
| PQ_Anomalous (q : Q).
Arguments PQ_Mass {Q} _.
Arguments PQ_Volume {Q} _.
Arguments PQ_Count {Q} _.
Arguments PQ_Anomalous {Q} _.

Record UnitRegistryEntry (Q : Type) : Type := mkUnit {
  ur_symbol : string;
  ur_dimension : Dimension;
  ur_multiplier : Q;
  ur_is_contextual : bool;
}.
Arguments mkUnit {Q} _ _ _ _.
Arguments ur_symbol {Q} _.
Arguments ur_dimension {Q} _.
Arguments ur_multiplier {Q} _.
Arguments ur_is_contextual {Q} _.

Section units.
Context {Q : Type} `{Decimal Q, UnicodeText}.
Abbreviation qty := (PhysicalQuantity Q) (only parsing).

Definition pq_value (x : qty) : Q :=
  match x with PQ_Mass q => q | PQ_Volume q => q | PQ_Count q => q | PQ_Anomalous q => q end.
Definition pq_dimension (x : qty) : Dimension :=
  match x with
  | PQ_Mass _ => D_Mass | PQ_Volume _ => D_Volume | PQ_Count _ => D_Count | PQ_Anomalous _ => D_Anomalous
  end.

(** [impl Add]. *)
Definition pq_add (x y : qty) : result UnitError qty :=
  match x, y with
  | PQ_Mass a, PQ_Mass b => r ← ok_or UE_ArithmeticError (dec_checked_add a b); Ok (PQ_Mass r)
  | PQ_Volume a, PQ_Volume b => r ← ok_or UE_ArithmeticError (dec_checked_add a b); Ok (PQ_Volume r)
  | PQ_Count a, PQ_Count b => r ← ok_or UE_ArithmeticError (dec_checked_add a b); Ok (PQ_Count r)
  | PQ_Anomalous a, PQ_Anomalous b =>
      r ← ok_or UE_ArithmeticError (dec_checked_add a b); Ok (PQ_Anomalous r)
  | _, _ => Err UE_DimensionalMismatch
  end.
(** [impl Sub]. *)
Definition pq_sub (x y : qty) : result UnitError qty :=
  match x, y with
  | PQ_Mass a, PQ_Mass b => r ← ok_or UE_ArithmeticError (dec_checked_sub a b); Ok (PQ_Mass r)
  | PQ_Volume a, PQ_Volume b => r ← ok_or UE_ArithmeticError (dec_checked_sub a b); Ok (PQ_Volume r)
  | PQ_Count a, PQ_Count b => r ← ok_or UE_ArithmeticError (dec_checked_sub a b); Ok (PQ_Count r)
  | PQ_Anomalous a, PQ_Anomalous b =>
      r ← ok_or UE_ArithmeticError (dec_checked_sub a b); Ok (PQ_Anomalous r)
  | _, _ => Err UE_DimensionalMismatch
  end.

Definition MULTIPLIER_LB : Q := dec_from_parts 45359237 0 0 false 5.
Definition MULTIPLIER_OZ : Q := dec_from_parts 2834952 0 0 false 5.
Definition MULTIPLIER_GAL : Q := dec_from_parts 378541178 0 0 false 5.
Definition MULTIPLIER_FL_OZ : Q := dec_from_parts 2957353 0 0 false 5.

Definition normalize_symbol (symbol : string) : string :=
  replace_separators (str_to_lowercase (str_trim symbol)).

Definition one_of (s : string) (names : list string) : bool := bool_decide (s ∈ names).

(** The arms of the match, in order. *)
Definition registry : list (list string * UnitRegistryEntry Q) :=
  [(["g"; "gram"; "grams"], mkUnit "g" D_Mass dec_one false);
   (["kg"; "kilogram"; "kilograms"], mkUnit "kg" D_Mass (dec_from 1000) false);
   (["lb"; "lbs"; "pound"; "pounds"], mkUnit "lb" D_Mass MULTIPLIER_LB false);
   (["oz"; "ounce"; "ounces"], mkUnit "oz" D_Mass MULTIPLIER_OZ false);
   (["ml"; "milliliter"; "milliliters"; "millilitre"; "millilitres"], mkUnit "ml" D_Volume dec_one false);
   (["l"; "liter"; "liters"; "litre"; "litres"], mkUnit "L" D_Volume (dec_from 1000) false);
   (["gal"; "gallon"; "gallons"], mkUnit "gal" D_Volume MULTIPLIER_GAL false);
   (["fl_oz"; "fluid_ounce"; "fluid_ounces"], mkUnit "fl_oz" D_Volume MULTIPLIER_FL_OZ false);
   (["units"; "unit"; "pc"; "pcs"], mkUnit "units" D_Count dec_one false);
   (["dozens"; "dozen"], mkUnit "dozens" D_Count (dec_from 12) false);
   (["packs"; "pack"], mkUnit "packs" D_Count dec_one true);
   (["misc"; "handful"; "bunch"; "handfuls"; "bunches"], mkUnit "misc" D_Anomalous dec_one true)].

Fixpoint find_unit (normalized : string) (l : list (list string * UnitRegistryEntry Q)) :
    option (UnitRegistryEntry Q) :=
  match l with
  | [] => None
  | (names, entry) :: l' => if one_of normalized names then Some entry else find_unit normalized l'
  end.

Definition resolve_symbol (symbol : string) : result UnitError (UnitRegistryEntry Q) :=
  let normalized := normalize_symbol symbol in
  ok_or (UE_InvalidSymbol normalized) (find_unit normalized registry).

Definition convert_to_base_val (quantity : string) (multiplier : Q) : result UnitError Q :=
  q ← ok_or (UE_InvalidQuantity quantity) (dec_from_str quantity);
  r ← ok_or UE_ArithmeticError (dec_checked_mul q multiplier);
  Ok (dec_round SI_STABILIZATION_PRECISION r).

Definition construct_quantity (dimension : Dimension) (val : Q) : qty :=
  match dimension with
  | D_Mass => PQ_Mass val
  | D_Volume => PQ_Volume val
  | D_Count => PQ_Count val
  | D_Anomalous => PQ_Anomalous val
  end.

Definition parse_and_convert_with_multiplier (quantity unit : string) (multiplier : Q) :
    result UnitError qty :=
  entry ← resolve_symbol unit;
  base_val ← convert_to_base_val quantity multiplier;
  Ok (construct_quantity (ur_dimension entry) base_val).

Definition parse_and_convert (quantity unit : string) : result UnitError qty :=
  entry ← resolve_symbol unit;
  base_val ← convert_to_base_val quantity (ur_multiplier entry);
  Ok (construct_quantity (ur_dimension entry) base_val).

Definition convert_to_display_value (base_quantity display_unit : string) : option string :=
  entry ← ok (resolve_symbol display_unit);
  if ur_is_contextual entry then None
  else
    base ← dec_from_str base_quantity;
    r ← dec_checked_div base (ur_multiplier entry);
    Some (dec_to_string (dec_round SI_STABILIZATION_PRECISION r)).

(** ** What the registry guarantees *)

Lemma dimension_construct d q : pq_dimension (construct_quantity d q) = d.
Proof. by destruct d. Qed.
Lemma value_construct d q : pq_value (construct_quantity d q) = q.
Proof. by destruct d. Qed.

(** The dimensional fence: sums and differences exist within a dimension
    only, and stay in it. *)
Lemma pq_add_Ok x y z :
  pq_add x y = Ok z →
  pq_dimension x = pq_dimension y ∧ pq_dimension z = pq_dimension x ∧
  dec_checked_add (pq_value x) (pq_value y) = Some (pq_value z).
Proof.
  destruct x as [a|a|a|a], y as [b|b|b|b]; cbn; try done;
    destruct (dec_checked_add a b) as [r|]; cbn; try done; by intros [= <-].
Qed.
Lemma pq_sub_Ok x y z :
  pq_sub x y = Ok z →
  pq_dimension x = pq_dimension y ∧ pq_dimension z = pq_dimension x ∧
  dec_checked_sub (pq_value x) (pq_value y) = Some (pq_value z).
Proof.
  destruct x as [a|a|a|a], y as [b|b|b|b]; cbn; try done;
    destruct (dec_checked_sub a b) as [r|]; cbn; try done; by intros [= <-].
Qed.

(** ASCII text passes the normalisation as the registry's names are
    written. *)
Context `{!UnicodeTextLaws}.
Lemma base_unit_normal d : normalize_symbol (base_unit d) = base_unit d.
Proof.
  unfold normalize_symbol. rewrite str_trim_ascii by (by destruct d).
  rewrite str_to_lowercase_ascii by (by destruct d). by destruct d.
Qed.
(** The base unit of a dimension is registered, in that dimension, with
    multiplier one. *)
Lemma resolve_base_unit d :
  ∃ e, resolve_symbol (base_unit d) = Ok e ∧ ur_dimension e = d ∧ ur_multiplier e = dec_one.
Proof. unfold resolve_symbol. rewrite base_unit_normal. destruct d; eexists; split; done. Qed.
(** A stored base quantity is read back in its own dimension. *)
Lemma parse_base_quantity `{!DecimalLaws Q} q d :
  ∃ r, parse_and_convert (dec_to_string q) (base_unit d) = Ok r ∧ pq_dimension r = d.
Proof.
  destruct (resolve_base_unit d) as (e & He & Hd & Hm).
  destruct (dec_printed_parses q) as (q' & p & Hp & Hmul).
  unfold parse_and_convert, convert_to_base_val. rewrite He. cbn. rewrite Hp, Hm. cbn.
  rewrite Hmul. cbn. eexists. split; [done|]. by rewrite dimension_construct.
Qed.
End units.
