(* ===== verification/Rpc.v ===== *)
(** The metadata of an RPC (common-rpc/src/lib.rs, the trace id of
    common/src/types/trace.rs and the interceptors that peer.rs and the
    node server install): who may talk to whom, and how a trace id travels.
    The encoding of header values belongs to the http library and is an
    interface. *)
From Stdlib Require Import Ascii.
From S2P Require Import Prelude Machine Types Wire Consensus Fsm Text.

(** ** Header values *)

(** [MetadataValue::from_str] and [to_str]. *)
Class HeaderText : Type := {
  header_parse : string → option string;
  header_to_str : string → option string;
}.
Definition visible_ascii (s : string) : bool :=
  forallb (λ c, (32 <=? Ascii.N_of_ascii c) && (Ascii.N_of_ascii c <=? 126)) (to_chars s).
(** Visible ASCII text is a header value, and a value reads back as the text
    it was parsed from. *)
Class HeaderTextLaws `{HeaderText} : Prop := {
  header_parse_visible s : visible_ascii s = true → is_Some (header_parse s);
  header_to_str_parse s v : header_parse s = Some v → header_to_str v = Some s;
}.

(** ** TraceId and ClusterId *)

(** A [TraceId] is the canonical text of a UUID. *)
Abbreviation TraceId := string (only parsing).
Definition TraceId_from_str `{UuidText} (s : string) : result IdentityError TraceId :=
  ok_or (InvalidTraceId "") (uuid_parse s).
(** A value of the type: a text that a parse has returned. *)
(** [ClinicalTarget], the targets that telemetry events carry. *)
Inductive ClinicalTarget : Type :=
| RaftFoundation | RaftReplication | RaftCompaction | ClinicalIngress | ClinicalFsm
| ClinicalFoundation | ClinicalRecovery | ClinicalOracle | ClinicalTelemetry.
Definition ClinicalTarget_as_str (t : ClinicalTarget) : string :=
  match t with
  | RaftFoundation => "raft::foundation"
  | RaftReplication => "raft::replication"
  | RaftCompaction => "raft::compaction"
  | ClinicalIngress => "clinical::ingress"
  | ClinicalFsm => "clinical::fsm"
  | ClinicalFoundation => "clinical::foundation"
  | ClinicalRecovery => "clinical::recovery"
  | ClinicalOracle => "clinical::oracle"
  | ClinicalTelemetry => "clinical::telemetry"
  end.
#[global] Instance ClinicalTarget_as_str_inj : Inj (=) (=) ClinicalTarget_as_str.
Proof. by intros [] []. Qed.

Definition valid_trace_id `{UuidText} (t : TraceId) : Prop :=
  uuid_parse t = Some t ∧ visible_ascii t = true.

Definition HEADER_CLUSTER_ID : string := "x-cluster-id".
Definition HEADER_TARGET_NODE_ID : string := "x-target-node-id".
Definition HEADER_TRACE_ID : string := "x-trace-id".

(** [ClusterId::try_new]: [char::is_alphanumeric] follows the Unicode tables. *)
Definition ClusterId_try_new `{UnicodeText} (chars_ok : string → bool) (id : string) :
    result IdentityError string :=
  let trimmed := str_trim id in
  if decide (trimmed = "") then Err EmptyClusterId
  else if negb (chars_ok trimmed) then Err (InvalidClusterId trimmed)
  else Ok trimmed.
(** The character test on ASCII text. *)
Definition ascii_cluster_chars (s : string) : bool :=
  forallb (λ c, is_ascii_alphanumeric c || Ascii.eqb c "-" || Ascii.eqb c "_") (to_chars s).

(** ** Requests *)

(** [tonic::Request]: headers on the wire, extensions inside the process. *)
Record Request (T : Type) : Type := mkRequest {
  rq_metadata : gmap string string;
  rq_trace : option TraceId;
  rq_payload : T;
}.
Arguments mkRequest {T} _ _ _.
Arguments rq_metadata {T} _.
Arguments rq_trace {T} _.
Arguments rq_payload {T} _.
Definition Request_new {T} (p : T) : Request T := mkRequest ∅ None p.
(** What a request is when it arrives: extensions do not cross the wire. *)
Definition received {T} (r : Request T) : Request T := mkRequest (rq_metadata r) None (rq_payload r).
Definition set_header {T} (k v : string) (r : Request T) : Request T :=
  mkRequest (<[k := v]> (rq_metadata r)) (rq_trace r) (rq_payload r).
(** [extensions_mut().insert(trace_id)]. *)
Definition set_trace {T} (t : TraceId) (r : Request T) : Request T :=
  mkRequest (rq_metadata r) (Some t) (rq_payload r).

Record Response (T : Type) : Type := mkResponse {
  rs_metadata : gmap string string;
  rs_payload : T;
}.
Arguments mkResponse {T} _ _.
Arguments rs_metadata {T} _.
Arguments rs_payload {T} _.
Definition Response_new {T} (p : T) : Response T := mkResponse ∅ p.

Section rpc.
Context `{HeaderText, UuidText}.
Abbreviation checked := (result Status) (only parsing).
Definition unauthenticated {A} (msg : string) : checked A := Err (mkStatus C_Unauthenticated msg).

(** ** The identity interceptor *)

Record IdentityInterceptor : Type := mkIdentityInterceptor {
  ii_identity : NodeIdentity;
  ii_enforce_target_node : bool;
}.
Definition IdentityInterceptor_new (i : NodeIdentity) : IdentityInterceptor :=
  mkIdentityInterceptor i true.
Definition without_node_check (i : NodeIdentity) : IdentityInterceptor :=
  mkIdentityInterceptor i false.

Definition parse_header (s what : string) : checked string :=
  ok_or (mkStatus C_Internal what) (header_parse s).

Definition inject_cluster_id_into_request {T} (cluster : string) (r : Request T) : checked (Request T) :=
  v ← parse_header cluster "Failed to parse cluster_id for outbound header";
  Ok (set_header HEADER_CLUSTER_ID v r).
Definition inject_identity_into_request {T} (cluster : string) (target : NodeId) (r : Request T) :
    checked (Request T) :=
  v ← parse_header cluster "Failed to parse cluster_id for outbound header";
  n ← parse_header (to_decimal target) "Failed to parse target_node_id for outbound header";
  Ok (set_header HEADER_TARGET_NODE_ID n (set_header HEADER_CLUSTER_ID v r)).

Definition verify_cluster_id {T} (i : NodeIdentity) (r : Request T) : checked unit :=
  v ← ok_or (mkStatus C_Unauthenticated "Missing mandatory header")
        (rq_metadata r !! HEADER_CLUSTER_ID);
  s ← ok_or (mkStatus C_Unauthenticated "Invalid cluster ID encoding") (header_to_str v);
  if decide (s = cluster_id i) then Ok tt else unauthenticated "Cluster identity mismatch".
Definition verify_target_node_id {T} (i : NodeIdentity) (r : Request T) : checked unit :=
  v ← ok_or (mkStatus C_Unauthenticated "Missing mandatory header")
        (rq_metadata r !! HEADER_TARGET_NODE_ID);
  s ← ok_or (mkStatus C_Unauthenticated "Invalid node ID encoding") (header_to_str v);
  n ← map_err (λ _, mkStatus C_Unauthenticated "Invalid node ID format") (NodeId_from_str s);
  if decide (n = node_id i) then Ok tt else unauthenticated "Target node identity mismatch".

(** [Interceptor::call]. *)
Definition identity_call {T} (ii : IdentityInterceptor) (r : Request T) : checked (Request T) :=
  _ ← verify_cluster_id (ii_identity ii) r;
  _ ← (if ii_enforce_target_node ii then verify_target_node_id (ii_identity ii) r else Ok tt);
  Ok r.

(** ** The trace interceptor *)

(** [fresh] is the identifier a call of [TraceId::generate] returns. *)
Definition trace_call {T} (authoritative : bool) (fresh : TraceId) (r : Request T) : checked (Request T) :=
  if authoritative then Ok (set_trace fresh r)
  else
    t ← ok_or (mkStatus C_FailedPrecondition "Missing or malformed TraceId for distributed correlation")
          (v ← rq_metadata r !! HEADER_TRACE_ID; s ← header_to_str v; ok (TraceId_from_str s));
    Ok (set_trace t r).

Definition require_trace_id {T} (r : Request T) : checked TraceId :=
  ok_or (mkStatus C_FailedPrecondition "Missing TraceId for distributed correlation") (rq_trace r).
Definition extract_trace_id_from_response {T} (r : Response T) : option TraceId :=
  v ← rs_metadata r !! HEADER_TRACE_ID; s ← header_to_str v; ok (TraceId_from_str s).
Definition inject_trace_id_into_request {T} (t : TraceId) (r : Request T) : checked (Request T) :=
  v ← parse_header t "Failed to parse TraceId for outbound header";
  Ok (set_header HEADER_TRACE_ID v r).
Definition inject_trace_id_into_response {T} (t : TraceId) (r : Response T) : checked (Response T) :=
  v ← parse_header t "Failed to parse TraceId for outbound header";
  Ok (mkResponse (<[HEADER_TRACE_ID := v]> (rs_metadata r)) (rs_payload r)).

(** ** The chains the node server and the peer manager install *)

(** The interceptor of [PeerManager::get_client] (peer.rs). *)
Definition peer_outbound {T} (i : NodeIdentity) (target : NodeId) (r : Request T) : checked (Request T) :=
  r1 ← inject_identity_into_request (cluster_id i) target r;
  match rq_trace r1 with
  | Some t => inject_trace_id_into_request t r1
  | None => Ok r1
  end.
(** What the senders of election.rs and replication.rs build: the trace id is
    injected before the interceptor runs. *)
Definition peer_request {T} (i : NodeIdentity) (target : NodeId) (t : TraceId) (p : T) : checked (Request T) :=
  r ← map_err (λ _, mkStatus C_Internal "Telemetry injection failed")
        (inject_trace_id_into_request t (Request_new p));
  peer_outbound i target r.
(** [verify_trace_integrity] (consensus/rpc.rs). *)
Definition verify_trace_integrity {T} (response : Response T) (expected_id : TraceId) : checked unit :=
  match extract_trace_id_from_response response with
  | Some returned_id =>
      if decide (returned_id = expected_id) then Ok tt
      else Err (mkStatus C_DataLoss "Causal Integrity Violation")
  | None => Err (mkStatus C_DataLoss "Trace ID Missing in Response")
  end.
(** [build_grpc_server] (node-server/src/main.rs). *)
Definition consensus_inbound {T} (i : NodeIdentity) (fresh : TraceId) (r : Request T) : checked (Request T) :=
  r1 ← identity_call (IdentityInterceptor_new i) r; trace_call false fresh r1.
Definition ingress_inbound {T} (i : NodeIdentity) (fresh : TraceId) (r : Request T) : checked (Request T) :=
  r1 ← identity_call (without_node_check i) r; trace_call true fresh r1.
End rpc.
#[global] Arguments trace_call : simpl never.

(** ** Visible text *)

Lemma pretty_char_visible d : d < 10 → visible_ascii (String (pretty_N_char d) "") = true.
Proof.
  intros Hd.
  assert (d = 0 ∨ d = 1 ∨ d = 2 ∨ d = 3 ∨ d = 4 ∨ d = 5 ∨ d = 6 ∨ d = 7 ∨ d = 8 ∨ d = 9)
    as Hcases by lia.
  by destruct_or! Hcases; subst d.
Qed.

Lemma visible_cons c s :
  visible_ascii (String c s) = visible_ascii (String c "") && visible_ascii s.
Proof. unfold visible_ascii. cbn. by rewrite andb_true_r. Qed.

Lemma pretty_go_visible x s : visible_ascii s = true → visible_ascii (pretty_N_go x s) = true.
Proof.
  revert s. induction (N.lt_wf_0 x) as [x _ IH]. intros s Hs.
  destruct (decide (0 < x)) as [Hpos|Hzero].
  - rewrite pretty_N_go_step by done. apply IH; [apply N.div_lt; lia|].
    rewrite visible_cons, pretty_char_visible by (by apply N.mod_lt). done.
  - assert (x = 0) as -> by lia. done.
Qed.

Lemma to_decimal_visible n : visible_ascii (to_decimal n) = true.
Proof.
  unfold to_decimal, pretty, pretty_N. destruct (decide (n = 0)); [done|].
  by apply pretty_go_visible.
Qed.

Lemma to_decimal_inj a b : valid_node_id a → valid_node_id b → to_decimal a = to_decimal b → a = b.
Proof.
  intros Ha Hb Heq. apply NodeId_text_roundtrip in Ha. apply NodeId_text_roundtrip in Hb.
  rewrite Heq, Hb in Ha. by injection Ha.
Qed.

Section laws.
Context `{HeaderTextLaws, UuidText}.

Lemma parse_header_visible s what :
  visible_ascii s = true → ∃ v, parse_header s what = Ok v ∧ header_to_str v = Some s.
Proof.
  intros Hs. destruct (header_parse_visible s Hs) as [v Hv]. exists v. unfold parse_header.
  rewrite Hv. split; [done|]. by apply header_to_str_parse.
Qed.

Lemma verify_cluster_header {T} i (r : Request T) v s :
  rq_metadata r !! HEADER_CLUSTER_ID = Some v → header_to_str v = Some s →
  verify_cluster_id i r
  = if decide (s = cluster_id i) then Ok tt else unauthenticated "Cluster identity mismatch".
Proof. intros Hv Hs. unfold verify_cluster_id. rewrite Hv. cbn. by rewrite Hs. Qed.

Lemma verify_target_header {T} i (r : Request T) v n :
  rq_metadata r !! HEADER_TARGET_NODE_ID = Some v → header_to_str v = Some (to_decimal n) →
  valid_node_id n →
  verify_target_node_id i r
  = if decide (n = node_id i) then Ok tt else unauthenticated "Target node identity mismatch".
Proof.
  intros Hv Hs Hn. unfold verify_target_node_id. rewrite Hv. cbn. rewrite Hs. cbn.
  by rewrite NodeId_text_roundtrip.
Qed.

Lemma trace_header {T} fresh (r : Request T) v t :
  rq_metadata r !! HEADER_TRACE_ID = Some v → header_to_str v = Some t → valid_trace_id t →
  trace_call false fresh r = Ok (set_trace t r).
Proof.
  intros Hv Hs [Ht _]. unfold trace_call, TraceId_from_str. rewrite Hv. cbn. rewrite Hs. cbn.
  by rewrite Ht.
Qed.

(** What leaves for a peer carries the three headers. *)
Lemma peer_request_headers {T} s target t (p : T) :
  visible_ascii (cluster_id s) = true → valid_trace_id t →
  ∃ r vc vn vt,
    peer_request s target t p = Ok r ∧ rq_payload r = p ∧
    rq_metadata r !! HEADER_CLUSTER_ID = Some vc ∧ header_to_str vc = Some (cluster_id s) ∧
    rq_metadata r !! HEADER_TARGET_NODE_ID = Some vn ∧ header_to_str vn = Some (to_decimal target) ∧
    rq_metadata r !! HEADER_TRACE_ID = Some vt ∧ header_to_str vt = Some t.
Proof.
  intros Hc [_ Ht]. unfold peer_request, inject_trace_id_into_request, peer_outbound, inject_identity_into_request.
  destruct (parse_header_visible t "Failed to parse TraceId for outbound header" Ht) as (vt & -> & Hvt).
  destruct (parse_header_visible (cluster_id s) "Failed to parse cluster_id for outbound header" Hc)
    as (vc & -> & Hvc).
  destruct (parse_header_visible (to_decimal target)
    "Failed to parse target_node_id for outbound header" (to_decimal_visible _)) as (vn & -> & Hvn).
  eexists _, vc, vn, vt. split; [done|]. cbn.
  split_and!; try done; rewrite ?lookup_insert_ne by done; by rewrite lookup_insert_eq.
Qed.

(** Who admits it. *)
Lemma peer_request_admitted {T} s target t (p : T) :
  visible_ascii (cluster_id s) = true → valid_node_id target → valid_trace_id t →
  ∃ r, peer_request s target t p = Ok r ∧
    ∀ i fresh,
      (i = mkIdentity (cluster_id s) target →
       ∃ r', consensus_inbound i fresh (received r) = Ok r' ∧ rq_payload r' = p ∧
             require_trace_id r' = Ok t) ∧
      (i ≠ mkIdentity (cluster_id s) target →
       ∃ msg, consensus_inbound i fresh (received r) = Err (mkStatus C_Unauthenticated msg)).
Proof.
  intros Hc Hn Ht.
  destruct (peer_request_headers s target t p Hc Ht) as (r & vc & vn & vt & Hr & Hp & Hvc & Hsc & Hvn & Hsn & Hvt & Hst).
  exists r. split; [done|]. intros i fresh. unfold consensus_inbound, identity_call. cbn.
  rewrite (verify_cluster_header i (received r) vc _ Hvc Hsc),
    (verify_target_header i (received r) vn _ Hvn Hsn Hn). split.
  - intros ->. cbn. rewrite !decide_True by done. cbn.
    rewrite (trace_header fresh _ vt t) by done. by eexists.
  - intros Hne. destruct (decide (cluster_id s = cluster_id i)) as [He|]; cbn; [|by eexists].
    destruct (decide (target = node_id i)) as [->|]; cbn; [|by eexists].
    destruct Hne. destruct i; cbn in *. congruence.
Qed.

(** A client's request is admitted by every node of its cluster, under a trace
    id of the node's own. *)
Lemma client_request_admitted {T} (c : string) (p : T) :
  visible_ascii c = true →
  ∃ r, inject_cluster_id_into_request c (Request_new p) = Ok r ∧ rq_payload r = p ∧
    ∀ i fresh,
      (cluster_id i = c →
       ∃ r', ingress_inbound i fresh (received r) = Ok r' ∧ rq_payload r' = p ∧
             require_trace_id r' = Ok fresh) ∧
      (cluster_id i ≠ c →
       ∃ msg, ingress_inbound i fresh (received r) = Err (mkStatus C_Unauthenticated msg)).
Proof.
  intros Hc. unfold inject_cluster_id_into_request.
  destruct (parse_header_visible c "Failed to parse cluster_id for outbound header" Hc)
    as (vc & -> & Hvc).
  eexists. split; [done|]. split; [done|]. intros i fresh. unfold ingress_inbound, identity_call. cbn.
  rewrite (verify_cluster_header i _ vc c) by (done || by cbn; rewrite lookup_insert_eq).
  split; intros Hi; [rewrite decide_True by done|rewrite decide_False by done]; by eexists.
Qed.

(** A response gives its caller the trace id that was put into it. *)
Lemma response_trace_roundtrip {T} t (r : Response T) :
  valid_trace_id t →
  ∃ r', inject_trace_id_into_response t r = Ok r' ∧ rs_payload r' = rs_payload r ∧
        verify_trace_integrity r' t = Ok tt.
Proof.
  intros [Ht Hv]. unfold inject_trace_id_into_response.
  destruct (parse_header_visible t "Failed to parse TraceId for outbound header" Hv) as (v & -> & Hs).
  eexists. split; [done|]. split; [done|].
  unfold verify_trace_integrity, extract_trace_id_from_response. cbn.
  rewrite lookup_insert_eq. cbn. rewrite Hs. cbn. unfold TraceId_from_str. rewrite Ht. cbn.
  by rewrite decide_True.
Qed.
End laws.

(** A concrete header encoding: the text itself, when it is visible. *)
Module PlainHeaders.
#[export] Instance plain : HeaderText := {|
  header_parse s := if visible_ascii s then Some s else None;
  header_to_str v := if visible_ascii v then Some v else None |}.
#[export] Instance plain_laws : HeaderTextLaws.
Proof.
  split; intros s; cbn; [by intros ->|].
  intros v. destruct (visible_ascii s) eqn:Hs; [|done]. intros [= <-]. by rewrite Hs.
Qed.
End PlainHeaders.
