(* ===== verification/ClientDisk.v ===== *)
(** What the client keeps on disk (client-cli/src/wal.rs, state.rs): the
    write-ahead log of mutation intents in sled's default tree, and the
    session file with the sequence counter and the addresses it knows.  The
    JSON text of the session belongs to serde_json and is an interface; the
    file is the standard library's. *)
From S2P Require Import Prelude Machine Types Wire Sled.

(** ** The session file *)

Inductive IoError : Type := io_error.

(** [Path::exists], [fs::read_to_string] and [fs::write] on the file that the
    session names. *)
Class FileIO (F : Type) : Type := {
  file_exists : F → bool;
  file_read : F → result IoError string;
  file_write : string → st F IoError unit;
}.
(** A write that fails, or that the process does not survive, leaves the old
    text or the beginning of the new one: [fs::write] truncates first. *)
Class FileIOLaws (F : Type) `{FileIO F} : Type := {
  file_content : F → option string;
  file_exists_law f : file_exists f = bool_decide (is_Some (file_content f));
  file_read_law f s : file_read f = Ok s → file_content f = Some s;
  file_write_law data f :
    wp (file_write data) (λ _ f', file_content f' = Some data)
      (λ _ f', file_content f' = file_content f ∨
               ∃ p q, data = (p +:+ q)%string ∧ file_content f' = Some p) f;
}.

(** [serde_json::to_string_pretty] and [from_str]. *)
Inductive JsonError : Type := json_error.
Class JsonText (A : Type) : Type := {
  json_to_string : A → result JsonError string;
  json_from_str : string → result JsonError A;
}.
Class JsonOk (A : Type) : Type := json_ok : A → Prop.
(** A text reads back as the value it was printed from; a text cut short is
    not JSON. *)
Class JsonTextLaws (A : Type) `{JsonText A, JsonOk A} : Prop := {
  json_roundtrip (a : A) s : json_ok a → json_to_string a = Ok s → json_from_str s = Ok a;
  json_cut (a : A) p q :
    json_to_string a = Ok (p +:+ q)%string → q ≠ "" → is_ok (json_from_str p : result JsonError A) = false;
}.

(** ** state.rs *)

Definition MAX_KNOWN_NODES : nat := 10.

Inductive ClientStateError : Type :=
| CSE_Io
| CSE_Serialization
| CSE_ClusterIdMismatch (expected found : string)
| CSE_BootstrapMissingNodes
| CSE_Arithmetic (e : ArithmeticError).

Record ClientState : Type := mkClientState {
  cs_cluster_id : string;
  cs_client_id : string;
  cs_sequence_id : SequenceId;
  cs_known_nodes : list string;
}.
#[global] Instance ClientState_eq_dec : EqDecision ClientState.
Proof. solve_decision. Defined.

Definition with_nodes (l : list string) (s : ClientState) : ClientState :=
  mkClientState (cs_cluster_id s) (cs_client_id s) (cs_sequence_id s) l.
Definition with_sequence (n : SequenceId) (s : ClientState) : ClientState :=
  mkClientState (cs_cluster_id s) (cs_client_id s) n (cs_known_nodes s).

(** [retain(|n| n != addr)] followed by [insert(0, addr)]. *)
Definition move_to_front (addr : string) (l : list string) : list string :=
  addr :: filter (λ n, n ≠ addr) l.
(** The merge loop: the overriding nodes, last one first. *)
Definition merge_nodes (overriding known : list string) : list string :=
  take MAX_KNOWN_NODES (foldr move_to_front known overriding).

Section state.
Context {F : Type} `{FileIO F, JsonText ClientState}.

Definition save_state (s : ClientState) : st F ClientStateError unit :=
  data ← st_lift (map_err (λ _, CSE_Serialization) (json_to_string s));
  st_map_err (λ _, CSE_Io) (file_write data).

(** [fresh] is what [ClientId::generate] returns. *)
Definition load_or_init (cluster_id : string) (overriding_nodes : list string) (fresh : string) :
    st F ClientStateError ClientState :=
  let overriding_nodes := take MAX_KNOWN_NODES overriding_nodes in
  exists_ ← st_gets file_exists;
  if exists_ : bool then
    data ← st_reads (λ f, map_err (λ _, CSE_Io) (file_read f));
    loaded ← st_lift (map_err (λ _, CSE_Serialization) (json_from_str data));
    if decide (cs_cluster_id loaded ≠ cluster_id)
    then st_fail (CSE_ClusterIdMismatch cluster_id (cs_cluster_id loaded))
    else
      let state := with_nodes (take MAX_KNOWN_NODES (cs_known_nodes loaded)) loaded in
      if decide (overriding_nodes = []) then mret state
      else
        let state := with_nodes (merge_nodes overriding_nodes (cs_known_nodes state)) state in
        _ ← save_state state;
        mret state
  else if decide (overriding_nodes = []) then st_fail CSE_BootstrapMissingNodes
  else
    let state := mkClientState cluster_id fresh 0 overriding_nodes in
    _ ← save_state state;
    mret state.

(** The session in memory and its file. *)
Record Session : Type := mkSession { ses_state : ClientState; ses_file : F }.
Abbreviation ses := (st Session ClientStateError) (only parsing).

Definition session_save : ses unit :=
  λ x, let '(r, f) := save_state (ses_state x) (ses_file x) in (r, mkSession (ses_state x) f).
Definition session_set (g : ClientState → ClientState) : ses unit :=
  st_modify (λ x, mkSession (g (ses_state x)) (ses_file x)).

Definition next_sequence_id : ses SequenceId :=
  s ← st_gets ses_state;
  n ← st_lift (map_err CSE_Arithmetic (seq_add (cs_sequence_id s) 1));
  _ ← session_set (with_sequence n);
  _ ← session_save;
  mret n.

Definition record_success (node_addr : string) : ses unit :=
  s ← st_gets ses_state;
  if decide (head (cs_known_nodes s) = Some node_addr) then mret tt
  else
    _ ← session_set (with_nodes (take MAX_KNOWN_NODES (move_to_front node_addr (cs_known_nodes s))));
    session_save.
Definition record_hint (leader_addr : string) : ses unit := record_success leader_addr.

Definition rotate_nodes : ses unit :=
  s ← st_gets ses_state;
  match cs_known_nodes s with
  | current :: ((_ :: _) as rest) =>
      _ ← session_set (with_nodes (rest ++ [current]));
      session_save
  | _ => mret tt
  end.
End state.
Arguments Session _ : clear implicits.
Arguments mkSession {F} _ _.
Arguments ses_state {F} _.
Arguments ses_file {F} _.

(** ** wal.rs *)

Inductive WalError : Type := WE_Db | WE_Corruption (msg : string) | WE_Serialization.

(** [Db] derefs to its default tree. *)
Definition WAL_TREE : string := "__sled__default".

Abbreviation intent_entry := (SequenceId * ProposeMutationRequest)%type (only parsing).
Definition seq_le (p q : intent_entry) : Prop := p.1 ≤ q.1.
#[global] Instance seq_le_dec : RelDecision seq_le.
Proof. intros p q. unfold seq_le. apply _. Defined.
#[global] Instance seq_le_total : Total seq_le.
Proof. intros p q. unfold seq_le. lia. Qed.
#[global] Instance seq_le_trans : Transitive seq_le.
Proof. intros p q r. unfold seq_le. lia. Qed.

Section wal.
Context {D : Type} `{Sled D, Message ProposeMutationRequest}.
Abbreviation wal := (st D WalError) (only parsing).

Definition wal_db {A} : st D SledError A → wal A := st_map_err (λ _, WE_Db).

Definition wal_append (sequence_id : SequenceId) (req : ProposeMutationRequest) : wal unit :=
  _ ← wal_db (sled_insert WAL_TREE (to_be_bytes sequence_id) (encode_to_vec req));
  wal_db sled_flush.
Definition wal_remove (sequence_id : SequenceId) : wal unit :=
  _ ← wal_db (sled_remove WAL_TREE (to_be_bytes sequence_id));
  wal_db sled_flush.

Definition decode_entry (key value : bytes) : result WalError intent_entry :=
  seq_val ← ok_or (WE_Corruption "Invalid sequence ID key length") (from_be_bytes key);
  req ← map_err (λ _, WE_Serialization) (decode_msg value);
  Ok (seq_val, req).

(** The loop over the tree. *)
Fixpoint recover_entries (items : list (result SledError (bytes * bytes))) : result WalError (list intent_entry) :=
  match items with
  | [] => Ok []
  | item :: items' =>
      '(key, value) ← map_err (λ _, WE_Db) item;
      entry ← decode_entry key value;
      rest ← recover_entries items';
      Ok (entry :: rest)
  end.
Definition wal_recover (d : D) : result WalError (list intent_entry) :=
  recovered ← recover_entries (sled_iter WAL_TREE d);
  Ok (merge_sort seq_le recovered).
End wal.

(** ** What the log holds *)

#[global] Instance ProposeMutationRequest_ok : WireOk ProposeMutationRequest := λ r,
  U64 (pmq_sequence_id r) ∧
  match pmq_intent r with Some i => i32_ok (mi_operation i) | None => True end.

(** The tree of [ts] is the encoding of the pending intents [m]. *)
Definition wal_holds `{Message ProposeMutationRequest} (ts : trees) (m : gmap N ProposeMutationRequest) : Prop :=
  (∀ n r, m !! n = Some r → U64 n ∧ wire_ok r) ∧
  ∀ k v, tree_at ts WAL_TREE !! k = Some v ↔
         ∃ n r, m !! n = Some r ∧ k = to_be_bytes n ∧ v = encode_to_vec r.

Section wal_laws.
Context {D : Type} `{SledLaws D} `{!Message ProposeMutationRequest, !MessageLaws ProposeMutationRequest}.

Lemma wal_holds_empty : wal_holds ∅ ∅.
Proof.
  split; [by intros n r ?%lookup_empty_Some|]. intros k v.
  change (tree_at ∅ WAL_TREE) with (∅ : gmap bytes bytes). split.
  - by intros ?%lookup_empty_Some.
  - by intros (n & r & ?%lookup_empty_Some & _).
Qed.

Lemma wal_holds_insert ts m n r :
  wal_holds ts m → U64 n → wire_ok r →
  wal_holds (apply_tree_op ts (WAL_TREE, BInsert (to_be_bytes n) (encode_to_vec r))) (<[n := r]> m).
Proof.
  intros [Hok Hm] Hn Hr. split.
  { intros n' r'. rewrite lookup_insert_Some. intros [[<- <-]|[_ ?]]; [done|]. by apply Hok. }
  intros k v. unfold apply_tree_op. cbn. rewrite tree_at_insert_eq, lookup_insert_Some. split.
  - intros [[<- <-]|[Hk Hl]].
    { exists n, r. by rewrite lookup_insert_eq. }
    apply Hm in Hl as (n' & r' & Hl & -> & ->). exists n', r'.
    rewrite lookup_insert_ne; [done|]. congruence.
  - intros (n' & r' & [[<- <-]|[Hne Hl]]%lookup_insert_Some & -> & ->); [by left|].
    right. split; [|apply Hm; eauto]. intros Heq. apply Hne.
    eapply to_be_bytes_inj, Heq; [done|]. by apply Hok in Hl as [? _].
Qed.

Lemma wal_holds_delete ts m n :
  wal_holds ts m → U64 n →
  wal_holds (apply_tree_op ts (WAL_TREE, BRemove (to_be_bytes n))) (delete n m).
Proof.
  intros [Hok Hm] Hn. split.
  { intros n' r'. rewrite lookup_delete_Some. intros [_ ?]. by apply Hok. }
  intros k v. unfold apply_tree_op. cbn. rewrite tree_at_insert_eq, lookup_delete_Some, Hm. split.
  - intros (Hk & n' & r' & Hl & -> & ->). exists n', r'. rewrite lookup_delete_ne; [done|]. congruence.
  - intros (n' & r' & [Hne Hl]%lookup_delete_Some & -> & ->). split; [|eauto].
    intros Heq. apply Hne. eapply to_be_bytes_inj, Heq; [done|]. by apply Hok in Hl as [? _].
Qed.

(** A write of the tree followed by a flush. *)
Lemma wal_flushed (op : st D SledError unit) ts d :
  wp op (λ _ d', sled_trees d' = ts ∧ disk_step d d')
    (λ _ d', (sled_trees d' = sled_trees d ∨ sled_trees d' = ts) ∧ disk_step d d') d →
  sled_disk d = sled_trees d →
  wp (_ ← wal_db op; wal_db sled_flush)
    (λ _ d', sled_trees d' = ts ∧ sled_disk d' = ts)
    (λ _ d', (sled_trees d' = sled_trees d ∨ sled_trees d' = ts) ∧
             (sled_disk d' = sled_trees d ∨ sled_disk d' = ts)) d.
Proof.
  intros Hop Hd. wp_steps. unfold wal_db. wp_steps. eapply wp_mono; [apply Hop| |].
  - intros [] d1 [Ht1 Hs1]. wp_steps. eapply wp_mono; [apply sled_flush_law|cbn|cbn].
    + intros _ d2 [Ht2 Hd2]. by rewrite Hd2, Ht2.
    + intros _ d2 [Ht2 Hs2]. rewrite Ht2, Ht1. split; [auto|].
      destruct Hs2 as [->|[->| ->]]; rewrite ?Ht2, ?Ht1; auto.
      destruct Hs1 as [->|[->| ->]]; rewrite ?Ht1, ?Hd; auto.
  - intros _ d1 [Ht1 Hs1]. split; [done|].
    destruct Hs1 as [->|[->| ->]]; rewrite ?Hd; auto.
Qed.

(** Reads and the disk agree, and both hold [m]. *)
Definition wal_at (d : D) (m : gmap N ProposeMutationRequest) : Prop :=
  wal_holds (sled_trees d) m ∧ sled_disk d = sled_trees d.
(** After an operation that may have failed half way. *)
Definition wal_torn (d : D) (m m' : gmap N ProposeMutationRequest) : Prop :=
  (wal_holds (sled_trees d) m ∨ wal_holds (sled_trees d) m') ∧
  (wal_holds (sled_disk d) m ∨ wal_holds (sled_disk d) m').

Lemma wal_append_spec n r d m :
  wal_at d m → U64 n → wire_ok r →
  wp (wal_append n r) (λ _ d', wal_at d' (<[n := r]> m)) (λ _ d', wal_torn d' m (<[n := r]> m)) d.
Proof.
  intros [Hm Hd] Hn Hr. pose proof (wal_holds_insert _ _ n r Hm Hn Hr) as Hi.
  eapply wp_mono; [apply wal_flushed; [apply sled_insert_law|done]|cbn beta|cbn beta].
  - intros _ d' [Ht' Hd']. unfold wal_at. by rewrite Ht', Hd'.
  - unfold wal_torn. intros _ d' [[-> | ->] [-> | ->]]; auto.
Qed.

Lemma wal_remove_spec n d m :
  wal_at d m → U64 n →
  wp (wal_remove n) (λ _ d', wal_at d' (delete n m)) (λ _ d', wal_torn d' m (delete n m)) d.
Proof.
  intros [Hm Hd] Hn. pose proof (wal_holds_delete _ _ n Hm Hn) as Hi.
  eapply wp_mono; [apply wal_flushed; [apply sled_remove_law|done]|cbn beta|cbn beta].
  - intros _ d' [Ht' Hd']. unfold wal_at. by rewrite Ht', Hd'.
  - unfold wal_torn. intros _ d' [[-> | ->] [-> | ->]]; auto.
Qed.

Lemma wal_reopened d d' m : wal_at d m → sled_reopened d d' → wal_at d' m.
Proof. intros [Hm Hd] [Ht' Hd']. unfold wal_at. rewrite Ht', Hd', Hd. done. Qed.
End wal_laws.
