(* ===== verification/Client.v ===== *)
(** The client (client-cli/src/client.rs and the recovery of main.rs): the
    session, the intent log and the retry loop over the nodes it knows.  The
    network is an interface: what connecting to an address and calling the
    service behind it answer, as the network's state evolves. *)
From S2P Require Import Prelude Machine Types Wire Consensus Sled Fsm Text Rpc ClientDisk.

Inductive ClientError : Type :=
| LC_Config (msg : string)
| LC_State (e : ClientStateError)
| LC_Wal (e : WalError)
| LC_Transport (msg : string)
| LC_Identity (e : IdentityError)
| LC_Rejected (msg : string)
| LC_Grpc (s : Status)
| LC_RetryExhausted (attempts : nat)
| LC_Panic (msg : string).   (** not a value of the code: the task panics *)

(** The nodes as the client reaches them, by URI.  A deadline that passes is
    a [Status] of the transport. *)
Class IngressNet (N : Type) : Type := {
  endpoint_valid : string → bool;
  net_connect : string → st N unit unit;
  net_propose : string → Request ProposeMutationRequest → st N Status (Response ProposeMutationResponse);
  net_query : string → Request QueryStateRequest → st N Status (Response QueryStateResponse);
}.

(** Durations are milliseconds. *)
Definition INITIAL_BACKOFF : N := 100.
Definition MAX_BACKOFF : N := 5000.
Definition BACKOFF_MULTIPLIER : N := 2.
Definition DEFAULT_MUTATION_TIMEOUT : N := 30000.
Definition DEFAULT_QUERY_TIMEOUT : N := 2000.
Definition DEFAULT_CONNECT_TIMEOUT : N := 1000.

(** [session] is the state behind its lock, [wal] the intent log, [client]
    the URI of the open channel. *)
Record LactoClient (F D N : Type) : Type := mkLactoClient {
  lc_cluster_id : string;
  lc_client_id : string;
  lc_initial_backoff : BinNums.N;
  lc_max_backoff : BinNums.N;
  lc_session : Session F;
  lc_wal : D;
  lc_client : option string;
  lc_net : N;
}.
Arguments mkLactoClient {F D N} _ _ _ _ _ _ _ _.
Arguments lc_cluster_id {F D N} _.
Arguments lc_client_id {F D N} _.
Arguments lc_initial_backoff {F D N} _.
Arguments lc_max_backoff {F D N} _.
Arguments lc_session {F D N} _.
Arguments lc_wal {F D N} _.
Arguments lc_client {F D N} _.
Arguments lc_net {F D N} _.

(** [u64::pow] in the release profile. *)
Definition wrapping_pow (b e : N) : N := (b ^ e) mod u64_modulus.

(** [calculate_backoff] up to the jitter, which is drawn from
    [-20% .. 20%] of the capped delay: an empty range when that is zero, and
    then [random_range] panics.  The time slept is not modelled. *)
Definition calculate_backoff (initial_backoff max_backoff : N) (attempt : nat) : option N :=
  if (attempt =? 0)%nat || (initial_backoff =? 0) then Some 0
  else
    let exponent := N.of_nat (attempt - 1) in
    let exponential := saturating_mul initial_backoff (wrapping_pow BACKOFF_MULTIPLIER exponent) in
    let capped := N.min exponential max_backoff in
    if capped =? 0 then None else Some capped.

Section client.
Context {F D N : Type} `{FileIO F, Sled D, IngressNet N, HeaderText, UuidText}.
Context `{JsonText ClientState, Message ProposeMutationRequest}.
Abbreviation lc := (st (LactoClient F D N) ClientError) (only parsing).

Definition set_session (x : Session F) (c : LactoClient F D N) : LactoClient F D N :=
  mkLactoClient (lc_cluster_id c) (lc_client_id c) (lc_initial_backoff c) (lc_max_backoff c)
    x (lc_wal c) (lc_client c) (lc_net c).
Definition set_wal (d : D) (c : LactoClient F D N) : LactoClient F D N :=
  mkLactoClient (lc_cluster_id c) (lc_client_id c) (lc_initial_backoff c) (lc_max_backoff c)
    (lc_session c) d (lc_client c) (lc_net c).
Definition set_client (o : option string) (c : LactoClient F D N) : LactoClient F D N :=
  mkLactoClient (lc_cluster_id c) (lc_client_id c) (lc_initial_backoff c) (lc_max_backoff c)
    (lc_session c) (lc_wal c) o (lc_net c).
Definition set_net (n : N) (c : LactoClient F D N) : LactoClient F D N :=
  mkLactoClient (lc_cluster_id c) (lc_client_id c) (lc_initial_backoff c) (lc_max_backoff c)
    (lc_session c) (lc_wal c) (lc_client c) n.

Definition on_session {A} (m : st (Session F) ClientStateError A) : lc A :=
  st_map_err LC_State (st_zoom lc_session set_session m).
Definition on_wal {A} (m : st D WalError A) : lc A :=
  st_map_err LC_Wal (st_zoom lc_wal set_wal m).
Definition known_nodes (c : LactoClient F D N) : list string :=
  cs_known_nodes (ses_state (lc_session c)).

(** [with_config]; [wal] is the database [IntentWal::open] returns. *)
Definition with_config (state : Session F) (wal : D) (net : N)
    (mutation_timeout query_timeout connect_timeout initial_backoff max_backoff : BinNums.N) :
    result ClientError (LactoClient F D N) :=
  if (mutation_timeout =? 0) || (query_timeout =? 0) || (connect_timeout =? 0)
  then Err (LC_Config "Client timeouts must be non-zero")
  else Ok (mkLactoClient (cs_cluster_id (ses_state state)) (cs_client_id (ses_state state))
             initial_backoff max_backoff state wal None net).
Definition LactoClient_new (state : Session F) (wal : D) (net : N) : result ClientError (LactoClient F D N) :=
  with_config state wal net DEFAULT_MUTATION_TIMEOUT DEFAULT_QUERY_TIMEOUT DEFAULT_CONNECT_TIMEOUT
    INITIAL_BACKOFF MAX_BACKOFF.

(** ** Connections and redirection *)

Definition node_uri (addr : string) : string :=
  if String.prefix "http://" addr || String.prefix "https://" addr then addr
  else "http://" +:+ addr.

Definition get_or_connect : lc string :=
  c ← st_get;
  match lc_client c with
  | Some uri => mret uri
  | None =>
      addr ← st_lift (ok_or (LC_Transport "No known nodes available to connect") (head (known_nodes c)));
      let uri := node_uri addr in
      if negb (endpoint_valid uri) then st_fail (LC_Transport "Invalid node address format")
      else
        _ ← st_map_err (λ _, LC_Transport "Failed to connect") (st_zoom lc_net set_net (net_connect uri));
        _ ← st_modify (set_client (Some uri));
        mret uri
  end.

Definition handle_redirection (leader_hint : string) : lc unit :=
  _ ← on_session (record_hint leader_hint);
  st_modify (set_client None).
Definition handle_transport_error : lc unit :=
  _ ← on_session rotate_nodes;
  st_modify (set_client None).

Definition record_current_node_success : lc unit :=
  c ← st_get;
  match head (known_nodes c) with
  | Some addr => on_session (record_success addr)
  | None => mret tt
  end.

Definition rotate_and_back_off (retry_count : nat) : lc unit :=
  _ ← handle_transport_error;
  c ← st_get;
  match calculate_backoff (lc_initial_backoff c) (lc_max_backoff c) retry_count with
  | Some _ => mret tt
  | None => st_fail (LC_Panic "cannot sample empty range")
  end.
Definition reconcile_routing_failure (leader_hint : option string) (retry_count : nat) : lc unit :=
  match leader_hint with
  | Some hint =>
      if decide (hint = "") then rotate_and_back_off retry_count else handle_redirection hint
  | None => rotate_and_back_off retry_count
  end.

(** ** The retry loop *)

Section retry.
Context {Req Res : Type} (rpc_fn : string → Request Req → st N Status (Response Res))
  (get_rejection : Res → bool * string).

(** One turn: [Some] is an answer, [None] another turn.  The interceptor
    reports a cluster identifier that no header can carry as a [Status], so
    that [?] makes it the [Grpc] error. *)
Definition attempt (payload : Req) (retry_count : nat) : lc (option (Res * option TraceId)) :=
  uri ← get_or_connect;
  c ← st_get;
  request ← st_lift (map_err LC_Grpc (inject_cluster_id_into_request (lc_cluster_id c) (Request_new payload)));
  response ← st_zoom lc_net set_net (st_try (rpc_fn uri request));
  match response with
  | Ok r =>
      let trace_id := extract_trace_id_from_response r in
      let '(rejected, hint) := get_rejection (rs_payload r) in
      if rejected : bool then _ ← reconcile_routing_failure (Some hint) retry_count; mret None
      else _ ← record_current_node_success; mret (Some (rs_payload r, trace_id))
  | Err status =>
      match status_code status with
      | C_InvalidArgument | C_FailedPrecondition => st_fail (LC_Rejected (status_message status))
      | _ => _ ← reconcile_routing_failure None retry_count; mret None
      end
  end.

(** The loop, with the number of turns that are left. *)
Fixpoint retry_loop (payload : Req) (retry_count left : nat) : lc (Res * option TraceId) :=
  match left with
  | O => st_fail (LC_RetryExhausted retry_count)
  | S left' =>
      o ← attempt payload (S retry_count);
      match o with
      | Some res => mret res
      | None => retry_loop payload (S retry_count) left'
      end
  end.
Definition execute_with_retry (payload : Req) : lc (Res * option TraceId) :=
  c ← st_get;
  retry_loop payload 0 (length (known_nodes c) + MAX_KNOWN_NODES).
End retry.

Definition mutation_rejection (res : ProposeMutationResponse) : bool * string :=
  ((pmr_status res =? MutationStatus_as_i32 MS_Rejected)%Z, pmr_leader_hint res).
Definition query_rejection (res : QueryStateResponse) : bool * string :=
  ((qsr_status res =? QueryStatus_as_i32 QS_Rejected)%Z, qsr_leader_hint res).
Definition dispatch_mutation : ProposeMutationRequest → lc (ProposeMutationResponse * option TraceId) :=
  execute_with_retry net_propose mutation_rejection.
Definition dispatch_query : QueryStateRequest → lc (QueryStateResponse * option TraceId) :=
  execute_with_retry net_query query_rejection.

(** ** The API *)

(** COMMITTED and VETOED. *)
Definition is_terminal (status : Z) : bool :=
  match MutationStatus_try_from status with
  | Some MS_Committed | Some MS_Vetoed => true
  | _ => false
  end.

Definition execute_mutation (sequence_id : SequenceId) (payload : ProposeMutationRequest) :
    lc (ProposeMutationResponse * option TraceId) :=
  '(response, trace_id) ← dispatch_mutation payload;
  _ ← (if is_terminal (pmr_status response) then on_wal (wal_remove sequence_id) else mret tt);
  mret (response, trace_id).

Definition propose_mutation (intent : MutationIntent) : lc (ProposeMutationResponse * option TraceId) :=
  sequence_id ← on_session next_sequence_id;
  c ← st_get;
  let request_payload := ProposeMutationRequest_new (lc_client_id c) sequence_id intent in
  _ ← on_wal (wal_append sequence_id request_payload);
  execute_mutation sequence_id request_payload.

Definition repropose_mutation : SequenceId → ProposeMutationRequest → lc (ProposeMutationResponse * option TraceId) :=
  execute_mutation.

Definition query_state (query_filter : option string) (min_state_version : option LogIndex) :
    lc (QueryStateResponse * option TraceId) :=
  dispatch_query (QueryStateRequest_new query_filter min_state_version).

(** ** Startup recovery (main.rs) *)

Fixpoint repropose_all (pending : list intent_entry) : lc unit :=
  match pending with
  | [] => mret tt
  | (seq, req) :: pending' => _ ← repropose_mutation seq req; repropose_all pending'
  end.
Definition recover_pending_intents : lc unit :=
  pending ← on_wal (st_reads wal_recover);
  repropose_all pending.
End client.
