(* ===== verification/Repl.v ===== *)
(** The interactive shell of the client (client-cli/src/repl.rs): the command
    language, the texts of the answers and the loop over the lines of the
    terminal.  The shell-like splitting of a line is the shlex library's and
    the terminal is the operating system's: both are interfaces. *)
From S2P Require Import Prelude Machine Types Wire Sled Fsm Text Rpc ClientDisk Client.

(** [shlex::split]: [None] when a quote is left open. *)
Class Shlex : Type := shell_split : string → option (list string).

(** [read_line] returns "" at the end of the input. *)
Class Terminal (T : Type) : Type := {
  term_read_line : st T IoError string;
  term_write_all : string → st T IoError unit;
  term_flush : st T IoError unit;
}.

Inductive ReplError : Type :=
| RE_Syntax (msg : string)
| RE_Usage (msg : string)
| RE_Client (e : ClientError)
| RE_Io (e : IoError)
| RE_Execution (msg : string).

(** The text of the two errors that [Command_parse] returns. *)
Definition parse_error_text (e : ReplError) : string :=
  match e with
  | RE_Syntax m => "Syntax Error: " +:+ m
  | RE_Usage m => "Usage: " +:+ m
  | RE_Client _ => "Network or Protocol Error"
  | RE_Io _ => "I/O failure"
  | RE_Execution m => "Execution Error: " +:+ m
  end.

(** ** Commands *)

Record MutationArgs : Type := mkMutationArgs {
  ma_item_key : string; ma_quantity : string; ma_unit : option string; ma_category : option string }.

Definition count_text (args : list string) : string := to_decimal (N.of_nat (length args)).

Definition MutationArgs_parse (args : list string) (cmd_name : string) : result ReplError MutationArgs :=
  match args with
  | item_key :: quantity :: rest =>
      if (4 <? length args)%nat
      then Err (RE_Syntax ("Too many arguments for '" +:+ cmd_name +:+ "'. Expected at most 4, found "
                           +:+ count_text args +:+ "."))
      else Ok (mkMutationArgs item_key quantity (rest !! 0%nat) (rest !! 1%nat))
  | _ => Err (RE_Usage (cmd_name +:+ " <item_key> <quantity> [unit] [category]"))
  end.

Definition into_intent (a : MutationArgs) (operation : OperationType) : MutationIntent :=
  MutationIntent_new (ma_item_key a) (Some (ma_quantity a)) (ma_unit a) (ma_category a) operation.

Definition MutationArgs_to_string (a : MutationArgs) : string :=
  ma_item_key a +:+ " " +:+ ma_quantity a
  +:+ (match ma_unit a with Some u => " " +:+ u | None => "" end)
  +:+ (match ma_category a with Some c => " (category: " +:+ c +:+ ")" | None => "" end).

Inductive Command : Type :=
| Cmd_Add (args : MutationArgs)
| Cmd_Subtract (args : MutationArgs)
| Cmd_Set (args : MutationArgs)
| Cmd_Delete (item_key : string)
| Cmd_Query (filter : option string) (min_state_version : option N)
| Cmd_Exit.
#[global] Instance MutationArgs_eq_dec : EqDecision MutationArgs.
Proof. solve_decision. Defined.
#[global] Instance Command_eq_dec : EqDecision Command.
Proof. solve_decision. Defined.

Definition Command_to_string (c : Command) : string :=
  match c with
  | Cmd_Add a => "ADD " +:+ MutationArgs_to_string a
  | Cmd_Subtract a => "SUBTRACT " +:+ MutationArgs_to_string a
  | Cmd_Set a => "SET " +:+ MutationArgs_to_string a
  | Cmd_Delete item_key => "DELETE " +:+ item_key
  | Cmd_Query f v =>
      "QUERY" +:+ (match f with Some t => " (filter: '" +:+ t +:+ "')" | None => "" end)
      +:+ (match v with Some n => " (min_version: " +:+ to_decimal n +:+ ")" | None => "" end)
  | Cmd_Exit => "EXIT"
  end.

Definition parse_int_text (e : ParseIntError) : string :=
  match e with
  | PI_Empty => "cannot parse integer from empty string"
  | PI_InvalidDigit => "invalid digit found in string"
  | PI_PosOverflow => "number too large to fit in target type"
  end.

(** The arms of [Command::parse] for [query] and [delete]. *)
Definition parse_delete (args : list string) : result ReplError Command :=
  match args with
  | [] => Err (RE_Usage "delete <item_key>")
  | [item_key] => Ok (Cmd_Delete item_key)
  | _ => Err (RE_Syntax ("Too many arguments for 'delete'. Expected 1, found " +:+ count_text args +:+ "."))
  end.
Definition parse_query (args : list string) : result ReplError Command :=
  if (2 <? length args)%nat
  then Err (RE_Syntax ("Too many arguments for 'query'. Expected at most 2, found " +:+ count_text args +:+ "."))
  else
    min_state_version ←
      (match args !! 1%nat with
       | Some v =>
           n ← map_err (λ e, RE_Syntax ("Invalid min_state_version '" +:+ v +:+ "': " +:+ parse_int_text e))
                 (parse_u64 v);
           Ok (Some n)
       | None => Ok None
       end);
    Ok (Cmd_Query (head args) min_state_version).

Section parse.
Context `{UnicodeText, Shlex}.

Definition Command_parse (input : string) : result ReplError Command :=
  tokens ← ok_or (RE_Syntax "Incomplete or malformed quoting in command") (shell_split input);
  match tokens with
  | [] => Err (RE_Syntax "Empty command")
  | name :: args =>
      let cmd_name := str_to_lowercase name in
      if bool_decide (cmd_name = "add") then Cmd_Add <$> MutationArgs_parse args "add"
      else if bool_decide (cmd_name ∈ ["subtract"; "sub"]) then Cmd_Subtract <$> MutationArgs_parse args "subtract"
      else if bool_decide (cmd_name = "set") then Cmd_Set <$> MutationArgs_parse args "set"
      else if bool_decide (cmd_name ∈ ["delete"; "del"; "rm"]) then parse_delete args
      else if bool_decide (cmd_name ∈ ["query"; "ls"]) then parse_query args
      else if bool_decide (cmd_name ∈ ["exit"; "quit"; "q"]) then
        match args with [] => Ok Cmd_Exit | _ => Err (RE_Syntax "'exit' does not take arguments.") end
      else Err (RE_Syntax ("Unknown command: '" +:+ cmd_name +:+ "'. Type 'exit' to quit."))
  end.

(** ** Answers *)

Definition trace_suffix (tid : option TraceId) : string :=
  match tid with Some t => " [Trace: " +:+ t +:+ "]" | None => "" end.

Definition format_mutation_response (res : ProposeMutationResponse) (tid : option TraceId) : string :=
  match MutationStatus_try_from (pmr_status res) with
  | Some MS_Committed =>
      "SUCCESS: Committed at version " +:+ to_decimal (pmr_state_version res) +:+ trace_suffix tid
  | Some MS_Vetoed => "VETOED: " +:+ pmr_error_message res +:+ trace_suffix tid
  | Some MS_Rejected => "REJECTED: " +:+ pmr_error_message res +:+ trace_suffix tid
  | _ => "UNKNOWN STATUS: " +:+ pretty (pmr_status res) +:+ trace_suffix tid
  end.

Definition item_text (item : GroceryItem) : string :=
  "  - " +:+ gi_item_key item +:+ " (" +:+ gi_quantity item +:+ " " +:+ gi_unit item +:+ ")" +:+ newline.
Definition format_query_response (res : QueryStateResponse) (tid : option TraceId) : string :=
  match QueryStatus_try_from (qsr_status res) with
  | Some QS_Success =>
      match qsr_items res with
      | [] => "Inventory is empty." +:+ trace_suffix tid
      | items =>
          let output := "Inventory (version: " +:+ to_decimal (qsr_current_state_version res) +:+ "):" +:+ newline in
          let output := foldl (λ o item, o +:+ item_text item) output items in
          str_trim_end (output +:+ trace_suffix tid)
      end
  | Some QS_Rejected => "REJECTED: " +:+ qsr_error_message res +:+ trace_suffix tid
  | _ => "ERROR: " +:+ qsr_error_message res +:+ trace_suffix tid
  end.

(** ** The loop *)

Section loop.
Context {F D N T : Type} `{FileIO F, Sled D, IngressNet N, HeaderText, UuidText, Terminal T}.
Context `{JsonText ClientState, Message ProposeMutationRequest}.
Abbreviation client := (LactoClient F D N) (only parsing).

Definition propose_and_format (intent : MutationIntent) : st client ReplError string :=
  '(res, tid) ← st_map_err RE_Client (propose_mutation intent);
  mret (format_mutation_response res tid).
Definition execute_command (cmd : Command) : st client ReplError string :=
  match cmd with
  | Cmd_Add args => propose_and_format (into_intent args OT_Add)
  | Cmd_Subtract args => propose_and_format (into_intent args OT_Subtract)
  | Cmd_Set args => propose_and_format (into_intent args OT_Set)
  | Cmd_Delete item_key => propose_and_format (MutationIntent_new item_key None None None OT_Delete)
  | Cmd_Query filter min_state_version =>
      '(res, tid) ← st_map_err RE_Client (query_state filter min_state_version);
      mret (format_query_response res tid)
  | Cmd_Exit => st_fail (RE_Client (LC_Panic "internal error: entered unreachable code"))
  end.

Definition on_term {A} (m : st T IoError A) : st (client * T) ReplError A :=
  st_map_err RE_Io (st_zoom snd (λ t w, (w.1, t)) m).
Definition on_client {A} (m : st client ReplError A) : st (client * T) ReplError A :=
  st_zoom fst (λ c w, (c, w.2)) m.

(** One turn of the loop; [false] leaves it. *)
Definition repl_turn : st (client * T) ReplError bool :=
  _ ← on_term (term_write_all "lacto> ");
  _ ← on_term term_flush;
  line ← on_term term_read_line;
  if decide (line = "") then mret false
  else
    let input := str_trim line in
    if decide (input = "") then mret true
    else
      match Command_parse input with
      | Ok Cmd_Exit => mret false
      | Ok cmd =>
          r ← on_client (st_try (execute_command cmd));
          match r with
          | Ok output => _ ← on_term (term_write_all (output +:+ newline)); mret true
          | Err (RE_Client (LC_Panic msg)) => st_fail (RE_Client (LC_Panic msg))
          | Err _ =>
              _ ← on_term (term_write_all ("Mutation failed. Contact cluster operator." +:+ newline));
              mret true
          end
      | Err e => _ ← on_term (term_write_all ("Error: " +:+ parse_error_text e +:+ newline)); mret true
      end.
(** [run_repl]; [None] when the turns that are allowed run out. *)
Fixpoint run_repl (turns : nat) : st (client * T) ReplError (option unit) :=
  match turns with
  | O => mret None
  | S turns' =>
      go ← repl_turn;
      if go : bool then run_repl turns' else mret (Some tt)
  end.
End loop.
End parse.
