(* ===== verification/Gateway.v ===== *)
(** The gateway (gateway/src/ingress, gateway/src/veto.rs): the sequence
    firewall, the scrubber, the stabilizer of what the AI oracle answers, its
    retry loop, the proposer and the dispatcher that runs them under the
    mutation lock.  The oracle is a remote service and the consensus handle
    (raft-engine/src/consensus_api.rs) a trait: both are interfaces here.  A
    status message keeps the literal text of its format string. *)
From S2P Require Import Prelude Machine Types Wire Consensus Sled Fsm Text Units.

(** ** types.rs *)

Inductive Operation : Type := Op_Add | Op_Subtract | Op_Set | Op_Delete.
#[global] Instance Operation_eq_dec : EqDecision Operation.
Proof. solve_decision. Defined.
Inductive ProposalStatus : Type := PS_Committed | PS_Vetoed.

Record ScrubbedIntent : Type := mkIntent {
  si_item_key : string;
  si_operation : Operation;
  si_quantity : option string;
  si_unit : option string;
  si_category : option string;
}.

Record StabilizedMutation : Type := mkStabilized {
  sb_resolved_item_key : string;
  sb_suggested_display_name : string;
  sb_updated_base_quantity : string;
  sb_base_unit : string;
  sb_display_unit : string;
  sb_category : GroceryCategory;
  sb_moral_justification : string;
}.

Record MutationProposal : Type := mkProposal {
  mp_client_id : string;
  mp_sequence_id : SequenceId;
  mp_intent : ScrubbedIntent;
  mp_stabilized : StabilizedMutation;
  mp_raw_user_input : string;
  mp_status : ProposalStatus;
}.

(** The durations are the business of the handle and the relay. *)
Record IngressConfig : Type := mkIngressConfig { ic_veto_max_retries : nat }.

(** [ConsensusAuthority] (consensus_api.rs). *)
Record ConsensusAuthority : Type := mkAuthority {
  ca_is_leader : bool;
  ca_is_poisoned : bool;
  ca_last_committed : LogIndex;
  ca_leader_hint : string;
  ca_rejection_reason : string;
}.

(** The trait [ConsensusHandle]; [None] is a wait that ran into the caller's
    timeout. *)
Class ConsensusHandle (C : Type) : Type := {
  h_authority : C → ConsensusAuthority;
  h_propose : bytes → st C ConsensusError LogIndex;
  h_await_commit : LogIndex → C → option (result ConsensusError unit) * C;
  h_await_apply : LogIndex → C → option (result ConsensusError unit) * C;
  h_verify_leadership : st C ConsensusError unit;
}.

(** ** veto.rs *)

Inductive VetoError : Type := VE_Timeout | VE_RpcFailure | VE_CausalIntegrityViolation.

Record VetoOutcome : Type := mkVeto {
  ve_is_approved : bool;
  ve_category_assignment : string;
  ve_moral_justification : string;
  ve_resolved_item_key : string;
  ve_suggested_display_name : string;
  ve_resolved_unit : string;
  ve_conversion_multiplier_to_base : string;
}.

(** The trait [VetoRelay]: a conversation with the oracle. *)
Class VetoRelay (V : Type) : Type :=
  veto_evaluate : string → MutationIntent → list GroceryItem → V → result VetoError VetoOutcome * V.

Definition status_err {A} (code : Code) (msg : string) : result Status A := Err (mkStatus code msg).
Abbreviation checked := (result Status) (only parsing).

(** ** sequencer.rs *)

Definition rejection (status : MutationStatus) (version : N) (msg : string) : ProposeMutationResponse :=
  mkProposeMutationResponse (MutationStatus_as_i32 status) version "" msg.

(** [last_sequence_id + SEQUENCE_STEP] wraps in the release profile. *)
Definition enforce_sequence_firewall (last_session : result FsmError (option SessionRecord))
    (sequence_id : SequenceId) : checked (option ProposeMutationResponse) :=
  if sequence_id =? 0 then
    Ok (Some (rejection MS_Rejected 0 "Secure Clinical: Protocol Violation (Sequence ID 0)"))
  else
    o ← map_err (λ _, mkStatus C_InvalidArgument "Request validation failed") last_session;
    match o with
    | Some record =>
        if sequence_id =? sr_last_sequence_id record then
          Ok (Some (mkProposeMutationResponse (sr_status record) (sr_log_index record) ""
                      (if (sr_status record =? MutationStatus_as_i32 MS_Vetoed)%Z
                       then sr_moral_justification record else "")))
        else if sequence_id <? sr_last_sequence_id record then
          Ok (Some (rejection MS_Rejected (sr_log_index record) "Secure Clinical: Stale Sequence"))
        else if wrapping_add (sr_last_sequence_id record) 1 <? sequence_id then
          Ok (Some (rejection MS_Rejected 0 "Secure Clinical: Sequence Continuity Violation"))
        else Ok None
    | None =>
        if negb (sequence_id =? 1) then
          Ok (Some (rejection MS_Rejected 0 "Secure Clinical: Session Initialization Violation"))
        else Ok None
    end.

Section gateway.
Context {Q : Type} `{Decimal Q, UnicodeText}.

(** ** scrubber.rs *)

Definition nonempty (s : string) : option string := if decide (s = "") then None else Some s.

Definition operation_of (z : Z) : option Operation :=
  match OperationType_try_from z with
  | Some OT_Add => Some Op_Add
  | Some OT_Subtract => Some Op_Subtract
  | Some OT_Set => Some Op_Set
  | Some OT_Delete => Some Op_Delete
  | _ => None
  end.

Definition check_quantity (quantity : option string) : checked unit :=
  match quantity with
  | None => Ok tt
  | Some q =>
      val ← ok_or (mkStatus C_InvalidArgument "Invalid quantity format") (dec_from_str (Q:=Q) q);
      if dec_is_sign_negative val
      then status_err C_InvalidArgument "quantity cannot be negative. Use SUBTRACT or DELETE for removals."
      else Ok tt
  end.

Definition normalize_intent (intent : MutationIntent) : checked ScrubbedIntent :=
  let item_key := str_to_lowercase (str_trim (mi_item_key intent)) in
  let quantity := (str_trim <$> mi_quantity intent) ≫= nonempty in
  _ ← check_quantity quantity;
  let unit := str_to_lowercase <$> ((str_trim <$> mi_unit intent) ≫= nonempty) in
  let category := (str_trim <$> mi_category intent) ≫= nonempty in
  _ ← (match category with
       | Some cat =>
           _ ← ok_or (mkStatus C_InvalidArgument "Invalid category hint. Must be one of the 12 clinical categories.")
                 (category_from_str cat);
           Ok tt
       | None => Ok tt
       end);
  if decide (item_key = "") then status_err C_InvalidArgument "item_key cannot be empty"
  else
    operation ← ok_or (mkStatus C_InvalidArgument "Unknown operation type") (operation_of (mi_operation intent));
    if bool_decide (operation = Op_Delete) && bool_decide (is_Some quantity)
    then status_err C_InvalidArgument "DELETE operations must not contain a quantity string"
    else if negb (bool_decide (operation = Op_Delete)) && bool_decide (quantity = None)
    then status_err C_InvalidArgument "quantity is required for this operation"
    else Ok (mkIntent item_key operation quantity unit category).

(** [format_raw_input_from_proto]. *)
Fixpoint join_spaces (l : list string) : string :=
  match l with
  | [] => ""
  | [s] => s
  | s :: l' => s +:+ " " +:+ join_spaces l'
  end.
Definition format_raw_input (intent : MutationIntent) : string :=
  let op := match OperationType_try_from (mi_operation intent) with
            | Some OT_Add => "Add" | Some OT_Subtract => "Sub" | Some OT_Set => "Set"
            | Some OT_Delete => "Delete" | _ => "Unknown"
            end%string in
  join_spaces (str_split_whitespace
    (op +:+ " " +:+ default "" (mi_quantity intent) +:+ " " +:+ default "" (mi_unit intent)
        +:+ " " +:+ mi_item_key intent)).

(** ** stabilizer.rs *)

Definition verify_category_registry (category_str : string) : checked GroceryCategory :=
  ok_or (mkStatus C_Internal "Request rejected") (category_from_str category_str).

Definition verify_unit_stabilization (quantity unit_symbol ai_multiplier : string) :
    checked (PhysicalQuantity Q) :=
  entry ← map_err (λ _, mkStatus C_InvalidArgument "Request rejected") (resolve_symbol unit_symbol);
  ai_val ← ok_or (mkStatus C_Internal "Request rejected") (dec_from_str ai_multiplier);
  base_quantity ← map_err (λ _, mkStatus C_InvalidArgument "Request rejected")
    (if ur_is_contextual entry
     then parse_and_convert_with_multiplier quantity unit_symbol ai_val
     else parse_and_convert quantity unit_symbol);
  if dec_is_sign_negative (pq_value base_quantity) || dec_is_zero (pq_value base_quantity)
  then status_err C_InvalidArgument
         "Physical Invariant Violation: Stabilized quantity must be strictly positive."
  else Ok base_quantity.

Definition accumulates (op : Operation) : bool :=
  match op with Op_Add | Op_Subtract => true | Op_Set | Op_Delete => false end.

(** [current_inventory.iter().find(|i| i.item_key == resolved_key)]. *)
Fixpoint find_item (key : string) (l : list GroceryItem) : option GroceryItem :=
  match l with
  | [] => None
  | i :: l' => if decide (gi_item_key i = key) then Some i else find_item key l'
  end.

Definition enforce_physical_invariants (intent : ScrubbedIntent) (resolved_key : string)
    (new_quantity : PhysicalQuantity Q) (inventory : list GroceryItem) : checked unit :=
  if accumulates (si_operation intent) then
    match find_item resolved_key inventory with
    | Some existing =>
        existing_unit ← map_err (λ _, mkStatus C_Internal "Request rejected")
                          (resolve_symbol (Q:=Q) (gi_unit existing));
        if decide (ur_dimension existing_unit = pq_dimension new_quantity) then Ok tt
        else status_err C_InvalidArgument "Request rejected"
    | None => Ok tt
    end
  else Ok tt.

Definition apply_arithmetic_accumulation (intent : ScrubbedIntent) (resolved_key : string)
    (base_quantity : PhysicalQuantity Q) (inventory : list GroceryItem) :
    checked (PhysicalQuantity Q) :=
  if accumulates (si_operation intent) then
    match find_item resolved_key inventory with
    | None => Ok base_quantity
    | Some existing =>
        existing_qty ← map_err (λ _, mkStatus C_Internal "Failed to parse existing quantity")
                         (parse_and_convert (gi_quantity existing) (gi_unit existing));
        r ← map_err (λ _, mkStatus C_InvalidArgument "Physical Invariant Violation: Arithmetic failed")
              (if decide (si_operation intent = Op_Add)
               then pq_add existing_qty base_quantity else pq_sub existing_qty base_quantity);
        if dec_is_sign_negative (pq_value r)
        then status_err C_InvalidArgument
               "Physical Invariant Violation: Resulting quantity would be negative."
        else Ok r
    end
  else Ok base_quantity.

Definition validate_and_stabilize (intent : ScrubbedIntent) (veto : VetoOutcome)
    (inventory : list GroceryItem) : checked StabilizedMutation :=
  category ← verify_category_registry (ve_category_assignment veto);
  if decide (slugify (ve_resolved_item_key veto) = ve_resolved_item_key veto) then
    if decide (si_operation intent = Op_Delete) then
      Ok (mkStabilized (ve_resolved_item_key veto) (ve_suggested_display_name veto) "0" "units"
            (ve_resolved_unit veto) category (ve_moral_justification veto))
    else
      q_str ← ok_or (mkStatus C_InvalidArgument "quantity is missing") (si_quantity intent);
      base_quantity ← verify_unit_stabilization q_str (ve_resolved_unit veto)
                        (ve_conversion_multiplier_to_base veto);
      _ ← enforce_physical_invariants intent (ve_resolved_item_key veto) base_quantity inventory;
      accumulated ← apply_arithmetic_accumulation intent (ve_resolved_item_key veto)
                      base_quantity inventory;
      Ok (mkStabilized (ve_resolved_item_key veto) (ve_suggested_display_name veto)
            (dec_to_string (pq_value accumulated)) (base_unit (pq_dimension accumulated))
            (ve_resolved_unit veto) category (ve_moral_justification veto))
  else status_err C_Internal "Request rejected".

(** ** ai_oracle.rs *)

Definition intent_to_proto (intent : ScrubbedIntent) : MutationIntent :=
  MutationIntent_new (si_item_key intent) (si_quantity intent) (si_unit intent) (si_category intent)
    (match si_operation intent with
     | Op_Add => OT_Add | Op_Subtract => OT_Subtract | Op_Set => OT_Set | Op_Delete => OT_Delete
     end).

Definition veto_status (e : VetoError) : Status :=
  match e with
  | VE_CausalIntegrityViolation => mkStatus C_FailedPrecondition "Causal Integrity Violation"
  | VE_Timeout => mkStatus C_DeadlineExceeded "AI evaluation timed out. Please retry shortly."
  | VE_RpcFailure => mkStatus C_Internal "Internal policy engine failure"
  end.

(** What a refused or failed resolution records. *)
Definition vetoed_record (veto : VetoOutcome) (justification : string) : StabilizedMutation :=
  mkStabilized (ve_resolved_item_key veto) (ve_suggested_display_name veto) "0" "units" "units"
    AnomalousInputs justification.
Definition UNIT_MISMATCH : string :=
  "A physical unit mismatch was detected between this request and the existing inventory record for this item. Please ensure the units are compatible with previous entries.".

Section oracle.
Context {V : Type} `{VetoRelay V}.

Definition evaluate_policy (client_id : string) (intent : MutationIntent)
    (inventory : list GroceryItem) : st V Status VetoOutcome := λ v,
  let '(r, v') := veto_evaluate client_id intent inventory v in (map_err veto_status r, v').

(** The loop over the attempts; [retries] are left after this one.  Each
    attempt returns or leaves a retry, so the loop always has an outcome. *)
Fixpoint resolve_loop (retries : nat) (client_id : string) (intent : ScrubbedIntent)
    (inventory : list GroceryItem) : st V Status (MutationStatus * StabilizedMutation) :=
  r ← st_try (evaluate_policy client_id (intent_to_proto intent) inventory);
  match r with
  | Err e =>
      match retries with
      | O => st_fail e
      | S n => resolve_loop n client_id intent inventory
      end
  | Ok veto =>
      if negb (ve_is_approved veto)
      then mret (MS_Vetoed, vetoed_record veto (ve_moral_justification veto))
      else
        match validate_and_stabilize intent veto inventory with
        | Ok s => mret (MS_Committed, s)
        | Err _ =>
            match retries with
            | O => mret (MS_Vetoed, vetoed_record veto UNIT_MISMATCH)
            | S n => resolve_loop n client_id intent inventory
            end
        end
  end.

Definition resolve_semantic_mutation (config : IngressConfig) : string → ScrubbedIntent →
    list GroceryItem → st V Status (MutationStatus * StabilizedMutation) :=
  resolve_loop (ic_veto_max_retries config).
End oracle.

(** ** proposer.rs *)

Definition map_consensus_error (err : ConsensusError) : Status :=
  match err with
  | CE_NotLeader => mkStatus C_Unavailable "Not the leader."
  | CE_LeaderUnknown => mkStatus C_Unavailable "Leader unknown. Election in progress."
  | CE_CommitTimeout _ => mkStatus C_DeadlineExceeded "Request timed out"
  | CE_Poisoned => mkStatus C_Aborted "Node is in a fatal state and cannot process requests."
  | CE_Internal _ => mkStatus C_Internal "Internal Consensus Failure"
  | CE_Terminated => mkStatus C_Unavailable "Consensus engine is shutting down"
  | CE_Timeout => mkStatus C_DeadlineExceeded "Quorum verification timed out"
  end.

Definition proposal_status (s : ProposalStatus) : MutationStatus :=
  match s with PS_Committed => MS_Committed | PS_Vetoed => MS_Vetoed end.

(** The mutation a proposal becomes. *)
Definition proposed_mutation (p : MutationProposal) (now : Timestamp) : CommittedMutation :=
  let s := mp_stabilized p in
  CommittedMutation_new (mp_client_id p) (mp_sequence_id p) (sb_resolved_item_key s)
    (sb_suggested_display_name s) (sb_updated_base_quantity s) (sb_base_unit s) (sb_display_unit s)
    (category_to_string (sb_category s)) (mp_raw_user_input p) (sb_moral_justification s)
    (bool_decide (si_operation (mp_intent p) = Op_Delete)) (proposal_status (mp_status p)) now.

Definition build_mutation_response (index : LogIndex) (status : ProposalStatus)
    (moral_justification : string) : ProposeMutationResponse :=
  mkProposeMutationResponse (MutationStatus_as_i32 (proposal_status status)) index ""
    (match status with PS_Vetoed => moral_justification | PS_Committed => "" end).

Section dispatch.
Context {C D V : Type} `{ConsensusHandle C, Sled D, UuidText, VetoRelay V}.
Context `{Message GroceryItem, Message SessionRecord, Message CommittedMutation, Message Timestamp, Message SnapshotData}.

(** [timeout(consensus_timeout, await_commit(index))]. *)
Definition await_quorum (index : LogIndex) : st C Status LogIndex := λ c,
  match h_await_commit index c with
  | (Some (Ok _), c') => (Ok index, c')
  | (Some (Err e), c') => (Err (map_consensus_error e), c')
  | (None, c') => (status_err C_DeadlineExceeded "Quorum commitment timed out", c')
  end.
Definition commit_to_consensus (proposal : MutationProposal) (now : Timestamp) : st C Status LogIndex :=
  index ← st_map_err map_consensus_error
            (h_propose (encode_to_vec (proposed_mutation proposal now)));
  await_quorum index.

(** ** dispatcher.rs *)

(** What the dispatcher shares with the rest of the node. *)
Record World : Type := mkWorld {
  w_handle : C;
  w_store : LactoStore D;
  w_veto : V;
}.
Definition on_handle {E A} : st C E A → st World E A :=
  st_zoom w_handle (λ c w, mkWorld c (w_store w) (w_veto w)).
Definition on_store_of {E A} : st (LactoStore D) E A → st World E A :=
  st_zoom w_store (λ s w, mkWorld (w_handle w) s (w_veto w)).
Definition on_veto {E A} : st V E A → st World E A :=
  st_zoom w_veto (λ v w, mkWorld (w_handle w) (w_store w) v).
Abbreviation gw := (st World Status) (only parsing).

Definition mutation_redirection_response (a : ConsensusAuthority) : ProposeMutationResponse :=
  mkProposeMutationResponse (MutationStatus_as_i32 MS_Rejected) 0 (ca_leader_hint a)
    (ca_rejection_reason a).

Definition query_redirection_response (a : ConsensusAuthority) : QueryStateResponse :=
  mkQueryStateResponse [] 0 (QueryStatus_as_i32 QS_Rejected) (ca_leader_hint a) (ca_rejection_reason a).

Inductive AuthorityOutcome (R : Type) : Type :=
| Authorized (a : ConsensusAuthority)
| Redirect (response : R)
| Fatal (e : Status).
#[local] Arguments Authorized {R} _.
#[local] Arguments Redirect {R} _.
#[local] Arguments Fatal {R} _.

Definition poisoned_node_error : Status :=
  mkStatus C_Internal "Secure Clinical: Node is poisoned and cannot process requests".
Definition authorize_mutation (w : World) : AuthorityOutcome ProposeMutationResponse :=
  let a := h_authority (w_handle w) in
  if ca_is_poisoned a then Fatal poisoned_node_error
  else if negb (ca_is_leader a) then Redirect (mutation_redirection_response a)
  else Authorized a.
Definition authorize_query (w : World) : AuthorityOutcome QueryStateResponse :=
  let a := h_authority (w_handle w) in
  if ca_is_poisoned a then Fatal poisoned_node_error
  else if negb (ca_is_leader a) then Redirect (query_redirection_response a)
  else Authorized a.

(** Before the mutation lock: authority and firewall.  [inl] is an answer. *)
Definition admit_mutation (client_id : string) (sequence_id : SequenceId) :
    gw (ProposeMutationResponse + unit) :=
  outcome ← st_gets authorize_mutation;
  match outcome with
  | Fatal e => st_fail e
  | Redirect response => mret (inl response)
  | Authorized _ =>
      last_session ← on_store_of (st_try (Lacto.check_session client_id 0));
      o ← st_lift (enforce_sequence_firewall last_session sequence_id);
      mret (match o with Some response => inl response | None => inr tt end)
  end.

(** Under the mutation lock.  The oracle is remote: while it is asked, other
    tasks do [meanwhile] to the handle and the store. *)
Definition process_mutation (config : IngressConfig) (meanwhile : World → World) (now : Timestamp)
    (client_id : string) (sequence_id : SequenceId) (intent_field : option MutationIntent) :
    gw ProposeMutationResponse :=
  proto_intent ← st_lift (ok_or (mkStatus C_InvalidArgument
                     "ProposeMutationRequest is missing 'intent' field") intent_field);
  let raw_user_input := format_raw_input proto_intent in
  intent ← st_lift (normalize_intent proto_intent);
  inventory ← on_store_of (st_map_err (λ _, mkStatus C_Internal "Request rejected") Lacto.get_inventory);
  '(status, stabilized) ← on_veto (resolve_semantic_mutation config client_id intent inventory);
  final_status ← (match status with
                  | MS_Committed => mret PS_Committed
                  | MS_Vetoed => mret PS_Vetoed
                  | _ => st_fail (mkStatus C_Internal "Request rejected")
                  end);
  _ ← st_modify meanwhile;
  fresh ← st_gets (λ w, h_authority (w_handle w));
  if negb (ca_is_leader fresh) then mret (mutation_redirection_response fresh)
  else
    index ← on_handle (commit_to_consensus
              (mkProposal client_id sequence_id intent stabilized raw_user_input final_status) now);
    mret (build_mutation_response index final_status (sb_moral_justification stabilized)).

(** [handle_propose_mutation], with what other tasks do while this one waits
    for the lock. *)
Definition handle_propose_mutation (config : IngressConfig) (waiting meanwhile : World → World)
    (now : Timestamp) (req : ProposeMutationRequest) : gw ProposeMutationResponse :=
  client_id ← st_lift (map_err (λ _, mkStatus C_InvalidArgument "Invalid client_id")
                         (ClientId_from_str (pmq_client_id req)));
  admitted ← admit_mutation client_id (pmq_sequence_id req);
  match admitted with
  | inl response => mret response
  | inr _ =>
      _ ← st_modify waiting;
      process_mutation config meanwhile now client_id (pmq_sequence_id req) (pmq_intent req)
  end.

(** *** Queries *)

(** The consistency fence at [version], under the caller's timeout. *)
Definition consistency_fence (last_committed version : LogIndex) : gw unit :=
  if last_committed <? version
  then st_fail (mkStatus C_FailedPrecondition "Requested version exceeds consistent horizon")
  else
    on_handle (λ c,
      match h_await_apply version c with
      | (Some (Ok _), c') => (Ok tt, c')
      | (Some (Err e), c') => (Err (map_consensus_error e), c')
      | (None, c') => (status_err C_DeadlineExceeded "Consistency fence timed out", c')
      end).

(** Step 4b. *)
Definition display_item (item : GroceryItem) : GroceryItem :=
  if decide (gi_display_unit item = "") then item
  else if decide (gi_display_unit item = gi_unit item) then item
  else
    match convert_to_display_value (Q:=Q) (gi_quantity item) (gi_display_unit item) with
    | Some display_qty =>
        mkGroceryItem (gi_item_key item) display_qty (gi_display_unit item) (gi_category item)
          (gi_last_modifier_id item) (gi_last_activity item) (gi_state_version item) (gi_display_unit item)
    | None => item
    end.

(** [str::contains]. *)
Definition str_contains (needle hay : string) : bool :=
  match String.index 0 needle hay with Some _ => true | None => false end.
Definition filter_items (query_filter : option string) (items : list GroceryItem) : list GroceryItem :=
  match query_filter with
  | None => items
  | Some f =>
      filter (λ i, str_contains (str_to_lowercase f) (str_to_lowercase (gi_item_key i)) = true) items
  end.

(** [handle_query_state].  Other tasks do [verifying] while the leadership is
    verified, [fencing] while the fence is awaited (or instead of it) and
    [meanwhile] between the reads of the inventory and of its version. *)
Definition handle_query_state (verifying fencing meanwhile : World → World) (req : QueryStateRequest) :
    gw QueryStateResponse :=
  outcome ← st_gets authorize_query;
  match outcome with
  | Fatal e => st_fail e
  | Redirect response => mret response
  | Authorized a =>
      verified ← on_handle (st_try h_verify_leadership);
      _ ← st_modify verifying;
      match verified with
      | Err CE_NotLeader => mret (query_redirection_response a)
      | Err _ => st_fail (mkStatus C_Internal "Query failed")
      | Ok _ =>
          fenced ← st_try (match qsq_min_state_version req with
                           | Some version => consistency_fence (ca_last_committed a) version
                           | None => mret tt
                           end);
          _ ← st_modify fencing;
          _ ← st_lift fenced;
          items ← on_store_of (st_map_err (λ _, mkStatus C_Internal "Request rejected") Lacto.get_inventory);
          _ ← st_modify meanwhile;
          version ← on_store_of (st_map_err (λ _, mkStatus C_Internal "Failed to read state version")
                                   Lacto.current_version);
          mret (mkQueryStateResponse (filter_items (qsq_query_filter req) (display_item <$> items)) version
                  (QueryStatus_as_i32 QS_Success) "" "")
      end
  end.
End dispatch.
End gateway.
Arguments World _ _ _ : clear implicits.
Arguments mkWorld {C D V} _ _ _.
Arguments w_handle {C D V} _.
Arguments w_store {C D V} _.
Arguments w_veto {C D V} _.
