(* ===== verification/Ingress.v ===== *)
(** The ingress service (the entry points of gateway/src/ingress/dispatcher.rs)
    behind the interceptors of the node server, and a cluster of such gateways
    as the network of a client. *)
From S2P Require Import Prelude Machine Types Wire Consensus Sled Fsm Text Units Rpc Client Gateway.

Section ingress.
Context {Q : Type} `{Decimal Q, UnicodeText, HeaderText}.
Context {C D V : Type} `{ConsensusHandle C, Sled D, UuidText, VetoRelay V}.
Context `{Message GroceryItem, Message SessionRecord, Message CommittedMutation, Message Timestamp, Message SnapshotData}.
Abbreviation world := (World C D V) (only parsing).
Abbreviation gw := (st (World C D V) Status) (only parsing).

(** [IngressService] for the dispatcher: the trace id, the handler, and the
    trace id in the answer. *)
Definition ingress_serve {Req Res} (handle : Req → gw Res) (request : Request Req) : gw (Response Res) :=
  trace_id ← st_lift (require_trace_id request);
  response ← handle (rq_payload request);
  st_lift (inject_trace_id_into_response trace_id (Response_new response)).

(** What surrounds one call: the trace id the node gives it, what the other
    tasks do before it and at its waits (for the lock and for the oracle; for
    the quorum, for the fence and between the two reads), its clock, and
    whether the answer is lost on its way back. *)
Record CallEnv : Type := mkCallEnv {
  ce_trace : TraceId;
  ce_before : world → world;
  ce_waiting : world → world;
  ce_meanwhile : world → world;
  ce_reading : world → world;
  ce_now : Timestamp;
  ce_lost : bool;
}.
Definition service_propose_mutation (config : IngressConfig) (e : CallEnv) :
    Request ProposeMutationRequest → gw (Response ProposeMutationResponse) :=
  ingress_serve (handle_propose_mutation (Q:=Q) config (ce_waiting e) (ce_meanwhile e) (ce_now e)).
Definition service_query_state (e : CallEnv) :
    Request QueryStateRequest → gw (Response QueryStateResponse) :=
  ingress_serve (handle_query_state (Q:=Q) (ce_waiting e) (ce_meanwhile e) (ce_reading e)).

(** A request as it arrives at the gateway of node [i]: the interceptors of
    the ingress service, then the service. *)
Definition ingress_arrive {Req Res} (i : NodeIdentity) (e : CallEnv) (service : Request Req → gw (Response Res))
    (r : Request Req) : gw (Response Res) :=
  r' ← st_lift (ingress_inbound i (ce_trace e) (received r));
  service r'.

(** A node that serves clients, with the surroundings of its next calls. *)
Record GatewayNode : Type := mkGatewayNode {
  gn_identity : NodeIdentity;
  gn_config : IngressConfig;
  gn_calls : nat → CallEnv;
  gn_count : nat;
  gn_world : world;
}.
Definition unavailable : Status := mkStatus C_Unavailable "transport error".

Definition gateway_call {Req Res}
    (service : IngressConfig → CallEnv → Request Req → gw (Response Res)) (r : Request Req) :
    st GatewayNode Status (Response Res) := λ g,
  let e := gn_calls g (gn_count g) in
  let '(res, w) := ingress_arrive (gn_identity g) e (service (gn_config g) e) r (ce_before e (gn_world g)) in
  (if ce_lost e then Err unavailable else res,
   mkGatewayNode (gn_identity g) (gn_config g) (gn_calls g) (S (gn_count g)) w).

(** The gateways that can be reached, by URI. *)
Definition Gateways : Type := gmap string GatewayNode.
Definition at_gateway {A} (uri : string) (m : st GatewayNode Status A) : st Gateways Status A := λ n,
  match n !! uri with
  | Some g => let '(r, g') := m g in (r, <[uri := g']> n)
  | None => (Err unavailable, n)
  end.
#[global] Instance gateway_network : IngressNet Gateways := {|
  endpoint_valid _ := true;
  net_connect uri n := (if bool_decide (is_Some (n !! uri)) then Ok tt else Err tt, n);
  net_propose uri r := at_gateway uri (gateway_call service_propose_mutation r);
  net_query uri r := at_gateway uri (gateway_call (λ _, service_query_state) r);
|}.
End ingress.
Arguments CallEnv _ _ _ : clear implicits.
Arguments mkCallEnv {C D V} _ _ _ _ _ _ _.
Arguments ce_trace {C D V} _.
Arguments ce_before {C D V} _.
Arguments ce_waiting {C D V} _.
Arguments ce_meanwhile {C D V} _.
Arguments ce_reading {C D V} _.
Arguments ce_now {C D V} _.
Arguments ce_lost {C D V} _.
Arguments GatewayNode _ _ _ : clear implicits.
Arguments mkGatewayNode {C D V} _ _ _ _ _.
Arguments gn_identity {C D V} _.
Arguments gn_config {C D V} _.
Arguments gn_calls {C D V} _.
Arguments gn_count {C D V} _.
Arguments gn_world {C D V} _.
Arguments Gateways _ _ _ : clear implicits.
