(* ===== verification/ClientProps.v ===== *)
(** What the client keeps of its promises: the identifiers of its intents,
    the intent log across crashes, the list of nodes, what its commands ask of
    the network, the retry loop and the recovery at start. *)
From S2P Require Import Prelude Machine Types Wire Consensus Sled Fsm Text Units Rpc ClientDisk Client Gateway.

(** ** The list of nodes *)

Lemma move_to_front_in a b l : b ∈ move_to_front a l ↔ b = a ∨ b ∈ l.
Proof.
  unfold move_to_front. rewrite elem_of_cons, list_elem_of_filter.
  destruct (decide (b = a)); naive_solver.
Qed.
Lemma take_front_in a b l : b ∈ take MAX_KNOWN_NODES (move_to_front a l) → b = a ∨ b ∈ l.
Proof.
  intros Hb. apply move_to_front_in. eapply elem_of_sublist; [exact Hb|apply sublist_take].
Qed.
Lemma move_to_front_NoDup a l : NoDup l → NoDup (move_to_front a l).
Proof.
  intros Hl. constructor; [|by apply list.NoDup_filter].
  rewrite list_elem_of_filter. naive_solver.
Qed.
Lemma take_NoDup {A} k (l : list A) : NoDup l → NoDup (take k l).
Proof. intros Hl. eapply sublist_NoDup; [done|]. apply sublist_take. Qed.

(** A list of addresses as the session keeps it. *)
Definition nodes_wf (l : list string) : Prop := (length l ≤ MAX_KNOWN_NODES)%nat ∧ NoDup l ∧ l ≠ [].

Lemma nodes_wf_front a l : NoDup l → nodes_wf (take MAX_KNOWN_NODES (move_to_front a l)).
Proof.
  intros Hl. unfold nodes_wf. rewrite length_take. split; [unfold MAX_KNOWN_NODES; lia|].
  split; [by apply take_NoDup, move_to_front_NoDup|done].
Qed.
Lemma nodes_wf_rotate a l : nodes_wf (a :: l) → nodes_wf (l ++ [a]).
Proof.
  intros (Hlen & Hnd & _). apply list.NoDup_cons in Hnd as [Ha Hl]. unfold nodes_wf.
  rewrite length_app. cbn in *. split; [lia|]. split; [|by destruct l].
  apply list.NoDup_app. split; [done|]. split; [|apply NoDup_singleton].
  intros b Hb ->%list_elem_of_singleton. done.
Qed.
Lemma merge_NoDup over known : NoDup known → NoDup (foldr move_to_front known over).
Proof.
  intros Hk. induction over as [|a over IH]; [done|]. by apply move_to_front_NoDup.
Qed.
Lemma merge_nodes_wf over known : NoDup known → over ≠ [] → nodes_wf (merge_nodes over known).
Proof.
  intros Hk Ho. destruct over as [|a over]; [done|]. unfold merge_nodes. cbn [foldr].
  by apply nodes_wf_front, merge_NoDup.
Qed.

(** A property of the list that every operation keeps, for sessions that
    start from such seeds. *)
Class NodesInv (good seeds : list string → Prop) : Prop := {
  good_front a l : good l → good (take MAX_KNOWN_NODES (move_to_front a l));
  good_rotate a l : l ≠ [] → good (a :: l) → good (l ++ [a]);
  good_take l : good l → good (take MAX_KNOWN_NODES l);
  good_merge over l : over ≠ [] → good l → good (merge_nodes over l);
  good_start l : l ≠ [] → seeds l → good (take MAX_KNOWN_NODES l);
}.
Definition any_nodes : list string → Prop := λ _, True.
#[export] Instance any_nodes_inv : NodesInv any_nodes any_nodes.
Proof. by split. Qed.
Definition nodes_sized (l : list string) : Prop := (length l ≤ MAX_KNOWN_NODES)%nat ∧ l ≠ [].
#[export] Instance nodes_sized_inv : NodesInv nodes_sized any_nodes.
Proof.
  assert (∀ l, l ≠ [] → nodes_sized (take MAX_KNOWN_NODES l)) as Htake.
  { intros l Hl. split; [rewrite length_take; lia|]. by destruct l. }
  split.
  - intros a l _. by apply Htake.
  - intros a l _ [Hlen _]. unfold nodes_sized. rewrite length_app. cbn in *. split; [lia|]. by destruct l.
  - intros l [_ Hl]. by apply Htake.
  - intros over l Ho _. destruct over; [done|]. by apply Htake.
  - intros l Hl _. by apply Htake.
Qed.
#[export] Instance nodes_wf_inv : NodesInv nodes_wf (NoDup (A:=string)).
Proof.
  split.
  - intros a l (_ & Hl & _). by apply nodes_wf_front.
  - intros a l _. apply nodes_wf_rotate.
  - intros l (Hlen & Hl). rewrite take_ge by done. by split.
  - intros over l Ho (_ & Hl & _). by apply merge_nodes_wf.
  - intros l Hne Hl. split; [rewrite length_take; lia|]. split; [by apply take_NoDup|]. by destruct l.
Qed.

Section session.
Context {F : Type} `{FileIOLaws F, JsonText ClientState} `{NodesInv good seeds}.
(** The values of the types [ClusterId] and [ClientId]. *)
Context (cluster_ok client_ok : string → Prop).
#[local] Instance ClientState_ok : JsonOk ClientState := λ s,
  cluster_ok (cs_cluster_id s) ∧ client_ok (cs_client_id s) ∧ U64 (cs_sequence_id s).
Context `{!JsonTextLaws ClientState}.

(** What the file holds of a state. *)
Definition saved (f : F) (s : ClientState) : Prop :=
  ∃ data, json_to_string s = Ok data ∧ file_content f = Some data.
Definition cut_short (f : F) : Prop :=
  ∃ s p q, json_to_string (A:=ClientState) s = Ok (p +:+ q)%string ∧ q ≠ "" ∧ file_content f = Some p.

Lemma string_app_nil (p : string) : (p +:+ "")%string = p.
Proof. induction p as [|c p IH]; [done|]. exact (f_equal (String c) IH). Qed.

Lemma save_state_spec s f :
  wp (save_state s) (λ _ f', saved f' s)
    (λ _ f', file_content f' = file_content f ∨ saved f' s ∨ cut_short f') f.
Proof.
  unfold save_state. wp_steps. apply wp_lift; [|by auto].
  intros data Hdata. destruct (json_to_string s) as [d|] eqn:Hj; [|done]. injection Hdata as <-.
  wp_steps. eapply wp_mono; [apply file_write_law|cbn|cbn].
  - intros _ f' Hf. by exists d.
  - intros _ f' [Hf|(p & q & -> & Hf)]; [by left|]. right.
    destruct (decide (q = "")) as [->|Hq]; [|right; by exists s, p, q].
    left. exists p. by rewrite string_app_nil in Hj.
Qed.

Lemma saved_reads f s t :
  saved f s → json_ok s → file_read f = Ok t → json_from_str t = Ok s.
Proof.
  intros (data & Hj & Hc) Hok Hr%file_read_law. rewrite Hc in Hr. injection Hr as <-.
  by eapply json_roundtrip.
Qed.
Lemma cut_short_fails f t s : cut_short f → file_read f = Ok t → json_from_str t = Ok s → False.
Proof.
  intros (s' & p & q & Hj & Hq & Hc) Hr%file_read_law Hs. rewrite Hc in Hr. injection Hr as <-.
  pose proof (json_cut s' p q Hj Hq) as Hcut. by rewrite Hs in Hcut.
Qed.

(** ** Sequence identifiers *)

Definition state_ok (s : ClientState) : Prop := json_ok s ∧ good (cs_known_nodes s).
(** The file accounts for every identifier up to [last]. *)
Definition accounts (last : N) (f : F) : Prop :=
  (∃ s, saved f s ∧ state_ok s ∧ last ≤ cs_sequence_id s) ∨ cut_short f.
Definition session_at (last : N) (x : Session F) : Prop :=
  state_ok (ses_state x) ∧ last ≤ cs_sequence_id (ses_state x) ∧ accounts last (ses_file x).

Lemma accounts_content last f f' : accounts last f → file_content f' = file_content f → accounts last f'.
Proof.
  unfold accounts, saved, cut_short. intros Ha Hc. rewrite Hc. done.
Qed.

Lemma session_save_spec last s f :
  state_ok s → last ≤ cs_sequence_id s → accounts last f →
  wp session_save (λ _ x, ses_state x = s ∧ accounts (cs_sequence_id s) (ses_file x))
    (λ _ x, ses_state x = s ∧ accounts last (ses_file x)) (mkSession s f).
Proof.
  intros Hok Hl Ha. unfold wp, session_save. cbn. pose proof (save_state_spec s f) as Hs.
  unfold wp in Hs. destruct (save_state s f) as [[[]|e] f']; cbn.
  - split; [done|]. left. by exists s.
  - split; [done|]. destruct Hs as [Hc|[Hs|Hc]]; [by eapply accounts_content| |by right].
    left. by exists s.
Qed.

Lemma next_sequence_id_spec last x :
  session_at last x →
  wp next_sequence_id
    (λ n x', n = cs_sequence_id (ses_state x) + 1 ∧ last < n ∧ session_at n x')
    (λ _ x', session_at last x') x.
Proof.
  intros (Hok & Hl & Ha). destruct x as [s f]. cbn in *. unfold next_sequence_id. wp_steps.
  apply wp_lift; [|done]. intros n Hn. unfold seq_add in Hn. cbn [ses_state] in Hn.
  destruct (newtype_add "SequenceId" (cs_sequence_id s) 1) as [m|] eqn:Hm; cbn in Hn; [|done].
  injection Hn as ->. apply newtype_add_Ok in Hm as [-> Hu]. unfold session_set. wp_steps. cbn.
  assert (state_ok (with_sequence (cs_sequence_id s + 1) s)) as Hok'.
  { destruct Hok as [(? & ? & _) ?]. split; [|done]. by split; [|split]. }
  eapply wp_mono; [apply (session_save_spec last); cbn; [done|lia|done]|cbn|cbn].
  - intros _ [s' f'] [Hs Hf]. cbn in Hs, Hf. subst s'. wp_steps. split; [done|]. split; [lia|].
    split; [done|]. split; [by cbn|done].
  - intros _ [s' f'] [Hs Hf]. cbn in Hs, Hf. subst s'. split; [done|]. cbn. split; [lia|done].
Qed.

(** The other operations keep the sequence number. *)
Lemma session_nodes_spec last l x :
  session_at last x → good l →
  wp (_ ← session_set (with_nodes l); session_save)
    (λ _ x', session_at last x' ∧ ses_state x' = with_nodes l (ses_state x))
    (λ _ x', session_at last x' ∧ ses_state x' = with_nodes l (ses_state x)) x.
Proof.
  intros (Hok & Hl & Ha) Hgood. destruct x as [s f]. cbn in *. unfold session_set. wp_steps. cbn.
  assert (state_ok (with_nodes l s)) as Hok' by (destruct Hok; by split).
  eapply wp_mono; [apply (session_save_spec last (with_nodes l s)); [done|done|done]|cbn|cbn].
  - intros _ [s' f'] [Hs Hf]. cbn in Hs, Hf. subst s'. split; [|done]. split; [done|]. split; [done|].
    destruct Hf as [(s2 & Hs2 & Hok2 & Hle)|Hc]; [left|by right]. exists s2.
    split; [done|]. split; [done|]. cbn in *. lia.
  - intros _ [s' f'] [Hs Hf]. cbn in Hs, Hf. subst s'. done.
Qed.

Definition is_node_op (op : st (Session F) ClientStateError unit) : Prop :=
  op = rotate_nodes ∨ ∃ a, op = record_success a.
Lemma node_op_spec op last x :
  is_node_op op → session_at last x → wp op (λ _, session_at last) (λ _, session_at last) x.
Proof.
  intros Hop Hx. pose proof (proj2 (proj1 Hx)) as Hg.
  destruct Hop as [-> | [a ->]]; unfold rotate_nodes, record_success; wp_steps.
  - destruct (cs_known_nodes (ses_state x)) as [|b [|b' l]]; [done|done|].
    eapply wp_mono; [apply (session_nodes_spec last); [done|by apply good_rotate]|cbn; tauto..].
  - case_decide; [by wp_steps|].
    eapply wp_mono; [apply (session_nodes_spec last); [done|by apply good_front]|cbn; tauto..].
Qed.

(** ** The life of a session

    The process starts, works, crashes and starts again; an operation that
    the process does not survive is one that failed, followed by a crash. *)
Inductive session_event : Type :=
| EvStart (cluster_id : string) (nodes : list string) (fresh : string)
| EvNext
| EvRecord (addr : string)
| EvRotate
| EvCrash.
Record Life : Type := mkLife { life_state : option ClientState; life_file : F }.

Definition live (r : Session F) : Life := mkLife (Some (ses_state r)) (ses_file r).
Definition life_step (e : session_event) (l : Life) : option N * Life :=
  match e, life_state l with
  | EvStart c nodes fresh, None =>
      let '(r, f) := load_or_init c nodes fresh (life_file l) in (None, mkLife (ok r) f)
  | EvNext, Some s =>
      let '(r, x) := next_sequence_id (mkSession s (life_file l)) in (ok r, live x)
  | EvRecord a, Some s => (None, live (record_success a (mkSession s (life_file l))).2)
  | EvRotate, Some s => (None, live (rotate_nodes (mkSession s (life_file l))).2)
  | EvCrash, _ => (None, mkLife None (life_file l))
  | _, _ => (None, l)
  end.
(** The identifiers that a life hands out. *)
Fixpoint issued (es : list session_event) (l : Life) : list N :=
  match es with
  | [] => []
  | e :: es' =>
      let '(o, l') := life_step e l in
      match o with Some n => n :: issued es' l' | None => issued es' l' end
  end.

Definition event_ok (e : session_event) : Prop :=
  match e with EvStart c nodes fresh => cluster_ok c ∧ client_ok fresh ∧ seeds nodes | _ => True end.
Definition life_at (last : N) (l : Life) : Prop :=
  match life_state l with
  | Some s => session_at last (mkSession s (life_file l))
  | None => accounts last (life_file l) ∨ (last = 0 ∧ file_content (life_file l) = None)
  end.

Lemma save_fresh_spec last s f :
  state_ok s → last ≤ cs_sequence_id s →
  accounts last f ∨ (last = 0 ∧ file_content f = None) →
  wp (save_state s) (λ _ f', session_at last (mkSession s f'))
    (λ _ f', accounts last f' ∨ (last = 0 ∧ file_content f' = None)) f.
Proof.
  intros Hok Hl Ha. eapply wp_mono; [apply save_state_spec|cbn|cbn].
  - intros _ f' Hs. split; [done|]. split; [done|]. left. by exists s.
  - intros _ f' [Hc|[Hs|Hc]]; [|left; left; by exists s|left; by right].
    destruct Ha as [Ha|[-> Hf]]; [left; by eapply accounts_content|right; by rewrite Hc].
Qed.

Lemma load_or_init_spec last c nodes fresh f :
  cluster_ok c → client_ok fresh → seeds nodes → accounts last f ∨ (last = 0 ∧ file_content f = None) →
  wp (load_or_init c nodes fresh) (λ s f', session_at last (mkSession s f'))
    (λ _ f', accounts last f' ∨ (last = 0 ∧ file_content f' = None)) f.
Proof.
  intros Hc Hfresh Hseeds Ha. unfold load_or_init. wp_steps. rewrite file_exists_law.
  case_bool_decide as Hex.
  - destruct Ha as [Ha|[_ Hn]]; [|by rewrite Hn in Hex; destruct Hex]. wp_steps.
    apply wp_reads; [|by left]. intros data Hd. wp_steps. apply wp_lift; [|by left].
    intros loaded Hld.
    destruct (file_read f) as [t|] eqn:Hr; [|done]. injection Hd as ->.
    destruct (json_from_str data) as [s|] eqn:Hj; [|done]. injection Hld as ->.
    destruct Ha as [(s' & Hs & Hok & Hle)|Hcut]; [|by destruct (cut_short_fails _ _ _ Hcut Hr Hj)].
    rewrite (saved_reads _ _ _ Hs (proj1 Hok) Hr) in Hj. injection Hj as ->.
    assert (accounts last f) as Hacc by (left; by exists loaded).
    destruct Hok as [Hjok Hgood]. apply good_take in Hgood.
    case_decide; [by wp_steps; left|]. case_decide; wp_steps; [done|].
    eapply wp_mono; [apply (save_fresh_spec last); [|done|by left]|cbn|cbn]; [|done..|].
    { split; [done|]. by apply good_merge. }
    intros _ f' Hf. by wp_steps.
  - case_decide; [by wp_steps|]. wp_steps.
    assert (last ≤ 0) as Hz.
    { destruct Ha as [[(s & (d & _ & Hd) & _)|(s & p & q & _ & _ & Hd)]|[-> _]]; [| |done];
        rewrite Hd in Hex; by destruct Hex. }
    eapply wp_mono; [apply (save_fresh_spec last); [|done|done]|cbn|cbn]; [| |done].
    + split; [by split; [|split]|]. apply good_start; [by destruct nodes|done].
    + intros _ f' Hf. by wp_steps.
Qed.

Lemma life_step_spec last e l :
  event_ok e → life_at last l →
  match life_step e l with
  | (Some n, l') => last < n ∧ life_at n l'
  | (None, l') => life_at last l'
  end.
Proof.
  intros He Hl. unfold life_at in *.
  destruct l as [[s|] f]; destruct e as [c nodes fresh| |a| |]; cbn in *; try done.
  - pose proof (next_sequence_id_spec last _ Hl) as Hn. unfold wp in Hn.
    destruct (next_sequence_id (mkSession s f)) as [[n|e] [s' f']]; [by destruct Hn as (_ & ? & ?)|done].
  - pose proof (node_op_spec _ last _ (or_intror (ex_intro _ a eq_refl)) Hl) as Hn. unfold wp in Hn.
    by destruct (record_success a (mkSession s f)) as [[]  [s' f']].
  - pose proof (node_op_spec _ last _ (or_introl eq_refl) Hl) as Hn. unfold wp in Hn.
    by destruct (rotate_nodes (mkSession s f)) as [[]  [s' f']].
  - left. by destruct Hl as (_ & _ & ?).
  - pose proof (load_or_init_spec last c nodes fresh f (proj1 He) (proj1 (proj2 He)) (proj2 (proj2 He)) Hl) as Hn. unfold wp in Hn.
    by destruct (load_or_init c nodes fresh f) as [[] f'].
Qed.

Lemma issued_above es last l :
  Forall event_ok es → life_at last l →
  Forall (N.lt last) (issued es l) ∧ StronglySorted N.lt (issued es l).
Proof.
  intros Hes. revert last l. induction Hes as [|e es He Hes IH]; intros last l Hl; cbn.
  { split; constructor. }
  pose proof (life_step_spec last e l He Hl) as Hs.
  destruct (life_step e l) as [[n|] l']; [|by apply IH].
  destruct Hs as [Hn Hl']. destruct (IH n l' Hl') as [Ha Hsort]. split.
  - constructor; [done|]. eapply list.Forall_impl; [exact Ha|]. intros k Hk. cbn in *. lia.
  - by constructor.
Qed.

Fixpoint life_after (es : list session_event) (l : Life) : Life :=
  match es with [] => l | e :: es' => life_after es' (life_step e l).2 end.
Lemma life_after_at es last l :
  Forall event_ok es → life_at last l → ∃ n, life_at n (life_after es l).
Proof.
  intros Hes. revert last l. induction Hes as [|e es He Hes IH]; intros last l Hl; cbn; [by exists last|].
  pose proof (life_step_spec last e l He Hl) as Hs.
  destruct (life_step e l) as [[n|] l']; [apply (IH n)|apply (IH last)]; tauto.
Qed.
Lemma life_at_start f : file_content f = None → life_at 0 (mkLife None f).
Proof. intros Hf. right. by split. Qed.
End session.

Section lives.
Context {F : Type} `{FileIOLaws F, JsonText ClientState}.
Context (cluster_ok client_ok : string → Prop) `{!@JsonTextLaws ClientState _ (ClientState_ok cluster_ok client_ok)}.
Abbreviation events_ok seeds es := (Forall (event_ok cluster_ok client_ok (seeds:=seeds)) es) (only parsing).

(** C14: From its first start on, whatever fails and however often the process
    crashes and starts again on the same file, a session hands out strictly
    increasing sequence identifiers. *)
Theorem sequence_ids_never_reused es (f : F) :
  events_ok any_nodes es → file_content f = None → StronglySorted N.lt (issued es (mkLife None f)).
Proof.
  intros Hes Hf. eapply (issued_above (good:=any_nodes) cluster_ok client_ok es 0); [done|].
  by apply life_at_start.
Qed.

(** The seeds that a start is given are distinct. *)
Definition distinct_seeds (e : session_event) : Prop :=
  match e with EvStart _ nodes _ => NoDup nodes | _ => True end.
Lemma distinct_events es :
  events_ok any_nodes es → Forall distinct_seeds es → events_ok (NoDup (A:=string)) es.
Proof.
  intros Hes Hd. apply list.Forall_forall. intros e He.
  pose proof (proj1 (list.Forall_forall _ _) Hes e He) as Hok. pose proof (proj1 (list.Forall_forall _ _) Hd e He) as Hs.
  destruct e as [c nodes fresh| | | |]; try done. by destruct Hok as (? & ? & _).
Qed.

(** C29: A session has, in every state it reaches across failures, crashes
    and restarts, valid identifiers, a 64-bit sequence number and a list of one
    to ten addresses.  The addresses are distinct when the seeds of every
    start are: the first start stores its seeds as they are given. *)
Theorem session_well_formed es (f : F) s :
  events_ok any_nodes es → file_content f = None →
  life_state (life_after es (mkLife None f)) = Some s →
  cluster_ok (cs_cluster_id s) ∧ client_ok (cs_client_id s) ∧ U64 (cs_sequence_id s) ∧
  (1 ≤ length (cs_known_nodes s) ≤ MAX_KNOWN_NODES)%nat ∧
  (Forall distinct_seeds es → NoDup (cs_known_nodes s)).
Proof.
  intros Hes Hf Hs.
  destruct (life_after_at (good:=nodes_sized) cluster_ok client_ok es 0 _ Hes (life_at_start _ _ f Hf)) as [n Hn].
  unfold life_at in Hn. rewrite Hs in Hn. destruct Hn as (((? & ? & ?) & Hlen & Hne) & _).
  cbn in *. split_and!; try done; [by destruct (cs_known_nodes s); cbn; [|lia]|]. intros Hd.
  destruct (life_after_at (good:=nodes_wf) cluster_ok client_ok es 0 _ (distinct_events es Hes Hd)
              (life_at_start _ _ f Hf)) as [n' Hn'].
  unfold life_at in Hn'. rewrite Hs in Hn'. by destruct Hn' as ((_ & _ & ? & _) & _).
Qed.

(** An identifier handed out for an intent that never reached the log of
    the cluster blocks the session: every identifier that the session can
    still hand out, across failures and restarts, is rejected by the sequence
    firewall, without a hint. *)
Theorem lost_intent_blocks_session es (l : Life (F:=F)) n record k :
  events_ok any_nodes es → life_at cluster_ok client_ok (good:=any_nodes) n l →
  sr_last_sequence_id record < n → U64 n → k ∈ issued es l →
  enforce_sequence_firewall (Ok (Some record)) k
  = Ok (Some (rejection MS_Rejected 0 "Secure Clinical: Sequence Continuity Violation")).
Proof.
  intros Hes Hl Hr Hn Hk. destruct (issued_above cluster_ok client_ok es n l Hes Hl) as [Ha _].
  rewrite list.Forall_forall in Ha. specialize (Ha k Hk). cbn in Ha.
  unfold enforce_sequence_firewall, wrapping_add, U64, u64_modulus in *. cbn.
  rewrite N.mod_small by lia.
  rewrite (proj2 (N.eqb_neq k 0)), (proj2 (N.eqb_neq k _)), (proj2 (N.ltb_ge k _)),
    (proj2 (N.ltb_lt _ k)) by lia. done.
Qed.
End lives.

(** ** The intent log *)

Section wal.
Context {D : Type} `{SledLaws D} `{!Message ProposeMutationRequest, !MessageLaws ProposeMutationRequest}.

Lemma recover_entries_Ok items l :
  recover_entries items = Ok l →
  ∃ kvs, items = Ok <$> kvs ∧ Forall2 (λ p e, decode_entry p.1 p.2 = Ok e) kvs l.
Proof.
  revert l. induction items as [|[[k v]|e] items IH]; intros l; cbn; [|unfold mbind, result_bind|done].
  { intros [= <-]. by exists []. }
  destruct (decode_entry k v) as [e|] eqn:He; [|done].
  destruct (recover_entries items) as [rest|]; [|done]. intros [= <-].
  destruct (IH rest eq_refl) as (kvs & -> & Hf). exists ((k, v) :: kvs). by split; [|constructor].
Qed.
Lemma recover_entries_total kvs l :
  Forall2 (λ p e, decode_entry p.1 p.2 = Ok e) kvs l → recover_entries (Ok <$> kvs) = Ok l.
Proof.
  induction 1 as [|[k v] e kvs l He _ IH]; [done|]. cbn in *. rewrite He. cbn.
  change (list_fmap _ _ Ok kvs) with (Ok (E:=SledError) <$> kvs). by rewrite IH.
Qed.

Lemma decode_entry_wal ts m k v :
  wal_holds ts m → tree_at ts WAL_TREE !! k = Some v →
  ∃ n r, decode_entry k v = Ok (n, r) ∧ m !! n = Some r ∧ k = to_be_bytes n.
Proof.
  intros [Hok Hm] Hk. apply Hm in Hk as (n & r & Hl & -> & ->). exists n, r.
  destruct (Hok n r Hl) as [Hn Hr]. unfold decode_entry. rewrite from_to_be_bytes by done. cbn.
  by rewrite decode_encode_to_vec.
Qed.

(** The scan decodes to exactly the pending intents. *)
Lemma recover_listing ts m kvs :
  wal_holds ts m → lists (tree_at ts WAL_TREE) (λ _, True) kvs →
  ∃ l, Forall2 (λ p e, decode_entry p.1 p.2 = Ok e) kvs l ∧ l ≡ₚ map_to_list m.
Proof.
  intros Hm (_ & Hnd & Hin).
  assert (∀ kvs', (∀ p, p ∈ kvs' → p ∈ kvs) → NoDup kvs'.*1 →
    ∃ l, Forall2 (λ p e, decode_entry p.1 p.2 = Ok e) kvs' l ∧ NoDup l ∧
         (∀ n r, (n, r) ∈ l ↔ m !! n = Some r ∧ to_be_bytes n ∈ kvs'.*1)) as Hgen.
  { induction kvs' as [|[k v] kvs' IH]; intros Hsub Hnd'.
    { exists []. split; [constructor|]. split; [constructor|]. set_solver. }
    cbn in Hnd'. apply list.NoDup_cons in Hnd' as [Hk Hnd'].
    destruct IH as (l & Hl & Hndl & Hel); [intros p Hp; apply Hsub; by right|done|].
    destruct (Hin k v) as [Hkv _]. destruct Hkv as [Hkv _]; [apply Hsub; by left|].
    destruct (decode_entry_wal ts m k v Hm Hkv) as (n & r & Hdec & Hr & ->).
    exists ((n, r) :: l). split; [by constructor|]. split.
    - apply list.NoDup_cons. split; [|done]. intros [_ Hn]%Hel. done.
    - intros n' r'. cbn. rewrite !elem_of_cons, Hel. split.
      + intros [[= -> ->]|[? ?]]; auto.
      + intros [Hl' [Heq|Hin']]; [left|right; by split]. destruct Hm as [Hok _].
        apply to_be_bytes_inj in Heq as ->; [congruence|by apply Hok in Hl' as []|by apply Hok in Hr as []]. }
  destruct (Hgen kvs (λ p Hp, Hp) Hnd) as (l & Hl & Hndl & Hel). exists l. split; [done|].
  apply NoDup_Permutation; [done|apply NoDup_map_to_list|]. intros [n r].
  rewrite elem_of_map_to_list, Hel. split; [tauto|]. intros Hr. split; [done|].
  destruct Hm as [_ Hm]. apply list_elem_of_fmap. exists (to_be_bytes n, encode_to_vec r). split; [done|].
  apply Hin. split; [|done]. apply Hm. eauto.
Qed.

Lemma wal_recover_spec d m kvs :
  wal_holds (sled_trees d) m → sled_iter WAL_TREE d = Ok <$> kvs →
  ∃ l, wal_recover d = Ok l ∧ l ≡ₚ map_to_list m ∧ StronglySorted seq_le l.
Proof.
  intros Hm Hs. destruct (recover_listing _ m kvs Hm (sled_iter_law _ _ _ Hs)) as (l & Hl & Hp).
  unfold wal_recover. rewrite Hs, (recover_entries_total kvs l Hl). cbn.
  eexists. split; [done|]. split; [|apply StronglySorted_merge_sort; apply _].
  by rewrite merge_sort_Permutation.
Qed.
Lemma wal_recover_Ok d m l :
  wal_holds (sled_trees d) m → wal_recover d = Ok l → l ≡ₚ map_to_list m ∧ StronglySorted seq_le l.
Proof.
  intros Hm Hr. pose proof Hr as Hr'. unfold wal_recover in Hr'. cbn in Hr'.
  destruct (recover_entries (sled_iter WAL_TREE d)) as [l0|] eqn:He; [|done].
  destruct (recover_entries_Ok _ _ He) as (kvs & Hkvs & _).
  destruct (wal_recover_spec d m kvs Hm Hkvs) as (l' & Hl' & Hp).
  rewrite Hr in Hl'. by injection Hl' as <-.
Qed.

(** C20: An intent whose append has returned is recovered after a crash,
    together with every intent that was pending, each once and in the order
    of the sequence numbers; recovery reports no corruption when the database
    can be read. *)
Theorem appended_intent_recovered n r (d d1 d2 : D) m kvs :
  wal_at d m → U64 n → wire_ok r → wal_append n r d = (Ok tt, d1) →
  sled_reopened d1 d2 → sled_iter WAL_TREE d2 = Ok <$> kvs →
  ∃ l, wal_recover d2 = Ok l ∧ l ≡ₚ map_to_list (<[n := r]> m) ∧ StronglySorted seq_le l.
Proof.
  intros Hm Hn Hr Happ Hre Hs.
  pose proof (wp_run _ _ _ _ _ _ (wal_append_spec n r d m Hm Hn Hr) Happ) as H1. cbn in H1.
  destruct (wal_reopened _ _ _ H1 Hre) as [H2 _]. by apply (wal_recover_spec d2 _ kvs).
Qed.
End wal.

(** ** What a command does to the intent log *)

(** [m] never changes [g] of the state. *)
Definition preserves {S E A B} (g : S → B) (m : st S E A) : Prop := ∀ s, g (m s).2 = g s.
Lemma preserves_bind {S E A A' B} (g : S → B) (m : st S E A) (k : A → st S E A') :
  preserves g m → (∀ a, preserves g (k a)) → preserves g (m ≫= k).
Proof.
  intros Hm Hk s. unfold mbind, st_bind. specialize (Hm s).
  destruct (m s) as [[a|e] s']; [|done]. by rewrite Hk.
Qed.
Lemma preserves_map_err {S E E' A B} (g : S → B) (f : E → E') (m : st S E A) :
  preserves g m → preserves g (st_map_err f m).
Proof. intros Hm s. unfold st_map_err. specialize (Hm s). by destruct (m s). Qed.
Lemma preserves_zoom {S T E A B} (g : T → B) (get : T → S) (put : S → T → T) (m : st S E A) :
  (∀ s t, g (put s t) = g t) → preserves g (st_zoom get put m).
Proof. intros Hp t. unfold st_zoom. destruct (m (get t)). apply Hp. Qed.
Lemma preserves_modify {S E B} (g : S → B) (f : S → S) :
  (∀ s, g (f s) = g s) → preserves g (st_modify (E:=E) f).
Proof. intros Hf s. apply Hf. Qed.
Lemma preserves_wp {S E A B} (g : S → B) (m : st S E A) s :
  preserves g m → wp m (λ _ s', g s' = g s) (λ _ s', g s' = g s) s.
Proof. intros Hm. specialize (Hm s). unfold wp. by destruct (m s) as [[a|e] s']. Qed.
Ltac preserve :=
  repeat first
    [ apply preserves_bind; [|intros]
    | apply preserves_map_err | apply preserves_zoom; done | apply preserves_modify; done
    | by intros ? | case_match ].

Section commands.
Context {F D N : Type} `{FileIO F, SledLaws D, IngressNet N, HeaderText, UuidText}.
Context `{JsonText ClientState, !Message ProposeMutationRequest, !MessageLaws ProposeMutationRequest}.
Abbreviation client := (LactoClient F D N) (only parsing).

(** The retry loop touches neither the log nor the client's identity. *)
Definition untouched (c : client) : D * string * string * BinNums.N * BinNums.N :=
  (lc_wal c, lc_client_id c, lc_cluster_id c, lc_initial_backoff c, lc_max_backoff c).
Lemma rotate_and_back_off_untouched k : preserves untouched (rotate_and_back_off (F:=F) (D:=D) (N:=N) k).
Proof. unfold rotate_and_back_off, handle_transport_error, on_session. preserve. Qed.
Lemma reconcile_untouched o k : preserves untouched (reconcile_routing_failure (F:=F) (D:=D) (N:=N) o k).
Proof.
  unfold reconcile_routing_failure, handle_redirection, on_session.
  destruct o; [case_decide|]; try apply rotate_and_back_off_untouched. preserve.
Qed.
Lemma attempt_untouched {Req Res} rpc rej (p : Req) k :
  preserves untouched (attempt (F:=F) (D:=D) (N:=N) (Res:=Res) rpc rej p k).
Proof.
  unfold attempt, get_or_connect, record_current_node_success, on_session. preserve;
    apply reconcile_untouched.
Qed.
Lemma retry_loop_untouched {Req Res} rpc rej (p : Req) k left :
  preserves untouched (retry_loop (F:=F) (D:=D) (N:=N) (Res:=Res) rpc rej p k left).
Proof.
  revert k. induction left as [|left IH]; intros k; cbn [retry_loop]; [by intros ?|].
  apply preserves_bind; [apply attempt_untouched|]. intros [r|]; [by intros ?|apply IH].
Qed.
Lemma dispatch_mutation_untouched p : preserves untouched (dispatch_mutation (F:=F) (D:=D) (N:=N) p).
Proof.
  unfold dispatch_mutation, execute_with_retry. apply preserves_bind; [by intros ?|].
  intros c. apply retry_loop_untouched.
Qed.

End commands.

(** ** What the network is asked *)

Section answers.
Context {F D N Req Res : Type} `{FileIO F, Sled D, IngressNet N, HeaderText, UuidText, JsonText ClientState}.
Context (rpc : string → Request Req → st N Status (Response Res)) (rejection : Res → bool * string).
Abbreviation client := (LactoClient F D N) (only parsing).

(** What the turns of the retry loop do to the network: connections, and calls
    with the request [rq]. *)
Definition net_move (rq : Request Req) (n n' : N) : Prop :=
  ∃ uri, n' = (net_connect uri n).2 ∨ n' = (rpc uri rq n).2.
(** The command that turned the network from [n0] to [n'] sent one request
    for [p], and its last call of the network gave the answer [a]. *)
Definition answered (cluster : string) (p : Req) (n0 n' : N) (a : Res * option TraceId) : Prop :=
  ∃ rq uri n r,
    inject_cluster_id_into_request cluster (Request_new p) = Ok rq ∧ rtc (net_move rq) n0 n ∧
    rpc uri rq n = (Ok r, n') ∧ a = (rs_payload r, extract_trace_id_from_response r) ∧
    (rejection (rs_payload r)).1 = false.

Lemma get_or_connect_moves (c : client) :
  wp get_or_connect
    (λ _ c', lc_cluster_id c' = lc_cluster_id c ∧ ∀ rq, rtc (net_move rq) (lc_net c) (lc_net c'))
    (λ _ _, True) c.
Proof.
  unfold get_or_connect. wp_steps. destruct (lc_client c) as [uri|]; [by wp_steps|].
  wp_steps. apply wp_lift; [|done]. intros a _. destruct (negb _); [by wp_steps|]. wp_steps.
  unfold wp at 1. destruct (net_connect (node_uri a) (lc_net c)) as [[[]|e] n] eqn:Hn; cbv beta iota zeta; [|done].
  wp_steps. split; [done|]. intros rq. apply rtc_once. exists (node_uri a). left. cbn. by rewrite Hn.
Qed.
Lemma record_success_net :
  preserves (λ c : client, (lc_cluster_id c, lc_net c)) record_current_node_success.
Proof. unfold record_current_node_success, on_session. preserve. Qed.
Lemma reconcile_net o k :
  preserves (λ c : client, (lc_cluster_id c, lc_net c)) (reconcile_routing_failure o k).
Proof.
  unfold reconcile_routing_failure, handle_redirection, rotate_and_back_off, handle_transport_error, on_session.
  preserve.
Qed.

Lemma attempt_answered (p : Req) k (c : client) :
  wp (attempt rpc rejection p k)
    (λ o c', lc_cluster_id c' = lc_cluster_id c ∧
       match o with
       | Some a => answered (lc_cluster_id c) p (lc_net c) (lc_net c') a
       | None => ∀ rq, inject_cluster_id_into_request (lc_cluster_id c) (Request_new p) = Ok rq →
                       rtc (net_move rq) (lc_net c) (lc_net c')
       end)
    (λ _ _, True) c.
Proof.
  unfold attempt. wp_steps.
  eapply wp_mono; [apply get_or_connect_moves|cbn|done]. intros uri c1 [Hc1 Hmv]. wp_steps.
  rewrite Hc1. apply wp_lift; [|done]. intros rq Hrq. wp_steps.
  destruct (inject_cluster_id_into_request _ _) as [rq'|] eqn:Hinj; [injection Hrq as ->|done].
  specialize (Hmv rq).
  unfold wp at 1. destruct (rpc uri rq (lc_net c1)) as [[r|s] n'] eqn:Hr; cbv beta iota zeta.
  all: assert (rtc (net_move rq) (lc_net c) n') as Hmv'
    by (eapply rtc_r; [exact Hmv|]; exists uri; right; by rewrite Hr).
  - destruct (rejection (rs_payload r)) as [[] hint] eqn:Hrej; wp_steps.
    + eapply wp_mono; [apply (preserves_wp _ _ _ (reconcile_net (Some hint) k))|cbn|done].
      intros _ c2 [= Hc2 Hn2]. wp_steps. split; [by rewrite Hc2|]. rewrite Hn2. by intros ? [= <-].
    + eapply wp_mono; [apply (preserves_wp _ _ _ record_success_net)|cbn|done]. intros _ c2 [= Hc2 Hn]. wp_steps.
      split; [by rewrite Hc2|]. rewrite Hn. exists rq, uri, (lc_net c1), r. by rewrite Hrej.
  - destruct (status_code s); wp_steps; try done;
      (eapply wp_mono; [apply (preserves_wp _ _ _ (reconcile_net None k))|cbn|done]; intros _ c2 [= Hc2 Hn2]; wp_steps;
       split; [by rewrite Hc2|]; rewrite Hn2; by intros ? [= <-]).
Qed.
Lemma answered_after cluster p n0 n1 n' a :
  (∀ rq, inject_cluster_id_into_request cluster (Request_new p) = Ok rq → rtc (net_move rq) n0 n1) →
  answered cluster p n1 n' a → answered cluster p n0 n' a.
Proof.
  intros Hmv (rq & uri & n & r & Hinj & Hrtc & Hrest). exists rq, uri, n, r.
  split_and!; [done| |apply Hrest..]. by etransitivity; [apply Hmv|].
Qed.
Lemma execute_answered (p : Req) (c : client) :
  wp (execute_with_retry rpc rejection p)
    (λ a c', lc_cluster_id c' = lc_cluster_id c ∧ answered (lc_cluster_id c) p (lc_net c) (lc_net c') a)
    (λ _ _, True) c.
Proof.
  unfold execute_with_retry. wp_steps. generalize 0%nat.
  induction (length (known_nodes c) + MAX_KNOWN_NODES)%nat as [|left IH] in c |- *; intros k; cbn [retry_loop];
    [by wp_steps|]. wp_steps.
  eapply wp_mono; [apply attempt_answered|cbn|done]. intros [a|] c1 [Hc1 Ha]; wp_steps; [done|].
  eapply wp_mono; [apply IH|cbn|done]. rewrite Hc1. intros a c2 [-> Ha2]. split; [done|].
  by eapply answered_after.
Qed.
End answers.

Section commands.
Context {F D N : Type} `{FileIO F, SledLaws D, IngressNet N, HeaderText, UuidText}.
Context `{JsonText ClientState, !Message ProposeMutationRequest, !MessageLaws ProposeMutationRequest}.
Abbreviation client := (LactoClient F D N) (only parsing).

Lemma execute_mutation_wal seq p (c : client) m :
  wal_at (lc_wal c) m → U64 seq →
  wp (execute_mutation seq p)
    (λ res c', wal_at (lc_wal c') (if is_terminal (pmr_status res.1) then delete seq m else m))
    (λ e c', match e with
             | LC_Wal _ => wal_torn (lc_wal c') m (delete seq m)
             | _ => wal_at (lc_wal c') m
             end) c.
Proof.
  intros Hm Hseq. unfold execute_mutation. wp_steps.
  eapply wp_mono; [apply (preserves_wp untouched), dispatch_mutation_untouched|cbn|cbn].
  - intros [res t] c1 Hc1. injection Hc1 as Hw _ _ _ _. rewrite <-Hw in Hm. wp_steps.
    destruct (is_terminal (pmr_status res)) eqn:Ht; wp_steps; [|cbn; by rewrite Ht].
    unfold on_wal. wp_steps. eapply wp_mono; [by apply (wal_remove_spec seq _ m)|cbn|done].
    intros _ d' Hd'. wp_steps. by rewrite Ht.
  - intros e c1 Hc1. injection Hc1 as Hw _ _ _ _. rewrite Hw.
    destruct e; try done. split; left; [apply Hm|]. by rewrite (proj2 Hm); apply Hm.
Qed.

Lemma next_sequence_id_value (x : Session F) :
  wp next_sequence_id (λ n _, n = cs_sequence_id (ses_state x) + 1 ∧ U64 n) (λ _ _, True) x.
Proof.
  unfold next_sequence_id. wp_steps. apply wp_lift; [|done]. intros n Hn. unfold seq_add in Hn.
  destruct (newtype_add "SequenceId" (cs_sequence_id (ses_state x)) 1) as [k|] eqn:Hk; [|done].
  injection Hn as ->. apply newtype_add_Ok in Hk as [-> Hu]. unfold session_set. wp_steps.
  unfold wp, session_save. cbn. destruct (save_state _ _) as [[]]; cbn; done.
Qed.

(** What [propose_mutation] leaves in the log, by its result: [m] was pending
    before, [n] and [req] are the new intent. *)
Definition wal_after (m : gmap BinNums.N ProposeMutationRequest) (n : BinNums.N) (req : ProposeMutationRequest)
    (r : result ClientError (ProposeMutationResponse * option TraceId)) (d : D) : Prop :=
  match r with
  | Ok (res, _) => wal_at d (if is_terminal (pmr_status res) then delete n (<[n := req]> m) else <[n := req]> m)
  | Err (LC_State _) => wal_at d m ∨ wal_at d (<[n := req]> m)
  | Err (LC_Wal _) => wal_torn d m (<[n := req]> m) ∨ wal_torn d (<[n := req]> m) (delete n (<[n := req]> m))
  | Err _ => wal_at d (<[n := req]> m)
  end.

(** C18: [propose_mutation] leaves its intent in the log, durably, whenever it
    got past the append and the answer is not COMMITTED or VETOED, so that
    the next start proposes it again; on those two answers the intent and
    nothing else is gone; a failing session file or database leaves the log
    as it was or with the new intent. *)
Theorem wal_tracks_outcome (c : client) m intent r c' :
  wal_at (lc_wal c) m → i32_ok (mi_operation intent) →
  propose_mutation intent c = (r, c') →
  let n := cs_sequence_id (ses_state (lc_session c)) + 1 in
  wal_after m n (ProposeMutationRequest_new (lc_client_id c) n intent) r (lc_wal c').
Proof.
  intros Hm Hi Hrun n. set (req := ProposeMutationRequest_new (lc_client_id c) n intent).
  assert (wp (propose_mutation intent) (λ res c', wal_after m n req (Ok res) (lc_wal c'))
            (λ e c', wal_after m n req (Err e) (lc_wal c')) c) as Hwp; [|by pose proof (wp_run _ _ _ _ _ _ Hwp Hrun); destruct r].
  clear r c' Hrun. unfold propose_mutation, on_session. wp_steps.
  eapply wp_mono; [apply next_sequence_id_value|cbn|cbn; by left].
  intros n' x [-> Hu]. wp_steps. fold n in Hu |- *. unfold on_wal. wp_steps.
  eapply wp_mono; [apply (wal_append_spec n _ _ m); [done|done|by split]|cbn|cbn; by left].
  intros _ d Hd. wp_steps. fold req in Hd |- *.
  eapply wp_mono; [apply (execute_mutation_wal n req _ (<[n := req]> m)); done|by intros []|cbn].
  intros e c1 He. by destruct e; auto.
Qed.
End commands.

(** ** Reaching the leader *)

Lemma default_backoff_defined k :
  (k ≤ 2 * MAX_KNOWN_NODES)%nat → calculate_backoff INITIAL_BACKOFF MAX_BACKOFF k ≠ None.
Proof.
  intros Hk.
  assert (Forall (λ k, calculate_backoff INITIAL_BACKOFF MAX_BACKOFF k ≠ None) (seq 0 21)) as Hall.
  { apply Forall_forall. intros j Hj.
    assert (forallb (λ k, match calculate_backoff INITIAL_BACKOFF MAX_BACKOFF k with None => false | _ => true end)
              (seq 0 21) = true) as Hb by by vm_compute.
    rewrite forallb_forall in Hb. specialize (Hb j Hj). by destruct (calculate_backoff _ _ j). }
  rewrite list.Forall_forall in Hall. apply Hall. apply elem_of_seq. unfold MAX_KNOWN_NODES in Hk. lia.
Qed.

Definition rotated (l : list string) : list string :=
  match l with a :: ((_ :: _) as rest) => rest ++ [a] | _ => l end.

Lemma rotated_in a l : a ∈ rotated l ↔ a ∈ l.
Proof.
  destruct l as [|b [|b' l]]; [done|done|]. cbn [rotated].
  rewrite elem_of_app, list_elem_of_singleton, (elem_of_cons _ _ b). tauto.
Qed.
Lemma rotated_length l : length (rotated l) = length l.
Proof. destruct l as [|b [|b' l]]; [done|done|]. cbn [rotated]. rewrite length_app. cbn. lia. Qed.
Lemma head_in {A : Type} (a : A) l : head l = Some a → a ∈ l.
Proof. destruct l; intros; simplify_eq/=. by left. Qed.

Section reach.
Context {F D N Req Res : Type} `{FileIO F, Sled D, IngressNet N, HeaderText, UuidText, JsonText ClientState}.
Context (rpc : string → Request Req → st N Status (Response Res)) (rejection : Res → bool * string).
Context (leader : string) (addrs : list string) (up : N → Prop) (writable : F → Prop) (fine : Res → Prop).
Abbreviation client := (LactoClient F D N) (only parsing).

(** The cluster while it serves: every address of [addrs] can be connected
    to, the leader answers, and any other node answers, sends no hint or the
    leader's address, or fails with a status that is worth a retry; [fine] is
    what holds of every answer that is not a redirection. *)
Record cluster_serves : Prop := {
  cs_leader : leader ∈ addrs ∧ leader ≠ "";
  cs_connect a n : a ∈ addrs → up n →
    endpoint_valid (node_uri a) = true ∧ wp (net_connect (node_uri a)) (λ _, up) (λ _ _, False) n;
  cs_answer rq n : up n →
    wp (rpc (node_uri leader) rq) (λ r n', up n' ∧ (rejection (rs_payload r)).1 = false) (λ _ _, False) n;
  cs_other a rq n : a ∈ addrs → up n →
    wp (rpc (node_uri a) rq)
      (λ r n', up n' ∧ ((rejection (rs_payload r)).1 = true →
                        (rejection (rs_payload r)).2 = "" ∨ (rejection (rs_payload r)).2 = leader))
      (λ s n', up n' ∧ status_code s ≠ C_InvalidArgument ∧ status_code s ≠ C_FailedPrecondition) n;
  cs_fine a rq n : up n →
    wp (rpc (node_uri a) rq) (λ r _, (rejection (rs_payload r)).1 = false → fine (rs_payload r))
      (λ _ _, True) n;
}.
(** A node that is the leader or knows it. *)
Definition informed (a : string) : Prop :=
  ∀ rq n, up n →
    wp (rpc (node_uri a) rq)
      (λ r n', up n' ∧ ((rejection (rs_payload r)).1 = true → (rejection (rs_payload r)).2 = leader))
      (λ _ _, False) n.
(** The session file can be written. *)
Record files_work : Prop := {
  fw_json (s : ClientState) : is_ok (json_to_string s) = true;
  fw_write f data : writable f → wp (file_write data) (λ _, writable) (λ _ _, False) f;
}.
Context (Hserves : cluster_serves) (Hfiles : files_work).

Lemma session_save_works (x : Session F) :
  writable (ses_file x) →
  wp session_save (λ _ x', ses_state x' = ses_state x ∧ writable (ses_file x')) (λ _ _, False) x.
Proof.
  intros Hw. unfold wp, session_save, save_state, mbind, st_bind, st_lift, st_map_err.
  pose proof (fw_json Hfiles (ses_state x)) as Hj.
  destruct (json_to_string (ses_state x)) as [data|]; [|done]. cbn.
  pose proof (fw_write Hfiles _ data Hw) as Hf. unfold wp in Hf.
  by destruct (file_write data (ses_file x)) as [[[]|] f].
Qed.
Lemma session_set_works l (x : Session F) :
  writable (ses_file x) →
  wp (_ ← session_set (with_nodes l); session_save)
    (λ _ x', cs_known_nodes (ses_state x') = l ∧ writable (ses_file x')) (λ _ _, False) x.
Proof.
  intros Hw. unfold session_set. wp_steps.
  eapply wp_mono; [by apply session_save_works|cbn|done]. by intros _ x' [-> ?].
Qed.
Lemma record_success_works a (x : Session F) :
  writable (ses_file x) →
  wp (record_success a)
    (λ _ x', writable (ses_file x') ∧ head (cs_known_nodes (ses_state x')) = Some a ∧
             (length (cs_known_nodes (ses_state x')) ≤ MAX_KNOWN_NODES ∨
              length (cs_known_nodes (ses_state x')) ≤ length (cs_known_nodes (ses_state x)))%nat ∧
             ∀ b, b ∈ cs_known_nodes (ses_state x') → b = a ∨ b ∈ cs_known_nodes (ses_state x))
    (λ _ _, False) x.
Proof.
  intros Hw. unfold record_success. wp_steps. case_decide as Hh; [wp_steps; by auto|].
  eapply wp_mono; [by apply session_set_works|cbn|done]. intros _ x' [-> Hw']. split; [done|].
  split; [done|]. split; [left|intros b Hb; exact (take_front_in _ _ _ Hb)].
  exact (firstn_le_length MAX_KNOWN_NODES (move_to_front a _)).
Qed.
Lemma rotate_nodes_works (x : Session F) :
  writable (ses_file x) →
  wp rotate_nodes
    (λ _ x', writable (ses_file x') ∧
             cs_known_nodes (ses_state x') = rotated (cs_known_nodes (ses_state x))) (λ _ _, False) x.
Proof.
  intros Hw. unfold rotate_nodes. wp_steps. unfold rotated.
  destruct (cs_known_nodes (ses_state x)) as [|a [|b l]] eqn:Hl; [by wp_steps; rewrite Hl..|].
  eapply wp_mono; [by apply session_set_works|cbn|done]. by intros _ x' [-> ?].
Qed.

(** A client that can work: its session file is writable, it knows nodes of
    the cluster, its channel, if open, leads to the first of them. *)
Record ready (c : client) : Prop := {
  rd_up : up (lc_net c);
  rd_writable : writable (ses_file (lc_session c));
  rd_nodes a : a ∈ known_nodes c → a ∈ addrs;
  rd_length : (length (known_nodes c) ≤ MAX_KNOWN_NODES)%nat;
  rd_informed : ∃ a, a ∈ known_nodes c ∧ informed a;
  rd_channel uri : lc_client c = Some uri → ∃ a, head (known_nodes c) = Some a ∧ uri = node_uri a;
  rd_header : is_Some (header_parse (lc_cluster_id c));
  rd_backoff : lc_initial_backoff c = INITIAL_BACKOFF ∧ lc_max_backoff c = MAX_BACKOFF;
}.

Lemma get_or_connect_works (c : client) a :
  ready c → head (known_nodes c) = Some a →
  wp get_or_connect (λ uri c', uri = node_uri a ∧ ready c' ∧ lc_session c' = lc_session c)
    (λ _ _, False) c.
Proof.
  intros Hc Ha. unfold get_or_connect. wp_steps.
  destruct (lc_client c) as [uri|] eqn:Hcl.
  { wp_steps. destruct (rd_channel c Hc uri Hcl) as (b & Hb & ->). by simplify_eq. }
  wp_steps. apply wp_lift; [|by rewrite Ha]. intros b Hb. rewrite Ha in Hb. injection Hb as <-.
  assert (a ∈ addrs) as Hin by (by apply (rd_nodes c Hc), head_in).
  destruct (cs_connect Hserves a (lc_net c) Hin (rd_up c Hc)) as [Hv Hn]. rewrite Hv. cbn [negb]. wp_steps.
  eapply wp_mono; [exact Hn|cbn|done]. intros _ n Hn'. wp_steps. split; [done|]. split; [|done].
  destruct Hc. split; cbn; try done. intros uri [= <-]. by exists a.
Qed.

Lemma leader_informed : informed leader.
Proof.
  intros rq n Hn. eapply wp_mono; [apply (cs_answer Hserves rq n Hn)|cbn|done].
  intros r n' [Hn' Hr]. split; [done|]. by rewrite Hr.
Qed.
Lemma handle_redirection_works (c : client) :
  ready c →
  wp (handle_redirection leader) (λ _ c', ready c' ∧ head (known_nodes c') = Some leader) (λ _ _, False) c.
Proof.
  intros Hc. unfold handle_redirection, on_session, record_hint. wp_steps.
  eapply wp_mono; [apply record_success_works, (rd_writable c Hc)|cbn|done].
  intros _ x (Hw & Hh & Hlen & Hin). wp_steps. split; [|done]. destruct Hc. split; try done.
  - intros b [->|Hb]%Hin; [apply (cs_leader Hserves)|auto].
  - destruct Hlen as [Hlen|Hlen]; [done|]. by etransitivity.
  - exists leader. split; [by apply head_in|apply leader_informed].
Qed.

Lemma rotate_and_back_off_works (c : client) k :
  ready c → (k ≤ 2 * MAX_KNOWN_NODES)%nat →
  wp (rotate_and_back_off k) (λ _ c', ready c' ∧ known_nodes c' = rotated (known_nodes c))
    (λ _ _, False) c.
Proof.
  intros Hc Hk. unfold rotate_and_back_off, handle_transport_error, on_session. wp_steps.
  eapply wp_mono; [apply rotate_nodes_works, (rd_writable c Hc)|cbn|done].
  intros _ x (Hw & Hn). wp_steps. cbn. destruct (rd_backoff c Hc) as [-> ->].
  pose proof (default_backoff_defined k Hk). destruct (calculate_backoff _ _ _); [|done]. wp_steps.
  assert (known_nodes (set_client None (set_session x c)) = rotated (known_nodes c)) as Hk' by done.
  split; [|done]. destruct Hc. split; try done; rewrite Hk'; [|by rewrite rotated_length|].
  - intros a. rewrite rotated_in. auto.
  - destruct rd_informed0 as (a & Ha & Hi). exists a. by rewrite rotated_in.
Qed.

(** How far the leader is: [1] when it is the first address, [2 + i] when an
    informed node is the [i]-th. *)
Definition within (j : nat) (c : client) : Prop :=
  (head (known_nodes c) = Some leader ∧ (1 ≤ j)%nat) ∨
  ∃ l1 a l2, known_nodes c = l1 ++ a :: l2 ∧ informed a ∧ (length l1 + 2 ≤ j)%nat.

Definition progress (j : nat) (o : option (Res * option TraceId)) (c : client) : Prop :=
  ready c ∧ match o with Some (res, _) => (rejection res).1 = false ∧ fine res | None => within j c end.

Lemma answered_works (c : client) a res t j :
  ready c → head (known_nodes c) = Some a → (rejection res).1 = false → fine res →
  wp (_ ← record_current_node_success; mret (Some (res, t))) (progress j) (λ _ _, False) c.
Proof.
  intros Hc Ha Hres Hfine. unfold record_current_node_success, on_session. wp_steps. rewrite Ha.
  unfold record_success. wp_steps. change (cs_known_nodes _) with (known_nodes c).
  rewrite Ha, decide_True by done. wp_steps. split; [|done]. by destruct Hc, c.
Qed.
Lemma redirected_works (c : client) k j :
  ready c → (1 ≤ j)%nat →
  wp (_ ← reconcile_routing_failure (Some leader) k; mret None) (progress j) (λ _ _, False) c.
Proof.
  intros Hc Hj. unfold reconcile_routing_failure. rewrite decide_False by apply (cs_leader Hserves).
  wp_steps. eapply wp_mono; [by apply handle_redirection_works|cbn|done].
  intros _ c2 [Hc2 Hh]. wp_steps. split; [done|]. by left.
Qed.
Lemma rotated_works (c : client) a l1 b l2 k j :
  ready c → known_nodes c = a :: l1 ++ b :: l2 → informed b → (length l1 + 2 ≤ j)%nat →
  (k ≤ 2 * MAX_KNOWN_NODES)%nat →
  wp (_ ← rotate_and_back_off k; mret None) (progress j) (λ _ _, False) c.
Proof.
  intros Hc Hl Hb Hj Hk. wp_steps. eapply wp_mono; [by apply rotate_and_back_off_works|cbn|done].
  intros _ c2 [Hc2 Hr]. wp_steps. split; [done|]. right. exists l1, b, (l2 ++ [a]).
  split; [|done]. rewrite Hr, Hl. unfold rotated. by destruct l1; rewrite <-?app_assoc.
Qed.

(** Where a client stands that has not reached the leader. *)
Lemma within_cases j (c : client) :
  within (S j) c → ∃ a, head (known_nodes c) = Some a ∧
    (a = leader ∨ (informed a ∧ (1 ≤ j)%nat) ∨
     ∃ l1 b l2, known_nodes c = a :: l1 ++ b :: l2 ∧ informed b ∧ (length l1 + 2 ≤ j)%nat).
Proof.
  intros [[Hh _]|([|a l1] & b & l2 & Hl & Hinf & Hlen)]; [by exists leader; auto| |]; rewrite Hl; cbn in *.
  - exists b. split; [done|]. right; left. split; [done|lia].
  - exists a. split; [done|]. right; right. exists l1, b, l2. repeat split; [done|lia].
Qed.

Lemma attempt_progress (p : Req) (c : client) j k :
  ready c → within (S j) c → (k ≤ 2 * MAX_KNOWN_NODES)%nat →
  wp (attempt rpc rejection p k) (progress j) (λ _ _, False) c.
Proof.
  intros Hc Hj Hk. unfold attempt. wp_steps.
  destruct (within_cases j c Hj) as (a & Ha & Hcase).
  eapply wp_mono; [by apply get_or_connect_works|cbn|done]. intros uri c1 (-> & Hc1 & Hs1). wp_steps.
  apply wp_lift; unfold inject_cluster_id_into_request, parse_header;
    destruct (rd_header c1 Hc1) as [v Hv]; rewrite Hv; [|done]. cbn [ok_or mbind result_bind map_err].
  intros rq _. wp_steps.
  assert (known_nodes c1 = known_nodes c) as Hk1 by (unfold known_nodes; by rewrite Hs1).
  assert (∀ n', up n' → ready (set_net n' c1)) as Hnet by (intros n' Hn'; destruct Hc1; by split).
  rewrite <-Hk1 in Ha.
  assert (a ∈ addrs) as Hin by (by apply (rd_nodes c1 Hc1), head_in).
  destruct Hcase as [->|[[Hinf Hj1]|(l1 & b & l2 & Hl & Hinf & Hlen)]].
  - eapply wp_mono; [apply wp_and; [apply (cs_answer Hserves rq _ (rd_up c1 Hc1))|apply (cs_fine Hserves _ _ _ (rd_up c1 Hc1))]|cbn|by intros ? ? []].
    intros r n' [[Hn' Hr] Hf]. destruct (rejection (rs_payload r)) as [[] h] eqn:Hrej; [done|].
    eapply answered_works; [by apply Hnet|exact Ha|by rewrite Hrej|by apply Hf].
  - eapply wp_mono; [apply wp_and; [apply (Hinf rq _ (rd_up c1 Hc1))|apply (cs_fine Hserves _ _ _ (rd_up c1 Hc1))]|cbn|by intros ? ? []].
    intros r n' [[Hn' Hr] Hf]. destruct (rejection (rs_payload r)) as [[] h] eqn:Hrej; cbn in Hr.
    + rewrite Hr by done. apply redirected_works; [by apply Hnet|lia].
    + eapply answered_works; [by apply Hnet|exact Ha|by rewrite Hrej|by apply Hf].
  - rewrite <-Hk1 in Hl. eapply wp_mono; [apply wp_and; [apply (cs_other Hserves a rq _ Hin (rd_up c1 Hc1))|apply (cs_fine Hserves _ _ _ (rd_up c1 Hc1))]|cbn|cbn].
    + intros r n' [[Hn' Hr] Hf]. destruct (rejection (rs_payload r)) as [[] h] eqn:Hrej; cbn in Hr.
      * destruct (Hr eq_refl) as [-> | ->]; [|apply redirected_works; [by apply Hnet|lia]].
        unfold reconcile_routing_failure. rewrite decide_True by done.
        eapply rotated_works; [by apply Hnet|exact Hl|done..].
      * eapply answered_works; [by apply Hnet|exact Ha|by rewrite Hrej|by apply Hf].
    + intros s n' [(Hn' & Hs2 & Hs3) _]. unfold reconcile_routing_failure.
      destruct (status_code s); try done; (eapply rotated_works; [by apply Hnet|exact Hl|done..]).
Qed.

Lemma retry_loop_reaches (p : Req) (c : client) j k left :
  ready c → within j c → (j ≤ left)%nat → (k + left ≤ 2 * MAX_KNOWN_NODES)%nat →
  wp (retry_loop rpc rejection p k left)
    (λ res c', ready c' ∧ (rejection res.1).1 = false ∧ fine res.1) (λ _ _, False) c.
Proof.
  revert j k c. induction left as [|left IH]; intros j k c Hc Hj Hle Hk; cbn [retry_loop].
  { destruct Hj as [[_ ?]|(? & ? & ? & _ & _ & ?)]; lia. }
  destruct j as [|j]; [destruct Hj as [[_ ?]|(? & ? & ? & _ & _ & ?)]; lia|].
  wp_steps. eapply wp_mono; [apply (attempt_progress p c j); [done|done|lia]|cbn|done].
  intros [[res t]|] c' [Hc' Hp]; [by wp_steps|]. apply (IH j); [done|done|lia|lia].
Qed.

Lemma execute_with_retry_reaches (p : Req) (c : client) :
  ready c →
  wp (execute_with_retry rpc rejection p) (λ res c', ready c' ∧ (rejection res.1).1 = false ∧ fine res.1) (λ _ _, False) c.
Proof.
  intros Hc. destruct (rd_informed c Hc) as (a & Hin & Ha).
  apply list_elem_of_In, in_split in Hin as (l1 & l2 & Hl). pose proof (rd_length c Hc) as Hlen.
  unfold execute_with_retry. wp_steps. apply (retry_loop_reaches p c (length l1 + 2)).
  - done.
  - right. by exists l1, a, l2.
  - rewrite Hl, length_app. cbn. unfold MAX_KNOWN_NODES. lia.
  - lia.
Qed.

(** C16: While the cluster serves, a client that knows at most ten nodes, one of
    them the leader or a node that points to it, gets an answer that is not a
    redirection, with its retries unspent, and can go on. *)
Theorem client_reaches_leader (p : Req) (c : client) :
  ready c →
  ∃ res t c', execute_with_retry rpc rejection p c = (Ok (res, t), c') ∧
    (rejection res).1 = false ∧ fine res ∧ ready c'.
Proof.
  intros Hc. pose proof (execute_with_retry_reaches p c Hc) as Hwp.
  unfold wp in Hwp. destruct (execute_with_retry rpc rejection p c) as [[[res t]|e] c']; [|done].
  exists res, t, c'. tauto.
Qed.

(** ** The first address *)

(** Command after command. *)
Fixpoint commands (ps : list Req) (c : client) : list (result ClientError (Res * option TraceId)) * client :=
  match ps with
  | [] => ([], c)
  | p :: ps' =>
      let '(r, c1) := execute_with_retry rpc rejection p c in
      let '(rs, c2) := commands ps' c1 in (r :: rs, c2)
  end.
End reach.

Section stuck.
Context {F D N Req Res : Type} `{FileIO F, Sled D, IngressNet N, HeaderText, UuidText, JsonText ClientState}.
Context (rpc : string → Request Req → st N Status (Response Res)) (rejection : Res → bool * string).
Context (down : N → Prop).
Abbreviation client := (LactoClient F D N) (only parsing).

Lemma first_attempt_fails (p : Req) (c : client) a :
  lc_client c = None → head (known_nodes c) = Some a → down (lc_net c) →
  (∀ n, down n → wp (net_connect (node_uri a)) (λ _ _, False) (λ _, down) n) →
  ∃ msg n, execute_with_retry rpc rejection p c = (Err (LC_Transport msg), set_net n c) ∧ down n.
Proof.
  intros Hcl Ha Hdown Hconn. unfold execute_with_retry.
  assert (length (known_nodes c) + MAX_KNOWN_NODES = S (length (known_nodes c) + 9))%nat as Hs
    by (unfold MAX_KNOWN_NODES; lia).
  unfold st_get, mbind, st_bind. rewrite Hs. cbn [retry_loop].
  unfold attempt, get_or_connect, st_get, st_lift, st_fail, mbind, st_bind. rewrite Hcl, Ha. cbn [ok_or].
  destruct (negb (endpoint_valid (node_uri a))).
  { exists "Invalid node address format", (lc_net c). split; [by destruct c|done]. }
  unfold st_map_err, st_zoom. pose proof (Hconn _ Hdown) as Hn. unfold wp in Hn.
  destruct (net_connect (node_uri a) (lc_net c)) as [[[]|e] n]; [done|].
  by exists "Failed to connect", n.
Qed.

(** A client whose first address cannot be connected to fails every command
    with a transport error, for as long as that lasts, and leaves its list of
    addresses as it is: it never turns to the other nodes that it knows. *)
Theorem unreachable_head_sticks (ps : list Req) (c : client) a :
  lc_client c = None → head (known_nodes c) = Some a → down (lc_net c) →
  (∀ n, down n → wp (net_connect (node_uri a)) (λ _ _, False) (λ _, down) n) →
  let '(rs, c') := commands rpc rejection ps c in
  Forall (λ r, ∃ msg, r = Err (LC_Transport msg)) rs ∧ known_nodes c' = known_nodes c.
Proof.
  intros Hcl Ha Hdown Hconn. revert c Hcl Ha Hdown. induction ps as [|p ps IH]; intros c Hcl Ha Hdown; cbn.
  { by split. }
  destruct (first_attempt_fails p c a Hcl Ha Hdown Hconn) as (msg & n & -> & Hn).
  specialize (IH (set_net n c) Hcl Ha Hn). destruct (commands rpc rejection ps (set_net n c)) as [rs c'].
  destruct IH as [IH1 IH2]. split; [constructor; eauto|done].
Qed.
End stuck.

(** ** Startup recovery *)

Section recovery.
Context {F D N : Type} `{FileIO F, SledLaws D, IngressNet N, HeaderText, UuidText, JsonText ClientState}.
Context `{!Message ProposeMutationRequest, !MessageLaws ProposeMutationRequest}.
Context (leader : string) (addrs : list string) (up : N → Prop) (writable : F → Prop).
Context (fine : ProposeMutationResponse → Prop).
Definition terminal_answer (r : ProposeMutationResponse) : Prop := is_terminal (pmr_status r) = true.
Abbreviation serving :=
  (cluster_serves (N:=N) net_propose mutation_rejection leader addrs up fine) (only parsing).
Context (Hserves : serving) (Hfiles : files_work writable).
Abbreviation client := (LactoClient F D N) (only parsing).
Abbreviation client_ready := (ready (D:=D) net_propose mutation_rejection leader addrs up writable) (only parsing).
Abbreviation pending := (gmap BinNums.N ProposeMutationRequest) (only parsing).
Abbreviation proposed := (answered (N:=N) net_propose mutation_rejection) (only parsing).

(** The log after the answer [res] to the intent [seq]. *)
Definition settled (seq : SequenceId) (res : ProposeMutationResponse) (m : pending) : pending :=
  if is_terminal (pmr_status res) then delete seq m else m.
(** The intents were proposed one after the other, each as it was logged and
    once the answer to the one before it was there; each got an answer that is
    [fine], and left the log on a terminal answer only. *)
Inductive replayed (cluster : string) : list intent_entry → N → pending → N → pending → Prop :=
| replayed_nil n m : replayed cluster [] n m n m
| replayed_cons seq p l n m n1 res tid n' m' :
    proposed cluster p n n1 (res, tid) → fine res →
    replayed cluster l n1 (settled seq res m) n' m' →
    replayed cluster ((seq, p) :: l) n m n' m'.
(** The replay was stopped by the database, which did not take the removal of
    an intent whose answer was terminal. *)
Definition stopped (cluster : string) (l : list intent_entry) (n : N) (m : pending) (n' : N) (d : D) : Prop :=
  ∃ l1 seq p l2 n1 m1 res tid, l = l1 ++ (seq, p) :: l2 ∧
    replayed cluster l1 n m n1 m1 ∧ proposed cluster p n1 n' (res, tid) ∧ terminal_answer res ∧
    wal_torn d m1 (delete seq m1).

Lemma ready_wal (c : client) d : client_ready c → client_ready (set_wal d c).
Proof. intros Hc. by destruct Hc. Qed.

Lemma execute_mutation_settles seq p (c : client) m :
  client_ready c → wal_at (lc_wal c) m → U64 seq →
  wp (execute_mutation seq p)
    (λ a c', client_ready c' ∧ lc_cluster_id c' = lc_cluster_id c ∧ fine a.1 ∧
             proposed (lc_cluster_id c) p (lc_net c) (lc_net c') a ∧ wal_at (lc_wal c') (settled seq a.1 m))
    (λ e c', (∃ w, e = LC_Wal w) ∧ ∃ a, proposed (lc_cluster_id c) p (lc_net c) (lc_net c') a ∧
             terminal_answer a.1 ∧ wal_torn (lc_wal c') m (delete seq m)) c.
Proof.
  intros Hc Hm Hseq. unfold execute_mutation. wp_steps.
  eapply wp_mono; [apply wp_and; [apply wp_and; [by apply (execute_with_retry_reaches _ _ leader addrs up writable fine)
                                 |apply (preserves_wp untouched), dispatch_mutation_untouched]|apply execute_answered]
                  |cbn|by intros ? ? [[]]].
  intros [res t] c1 [[(Hc1 & _ & Hf) Hu] [Hid Ha]]. injection Hu as Hw _ _ _ _. rewrite <-Hw in Hm. wp_steps.
  unfold settled. cbn [fst]. destruct (is_terminal (pmr_status res)) eqn:Ht; wp_steps; [|cbn; by rewrite Ht].
  unfold on_wal. wp_steps. eapply wp_mono; [by apply (wal_remove_spec seq _ m)|cbn|cbn].
  - intros _ d Hd. wp_steps. rewrite Ht. split; [by apply ready_wal|done].
  - intros w d Hd. split; [by exists w|]. by exists (res, t).
Qed.

Lemma repropose_all_replays l (c : client) m :
  client_ready c → wal_at (lc_wal c) m → (∀ n r, (n, r) ∈ l → U64 n) →
  wp (repropose_all l)
    (λ _ c', client_ready c' ∧ ∃ m', replayed (lc_cluster_id c) l (lc_net c) m (lc_net c') m' ∧ wal_at (lc_wal c') m')
    (λ e c', (∃ w, e = LC_Wal w) ∧ stopped (lc_cluster_id c) l (lc_net c) m (lc_net c') (lc_wal c')) c.
Proof.
  revert c m. induction l as [|[n r] l IH]; intros c m Hc Hm Hu; cbn [repropose_all].
  { wp_steps. split; [done|]. exists m. by split; [constructor|]. }
  wp_steps. unfold repropose_mutation.
  eapply wp_mono; [apply (execute_mutation_settles n r c m); [done|done|apply (Hu n r); by left]|cbn|cbn].
  - intros [res tid] c1 (Hc1 & Hid & Hf & Ha & Hm1).
    eapply wp_mono; [apply (IH c1 (settled n res m) Hc1 Hm1)|cbn|cbn]; rewrite ?Hid.
    + intros n' r' Hin. apply (Hu n' r'). by right.
    + intros _ c2 (Hc2 & m' & Hr & Hm'). split; [done|]. exists m'. split; [|done]. by econstructor.
    + intros e c2 [He (l1 & seq & p & l2 & n1 & m1 & res' & tid' & -> & Hr & Hrest)]. split; [done|].
      exists ((n, r) :: l1), seq, p, l2, n1, m1, res', tid'. split; [done|]. split; [by econstructor|done].
  - intros e c1 [He [[res tid] (Ha & Ht & Htorn)]]. split; [done|].
    exists [], n, r, l, (lc_net c), m, res, tid. split; [done|]. split; [constructor|done].
Qed.

(** A replay whose answers are all terminal leaves nothing. *)
Lemma replayed_empties cluster l n m n' m' :
  (∀ res, fine res → terminal_answer res) → replayed cluster l n m n' m' →
  (∀ k, is_Some (m !! k) → k ∈ l.*1) → m' = ∅.
Proof.
  intros Hterm Hr. induction Hr as [n m|seq p l n m n1 res tid n' m' Ha Hf Hr IH]; intros Hcov.
  - apply map_empty. intros k. apply eq_None_not_Some. intros Hk%Hcov. cbn in Hk. set_solver.
  - apply IH. unfold settled. rewrite (Hterm res Hf).
    intros k [r [Hne Hk]%lookup_delete_Some].
    pose proof (Hcov k (ex_intro _ r Hk)) as Hin. by apply elem_of_cons in Hin as [Heq|Hin].
Qed.

(** C19: While the cluster serves, the startup recovery that returns has
    proposed every pending intent again, in the order of the sequence numbers,
    each as it was logged, has got an answer to each before it went on, and
    leaves in the log exactly the intents whose answer was not COMMITTED or
    VETOED: none when the cluster answers nothing else.  Only the database of
    the log can stop it: before anything is proposed, when the log cannot be
    read, or at the removal of an intent that has just got its terminal
    answer, all intents before it having been settled and no other touched. *)
Theorem recovery_drains_log (c c' : client) m r :
  client_ready c → wal_at (lc_wal c) m → recover_pending_intents c = (r, c') →
  match r with
  | Ok _ => ∃ l m', l ≡ₚ map_to_list m ∧ StronglySorted seq_le l ∧
      replayed (lc_cluster_id c) l (lc_net c) m (lc_net c') m' ∧ wal_at (lc_wal c') m' ∧ client_ready c' ∧
      ((∀ res, fine res → terminal_answer res) → m' = ∅)
  | Err e => ∃ w, e = LC_Wal w ∧
      (wal_recover (lc_wal c) = Err w ∧ lc_wal c' = lc_wal c ∧ lc_net c' = lc_net c ∨
       ∃ l, l ≡ₚ map_to_list m ∧ StronglySorted seq_le l ∧
            stopped (lc_cluster_id c) l (lc_net c) m (lc_net c') (lc_wal c'))
  end.
Proof.
  intros Hc Hm Hrun. unfold recover_pending_intents, on_wal, st_map_err, st_zoom, st_reads, mbind, st_bind in Hrun.
  destruct (wal_recover (lc_wal c)) as [l|w] eqn:Hl; [|by injection Hrun as <- <-; exists w; auto].
  assert (set_wal (lc_wal c) c = c) as Heta by by destruct c. rewrite Heta in Hrun.
  destruct (wal_recover_Ok _ m l (proj1 Hm) Hl) as [Hp Hsort].
  assert (∀ n p, (n, p) ∈ l → U64 n) as Hu.
  { intros n p Hin. rewrite Hp in Hin. apply elem_of_map_to_list in Hin.
    by apply (proj1 (proj1 Hm)) in Hin as [? _]. }
  pose proof (wp_run _ _ _ _ _ _ (repropose_all_replays l c m Hc Hm Hu) Hrun) as Hr.
  destruct r as [[]|e].
  - destruct Hr as (Hc' & m' & Hrep & Hm'). exists l, m'. split_and!; [done..|]. intros Hterm.
    apply (replayed_empties _ _ _ _ _ _ Hterm Hrep). intros k [p Hk]. apply list_elem_of_fmap.
    exists (k, p). split; [done|]. rewrite Hp. by apply elem_of_map_to_list.
  - destruct Hr as [[w ->] Hstop]. exists w. split; [done|]. right. by exists l.
Qed.
End recovery.

(** ** An intent that the cluster refuses *)

Section refused.
Context {F D N : Type} `{FileIO F, SledLaws D, IngressNet N, HeaderText, UuidText, JsonText ClientState}.
Context `{!Message ProposeMutationRequest, !MessageLaws ProposeMutationRequest}.
Context (up : N → Prop) (bad : ProposeMutationRequest).
Abbreviation client := (LactoClient F D N) (only parsing).

(** Every node can be connected to, and refuses [bad] as invalid. *)
Record refuses : Prop := {
  rf_connect uri n : up n → endpoint_valid uri = true ∧ wp (net_connect uri) (λ _, up) (λ _ _, False) n;
  rf_invalid uri rq n : up n → rq_payload rq = bad →
    wp (net_propose uri rq) (λ _ _, False)
      (λ s n', up n' ∧ (status_code s = C_InvalidArgument ∨ status_code s = C_FailedPrecondition)) n;
}.
Context (Hrefuses : refuses).

Lemma refused_attempt (c : client) k :
  up (lc_net c) → known_nodes c ≠ [] → is_Some (header_parse (lc_cluster_id c)) →
  wp (attempt net_propose mutation_rejection bad k) (λ _ _, False)
    (λ e c', (∃ msg, e = LC_Rejected msg) ∧ up (lc_net c') ∧ lc_session c' = lc_session c) c.
Proof.
  intros Hup Hne [v Hv]. unfold attempt. wp_steps.
  assert (wp get_or_connect (λ _ c', up (lc_net c') ∧ lc_session c' = lc_session c ∧ lc_cluster_id c' = lc_cluster_id c)
            (λ _ _, False) c) as Hget.
  { unfold get_or_connect. wp_steps. destruct (lc_client c); [by wp_steps|]. wp_steps.
    destruct (known_nodes c) as [|a l] eqn:Hl; [done|]. apply wp_lift; [|done]. intros a' [= <-].
    destruct (rf_connect Hrefuses (node_uri a) _ Hup) as [-> Hn]. cbn [negb]. wp_steps.
    eapply wp_mono; [exact Hn|cbn|done]. intros _ n Hn'. by wp_steps. }
  eapply wp_mono; [exact Hget|cbn|done]. intros uri c1 (Hup1 & Hs1 & Hid). wp_steps.
  apply wp_lift; unfold inject_cluster_id_into_request, parse_header; rewrite Hid, Hv; [|done].
  cbn [ok_or mbind result_bind map_err]. intros rq [= <-]. wp_steps.
  eapply wp_mono; [by apply (rf_invalid Hrefuses)|done|cbn]. intros s n [Hn Hcode].
  destruct Hcode as [-> | ->]; wp_steps; eauto.
Qed.

Lemma refused_dispatch (c : client) :
  up (lc_net c) → known_nodes c ≠ [] → is_Some (header_parse (lc_cluster_id c)) →
  wp (dispatch_mutation bad) (λ _ _, False)
    (λ e c', (∃ msg, e = LC_Rejected msg) ∧ up (lc_net c') ∧ lc_session c' = lc_session c) c.
Proof.
  intros Hup Hne Hh. unfold dispatch_mutation, execute_with_retry. wp_steps.
  assert (length (known_nodes c) + MAX_KNOWN_NODES = S (length (known_nodes c) + 9))%nat as ->
    by (unfold MAX_KNOWN_NODES; lia).
  cbn [retry_loop]. wp_steps. eapply wp_mono; [by apply refused_attempt|done|done].
Qed.

(** An intent that the cluster refuses as invalid is not terminal for the
    log: while it is the oldest pending one, every start of the client fails
    in its recovery and leaves the log as it was. *)
Theorem refused_intent_blocks_startup (c : client) m n l :
  up (lc_net c) → known_nodes c ≠ [] → is_Some (header_parse (lc_cluster_id c)) →
  wal_at (lc_wal c) m → wal_recover (lc_wal c) = Ok ((n, bad) :: l) →
  ∃ msg c', recover_pending_intents c = (Err (LC_Rejected msg), c') ∧
            wal_at (lc_wal c') m ∧ up (lc_net c') ∧ known_nodes c' = known_nodes c.
Proof.
  intros Hup Hne Hh Hm Hr.
  assert (wp recover_pending_intents (λ _ _, False)
    (λ e c', ((∃ msg, e = LC_Rejected msg) ∧ up (lc_net c') ∧ lc_session c' = lc_session c) ∧
             untouched c' = untouched c) c) as Hwp.
  { unfold recover_pending_intents, on_wal. wp_steps. unfold wp, st_reads. rewrite Hr.
    change (wp (repropose_all ((n, bad) :: l)) (λ _ _, False)
      (λ e c', ((∃ msg, e = LC_Rejected msg) ∧ up (lc_net c') ∧ lc_session c' = lc_session c) ∧
               untouched c' = untouched c) (set_wal (lc_wal c) c)).
    assert (set_wal (lc_wal c) c = c) as -> by by destruct c.
    cbn [repropose_all]. unfold repropose_mutation, execute_mutation. wp_steps.
    eapply wp_mono; [apply wp_and; [by apply refused_dispatch|apply (preserves_wp untouched), dispatch_mutation_untouched]
                    |by intros ? ? []|done]. }
  unfold wp in Hwp. destruct (recover_pending_intents c) as [[[]|e] c']; [done|].
  destruct Hwp as [((msg & ->) & Hup' & Hs) Hu]. injection Hu as Hw _ _ _ _.
  exists msg, c'. rewrite Hw. unfold known_nodes. by rewrite Hs.
Qed.
End refused.
