(* ===== verification/ClientExample.v ===== *)
(** A concrete client: a file in memory, a text for the session, a small
    cluster, and the client's theorems at it. *)
From Stdlib Require Import Ascii.
From S2P Require Import Prelude Machine Types Wire Consensus Sled Fsm Text Units Rpc ClientDisk Client Gateway ClientProps.
Import PlainHeaders.
#[export] Instance any_uuid : UuidText := λ s, if (String.length s =? 36)%nat then Some s else None.

(** ** A file *)

Record mem_file : Type := mkFile { mf_content : option string; mf_works : bool }.
#[export] Instance mem_file_io : FileIO mem_file := {|
  file_exists f := bool_decide (is_Some (mf_content f));
  file_read f := ok_or io_error (mf_content f);
  file_write data f :=
    if mf_works f then (Ok tt, mkFile (Some data) true) else (Err io_error, mkFile (Some "") false) |}.
#[export] Program Instance mem_file_laws : FileIOLaws mem_file := {| file_content := mf_content |}.
Next Obligation. done. Qed.
Next Obligation. intros [[c|] w] s; cbn; intros; simplify_eq/=; done. Qed.
Next Obligation.
  intros data [c []]; cbn; unfold wp; cbn; [done|]. right. by exists "", data.
Qed.

(** ** A text: the bits of the state's code and a full stop *)

Fixpoint write_bits (l : bytes) : chars :=
  match l with [] => ["."%char] | b :: l' => (if b =? 0 then "0"%char else "1"%char) :: write_bits l' end.
Fixpoint read_bits (l : chars) : option bytes :=
  match l with
  | [] => None
  | c :: l' =>
      if Ascii.eqb c "." then match l' with [] => Some [] | _ => None end
      else (if Ascii.eqb c "0" then cons 0 <$> read_bits l' else cons 1 <$> read_bits l')
  end.
Lemma read_write_bits p : read_bits (write_bits (BitCodec.pos_bits p)) = Some (BitCodec.pos_bits p).
Proof. induction p as [p IH|p IH|]; cbn; [by rewrite IH..|done]. Qed.
Lemma read_bits_cut l p q : write_bits l = p ++ q → q ≠ [] → read_bits p = None.
Proof.
  revert p. induction l as [|b l IH]; intros [|c p] Hpq Hq; try done; cbn in *.
  - injection Hpq as <- Hpq. by destruct p, q.
  - injection Hpq as <- Hpq. specialize (IH p Hpq Hq). rewrite IH. by destruct (b =? 0).
Qed.

#[export] Instance ClientState_countable : Countable ClientState.
Proof.
  by refine (inj_countable' (λ s, (cs_cluster_id s, cs_client_id s, cs_sequence_id s, cs_known_nodes s))
    (λ '(a, b, n, l), mkClientState a b n l) _); intros [].
Defined.
#[export] Instance text_json : JsonText ClientState := {|
  json_to_string s := Ok (of_chars (write_bits (BitCodec.pos_bits (encode s))));
  json_from_str t :=
    ok_or json_error (l ← read_bits (to_chars t); decode (BitCodec.bits_pos l)) |}.

Lemma to_chars_app (p q : string) : to_chars (p +:+ q)%string = to_chars p ++ to_chars q.
Proof. induction p as [|c p IH]; [done|]. exact (f_equal (cons c) IH). Qed.
#[export] Instance text_json_laws `{JsonOk ClientState} : JsonTextLaws ClientState.
Proof.
  split.
  - intros s t _ [= <-]. cbn [json_from_str text_json]. rewrite to_of_chars, read_write_bits. cbn.
    by rewrite BitCodec.bits_pos_bits, decode_encode.
  - intros s p q [= Hpq] Hq. cbn [json_from_str text_json].
    rewrite (read_bits_cut (BitCodec.pos_bits (encode s)) (to_chars p) (to_chars q)); [done| |].
    + by rewrite <-to_chars_app, <-Hpq, to_of_chars.
    + intros H0. apply Hq. rewrite <-(of_to_chars q), H0. done.
Qed.

(** ** A cluster

    The leader commits, the nodes of [nt_hints] name it, the others have no
    leader to name; the nodes of [nt_down] cannot be connected to.  A strict
    cluster finds every intent invalid. *)
Record net : Type := mkNet {
  nt_leader : string; nt_hints : list string; nt_down : list string; nt_strict : bool }.
Definition redirect (n : net) (uri : string) : string :=
  if bool_decide (uri ∈ nt_hints n) then nt_leader n else "".
#[export] Instance small_net : IngressNet net := {|
  endpoint_valid _ := true;
  net_connect uri n := if bool_decide (uri ∈ nt_down n) then (Err tt, n) else (Ok tt, n);
  net_propose uri _ n :=
    if nt_strict n then (Err (mkStatus C_InvalidArgument "Invalid quantity format"), n) else
    (Ok (Response_new
      (if bool_decide (uri = node_uri (nt_leader n))
       then mkProposeMutationResponse (MutationStatus_as_i32 MS_Committed) 1 "" ""
       else mkProposeMutationResponse (MutationStatus_as_i32 MS_Rejected) 0 (redirect n uri) "not the leader")), n);
  net_query uri _ n := (Ok (Response_new (mkQueryStateResponse [] 0 (QueryStatus_as_i32 QS_Rejected) "" "")), n) |}.

#[export] Instance MutationIntent_countable : Countable MutationIntent.
Proof.
  by refine (inj_countable'
    (λ i, (mi_item_key i, mi_quantity i, mi_unit i, mi_category i, mi_operation i))
    (λ '(a, b, c, d, e), mkMutationIntent a b c d e) _); intros [].
Defined.
#[export] Instance ProposeMutationRequest_eq_dec : EqDecision ProposeMutationRequest.
Proof. solve_decision. Defined.
#[export] Instance ProposeMutationRequest_countable : Countable ProposeMutationRequest.
Proof.
  by refine (inj_countable' (λ r, (pmq_client_id r, pmq_sequence_id r, pmq_intent r))
    (λ '(a, b, c), mkProposeMutationRequest a b c) _); intros [].
Defined.
#[export] Instance request_codec : Message ProposeMutationRequest := BitCodec.codec _.
#[export] Instance request_laws : MessageLaws ProposeMutationRequest := BitCodec.codec_laws _.

(** ** The session *)

Abbreviation any := (λ _ : string, True) (only parsing).
Definition new_file : mem_file := mkFile None true.
Definition start : session_event := EvStart "alpha" ["n1"; "n2"] "client".
Definition a_life : list session_event := [start; EvNext; EvCrash; start; EvRotate; EvNext].
Definition blank : Life (F:=mem_file) := mkLife None new_file.

Lemma sequence_ids_never_reused_witness :
  issued a_life blank = [1; 2] ∧ StronglySorted N.lt (issued a_life blank).
Proof.
  split; [by vm_compute|].
  apply (sequence_ids_never_reused any any); [by repeat constructor|reflexivity].
Defined.

Definition last_state : ClientState := mkClientState "alpha" "client" 2 ["n2"; "n1"].
Lemma session_well_formed_witness :
  life_state (life_after a_life blank) = Some last_state ∧
  (1 ≤ length (cs_known_nodes last_state) ≤ MAX_KNOWN_NODES)%nat ∧ NoDup (cs_known_nodes last_state).
Proof.
  assert (life_state (life_after a_life blank) = Some last_state) as Hs by by vm_compute.
  split; [exact Hs|].
  assert (Forall (event_ok any any (seeds:=any_nodes)) a_life) as Hok by by repeat constructor.
  pose proof (session_well_formed any any a_life new_file last_state Hok) as Hwf.
  destruct (Hwf eq_refl Hs) as (_ & _ & _ & Hlen & Hd).
  split; [exact Hlen|]. apply Hd.
  repeat (apply list.Forall_cons; split; [try done|]); [..|by apply list.Forall_nil];
    apply (bool_decide_unpack _); by vm_compute.
Defined.

Definition one_record (n : N) : SessionRecord :=
  SessionRecord_new "client" n MS_Committed n "" Timestamp_default.
(** The process hands out [2] and dies before the append. *)
Definition lost_life : Life := life_after [start; EvNext; EvNext; EvCrash] blank.
Lemma lost_intent_blocks_session_witness :
  issued [start; EvNext] lost_life = [3] ∧
  enforce_sequence_firewall (Ok (Some (one_record 1))) 3
  = Ok (Some (rejection MS_Rejected 0 "Secure Clinical: Sequence Continuity Violation")).
Proof.
  assert (issued [start; EvNext] lost_life = [3]) as Hi by by vm_compute.
  split; [exact Hi|].
  apply (lost_intent_blocks_session any any [start; EvNext] lost_life 2 (one_record 1) 3).
  - by repeat constructor.
  - left. left. exists (mkClientState "alpha" "client" 2 ["n1"; "n2"]).
    split; [eexists; split; [reflexivity|by vm_compute]|]. split; [by repeat split|done].
  - done.
  - done.
  - rewrite Hi. by left.
Defined.

(** ** The intent log *)

Definition milk : MutationIntent := MutationIntent_new "milk" (Some "1") None None OT_Add.
Definition request (n : N) : ProposeMutationRequest := ProposeMutationRequest_new "client" n milk.
Lemma wal_at_empty : wal_at MemSled.empty ∅.
Proof. split; [apply wal_holds_empty|done]. Qed.

Definition appended : MemSled.db := (wal_append 7 (request 7) MemSled.empty).2.
Lemma appended_run : wal_append 7 (request 7) MemSled.empty = (Ok tt, appended).
Proof. unfold appended. apply run_returns. by vm_compute. Qed.
Definition scanned : list (bytes * bytes) := [(to_be_bytes 7, encode_to_vec (request 7))].
Lemma appended_intent_recovered_witness :
  ∃ l, wal_recover (MemSled.reopen appended) = Ok l ∧ l ≡ₚ map_to_list (<[7 := request 7]> ∅) ∧
       StronglySorted seq_le l.
Proof.
  apply (appended_intent_recovered 7 (request 7) MemSled.empty appended (MemSled.reopen appended) ∅ scanned).
  - apply wal_at_empty.
  - done.
  - by repeat split.
  - exact appended_run.
  - apply MemSled.reopen_reopened.
  - by vm_compute.
Defined.

(** ** A cluster of three nodes *)

Abbreviation client := (LactoClient mem_file MemSled.db net) (only parsing).
Definition session_of (nodes : list string) : Session mem_file :=
  mkSession (mkClientState "alpha" "client" 6 nodes) (mkFile None true).
Definition client_of (nodes : list string) (d : MemSled.db) (n : net) : client :=
  mkLactoClient "alpha" "client" INITIAL_BACKOFF MAX_BACKOFF (session_of nodes) d None n.
Definition three : net := mkNet "n3" ["http://n2"] [] false.

Definition traveller : client := client_of ["n1"; "n2"; "n3"] MemSled.empty three.
Definition milk_committed : client := (propose_mutation milk traveller).2.
Lemma wal_tracks_outcome_witness :
  (propose_mutation milk traveller).1
  = Ok (mkProposeMutationResponse 1 1 "" "", None) ∧
  known_nodes milk_committed = ["n3"; "n2"; "n1"] ∧
  wal_after ∅ 7 (request 7) (Ok (mkProposeMutationResponse 1 1 "" "", None)) (lc_wal milk_committed).
Proof.
  assert (propose_mutation milk traveller
          = (Ok (mkProposeMutationResponse 1 1 "" "", None), milk_committed)) as Hrun.
  { unfold milk_committed. apply run_result. vm_compute. reflexivity. }
  split; [by rewrite Hrun|]. split; [by vm_compute|].
  apply (wal_tracks_outcome traveller ∅ milk _ milk_committed); [exact wal_at_empty| |exact Hrun].
  unfold i32_ok. cbn. lia.
Defined.

(** The cluster serves: [n3] leads, [n2] names it, [n1] does not. *)
Definition up : net → Prop := λ n, n = three.
Definition works : mem_file → Prop := λ f, mf_works f = true.
Lemma three_serves :
  cluster_serves (N:=net) net_propose mutation_rejection "n3" ["n1"; "n2"; "n3"] up terminal_answer.
Proof.
  split.
  - split; [by do 2 right; left|done].
  - intros a n _ ->. split; [done|]. by cbv.
  - intros rq n ->. by cbv.
  - intros a rq n _ ->. unfold wp. cbn. split; [done|]. case_bool_decide; [done|]. intros _. cbn.
    unfold redirect. case_bool_decide; auto.
  - intros a rq n ->. unfold wp, terminal_answer. cbn. by case_bool_decide.
Qed.
Lemma mem_files_work : files_work works.
Proof. split; [done|]. intros [c []] data Hf; done. Qed.
Lemma n2_informed : informed (N:=net) net_propose mutation_rejection "n3" up "n2".
Proof. intros rq n ->. by cbv. Qed.
Lemma ready_of d :
  ready (D:=MemSled.db) net_propose mutation_rejection "n3" ["n1"; "n2"; "n3"] up works
    (client_of ["n1"; "n2"; "n3"] d three).
Proof.
  split; try done.
  - cbn. unfold MAX_KNOWN_NODES. lia.
  - exists "n2". split; [by right; left|apply n2_informed].
Qed.

Lemma client_reaches_leader_witness :
  ∃ res t c', dispatch_mutation (request 7) traveller = (Ok (res, t), c') ∧
    (mutation_rejection res).1 = false ∧ terminal_answer res ∧
    ready net_propose mutation_rejection "n3" ["n1"; "n2"; "n3"] up works c'.
Proof.
  apply (client_reaches_leader net_propose mutation_rejection "n3" ["n1"; "n2"; "n3"] up works
           terminal_answer three_serves mem_files_work (request 7) traveller).
  apply ready_of.
Defined.

(** [n1] is down, [n3] would answer. *)
Definition half_down : net := mkNet "n3" [] ["http://n1"] false.
Definition stranded : client := client_of ["n1"; "n3"] MemSled.empty half_down.
Lemma unreachable_head_sticks_witness :
  let '(rs, c') := commands net_propose mutation_rejection [request 7; request 8] stranded in
  Forall (λ r, ∃ msg, r = Err (LC_Transport msg)) rs ∧ known_nodes c' = known_nodes stranded.
Proof.
  apply (unreachable_head_sticks net_propose mutation_rejection (λ n, n = half_down)
           [request 7; request 8] stranded "n1"); [reflexivity..|].
  intros n ->. by cbv.
Defined.

(** Two intents are pending when the client starts. *)
Definition two_pending : MemSled.db := (wal_append 8 (request 8) appended).2.
Lemma two_pending_run : wal_append 8 (request 8) appended = (Ok tt, two_pending).
Proof. unfold two_pending. apply run_returns. by vm_compute. Qed.
Lemma request_ok n : U64 n → wire_ok (request n).
Proof. intros Hn. split; [done|]. unfold i32_ok. cbn. lia. Qed.
Lemma wal_at_two : wal_at two_pending (<[8 := request 8]> (<[7 := request 7]> ∅)).
Proof.
  assert (wal_at appended (<[7 := request 7]> ∅)) as H7.
  { exact (wp_run _ _ _ _ _ _ (wal_append_spec 7 _ _ _ wal_at_empty ltac:(done) (request_ok 7 ltac:(done)))
             appended_run). }
  exact (wp_run _ _ _ _ _ _ (wal_append_spec 8 _ _ _ H7 ltac:(done) (request_ok 8 ltac:(done))) two_pending_run).
Qed.
Definition starting : client := client_of ["n1"; "n2"; "n3"] two_pending three.
Definition recovered_client : client := (recover_pending_intents starting).2.
Lemma recovery_drains_log_witness :
  (recover_pending_intents starting).1 = Ok tt ∧ wal_at (lc_wal recovered_client) ∅ ∧
  ∃ l, l ≡ₚ map_to_list (<[8 := request 8]> (<[7 := request 7]> ∅) : gmap N ProposeMutationRequest) ∧
       replayed terminal_answer "alpha" l three (<[8 := request 8]> (<[7 := request 7]> ∅)) (lc_net recovered_client) ∅.
Proof.
  assert ((recover_pending_intents starting).1 = Ok tt) as Hr by (vm_compute; reflexivity).
  split; [exact Hr|].
  destruct (recovery_drains_log "n3" ["n1"; "n2"; "n3"] up works terminal_answer three_serves mem_files_work
    starting recovered_client _ (Ok tt) (ready_of two_pending) wal_at_two (run_result _ _ _ Hr))
    as (l & m' & Hp & _ & Hrep & Hm' & _ & Hempty).
  pose proof (Hempty (λ _ H, H)) as He. rewrite He in Hrep, Hm'. split; [exact Hm'|]. exists l. split; [exact Hp|exact Hrep].
Defined.

Definition strict : net := mkNet "n1" [] [] true.
Definition refused_start : client := client_of ["n1"; "n2"] two_pending strict.
Lemma refused_intent_blocks_startup_witness :
  ∃ msg c', recover_pending_intents refused_start = (Err (LC_Rejected msg), c') ∧
    wal_at (lc_wal c') (<[8 := request 8]> (<[7 := request 7]> ∅)) ∧
    lc_net c' = strict ∧ known_nodes c' = known_nodes refused_start.
Proof.
  apply (refused_intent_blocks_startup (λ n, n = strict) (request 7)) with (n:=7) (l:=[(8, request 8)]).
  - split; [intros uri n ->; split; [done|by cbv]|]. intros uri rq n -> _. unfold wp. cbn. auto.
  - done.
  - done.
  - done.
  - exact wal_at_two.
  - by vm_compute.
Defined.
