(* ===== verification/Shell.v ===== *)
(** The imperative shell around the logical node (raft-engine/src/shell.rs)
    and the orchestration that runs under it: the applier, compaction,
    snapshot installation, the read probe (orchestration.rs,
    consensus/lifecycle.rs) and the cold-boot replay (recovery.rs).

    Every block under the write lock is one operation of the shell: it reads
    the progress, runs, and publishes what has changed when the guard drops. *)
From S2P Require Import Prelude Machine Types Wire Storage Timing Node Engine Consensus Sled Fsm.

(** ** The state machine's interface (common/src/raft_api.rs) *)

Class StateMachine (F : Type) : Type := {
  sm_error : Type;
  sm_into : sm_error → NodeError;
  sm_last_applied : F → result sm_error LogIndex;
  sm_apply : LogIndex → bytes → st F sm_error unit;
  sm_snapshot : st F sm_error bytes;
  sm_install_snapshot : LogIndex → bytes → st F sm_error unit;
}.

(** [impl StateMachine for LactoStore]. *)
#[global] Instance LactoStore_StateMachine {D} `{Sled D, UuidText}
    `{Message GroceryItem, Message SessionRecord, Message CommittedMutation, Message Timestamp, Message SnapshotData} :
    StateMachine (LactoStore D) := {|
  sm_error := FsmError;
  sm_into := node_error_of_fsm;
  sm_last_applied f := (Lacto.last_applied_index f).1;
  sm_apply := Lacto.apply;
  sm_snapshot := Lacto.snapshot;
  sm_install_snapshot := Lacto.install_snapshot;
|}.

(** ** The shell *)

(** [fsm_lock] serialises the operations on [sh_fsm]: each runs alone. *)
Record ConsensusShell (S G F : Type) : Type := mkShell {
  sh_node : LogicalNode S G;
  sh_progress : ConsensusProgress;   (** the watch channel's value *)
  sh_freeze_depth : N;               (** an [AtomicU32] *)
  sh_in_flight : gset N;
  sh_fsm : F;
}.
Arguments mkShell {S G F} _ _ _ _ _.
Arguments sh_node {S G F} _.
Arguments sh_progress {S G F} _.
Arguments sh_freeze_depth {S G F} _.
Arguments sh_in_flight {S G F} _.
Arguments sh_fsm {S G F} _.

Definition u32_add (a b : N) : N := (a + b) mod 2 ^ 32.
Definition u32_sub (a b : N) : N := (a + 2 ^ 32 - b) mod 2 ^ 32.

Inductive FreezeInvariantError : Type := freeze_error (msg : string).

(** The parameters of an accepted InstallSnapshot request. *)
Record SnapshotParams : Type := mkSnapshotParams {
  sp_leader_id : NodeId;
  sp_term : Term;
  sp_last_included_index : LogIndex;
  sp_last_included_term : Term;
  sp_data : bytes;
}.

Section shell.
Context {S G F : Type} `{LogStorage S} `{RngExt G} `{StateMachine F}.
Abbreviation shell := (ConsensusShell S G F) (only parsing).
Abbreviation eng := (st (LogicalNode S G) halt) (only parsing).
Abbreviation sh := (st (ConsensusShell S G F) halt) (only parsing).

Definition sh_set_node (n : LogicalNode S G) (c : shell) : shell :=
  mkShell n (sh_progress c) (sh_freeze_depth c) (sh_in_flight c) (sh_fsm c).
Definition sh_set_progress (p : ConsensusProgress) (c : shell) : shell :=
  mkShell (sh_node c) p (sh_freeze_depth c) (sh_in_flight c) (sh_fsm c).
Definition sh_set_depth (d : N) (c : shell) : shell :=
  mkShell (sh_node c) (sh_progress c) d (sh_in_flight c) (sh_fsm c).
Definition sh_set_in_flight (x : gset N) (c : shell) : shell :=
  mkShell (sh_node c) (sh_progress c) (sh_freeze_depth c) x (sh_fsm c).
Definition sh_set_fsm (f : F) (c : shell) : shell :=
  mkShell (sh_node c) (sh_progress c) (sh_freeze_depth c) (sh_in_flight c) f.

Definition on_node {A} (m : eng A) : sh A := st_zoom sh_node sh_set_node m.

(** *** Freezing *)

Definition freeze (c : shell) : result FreezeInvariantError unit * shell :=
  let prev := sh_freeze_depth c in
  let c' := sh_set_depth (u32_add prev 1) c in
  if prev =? u32_max then
    (Err (freeze_error "fsm_freeze_depth overflow (u32::MAX concurrent freezes)"),
     sh_set_depth (u32_sub (sh_freeze_depth c') 1) c')
  else (Ok tt, c').

Definition thaw (c : shell) : result FreezeInvariantError unit * shell :=
  let prev := sh_freeze_depth c in
  let c' := sh_set_depth (u32_sub prev 1) c in
  if prev =? 0 then
    (Err (freeze_error "fsm_freeze_depth underflow (thaw without matching freeze)"),
     sh_set_depth (u32_add (sh_freeze_depth c') 1) c')
  else (Ok tt, c').

Definition is_frozen (c : shell) : bool := 0 <? sh_freeze_depth c.

(** [if let Err(e) = state.freeze() { guard.apply_fatal(..) }]. *)
Definition or_poison (r : result FreezeInvariantError unit) : sh unit :=
  match r with
  | Ok _ => mret tt
  | Err (freeze_error msg) => on_node (apply_fatal (Protocol msg))
  end.
Definition freeze_or_fatal : sh unit := λ c, let '(r, c') := freeze c in or_poison r c'.
Definition thaw_or_fatal : sh unit := λ c, let '(r, c') := thaw c in or_poison r c'.

(** *** Snapshot permits *)

Definition try_acquire_snapshot_permit (peer_id : NodeId) (c : shell) : bool * shell :=
  if decide (peer_id ∈ sh_in_flight c) then (false, c)
  else (true, sh_set_in_flight ({[peer_id]} ∪ sh_in_flight c) c).
(** [impl Drop for SnapshotPermit]. *)
Definition release_snapshot_permit (peer_id : NodeId) (c : shell) : shell :=
  sh_set_in_flight (sh_in_flight c ∖ {[peer_id]}) c.

(** *** The mutation guard *)

Definition poisoned_progress (before : ConsensusProgress) : ConsensusProgress :=
  mkProgress (cp_term before) NR_Poisoned (cp_last_log_index before) (cp_last_committed before)
    (cp_last_applied before) None (cp_confirmed_read_epoch before).

(** [impl Drop for MutationGuard]. *)
Definition guard_drop (before : ConsensusProgress) (panicking : bool) (c : shell) : shell :=
  let c1 := if panicking then sh_set_node (set_state RS_Poisoned (sh_node c)) c else c in
  let after :=
    if panicking then poisoned_progress before
    else if is_poisoned (sh_node c) then poisoned_progress before
    else default before (ok (try_consensus_progress (sh_node c))) in
  if decide (before = after) then c1 else sh_set_progress after c1.

(** A block under [write().await]; a halt is a panic under the guard. *)
Definition locked {A} (m : sh A) : sh A := λ c,
  match consensus_progress (sh_node c) with
  | (Err h, n) => (Err h, sh_set_node n c)
  | (Ok before, n) =>
      let '(r, c') := m (sh_set_node n c) in
      (r, guard_drop before (negb (is_ok r)) c')
  end.

Definition shell_new (n : LogicalNode S G) (f : F) : result halt shell :=
  match consensus_progress n with
  | (Ok p, n') => Ok (mkShell n' p 0 ∅ f)
  | (Err h, _) => Err h
  end.

(** ** The applier (orchestration.rs) *)

Definition on_fsm {A} (m : st F sm_error A) : sh (result sm_error A) :=
  st_zoom sh_fsm sh_set_fsm (st_try m).
Definition fatal {A} (e : NodeError) : sh A := locked (on_node (apply_fatal e)).

(** One turn of the loop of [apply_committed]: the entry is read and applied
    outside the lock, the horizon advances under it. *)
Definition apply_one (next_idx : LogIndex) : sh LogIndex :=
  r ← st_gets (λ c, read_entries next_idx next_idx (ln_store (sh_node c)));
  match r with
  | Err e => fatal (node_error_of_storage e)
  | Ok [] => fatal (Protocol "Committed entry missing from log storage")
  | Ok (entry :: _) =>
      res ← on_fsm (sm_apply next_idx (le_data entry));
      locked
        (match res with
         | Ok _ =>
             h ← on_node (eng_advance_horizon_after_snapshot next_idx);
             match h with
             | Ok _ => on_node eng_last_committed
             | Err e => on_node (apply_fatal e)
             end
         | Err _ => on_node (apply_fatal (Protocol "Apply failure"))
         end)
  end.

(** The loop; each turn needs one unit of fuel. *)
Fixpoint apply_loop (fuel : nat) (applied committed : LogIndex) : sh unit :=
  match fuel with
  | O => mret tt
  | Datatypes.S fuel' =>
      if applied <? committed then
        match index_add applied 1 with
        | Err e => fatal (Arithmetic e)
        | Ok next_idx =>
            committed' ← apply_one next_idx;
            apply_loop fuel' next_idx committed'
        end
      else mret tt
  end.

(** With nothing else committed meanwhile, the distance is the number of
    turns. *)
Definition apply_committed : sh unit :=
  applied ← on_node eng_last_applied;
  committed ← on_node eng_last_committed;
  _ ← (if committed <? applied then fatal (Protocol "Causal Divergence: applied > committed")
       else mret tt);
  apply_loop (N.to_nat (committed - applied)) applied committed.

(** [spawn_background_applier]: one progress signal. *)
Definition applier_signal : sh unit :=
  frozen ← st_gets is_frozen;
  if frozen : bool then mret tt else apply_committed.

(** ** Compaction (consensus/lifecycle.rs) *)

Definition compaction_metadata (index : LogIndex) (term : Term) : sh unit :=
  locked (on_node (eng_save_snapshot_metadata index term)).
(** The truncation, in the background and without the lock. *)
Definition compaction_truncate (index : LogIndex) : sh (result LogStorageError unit) :=
  st_zoom (λ c, ln_store (sh_node c)) (λ s c, sh_set_node (set_store s (sh_node c)) c)
    (st_try (truncate_log_front index)).
Definition compaction_finish (truncation_res : result LogStorageError unit) : sh unit :=
  locked
    (_ ← thaw_or_fatal;
     match truncation_res with
     | Ok _ => mret tt
     | Err _ => on_node (apply_fatal (Protocol "Log truncation failure"))
     end).
(** [initiate_log_compaction]. *)
Definition log_compaction (index : LogIndex) (term : Term) : sh unit :=
  _ ← compaction_metadata index term;
  r ← compaction_truncate index;
  _ ← compaction_finish r;
  apply_committed.

(** ** InstallSnapshot (orchestration.rs) *)

(** Phase 1: the answer, and whether the background task is spawned. *)
Definition install_phase1 (params : SnapshotParams) : sh (Term * bool) :=
  locked
    (res ← on_node (handle_install_snapshot (sp_leader_id params) (sp_term params)
                      (sp_last_included_index params));
     match ir_action res with
     | SA_Rejected | SA_Stale => mret (ir_term res, false)
     | SA_Accepted =>
         _ ← freeze_or_fatal;
         mret (ir_term res, true)
     end).

(** Phase 3, after the state machine's restoration has returned [res]. *)
Definition install_phase3 (index : LogIndex) (term : Term) (res : result sm_error unit) : sh unit :=
  locked
    (_ ← thaw_or_fatal;
     match res with
     | Ok _ =>
         _ ← on_node (eng_save_snapshot_metadata index term);
         h ← on_node (eng_advance_horizon_after_snapshot index);
         match h with
         | Ok _ => mret tt
         | Err e => on_node (apply_fatal e)
         end
     | Err _ => on_node (apply_fatal (Protocol "Background snapshot restoration failure"))
     end).

(** Phases 2 and 3: the background task.  The state machine is restored under
    its own lock; other tasks do [between] to the shell until the write lock is
    taken for the last phase. *)
Definition install_background (between : shell → shell) (params : SnapshotParams) : sh unit :=
  res ← on_fsm (sm_install_snapshot (sp_last_included_index params) (sp_data params));
  _ ← st_modify between;
  install_phase3 (sp_last_included_index params) (sp_last_included_term params) res.

Definition shell_install_snapshot (between : shell → shell) (params : SnapshotParams) : sh Term :=
  '(term, spawned) ← install_phase1 params;
  _ ← (if spawned : bool then install_background between params else mret tt);
  mret term.

(** ** The read probe (orchestration.rs) *)

(** The locked block of [verify_leadership_quorum]: the target epoch, whether
    a round is already in flight, and the round's parameters. *)
Definition verify_prepare : sh (result ConsensusError (N * bool * ReplicationRoundParams)) :=
  locked
    (n ← st_gets sh_node;
     if is_poisoned n then mret (Err CE_Poisoned)
     else
       node_id ← on_node eng_node_id;
       last_committed ← on_node eng_last_committed;
       match ln_state n with
       | RS_Leader m =>
           match node_read current_term (ln_store n) with
           | Err _ => mret (Err (CE_Internal "Leadership verification failed"))
           | Ok term =>
               let current := ld_current_read_epoch (rn_state m) in
               let '(target, l') := prepare_read_probe (rn_node_id m) (rn_state m) in
               _ ← on_node (st_modify (set_state (RS_Leader (set_node_state l' m))));
               mret (Ok (target, target =? current, mkRoundParams term node_id last_committed))
           end
       | _ => mret (Err CE_NotLeader)
       end).

(** The condition of the waiting loop; [None] is to wait on. *)
Definition probe_check (progress : ConsensusProgress) (term : Term) (target_epoch : N) :
    option (result ConsensusError unit) :=
  if negb (bool_decide (cp_role progress = NR_Leader)) || negb (cp_term progress =? term)
  then Some (Err CE_NotLeader)
  else if target_epoch <=? cp_confirmed_read_epoch progress then Some (Ok tt)
  else None.

(** ** Cold boot (recovery.rs) *)

(** A panic before the node exists, or an error returned. *)
Inductive RecoveryFailure : Type :=
| BootPanic (msg : string)
| BootError (e : NodeError).

(** [replay_committed_entries]; each turn needs one unit of fuel. *)
Fixpoint replay (s : S) (fuel : nat) (current last_committed : LogIndex) : st F RecoveryFailure unit :=
  match fuel with
  | O => mret tt
  | Datatypes.S fuel' =>
      if current <? last_committed then
        apply_idx ← st_lift (map_err (λ e, BootError (Arithmetic e)) (index_add current 1));
        o ← st_lift (map_err (λ e, BootError (node_error_of_storage e)) (read_entry apply_idx s));
        match o with
        | None => st_fail (BootPanic "Committed entry missing from log during Cold-Boot.")
        | Some e =>
            _ ← st_map_err (λ e, BootError (sm_into e)) (sm_apply apply_idx (le_data e));
            replay s fuel' apply_idx last_committed
        end
      else mret tt
  end.

(** [RecoveryManager::recover]. *)
Definition recover (s : S) : st F RecoveryFailure unit :=
  last_applied ← st_reads (λ f, map_err (λ e, BootError (sm_into e)) (sm_last_applied f));
  committed ← st_lift (map_err (λ e, BootError (node_error_of_storage e)) (last_committed s));
  if committed <? last_applied then st_fail (BootPanic "FSM index is ahead of last_committed")
  else if last_applied =? committed then mret tt
  else replay s (N.to_nat (committed - last_applied)) last_applied committed.
End shell.
