(* ===== verification/Service.v ===== *)
(** The RPC boundary of the engine: the consensus service
    (raft-engine/src/service/consensus.rs), the senders of
    consensus/election.rs and consensus/replication.rs, the peer manager
    (peer.rs) and the local handle (service/handle.rs).  A spawned or awaited
    block under the lock is one operation of the shell. *)
From S2P Require Import Prelude Machine Types Wire Storage Timing Node Engine Consensus Sled Fsm Text Rpc Shell Gateway.

(** ** The parameters of a request *)

Definition parse_peer (s : string) : result Status NodeId :=
  map_err (λ _, mkStatus C_InvalidArgument "Invalid NodeId") (NodeId_from_str s).

Record VoteParams : Type := mkVoteParams {
  vp_candidate_id : NodeId; vp_term : Term; vp_last_log_index : LogIndex; vp_last_log_term : Term }.
Definition VoteParams_try_from_proto (req : RequestVoteRequest) : result Status VoteParams :=
  candidate_id ← parse_peer (rvq_candidate_id req);
  Ok (mkVoteParams candidate_id (rvq_term req) (rvq_last_log_index req) (rvq_last_log_term req)).

Record PreVoteParams : Type := mkPreVoteParams {
  pp_candidate_id : NodeId; pp_term : Term; pp_last_log_index : LogIndex; pp_last_log_term : Term }.
Definition PreVoteParams_try_from_proto (req : PreVoteRequest) : result Status PreVoteParams :=
  candidate_id ← parse_peer (pvq_candidate_id req);
  Ok (mkPreVoteParams candidate_id (pvq_term req) (pvq_last_log_index req) (pvq_last_log_term req)).

Record AppendParams : Type := mkAppendParams {
  ap_leader_id : NodeId; ap_term : Term; ap_prev_log_index : LogIndex; ap_prev_log_term : Term;
  ap_entries : list LogEntry; ap_leader_commit : LogIndex }.
Definition AppendParams_try_from_proto (req : AppendEntriesRequest) : result Status AppendParams :=
  leader_id ← parse_peer (aeq_leader_id req);
  Ok (mkAppendParams leader_id (aeq_term req) (aeq_prev_log_index req) (aeq_prev_log_term req)
        (aeq_entries req) (aeq_leader_commit req)).

Definition SnapshotParams_try_from_proto (req : InstallSnapshotRequest) : result Status SnapshotParams :=
  leader_id ← parse_peer (isq_leader_id req);
  Ok (mkSnapshotParams leader_id (isq_term req) (isq_last_included_index req)
        (isq_last_included_term req) (isq_data req)).

(** ** The dispatcher

    [cd_same_identity] is [Arc::ptr_eq] of the dispatcher's identity and the
    engine's. *)
Record ConsensusDispatcher : Type := mkDispatcher { cd_same_identity : bool }.

Section service.
Context {S G F : Type} `{LogStorage S} `{RngExt G} `{StateMachine F} `{HeaderText, UuidText}.
Abbreviation shell := (ConsensusShell S G F) (only parsing).
Abbreviation eng := (st (LogicalNode S G) halt) (only parsing).
Abbreviation sh := (st (ConsensusShell S G F) halt) (only parsing).

Definition verify_node_integrity (d : ConsensusDispatcher) : eng unit :=
  _ ← delegate_field (λ R, rn_identity);
  if cd_same_identity d then mret tt
  else apply_fatal (Integrity "Identity divergence detected!").

Definition execute_vote_logic (d : ConsensusDispatcher) (p : VoteParams) : sh RequestVoteResult :=
  locked (on_node (
    _ ← verify_node_integrity d;
    handle_request_vote (vp_candidate_id p) (vp_term p) (vp_last_log_index p) (vp_last_log_term p))).
Definition execute_append_logic (d : ConsensusDispatcher) (p : AppendParams) : sh AppendEntriesResult :=
  locked (on_node (
    _ ← verify_node_integrity d;
    handle_append_entries (ap_leader_id p) (ap_term p) (ap_prev_log_index p) (ap_prev_log_term p)
      (ap_entries p) (ap_leader_commit p))).
Definition execute_pre_vote_logic (d : ConsensusDispatcher) (p : PreVoteParams) : sh RequestVoteResult :=
  locked (on_node (
    _ ← verify_node_integrity d;
    handle_pre_vote (pp_candidate_id p) (pp_term p) (pp_last_log_index p) (pp_last_log_term p))).

(** Extraction, execution and construction, as every handler does them. *)
Definition serve {Req P R Res} (parse : Req → result Status P) (run : P → sh R) (build : R → Res)
    (request : Request Req) : sh (result Status (Response Res)) :=
  match require_trace_id request with
  | Err e => mret (Err e)
  | Ok trace_id =>
      match parse (rq_payload request) with
      | Err e => mret (Err e)
      | Ok params =>
          r ← run params;
          mret (inject_trace_id_into_response trace_id (Response_new (build r)))
      end
  end.

Definition service_request_vote (d : ConsensusDispatcher) :
    Request RequestVoteRequest → sh (result Status (Response RequestVoteResponse)) :=
  serve VoteParams_try_from_proto (execute_vote_logic d)
    (λ r, RequestVoteResponse_new (vr_term r) (vr_vote_granted r)).
Definition service_pre_vote (d : ConsensusDispatcher) :
    Request PreVoteRequest → sh (result Status (Response PreVoteResponse)) :=
  serve PreVoteParams_try_from_proto (execute_pre_vote_logic d)
    (λ r, PreVoteResponse_new (vr_term r) (vr_vote_granted r)).
Definition service_append_entries (d : ConsensusDispatcher) :
    Request AppendEntriesRequest → sh (result Status (Response AppendEntriesResponse)) :=
  serve AppendParams_try_from_proto (execute_append_logic d)
    (λ r, AppendEntriesResponse_new (ar_term r) (ar_success r) (ar_conflict_index r)).
(** No identity check here; the background task is part of the operation. *)
Definition service_install_snapshot (between : shell → shell) :
    Request InstallSnapshotRequest → sh (result Status (Response InstallSnapshotResponse)) :=
  serve SnapshotParams_try_from_proto (shell_install_snapshot between) InstallSnapshotResponse_new.

(** A request as it arrives at the node [j]: the interceptors of the server,
    then the handler.  [fresh] is unused by the propagating interceptor. *)
Definition arrive {Req Res} (j : NodeIdentity) (fresh : TraceId)
    (handler : Request Req → sh (result Status (Response Res))) (r : Request Req) :
    sh (result Status (Response Res)) :=
  match consensus_inbound j fresh (received r) with
  | Err e => mret (Err e)
  | Ok r' => handler r'
  end.

End service.

(** ** The peer manager (peer.rs)

    The addresses; the channels behind them connect lazily. *)
Inductive PeerError : Type := PE_NodeNotFound (id : NodeId) | PE_InvalidUri (id : NodeId) (uri : string).
Record PeerManager : Type := mkPeerManager {
  pm_identity : NodeIdentity;
  pm_peers : gmap NodeId string;
}.
(** The first address that is no URI stops the construction. *)
Definition PeerManager_try_new (uri_ok : string → bool) (identity : NodeIdentity)
    (peer_map : gmap NodeId string) : result PeerError PeerManager :=
  match list_find (λ p, uri_ok p.2 = false) (map_to_list peer_map) with
  | Some (_, (id, uri)) => Err (PE_InvalidUri id uri)
  | None => Ok (mkPeerManager identity peer_map)
  end.
Definition get_address (pm : PeerManager) (node_id : NodeId) : result PeerError string :=
  ok_or (PE_NodeNotFound node_id) (pm_peers pm !! node_id).
Definition peer_ids (pm : PeerManager) : list NodeId := (map_to_list (pm_peers pm)).*1.
(** [impl From<PeerError> for Status], on the lookup of [get_client]. *)
Definition get_client (pm : PeerManager) (node_id : NodeId) : result Status unit :=
  match pm_peers pm !! node_id with
  | Some _ => Ok tt
  | None => Err (mkStatus C_Internal "Node ID not found in peer map")
  end.

Section senders.
Context `{HeaderText, UuidText} {X : Type}.
Abbreviation remote Req Res := (Request Req → st X halt (result Status (Response Res))) (only parsing).

(** One message to one peer, and the verification of what comes back:
    [request_vote_from_peer], [request_pre_vote_from_peer],
    [replicate_to_peer] and [install_snapshot_to_peer]. *)
Definition peer_call {Req Res} (pm : PeerManager) (peer_id : NodeId) (trace_id : TraceId) (message : Req)
    (call : remote Req Res) : st X halt (result Status Res) :=
  match (_ ← get_client pm peer_id; peer_request (pm_identity pm) peer_id trace_id message) with
  | Err e => mret (Err e)
  | Ok req =>
      r ← call req;
      mret (response ← r; _ ← verify_trace_integrity response trace_id; Ok (rs_payload response))
  end.

Definition request_vote_from_peer (pm : PeerManager) (peer_id : NodeId) (trace_id : TraceId)
    (p : ElectionCampaignParams) : remote RequestVoteRequest RequestVoteResponse →
    st X halt (result Status RequestVoteResponse) :=
  peer_call pm peer_id trace_id
    (RequestVoteRequest_new (ec_term p) (ec_node_id p) (ec_last_log_index p) (ec_last_log_term p)).
Definition request_pre_vote_from_peer (pm : PeerManager) (peer_id : NodeId) (trace_id : TraceId)
    (p : ElectionCampaignParams) : remote PreVoteRequest PreVoteResponse →
    st X halt (result Status PreVoteResponse) :=
  peer_call pm peer_id trace_id
    (PreVoteRequest_new (ec_term p) (ec_node_id p) (ec_last_log_index p) (ec_last_log_term p)).
Definition replicate_to_peer (pm : PeerManager) (peer_id : NodeId) (trace_id : TraceId)
    (request : AppendEntriesRequest) (call : remote AppendEntriesRequest AppendEntriesResponse) :
    st X halt (RpcResult (option ReplicationOutcome)) :=
  r ← peer_call pm peer_id trace_id request call;
  mret (response ← r;
        Ok (Some (RO_AppendEntries (aeq_prev_log_index request)
                    (N.of_nat (length (aeq_entries request))) response))).
Definition install_snapshot_to_peer (pm : PeerManager) (peer_id : NodeId) (trace_id : TraceId)
    (request : InstallSnapshotRequest) (call : remote InstallSnapshotRequest InstallSnapshotResponse) :
    st X halt (RpcResult (option ReplicationOutcome)) :=
  r ← peer_call pm peer_id trace_id request call;
  mret (response ← r; Ok (Some (RO_InstallSnapshot (isq_last_included_index request) response))).
End senders.

(** ** The local handle (service/handle.rs) *)

Section handle.
Context {S G F : Type} `{LogStorage S} `{RngExt G} `{StateMachine F}.
Abbreviation shell := (ConsensusShell S G F) (only parsing).

Definition follower_redirection (pm : PeerManager) (leader_id : option NodeId) : string * string :=
  match leader_id with
  | Some id =>
      match get_address pm id with
      | Ok addr => (addr, "Node is a Follower. Retry with Leader")
      | Err _ => ("", "Follower of a node whose address is missing")
      end
  | None => ("", "Node is a Follower; leader is unknown.")
  end.
Definition calculate_redirection (pm : PeerManager) (role : NodeRole) (leader_hint : option NodeId) :
    string * string :=
  match role with
  | NR_Follower => follower_redirection pm leader_hint
  | NR_PreCandidate => ("", "Pre-election in progress. No leader established.")
  | NR_Candidate => ("", "Election in progress. No leader established.")
  | NR_Leader => ("", "")
  | NR_Poisoned => ("", "Node is in a poisoned state.")
  end.

Definition handle_propose (data : bytes) : st shell halt (result ConsensusError LogIndex) :=
  r ← locked (on_node (eng_propose data));
  mret (map_err (λ e, match e with NotLeader _ => CE_NotLeader | _ => CE_Internal "" end) r).

(** The condition of each waiting loop; [None] is to wait on. *)
Definition commit_check (index : LogIndex) (p : ConsensusProgress) : option (result ConsensusError unit) :=
  match cp_role p with
  | NR_Leader => if index <=? cp_last_committed p then Some (Ok tt) else None
  | NR_Poisoned => Some (Err CE_Poisoned)
  | _ => Some (Err CE_NotLeader)
  end.
Definition apply_check (index : LogIndex) (p : ConsensusProgress) : option (result ConsensusError unit) :=
  if decide (cp_role p = NR_Poisoned) then Some (Err CE_Poisoned)
  else if index <=? cp_last_applied p then Some (Ok tt)
  else None.

Definition authority (pm : PeerManager) (c : shell) : ConsensusAuthority :=
  let progress := sh_progress c in
  let '(leader_hint, rejection_reason) := calculate_redirection pm (cp_role progress) (cp_leader_hint progress) in
  mkAuthority (bool_decide (cp_role progress = NR_Leader)) (bool_decide (cp_role progress = NR_Poisoned))
    (cp_last_committed progress) leader_hint rejection_reason.

(** [LocalRaftHandle] with the node around it: what the other tasks do to the
    shell between two wake-ups of a waiting caller, in order.  A wait that
    outlasts them has timed out. *)
Record LocalRaftHandle : Type := mkHandle {
  lh_peers : PeerManager;
  lh_shell : shell;
  lh_others : list (shell → shell);
}.
Definition set_lh_shell (c : shell) (h : LocalRaftHandle) : LocalRaftHandle :=
  mkHandle (lh_peers h) c (lh_others h).

(** The waiting loop: the condition is checked first, then at each wake-up.
    [None] is a caller still parked when its timeout drops it.  The channel's
    sender lives as long as the shell, so [ConsensusError::Terminated] is not
    reached. *)
Fixpoint wait (check : ConsensusProgress → option (result ConsensusError unit))
    (others : list (shell → shell)) (c : shell) :
    option (result ConsensusError unit) * shell * list (shell → shell) :=
  match check (sh_progress c) with
  | Some r => (Some r, c, others)
  | None =>
      match others with
      | [] => (None, c, [])
      | f :: others' => wait check others' (f c)
      end
  end.

Definition lh_wait (check : ConsensusProgress → option (result ConsensusError unit)) (h : LocalRaftHandle) :
    option (result ConsensusError unit) * LocalRaftHandle :=
  let '(r, c, others) := wait check (lh_others h) (lh_shell h) in
  (r, mkHandle (lh_peers h) c others).

(** [verify_leadership_quorum] (orchestration.rs): the probe is registered
    under the lock; the round that it starts is one of the other tasks. *)
Definition verify_leadership (h : LocalRaftHandle) : result ConsensusError unit * LocalRaftHandle :=
  match verify_prepare (lh_shell h) with
  | (Ok (Err e), c) => (Err e, set_lh_shell c h)
  | (Ok (Ok (target_epoch, _, params)), c) =>
      match lh_wait (λ p, probe_check p (rp_term params) target_epoch) (set_lh_shell c h) with
      | (Some r, h') => (r, h')
      | (None, h') => (Err CE_Timeout, h')
      end
  | (Err _, c) => (Err CE_Poisoned, set_lh_shell c h)
  end.

(** [impl ConsensusHandle for LocalRaftHandle]; a panic under the lock aborts
    the request with the node poisoned. *)
#[global] Instance LocalRaftHandle_handle : ConsensusHandle LocalRaftHandle := {|
  h_authority h := authority (lh_peers h) (lh_shell h);
  h_propose data h :=
    match handle_propose data (lh_shell h) with
    | (Ok r, c) => (r, set_lh_shell c h)
    | (Err _, c) => (Err CE_Poisoned, set_lh_shell c h)
    end;
  h_await_commit index := lh_wait (commit_check index);
  h_await_apply index := lh_wait (apply_check index);
  h_verify_leadership := verify_leadership;
|}.
End handle.
Arguments LocalRaftHandle _ _ _ : clear implicits.
Arguments mkHandle {S G F} _ _ _.
Arguments lh_peers {S G F} _.
Arguments lh_shell {S G F} _.
Arguments lh_others {S G F} _.
