(* ===== verification/Rounds.v ===== *)
(** The rounds of the engine: an election campaign, a pre-vote campaign and a
    replication round (consensus/election.rs, consensus/replication.rs,
    consensus/lifecycle.rs), from the responses of the peers as they arrive.
    Every block under the lock is an operation of the shell; between two
    arrivals the other tasks of the node do what they do to the shell. *)
From S2P Require Import Prelude Machine Types Wire Storage Timing Node Engine Consensus Sled Fsm Text Rpc Shell Gateway Service.

Section rounds.
Context {S G F : Type} `{LogStorage S} `{RngExt G} `{StateMachine F}.
Abbreviation shell := (ConsensusShell S G F) (only parsing).
Abbreviation eng := (st (LogicalNode S G) halt) (only parsing).
Abbreviation sh := (st (ConsensusShell S G F) halt) (only parsing).

(** A response of the stream, and what has happened to the shell before it. *)
Record Arrival (A : Type) : Type := mkArrival {
  ar_before : shell → shell;
  ar_peer : NodeId;
  ar_result : RpcResult A;
}.
Arguments mkArrival {A} _ _ _.
Arguments ar_before {A} _.
Arguments ar_peer {A} _.
Arguments ar_result {A} _.

(** ** election.rs *)

(** [process_vote_response]: the lock is taken for an answer only. *)
Definition shell_vote_response (term : Term) (peer_ids : list NodeId) (peer_id : NodeId)
    (res : RpcResult RequestVoteResponse) : sh VoteAction :=
  match res with
  | Err _ => mret Continue
  | Ok _ => locked (on_node (process_vote_response term peer_ids peer_id res))
  end.

(** The loop over the stream: [None] when the campaign is over, the tally when
    the stream has ended. *)
Fixpoint election_loop (term : Term) (peer_ids : list NodeId) (votes_granted : N)
    (stream : list (Arrival RequestVoteResponse)) : sh (option N) :=
  match stream with
  | [] => mret (Some votes_granted)
  | a :: rest =>
      _ ← st_modify (ar_before a);
      action ← shell_vote_response term peer_ids (ar_peer a) (ar_result a);
      match action with
      | QuorumReached | Demoted => mret None
      | Continue =>
          votes ← st_gets (λ c, read_tally votes_granted (sh_node c));
          election_loop term peer_ids votes rest
      end
  end.

Definition is_candidate (c : shell) : bool :=
  match ln_state (sh_node c) with RS_Candidate _ => true | _ => false end.

(** After the loop; [late] is what happens between the read of the role and
    the write lock of the promotion. *)
Definition after_election_loop (peer_ids : list NodeId) (votes_granted : N) (late : shell → shell) :
    sh (result NodeError unit) :=
  candidate ← st_gets is_candidate;
  if (quorum_of (length peer_ids) <=? votes_granted) && candidate then
    _ ← st_modify late;
    _ ← locked (on_node (into_leader peer_ids));
    mret (Ok tt)
  else
    r ← on_node (delegate_read (node_read current_term));
    mret (_ ← r; Ok tt).

(** [initiate_election]. *)
Definition initiate_election (pm : PeerManager) (params : ElectionCampaignParams)
    (stream : list (Arrival RequestVoteResponse)) (late : shell → shell) : sh (result NodeError unit) :=
  let ids := peer_ids pm in
  o ← election_loop (ec_term params) ids 1 stream;
  match o with
  | None => mret (Ok tt)
  | Some votes_granted => after_election_loop ids votes_granted late
  end.

(** A spawned campaign or round: an error halts the node. *)
Definition spawned (m : sh (result NodeError unit)) : sh unit :=
  r ← m;
  match r with
  | Ok _ => mret tt
  | Err e => fatal e
  end.
Definition start_election_campaign (pm : PeerManager) (params : ElectionCampaignParams)
    (stream : list (Arrival RequestVoteResponse)) (late : shell → shell) : sh unit :=
  spawned (initiate_election pm params stream late).

(** The campaign that a pre-vote leads to: its stream answers its requests. *)
Definition election_of (pm : PeerManager) (votes : ElectionCampaignParams → list (Arrival RequestVoteResponse))
    (late : shell → shell) : sh (result NodeError unit) :=
  campaign ← locked (on_node pre_vote_won);
  initiate_election pm campaign (votes campaign) late.

Fixpoint pre_vote_loop (quorum campaign_term : N) (granted : N)
    (stream : list (Arrival PreVoteResponse)) : sh (option N) :=
  match stream with
  | [] => mret (Some granted)
  | a :: rest =>
      _ ← st_modify (ar_before a);
      over ← (match ar_result a with
              | Ok resp =>
                  if campaign_term <? pvr_term resp
                  then locked (on_node (pre_vote_term_check campaign_term (pvr_term resp)))
                  else mret false
              | Err _ => mret false
              end);
      if over : bool then mret None
      else
        let granted' := if process_pre_vote_response (ar_result a) then granted + 1 else granted in
        if process_pre_vote_response (ar_result a) && (quorum <=? granted') then mret (Some granted')
        else pre_vote_loop quorum campaign_term granted' rest
  end.

(** [initiate_pre_vote]: the node's own pre-vote counts, also when no peer has
    answered. *)
Definition initiate_pre_vote (pm : PeerManager) (params : ElectionCampaignParams)
    (stream : list (Arrival PreVoteResponse))
    (votes : ElectionCampaignParams → list (Arrival RequestVoteResponse)) (late : shell → shell) :
    sh (result NodeError unit) :=
  let quorum := quorum_of (length (peer_ids pm)) in
  o ← pre_vote_loop quorum (ec_term params) 1 stream;
  match o with
  | None => mret (Ok tt)
  | Some pre_votes_granted =>
      if quorum <=? pre_votes_granted then election_of pm votes late
      else
        _ ← locked (on_node eng_current_term);
        mret (Ok tt)
  end.
Definition start_pre_vote_campaign (pm : PeerManager) (params : ElectionCampaignParams)
    (stream : list (Arrival PreVoteResponse))
    (votes : ElectionCampaignParams → list (Arrival RequestVoteResponse)) (late : shell → shell) : sh unit :=
  spawned (initiate_pre_vote pm params stream votes late).

(** ** replication.rs *)

(** The transfer of a snapshot, phase 2: freeze, serialize, thaw.  The
    serialization is awaited between them. *)
Definition transfer_freeze : sh unit := locked freeze_or_fatal.
Definition transfer_serialize : sh (result sm_error bytes) := on_fsm sm_snapshot.
Definition transfer_thaw : sh unit := locked thaw_or_fatal.

Context `{HeaderText, UuidText}.
Abbreviation remote Req Res := (Request Req → st (ConsensusShell S G F) halt (result Status (Response Res))) (only parsing).

(** The RPCs of one peer, with what happens to the shell meanwhile. *)
Record Remote : Type := mkRemote {
  rm_append_entries : remote AppendEntriesRequest AppendEntriesResponse;
  rm_install_snapshot : remote InstallSnapshotRequest InstallSnapshotResponse;
}.

(** [replicate_snapshot_to_peer], with the permit of the peer: it is dropped
    where the function returns without an outcome of the installation. *)
Definition replicate_snapshot_to_peer (pm : PeerManager) (rm : Remote) (peer_id : NodeId) (trace_id : TraceId)
    (params : ReplicationRoundParams) (last_included_index : LogIndex) (last_included_term : Term) :
    sh (RpcResult (option ReplicationOutcome)) :=
  let release : sh unit := st_modify (release_snapshot_permit peer_id) in
  let probe_req := AppendEntriesRequest_new (rp_term params) (rp_node_id params) last_included_index
                     last_included_term [] (rp_last_committed params) in
  probe_res ← replicate_to_peer pm peer_id trace_id probe_req (rm_append_entries rm);
  let stop : option (option ReplicationOutcome) :=
    match probe_res with
    | Err _ => Some None
    | Ok (Some outcome) =>
        if rp_term params <? outcome_term outcome then Some (Some outcome) else None
    | Ok None => None
    end in
  match stop with
  | Some answer => _ ← release; mret (Ok answer)
  | None =>
      _ ← transfer_freeze;
      res ← transfer_serialize;
      _ ← transfer_thaw;
      match res with
      | Err _ => fatal (Protocol "Snapshot serialization failed")
      | Ok data =>
          let request := InstallSnapshotRequest_new (rp_term params) (rp_node_id params)
                           last_included_index last_included_term data in
          r ← install_snapshot_to_peer pm peer_id trace_id request (rm_install_snapshot rm);
          _ ← (match r with Ok _ => mret tt | Err _ => release end);
          mret r
      end
  end.

(** [prepare_and_replicate_to_peer], with its locked block. *)
Definition strategy_block (peer_id : NodeId) (params : ReplicationRoundParams) : sh (option ReplicationStrategy) :=
  locked (
    r ← on_node (determine_replication_strategy peer_id params);
    match r with
    | Ok o => mret o
    | Err _ =>
        _ ← on_node eng_last_log_index;
        on_node (apply_fatal (Protocol "Replication strategy failed"))
    end).
Definition prepare_and_replicate_to_peer (pm : PeerManager) (rm : Remote) (peer_id : NodeId) (trace_id : TraceId)
    (params : ReplicationRoundParams) : sh (RpcResult (option ReplicationOutcome)) :=
  strategy ← strategy_block peer_id params;
  match strategy with
  | None => mret (Ok None)
  | Some (RS_AppendEntries req) => replicate_to_peer pm peer_id trace_id req (rm_append_entries rm)
  | Some (RS_InstallSnapshot last_included_index last_included_term) =>
      c ← st_get;
      let '(acquired, c') := try_acquire_snapshot_permit peer_id c in
      _ ← st_put c';
      if acquired : bool then
        replicate_snapshot_to_peer pm rm peer_id trace_id params last_included_index last_included_term
      else
        heartbeat ← locked (on_node (build_append_entries_request peer_id (rp_term params) (rp_node_id params)
                                       (rp_last_committed params)));
        match heartbeat with
        | Ok req => replicate_to_peer pm peer_id trace_id req (rm_append_entries rm)
        | Err _ => mret (Ok None)
        end
  end.

(** [process_replication_response]; the outcome of an installation holds the
    peer's permit and drops it at the end. *)
Definition shell_replication_response (term : Term) (peer_id : NodeId)
    (res : RpcResult (option ReplicationOutcome)) : sh (result NodeError ReplicationAction) :=
  match res with
  | Err _ | Ok None => mret (Ok RA_Continue)
  | Ok (Some outcome) => λ c,
      let '(r, c') := locked (on_node (process_replication_response term peer_id res)) c in
      (r, match outcome with
          | RO_InstallSnapshot _ _ => release_snapshot_permit peer_id c'
          | RO_AppendEntries _ _ _ => c'
          end)
  end.

(** [replicate_to_peers], from the responses; on a demotion the rest of the
    stream is dropped. *)
Fixpoint replicate_to_peers (params : ReplicationRoundParams)
    (stream : list (Arrival (option ReplicationOutcome))) : sh (result NodeError unit) :=
  match stream with
  | [] => mret (Ok tt)
  | a :: rest =>
      _ ← st_modify (ar_before a);
      r ← shell_replication_response (rp_term params) (ar_peer a) (ar_result a);
      match r with
      | Err e => mret (Err e)
      | Ok RA_Demoted => mret (Ok tt)
      | Ok RA_Continue => replicate_to_peers params rest
      end
  end.
Definition initiate_replication (params : ReplicationRoundParams)
    (stream : list (Arrival (option ReplicationOutcome))) : sh unit :=
  spawned (replicate_to_peers params stream).

(** ** lifecycle.rs

    One pulse of [spawn_tick_loop]: the locked block, in which an upcoming
    compaction freezes the state machine, and the dispatch of [StepDown].
    The tasks of the result are spawned. *)
Definition tick_block (snapshot_threshold : N) : sh TickDispatch :=
  locked (
    action ← on_node tick;
    term ← on_node eng_current_term;
    frozen ← st_gets is_frozen;
    compact ← on_node (should_compact_log snapshot_threshold frozen);
    compaction ← (if compact : bool then
                    _ ← freeze_or_fatal;
                    index ← on_node eng_last_applied;
                    t ← on_node (eng_get_term_at index);
                    mret (Some (index, t))
                  else mret None);
    on_node (tick_dispatch action term compaction)).
Definition tick_pulse (snapshot_threshold : N) (between : shell → shell) : sh TickDispatch :=
  d ← tick_block snapshot_threshold;
  _ ← (match td_action d with
       | StepDown => _ ← st_modify between; locked (on_node step_down)
       | _ => mret tt
       end);
  mret d.
End rounds.
Arguments Arrival : clear implicits.
Arguments mkArrival {S G F A} _ _ _.
Arguments ar_before {S G F A} _.
Arguments ar_peer {S G F A} _.
Arguments ar_result {S G F A} _.
Arguments Remote : clear implicits.
Arguments mkRemote {S G F} _ _.
Arguments rm_append_entries {S G F} _.
Arguments rm_install_snapshot {S G F} _.
