(* ===== verification/ShellProps.v ===== *)
(** Properties of the shell: balanced freezes, exclusive permits, lock-signal
    atomicity, and the applier and the cold boot, which feed the state
    machine exactly the committed entries in order. *)
From S2P Require Import Prelude Machine Types Wire Storage Timing Node Engine Consensus VoteSpec LogSpec Cluster NodeProps Sled Fsm FsmSpec FsmProps Shell.

(** ** Freezes and permits *)

Section coordination.
Context {S G F : Type}.
Implicit Types (c : ConsensusShell S G F).

(** Freezes and thaws in any order; [true] freezes. *)
Definition freeze_op (b : bool) c : result FreezeInvariantError unit * ConsensusShell S G F :=
  if b then freeze c else thaw c.
Fixpoint run_ops (ops : list bool) c : ConsensusShell S G F :=
  match ops with
  | [] => c
  | b :: rest => run_ops rest (freeze_op b c).2
  end.
(** The depth a sequence leads to: an operation at its bound has no effect. *)
Fixpoint depth_after (ops : list bool) (d : N) : N :=
  match ops with
  | [] => d
  | true :: rest => depth_after rest (if d =? u32_max then d else d + 1)
  | false :: rest => depth_after rest (d - 1)
  end.

Lemma freeze_op_depth b c :
  sh_freeze_depth c ≤ u32_max →
  sh_freeze_depth (freeze_op b c).2 = depth_after [b] (sh_freeze_depth c) ∧
  sh_freeze_depth (freeze_op b c).2 ≤ u32_max ∧
  is_ok (freeze_op b c).1 = negb (if b then sh_freeze_depth c =? u32_max else sh_freeze_depth c =? 0).
Proof.
  intros Hle. unfold freeze_op, freeze, thaw, u32_add, u32_sub, u32_max in *.
  generalize (sh_freeze_depth c), Hle. clear Hle. intros d Hle.
  destruct b; cbn [depth_after]; unfold u32_max.
  - destruct (N.eqb_spec d (2 ^ 32 - 1)) as [->|Hne]; cbn; [done|].
    rewrite N.mod_small by lia. split_and!; [done|lia|done].
  - destruct (N.eqb_spec d 0) as [->|Hne]; cbn; [done|].
    replace (d + 2 ^ 32 - 1) with (d - 1 + 1 * 2 ^ 32) by lia.
    rewrite N.Div0.mod_add, N.mod_small by lia. split_and!; [done|lia|done].
Qed.

(** The freeze depth counts exactly.  Whatever the order of freezes and
    thaws, a refused one (at the u32 bound, or below zero) leaves the depth
    as it was, despite the wrapping atomics, the others move it by one, and
    the state machine counts as frozen exactly while the depth is positive;
    a freeze followed by its thaw restores the shell. *)
Theorem freeze_depth_counts ops c :
  sh_freeze_depth c ≤ u32_max →
  sh_freeze_depth (run_ops ops c) = depth_after ops (sh_freeze_depth c) ∧
  is_frozen (run_ops ops c) = (0 <? depth_after ops (sh_freeze_depth c)) ∧
  (is_ok (freeze c).1 = true → thaw (freeze c).2 = (Ok tt, c)).
Proof.
  intros Hle. assert (sh_freeze_depth (run_ops ops c) = depth_after ops (sh_freeze_depth c)) as Hd.
  { revert c Hle. induction ops as [|b ops IH]; intros c Hle; [done|]. cbn [run_ops].
    destruct (freeze_op_depth b c Hle) as (Hd & Hle' & _). rewrite IH by done. rewrite Hd. by destruct b. }
  split; [done|]. split; [unfold is_frozen; by rewrite Hd|].
  unfold freeze. destruct (N.eqb_spec (sh_freeze_depth c) u32_max); [done|]. intros _. cbn.
  unfold thaw, u32_add, u32_sub, u32_max in *. cbn.
  rewrite (N.mod_small (sh_freeze_depth c + 1)) by lia.
  destruct (N.eqb_spec (sh_freeze_depth c + 1) 0); [lia|].
  replace (sh_freeze_depth c + 1 + 2 ^ 32 - 1) with (sh_freeze_depth c + 1 * 2 ^ 32) by lia.
  rewrite N.Div0.mod_add, N.mod_small by lia. by destruct c.
Qed.

(** A peer has at most one snapshot in flight: while its permit is held
    no other is granted, permits of different peers do not interfere, and a
    released permit can be taken again. *)
Theorem snapshot_permit_exclusive p q c c1 :
  try_acquire_snapshot_permit p c = (true, c1) →
  (p ∉ sh_in_flight c) ∧ (try_acquire_snapshot_permit p c1).1 = false ∧
  (q ≠ p → (try_acquire_snapshot_permit q c1).1 = (try_acquire_snapshot_permit q c).1) ∧
  (try_acquire_snapshot_permit p (release_snapshot_permit p c1)).1 = true.
Proof.
  unfold try_acquire_snapshot_permit. destruct (decide (p ∈ sh_in_flight c)) as [|Hp]; [done|].
  intros [= <-]. cbn. split_and!; [done| | |].
  - rewrite decide_True by set_solver. done.
  - intros Hne. destruct (decide (q ∈ sh_in_flight c)).
    + by rewrite decide_True by set_solver.
    + by rewrite decide_False by set_solver.
  - by rewrite decide_False by set_solver.
Qed.
End coordination.

(** ** Lock-signal atomicity *)

Section signal.
Context {S G F : Type} `{LogStorage S} `{RngExt G} `{StateMachine F}.
Implicit Types (c : ConsensusShell S G F) (n : LogicalNode S G).

(** The published progress is the node's: its own, or the poisoned one. *)
Definition published c : Prop :=
  if is_poisoned (sh_node c) then cp_role (sh_progress c) = NR_Poisoned
  else try_consensus_progress (sh_node c) = Ok (sh_progress c).

Lemma consensus_progress_same n p n' :
  consensus_progress n = (Ok p, n') → n' = n ∧ try_consensus_progress n = Ok p.
Proof.
  unfold consensus_progress, mbind, st_bind, st_gets. cbn.
  destruct (try_consensus_progress n) as [x|e]; cbn; [|done]. by intros [= -> ->].
Qed.
Lemma poisoned_try n p : is_poisoned n = true → try_consensus_progress n = Ok p → cp_role p = NR_Poisoned.
Proof. unfold is_poisoned, try_consensus_progress. destruct (ln_state n); try done. by intros _ [= <-]. Qed.
Lemma healthy_role n p :
  is_poisoned n = false → try_consensus_progress n = Ok p → cp_role p ≠ NR_Poisoned.
Proof.
  unfold is_poisoned, try_consensus_progress, progress_of, mbind, result_bind.
  destruct (ln_state n); try done; intros _;
    destruct (node_read current_term _); try done; destruct (node_read last_log_index _); try done;
    by intros [= <-].
Qed.
Lemma is_poisoned_set r n : is_poisoned (set_state r n) = match r with RS_Poisoned => true | _ => false end.
Proof. done. Qed.

(** C33: Lock-Signal Atomicity.  Every block under the write lock ends with
    the watchers' value equal to the node's progress, halts included: a
    block that panics publishes the poisoned role.  The only exception is a
    disk that cannot be read when the guard drops. *)
Theorem lock_signal_atomic {A} (m : st (ConsensusShell S G F) halt A) c r c' :
  published c →
  (∀ x, sh_progress (m x).2 = sh_progress x) →
  is_ok (consensus_progress (sh_node c)).1 = true →
  locked m c = (r, c') → is_ok (try_consensus_progress (sh_node c')) = true →
  published c' ∧ (is_ok r = false → is_poisoned (sh_node c') = true).
Proof.
  intros Hpub Hframe Hread Hrun Hdrop. unfold locked in Hrun.
  destruct (consensus_progress (sh_node c)) as [[before|h] n] eqn:Hb; [|done].
  destruct (consensus_progress_same _ _ _ Hb) as [-> Htry].
  assert (sh_set_node (sh_node c) c = c) as Hid by (by destruct c). rewrite Hid in Hrun.
  specialize (Hframe c). destruct (m c) as [r1 c1] eqn:Hm. cbn in Hframe. injection Hrun as <- <-.
  assert (is_poisoned (sh_node c) = true → cp_role before = NR_Poisoned) as Hbp.
  { intros Hp. by eapply poisoned_try. }
  assert (is_poisoned (sh_node c) = false → before = sh_progress c) as Hbn.
  { intros Hp. unfold published in Hpub. rewrite Hp, Htry in Hpub. by injection Hpub. }
  assert (is_poisoned (sh_node c) = true → cp_role (sh_progress c) = NR_Poisoned) as Hpp.
  { intros Hp. unfold published in Hpub. by rewrite Hp in Hpub. }
  (* whether the value was sent or was already there *)
  assert (∀ x, cp_role x = NR_Poisoned → before = x → is_poisoned (sh_node c) = true) as Hstale.
  { intros x Hx ->. destruct (is_poisoned (sh_node c)) eqn:Hp; [done|].
    by apply (healthy_role _ _ Hp Htry) in Hx. }
  unfold guard_drop in *. destruct (is_ok r1) eqn:Hok; cbn [negb] in *.
  - split; [|done]. destruct (is_poisoned (sh_node c1)) eqn:Hp1.
    + destruct (decide (before = poisoned_progress before)) as [Heq|Hne]; unfold published; cbn;
        rewrite Hp1; [|done]. rewrite Hframe. apply Hpp. by apply (Hstale (poisoned_progress before)).
    + destruct (try_consensus_progress (sh_node c1)) as [p|e] eqn:Hp;
        [|by destruct (decide _); cbn in Hdrop; rewrite Hp in Hdrop].
      cbn. destruct (decide (before = p)) as [Heq|Hne]; unfold published; cbn; rewrite Hp1, Hp; [|done].
      rewrite Hframe. destruct (is_poisoned (sh_node c)) eqn:Hpc; [|specialize (Hbn eq_refl); congruence].
      specialize (Hbp eq_refl). rewrite Heq in Hbp.
      by apply (healthy_role _ _ Hp1 Hp) in Hbp.
  - split; [|by destruct (decide _)].
    destruct (decide (before = poisoned_progress before)) as [Heq|Hne]; unfold published; cbn; [|done].
    rewrite Hframe. apply Hpp. by apply (Hstale (poisoned_progress before)).
Qed.
End signal.

(** ** Feeding the state machine *)

(** The state machine applies the entries [es] in order. *)
Fixpoint feed {F} `{StateMachine F} (es : list LogEntry) : st F sm_error unit :=
  match es with
  | [] => mret tt
  | e :: rest => _ ← sm_apply (le_index e) (le_data e); feed rest
  end.

Definition role_applied (r : RoleState) : option LogIndex :=
  match r with
  | RS_Follower m => Some (rn_last_applied m)
  | RS_PreCandidate m => Some (rn_last_applied m)
  | RS_Candidate m => Some (rn_last_applied m)
  | RS_Leader m => Some (rn_last_applied m)
  | RS_Poisoned => None
  end.

(** The committed entries from [a] to [b] are in the log. *)
Definition has_range (v : LogView) (a b : LogIndex) : Prop :=
  ∀ i, a ≤ i → i ≤ b → is_Some (lv_log v !! i).

Lemma lv_range_cons v a b e :
  a ≤ b → lv_log v !! a = Some e → lv_range v a b = e :: lv_range v (a + 1) b.
Proof.
  intros Hle He. unfold lv_range, u64_range.
  replace (N.to_nat (b + 1 - a)) with (Datatypes.S (N.to_nat (b + 1 - (a + 1)))) by lia.
  assert ((λ k, a + N.of_nat k) <$> seq 0 (Datatypes.S (N.to_nat (b + 1 - (a + 1))))
    = a :: ((λ k, a + 1 + N.of_nat k) <$> seq 0 (N.to_nat (b + 1 - (a + 1))))) as ->.
  { cbn [seq]. rewrite fmap_cons, N.add_0_r, <-fmap_S_seq, <-list_fmap_compose. f_equal.
    apply list_fmap_ext. intros. cbn. lia. }
  cbn [omap list_omap]. by rewrite He.
Qed.
Lemma lv_range_nil v a b : b < a → lv_range v a b = [].
Proof. intros Hlt. unfold lv_range, u64_range. by replace (N.to_nat (b + 1 - a)) with 0%nat by lia. Qed.
Lemma lv_range_ext v w a b : lv_log w = lv_log v → lv_range w a b = lv_range v a b.
Proof. intros Heq. unfold lv_range. by rewrite Heq. Qed.
Lemma has_range_next v a b : has_range v a b → has_range v (a + 1) b.
Proof. intros Hr i Hi. apply Hr. lia. Qed.

Section applier.
Context {S G F : Type} `{LogStorageLaws S} `{RngExt G} `{StateMachine F}.
Implicit Types (c : ConsensusShell S G F) (n : LogicalNode S G) (v : LogView).

Lemma wp_locked {A} (m : st (ConsensusShell S G F) halt A) c (Q : A → ConsensusShell S G F → Prop) :
  wp m (λ a c1, ∀ p, Q a (sh_set_progress p c1)) (λ _ _, True) c →
  wp (locked m) Q (λ _ _, True) c.
Proof.
  unfold wp, locked. destruct (consensus_progress (sh_node c)) as [[before|h] n] eqn:Hb; [|done].
  destruct (consensus_progress_same _ _ _ Hb) as [-> _].
  assert (sh_set_node (sh_node c) c = c) as -> by (by destruct c).
  destruct (m c) as [[a|h] c1]; [|done]. intros HQ. cbn. unfold guard_drop.
  assert (c1 = sh_set_progress (sh_progress c1) c1) as Hc1 by (by destruct c1).
  destruct (decide _); [rewrite Hc1|]; apply HQ.
Qed.
Lemma wp_on_node {A} (m : st (LogicalNode S G) halt A) c (Q : A → ConsensusShell S G F → Prop) (R : halt → ConsensusShell S G F → Prop) :
  wp m (λ a n', Q a (sh_set_node n' c)) (λ h n', R h (sh_set_node n' c)) (sh_node c) →
  wp (on_node m) Q R c.
Proof. intros Hm. by apply wp_zoom. Qed.
(** A fatal error never returns. *)
Lemma wp_fatal {A} e c (Q : A → ConsensusShell S G F → Prop) :
  wp (fatal e) Q (λ _ _, True) c.
Proof. apply wp_locked, wp_on_node. unfold apply_fatal. by wp_steps. Qed.

Lemma advance_horizon_view i n v cm :
  repr (ln_store n) v → role_committed (ln_state n) = Some cm →
  wp (eng_advance_horizon_after_snapshot i)
    (λ r n', r = Ok tt → ∃ v', repr (ln_store n') v' ∧ (∃ k, v' = set_committed k v) ∧
       role_committed (ln_state n') = Some (N.max i cm) ∧ role_applied (ln_state n') = Some i)
    (λ _ _, True) n.
Proof.
  intros Hv Hcm. unfold eng_advance_horizon_after_snapshot, delegate_mut. wp_step. apply wp_get.
  revert Hcm. destruct (ln_state n) as [m|m|m|m|]; intros [= <-].
  all: apply wp_run_node; unfold advance_horizon_after_snapshot; wp_step;
    (eapply wp_mono; [by apply (update_commit_index_view i (ln_store n) m v)|..]; cbn beta; [|done]);
    intros [] [s' m'] (v' & Hv' & _ & Hk & Hm' & _); cbn [fst snd] in *; wp_steps; intros _;
    exists v'; rewrite Hm'; done.
Qed.

Lemma eng_last_committed_view n cm (Q : LogIndex → LogicalNode S G → Prop) :
  role_committed (ln_state n) = Some cm → Q cm n → wp eng_last_committed Q (λ _ _, True) n.
Proof.
  intros Hcm HQ. unfold eng_last_committed, delegate_field. wp_step. apply wp_get.
  revert Hcm. destruct (ln_state n); intros [= <-]; by apply wp_ret.
Qed.
Lemma eng_last_applied_view n a (Q : LogIndex → LogicalNode S G → Prop) :
  role_applied (ln_state n) = Some a → Q a n → wp eng_last_applied Q (λ _ _, True) n.
Proof.
  intros Ha HQ. unfold eng_last_applied, delegate_field. wp_step. apply wp_get.
  revert Ha. destruct (ln_state n); intros [= <-]; by apply wp_ret.
Qed.

(** The shell has applied up to [a] of the [cm] committed entries of [v]. *)
Record applied_to (d : N) c v a cm : Prop := {
  at_repr : ∃ k, repr (ln_store (sh_node c)) (set_committed k v);
  at_committed : role_committed (ln_state (sh_node c)) = Some cm;
  at_applied : role_applied (ln_state (sh_node c)) = Some a;
  at_depth : sh_freeze_depth c = d;
}.

Lemma apply_one_view next d c v a cm e :
  applied_to d c v a cm → next ≤ cm → next ≠ 0 → U64 next → lv_log v !! next = Some e → le_index e = next →
  wp (apply_one next)
    (λ k c', k = cm ∧ applied_to d c' v next cm ∧
       sm_apply (le_index e) (le_data e) (sh_fsm c) = (Ok tt, sh_fsm c')) (λ _ _, True) c.
Proof.
  intros [[k Hv'] Hcm Ha Hd] Hle Hne Hu He Hidx. unfold apply_one. wp_step. apply wp_gets.
  pose proof (read_entries_law next next _ _ Hv' Hu Hu Hne) as Hread.
  rewrite (lv_range_ext v), (lv_range_cons v next next e), lv_range_nil in Hread by (done || lia).
  destruct (read_entries next next (ln_store (sh_node c))) as [es|err]; [|apply wp_fatal].
  cbn in Hread. subst es. wp_step. unfold on_fsm. apply wp_zoom, wp_try. rewrite Hidx.
  apply wp_intro; intros x f' Hrun; apply wp_locked; cbn [sh_set_fsm].
  2: { apply wp_on_node. unfold apply_fatal. by wp_steps. }
  destruct x. wp_step. apply wp_on_node.
  eapply wp_mono; [by apply (advance_horizon_view next _ _ cm Hv')| |done].
  intros [[]|err] n' Hn'; [|apply wp_on_node; unfold apply_fatal; by wp_steps].
  destruct (Hn' eq_refl) as (v2 & Hv2 & [k2 ->] & Hc2 & Ha2). rewrite N.max_r in Hc2 by done.
  apply wp_on_node. eapply eng_last_committed_view; [exact Hc2|]. intros p.
  split; [done|]. split; [|done]. split; [by exists k2|done|done|done].
Qed.

Lemma apply_loop_view fuel d c v a cm :
  log_ok (lv_log v) → U64 cm → applied_to d c v a cm → has_range v (a + 1) cm → a ≤ cm →
  fuel = N.to_nat (cm - a) →
  wp (apply_loop fuel a cm)
    (λ _ c', applied_to d c' v cm cm ∧
       feed (lv_range v (a + 1) cm) (sh_fsm c) = (Ok tt, sh_fsm c')) (λ _ _, True) c.
Proof.
  intros Hok Hu. revert c a. induction fuel as [|fuel IH]; intros c a Hat Hr Hle Hfuel; cbn [apply_loop].
  { assert (a = cm) as -> by lia. apply wp_ret. split; [done|]. by rewrite lv_range_nil by lia. }
  destruct (N.ltb_spec a cm) as [Hlt|]; [|lia].
  destruct (index_add a 1) as [next|err] eqn:Hn; [|apply wp_fatal].
  apply newtype_add_Ok in Hn as [-> Hnu].
  destruct (Hr (a + 1)) as [e He]; [lia..|].
  destruct (Hok _ _ He) as [Hidx _]. wp_step.
  eapply wp_mono; [apply (apply_one_view (a + 1) d c v a cm e); (done || lia)| |done].
  intros k c1 (-> & Hat1 & Hrun).
  eapply wp_mono; [apply IH; [done|by apply has_range_next|lia|lia]| |done].
  intros _ c2 [Hat2 Hfeed]. split; [done|].
  rewrite (lv_range_cons v (a + 1) cm e) by (done || lia). cbn [feed].
  unfold mbind, st_bind. by rewrite Hrun.
Qed.

Lemma apply_committed_view d c v a cm :
  applied_to d c v a cm → log_ok (lv_log v) → U64 cm → has_range v (a + 1) cm →
  wp apply_committed (λ _ c', a ≤ cm ∧ applied_to d c' v cm cm ∧
    feed (lv_range v (a + 1) cm) (sh_fsm c) = (Ok tt, sh_fsm c')) (λ _ _, True) c.
Proof.
  intros Hat Hok Hu Hr. unfold apply_committed. wp_step. apply wp_on_node.
  eapply eng_last_applied_view; [by apply Hat|]. wp_step. apply wp_on_node.
  eapply eng_last_committed_view; [by apply Hat|].
  assert (∀ n, n = sh_node c → sh_set_node n (sh_set_node n c) = c) as Hid by (intros n ->; by destruct c).
  rewrite Hid by done. wp_step. destruct (N.ltb_spec cm a); [apply wp_fatal|]. apply wp_ret.
  eapply wp_mono; [by apply (apply_loop_view _ d c v a cm)| |done]. by intros _ c1 [? ?].
Qed.

(** C26: the applier feeds the state machine exactly the committed entries it
    has not applied, each once and in log order, with its own index; when it
    returns, the applied index is the commit index and the log is
    untouched. *)
Theorem applier_applies_committed c v a cm c' :
  repr (ln_store (sh_node c)) v → role_applied (ln_state (sh_node c)) = Some a →
  role_committed (ln_state (sh_node c)) = Some cm → U64 cm → has_range v (a + 1) cm →
  apply_committed c = (Ok tt, c') →
  a ≤ cm ∧ feed (lv_range v (a + 1) cm) (sh_fsm c) = (Ok tt, sh_fsm c') ∧
  role_applied (ln_state (sh_node c')) = Some cm ∧
  role_committed (ln_state (sh_node c')) = Some cm ∧
  ∃ k, repr (ln_store (sh_node c')) (set_committed k v).
Proof.
  intros Hv Ha Hcm Hu Hr Hrun.
  assert (applied_to (sh_freeze_depth c) c v a cm) as Hat.
  { split; [|done..]. exists (lv_committed v). by destruct v. }
  assert (log_ok (lv_log v)) as Hok by (apply vo_log; by eapply repr_ok).
  destruct (wp_run _ _ _ _ _ _ (apply_committed_view _ _ _ _ _ Hat Hok Hu Hr) Hrun)
    as (Hle & [Hv' Hc' Ha' _] & Hfeed).
  split_and!; done.
Qed.
End applier.

(** ** Cold boot *)

Section boot.
Context {S F : Type} `{LogStorageLaws S} `{StateMachine F}.

Lemma replay_view (s : S) v fuel a cm f :
  repr s v → log_ok (lv_log v) → a ≤ cm → fuel = N.to_nat (cm - a) →
  wp (replay s fuel a cm)
    (λ _ f', has_range v (a + 1) cm ∧ feed (lv_range v (a + 1) cm) f = (Ok tt, f')) (λ _ _, True) f.
Proof.
  intros Hv Hok. revert a f. induction fuel as [|fuel IH]; intros a f Hle Hfuel; cbn [replay].
  { assert (a = cm) as -> by lia. apply wp_ret. rewrite lv_range_nil by lia. split; [|done].
    intros i. lia. }
  destruct (N.ltb_spec a cm); [|lia]. wp_step. apply wp_lift; [|done]. intros next Hn.
  destruct (index_add a 1) as [x|] eqn:Hx; [|done]. injection Hn as <-.
  apply newtype_add_Ok in Hx as [-> Hu]. wp_step. apply wp_lift; [|done]. intros o Ho.
  pose proof (read_entry_law _ _ _ Hv Hu) as Hread.
  destruct (read_entry (a + 1) s) as [o'|]; [|done]. injection Ho as <-. cbn in Hread. subst o'.
  destruct (lv_log v !! (a + 1)) as [e|] eqn:He; [|by apply wp_fail].
  destruct (Hok _ _ He) as [Hidx _]. wp_step. apply wp_map_err. apply wp_intro; [|done].
  intros [] f1 Hrun. eapply wp_mono; [apply IH; lia| |done]. intros _ f2 [Hr Hfeed]. split.
  - intros i Hi1 Hi2. destruct (decide (i = a + 1)) as [->|]; [by eexists|apply Hr; lia].
  - rewrite (lv_range_cons v (a + 1) cm e) by (done || lia). cbn [feed].
    unfold mbind, st_bind. by rewrite Hidx, Hrun.
Qed.

Lemma recover_view (s : S) v f a :
  repr s v → sm_last_applied f = Ok a →
  wp (recover s)
    (λ _ f', a ≤ lv_committed v ∧ has_range v (a + 1) (lv_committed v) ∧
       feed (lv_range v (a + 1) (lv_committed v)) f = (Ok tt, f'))
    (λ e f', lv_committed v < a → f' = f ∧
       (e = BootPanic "FSM index is ahead of last_committed" ∨ ∃ msg, e = BootError (Physical msg))) f.
Proof.
  intros Hv Ha. unfold recover. wp_step. apply wp_reads; intros x Hx; rewrite Ha in Hx; [|done].
  injection Hx as <-. pose proof (last_committed_law _ _ Hv) as Hc. wp_step.
  apply wp_lift; intros x Hx; destruct (last_committed s) as [y|e]; try done; injection Hx as <-; cbn in Hc.
  2: { intros _. split; [done|]. right. destruct Hc as [msg ->]. by exists msg. }
  subst y. destruct (N.ltb_spec (lv_committed v) a).
  { apply wp_fail. intros _. split; [done|by left]. }
  destruct (N.eqb_spec a (lv_committed v)) as [->|].
  { apply wp_ret. rewrite lv_range_nil by lia. split_and!; [done| |done]. intros i. lia. }
  eapply wp_mono; [apply (replay_view s v _ a (lv_committed v) f Hv); [apply vo_log; by eapply repr_ok|done|done]|..].
  - intros _ f1 [? ?]. done.
  - intros; lia.
Qed.

(** The cold boot replays exactly the committed entries the state
    machine has not applied, in order; it returns only when every one of
    them is in the log and the state machine is not ahead of the commit
    index, and panics when it is. *)
Theorem recovery_replays_committed (s : S) v f f' r a :
  repr s v → sm_last_applied f = Ok a → recover s f = (r, f') →
  match r with
  | Ok _ => a ≤ lv_committed v ∧ has_range v (a + 1) (lv_committed v) ∧
            feed (lv_range v (a + 1) (lv_committed v)) f = (Ok tt, f')
  | Err e => lv_committed v < a → f' = f ∧
      (e = BootPanic "FSM index is ahead of last_committed" ∨ ∃ msg, e = BootError (Physical msg))
  end.
Proof.
  intros Hv Ha Hrun. pose proof (wp_run _ _ _ _ _ _ (recover_view s v f a Hv Ha) Hrun) as Hpost.
  by destruct r.
Qed.
End boot.

(** ** Agreement of the state machines *)

Section agreement.
Context {D : Type} `{SledLaws D, UuidText}.
Context `{Message GroceryItem, Message SessionRecord, Message CommittedMutation, Message Timestamp, Message SnapshotData}.
Context `{!MessageLaws GroceryItem, !MessageLaws SessionRecord, !MessageLaws CommittedMutation, !MessageLaws Timestamp, !MessageLaws SnapshotData}.

Lemma feed_apply_all (es : list LogEntry) i :
  run_from i es → feed es = apply_all (D:=D) i (le_data <$> es).
Proof.
  revert i. induction es as [|e es IH]; intros i Hrun; [done|]. destruct Hrun as [Hi Hrun].
  cbn [feed fmap list_fmap apply_all]. by rewrite Hi, (IH _ Hrun).
Qed.

Lemma lv_range_run v a b :
  log_ok (lv_log v) → has_range v a b → a ≤ b + 1 → run_from a (lv_range v a b).
Proof.
  intros Hok Hr. remember (N.to_nat (b + 1 - a)) as k eqn:Hk. revert a Hr Hk.
  induction k as [|k IH]; intros a Hr Hk Hle.
  { by rewrite lv_range_nil by lia. }
  destruct (Hr a) as [e He]; [lia..|]. rewrite (lv_range_cons v a b e) by (done || lia).
  split; [by apply (Hok _ _ He)|]. apply IH; [by apply has_range_next|lia|lia].
Qed.
Lemma lv_range_length v a b :
  has_range v a b → a ≤ b + 1 → length (lv_range v a b) = N.to_nat (b + 1 - a).
Proof.
  intros Hr Hle. remember (N.to_nat (b + 1 - a)) as k eqn:Hk. revert a Hr Hle Hk.
  induction k as [|k IH]; intros a Hr Hle Hk.
  { by rewrite lv_range_nil by lia. }
  destruct (Hr a) as [e He]; [lia..|]. rewrite (lv_range_cons v a b e) by (done || lia).
  cbn. f_equal. apply IH; [by apply has_range_next|lia..].
Qed.
Lemma lv_range_agree v w a b :
  (∀ i, a ≤ i → i ≤ b → lv_log v !! i = lv_log w !! i) → lv_range v a b = lv_range w a b.
Proof.
  intros Heq. unfold lv_range. apply list_omap_ext. clear -Heq.
  assert (Forall (λ i, lv_log v !! i = lv_log w !! i) (u64_range a b)) as Hf.
  { apply list.Forall_forall. intros i [? ?]%elem_of_u64_range. by apply Heq. }
  by apply Forall_Forall2_diag.
Qed.

(** Replicated state machines agree.  Two nodes whose logs agree up to
    the same commit index and whose state machines start fresh end the cold
    boot in the same inventory, sessions and clock. *)
Theorem recovered_replicas_agree {S1 S2} `{LogStorageLaws S1, LogStorageLaws S2}
    (s1 : S1) (s2 : S2) v1 v2 (f1 f2 f1' f2' : LactoStore D) ms :
  repr s1 v1 → repr s2 v2 → lv_committed v1 = lv_committed v2 →
  (∀ i, 1 ≤ i → i ≤ lv_committed v1 → lv_log v1 !! i = lv_log v2 !! i) →
  decodes (le_data <$> lv_range v1 1 (lv_committed v1)) ms →
  fs_poisoned f1 = false → fs_poisoned f2 = false → holds f1 empty_fsm → holds f2 empty_fsm →
  sm_last_applied f1 = Ok 0 → sm_last_applied f2 = Ok 0 →
  recover s1 f1 = (Ok tt, f1') → recover s2 f2 = (Ok tt, f2') →
  ∃ v, holds f1' v ∧ holds f2' v ∧ fv_applied v = lv_committed v1.
Proof.
  intros Hv1 Hv2 Hcm Hagree Hdec Hp1 Hp2 Hh1 Hh2 Ha1 Ha2 Hrun1 Hrun2.
  pose proof (wp_run _ _ _ _ _ _ (recover_view s1 v1 f1 0 Hv1 Ha1) Hrun1) as (_ & Hr1 & Hf1).
  pose proof (wp_run _ _ _ _ _ _ (recover_view s2 v2 f2 0 Hv2 Ha2) Hrun2) as (_ & Hr2 & Hf2).
  change (0 + 1) with 1 in *. rewrite <-Hcm in Hf2, Hr2.
  rewrite <-(lv_range_agree v1 v2) in Hf2 by done.
  pose proof (lv_range_run v1 1 _ (vo_log _ (repr_ok _ _ Hv1)) Hr1 ltac:(lia)) as Hrun.
  rewrite (feed_apply_all _ 1 Hrun) in Hf1, Hf2.
  destruct (apply_all_replay _ ms 1 f1 empty_fsm f1' Hdec Hp1 Hh1 eq_refl Hf1) as (_ & v & Hv & Hh1').
  destruct (apply_all_replay _ ms 1 f2 empty_fsm f2' Hdec Hp2 Hh2 eq_refl Hf2) as (_ & w & Hw & Hh2').
  rewrite Hv in Hw. injection Hw as <-. exists v. split_and!; [done..|].
  apply fsm_replay_applied in Hv. cbn in Hv. rewrite <-(Forall2_length Hdec), length_fmap in Hv.
  rewrite Hv, lv_range_length by (done || lia). lia.
Qed.
End agreement.

(** ** The properties at concrete shells

    A store with three committed mutations, of which the second is a retry of
    the first. *)

From S2P Require Import SledStore Concrete StorageProps FsmSnapshot.
Import FsmExample.

Definition fed_entries : list LogEntry :=
  [LogEntry_new 1 1 (bytes_of first); LogEntry_new 2 1 (bytes_of first); LogEntry_new 3 2 (bytes_of second)].
Definition fed : DB := (SledStorage.append_entries_and_advance_commit fed_entries 3 MemSled.empty).2.
Definition fed_view : LogView := set_committed 3 (set_log (log_insert ∅ fed_entries) empty_view).
Abbreviation Shell := (ConsensusShell DB unit (LactoStore MemSled.db)).
Definition idle : Node :=
  mkLogicalNode fed
    (RS_Follower (mkNode (mkIdentity "cluster" 2) 3 0 (Follower_new None 0 15)))
    0 (calculate_thresholds RaftConfig_default) tt.
Definition idle_shell : Shell := mkShell idle (mkProgress 0 NR_Follower 3 3 0 None 0) 0 ∅ blank.

Lemma fed_repr : repr fed fed_view.
Proof.
  assert (Forall wire_ok fed_entries) as Hok by (repeat constructor; vm_compute; done).
  pose proof (append_entries_and_advance_commit_law fed_entries 3 MemSled.empty empty_view empty_repr Hok eq_refl) as Hlaw.
  assert (SledStorage.append_entries_and_advance_commit fed_entries 3 MemSled.empty = (Ok tt, fed)) as Hrun
    by (apply run_returns; by vm_compute).
  by destruct (wp_run _ _ _ _ _ _ Hlaw Hrun) as [Hr _].
Qed.
Lemma blank_applied : sm_last_applied blank = Ok 0.
Proof. vm_compute. reflexivity. Qed.
Lemma fed_range : has_range fed_view 1 3.
Proof.
  intros i H1 H2. assert (i = 1 ∨ i = 2 ∨ i = 3) as [->|[->| ->]] by lia; by apply (bool_decide_unpack _).
Qed.
Lemma fed_lv_range : lv_range fed_view 1 3 = fed_entries.
Proof. by vm_compute. Qed.
Lemma fed_decodes : decodes (le_data <$> lv_range fed_view 1 3) muts.
Proof. rewrite fed_lv_range. apply log_decodes. Qed.

Lemma freeze_depth_counts_witness :
  sh_freeze_depth (run_ops [true; true; false; false; false] idle_shell) = 0.
Proof. by apply (freeze_depth_counts [true; true; false; false; false] idle_shell). Defined.

Lemma snapshot_permit_exclusive_witness :
  (try_acquire_snapshot_permit 7 (try_acquire_snapshot_permit 7 idle_shell).2).1 = false.
Proof. by apply (snapshot_permit_exclusive 7 8 idle_shell (try_acquire_snapshot_permit 7 idle_shell).2). Defined.

Definition voting : st Shell halt RequestVoteResult := locked (on_node (handle_request_vote 1 3 7 2)).
Definition voted : Shell := (voting idle_shell).2.
Lemma lock_signal_atomic_witness :
  cp_term (sh_progress voted) = 3 ∧ published voted.
Proof.
  split; [by vm_compute|].
  apply (lock_signal_atomic (on_node (handle_request_vote 1 3 7 2)) idle_shell (voting idle_shell).1 voted);
    [by vm_compute| |by vm_compute|apply surjective_pairing|by vm_compute].
  intros x. unfold on_node, st_zoom. destruct (handle_request_vote _ _ _ _ _). reflexivity.
Defined.

Definition applied_shell : Shell := (apply_committed idle_shell).2.
Lemma apply_committed_run : apply_committed idle_shell = (Ok tt, applied_shell).
Proof. unfold applied_shell. apply run_returns. by vm_compute. Qed.
Lemma applier_applies_committed_witness :
  feed fed_entries blank = (Ok tt, sh_fsm applied_shell) ∧
  role_applied (ln_state (sh_node applied_shell)) = Some 3.
Proof.
  rewrite <-fed_lv_range.
  destruct (applier_applies_committed idle_shell fed_view 0 3 applied_shell) as (_ & Hf & Ha & _);
    [apply fed_repr|done|done|done|apply fed_range|apply apply_committed_run|].
  exact (conj Hf Ha).
Defined.

Definition recovered : LactoStore MemSled.db := (recover fed blank).2.
Lemma recover_run : recover fed blank = (Ok tt, recovered).
Proof. unfold recovered. apply run_returns. by vm_compute. Qed.
Lemma recovery_replays_committed_witness : feed fed_entries blank = (Ok tt, recovered).
Proof.
  rewrite <-fed_lv_range.
  destruct (recovery_replays_committed fed fed_view blank recovered (Ok tt) 0 fed_repr blank_applied recover_run)
    as (_ & _ & Hf).
  exact Hf.
Defined.

Lemma recovered_replicas_agree_witness :
  ∃ v, holds recovered v ∧ holds recovered v ∧ fv_applied v = 3.
Proof.
  apply (recovered_replicas_agree fed fed fed_view fed_view blank blank recovered recovered muts);
    [apply fed_repr|apply fed_repr|done|done|apply fed_decodes|done|done|apply blank_holds|apply blank_holds
    |apply blank_applied|apply blank_applied|apply recover_run|apply recover_run].
Defined.
