(* ===== verification/ShellSnapshot.v ===== *)
(** Snapshots under the shell: what a finished installation and a finished
    compaction leave, and what overlapping installations do. *)
From S2P Require Import Prelude Machine Types Wire Storage Timing Node Engine Consensus VoteSpec LogSpec EngineSpec Cluster NodeProps Sled Fsm FsmSpec FsmProps Shell ShellProps.

Section snapshots.
Context {S G F : Type} `{LogStorageLaws S} `{RngExt G} `{StateMachine F}.
Implicit Types (c : ConsensusShell S G F) (n : LogicalNode S G) (v : LogView).

Lemma save_metadata_view i t n v :
  repr (ln_store n) v → U64 i → U64 t →
  wp (eng_save_snapshot_metadata i t)
    (λ _ n', written (set_snapshot i t v) tt (ln_store n') ∧ ln_state n' = ln_state n)
    (λ _ _, True) n.
Proof.
  intros Hv Hi Ht. unfold eng_save_snapshot_metadata, delegate_mut. wp_step. wp_step. apply wp_get.
  assert (∀ R (m : RaftNode R) (f : RaftNode R → RoleState), f m = ln_state n →
    wp (run_node f m (on_store (node_write (save_snapshot_metadata i t))))
      (λ r n', r = Ok tt → written (set_snapshot i t v) tt (ln_store n') ∧ ln_state n' = ln_state n)
      (λ _ _, True) n) as Hrun.
  { intros R m f Hm. apply wp_run_node. unfold on_store, node_write. wp_steps.
    eapply wp_mono; [by apply (save_snapshot_metadata_law i t (ln_store n) v)| |].
    - intros [] s' Hw _. cbn. split; [done|by rewrite Hm].
    - intros e s' _. done. }
  destruct (ln_state n) as [m|m|m|m|] eqn:Hst; [..|by apply wp_fail].
  all: (eapply wp_mono; [by apply Hrun| |done]); intros r n' Hr; destruct r as [[]|e];
    cbn [or_fatal]; [apply wp_ret; by apply Hr|unfold apply_fatal; by wp_steps].
Qed.

Lemma thaw_view c (Q : unit → ConsensusShell S G F → Prop) :
  sh_freeze_depth c ≤ u32_max →
  (0 < sh_freeze_depth c → Q tt (sh_set_depth (sh_freeze_depth c - 1) c)) →
  wp thaw_or_fatal Q (λ _ _, True) c.
Proof.
  intros Hle HQ. unfold wp, thaw_or_fatal, thaw, u32_add, u32_sub, u32_max in *.
  destruct (N.eqb_spec (sh_freeze_depth c) 0) as [Hz|Hnz]; [done|].
  replace (sh_freeze_depth c + 2 ^ 32 - 1) with (sh_freeze_depth c - 1 + 1 * 2 ^ 32) by lia.
  rewrite N.Div0.mod_add, N.mod_small by lia. apply HQ. lia.
Qed.

(** A block that fails leaves the node poisoned. *)
Lemma locked_poisons {A} (m : st (ConsensusShell S G F) halt A) c e c' :
  is_ok (consensus_progress (sh_node c)).1 = true →
  locked m c = (Err e, c') → is_poisoned (sh_node c') = true.
Proof.
  unfold locked. destruct (consensus_progress (sh_node c)) as [[before|h] n]; [|done]. intros _.
  destruct (m _) as [[a|h] c1]; intros [= -> <-]. unfold guard_drop. cbn. by destruct (decide _).
Qed.

(** What an installation leaves: the horizon at the snapshot, the log as it
    was, one freeze less. *)
Definition at_snapshot (v : LogView) (i : LogIndex) (t : Term) (cm : LogIndex) c c' : Prop :=
  (∃ v', repr (ln_store (sh_node c')) v' ∧ lv_log v' = lv_log v ∧
     lv_snap_index v' = i ∧ lv_snap_term v' = t) ∧
  role_applied (ln_state (sh_node c')) = Some i ∧
  role_committed (ln_state (sh_node c')) = Some (N.max i cm) ∧
  sh_freeze_depth c' + 1 = sh_freeze_depth c.

Lemma phase3_view (index : LogIndex) (term : Term) (res : result sm_error unit) c v cm :
  repr (ln_store (sh_node c)) v → role_committed (ln_state (sh_node c)) = Some cm →
  U64 index → U64 term → sh_freeze_depth c ≤ u32_max →
  wp (install_phase3 index term res)
    (λ _ c', res = Ok tt ∧ at_snapshot v index term cm c c' ∧ sh_fsm c' = sh_fsm c) (λ _ _, True) c.
Proof.
  intros Hv Hcm Hi Ht Hd. unfold install_phase3. apply wp_locked. wp_step. apply thaw_view; [done|].
  intros Hpos. destruct res as [[]|e]; [|apply wp_on_node; unfold apply_fatal; by wp_steps].
  wp_step. apply wp_on_node. cbn [sh_set_depth sh_node].
  eapply wp_mono; [by apply (save_metadata_view index term (sh_node c) v)| |done].
  intros [] n1 [[Hr1 _] Hs1]. wp_step. apply wp_on_node. cbn [sh_set_node sh_node].
  eapply wp_mono; [apply (advance_horizon_view index n1 _ cm Hr1); by rewrite Hs1| |done].
  intros [[]|err] n2 Hn2; [|apply wp_on_node; unfold apply_fatal; by wp_steps].
  destruct (Hn2 eq_refl) as (v' & Hv' & [k ->] & Hc2 & Ha2). apply wp_ret. intros p.
  split; [done|]. split; [|done]. split; [by eexists; split_and!|]. split_and!; [done..|cbn; lia].
Qed.

(** C35: an installation that finishes has handed the leader's bytes to the
    state machine at the leader's index and, whatever other tasks do to the
    shell before its last phase, has moved the horizon, the applied and the
    commit index of the node there, kept the log and the state machine as it
    found them then, and released its freeze; when the state machine refuses
    the bytes the node is poisoned, never half installed. *)
Theorem snapshot_installed between (params : SnapshotParams) c v cm r c' :
  let restored := sm_install_snapshot (sp_last_included_index params) (sp_data params) (sh_fsm c) in
  let c1 := between (sh_set_fsm restored.2 c) in
  repr (ln_store (sh_node c1)) v → role_committed (ln_state (sh_node c1)) = Some cm →
  U64 (sp_last_included_index params) → U64 (sp_last_included_term params) →
  sh_freeze_depth c1 ≤ u32_max → is_ok (consensus_progress (sh_node c1)).1 = true →
  install_background between params c = (r, c') →
  match r with
  | Ok _ =>
      restored.1 = Ok tt ∧ sh_fsm c' = sh_fsm c1 ∧
      at_snapshot v (sp_last_included_index params) (sp_last_included_term params) cm c1 c'
  | Err _ => is_poisoned (sh_node c') = true
  end.
Proof.
  intros restored c1 Hv Hcm Hi Ht Hd Hread Hrun.
  assert (install_phase3 (sp_last_included_index params) (sp_last_included_term params) restored.1 c1 = (r, c'))
    as Hrun3.
  { rewrite <-Hrun. unfold install_background, mbind, st_bind, on_fsm, st_zoom, st_try, st_modify, c1, restored.
    by destruct (sm_install_snapshot _ _ _). }
  destruct r as [[]|h]; [|by eapply locked_poisons].
  by destruct (wp_run _ _ _ _ _ _ (phase3_view _ _ restored.1 c1 v cm Hv Hcm Hi Ht Hd) Hrun3) as (-> & Hat & ->).
Qed.

(** Compaction up to the applier: the horizon moves to [index], the entries
    beyond it stay. *)
Lemma compaction_view (index : LogIndex) (term : Term) c v (Q : unit → ConsensusShell S G F → Prop) :
  repr (ln_store (sh_node c)) v → U64 index → U64 term → sh_freeze_depth c ≤ u32_max →
  (∀ c', repr (ln_store (sh_node c')) (set_log (log_beyond index (lv_log v)) (set_snapshot index term v)) →
     ln_state (sh_node c') = ln_state (sh_node c) → sh_fsm c' = sh_fsm c →
     sh_freeze_depth c' + 1 = sh_freeze_depth c → wp apply_committed Q (λ _ _, True) c') →
  wp (log_compaction index term) Q (λ _ _, True) c.
Proof.
  intros Hv Hi Ht Hd HQ. unfold log_compaction. wp_step. unfold compaction_metadata.
  apply wp_locked, wp_on_node.
  eapply wp_mono; [by apply (save_metadata_view index term (sh_node c) v)| |done].
  intros [] n1 [[Hr1 Hd1] Hs1] p. wp_step. unfold compaction_truncate. apply wp_zoom, wp_try.
  cbn [sh_set_node sh_set_progress sh_node].
  eapply wp_mono; [by apply (truncate_log_front_law index (ln_store n1) _ Hr1)| |].
  2: { intros e s2 _. wp_step. unfold compaction_finish. apply wp_locked. wp_step.
       apply thaw_view; [done|]. intros _. apply wp_on_node. unfold apply_fatal. by wp_steps. }
  intros [] s2 [Hr2 _]. wp_step. unfold compaction_finish. apply wp_locked. wp_step.
  apply thaw_view; [done|]. intros Hpos. apply wp_ret. intros p'.
  apply HQ; [exact Hr2|exact Hs1|done|cbn in *; lia].
Qed.
Lemma has_range_beyond v a b :
  has_range v (a + 1) b → has_range (set_log (log_beyond a (lv_log v)) v) (a + 1) b.
Proof.
  intros Hr i Hi1 Hi2. destruct (Hr i Hi1 Hi2) as [e He]. exists e. cbn.
  apply map_lookup_filter_Some. split; [done|]. cbn. lia.
Qed.
Lemma lookup_log_beyond a i (l : gmap N LogEntry) :
  log_beyond a l !! i = if decide (i = 0 ∨ a < i) then l !! i else None.
Proof.
  unfold log_beyond. apply option_eq. intros e. rewrite map_lookup_filter_Some. cbn.
  destruct (decide _); split; intros; by (tauto || destruct_and?).
Qed.

(** C36: compaction loses nothing that is not applied.  It removes exactly
    the entries up to the applied index [a], records [a] as the horizon on
    disk, releases its freeze, and the applier then feeds the state machine
    every committed entry after [a], as it would have without compaction. *)
Theorem compaction_keeps_unapplied c v a cm (term : Term) c' :
  repr (ln_store (sh_node c)) v → role_applied (ln_state (sh_node c)) = Some a →
  role_committed (ln_state (sh_node c)) = Some cm → U64 a → U64 cm → U64 term →
  has_range v (a + 1) cm → sh_freeze_depth c ≤ u32_max →
  log_compaction a term c = (Ok tt, c') →
  role_applied (ln_state (sh_node c')) = Some cm ∧
  feed (lv_range v (a + 1) cm) (sh_fsm c) = (Ok tt, sh_fsm c') ∧
  sh_freeze_depth c' + 1 = sh_freeze_depth c ∧
  ∃ v', repr (ln_store (sh_node c')) v' ∧ lv_snap_index v' = a ∧ lv_snap_term v' = term ∧
    ∀ i, lv_log v' !! i = if decide (i = 0 ∨ a < i) then lv_log v !! i else None.
Proof.
  intros Hv Ha Hcm Hua Hu Ht Hr Hd Hrun.
  set (w := set_log (log_beyond a (lv_log v)) (set_snapshot a term v)).
  assert (lv_range w (a + 1) cm = lv_range v (a + 1) cm) as Hrange.
  { apply lv_range_agree. intros i Hi _. cbn. rewrite lookup_log_beyond, decide_True by lia. done. }
  assert (wp (log_compaction a term) (λ _ c', applied_to (sh_freeze_depth c - 1) c' w cm cm ∧
     0 < sh_freeze_depth c ∧ feed (lv_range w (a + 1) cm) (sh_fsm c) = (Ok tt, sh_fsm c'))
     (λ _ _, True) c) as Hwp.
  { apply (compaction_view a term c v); [done..|]. intros c1 Hv1 Hs1 Hf1 Hd1.
    assert (applied_to (sh_freeze_depth c1) c1 w a cm) as Hat.
    { split; [by exists (lv_committed v)|by rewrite Hs1|by rewrite Hs1|done]. }
    eapply wp_mono; [apply (apply_committed_view _ _ _ _ _ Hat)| |done].
    - apply vo_log. by eapply repr_ok.
    - done.
    - by apply has_range_beyond in Hr.
    - intros _ c2 (_ & Hat2 & Hfeed). rewrite Hf1 in Hfeed.
      replace (sh_freeze_depth c - 1) with (sh_freeze_depth c1) by lia. split_and!; [done|lia|done]. }
  destruct (wp_run _ _ _ _ _ _ Hwp Hrun) as ([[k Hv'] _ Ha' Hd'] & Hpos & Hfeed).
  split_and!; [done|by rewrite <-Hrange|lia|]. exists (set_committed k w).
  split_and!; [done..|]. intros i. apply lookup_log_beyond.
Qed.
End snapshots.

(** ** The properties at concrete shells *)

From S2P Require Import SledStore Concrete StorageProps FsmSnapshot.
Import FsmExample.

Definition snapshot_at (i : LogIndex) : SnapshotParams := mkSnapshotParams 1 1 i 1 ahead.
(** A follower that has accepted the snapshot at [i]. *)
Definition accept (i : LogIndex) (c : Shell) : Shell := (install_phase1 (snapshot_at i) c).2.
Definition blank_shell : Shell :=
  mkShell (fresh 2) (mkProgress 0 NR_Follower 0 0 0 None 0) 0 ∅ blank.
Definition accepted : Shell := accept 5 blank_shell.
Definition installed_shell : Shell := (install_background id (snapshot_at 5) accepted).2.
Definition accepted_store : DB := ln_store (sh_node accepted).

Example accepted_frozen : sh_freeze_depth accepted = 1.
Proof. by vm_compute. Qed.
Example accepted_applied : role_applied (ln_state (sh_node installed_shell)) = Some 5.
Proof. by vm_compute. Qed.
Example accepted_term : SledStorage.current_term accepted_store = Ok 1.
Proof. by vm_compute. Qed.

Definition install_run (c : Shell) (i : LogIndex) : Shell := (install_background id (snapshot_at i) c).2.
(** Two snapshots are accepted, and the older one is restored last: the
    applied index and the horizon go back to 5 while the commit index stays
    at 9, the entries between are in no log, and the applier halts the
    node. *)
Definition overlapped : Shell := install_run (install_run (accept 9 accepted) 9) 5.
Lemma overlapping_installs_halt :
  is_ok (install_background id (snapshot_at 5) (install_run (accept 9 accepted) 9)).1 = true ∧
  sh_freeze_depth overlapped = 0 ∧
  role_committed (ln_state (sh_node overlapped)) = Some 9 ∧
  role_applied (ln_state (sh_node overlapped)) = Some 5 ∧
  SledStorage.last_included_index (ln_store (sh_node overlapped)) = Ok 5 ∧
  (apply_committed overlapped).1 = Err (Halt (Protocol "Committed entry missing from log storage")).
Proof. split_and!; by vm_compute. Qed.

Definition accepted_view : LogView := set_hard_state 1 None empty_view.
Lemma accepted_repr : repr accepted_store accepted_view.
Proof.
  pose proof (save_hard_state_law 1 None MemSled.empty empty_view empty_repr eq_refl I) as Hlaw.
  assert (SledStorage.save_hard_state 1 None MemSled.empty = (Ok tt, accepted_store)) as Hrun by (by vm_compute).
  by destruct (wp_run _ _ _ _ _ _ Hlaw Hrun) as [Hr _].
Qed.
Lemma installed_returns : install_background id (snapshot_at 5) accepted = (Ok tt, installed_shell).
Proof. unfold installed_shell. apply run_returns. by vm_compute. Qed.
Lemma snapshot_installed_witness :
  sh_fsm installed_shell = (Lacto.install_snapshot 5 ahead blank).2 ∧
  role_applied (ln_state (sh_node installed_shell)) = Some 5.
Proof.
  destruct (snapshot_installed id (snapshot_at 5) accepted accepted_view 0 (Ok tt) installed_shell)
    as (_ & Hf & _ & Happ & _);
    [apply accepted_repr|by vm_compute|done|done|by vm_compute|by vm_compute|apply installed_returns|].
  split; [exact Hf|exact Happ].
Defined.

(** One of the three entries is applied when the log is compacted. *)
Definition partial : Shell :=
  mkShell (mkLogicalNode fed
      (RS_Follower (mkNode (mkIdentity "cluster" 2) 3 1 (Follower_new None 0 15)))
      0 (calculate_thresholds RaftConfig_default) tt)
    (mkProgress 0 NR_Follower 3 3 1 None 0) 1 ∅ done1.
Definition compacted : Shell := (log_compaction 1 1 partial).2.
Lemma compacted_run : log_compaction 1 1 partial = (Ok tt, compacted).
Proof. unfold compacted. apply run_returns. by vm_compute. Qed.
Lemma compaction_keeps_unapplied_witness :
  role_applied (ln_state (sh_node compacted)) = Some 3 ∧ sh_freeze_depth compacted + 1 = 1.
Proof.
  destruct (compaction_keeps_unapplied partial fed_view 1 3 1 compacted) as (Ha & _ & Hd & _);
    [apply fed_repr|done|done|done|done|done|intros i Hi1 Hi2; apply fed_range; lia|done|apply compacted_run|].
  exact (conj Ha Hd).
Defined.
