(* ===== verification/GatewayProps.v ===== *)
(** Properties of the gateway: what the firewall admits the state machine
    applies as new or skips as a duplicate, what the stabilizer lets through is physical, and the
    stored inventory stays readable. *)
From S2P Require Import Prelude Machine Types Wire Sled Fsm FsmSpec FsmProps Text Units Consensus Gateway.

(** ** The firewall *)

(** The sequence firewall is exact.  For a client whose session ends at
    [last] (0 without a session) it admits the number after [last] and no
    other: the last one gets the recorded outcome again, older ones, gaps and
    zero are rejected. *)
Theorem firewall_exact (o : option SessionRecord) seq :
  let last := from_option sr_last_sequence_id 0 o in
  last < u64_max → (∀ r, o = Some r → 0 < sr_last_sequence_id r) →
  (enforce_sequence_firewall (Ok o) seq = Ok None ↔ seq = last + 1) ∧
  (seq ≠ last + 1 → ∃ resp, enforce_sequence_firewall (Ok o) seq = Ok (Some resp) ∧
     (seq ≠ 0 → seq = last → ∀ r, o = Some r →
        pmr_status resp = sr_status r ∧ pmr_state_version resp = sr_log_index r) ∧
     (seq ≠ last → pmr_status resp = MutationStatus_as_i32 MS_Rejected)).
Proof.
  intros last Hlast Hpos. unfold enforce_sequence_firewall.
  destruct (N.eqb_spec seq 0) as [->|Hz].
  { split; [split; [done|lia]|]. intros _. eexists. split; [done|]. by split. }
  cbn [map_err mbind result_bind]. unfold mbind, result_bind.
  destruct o as [r|]; cbn in last; subst last.
  - specialize (Hpos r eq_refl). unfold wrapping_add, u64_max, u64_modulus in *.
    rewrite N.mod_small by lia.
    destruct (N.eqb_spec seq (sr_last_sequence_id r)) as [->|Hne].
    { split; [split; [done|lia]|]. intros _. eexists. split; [done|].
      split; [|lia]. by intros _ _ r' [= <-]. }
    destruct (N.ltb_spec seq (sr_last_sequence_id r)).
    { split; [split; [done|lia]|]. intros _. eexists. split; [done|]. split; [lia|done]. }
    destruct (N.ltb_spec (sr_last_sequence_id r + 1) seq).
    { split; [split; [done|lia]|]. intros _. eexists. split; [done|]. split; [lia|done]. }
    split; [split; [lia|done]|lia].
  - destruct (N.eqb_spec seq 1) as [->|Hne]; cbn.
    + split; [done|lia].
    + split; [split; [done|lia]|]. intros _. eexists. split; [done|]. by split.
Qed.

Lemma firewall_admits o seq :
  U64 seq → enforce_sequence_firewall o seq = Ok None →
  ∃ r, o = Ok r ∧ seq = from_option sr_last_sequence_id 0 r + 1.
Proof.
  intros Hu. unfold enforce_sequence_firewall. destruct (N.eqb_spec seq 0); [done|].
  destruct o as [o|]; cbn [map_err]; unfold mbind, result_bind; [|done].
  intros Hf. exists o. split; [done|]. destruct o as [r|]; cbn.
  - destruct (N.eqb_spec seq (sr_last_sequence_id r)); [done|].
    destruct (N.ltb_spec seq (sr_last_sequence_id r)); [done|].
    unfold wrapping_add, U64, u64_modulus in *. rewrite N.mod_small in Hf by lia.
    destruct (N.ltb_spec (sr_last_sequence_id r + 1) seq); [done|lia].
  - destruct (N.eqb_spec seq 1); [done|done].
Qed.

Section admission.
Context {C D V : Type} `{ConsensusHandle C, SledLaws D, UuidText, VetoRelay V}.
Context `{Message GroceryItem, Message SessionRecord, Message CommittedMutation, Message Timestamp, Message SnapshotData}.
Context `{!MessageLaws GroceryItem, !MessageLaws SessionRecord, !MessageLaws CommittedMutation, !MessageLaws Timestamp, !MessageLaws SnapshotData}.

Lemma check_session_latest client (s : LactoStore D) v :
  holds s v → fs_poisoned s = false →
  wp (Lacto.check_session client 0) (λ r s', s' = s ∧ r = fv_sessions v !! client) (λ _ s', s' = s) s.
Proof.
  intros Hv Hp. unfold Lacto.check_session. wp_step. apply wp_check_not_poisoned; [done|].
  wp_step. unfold Lacto.reads. pose proof (get_session_record_law (fs_db s) v client Hv) as Hlaw.
  apply wp_reads; intros x Hx; rewrite Hx in Hlaw; [|done]. subst x. apply wp_ret. split; [done|].
  by destruct (fv_sessions v !! client).
Qed.

Lemma admitted_sequence client seq (w w' : World C D V) v :
  holds (w_store w) v → fs_poisoned (w_store w) = false → U64 seq →
  admit_mutation client seq w = (Ok (inr tt), w') → seq = last_seen v client + 1 ∧ w' = w.
Proof.
  intros Hv Hp Hu. unfold admit_mutation, authorize_mutation, mbind, st_bind, st_gets.
  destruct (ca_is_poisoned _); [done|]. destruct (negb _); [done|].
  unfold on_store_of, st_zoom, st_try.
  pose proof (check_session_latest client (w_store w) v Hv Hp) as Hc. unfold wp in Hc.
  destruct (Lacto.check_session client 0 (w_store w)) as [[r|e] s'].
  - destruct Hc as [-> ->]. unfold st_lift. cbn.
    destruct (enforce_sequence_firewall _ _) as [[x|]|] eqn:Hf; cbn; [done| |done].
    intros [= <-]. destruct (firewall_admits _ _ Hu Hf) as (r & [= <-] & Hseq).
    split; [done|]. by destruct w.
  - unfold st_lift. cbn. destruct (enforce_sequence_firewall _ _) as [[x|]|] eqn:Hf; cbn; [done| |done].
    destruct (firewall_admits _ _ Hu Hf) as (r & ? & _). done.
Qed.

(** The proposal [p], applied as new at [index] to the ledger [u]. *)
Definition applied_as_new (index : LogIndex) (p : MutationProposal) (now : Timestamp) (u u' : FsmView) : Prop :=
  let s := mp_stabilized p in
  let m := proposed_mutation p now in
  fv_applied u' = index ∧
  fv_sessions u' = <[mp_client_id p :=
    SessionRecord_new (mp_client_id p) (mp_sequence_id p) (proposal_status (mp_status p)) index
      (sb_moral_justification s) now]> (fv_sessions u) ∧
  fv_inventory u' =
    match mp_status p with
    | PS_Vetoed => fv_inventory u
    | PS_Committed =>
        if bool_decide (si_operation (mp_intent p) = Op_Delete)
        then delete (sb_resolved_item_key s) (fv_inventory u)
        else <[sb_resolved_item_key s := Lacto.item_from_mutation index m]> (fv_inventory u)
    end.

(** The step on a ledger whose session of the client has reached [seq - 1] or
    more. *)
Lemma proposal_steps p now (u : FsmView) :
  let client := mp_client_id p in
  uuid_parse client = Some client → U64 (fv_applied u + 1) → U64 (last_seen u client + 1) →
  mp_sequence_id p ≤ last_seen u client + 1 →
  ∃ u', fsm_step (fv_applied u + 1) (proposed_mutation p now) u = Ok u' ∧
    if decide (last_seen u client + 1 = mp_sequence_id p)
    then applied_as_new (fv_applied u + 1) p now u u' else u' = set_applied (fv_applied u + 1) u.
Proof.
  intros client Hid Hi Hl Hle. set (m := proposed_mutation p now).
  assert (if decide (last_seen u client + 1 = mp_sequence_id p)
          then last_seen u client < mp_sequence_id p else mp_sequence_id p ≤ last_seen u client) as Hcase
    by (case_decide; lia).
  destruct (decide _) as [Hnew|_].
  all: assert (cm_client_id m = client) as Hmc by done.
  all: assert (cm_sequence_id m = mp_sequence_id p) as Hms by done.
  all: unfold fsm_step, index_add; rewrite newtype_add_exact by done; cbn; rewrite N.eqb_refl; cbn;
    unfold session_step; rewrite Hmc, Hms; unfold ClientId_from_str; rewrite Hid; cbn;
    unfold seq_add; rewrite newtype_add_exact by done; cbn;
    destruct (N.leb_spec (mp_sequence_id p) (last_seen u client)); try lia.
  2: by eexists.
  destruct (N.ltb_spec (last_seen u client + 1) (mp_sequence_id p)); [lia|].
  unfold m at 1. cbn. destruct (mp_status p) eqn:Hs; cbn; (eexists; split; [done|]);
    unfold applied_as_new; rewrite Hs; cbn; by split_and!.
Qed.
Lemma proposed_mutation_ok p now : U64 (mp_sequence_id p) → wire_ok now → wire_ok (proposed_mutation p now).
Proof.
  intros Hu Hn. split; [done|]. split; [done|]. unfold i32_ok. cbn. by destruct (mp_status p).
Qed.

(** C21: what the gateway admits, the state machine takes.  The request that
    the firewall lets pass on the ledger [v] of its node carries the number
    after the one that [v] has recorded for its client.  The entry proposed
    for it may meet any later ledger [u], at whatever index, since the
    firewall is not asked again: if the session of the client is where it was,
    the mutation is applied as new, recording its number and outcome for this
    client and touching nobody else's session, and changes its own item, or
    nothing when it was vetoed; if the session has moved on, the entry is
    skipped as a duplicate and changes nothing but the applied index.  In
    neither case does the state machine refuse it: only the disk can fail. *)
Theorem admitted_mutation_applies client seq (w w' : World C D V) v p now (s s' : LactoStore D) u r :
  holds (w_store w) v → fs_poisoned (w_store w) = false → U64 seq →
  admit_mutation client seq w = (Ok (inr tt), w') →
  uuid_parse client = Some client → mp_client_id p = client → mp_sequence_id p = seq → wire_ok now →
  holds s u → fs_poisoned s = false → U64 (fv_applied u + 1) →
  last_seen v client ≤ last_seen u client → U64 (last_seen u client + 1) →
  Lacto.apply (fv_applied u + 1) (encode_to_vec (proposed_mutation p now)) s = (r, s') →
  seq = last_seen v client + 1 ∧ fs_poisoned s' = false ∧
  ∃ u',
    (if decide (last_seen u client = last_seen v client)
     then applied_as_new (fv_applied u + 1) p now u u' else u' = set_applied (fv_applied u + 1) u) ∧
    match r with
    | Ok _ => holds s' u' ∧ stored s' u'
    | Err e => io_failure e ∧ (holds s' u ∨ holds s' u')
    end.
Proof.
  intros Hv Hp Hu Hadm Hid Hc Hq Hnow Hs Hps Hi Hmono Hlast Hrun.
  destruct (admitted_sequence client seq w w' v Hv Hp Hu Hadm) as [Hseq _]. split; [done|].
  subst client. destruct (proposal_steps p now u) as (u' & Hstep & Hu'); [done..|lia|].
  set (m := proposed_mutation p now) in *.
  assert (wire_ok m) as Hm by (apply proposed_mutation_ok; [by rewrite Hq|done]).
  pose proof (apply_spec (fv_applied u + 1) (encode_to_vec m) m s u (decode_encode_to_vec m Hm) Hm Hps Hs) as Hwp.
  assert ((if decide (last_seen u (mp_client_id p) = last_seen v (mp_client_id p))
           then applied_as_new (fv_applied u + 1) p now u u' else u' = set_applied (fv_applied u + 1) u)) as Hout.
  { case_decide; case_decide; try done; lia. }
  destruct r as [[]|e]; apply (wp_run _ _ _ _ _ _ Hwp) in Hrun.
  - destruct Hrun as (u1 & Hstep1 & Hh & Hst & Hpp). rewrite Hstep in Hstep1. injection Hstep1 as <-.
    split; [done|]. by exists u'.
  - destruct Hrun as [(Hbad & _)|(He & Hpp & Hh & _)]; [by rewrite Hstep in Hbad|]. split; [done|].
    exists u'. split; [done|]. split; [done|]. destruct Hh as [?|(u1 & Hstep1 & ?)]; [by left|].
    rewrite Hstep in Hstep1. injection Hstep1 as <-. by right.
Qed.
End admission.

(** ** The stabilizer *)

Section stabilizer.
Context {Q : Type} `{DecimalLaws Q, UnicodeTextLaws}.



(** The base quantity of a request: the parsed quantity times the multiplier
    of the oracle for a contextual unit, times that of the registry
    otherwise. *)
Definition converted (quantity mult : string) (e : UnitRegistryEntry Q) (b : PhysicalQuantity Q) : Prop :=
  ∃ ai n x, dec_from_str mult = Some ai ∧ dec_from_str quantity = Some n ∧
    dec_checked_mul n (if ur_is_contextual e then ai else ur_multiplier e) = Some x ∧
    b = construct_quantity (ur_dimension e) (dec_round SI_STABILIZATION_PRECISION x).

Lemma unit_stabilization_Ok (quantity u mult : string) (x : PhysicalQuantity Q) :
  verify_unit_stabilization quantity u mult = Ok x →
  dec_is_sign_negative (pq_value x) = false ∧ dec_is_zero (pq_value x) = false ∧
  ∃ e, resolve_symbol (Q:=Q) u = Ok e ∧ converted quantity mult e x ∧ pq_dimension x = ur_dimension e.
Proof.
  unfold verify_unit_stabilization. destruct (resolve_symbol u) as [e|] eqn:He; cbn; [|done].
  destruct (dec_from_str mult) as [ai|] eqn:Hai; cbn; [|done].
  destruct (if ur_is_contextual e then _ else _) as [b|] eqn:Hb; cbn; [|done].
  destruct (_ || _) eqn:Hz; [done|]. intros [= <-]. apply orb_false_iff in Hz as [Hn Hz].
  split_and!; [done|done|]. exists e. split; [done|].
  assert (converted quantity mult e b) as Hconv; [|split; [done|]; destruct Hconv as (? & ? & ? & _ & _ & _ & ->); apply dimension_construct].
  exists ai. unfold parse_and_convert_with_multiplier, parse_and_convert, convert_to_base_val in Hb. rewrite He in Hb.
  destruct (ur_is_contextual e); cbn in Hb;
    destruct (dec_from_str quantity) as [n|]; cbn in Hb; try done;
    destruct (dec_checked_mul n _) as [y|] eqn:Hy; cbn in Hb; try done;
    injection Hb as <-; by exists n, y.
Qed.

(** What an accumulation did with the item that was there. *)
Definition accumulated_from (op : Operation) (old : option GroceryItem)
    (b r : PhysicalQuantity Q) : Prop :=
  match op, old with
  | Op_Add, Some i => ∃ x, parse_and_convert (gi_quantity i) (gi_unit i) = Ok x ∧
      pq_dimension x = pq_dimension b ∧ dec_checked_add (pq_value x) (pq_value b) = Some (pq_value r)
  | Op_Subtract, Some i => ∃ x, parse_and_convert (gi_quantity i) (gi_unit i) = Ok x ∧
      pq_dimension x = pq_dimension b ∧ dec_checked_sub (pq_value x) (pq_value b) = Some (pq_value r)
  | _, _ => r = b
  end.

Lemma accumulation_Ok intent key b r inv :
  dec_is_sign_negative (pq_value b) = false →
  apply_arithmetic_accumulation intent key b inv = Ok r →
  dec_is_sign_negative (pq_value r) = false ∧ pq_dimension r = pq_dimension b ∧
  accumulated_from (si_operation intent) (find_item key inv) b r.
Proof.
  intros Hb. unfold apply_arithmetic_accumulation, accumulated_from.
  destruct (accumulates (si_operation intent)) eqn:Hacc.
  2: { intros [= <-]. by destruct (si_operation intent). }
  destruct (find_item key inv) as [i|]; [|by intros [= <-]; destruct (si_operation intent)].
  destruct (parse_and_convert _ _) as [x|] eqn:Hx; cbn; [|done].
  destruct (si_operation intent); try done.
  - rewrite decide_True by done. destruct (pq_add x b) as [y|] eqn:Hy; cbn; [|done].
    destruct (dec_is_sign_negative (pq_value y)) eqn:Hn; [done|]. intros [= <-].
    apply pq_add_Ok in Hy as (Hd & Hd' & Ha). split_and!; [done|congruence|]. by exists x.
  - rewrite decide_False by done. destruct (pq_sub x b) as [y|] eqn:Hy; cbn; [|done].
    destruct (dec_is_sign_negative (pq_value y)) eqn:Hn; [done|]. intros [= <-].
    apply pq_sub_Ok in Hy as (Hd & Hd' & Ha). split_and!; [done|congruence|]. by exists x.
Qed.

(** C30: what the stabilizer lets through is physical.  The key is the
    oracle's, a canonical slug, and the category a registered one.  For an
    ADD, SUBTRACT or SET the request has a quantity; converted with the
    oracle's unit (by its own multiplier for a contextual unit, by the
    registry's otherwise) it is strictly positive, and it is what is stored,
    except that for an ADD or SUBTRACT on an item that exists it is the
    checked sum or difference with the stored quantity, in one dimension;
    what is stored is not negative and in the base unit of the oracle's unit.
    For a DELETE quantity and unit are zero units, whatever the request says. *)
Theorem stabilized_physical intent veto inv s :
  validate_and_stabilize (Q:=Q) intent veto inv = Ok s →
  sb_resolved_item_key s = ve_resolved_item_key veto ∧ is_slug (sb_resolved_item_key s) = true ∧
  category_from_str (ve_category_assignment veto) = Some (sb_category s) ∧
  (si_operation intent = Op_Delete → sb_updated_base_quantity s = "0" ∧ sb_base_unit s = "units") ∧
  (si_operation intent ≠ Op_Delete →
   ∃ q e (b r : PhysicalQuantity Q), si_quantity intent = Some q ∧
     resolve_symbol (Q:=Q) (ve_resolved_unit veto) = Ok e ∧
     converted q (ve_conversion_multiplier_to_base veto) e b ∧
     dec_is_sign_negative (pq_value b) = false ∧ dec_is_zero (pq_value b) = false ∧
     accumulated_from (si_operation intent) (find_item (sb_resolved_item_key s) inv) b r ∧
     pq_dimension r = ur_dimension e ∧ dec_is_sign_negative (pq_value r) = false ∧
     sb_base_unit s = base_unit (ur_dimension e) ∧
     sb_updated_base_quantity s = dec_to_string (pq_value r)).
Proof.
  unfold validate_and_stabilize, verify_category_registry.
  destruct (category_from_str _) as [cat|]; cbn; [|done].
  destruct (decide (slugify _ = _)) as [Hslug|]; [|done].
  assert (is_slug (ve_resolved_item_key veto) = true) as His by (rewrite <-Hslug; apply slugify_is_slug).
  destruct (decide (si_operation intent = Op_Delete)) as [|Hop]; [by intros [= <-]|].
  destruct (si_quantity intent) as [q|]; cbn; [|done].
  destruct (verify_unit_stabilization q _ _) as [b|] eqn:Hb; cbn; [|done].
  destruct (enforce_physical_invariants _ _ _ _) as [[]|]; cbn; [|done].
  destruct (apply_arithmetic_accumulation _ _ _ _) as [r|] eqn:Hr; cbn; [|done]. intros [= <-]. cbn.
  destruct (unit_stabilization_Ok _ _ _ _ Hb) as (Hn & Hz & e & He & Hconv & Hd).
  destruct (accumulation_Ok _ _ _ _ _ Hn Hr) as (Hn' & Hd' & Hacc).
  split_and!; [done..|]. intros _. exists q, e, b, r. split_and!; try done; congruence.
Qed.



End stabilizer.

(** ** The retry loop *)

Section oracle.
Context {Q : Type} `{Decimal Q, UnicodeText}.

(** A relay that counts the questions. *)
Definition counted {V} `{VetoRelay V} : VetoRelay (V * nat) := λ client intent inv p,
  let '(r, v) := veto_evaluate client intent inv p.1 in (r, (v, S p.2)).

(** C32: the resolution always ends with a record.  It asks the oracle at
    least once and at most one time more than the configured retries, and
    answers with a stabilized mutation of an approval, with a veto of
    quantity zero, or with the error of the last question. *)
Theorem resolution_bounded {V} `{VetoRelay V} config client intent inv v k r v' k' :
  @resolve_semantic_mutation Q _ _ (V * nat) counted config client intent inv (v, k) = (r, (v', k')) →
  (k < k' ≤ k + ic_veto_max_retries config + 1)%nat ∧
  match r with
  | Ok (MS_Committed, s) => ∃ veto, ve_is_approved veto = true ∧
      validate_and_stabilize (Q:=Q) intent veto inv = Ok s
  | Ok (MS_Vetoed, s) => sb_updated_base_quantity s = "0" ∧ sb_base_unit s = "units" ∧
      sb_category s = AnomalousInputs
  | Ok _ => False
  | Err e => ∃ x, e = veto_status x
  end.
Proof.
  unfold resolve_semantic_mutation. generalize (ic_veto_max_retries config) as n. intros n.
  revert v k. induction n as [|n IH]; intros v k; cbn [resolve_loop];
    unfold mbind at 1, st_bind at 1, st_try, evaluate_policy, counted at 1, veto_evaluate at 1; cbn [fst snd];
    destruct (veto_evaluate _ _ _ v) as [[veto|e] v1] eqn:Hv; cbn [map_err].
  - destruct (negb (ve_is_approved veto)) eqn:Hap; [intros [= <- <- <-]; split; [lia|done]|].
    apply negb_false_iff in Hap. destruct (validate_and_stabilize _ _ _) as [s|] eqn:Hs;
      intros [= <- <- <-]; (split; [lia|]); [by exists veto|done].
  - intros [= <- <- <-]. split; [lia|]. by exists e.
  - destruct (negb (ve_is_approved veto)) eqn:Hap; [intros [= <- <- <-]; split; [lia|done]|].
    apply negb_false_iff in Hap. destruct (validate_and_stabilize _ _ _) as [s|] eqn:Hs.
    + intros [= <- <- <-]. split; [lia|]. by exists veto.
    + intros [Hk Hr]%IH. split; [lia|done].
  - intros [Hk Hr]%IH. split; [lia|done].
Qed.
End oracle.

(** ** The properties at a concrete gateway

    Whole-number decimals, ASCII text, an oracle that answers from a list and
    a leader whose proposals are committed at once. *)
Module GatewayExample.
Fixpoint digits (acc : N) (l : chars) : option N :=
  match l with
  | [] => Some acc
  | c :: l' => match digit_value c with Some d => digits (acc * 10 + d) l' | None => None end
  end.
Definition read_digits (s : string) : option N :=
  match to_chars s with [] => None | l => digits 0 l end.

#[export] Instance whole : Decimal N := {|
  dec_one := 1;
  dec_from n := n;
  dec_from_parts lo _ _ _ scale := lo / 10 ^ scale;
  dec_from_str := read_digits;
  dec_to_string := to_decimal;
  dec_checked_add a b := Some (a + b);
  dec_checked_sub := checked_sub;
  dec_checked_mul a b := Some (a * b);
  dec_checked_div a b := if b =? 0 then None else Some (a / b);
  dec_round _ n := n;
  dec_is_sign_negative _ := false;
  dec_is_zero n := n =? 0;
|}.

Lemma digits_pretty_go x s :
  digits 0 (to_chars (pretty_N_go x s)) = digits x (to_chars s).
Proof.
  revert s. induction (N.lt_wf_0 x) as [x _ IH]. intros s.
  destruct (decide (0 < x)) as [Hpos|Hzero]; [|by assert (x = 0) as -> by lia].
  rewrite pretty_N_go_step by done. rewrite IH by (apply N.div_lt; lia).
  unfold to_chars. cbn [String.list_ascii_of_string digits]. rewrite digit_value_char by (by apply N.mod_lt).
  f_equal. rewrite N.mul_comm. symmetry. by apply N.div_mod.
Qed.
Lemma read_to_decimal n : read_digits (to_decimal n) = Some n.
Proof.
  unfold read_digits, to_decimal, pretty, pretty_N. destruct (decide (n = 0)) as [->|]; [done|].
  pose proof (digits_pretty_go n "") as Hd. destruct (pretty_go_cons n "" ltac:(lia)) as (d & s' & _ & Hs).
  rewrite Hs in *. exact Hd.
Qed.
#[export] Instance whole_laws : DecimalLaws N.
Proof. split. intros q. exists q, (q * 1). split; [apply read_to_decimal|done]. Qed.

#[export] Instance ascii_text : UnicodeText := {|
  str_trim := ascii_trim; str_trim_end := ascii_trim_end; str_to_lowercase := ascii_lowercase;
  str_split_whitespace s := [s];
|}.
#[export] Instance ascii_text_laws : UnicodeTextLaws.
Proof. by split. Qed.

Definition Oracle : Type := list VetoOutcome.
#[export] Instance oracle_relay : VetoRelay Oracle := λ _ _ _ l,
  match l with [] => (Err VE_RpcFailure, []) | o :: l' => (Ok o, l') end.

(** The commands in the log of a leader. *)
Definition Leading : Type := list bytes.
#[export] Instance leading_handle : ConsensusHandle Leading := {|
  h_authority l := mkAuthority true false (N.of_nat (length l)) "" "";
  h_propose data l := (Ok (N.of_nat (length l) + 1), l ++ [data]);
  h_await_commit index l := (Some (Ok tt), l);
  h_await_apply index l := (Some (Ok tt), l);
  h_verify_leadership l := (Ok tt, l);
|}.
End GatewayExample.

Import FsmExample GatewayExample.

Definition bob : string := "0a1b2c3d-0000-4000-8000-000000000002".
Definition eggs_approved : VetoOutcome :=
  mkVeto true "Animal Secretions" "protein" "eggs" "Eggs" "units" "1".
Definition add_eggs (client : string) (seq : N) (qty : string) : ProposeMutationRequest :=
  mkProposeMutationRequest client seq
    (Some (MutationIntent_new "Eggs" (Some qty) (Some "units") None OT_Add)).
Definition noon : Timestamp := mkTimestamp 100 0.
Abbreviation Gate := (World Leading MemSled.db Oracle).
Definition open_gate : Gate := mkWorld [] blank [eggs_approved; eggs_approved].
Definition request (r : ProposeMutationRequest) : st Gate Status ProposeMutationResponse :=
  handle_propose_mutation (Q:=N) (mkIngressConfig 2) id id noon r.
Definition response_status (r : result Status ProposeMutationResponse) : option Z :=
  pmr_status <$> ok r.
(** The quantity of an item after the log is applied. *)
Definition quantity_after (log : list bytes) (key : string) : option string :=
  gi_quantity <$> (ok (Lacto.get_inventory (apply_all 1 log blank).2).1 ≫= find_item key).

(** The dispatcher waits for the commit, not for the state machine: two ADDs
    of 2 and 3 that are both committed before the first is applied leave 3,
    because the second is computed from the inventory without the first. *)
Lemma concurrent_adds_lose_update :
  let w1 := request (add_eggs alice 1 "2") open_gate in
  let w2 := request (add_eggs bob 1 "3") w1.2 in
  response_status w1.1 = Some 1%Z ∧ response_status w2.1 = Some 1%Z ∧
  quantity_after (w_handle w2.2) "eggs" = Some "3".
Proof. split_and!; by vm_compute. Qed.

(** For the same reason a client that continues after its acknowledgement can
    be told that it has left a gap. *)
Lemma next_request_rejected :
  let w1 := request (add_eggs alice 1 "2") open_gate in
  let w2 := request (add_eggs alice 2 "3") w1.2 in
  response_status w1.1 = Some 1%Z ∧
  (pmr_status <$> ok w2.1, pmr_error_message <$> ok w2.1)
  = (Some 2%Z, Some "Secure Clinical: Session Initialization Violation").
Proof. split_and!; by vm_compute. Qed.

(** A SUBTRACT of an item that does not exist creates it. *)
Lemma subtract_creates_item :
  apply_arithmetic_accumulation (mkIntent "eggs" Op_Subtract (Some "4") None None) "eggs"
    (PQ_Count (4 : N)) [] = Ok (PQ_Count 4).
Proof. done. Qed.

Definition alice_record : SessionRecord := SessionRecord_new alice 4 MS_Committed 9 "milk" noon.
Lemma firewall_exact_witness :
  enforce_sequence_firewall (Ok (Some alice_record)) 5 = Ok None.
Proof.
  destruct (firewall_exact (Some alice_record) 5) as [Hiff _]; [done|by intros r [= <-]|].
  by apply Hiff.
Defined.

Definition alice_proposal : MutationProposal :=
  mkProposal alice 1 (mkIntent "eggs" Op_Add (Some "2") None None)
    (mkStabilized "eggs" "Eggs" "2" "units" "units" AnimalSecretions "protein") "Add 2 eggs" PS_Committed.
Definition alice_applied : LactoStore MemSled.db :=
  (Lacto.apply 1 (encode_to_vec (proposed_mutation alice_proposal noon)) blank).2.
Lemma alice_applied_run :
  Lacto.apply 1 (encode_to_vec (proposed_mutation alice_proposal noon)) blank = (Ok tt, alice_applied).
Proof. apply run_returns. by vm_compute. Qed.
Lemma admitted_mutation_applies_witness :
  ∃ u', applied_as_new 1 alice_proposal noon empty_fsm u' ∧ holds alice_applied u'.
Proof.
  destruct (admitted_mutation_applies alice 1 open_gate open_gate empty_fsm alice_proposal noon
              blank alice_applied empty_fsm (Ok tt))
    as (_ & _ & u' & Hnew & Hh & _);
    [apply blank_holds|done|done|by vm_compute|done|done|done|split; cbn; lia|apply blank_holds|done|done|
     reflexivity|done|exact alice_applied_run|].
  exists u'. split; [exact Hnew|exact Hh].
Defined.

Definition add_two : ScrubbedIntent := mkIntent "eggs" Op_Add (Some "2") None None.
Definition five_eggs : GroceryItem :=
  GroceryItem_new "eggs" "5" "units" "Animal Secretions" alice noon 3 "units".
Definition seven_eggs : StabilizedMutation :=
  mkStabilized "eggs" "Eggs" "7" "units" "units" AnimalSecretions "protein".
Lemma stabilized_physical_witness :
  validate_and_stabilize (Q:=N) add_two eggs_approved [five_eggs] = Ok seven_eggs ∧
  is_slug (sb_resolved_item_key seven_eggs) = true ∧
  ∃ e b, resolve_symbol (Q:=N) "units" = Ok e ∧ converted "2" "1" e b.
Proof.
  split; [by vm_compute|].
  destruct (stabilized_physical (Q:=N) add_two eggs_approved [five_eggs] seven_eggs ltac:(by vm_compute))
    as (_ & Hslug & _ & _ & Hq). split; [exact Hslug|].
  destruct (Hq ltac:(done)) as (q & e & b & r & [= <-] & He & Hb & _). by exists e, b.
Defined.


(** The oracle answers with an unknown unit first. *)
Definition blorgs : VetoOutcome :=
  mkVeto true "Animal Secretions" "protein" "eggs" "Eggs" "blorgs" "1".
Definition counted_run : result Status (MutationStatus * StabilizedMutation) * (Oracle * nat) :=
  @resolve_semantic_mutation N _ _ (Oracle * nat) counted (mkIngressConfig 2) alice add_two [five_eggs]
    ([blorgs; eggs_approved; blorgs], O).
Lemma resolution_bounded_witness :
  counted_run = (Ok (MS_Committed, seven_eggs), ([blorgs], 2%nat)) ∧ (0 < 2 ≤ 0 + 2 + 1)%nat.
Proof.
  split; [by vm_compute|].
  apply (resolution_bounded (Q:=N) (mkIngressConfig 2) alice add_two [five_eggs]
    [blorgs; eggs_approved; blorgs] O (Ok (MS_Committed, seven_eggs)) [blorgs] 2%nat). by vm_compute.
Defined.
