(* ===== verification/ReplProps.v ===== *)
(** The interactive shell runs its input as a script: the lines up to the
    first [exit] are parsed and executed one after the other, whatever their
    outcome, and every one of them is answered. *)
From S2P Require Import Prelude Machine Types Wire Consensus Sled Fsm Text Units Rpc ClientDisk Client Repl Gateway GatewayProps ClientProps ClientExample.

(** A terminal that works: [term_input] are the lines still to be read, each
    with its line feed, [term_output] is the text written so far. *)
Class WorkingTerminal (T : Type) `{Terminal T} : Type := {
  term_input : T → list string;
  term_output : T → string;
  term_lines t : "" ∉ term_input t;
  term_read_law t :
    wp term_read_line
      (λ line t', term_output t' = term_output t ∧
                  line :: term_input t' = match term_input t with [] => [""] | l => l end)
      (λ _ _, False) t;
  term_write_law data t :
    wp (term_write_all data)
      (λ _ t', term_input t' = term_input t ∧ term_output t' = (term_output t +:+ data)%string)
      (λ _ _, False) t;
  term_flush_law t :
    wp term_flush (λ _ t', term_input t' = term_input t ∧ term_output t' = term_output t)
      (λ _ _, False) t;
}.

Section script.
Context `{UnicodeText, Shlex}.

(** What a text says, one line after the other, up to [exit]; [None] is a
    blank line. *)
Fixpoint script (lines : list string) : list (option (result ReplError Command)) :=
  match lines with
  | [] => []
  | line :: lines' =>
      if decide (str_trim line = "") then None :: script lines'
      else
        match Command_parse (str_trim line) with
        | Ok Cmd_Exit => []
        | r => Some r :: script lines'
        end
  end.

Context {F D N : Type} `{FileIO F, Sled D, IngressNet N, HeaderText, UuidText}.
Context `{JsonText ClientState, Message ProposeMutationRequest}.
Abbreviation client := (LactoClient F D N) (only parsing).

Definition answer (r : result ReplError string) : string :=
  match r with
  | Ok output => output +:+ newline
  | Err _ => "Mutation failed. Contact cluster operator." +:+ newline
  end.
(** The client after the commands of a script, and what is printed between
    the prompts. *)
Fixpoint run_script (s : list (option (result ReplError Command))) (c : client) : list string * client :=
  match s with
  | [] => ([], c)
  | None :: s' => let '(out, c') := run_script s' c in ("" :: out, c')
  | Some (Err e) :: s' =>
      let '(out, c') := run_script s' c in (("Error: " +:+ parse_error_text e +:+ newline)%string :: out, c')
  | Some (Ok cmd) :: s' =>
      let '(r, c1) := execute_command cmd c in
      let '(out, c') := run_script s' c1 in (answer r :: out, c')
  end.
(** The session on the screen: a prompt before every answer and one at which
    it ends. *)
Definition screen (out : list string) : string := foldr (λ a s, "lacto> " +:+ a +:+ s)%string "lacto> " out.

Lemma Command_parse_cases input :
  Command_parse input = Ok Cmd_Exit ∨
  (∃ cmd, Command_parse input = Ok cmd ∧ cmd ≠ Cmd_Exit) ∨ ∃ e, Command_parse input = Err e.
Proof.
  destruct (Command_parse input) as [cmd|e]; [|by right; right; exists e].
  destruct (decide (cmd = Cmd_Exit)) as [->|]; [by left|]. right; left. by exists cmd.
Qed.
Lemma script_cons line lines cmd :
  str_trim line ≠ "" → Command_parse (str_trim line) = Ok cmd → cmd ≠ Cmd_Exit →
  script (line :: lines) = Some (Ok cmd) :: script lines.
Proof. intros Hl Hc Hne. cbn. rewrite decide_False by done. rewrite Hc. by destruct cmd. Qed.

Context {T : Type} `{WorkingTerminal T}.
Definition panicked (e : ReplError) : Prop := ∃ msg, e = RE_Client (LC_Panic msg).

Lemma on_term_spec {A} (m : st T IoError A) (Q : A → T → Prop) (c : client) t :
  wp m Q (λ _ _, False) t → wp (on_term m) (λ a w, w.1 = c ∧ Q a w.2) (λ _ _, False) (c, t).
Proof. unfold wp, on_term, st_map_err, st_zoom. cbn. by destruct (m t) as [[a|e] t']. Qed.

(** One turn, by what it reads. *)
Definition turn_reads (lines : list string) (out : string) (c : client) (go : bool) (w : client * T) : Prop :=
  ∃ a, term_output w.2 = (out +:+ "lacto> " +:+ a)%string ∧
  match lines, go with
  | line :: lines', true =>
      term_input w.2 = lines' ∧
      ∃ x, script lines = x :: script lines' ∧
           ∀ out' c', run_script (script lines') w.1 = (out', c') → run_script (script lines) c = (a :: out', c')
  | [], true => False
  | _, false => a = "" ∧ script lines = [] ∧ w.1 = c
  end.

Lemma string_app_assoc (p q r : string) : ((p +:+ q) +:+ r)%string = (p +:+ (q +:+ r))%string.
Proof. induction p as [|x p IH]; [done|]. exact (f_equal (String x) IH). Qed.

(** The end of a turn that prints [data] on a screen that shows [out]. *)
Lemma say_spec data out (c : client) t :
  term_output t = out →
  wp (_ ← on_term (term_write_all data); mret true)
    (λ go w, go = true ∧ w.1 = c ∧ term_input w.2 = term_input t ∧ term_output w.2 = (out +:+ data)%string)
    (λ e _, panicked e) (c, t).
Proof.
  intros <-. wp_steps. eapply wp_mono; [apply on_term_spec, term_write_law|cbn|done].
  intros _ w (? & ? & ?). wp_steps. done.
Qed.

Lemma turn_says line lines out (c c1 : client) x data t :
  script (line :: lines) = x :: script lines →
  (∀ out' c', run_script (script lines) c1 = (out', c') → run_script (x :: script lines) c = (data :: out', c')) →
  term_input t = lines → term_output t = (out +:+ "lacto> ")%string →
  wp (_ ← on_term (term_write_all data); mret true) (turn_reads (line :: lines) out c)
    (λ e _, panicked e) (c1, t).
Proof.
  intros Hx Hrun Hi Ho. eapply wp_mono; [by apply say_spec|cbn|done].
  intros go [c2 t2] (-> & Hc & Hi2 & Ho2). cbn in Hc, Hi2, Ho2. subst c2. exists data. cbn [fst snd].
  split; [by rewrite Ho2, string_app_assoc|]. split; [by rewrite Hi2|]. exists x. split; [done|].
  intros out' c' Hr. rewrite Hx. by apply Hrun.
Qed.

Lemma repl_turn_spec (c : client) t :
  wp repl_turn (turn_reads (term_input t) (term_output t) c) (λ e _, panicked e) (c, t).
Proof.
  unfold repl_turn. wp_steps.
  eapply wp_mono; [apply on_term_spec, term_write_law|cbn|done]. intros _ [c1 t1] (Hc1 & Hi1 & Ho1).
  cbn in Hc1, Hi1, Ho1. subst c1. wp_steps.
  eapply wp_mono; [apply on_term_spec, term_flush_law|cbn|done]. intros _ [c2 t2] (Hc2 & Hi2 & Ho2).
  cbn in Hc2, Hi2, Ho2. subst c2. wp_steps.
  eapply wp_mono; [apply on_term_spec, term_read_law|cbn|done]. intros line [c3 t3] (Hc3 & Ho3 & Hl).
  cbn in Hc3, Ho3, Hl. subst c3. rewrite Hi2, Hi1 in Hl. rewrite Ho2, Ho1 in Ho3.
  pose proof (term_lines t) as Hne.
  destruct (term_input t) as [|l lines]; injection Hl as -> Hi3.
  { rewrite decide_True by done. wp_steps. exists "". cbn. by rewrite Ho3. }
  rewrite decide_False by (intros ->; apply Hne; by left).
  destruct (decide (str_trim l = "")) as [Hb|Hb].
  - wp_steps. exists "". cbn [fst snd]. rewrite Ho3. split; [done|]. split; [done|]. exists None.
    assert (script (l :: lines) = None :: script lines) as Hs by (cbn; by rewrite decide_True).
    split; [done|]. intros out' c' Hr. rewrite Hs. cbn. by rewrite Hr.
  - destruct (Command_parse_cases (str_trim l)) as [Hp|[(cmd & Hp & Hx)|[e Hp]]].
    + rewrite Hp. wp_steps. exists "". cbn [fst snd]. rewrite Ho3. split; [done|]. split; [done|].
      split; [|done]. cbn. by rewrite decide_False, Hp.
    + pose proof (script_cons l lines cmd Hb Hp Hx) as Hs.
      assert (wp (r ← on_client (st_try (execute_command cmd));
                  match r with
                  | Ok output => _ ← on_term (term_write_all (output +:+ newline)); mret true
                  | Err (RE_Client (LC_Panic msg)) => st_fail (RE_Client (LC_Panic msg))
                  | Err _ =>
                      _ ← on_term (term_write_all ("Mutation failed. Contact cluster operator." +:+ newline));
                      mret true
                  end) (turn_reads (l :: lines) (term_output t) c) (λ e _, panicked e) (c, t3)) as Hwp.
      { unfold on_client. wp_steps.
        cbn [fst snd]. unfold wp at 1. destruct (execute_command cmd c) as [r c1] eqn:Hrun.
        assert (∀ data, answer r = data →
          wp (_ ← on_term (term_write_all data); mret true) (turn_reads (l :: lines) (term_output t) c)
            (λ e _, panicked e) (c1, t3)) as Hsay.
        { intros data <-. apply (turn_says _ _ _ _ _ _ _ _ Hs); [|done..].
          intros out' c' Hr. cbn. by rewrite Hrun, Hr. }
        destruct r as [output|e]; cbn; [by apply Hsay|].
        destruct e as [| |e| |]; try by apply Hsay.
        destruct e; try by apply Hsay. wp_steps. by eexists. }
      rewrite Hp. destruct cmd; done.
    + rewrite Hp. apply (turn_says l lines _ c c (Some (Err e))); [|by intros ? ? Hr; cbn; rewrite Hr|done..].
      cbn. by rewrite decide_False, Hp.
Qed.

Lemma run_repl_spec lines (c : client) t :
  term_input t = lines →
  wp (run_repl (S (length lines)))
    (λ o w, o = Some tt ∧ ∃ out, run_script (script lines) c = (out, w.1) ∧
            term_output w.2 = (term_output t +:+ screen out)%string)
    (λ e _, panicked e) (c, t).
Proof.
  revert c t. induction lines as [|line lines IH]; intros c t Hi; cbn [length run_repl]; wp_steps;
    (eapply wp_mono; [apply repl_turn_spec|cbn|done]); rewrite Hi; intros go [c1 t1] (a & Ho & Hgo); cbn in Ho, Hgo.
  - destruct go; [done|]. destruct Hgo as (-> & _ & ->). wp_steps. split; [done|]. by exists [].
  - destruct go.
    + destruct Hgo as (Hi1 & x & Hx & Hrun). eapply wp_mono; [by apply IH|cbn|done].
      intros o [c2 t2] (-> & out & Hs & Ho2). cbn in Hs, Ho2. split; [done|]. exists (a :: out).
      split; [by apply Hrun|]. cbn. by rewrite Ho2, Ho, !string_app_assoc.
    + destruct Hgo as (-> & Hs & ->). wp_steps. split; [done|]. exists []. cbn. by rewrite Hs.
Qed.

(** C39: A session at a terminal that works is a script: with one turn per
    line and one more, [run_repl] ends at [exit] or at the end of the input,
    the client is the one that executed the parsed commands one after the
    other, failures included, and the screen shows a prompt and the answer for
    each line; only a panic of the client can end it earlier. *)
Theorem repl_is_script (c c' : client) (t t' : T) r :
  run_repl (S (length (term_input t))) (c, t) = (r, (c', t')) →
  match r with
  | Ok o =>
      o = Some tt ∧
      let '(out, c1) := run_script (script (term_input t)) c in
      c' = c1 ∧ term_output t' = (term_output t +:+ screen out)%string
  | Err e => panicked e
  end.
Proof.
  intros Hrun. pose proof (wp_run _ _ _ _ _ _ (run_repl_spec _ c t eq_refl) Hrun) as Hwp.
  destruct r as [o|e]; [|done]. destruct Hwp as (-> & out & Hs & Ho). by rewrite Hs.
Qed.
End script.

(** ** A terminal in memory, and what is typed at it

    A line is split at its spaces. *)
Import PlainHeaders GatewayExample.

Definition flush_word (word : chars) (l : list string) : list string :=
  match word with [] => l | _ => of_chars (rev word) :: l end.
Fixpoint words (word l : chars) : list string :=
  match l with
  | [] => flush_word word []
  | c :: l' => if is_ascii_space c then flush_word word (words [] l') else words (c :: word) l'
  end.
#[export] Instance plain_shlex : Shlex := λ s, Some (words [] (to_chars s)).

Record screen_term : Type := mkTerm { st_typed : list string; st_shown : string }.
#[export] Instance screen_terminal : Terminal screen_term := {|
  term_read_line t :=
    match st_typed t with
    | [] => (Ok "", t)
    | l :: ls => (Ok (l +:+ newline)%string, mkTerm ls (st_shown t))
    end;
  term_write_all data t := (Ok tt, mkTerm (st_typed t) (st_shown t +:+ data));
  term_flush t := (Ok tt, t) |}.
Lemma line_not_empty l : (l +:+ newline)%string ≠ "".
Proof. by destruct l. Qed.
#[export] Program Instance screen_works : WorkingTerminal screen_term := {|
  term_input t := (λ l, l +:+ newline)%string <$> st_typed t; term_output := st_shown |}.
Next Obligation. intros t (l & Hl & _)%list_elem_of_fmap. by apply (line_not_empty l). Qed.
Next Obligation. intros [[|l ls] o]; by unfold wp. Qed.
Next Obligation. done. Qed.
Next Obligation. done. Qed.

Definition typed (lines : list string) : screen_term := mkTerm lines "".
Definition at_prompt : LactoClient mem_file MemSled.db net * screen_term :=
  (traveller, typed ["add milk 1"; "  "; "frob"; "ls milk ten"; "exit"; "add milk 1"]).
Definition shown : list string :=
  [("SUCCESS: Committed at version 1" +:+ newline)%string; "";
   ("Error: Syntax Error: Unknown command: 'frob'. Type 'exit' to quit." +:+ newline)%string;
   ("Error: Syntax Error: Invalid min_state_version 'ten': invalid digit found in string" +:+ newline)%string].
Lemma repl_is_script_witness :
  (run_repl 7 at_prompt).1 = Ok (Some tt) ∧
  (run_script (script (term_input at_prompt.2)) at_prompt.1).1 = shown ∧
  st_shown (run_repl 7 at_prompt).2.2 = screen shown.
Proof.
  assert ((run_repl 7 at_prompt).1 = Ok (Some tt)) as Hr by by vm_compute.
  assert ((run_script (script (term_input at_prompt.2)) at_prompt.1).1 = shown) as Hs by by vm_compute.
  split; [exact Hr|]. split; [exact Hs|].
  destruct (run_repl 7 at_prompt) as [r [c' t']] eqn:Hrun. cbn [fst snd] in *. subst r.
  assert (7 = S (length (term_input at_prompt.2)))%nat as H7 by by vm_compute. rewrite H7 in Hrun.
  rewrite (surjective_pairing at_prompt) in Hrun.
  pose proof (repl_is_script at_prompt.1 c' at_prompt.2 t' _ Hrun) as [_ Hscript].
  destruct (run_script (script (term_input at_prompt.2)) at_prompt.1) as [out c1].
  cbn [fst snd] in Hs. subst out. exact (proj2 Hscript).
Defined.

(** A cluster of one leader, which scrubs what it is sent. *)
#[export] Instance scrubbing_net : IngressNet unit := {|
  endpoint_valid _ := true;
  net_connect _ n := (Ok tt, n);
  net_propose _ rq n :=
    match pmq_intent (rq_payload rq) with
    | None => (Err (mkStatus C_InvalidArgument "ProposeMutationRequest is missing 'intent' field"), n)
    | Some i =>
        match normalize_intent (Q:=N) i with
        | Ok _ => (Ok (Response_new (mkProposeMutationResponse (MutationStatus_as_i32 MS_Committed) 1 "" "")), n)
        | Err s => (Err s, n)
        end
    end;
  net_query _ _ n := (Ok (Response_new (mkQueryStateResponse [] 0 (QueryStatus_as_i32 QS_Rejected) "" "")), n) |}.
Definition at_scrubber (d : MemSled.db) : LactoClient mem_file MemSled.db unit :=
  mkLactoClient "alpha" "client" INITIAL_BACKOFF MAX_BACKOFF (session_of ["n1"]) d None tt.

(** A quantity that is not a number, typed once: the shell goes on, but its
    intent stays in the log, and the client cannot start again. *)
Lemma mistyped_quantity_blocks_start :
  let '(r, (c, t)) := run_repl 4 (at_scrubber MemSled.empty, typed ["add milk two"; "add milk 2"; "exit"]) in
  r = Ok (Some tt) ∧
  st_shown t = screen [("Mutation failed. Contact cluster operator." +:+ newline)%string;
                       ("SUCCESS: Committed at version 1" +:+ newline)%string] ∧
  (recover_pending_intents (at_scrubber (MemSled.reopen (lc_wal c)))).1
  = Err (LC_Rejected "Invalid quantity format").
Proof. vm_compute. done. Qed.
