(* ===== verification/IngressProps.v ===== *)
(** From the client's screen to the leader's log: what stands behind a
    COMMITTED answer, across the retry loop, the interceptors, the ingress
    service and the dispatcher. *)
From S2P Require Import Prelude Machine Types Wire Consensus Sled Fsm Text Units Rpc ClientDisk Client Gateway Ingress ClientProps.

(** ** The gateway's answers *)

Section backed.
Context {Q : Type} `{Decimal Q, UnicodeText, HeaderTextLaws}.
Context {C D V : Type} `{ConsensusHandle C, Sled D, UuidText, VetoRelay V}.
Context `{Message GroceryItem, Message SessionRecord, Message CommittedMutation, Message Timestamp, Message SnapshotData}.
Abbreviation world := (World C D V) (only parsing).

(** [res] repeats the outcome that the state machine has recorded for this
    number of the client. *)
Definition recorded (client : string) (seq : SequenceId) (res : ProposeMutationResponse) (w : world) : Prop :=
  ∃ record, (Lacto.check_session client 0 (w_store w)).1 = Ok (Some record) ∧
    sr_last_sequence_id record = seq ∧ pmr_status res = sr_status record ∧
    pmr_state_version res = sr_log_index record.
(** [res] reports the proposal of this call.  The node resolved the intent of
    the request with its oracle over the inventory it then had, was leader
    after the oracle had answered, proposed the mutation of this client and
    number with the outcome and the record of that resolution, was given the
    index [res] reports, and saw that index committed. *)
Definition proposed (config : IngressConfig) (e : CallEnv C D V) (client : string) (payload : ProposeMutationRequest)
    (res : ProposeMutationResponse) (w w' : world) : Prop :=
  let u := ce_waiting e w in
  let seq := pmq_sequence_id payload in
  ∃ proto intent inventory status stabilized v c1,
    pmq_intent payload = Some proto ∧ normalize_intent (Q:=Q) proto = Ok intent ∧
    (Lacto.get_inventory (w_store u)).1 = Ok inventory ∧
    resolve_semantic_mutation (Q:=Q) config client intent inventory (w_veto u)
    = (Ok (proposal_status status, stabilized), v) ∧
    let u' := ce_meanwhile e (mkWorld (w_handle u) (Lacto.get_inventory (w_store u)).2 v) in
    let p := mkProposal client seq intent stabilized (format_raw_input proto) status in
    ca_is_leader (h_authority (w_handle u')) = true ∧
    h_propose (encode_to_vec (proposed_mutation p (ce_now e))) (w_handle u') = (Ok (pmr_state_version res), c1) ∧
    h_await_commit (pmr_state_version res) c1 = (Some (Ok tt), w_handle w') ∧
    w_store w' = w_store u' ∧ w_veto w' = w_veto u' ∧
    pmr_status res = MutationStatus_as_i32 (proposal_status status).

(** What an answer that is not a rejection stands for. *)
Lemma firewall_answer record seq res :
  enforce_sequence_firewall record seq = Ok (Some res) → pmr_status res ≠ MutationStatus_as_i32 MS_Rejected →
  ∃ r, record = Ok (Some r) ∧ sr_last_sequence_id r = seq ∧ pmr_status res = sr_status r ∧
       pmr_state_version res = sr_log_index r.
Proof.
  unfold enforce_sequence_firewall. destruct (seq =? 0); [by intros [= <-]|].
  destruct record as [[r|]|]; cbn [map_err]; unfold mbind, result_bind; [| |done].
  - destruct (N.eqb_spec seq (sr_last_sequence_id r)) as [->|_]; [intros [= <-] _; by exists r|].
    repeat case_match; try done; by intros [= <-].
  - case_match; [by intros [= <-]|done].
Qed.

Lemma check_session_reads client n (s : LactoStore D) : (Lacto.check_session client n s).2 = s.
Proof.
  unfold Lacto.check_session, Lacto.check_not_poisoned, Lacto.reads, st_reads, st_lift, mbind, st_bind, mret, st_ret.
  repeat case_match; simplify_eq; done.
Qed.
Lemma admitted_answer client seq (w w' : world) r :
  admit_mutation client seq w = (Ok r, w') →
  w' = w ∧
  match r with
  | inl res => pmr_status res ≠ MutationStatus_as_i32 MS_Rejected →
      ca_is_leader (h_authority (w_handle w)) = true ∧ recorded client seq res w
  | inr _ => ca_is_leader (h_authority (w_handle w)) = true
  end.
Proof.
  unfold admit_mutation, authorize_mutation, mbind, st_bind, st_gets. destruct (ca_is_poisoned _); [done|].
  destruct (ca_is_leader _); cbn [negb]; [|by intros [= <- <-]].
  unfold on_store_of, st_zoom, st_try, st_lift.
  pose proof (check_session_reads client 0 (w_store w)) as Hs.
  destruct (Lacto.check_session client 0 (w_store w)) as [x s'] eqn:Hx. cbn in Hs. subst s'. cbn.
  assert (mkWorld (w_handle w) (w_store w) (w_veto w) = w) as -> by by destruct w.
  destruct (enforce_sequence_firewall x seq) as [[y|]|] eqn:Hf; cbn; [| |done]; intros [= <- <-]; [|done].
  split; [done|]. intros Hst. split; [done|]. destruct (firewall_answer _ _ _ Hf Hst) as (rec & -> & Hrest).
  exists rec. by rewrite Hx.
Qed.

Lemma commit_Ok p now (c c' : C) i :
  commit_to_consensus p now c = (Ok i, c') →
  ∃ c1, h_propose (encode_to_vec (proposed_mutation p now)) c = (Ok i, c1) ∧
        h_await_commit i c1 = (Some (Ok tt), c').
Proof.
  unfold commit_to_consensus, mbind, st_bind, st_map_err.
  destruct (h_propose _ c) as [[j|] c1]; cbn; [|done]. unfold await_quorum.
  destruct (h_await_commit j c1) as [[[[]|]|] c2] eqn:Ha; [|done..]. intros [= <- <-]. by exists c1.
Qed.

Lemma processed_answer config (e : CallEnv C D V) client payload (w w' : world) res :
  process_mutation (Q:=Q) config (ce_meanwhile e) (ce_now e) client (pmq_sequence_id payload) (pmq_intent payload)
    (ce_waiting e w) = (Ok res, w') →
  pmr_status res ≠ MutationStatus_as_i32 MS_Rejected → proposed config e client payload res w w'.
Proof.
  unfold proposed. set (u := ce_waiting e w). clearbody u.
  unfold process_mutation, mbind, st_bind, st_lift, on_store_of, on_veto, on_handle, st_zoom, st_map_err, st_gets,
    st_modify, mret, st_ret.
  destruct (pmq_intent payload) as [proto|]; cbn; [|done].
  destruct (normalize_intent proto) as [intent|] eqn:Hint; [|done].
  destruct (Lacto.get_inventory (w_store u)) as [[inventory|] s] eqn:Hinv; cbn; [|done].
  destruct (resolve_semantic_mutation config client intent inventory (w_veto u)) as [[[st stab]|] v] eqn:Hres; cbn; [|done].
  set (x := mkWorld (w_handle u) s v). set (final := match st with MS_Committed => _ | _ => _ end).
  assert ((∃ status, st = proposal_status status ∧ final x = (Ok status, x)) ∨ ∃ err, final x = (Err err, x))
    as [(status & -> & ->)|[err ->]]; [| |done].
  { unfold final. destruct st; first [by right; eexists|by left; exists PS_Committed|by left; exists PS_Vetoed]. }
  clear final. destruct (ca_is_leader _) eqn:Hl; cbn [negb]; [|by intros [= <- <-]].
  destruct (commit_to_consensus _ _ _) as [[i|] c'] eqn:Hc; [|done]. intros [= <- <-] _.
  apply commit_Ok in Hc as (c1 & Hprop & Hcommit).
  exists proto, intent, inventory, status, stab, v, c1. by split_and!.
Qed.
(** The answer of [handle_propose_mutation] to a request that finds the node
    as [w]: the recorded outcome, or a proposal of its own. *)
Definition backed (config : IngressConfig) (e : CallEnv C D V) (payload : ProposeMutationRequest)
    (w : world) (res : ProposeMutationResponse) (w' : world) : Prop :=
  ∃ client, ClientId_from_str (pmq_client_id payload) = Ok client ∧
    ca_is_leader (h_authority (w_handle w)) = true ∧
    (w' = w ∧ recorded client (pmq_sequence_id payload) res w ∨ proposed config e client payload res w w').

Lemma handled_answer config (e : CallEnv C D V) payload (w w' : world) res :
  handle_propose_mutation (Q:=Q) config (ce_waiting e) (ce_meanwhile e) (ce_now e) payload w = (Ok res, w') →
  pmr_status res ≠ MutationStatus_as_i32 MS_Rejected → backed config e payload w res w'.
Proof.
  unfold handle_propose_mutation, st_lift, mbind, st_bind, st_modify, mret, st_ret.
  destruct (ClientId_from_str (pmq_client_id payload)) as [client|] eqn:Hid; cbn [map_err]; [|done].
  destruct (admit_mutation client (pmq_sequence_id payload) w) as [[r|] w1] eqn:Hadm; [|done].
  apply admitted_answer in Hadm as [-> Hr]. intros Hrun Hst. exists client. split; [done|].
  destruct r as [x|[]].
  - injection Hrun as <- <-. destruct (Hr Hst). split; [done|]. by left.
  - split; [done|]. right. by apply processed_answer.
Qed.

(** Through the interceptors: the request of a client that names this cluster
    is answered with the trace id of the node. *)
Lemma gateway_answer cluster payload rq (g g' : GatewayNode C D V) r :
  visible_ascii cluster = true → (∀ k, valid_trace_id (ce_trace (gn_calls g k))) →
  inject_cluster_id_into_request cluster (Request_new payload) = Ok rq →
  gateway_call (service_propose_mutation (Q:=Q)) rq g = (Ok r, g') →
  let e := gn_calls g (gn_count g) in
  cluster_id (gn_identity g) = cluster ∧
  extract_trace_id_from_response r = Some (ce_trace e) ∧
  g' = mkGatewayNode (gn_identity g) (gn_config g) (gn_calls g) (S (gn_count g)) (gn_world g') ∧
  (pmr_status (rs_payload r) ≠ MutationStatus_as_i32 MS_Rejected →
   backed (gn_config g) e payload (ce_before e (gn_world g)) (rs_payload r) (gn_world g')).
Proof.
  intros Hvis Htr Hinj Hcall e. unfold gateway_call in Hcall. fold e in Hcall.
  destruct (client_request_admitted cluster payload Hvis) as (rq' & Hinj' & _ & Hadm).
  rewrite Hinj in Hinj'. injection Hinj' as <-.
  destruct (Hadm (gn_identity g) (ce_trace e)) as [Hin Hout].
  unfold ingress_arrive, st_lift, mbind, st_bind in Hcall.
  destruct (decide (cluster_id (gn_identity g) = cluster)) as [Hc|Hc].
  2:{ destruct (Hout Hc) as [msg Hm]. rewrite Hm in Hcall. by destruct (ce_lost e). }
  destruct (Hin Hc) as (r' & Hr' & Hpay & Htrace). rewrite Hr' in Hcall. split; [done|].
  unfold service_propose_mutation, ingress_serve, st_lift, mbind, st_bind in Hcall.
  rewrite Htrace, Hpay in Hcall. set (w := ce_before e (gn_world g)) in *.
  destruct (handle_propose_mutation _ _ _ _ _ w) as [[res|err] w'] eqn:Hh; [|by destruct (ce_lost e)].
  destruct (response_trace_roundtrip (ce_trace e) (Response_new res) (Htr _)) as (resp & Hresp & Hp & Hv).
  rewrite Hresp in Hcall. destruct (ce_lost e); [done|]. injection Hcall as <- <-. cbn in Hp. rewrite Hp.
  split; [|split; [done|by apply handled_answer]]. unfold verify_trace_integrity in Hv.
  destruct (extract_trace_id_from_response resp); [|done]. by case_decide; simplify_eq.
Qed.
End backed.

(** ** End to end *)

Section end_to_end.
Context {Q : Type} `{Decimal Q, UnicodeText, HeaderTextLaws}.
Context {C D V : Type} `{ConsensusHandle C, Sled D, UuidText, VetoRelay V}.
Context `{Message GroceryItem, Message SessionRecord, Message CommittedMutation, Message Timestamp, Message SnapshotData}.
Context {F L : Type} `{FileIO F, Sled L, JsonText ClientState, Message ProposeMutationRequest}.
#[local] Instance the_network : IngressNet (Gateways C D V) := gateway_network (Q:=Q).
Abbreviation client := (LactoClient F L (Gateways C D V)) (only parsing).

Lemma wp_any {S E A} (m : st S E A) s : wp m (λ _ _, True) (λ _ _, True) s.
Proof. unfold wp. by destruct (m s) as [[] ?]. Qed.
Lemma propose_mutation_answered (c : client) intent :
  wp (propose_mutation intent)
    (λ a c', answered net_propose mutation_rejection (lc_cluster_id c)
       (ProposeMutationRequest_new (lc_client_id c) (cs_sequence_id (ses_state (lc_session c)) + 1) intent)
       (lc_net c) (lc_net c') a)
    (λ _ _, True) c.
Proof.
  unfold propose_mutation, on_session. wp_steps.
  eapply wp_mono; [apply next_sequence_id_value|cbn|done]. intros n x [-> _]. wp_steps.
  unfold on_wal. wp_steps. eapply wp_mono; [apply wp_any|cbn|done]. intros _ d _. wp_steps.
  unfold execute_mutation. wp_steps.
  eapply wp_mono; [apply execute_answered|cbn|done]. intros [res tid] c1 [_ Ha]. wp_steps.
  destruct (is_terminal (pmr_status res)); wp_steps; [|done].
  unfold on_wal. wp_steps. eapply wp_mono; [apply wp_any|cbn|done]. intros _ d' _. by wp_steps.
Qed.

(** The surroundings of the calls are the environment's: no command changes
    them. *)
Definition calls_of (n : Gateways C D V) : gmap string (nat → CallEnv C D V) := gn_calls <$> n.
Lemma net_moves_calls rq (n n' : Gateways C D V) : rtc (net_move net_propose rq) n n' → calls_of n' = calls_of n.
Proof.
  induction 1 as [n|n n1 n' (uri & Hmv) _ IH]; [done|]. rewrite IH. destruct Hmv as [->| ->]; [done|].
  cbn. unfold at_gateway, calls_of. destruct (n !! uri) as [g|] eqn:Hg; [|done].
  assert (gn_calls (gateway_call service_propose_mutation rq g).2 = gn_calls g) as Hm
    by (unfold gateway_call; by destruct (ingress_arrive _ _ _ _ _)).
  destruct (gateway_call service_propose_mutation rq g) as [r g']. cbn in *.
  etransitivity; [apply (fmap_insert (M:=gmap string))|]. rewrite Hm. apply insert_id.
  etransitivity; [apply (lookup_fmap (M:=gmap string))|]. exact (f_equal (fmap gn_calls) Hg).
Qed.
Lemma calls_kept (n n' : Gateways C D V) uri g' :
  calls_of n' = calls_of n → n' !! uri = Some g' → ∃ g, n !! uri = Some g ∧ gn_calls g' = gn_calls g.
Proof.
  intros Hc Hg. pose proof (f_equal (lookup uri) Hc) as Hu. unfold calls_of in Hu.
  rewrite !(lookup_fmap (M:=gmap string)) in Hu.
  change (gn_calls <$> (n' !! uri) = gn_calls <$> (n !! uri)) in Hu. rewrite Hg in Hu.
  destruct (n !! uri) as [g|]; [|done]. injection Hu as Hu. by exists g.
Qed.

(** C9: An answer that the client shows is backed by a node of the client's
    own cluster.  When [propose_mutation] returns an answer, the last call of
    the network, reached from the network as the command found it by
    connections and calls with this one request only, was the call of a
    gateway of the cluster that the client names; the request carries the
    client's identity, the next number of its session and the intent; the
    trace id shown is the one that the gateway gave this call.  The gateway,
    leader as the call found it, either had in its session table the outcome
    of this very number, which the answer repeats, and stayed as it was; or it
    resolved this intent with its oracle over its own inventory, was still
    leader after that, proposed the mutation of this client and number with
    that outcome to its log, and saw the index that the answer reports
    committed. *)
Theorem committed_answer_backed (c c' : client) intent res tid :
  visible_ascii (lc_cluster_id c) = true →
  (∀ uri g k, lc_net c !! uri = Some g → valid_trace_id (ce_trace (gn_calls g k))) →
  propose_mutation intent c = (Ok (res, tid), c') →
  let seq := cs_sequence_id (ses_state (lc_session c)) + 1 in
  let payload := ProposeMutationRequest_new (lc_client_id c) seq intent in
  ∃ rq n uri g w',
    inject_cluster_id_into_request (lc_cluster_id c) (Request_new payload) = Ok rq ∧
    rtc (net_move net_propose rq) (lc_net c) n ∧ n !! uri = Some g ∧
    lc_net c' = <[uri := mkGatewayNode (gn_identity g) (gn_config g) (gn_calls g) (S (gn_count g)) w']> n ∧
    cluster_id (gn_identity g) = lc_cluster_id c ∧
    let e := gn_calls g (gn_count g) in
    tid = Some (ce_trace e) ∧ backed (gn_config g) e payload (ce_before e (gn_world g)) res w'.
Proof.
  intros Hvis Htr Hrun seq payload.
  destruct (wp_run _ _ _ _ _ _ (propose_mutation_answered c intent) Hrun)
    as (rq & uri & n & r & Hinj & Hmv & Hrpc & [= -> ->] & Hrej).
  fold seq payload in Hinj. cbn in Hrpc. unfold at_gateway in Hrpc. destruct (n !! uri) as [g|] eqn:Hg; [|done].
  destruct (gateway_call service_propose_mutation rq g) as [x g'] eqn:Hcall. injection Hrpc as -> Hn.
  assert (∀ k, valid_trace_id (ce_trace (gn_calls g k))) as Htr'.
  { intros k. destruct (calls_kept _ _ uri g (net_moves_calls rq _ _ Hmv) Hg) as (g0 & Hg0 & ->). by eapply Htr. }
  destruct (gateway_answer (Q:=Q) _ _ _ g g' r Hvis Htr' Hinj Hcall) as (Hcl & Htid & Hg' & Hback).
  exists rq, n, uri, g, (gn_world g'). rewrite <-Hg'. split_and!; [done..|].
  split; [done|]. apply Hback. unfold mutation_rejection in Hrej. by apply Z.eqb_neq in Hrej.
Qed.
End end_to_end.

(** ** At a concrete cluster

    One gateway, behind a leader that commits at once, and a client that knows
    it; the first answer is lost on its way back. *)
From S2P Require Import FsmProps FsmSnapshot GatewayProps ClientExample.
Import FsmExample GatewayExample PlainHeaders.

Definition first_trace : string := "0a1b2c3d-0000-4000-8000-00000000000a".
Definition next_trace : string := "0a1b2c3d-0000-4000-8000-00000000000b".
Definition calm (k : nat) : CallEnv Leading MemSled.db Oracle :=
  mkCallEnv (if (k =? 0)%nat then first_trace else next_trace) id id id id noon (k =? 0)%nat.
(** Between the calls the entry is applied. *)
Definition applied_between (k : nat) : CallEnv Leading MemSled.db Oracle :=
  mkCallEnv (ce_trace (calm k))
    (λ w, if (k =? 0)%nat then w
          else mkWorld (w_handle w) (apply_all 1 (w_handle w) (w_store w)).2 (w_veto w))
    id id id noon (ce_lost (calm k)).
Definition gate_node : GatewayNode Leading MemSled.db Oracle :=
  mkGatewayNode (mkIdentity "alpha" 1) (mkIngressConfig 2) applied_between 0 open_gate.
Definition shopper : LactoClient mem_file MemSled.db (Gateways Leading MemSled.db Oracle) :=
  mkLactoClient "alpha" alice INITIAL_BACKOFF MAX_BACKOFF
    (mkSession (mkClientState "alpha" alice 0 ["n1"]) (mkFile None true)) MemSled.empty None
    {["http://n1" := gate_node]}.
#[local] Instance example_network : IngressNet (Gateways Leading MemSled.db Oracle) := gateway_network (Q:=N).
Definition eggs : MutationIntent := MutationIntent_new "Eggs" (Some "2") (Some "units") None OT_Add.
Definition shopped : LactoClient mem_file MemSled.db (Gateways Leading MemSled.db Oracle) :=
  (propose_mutation eggs shopper).2.
Definition retried_answer : ProposeMutationResponse := mkProposeMutationResponse 1 1 "" "".
Lemma shopped_run : propose_mutation eggs shopper = (Ok (retried_answer, Some next_trace), shopped).
Proof. unfold shopped. apply run_result. vm_compute. reflexivity. Qed.
Lemma committed_answer_backed_witness :
  ∃ rq n uri g w', rtc (net_move net_propose rq) (lc_net shopper) n ∧ n !! uri = Some g ∧
    cluster_id (gn_identity g) = "alpha" ∧
    let e := gn_calls g (gn_count g) in
    Some next_trace = Some (ce_trace e) ∧
    backed (Q:=N) (gn_config g) e (ProposeMutationRequest_new alice 1 eggs) (ce_before e (gn_world g)) retried_answer w'.
Proof.
  destruct (committed_answer_backed (Q:=N) shopper shopped eggs retried_answer (Some next_trace))
    as (rq & n & uri & g & w' & _ & Hmv & Hg & _ & Hcl & Htid & Hb).
  - reflexivity.
  - intros uri g k. cbn. intros [_ <-]%(proj1 (lookup_singleton_Some (M:=gmap string) _ _ _ _)). cbn. unfold calm. cbn.
    destruct (k =? 0)%nat; by split.
  - exact shopped_run.
  - exists rq, n, uri, g, w'. exact (conj Hmv (conj Hg (conj Hcl (conj Htid Hb)))).
Defined.

(** The first attempt is committed and its answer lost; the second is answered
    from the session table: the log holds the mutation once. *)
Lemma retried_mutation_logged_once :
  (length ∘ w_handle ∘ gn_world <$> lc_net shopped !! "http://n1") = Some 1%nat.
Proof. by vm_compute. Qed.
