(* ===== verification/Oracle.v ===== *)
(** The semantic oracle (ai-veto/src/service.rs, model.rs), its stand-in
    (mock-veto/src/main.rs) and the relay that talks to either
    (gateway/src/veto.rs).  The language model, its prompt for the system role
    and the JSON of its answer are interfaces; what is asked, how the answer is
    checked and what the leader accepts are the code's.  An error message keeps
    the literal text of its format string. *)
From Stdlib Require Import Ascii.
From S2P Require Import Prelude Machine Types Wire Consensus Sled Fsm Text Units Rpc Gateway.

(** ** str methods of the standard library *)

Fixpoint strip_prefix (p l : chars) : option chars :=
  match p, l with
  | [], _ => Some l
  | c :: p', d :: l' => if Ascii.eqb c d then strip_prefix p' l' else None
  | _ :: _, [] => None
  end.
(** [trim_start_matches]; a pattern that is not empty matches at most as often
    as the text is long. *)
Fixpoint trim_matches (fuel : nat) (p l : chars) : chars :=
  match fuel with
  | O => l
  | S n => match strip_prefix p l with Some l' => trim_matches n p l' | None => l end
  end.
Definition trim_start_matches (p s : string) : string :=
  of_chars (trim_matches (String.length s) (to_chars p) (to_chars s)).
Definition trim_end_matches (p s : string) : string :=
  of_chars (rev (trim_matches (String.length s) (rev (to_chars p)) (rev (to_chars s)))).
Definition str_starts_with (p s : string) : bool :=
  match strip_prefix (to_chars p) (to_chars s) with Some _ => true | None => false end.
Definition str_ends_with (p s : string) : bool :=
  match strip_prefix (rev (to_chars p)) (rev (to_chars s)) with Some _ => true | None => false end.

(** [join]. *)
Fixpoint join_with (sep : string) (l : list string) : string :=
  match l with
  | [] => ""
  | [s] => s
  | s :: l' => s +:+ sep +:+ join_with sep l'
  end.

(** ** args.rs and model.rs *)

(** The arguments that reach a request. *)
Record OracleArgs : Type := mkOracleArgs {
  oa_model : string;
  oa_think : bool;
  oa_keep_alive : Z;
  oa_max_tokens : N;
}.

Record LlmResponse : Type := mkLlmResponse {
  lr_is_approved : bool;
  lr_category_assignment : string;
  lr_moral_justification : string;
  lr_resolved_item_key : string;
  lr_suggested_display_name : string;
  lr_resolved_unit : string;
  lr_custom_multiplier : option string;
}.

(** ** service.rs *)

Inductive KeepAlive : Type := KA_Indefinitely | KA_Until (seconds : N).
Definition map_keep_alive (a : OracleArgs) : KeepAlive :=
  if (oa_keep_alive a <? 0)%Z then KA_Indefinitely else KA_Until (Z.to_N (oa_keep_alive a)).

Definition DEFAULT_CONTEXT_WINDOW : N := 4096.

(** The chat request, without the system role's text. *)
Record ChatMessageRequest : Type := mkChatRequest {
  cr_model : string;
  cr_flash_mode : bool;
  cr_user_prompt : string;
  cr_think : bool;
  cr_num_ctx : N;
  cr_num_predict : Z;
  cr_keep_alive : KeepAlive;
}.

(** [u32 as i32]. *)
Definition as_i32 (n : N) : Z :=
  let z := Z.of_N (n mod 2 ^ 32) in if (z <? 2 ^ 31)%Z then z else (z - 2 ^ 32)%Z.

Definition operation_name (op : OperationType) : string :=
  match op with
  | OT_Unspecified => "Unspecified" | OT_Add => "Add" | OT_Subtract => "Subtract"
  | OT_Set => "Set" | OT_Delete => "Delete"
  end.

Definition inventory_line (i : GroceryItem) : string :=
  gi_item_key i +:+ ": " +:+ gi_quantity i +:+ " " +:+ gi_unit i +:+ " (" +:+ gi_category i +:+ ")".

Definition build_user_prompt (req : EvaluateProposalRequest) : checked string :=
  intent ← ok_or (mkStatus C_InvalidArgument "Evaluation request is missing mutation intent") (epq_intent req);
  op ← ok_or (mkStatus C_InvalidArgument "Unknown operation code") (OperationType_try_from (mi_operation intent));
  if decide (op = OT_Unspecified)
  then status_err C_InvalidArgument "Operation type must be explicitly specified (Add, Sub, Set, or Delete)"
  else
    let mutation_desc :=
      "OP: " +:+ operation_name op +:+ ", Item: " +:+ mi_item_key intent
        +:+ ", Qty: " +:+ default "N/A" (mi_quantity intent)
        +:+ ", Unit: " +:+ default "N/A" (mi_unit intent)
        +:+ ", Cat: " +:+ default "N/A" (mi_category intent) in
    let inventory_summary := join_with ", " (inventory_line <$> epq_current_inventory req) in
    Ok ("### EVALUATION REQUEST" +:+ newline +:+ "Mutation: " +:+ mutation_desc +:+ newline
          +:+ "Inventory Context: [" +:+ inventory_summary +:+ "]").

Definition build_chat_request (a : OracleArgs) (req : EvaluateProposalRequest) : checked ChatMessageRequest :=
  user_prompt ← build_user_prompt req;
  Ok (mkChatRequest (oa_model a) (negb (oa_think a)) user_prompt (oa_think a) DEFAULT_CONTEXT_WINDOW
        (as_i32 (oa_max_tokens a)) (map_keep_alive a)).

(** The model behind Ollama, and serde_json on its answers. *)
Class Llm (L : Type) : Type := {
  llm_chat : ChatMessageRequest → L → option string * L;
  llm_parse : string → option LlmResponse;
}.

Section service.
Context {Q : Type} `{Decimal Q, UnicodeText, HeaderText, UuidText}.

Definition scrub_json_response (raw : string) : string :=
  let trimmed := str_trim raw in
  if str_starts_with "```" trimmed
  then str_trim (trim_end_matches "```" (trim_start_matches "```" (trim_start_matches "```json" trimmed)))
  else trimmed.

(** Steps 1 to 4. *)
Definition validate_semantic_integrity (res : LlmResponse) : checked unit :=
  match category_from_str (lr_category_assignment res) with
  | None => status_err C_Internal "AI Hallucination: Invalid Category"
  | Some _ =>
      match resolve_symbol (Q:=Q) (lr_resolved_unit res) with
      | Err _ => status_err C_Internal "AI Hallucination: Invalid Unit"
      | Ok entry =>
          if decide (str_trim (lr_resolved_item_key res) = "")
          then status_err C_Internal "AI Hallucination: Empty Item Key"
          else if decide (ur_dimension entry = D_Anomalous) then
            let unit_slug := str_to_lowercase (str_trim (lr_resolved_unit res)) in
            let key_slug := str_to_lowercase (str_trim (lr_resolved_item_key res)) in
            if str_ends_with ("_" +:+ unit_slug) key_slug then Ok tt
            else status_err C_Internal "AI Hallucination: Identity Split required for anomalous unit."
          else Ok tt
      end
  end.

(** The multiplier of the answer, or the registry's. *)
Definition resolve_multiplier (res : LlmResponse) : string :=
  match lr_custom_multiplier res with
  | Some custom => custom
  | None =>
      match resolve_symbol (lr_resolved_unit res) with
      | Ok e => dec_to_string (Q:=Q) (ur_multiplier e)
      | Err _ => "1.0"
      end
  end.

Definition answer_of (res : LlmResponse) : EvaluateProposalResponse :=
  mkEvaluateProposalResponse (lr_is_approved res) (lr_category_assignment res) (lr_moral_justification res)
    (lr_resolved_item_key res) (lr_suggested_display_name res) (lr_resolved_unit res)
    (resolve_multiplier res).

(** What the service makes of the text the model returned. *)
Definition read_answer {L} `{Llm L} (content : string) : checked LlmResponse :=
  let clean_json := scrub_json_response content in
  if decide (clean_json = "") then status_err C_Internal "AI Hallucination: Empty response"
  else
    llm_res ← ok_or (mkStatus C_Internal "AI Hallucination: Malformed response format") (llm_parse (L:=L) clean_json);
    _ ← validate_semantic_integrity llm_res;
    Ok llm_res.

(** [RealPolicyService::evaluate_proposal]. *)
Definition evaluate_proposal {L} `{Llm L} (a : OracleArgs) (request : Request EvaluateProposalRequest) :
    st L Status (Response EvaluateProposalResponse) :=
  trace_id ← st_lift (require_trace_id request);
  let req := rq_payload request in
  _ ← st_lift (map_err (λ _, mkStatus C_InvalidArgument "Malformed Client ID") (ClientId_from_str (epq_client_id req)));
  chat_req ← st_lift (build_chat_request a req);
  content ← (λ l, let '(o, l') := llm_chat chat_req l in
                  (ok_or (mkStatus C_Internal "Clinical Oracle evaluation failed.") o, l'));
  llm_res ← st_lift (read_answer (L:=L) content);
  st_lift (inject_trace_id_into_response trace_id (Response_new (answer_of llm_res))).

(** The server: one interceptor, which asks for a trace id and nothing else. *)
Definition oracle_server {L} `{Llm L} (a : OracleArgs) (fresh : TraceId) (r : Request EvaluateProposalRequest) :
    st L Status (Response EvaluateProposalResponse) :=
  r' ← st_lift (trace_call false fresh (received r));
  evaluate_proposal a r'.

(** ** mock-veto

    No interceptor: the trace id is read from the header. *)
Definition mock_evaluate_proposal {L} (r : Request EvaluateProposalRequest) :
    st L Status (Response EvaluateProposalResponse) :=
  let request := received r in
  trace_id ← st_lift (match require_trace_id request with
                      | Ok t => Ok t
                      | Err _ =>
                          ok_or (mkStatus C_FailedPrecondition "Missing TraceId in mock metadata")
                            (v ← rq_metadata request !! HEADER_TRACE_ID; s ← header_to_str v; ok (TraceId_from_str s))
                      end);
  intent ← st_lift (ok_or (mkStatus C_InvalidArgument "EvaluateProposalRequest is missing 'intent' field")
                      (epq_intent (rq_payload request)));
  st_lift (inject_trace_id_into_response trace_id (Response_new
    (mkEvaluateProposalResponse true (default "" (mi_category intent)) "Mocked Approval" (mi_item_key intent)
       (mi_item_key intent) (default "" (mi_unit intent)) "1.0"))).

(** ** veto.rs *)

(** [str::is_char_boundary]: a continuation byte is 10xxxxxx. *)
Definition is_continuation (c : Ascii.ascii) : bool :=
  (128 <=? Ascii.N_of_ascii c) && (Ascii.N_of_ascii c <? 192).
Definition is_char_boundary (l : chars) (i : nat) : bool :=
  match l !! i with
  | Some c => (i =? 0)%nat || negb (is_continuation c)
  | None => (i =? length l)%nat
  end.
Fixpoint back_to_boundary (l : chars) (end_ : nat) : nat :=
  match end_ with
  | O => O
  | S n => if is_char_boundary l (S n) then S n else back_to_boundary l n
  end.
Definition trim_justification (s : string) (max_len : nat) : string :=
  if (String.length s <=? max_len)%nat then s
  else of_chars (take (back_to_boundary (to_chars s) max_len) (to_chars s)) +:+ "...".

(** The relay for one evaluation: who asks, under which trace id and limit,
    and the oracle's side of the connection. *)
Record GrpcVetoRelay (X : Type) : Type := mkRelay {
  gr_cluster_id : string;
  gr_node_id : NodeId;
  gr_trace_id : TraceId;
  gr_max_justification_len : nat;
  gr_remote : X;
}.
Arguments mkRelay {X} _ _ _ _ _.
Arguments gr_cluster_id {X} _.
Arguments gr_node_id {X} _.
Arguments gr_trace_id {X} _.
Arguments gr_max_justification_len {X} _.
Arguments gr_remote {X} _.

Definition relay_request {X} (r : GrpcVetoRelay X) (client_id : string) (intent : MutationIntent)
    (inventory : list GroceryItem) : checked (Request EvaluateProposalRequest) :=
  request ← inject_identity_into_request (gr_cluster_id r) (gr_node_id r)
              (Request_new (EvaluateProposalRequest_new client_id intent inventory "AI Policy Evaluation"));
  inject_trace_id_into_request (gr_trace_id r) request.

Definition veto_error_of (e : Status) : VetoError :=
  if decide (status_code e = C_DeadlineExceeded) then VE_Timeout else VE_RpcFailure.

(** The check of the returned trace id, and the outcome. *)
Definition accept_response (trace_id : TraceId) (max_justification_len : nat)
    (response : Response EvaluateProposalResponse) : result VetoError VetoOutcome :=
  match extract_trace_id_from_response response with
  | Some returned_id =>
      if decide (returned_id = trace_id) then
        let p := rs_payload response in
        Ok (mkVeto (epr_is_approved p) (epr_category_assignment p)
              (trim_justification (epr_moral_justification p) max_justification_len)
              (epr_resolved_item_key p) (epr_suggested_display_name p) (epr_resolved_unit p)
              (epr_conversion_multiplier_to_base p))
      else Err VE_CausalIntegrityViolation
  | None => Err VE_CausalIntegrityViolation
  end.

(** [VetoRelay::evaluate]; [call] is the RPC, its timeout included. *)
Definition relay_evaluate {X} (call : Request EvaluateProposalRequest → st X Status (Response EvaluateProposalResponse))
    (client_id : string) (intent : MutationIntent) (inventory : list GroceryItem) (r : GrpcVetoRelay X) :
    result VetoError VetoOutcome * GrpcVetoRelay X :=
  match relay_request r client_id intent inventory with
  | Err _ => (Err VE_RpcFailure, r)
  | Ok request =>
      let '(res, x) := call request (gr_remote r) in
      (response ← map_err veto_error_of res;
       accept_response (gr_trace_id r) (gr_max_justification_len r) response,
       mkRelay (gr_cluster_id r) (gr_node_id r) (gr_trace_id r) (gr_max_justification_len r) x)
  end.
End service.
Arguments mkRelay {X} _ _ _ _ _.
Arguments gr_cluster_id {X} _.
Arguments gr_node_id {X} _.
Arguments gr_trace_id {X} _.
Arguments gr_max_justification_len {X} _.
Arguments gr_remote {X} _.
