(* ===== verification/OracleProps.v ===== *)
(** Properties of the semantic oracle and its relay: what the leader accepts
    from it, and how a justification is cut. *)
From Stdlib Require Import Ascii.
From S2P Require Import Prelude Machine Types Wire Consensus Sled Fsm Text Units Rpc Gateway Oracle.

(** ** Cutting text at a character *)

(** One character in UTF-8: a first byte and continuation bytes. *)
Definition utf8_char (c : chars) : Prop :=
  ∃ lead rest, c = lead :: rest ∧ is_continuation lead = false ∧ Forall (λ b, is_continuation b = true) rest.

Lemma boundary_inside lead rest l i :
  Forall (λ b, is_continuation b = true) rest → (0 < i < S (length rest))%nat →
  is_char_boundary ((lead :: rest) ++ l) i = false.
Proof.
  intros Hrest Hi. unfold is_char_boundary. destruct i as [|i]; [lia|].
  rewrite lookup_app_l by (cbn; lia). cbn.
  destruct (rest !! i) as [b|] eqn:Hb; [|apply lookup_ge_None in Hb; lia].
  by rewrite (proj1 (Forall_lookup _ _) Hrest _ _ Hb).
Qed.
(** The boundaries of a text are the ends of its characters. *)
Lemma char_boundaries cs i :
  Forall utf8_char cs →
  is_char_boundary (concat cs) i = true ↔ ∃ n, (n ≤ length cs)%nat ∧ i = length (concat (take n cs)).
Proof.
  intros Hcs. revert i. induction Hcs as [|c cs Hc Hcs IH]; intros i.
  { unfold is_char_boundary. cbn [concat]. rewrite lookup_nil. cbn [length]. rewrite Nat.eqb_eq. split; [intros ->; exists 0%nat; split; [lia|done]|].
    intros (n & Hn & ->). by destruct n. }
  destruct (decide (i = 0%nat)) as [->|Hpos].
  { destruct Hc as (lead & rest & -> & _). split; [intros _; exists 0%nat; split; [lia|done]|done]. }
  destruct Hc as (lead & rest & -> & Hlead & Hrest). set (c := lead :: rest).
  destruct (decide (i < length c)%nat) as [Hin|Hout].
  { cbn [concat]. rewrite (boundary_inside lead rest) by (done || (cbn in *; lia)).
    split; [done|]. intros ([|n] & Hn & Hi); [by cbn in Hi|].
    cbn [take concat] in Hi. rewrite length_app in Hi. fold c in Hi. lia. }
  assert (is_char_boundary (concat (c :: cs)) i = is_char_boundary (concat cs) (i - length c)) as ->.
  { unfold is_char_boundary. cbn [concat]. rewrite lookup_app_r, length_app by lia.
    destruct (concat cs !! (i - length c)%nat) as [b|] eqn:Hb.
    - destruct (Nat.eqb_spec i 0); [lia|]. destruct (Nat.eqb_spec (i - length c) 0) as [He|]; [|done]. cbn.
      rewrite He in Hb. destruct cs as [|c' cs']; [by cbn in Hb|].
      apply Forall_cons_iff in Hcs as [(l' & r' & -> & Hl' & _) _]. cbn in Hb. injection Hb as <-. by rewrite Hl'.
    - apply lookup_ge_None in Hb. destruct (Nat.eqb_spec i (length c + length (concat cs)));
        destruct (Nat.eqb_spec (i - length c) (length (concat cs))); try done; lia. }
  rewrite IH. split.
  - intros (n & Hn & Hi). exists (S n). cbn [take concat length]. rewrite length_app. split; lia.
  - intros ([|n] & Hn & Hi); [by cbn in Hi|]. exists n. cbn [take concat length] in *.
    rewrite length_app in Hi. split; lia.
Qed.

Lemma back_to_boundary_spec l m :
  let b := back_to_boundary l m in
  (b ≤ m)%nat ∧ is_char_boundary l b = true ∧ ∀ i, (b < i ≤ m)%nat → is_char_boundary l i = false.
Proof.
  induction m as [|m IH]; cbn.
  { split_and!; [lia| |lia]. unfold is_char_boundary. destruct l; done. }
  destruct (is_char_boundary l (S m)) eqn:Hb; [split_and!; [lia|done|lia]|].
  destruct IH as (Hle & Hat & Hno). split_and!; [lia|done|]. intros i Hi.
  destruct (decide (i = S m)) as [->|]; [done|]. apply Hno. lia.
Qed.

Lemma string_length_of l : String.length (of_chars l) = length l.
Proof. induction l as [|c l IH]; [done|]. cbn. f_equal. apply IH. Qed.
Lemma string_length_app s t : String.length (s +:+ t) = (String.length s + String.length t)%nat.
Proof.
  induction s as [|c s IH]; [done|]. change (String c s +:+ t) with (String c (s +:+ t)).
  change (Datatypes.S (String.length (s +:+ t)) = Datatypes.S (String.length s + String.length t)). by rewrite IH.
Qed.

(** C40: A justification is cut at a character.  Text of at most [max] bytes
    stays; longer text keeps a whole number of its characters and gets three
    dots.  No more characters would fit: the kept part is within the limit and
    any longer prefix of whole characters is not. *)
Theorem justification_cut cs max_len :
  Forall utf8_char cs →
  let s := of_chars (concat cs) in
  let t := trim_justification s max_len in
  (String.length t ≤ max_len + 3)%nat ∧
  ((String.length s ≤ max_len)%nat → t = s) ∧
  ((max_len < String.length s)%nat →
   ∃ n, t = of_chars (concat (take n cs)) +:+ "..." ∧ (length (concat (take n cs)) ≤ max_len)%nat ∧
     ∀ m, (m ≤ length cs)%nat → (length (concat (take n cs)) < length (concat (take m cs)))%nat →
          (max_len < length (concat (take m cs)))%nat).
Proof.
  intros Hcs s t. unfold t, trim_justification.
  destruct (Nat.leb_spec (String.length s) max_len) as [Hle|Hgt].
  { split_and!; [lia|done|lia]. }
  assert (to_chars s = concat cs) as -> by apply to_of_chars. clearbody s.
  destruct (back_to_boundary_spec (concat cs) max_len) as (Hle & Hat & Hno).
  set (b := back_to_boundary (concat cs) max_len) in *.
  apply char_boundaries in Hat as (n & Hn & Hb); [|done].
  assert (take b (concat cs) = concat (take n cs)) as ->.
  { rewrite Hb. rewrite <-(take_drop n cs) at 2. rewrite concat_app. apply take_app_length. }
  split_and!; [|intros; lia|intros _; exists n; split_and!; [done|lia|]].
  - rewrite string_length_app, string_length_of. cbn. lia.
  - intros m Hm Hlt. destruct (decide (length (concat (take m cs)) ≤ max_len)%nat) as [Hfit|]; [|lia].
    assert (is_char_boundary (concat cs) (length (concat (take m cs))) = false) as Hf by (apply Hno; lia).
    assert (is_char_boundary (concat cs) (length (concat (take m cs))) = true) as Ht
      by (apply char_boundaries; [done|by exists m]).
    congruence.
Qed.

(** ** What the leader accepts *)

Section answers.
Context {Q : Type} `{Decimal Q, UnicodeText, HeaderText, UuidText}.

(** What the service's guard establishes of an answer. *)
Record registered (category unit key : string) : Prop := {
  rg_category : is_Some (category_from_str category);
  rg_unit : ∃ e, resolve_symbol (Q:=Q) unit = Ok e ∧
    (ur_dimension e = D_Anomalous →
     str_ends_with ("_" +:+ str_to_lowercase (str_trim unit)) (str_to_lowercase (str_trim key)) = true);
  rg_key : str_trim key ≠ "";
}.
Lemma validated res :
  validate_semantic_integrity (Q:=Q) res = Ok tt ↔
  registered (lr_category_assignment res) (lr_resolved_unit res) (lr_resolved_item_key res).
Proof.
  unfold validate_semantic_integrity.
  destruct (category_from_str _) as [c|] eqn:Hc; [|split; [done|intros [[? ?] _ _]; congruence]].
  destruct (resolve_symbol _) as [e|] eqn:He; [|split; [done|intros [_ (? & ? & _) _]; congruence]].
  destruct (decide (str_trim _ = "")) as [Hk|Hk]; [split; [done|by intros [_ _ ?]]|].
  destruct (decide (ur_dimension e = D_Anomalous)) as [Hd|Hd].
  - destruct (str_ends_with _ _) eqn:Hs.
    + split; [|done]. intros _. split; [by eexists|by exists e|done].
    + split; [done|]. intros [_ (e' & He' & Hs') _]. rewrite He in He'. injection He' as <-.
      rewrite Hs' in Hs; [done|done].
  - split; [|done]. intros _. split; [by eexists|by exists e|done].
Qed.

Context {L : Type} `{Llm L}.

Lemma read_answer_Ok content res :
  read_answer (Q:=Q) (L:=L) content = Ok res →
  llm_parse (L:=L) (scrub_json_response content) = Some res ∧
  registered (lr_category_assignment res) (lr_resolved_unit res) (lr_resolved_item_key res).
Proof.
  unfold read_answer. destruct (decide _); [done|].
  destruct (llm_parse _) as [res'|]; cbn; [|done].
  destruct (validate_semantic_integrity res') as [[]|] eqn:Hv; cbn; [|done].
  intros [= <-]. split; [done|]. by apply validated.
Qed.

Lemma build_prompt_Ok req prompt :
  build_user_prompt req = Ok prompt →
  ∃ intent op, epq_intent req = Some intent ∧ operation_of (mi_operation intent) = Some op.
Proof.
  unfold build_user_prompt. destruct (epq_intent req) as [intent|]; cbn; [|done].
  unfold operation_of. destruct (OperationType_try_from _) as [op|] eqn:Hop; cbn; [|done].
  destruct (decide (op = OT_Unspecified)); [done|]. intros _. destruct op; [done|eexists intent, _; by rewrite Hop..].
Qed.

Lemma evaluate_proposal_Ok a req resp (l l' : L) :
  evaluate_proposal (Q:=Q) a req l = (Ok resp, l') →
  ∃ t intent op chat content res,
    require_trace_id req = Ok t ∧ epq_intent (rq_payload req) = Some intent ∧
    operation_of (mi_operation intent) = Some op ∧
    is_ok (ClientId_from_str (epq_client_id (rq_payload req))) = true ∧
    build_chat_request a (rq_payload req) = Ok chat ∧ llm_chat chat l = (Some content, l') ∧
    read_answer (Q:=Q) (L:=L) content = Ok res ∧
    inject_trace_id_into_response t (Response_new (answer_of (Q:=Q) res)) = Ok resp.
Proof.
  unfold evaluate_proposal, mbind, st_bind, st_lift.
  destruct (require_trace_id req) as [t|]; [|done].
  destruct (ClientId_from_str _) as [cid|] eqn:Hcid; cbn; [|done].
  destruct (build_chat_request a (rq_payload req)) as [chat|] eqn:Hchat; cbn; [|done].
  assert (∃ p, build_user_prompt (rq_payload req) = Ok p) as [p Hp].
  { unfold build_chat_request in Hchat. destruct (build_user_prompt (rq_payload req)); [by eexists|done]. }
  apply build_prompt_Ok in Hp as (intent & op & Hi & Hop).
  destruct (llm_chat chat l) as [[content|] l1] eqn:Hllm; cbn; [|done].
  destruct (read_answer content) as [res|] eqn:Hr; cbn; [|done].
  destruct (inject_trace_id_into_response _ _) as [x|] eqn:Ht; cbn; [|done].
  intros [= <- <-]. by exists t, intent, op, chat, content, res.
Qed.

Lemma injected_payload {T} t (r r' : Response T) :
  inject_trace_id_into_response t r = Ok r' → rs_payload r' = rs_payload r.
Proof. unfold inject_trace_id_into_response. destruct (parse_header _ _); cbn; [|done]. by intros [= <-]. Qed.

(** The outcome that the relay makes of the service's answer, and that it
    makes of the model's. *)
Definition outcome_of (max : nat) (p : EvaluateProposalResponse) : VetoOutcome :=
  mkVeto (epr_is_approved p) (epr_category_assignment p) (trim_justification (epr_moral_justification p) max)
    (epr_resolved_item_key p) (epr_suggested_display_name p) (epr_resolved_unit p)
    (epr_conversion_multiplier_to_base p).
Definition model_outcome (max : nat) (res : LlmResponse) : VetoOutcome :=
  mkVeto (lr_is_approved res) (lr_category_assignment res) (trim_justification (lr_moral_justification res) max)
    (lr_resolved_item_key res) (lr_suggested_display_name res) (lr_resolved_unit res)
    (resolve_multiplier (Q:=Q) res).

Lemma accept_Ok t max resp veto :
  accept_response t max resp = Ok veto →
  extract_trace_id_from_response resp = Some t ∧ veto = outcome_of max (rs_payload resp).
Proof.
  unfold accept_response. destruct (extract_trace_id_from_response resp) as [t'|]; [|done].
  destruct (decide _) as [->|]; [|done]. by intros [= <-].
Qed.

Lemma relay_request_payload {X} (r : GrpcVetoRelay X) client intent inv req :
  relay_request r client intent inv = Ok req →
  rq_payload req = EvaluateProposalRequest_new client intent inv "AI Policy Evaluation".
Proof.
  unfold relay_request, inject_identity_into_request, inject_trace_id_into_request, mbind, result_bind.
  repeat (destruct (parse_header _ _); cbn; [|done]). by intros [= <-].
Qed.

(** What the service answers to a request that the relay has built. *)
Lemma oracle_server_Ok a fresh req resp (l l' : L) :
  oracle_server (Q:=Q) a fresh req l = (Ok resp, l') →
  ∃ intent op chat content res,
    epq_intent (rq_payload req) = Some intent ∧ operation_of (mi_operation intent) = Some op ∧
    is_ok (ClientId_from_str (epq_client_id (rq_payload req))) = true ∧
    build_chat_request a (rq_payload req) = Ok chat ∧ llm_chat chat l = (Some content, l') ∧
    read_answer (Q:=Q) (L:=L) content = Ok res ∧ rs_payload resp = answer_of (Q:=Q) res.
Proof.
  unfold oracle_server, mbind, st_bind, st_lift.
  destruct (trace_call false fresh (received req)) as [req'|] eqn:Htr; [|done].
  assert (rq_payload req' = rq_payload req) as Hpay.
  { unfold trace_call in Htr. destruct (ok_or _ _) as [x|]; [|done]. by injection Htr as <-. }
  intros (t & intent & op & chat & content & res & _ & Hi & Hop & Hcid & Hchat & Hllm & Hread & Hinj)%evaluate_proposal_Ok.
  rewrite Hpay in *. exists intent, op, chat, content, res. by apply injected_payload in Hinj.
Qed.
Lemma registered_delete si veto inventory :
  registered (ve_category_assignment veto) (ve_resolved_unit veto) (ve_resolved_item_key veto) →
  si_operation si = Op_Delete → slugify (ve_resolved_item_key veto) = ve_resolved_item_key veto →
  is_ok (validate_and_stabilize (Q:=Q) si veto inventory) = true.
Proof.
  intros [[c Hc] _ _] Hdel Hslug. unfold validate_and_stabilize, verify_category_registry. rewrite Hc. cbn.
  rewrite decide_True by done. by rewrite decide_True.
Qed.

(** C22: What the leader accepts from the oracle is the checked answer to
    this request.  Whatever service is behind the connection, an outcome that
    the relay accepts repeats the service's answer to the request built from
    this client, intent and inventory, and that answer came back under the
    trace id of the relay: another or none is refused.  When the service is
    the repository's, it has asked the model the chat request made from this
    very request, once, for a well-formed client id and a known operation, and
    the outcome repeats what the text of that chat parses to, after the
    checks: the category is one of the twelve, the unit is in the registry,
    the key is not blank, and the key of an anomalous unit ends with the unit.
    So the gateway never fails on its category, and stabilizes every approved
    DELETE of a canonical key. *)
Theorem oracle_outcome_registered call client intent inv (r r' : GrpcVetoRelay L) veto :
  relay_evaluate call client intent inv r = (Ok veto, r') →
  let asked := EvaluateProposalRequest_new client intent inv "AI Policy Evaluation" in
  ∃ req resp,
    relay_request r client intent inv = Ok req ∧ rq_payload req = asked ∧
    call req (gr_remote r) = (Ok resp, gr_remote r') ∧
    extract_trace_id_from_response resp = Some (gr_trace_id r) ∧
    veto = outcome_of (gr_max_justification_len r) (rs_payload resp) ∧
    ∀ a fresh, call = oracle_server (Q:=Q) a fresh →
      is_ok (ClientId_from_str client) = true ∧ is_Some (operation_of (mi_operation intent)) ∧
      (∃ chat content res,
         build_chat_request a asked = Ok chat ∧ llm_chat chat (gr_remote r) = (Some content, gr_remote r') ∧
         llm_parse (L:=L) (scrub_json_response content) = Some res ∧
         veto = model_outcome (gr_max_justification_len r) res) ∧
      registered (ve_category_assignment veto) (ve_resolved_unit veto) (ve_resolved_item_key veto) ∧
      ∀ si inventory, si_operation si = Op_Delete → slugify (ve_resolved_item_key veto) = ve_resolved_item_key veto →
        is_ok (validate_and_stabilize (Q:=Q) si veto inventory) = true.
Proof.
  unfold relay_evaluate. destruct (relay_request r client intent inv) as [req|] eqn:Hreq; [|done].
  pose proof (relay_request_payload _ _ _ _ _ Hreq) as Hpay.
  destruct (call req (gr_remote r)) as [[resp|] l'] eqn:Hrun; cbn; [|done].
  intros [= Hacc <-]. apply accept_Ok in Hacc as [Htid ->]. exists req, resp.
  split_and!; [done..|]. intros a fresh ->.
  apply oracle_server_Ok in Hrun as (intent' & op & chat & content & res & Hi & Hop & Hcid & Hchat & Hllm & Hread & Hresp).
  rewrite Hpay in Hi, Hcid, Hchat. injection Hi as <-. apply read_answer_Ok in Hread as [Hparse Hreg].
  rewrite Hresp. split_and!; [done|by eexists|by exists chat, content, res|done|].
  intros si inventory. by apply registered_delete.
Qed.
End answers.

(** ** A concrete oracle *)
From S2P Require Import SledStore FsmProps FsmSnapshot GatewayProps.
Import FsmExample GatewayExample PlainHeaders.

(** The texts a model has ready; each stands for one answer. *)
Module OracleExample.
Definition eggs : LlmResponse :=
  mkLlmResponse true "Animal Secretions" "Protein." "eggs" "Eggs" "units" None.
(** The answer that the system prompt gives as the example for
    "add spinach 1 bunch". *)
Definition spinach_bunch : LlmResponse :=
  mkLlmResponse true "Primary Flora" "Leaves." "spinach_bunch" "Spinach" "misc" (Some "1").
Definition parse (s : string) : option LlmResponse :=
  if decide (s = "{eggs}") then Some eggs
  else if decide (s = "{spinach}") then Some spinach_bunch else None.
#[export] Instance texts : Llm (list string) := {|
  llm_chat _ l := match l with [] => (None, []) | s :: l' => (Some s, l') end;
  llm_parse := parse;
|}.
Definition args : OracleArgs := mkOracleArgs "qwen3.5:4b" false (-1) 256.
Definition relay (texts : list string) : GrpcVetoRelay (list string) := mkRelay "cluster" 1 alice 200 texts.
Definition intent_eggs : MutationIntent := MutationIntent_new "eggs" (Some "2") None None OT_Add.
Definition asked (texts : list string) :=
  relay_evaluate (oracle_server (Q:=N) args bob) alice intent_eggs [] (relay texts).
End OracleExample.
Import OracleExample.

Definition fenced_eggs : string := "```json{eggs}```".
Definition eggs_outcome : VetoOutcome :=
  mkVeto true "Animal Secretions" "Protein." "eggs" "Eggs" "units" "1".
Lemma eggs_asked : asked [fenced_eggs] = (Ok eggs_outcome, relay []).
Proof. by vm_compute. Qed.
Lemma oracle_outcome_registered_witness :
  (∃ chat, llm_chat chat [fenced_eggs] = (Some fenced_eggs, [])) ∧
  registered (Q:=N) "Animal Secretions" "units" "eggs" ∧
  is_ok (validate_and_stabilize (Q:=N) (mkIntent "eggs" Op_Delete None None None) eggs_outcome []) = true.
Proof.
  destruct (oracle_outcome_registered (Q:=N) (oracle_server (Q:=N) args bob) alice intent_eggs []
    (relay [fenced_eggs]) (relay []) eggs_outcome eggs_asked) as (req & resp & _ & _ & _ & _ & _ & Hsrv).
  destruct (Hsrv args bob eq_refl) as (_ & _ & (chat & content & res & _ & Hllm & _) & Hreg & Hdel).
  split; [exists chat; by injection Hllm as <-|]. split; [exact Hreg|]. apply Hdel; by vm_compute.
Defined.

(** The service refuses what its own prompt asks for: the prompt has an
    unlisted unit resolved to "misc" with the unit's own name at the end of the
    key ("spinach_bunch"), the guard wants the key to end with "_misc". *)
Lemma prompt_example_refused :
  (asked ["{spinach}"]).1 = Err VE_RpcFailure ∧
  validate_semantic_integrity (Q:=N) spinach_bunch
  = Err (mkStatus C_Internal "AI Hallucination: Identity Split required for anomalous unit.").
Proof. split; by vm_compute. Qed.

(** A bound of 2^32 - 1 tokens becomes the unbounded -1. *)
Lemma token_bound_wraps : as_i32 u32_max = (-1)%Z.
Proof. done. Qed.

(** "é!" cut at one byte keeps no character: "é" is two bytes. *)
Definition e_acute : chars := [Ascii.ascii_of_N 195; Ascii.ascii_of_N 169].
Lemma justification_cut_witness :
  ∃ n, trim_justification (of_chars (concat [e_acute; ["!"%char]])) 1 = of_chars (concat (take n [e_acute; ["!"%char]])) +:+ "..." ∧
       (length (concat (take n [e_acute; ["!"%char]])) ≤ 1)%nat.
Proof.
  destruct (justification_cut [e_acute; ["!"%char]] 1) as (_ & _ & Hcut).
  { constructor; [|constructor; [|constructor]]; eexists _, _; (split; [done|]); split; [done| |done|];
      repeat constructor. }
  destruct Hcut as (n & Ht & Hfit & _); [cbn; lia|]. exists n. split; [exact Ht|exact Hfit].
Defined.
