(* ===== verification/ServiceProps.v ===== *)
(** What the RPC boundary adds to the handlers of the node, and what the
    handle tells its callers. *)
From S2P Require Import Prelude Machine Types Wire Storage Timing Node Engine Consensus Sled Fsm Text Units Rpc Shell Service Gateway.

Section exchange.
Context {S G F : Type} `{LogStorage S} `{RngExt G} `{StateMachine F}.
Context `{HeaderTextLaws, UuidText}.
Abbreviation shell := (ConsensusShell S G F) (only parsing).
Abbreviation eng := (st (LogicalNode S G) halt) (only parsing).
Abbreviation sh := (st (ConsensusShell S G F) halt) (only parsing).

(** An operation that halts on a poisoned node before anything else. *)
Definition halts_poisoned {A} (m : eng A) : Prop :=
  ∀ n, ln_state n = RS_Poisoned → m n = (Err HaltPoisoned, n).
Lemma verify_node_integrity_passes {A} (m : eng A) n :
  halts_poisoned m → (_ ← verify_node_integrity (mkDispatcher true); m) n = m n.
Proof.
  intros Hm. unfold verify_node_integrity, delegate_field, st_get, mbind, st_bind, mret, st_ret.
  destruct (ln_state n) eqn:Hs; cbn; try done. by rewrite (Hm n Hs).
Qed.
Lemma current_term_halts {A} (k : Term → eng A) : halts_poisoned (eng_current_term ≫= k).
Proof.
  intros n Hn. unfold eng_current_term, read_or_fatal, delegate_read, st_get, mbind, st_bind. cbn.
  by rewrite Hn.
Qed.
Lemma locked_ext {A} (m m' : eng A) (c : shell) :
  (∀ n, m n = m' n) → locked (on_node m) c = locked (on_node m') c.
Proof.
  intros Heq. unfold locked, on_node, st_zoom. destruct (consensus_progress (sh_node c)) as [[] n]; [|done].
  by rewrite Heq.
Qed.

(** A peer manager that can reach [j] from a node of the cluster [cl]. *)
Record routes (pm : PeerManager) (cl : string) (j : NodeId) (t : TraceId) : Prop := {
  rt_cluster : cluster_id (pm_identity pm) = cl;
  rt_visible : visible_ascii cl = true;
  rt_peer : is_Some (pm_peers pm !! j);
  rt_target : valid_node_id j;
  rt_trace : valid_trace_id t;
}.

Lemma exchange {Req P R Res} pm cl j t fresh (msg : Req) (params : P)
    (parse : Req → result Status P) (run : P → sh R) (build : R → Res) (c : shell) :
  routes pm cl j t → parse msg = Ok params →
  peer_call pm j t msg (arrive (mkIdentity cl j) fresh (serve parse run build)) c
  = (r ← run params; mret (Ok (build r))) c.
Proof.
  intros [<- Hvis [addr Hpeer] Hj Ht] Hparse. unfold peer_call, get_client. rewrite Hpeer. cbn.
  destruct (peer_request_admitted (pm_identity pm) j t msg Hvis Hj Ht) as (r & -> & Hadm).
  destruct (proj1 (Hadm (mkIdentity (cluster_id (pm_identity pm)) j) fresh) eq_refl) as (r' & Hr' & Hp & Htr).
  unfold arrive. rewrite Hr'. unfold serve. rewrite Htr, Hp, Hparse.
  unfold mbind, st_bind, mret, st_ret. destruct (run params c) as [[x|] c']; [|done].
  destruct (response_trace_roundtrip t (Response_new (build x)) Ht) as (rs & -> & Hpay & Hver).
  cbn. by rewrite Hver, Hpay.
Qed.

(** A request that another node receives changes nothing there. *)
Lemma misrouted {Req Res} pm cl j t fresh i (msg : Req) (handler : Request Req → sh (result Status (Response Res)))
    (c : shell) :
  routes pm cl j t → i ≠ mkIdentity cl j →
  ∃ msg', peer_call pm j t msg (arrive i fresh handler) c = (Ok (Err (mkStatus C_Unauthenticated msg')), c).
Proof.
  intros [<- Hvis [addr Hpeer] Hj Ht] Hi. unfold peer_call, get_client. rewrite Hpeer. cbn.
  destruct (peer_request_admitted (pm_identity pm) j t msg Hvis Hj Ht) as (r & -> & Hadm).
  destruct (proj2 (Hadm i fresh) Hi) as [msg' Hr']. exists msg'. unfold arrive. by rewrite Hr'.
Qed.

Lemma bind_at {X E A B} (m m' : st X E A) (k : A → st X E B) c : m c = m' c → (m ≫= k) c = (m' ≫= k) c.
Proof. unfold mbind, st_bind. by intros ->. Qed.
Lemma verified_locked {A} (m : eng A) (c : shell) :
  halts_poisoned m →
  locked (on_node (_ ← verify_node_integrity (mkDispatcher true); m)) c = locked (on_node m) c.
Proof. intros Hm. apply locked_ext. intros n. by apply verify_node_integrity_passes. Qed.
Lemma bind_assoc {X E A B C} (m : st X E A) (k : A → st X E B) (l : B → st X E C) c :
  ((m ≫= k) ≫= l) c = (m ≫= λ a, k a ≫= l) c.
Proof. unfold mbind, st_bind. by destruct (m c) as [[] ]. Qed.

(** C23: An RPC of the consensus protocol is a call of the peer's handler.  A
    message that a node of the cluster sends to a peer it knows, through the
    peer manager, the peer's interceptors and its service, runs the peer's
    handler under the peer's lock on the values the sender put in, and gives
    the sender the handler's answer. *)
Theorem rpc_is_handler_call pm cl j t fresh (c : shell) (p : ElectionCampaignParams)
    (term prev prev_term commit last last_term : N) (leader : NodeId) (es : list LogEntry) (data : bytes) (between : shell → shell) :
  routes pm cl j t → valid_node_id (ec_node_id p) → valid_node_id leader →
  let d := mkDispatcher true in
  let at_j {Req Res} := arrive (Req:=Req) (Res:=Res) (mkIdentity cl j) fresh in
  request_vote_from_peer pm j t p (at_j (service_request_vote d)) c
  = (r ← locked (on_node (handle_request_vote (ec_node_id p) (ec_term p) (ec_last_log_index p) (ec_last_log_term p)));
     mret (Ok (RequestVoteResponse_new (vr_term r) (vr_vote_granted r)))) c ∧
  request_pre_vote_from_peer pm j t p (at_j (service_pre_vote d)) c
  = (r ← locked (on_node (handle_pre_vote (ec_node_id p) (ec_term p) (ec_last_log_index p) (ec_last_log_term p)));
     mret (Ok (PreVoteResponse_new (vr_term r) (vr_vote_granted r)))) c ∧
  replicate_to_peer pm j t (AppendEntriesRequest_new term leader prev prev_term es commit)
    (at_j (service_append_entries d)) c
  = (r ← locked (on_node (handle_append_entries leader term prev prev_term es commit));
     mret (Ok (Some (RO_AppendEntries prev (N.of_nat (length es))
       (AppendEntriesResponse_new (ar_term r) (ar_success r) (ar_conflict_index r)))))) c ∧
  install_snapshot_to_peer pm j t (InstallSnapshotRequest_new term leader last last_term data)
    (at_j (service_install_snapshot between)) c
  = (r ← shell_install_snapshot between (mkSnapshotParams leader term last last_term data);
     mret (Ok (Some (RO_InstallSnapshot last (InstallSnapshotResponse_new r))))) c.
Proof.
  intros Hr Hc Hl d at_j. unfold at_j.
  assert (∀ id, valid_node_id id → parse_peer (to_decimal id) = Ok id) as Hid.
  { intros id Hv. unfold parse_peer. by rewrite NodeId_text_roundtrip. }
  split_and!.
  - unfold request_vote_from_peer, service_request_vote.
    rewrite (exchange pm cl j t fresh _ (mkVoteParams (ec_node_id p) (ec_term p) (ec_last_log_index p)
      (ec_last_log_term p))); [|done|unfold VoteParams_try_from_proto; cbn; by rewrite Hid].
    apply bind_at, verified_locked, current_term_halts.
  - unfold request_pre_vote_from_peer, service_pre_vote.
    rewrite (exchange pm cl j t fresh _ (mkPreVoteParams (ec_node_id p) (ec_term p) (ec_last_log_index p)
      (ec_last_log_term p))); [|done|unfold PreVoteParams_try_from_proto; cbn; by rewrite Hid].
    apply bind_at, verified_locked, current_term_halts.
  - unfold replicate_to_peer, service_append_entries.
    rewrite (bind_at _ (r ← execute_append_logic d (mkAppendParams leader term prev prev_term es commit);
      mret (Ok (AppendEntriesResponse_new (ar_term r) (ar_success r) (ar_conflict_index r))))).
    2:{ apply exchange; [done|]. unfold AppendParams_try_from_proto. cbn. by rewrite Hid. }
    rewrite bind_assoc. apply bind_at, verified_locked, current_term_halts.
  - unfold install_snapshot_to_peer, service_install_snapshot.
    rewrite (bind_at _ (r ← shell_install_snapshot between (mkSnapshotParams leader term last last_term data);
      mret (Ok (InstallSnapshotResponse_new r)))).
    2:{ apply exchange; [done|]. unfold SnapshotParams_try_from_proto. cbn. by rewrite Hid. }
    by rewrite bind_assoc.
Qed.
End exchange.

(** ** What an acknowledgement means *)

Section acknowledgement.
Context {S G F : Type} `{LogStorage S} `{RngExt G} `{StateMachine F}.
Context `{UuidText, Message CommittedMutation, Message Timestamp}.
Abbreviation shell := (ConsensusShell S G F) (only parsing).

(** The shell at the [k]-th wake-up of a waiting caller. *)
Definition woken (others : list (shell → shell)) (c : shell) (k : nat) : shell :=
  foldl (λ c f, f c) c (take k others).

Lemma wait_woken check others c r c' rest :
  wait check others c = (r, c', rest) →
  ∃ k, (k ≤ length others)%nat ∧ c' = woken others c k ∧ rest = drop k others ∧
    (∀ j, (j < k)%nat → check (sh_progress (woken others c j)) = None) ∧
    check (sh_progress c') = r ∧ (r = None → k = length others).
Proof.
  revert c. induction others as [|f others IH]; intros c; cbn; destruct (check (sh_progress c)) as [x|] eqn:Hc.
  1,3: intros [= <- <- <-]; exists 0%nat; split_and!; [lia|done|done|lia|done|done].
  - intros [= <- <- <-]. exists 0%nat. split_and!; [done|done|done|lia|done|done].
  - intros Hw. destruct (IH _ Hw) as (k & Hle & -> & -> & Hpre & Hend & Hn).
    exists (Datatypes.S k). split_and!; [cbn; lia|done|done| |done|naive_solver].
    intros [|j] Hj; [done|]. apply Hpre. lia.
Qed.

(** An acknowledged mutation was proposed by a leader and is committed as
    far as its proposer can see.  When the gateway's commit returns an index
    through the local handle, the node appended the encoded mutation there as
    a leader, every state the caller woke up to before the last had the node
    leading and the index not yet committed, and in the last one the node
    leads and has committed the index.  A wake-up at which the node does not
    lead ends the wait with an error: nothing is acknowledged by a node that
    was seen stepping down. *)
Theorem acknowledged_is_committed p now (h : LocalRaftHandle S G F) r h' :
  commit_to_consensus p now h = (r, h') →
  let c1 := lh_shell (h_propose (encode_to_vec (proposed_mutation p now)) h).2 in
  let seen := woken (lh_others h) c1 in
  ∀ i, r = Ok i →
    (handle_propose (encode_to_vec (proposed_mutation p now)) (lh_shell h)).1 = Ok (Ok i) ∧
    ∃ k, lh_shell h' = seen k ∧
      cp_role (sh_progress (seen k)) = NR_Leader ∧ i ≤ cp_last_committed (sh_progress (seen k)) ∧
      ∀ j, (j < k)%nat →
        cp_role (sh_progress (seen j)) = NR_Leader ∧ cp_last_committed (sh_progress (seen j)) < i.
Proof.
  set (data := encode_to_vec (proposed_mutation p now)). intros Hrun c1 seen i ->.
  unfold commit_to_consensus, st_map_err, mbind, st_bind in Hrun. fold data in Hrun.
  destruct (h_propose data h) as [rp hp] eqn:Hp. subst c1. cbn in seen.
  assert (lh_others hp = lh_others h ∧ ∀ i, rp = Ok i → (handle_propose data (lh_shell h)).1 = Ok (Ok i)) as [Ho Hok].
  { cbn in Hp. destruct (handle_propose data (lh_shell h)) as [[[|]|] ]; injection Hp as <- <-; naive_solver. }
  destruct rp as [x|e]; cbn in Hrun; [|done].
  specialize (Hok x eq_refl). unfold await_quorum in Hrun. cbn in Hrun. unfold lh_wait in Hrun.
  destruct (wait (commit_check x) (lh_others hp) (lh_shell hp)) as [[w c'] rest] eqn:Hw.
  rewrite Ho in Hw. destruct (wait_woken _ _ _ _ _ _ Hw) as (k & Hk & -> & -> & Hpre & Hend & _).
  change (woken (lh_others h) (lh_shell hp)) with seen in Hpre, Hend, Hrun.
  destruct w as [[[]|e]|]; [|done|done]. injection Hrun as <- <-. split; [done|]. exists k.
  unfold commit_check in Hend. destruct (cp_role (sh_progress (seen k))); try done.
  destruct (N.leb_spec x (cp_last_committed (sh_progress (seen k)))); [|done]. split_and!; [done..|].
  intros j Hj. specialize (Hpre j Hj). unfold commit_check in Hpre. destruct (cp_role _); try done.
  destruct (N.leb_spec x (cp_last_committed (sh_progress (seen j)))); [done|]. split; [done|lia].
Qed.
End acknowledgement.

(** ** At a concrete cluster

    Node 1 leads the cluster of three nodes in term 1. *)
From S2P Require Import Concrete SledStore FsmProps FsmSnapshot Cluster ShellProps GatewayProps.
Import FsmExample PlainHeaders.

Definition leading_shell : Shell :=
  match shell_new ThreeNodes.leader blank with Ok c => c | Err _ => idle_shell end.
Definition leader_peers : PeerManager := mkPeerManager (mkIdentity "cluster" 1) {[2 := "http://b:1"; 3 := "http://c:1"]}.
(** Node 1 asks node 2, idle in term 3, for its vote in term 4. *)
Definition campaign : ElectionCampaignParams := mkCampaignParams 4 1 7 2.
Lemma routes_2 : routes leader_peers "cluster" 2 alice.
Proof. split; [done|done|by eexists|done|by split]. Qed.
Definition asked_for_vote :=
  request_vote_from_peer leader_peers 2 alice campaign
    (arrive (mkIdentity "cluster" 2) bob (service_request_vote (mkDispatcher true))) idle_shell.
Lemma rpc_is_handler_call_witness :
  asked_for_vote.1 = Ok (Ok (RequestVoteResponse_new 4 true)).
Proof.
  destruct (rpc_is_handler_call leader_peers "cluster" 2 alice bob idle_shell campaign 4 3 2 3 3 2 1 [] [] id
    routes_2 ltac:(done) ltac:(done)) as [Hvote _].
  unfold asked_for_vote. cbn zeta in Hvote. rewrite Hvote. vm_compute. reflexivity.
Defined.

Definition replicated_to_2 : Shell → Shell := λ c,
  (locked (on_node (replication_response_step 1 2
     (Ok (Some (RO_AppendEntries 0 1 (AppendEntriesResponse_new 1 true 0)))))) c).2.
Definition leader_handle (others : list (Shell → Shell)) : LocalRaftHandle MemSled.db unit (LactoStore MemSled.db) :=
  mkHandle leader_peers leading_shell others.
Definition committing_run (others : list (Shell → Shell)) :=
  commit_to_consensus alice_proposal noon (leader_handle others).

Definition committed_at_1 : LocalRaftHandle MemSled.db unit (LactoStore MemSled.db) := (committing_run [replicated_to_2]).2.
Lemma committing_returns : committing_run [replicated_to_2] = (Ok 1, committed_at_1).
Proof. apply injective_projections; by vm_compute. Qed.
Lemma acknowledged_is_committed_witness :
  cp_role (sh_progress (lh_shell committed_at_1)) = NR_Leader ∧
  1 ≤ cp_last_committed (sh_progress (lh_shell committed_at_1)).
Proof.
  destruct (acknowledged_is_committed alice_proposal noon (leader_handle [replicated_to_2]) (Ok 1)
    committed_at_1 committing_returns 1 eq_refl) as (_ & k & -> & Hr & Hc & _).
  exact (conj Hr Hc).
Defined.

(** The wait compares the role and the index, not the term.  Node 1 proposes
    at index 1; between two wake-ups the leader of term 2 overwrites the index
    and commits it, and node 1 wins term 3.  Its caller is told that index 1
    is committed: it is, with the other leader's entry. *)
Definition overwritten_and_reelected : st Node halt unit :=
  _ ← handle_append_entries 2 2 0 0 [LogEntry_new 1 2 [7]] 1;
  _ ← Nat.iter 16 (λ m, _ ← tick_step 100 false; m) (mret tt);
  _ ← pre_vote_won;
  _ ← process_vote_response 3 [2; 3] 3 (Ok (RequestVoteResponse_new 3 true));
  mret tt.
Definition overwritten : Shell → Shell := λ c, (locked (on_node overwritten_and_reelected) c).2.
Lemma overwritten_is_acknowledged :
  (committing_run [overwritten]).1 = Ok 1 ∧
  SledStorage.read_entry 1 (ln_store (sh_node (lh_shell (committing_run [overwritten]).2)))
    = Ok (Some (LogEntry_new 1 2 [7])) ∧
  (locked (on_node overwritten_and_reelected) leading_shell).1 = Ok tt.
Proof. split_and!; by vm_compute. Qed.
