(* ===== verification/QueryProps.v ===== *)
(** Properties of the gateway's queries: what a successful query shows of the
    state machine, and what its fence is worth. *)
From S2P Require Import Prelude Machine Types Wire Sled Fsm FsmSpec FsmProps FsmSnapshot Text Units Consensus Gateway GatewayProps.

Section inventory.
Context {D : Type} `{SledLaws D, UuidText}.
Context `{Message GroceryItem, Message SessionRecord, Message CommittedMutation, Message Timestamp, Message SnapshotData}.
Context `{!MessageLaws GroceryItem, !MessageLaws SessionRecord, !MessageLaws CommittedMutation, !MessageLaws Timestamp, !MessageLaws SnapshotData}.

Lemma listed_records {M} `{MessageLaws M} (key : M → string) (m : gmap string M) l rs :
  keyed key m → lists (tree_of m) (λ _, True) l →
  ((λ a, BInsert (as_bytes (key a)) (encode_to_vec a)) <$> rs) = ((λ p, BInsert p.1 p.2) <$> l) →
  Forall wire_ok rs → ∀ a, a ∈ rs ↔ m !! key a = Some a.
Proof.
  intros Hkeyed (_ & _ & Hin) Hops Hok a. split.
  - intros Ha. assert (BInsert (as_bytes (key a)) (encode_to_vec a) ∈ ((λ p, BInsert p.1 p.2) <$> l)) as Hel.
    { rewrite <-Hops. apply list_elem_of_fmap. by exists a. }
    apply list_elem_of_fmap in Hel as ([k b] & [= Hk Hb] & Hl). cbn in Hk, Hb. subst k b.
    apply Hin in Hl as [Hl _]. apply lookup_tree_of_Some in Hl as (x & c & Hx & Hc & Henc).
    destruct (Hkeyed x c Hc) as [Hwc <-].
    rewrite list.Forall_forall in Hok. specialize (Hok a Ha).
    assert (c = a) as ->; [|done].
    apply (f_equal decode_msg) in Henc. rewrite !decode_encode_to_vec in Henc by done. by injection Henc.
  - intros Ha. destruct (Hkeyed _ _ Ha) as [Hw _].
    assert ((as_bytes (key a), encode_to_vec a) ∈ l) as Hl.
    { apply Hin. split; [|done]. apply lookup_tree_of_Some. by exists (key a), a. }
    assert (BInsert (as_bytes (key a)) (encode_to_vec a) ∈ ((λ a, BInsert (as_bytes (key a)) (encode_to_vec a)) <$> rs)) as Hel.
    { rewrite Hops. apply list_elem_of_fmap. by eexists (_, _). }
    apply list_elem_of_fmap in Hel as (c & [= Hk Hb] & Hc).
    rewrite list.Forall_forall in Hok. specialize (Hok c Hc).
    assert (a = c) as ->; [|done].
    apply (f_equal decode_msg) in Hb. rewrite !decode_encode_to_vec in Hb by done. by injection Hb.
Qed.

(** The inventory that a reader gets is the ledger's. *)
Lemma get_inventory_exact (s : LactoStore D) v items s' :
  holds s v → scan_ok s → Lacto.get_inventory s = (Ok items, s') →
  s' = s ∧ ∀ i, i ∈ items ↔ fv_inventory v !! gi_item_key i = Some i.
Proof.
  intros Hv [l Hl]. unfold Lacto.get_inventory, mbind, st_bind, Lacto.check_not_poisoned, st_reads, st_gets.
  destruct (fs_poisoned s); [done|]. intros [= <- <-]. split; [done|].
  destruct Hv as [Hinv _ _ Hok].
  pose proof (sled_iter_law _ _ _ Hl) as Hlist. rewrite Hinv in Hlist.
  destruct (listing_records gi_item_key _ _ (fv_ok_items v Hok) Hlist) as (items & Hdec & Hw & Hops).
  rewrite Hl, (omap_decode_listing l items) by done.
  apply (listed_records gi_item_key _ l); [by apply fv_ok_items|done..].
Qed.

Lemma current_version_exact (s : LactoStore D) v i s' :
  holds s v → Lacto.current_version s = (Ok i, s') → s' = s ∧ i = fv_applied v.
Proof.
  intros Hv. unfold Lacto.current_version, Lacto.last_applied_index, Lacto.reads, mbind, st_bind,
    Lacto.check_not_poisoned, st_reads.
  destruct (fs_poisoned s) eqn:Hp; [done|]. cbn.
  pose proof (read_applied_law (fs_db s) v Hv) as Ha.
  destruct (Lacto.read_applied (fs_db s)); [|done]. intros [= <- <-]. done.
Qed.
End inventory.

Section queries.
Context {Q : Type} `{Decimal Q, UnicodeText}.
Context {C D V : Type} `{ConsensusHandle C, SledLaws D, UuidText, VetoRelay V}.
Context `{Message GroceryItem, Message SessionRecord, Message CommittedMutation, Message Timestamp, Message SnapshotData}.
Context `{!MessageLaws GroceryItem, !MessageLaws SessionRecord, !MessageLaws CommittedMutation, !MessageLaws Timestamp, !MessageLaws SnapshotData}.

(** What the filter of a query lets through. *)
Definition selects (query_filter : option string) (key : string) : Prop :=
  match query_filter with
  | Some f => str_contains (str_to_lowercase f) (str_to_lowercase key) = true
  | None => True
  end.
Lemma filter_items_elem f (l : list GroceryItem) i :
  i ∈ filter_items f l ↔ i ∈ l ∧ selects f (gi_item_key i).
Proof.
  destruct f as [f|]; cbn; [rewrite list_elem_of_filter|]; naive_solver.
Qed.
Lemma display_item_key (i : GroceryItem) : gi_item_key (display_item (Q:=Q) i) = gi_item_key i.
Proof. unfold display_item. repeat case_decide; try done. by destruct (convert_to_display_value _ _). Qed.

Lemma fence_passes (committed ver : LogIndex) (w w' : World C D V) :
  consistency_fence committed ver w = (Ok tt, w') →
  ver ≤ committed ∧ (h_await_apply ver (w_handle w)).1 = Some (Ok tt) ∧
  w' = mkWorld (h_await_apply ver (w_handle w)).2 (w_store w) (w_veto w).
Proof.
  unfold consistency_fence. destruct (N.ltb_spec committed ver); [done|].
  unfold on_handle, st_zoom. destruct (h_await_apply ver (w_handle w)) as [[[[]|]|] c]; try done.
  intros [= <-]. done.
Qed.

(** The world in which a query reads the inventory: after the verification of
    the leadership, the fence when one is asked for, and what other tasks do
    meanwhile. *)
Definition verified_world (verifying : World C D V → World C D V) (w : World C D V) : World C D V :=
  verifying (mkWorld (h_verify_leadership (w_handle w)).2 (w_store w) (w_veto w)).
Definition reading_world (verifying fencing : World C D V → World C D V) (min : option LogIndex)
    (w : World C D V) : World C D V :=
  let u := verified_world verifying w in
  fencing match min with
          | Some ver => mkWorld (h_await_apply ver (w_handle u)).2 (w_store u) (w_veto u)
          | None => u
          end.

(** C15: Whatever other tasks do during its awaits, a query that succeeds was
    answered by a leader that had confirmed its leadership with a quorum, and
    changed nothing but the handle it asked.  Its items are exactly the items
    of the ledger as it stands when the inventory is read, after the awaits,
    that the filter selects, each in its display unit.  Its version is the
    applied index of the ledger as it stands at the read of the version,
    which comes after that of the inventory: the two are of the same ledger
    when no entry is applied in between.  With a minimal version, a version
    past the commit index that the leader had at the start is refused, and
    the wait for that version had succeeded before the inventory was read. *)
Theorem query_shows_ledger verifying fencing meanwhile (w w' : World C D V) v v' req resp :
  let u := reading_world verifying fencing (qsq_min_state_version req) w in
  holds (w_store u) v → scan_ok (w_store u) → holds (w_store (meanwhile u)) v' →
  handle_query_state (Q:=Q) verifying fencing meanwhile req w = (Ok resp, w') →
  qsr_status resp = QueryStatus_as_i32 QS_Success →
  let a := h_authority (w_handle w) in
  ca_is_leader a = true ∧ (h_verify_leadership (w_handle w)).1 = Ok tt ∧ w' = meanwhile u ∧
  (∀ i, i ∈ qsr_items resp ↔
     ∃ j, fv_inventory v !! gi_item_key j = Some j ∧ selects (qsq_query_filter req) (gi_item_key j) ∧
          i = display_item (Q:=Q) j) ∧
  qsr_current_state_version resp = fv_applied v' ∧
  (∀ ver, qsq_min_state_version req = Some ver →
     ver ≤ ca_last_committed a ∧
     (h_await_apply ver (w_handle (verified_world verifying w))).1 = Some (Ok tt)).
Proof.
  intros u Hv Hscan Hv' Hrun Hst a.
  unfold handle_query_state, authorize_query, mbind, st_bind, st_gets, mret, st_ret in Hrun.
  fold a in Hrun. destruct (ca_is_poisoned a); [done|]. destruct (ca_is_leader a); cbn [negb] in Hrun;
    [|by injection Hrun as <- _].
  split; [done|]. unfold u, reading_world, verified_world in *. unfold on_handle, st_zoom, st_try in Hrun.
  destruct (h_verify_leadership (w_handle w)) as [[[]|e] c]; cbn [fst snd] in *;
    [|by destruct e; try done; injection Hrun as <- _].
  split; [done|]. unfold st_modify at 1 in Hrun. clearbody a. clear u.
  set (w1 := verifying (mkWorld c (w_store w) (w_veto w))) in *. clearbody w1.
  set (w2 := match qsq_min_state_version req with Some _ => _ | None => w1 end) in Hv, Hscan, Hv' |- *.
  assert ((∀ ver, qsq_min_state_version req = Some ver →
             ver ≤ ca_last_committed a ∧ (h_await_apply ver (w_handle w1)).1 = Some (Ok tt)) ∧
          (items ← on_store_of (st_map_err (λ _, mkStatus C_Internal "Request rejected") Lacto.get_inventory);
           _ ← st_modify meanwhile;
           version ← on_store_of (st_map_err (λ _, mkStatus C_Internal "Failed to read state version") Lacto.current_version);
           mret (mkQueryStateResponse (filter_items (qsq_query_filter req) (display_item (Q:=Q) <$> items)) version
                   (QueryStatus_as_i32 QS_Success) "" "")) (fencing w2) = (Ok resp, w')) as [Hfence Hread].
  { unfold w2. destruct (qsq_min_state_version req) as [ver|]; [|by split; [|exact Hrun]].
    destruct (consistency_fence (ca_last_committed a) ver w1) as [[[]|] w3] eqn:Hf; [|done].
    apply fence_passes in Hf as (Hle & Haw & ->). split; [by intros ? [= <-]|exact Hrun]. }
  clear Hrun. unfold mbind, st_bind, on_store_of, st_zoom, st_map_err, st_modify, mret, st_ret in Hread.
  destruct (Lacto.get_inventory (w_store (fencing w2))) as [[items|] s1] eqn:Hget; [|done].
  destruct (get_inventory_exact _ _ _ _ Hv Hscan Hget) as [-> Hitems].
  assert (∀ x : World C D V, mkWorld (w_handle x) (w_store x) (w_veto x) = x) as Heta by by intros [].
  rewrite Heta in Hread.
  destruct (Lacto.current_version (w_store (meanwhile (fencing w2)))) as [[i|] s2] eqn:Hcur; [|done].
  destruct (current_version_exact _ _ _ _ Hv' Hcur) as [-> ->]. rewrite Heta in Hread.
  injection Hread as <- <-. cbn. split_and!; [done| |done|done].
  intros i. rewrite filter_items_elem, list_elem_of_fmap. split.
  - intros [(j & -> & Hj) Hsel]. rewrite display_item_key in Hsel. exists j. by apply Hitems in Hj.
  - intros (j & Hj & Hsel & ->). rewrite display_item_key. split; [|done]. exists j.
    split; [done|by apply Hitems].
Qed.
End queries.

(** ** Concrete queries *)
Import FsmExample GatewayExample.

Definition ask (r : QueryStateRequest) : st Gate Status QueryStateResponse := handle_query_state (Q:=N) id id id r.
Definition all_items : QueryStateRequest := QueryStateRequest_new None None.

(** A query without a minimal version does not wait for what its leader has
    committed: after the acknowledgement of "add 2 eggs", before the entry is
    applied, a query that has confirmed its leadership shows no eggs. *)
Lemma query_misses_committed :
  let w1 := request (add_eggs alice 1 "2") open_gate in
  response_status w1.1 = Some 1%Z ∧
  (h_authority (w_handle w1.2)).(ca_last_committed) = 1 ∧
  (ask all_items w1.2).1 = Ok (mkQueryStateResponse [] 0 (QueryStatus_as_i32 QS_Success) "" "").
Proof. split_and!; by vm_compute. Qed.

(** The version is read after the inventory: an entry that is applied between
    the two reads is claimed by the version and missing from the items. *)
Definition apply_log (w : Gate) : Gate :=
  mkWorld (w_handle w) (apply_all 1 (w_handle w) (w_store w)).2 (w_veto w).
Lemma query_version_ahead :
  let w1 := request (add_eggs alice 1 "2") open_gate in
  (handle_query_state (Q:=N) id id apply_log all_items w1.2).1
  = Ok (mkQueryStateResponse [] 1 (QueryStatus_as_i32 QS_Success) "" "").
Proof. by vm_compute. Qed.

(** The first entry is committed and not yet applied; it is applied while the
    fence of a query for the milk is awaited. *)
Definition milk_gate : Gate := mkWorld [bytes_of first] blank [].
Definition milk_query : QueryStateRequest := QueryStateRequest_new (Some "MILK") (Some 1).
Definition milk_asked : result Status QueryStateResponse * Gate :=
  handle_query_state (Q:=N) id apply_log id milk_query milk_gate.
Definition milk_answer : QueryStateResponse :=
  match milk_asked.1 with
  | Ok r => r
  | Err _ => mkQueryStateResponse [] 0 0 "" ""
  end.
Lemma milk_run : milk_asked = (Ok milk_answer, milk_asked.2).
Proof. apply run_result. by vm_compute. Qed.
Lemma milk_store : w_store (apply_log milk_gate) = done1.
Proof. vm_compute. reflexivity. Qed.
Lemma query_shows_ledger_witness :
  ∃ v, holds done1 v ∧ qsr_current_state_version milk_answer = fv_applied v ∧
    gi_item_key <$> qsr_items milk_answer = ["whole_milk"] ∧ 1 ≤ ca_last_committed (h_authority (w_handle milk_gate)).
Proof.
  destruct (apply_all_replay [bytes_of first] [first] 1 blank empty_fsm done1) as (_ & v & _ & Hv);
    [constructor; [split; [apply first_decodes|by apply milk_ok]|constructor]|done|apply blank_holds|done|apply done1_run|].
  destruct (query_shows_ledger id apply_log id milk_gate milk_asked.2 v v milk_query milk_answer)
    as (_ & _ & _ & _ & Hver & Hmin).
  - exact (eq_ind_r (λ s, holds s v) Hv milk_store).
  - exact (eq_ind_r scan_ok done1_scan milk_store).
  - exact (eq_ind_r (λ s, holds s v) Hv milk_store).
  - exact milk_run.
  - reflexivity.
  - exists v. split_and!; [done|exact Hver|by vm_compute|by apply (Hmin 1)].
Defined.
