(* ===== verification/RoundsProps.v ===== *)
(** Properties of the engine's rounds: which campaigns are won, and what a
    round that is cut short leaves behind. *)
From S2P Require Import Prelude Machine Types Wire Storage Timing Node Engine Consensus Sled Fsm Text Rpc Shell Gateway Service Rounds.

Section campaigns.
Context {S G F : Type} `{LogStorage S} `{RngExt G} `{StateMachine F}.
Abbreviation shell := (ConsensusShell S G F) (only parsing).

















End campaigns.

(** ** A round that is cut short *)

Section transfers.
Context {S G F : Type} `{LogStorage S} `{RngExt G} `{StateMachine F}.
Abbreviation shell := (ConsensusShell S G F) (only parsing).

Lemma guard_drop_depth before b (c : shell) : sh_freeze_depth (guard_drop before b c) = sh_freeze_depth c.
Proof. unfold guard_drop. by destruct b, (decide _). Qed.

(** Nothing under the lock touches the freeze depth but freezing. *)
Lemma locked_depth {A} (m : st shell halt A) (c : shell) :
  (∀ x, sh_freeze_depth (m x).2 = sh_freeze_depth x) → sh_freeze_depth (locked m c).2 = sh_freeze_depth c.
Proof.
  intros Hm. unfold locked. destruct (consensus_progress (sh_node c)) as [[before|h] n]; [|done].
  specialize (Hm (sh_set_node n c)). destruct (m (sh_set_node n c)) as [r c']. cbn in *.
  by rewrite guard_drop_depth.
Qed.
Lemma on_node_depth {A} (m : st (LogicalNode S G) halt A) (c : shell) :
  sh_freeze_depth (on_node m c).2 = sh_freeze_depth c.
Proof. unfold on_node, st_zoom. by destruct (m (sh_node c)). Qed.

Definition keeps_depth (f : shell → shell) : Prop := ∀ c, sh_freeze_depth (f c) = sh_freeze_depth c.

Lemma replication_response_depth term p res (c : shell) :
  sh_freeze_depth (shell_replication_response term p res c).2 = sh_freeze_depth c.
Proof.
  unfold shell_replication_response. destruct res as [[o|]|e]; [|done..].
  pose proof (locked_depth (on_node (process_replication_response term p (Ok (Some o)))) c
    (on_node_depth _)) as Hd.
  destruct (locked _ c) as [r c']. cbn in *. by destruct o.
Qed.
Lemma round_depth params stream (c : shell) :
  Forall (λ a, keeps_depth (ar_before a)) stream →
  sh_freeze_depth (replicate_to_peers params stream c).2 = sh_freeze_depth c.
Proof.
  intros Hs. revert c. induction Hs as [|a stream Ha _ IH]; intros c; [done|].
  cbn. unfold mbind, st_bind, st_modify.
  pose proof (replication_response_depth (rp_term params) (ar_peer a) (ar_result a) (ar_before a c)) as Hd.
  rewrite Ha in Hd. destruct (shell_replication_response _ _ _ _) as [[[[]|e]|h] c1]; cbn in Hd; try done.
  by rewrite IH.
Qed.

Lemma freeze_Ok (c c' : shell) : freeze_or_fatal c = (Ok tt, c') → sh_freeze_depth c' = u32_add (sh_freeze_depth c) 1 ∧ sh_freeze_depth c ≠ u32_max.
Proof.
  unfold freeze_or_fatal, freeze. destruct (N.eqb_spec (sh_freeze_depth c) u32_max) as [->|Hne].
  - cbn [or_poison]. unfold on_node, st_zoom, apply_fatal. by destruct (sh_node _).
  - intros [= <-]. done.
Qed.

(** A snapshot transfer that is dropped leaves the state machine frozen.
    The transfer freezes the state machine, awaits the serialization and thaws
    it.  A round that ends early (a peer answered with a later term) drops the
    transfers that are still in it: after the freeze, whatever the rest of the
    round does, the state machine stays frozen, so the background applier does
    nothing at any signal, however many, and no compaction is started.  Had
    the transfer gone on, the depth would be what it was. *)
Theorem dropped_transfer_stalls_applier params stream (c c1 : shell) :
  sh_freeze_depth c ≤ u32_max →
  transfer_freeze c = (Ok tt, c1) → Forall (λ a, keeps_depth (ar_before a)) stream →
  let c2 := (replicate_to_peers params stream c1).2 in
  sh_freeze_depth c2 = sh_freeze_depth c + 1 ∧
  (∀ k, Nat.iter k (λ x, (applier_signal x).2) c2 = c2) ∧
  (∀ threshold (n : LogicalNode S G), should_compact_log threshold (is_frozen c2) n = (Ok false, n)) ∧
  (∀ c3, transfer_thaw c1 = (Ok tt, c3) → sh_freeze_depth c3 = sh_freeze_depth c).
Proof.
  intros Hle Hf Hs c2.
  assert (sh_freeze_depth c1 = sh_freeze_depth c + 1) as Hd1.
  { unfold transfer_freeze, locked in Hf. destruct (consensus_progress (sh_node c)) as [[before|h] n]; [|done].
    destruct (freeze_or_fatal (sh_set_node n c)) as [[[]|] x] eqn:Hx; [|done]. injection Hf as <-.
    apply freeze_Ok in Hx as [Hx Hne]. rewrite guard_drop_depth, Hx. cbn in *.
    unfold u32_add, u32_max in *. rewrite N.mod_small by lia. done. }
  assert (sh_freeze_depth c2 = sh_freeze_depth c + 1) as Hd2 by (unfold c2; by rewrite round_depth).
  assert (is_frozen c2 = true) as Hfr by (unfold is_frozen; rewrite Hd2; by apply N.ltb_lt; lia).
  split_and!; [done| | |].
  - intros k. induction k as [|k IH]; [done|]. rewrite Nat.iter_succ, IH.
    unfold applier_signal, mbind, st_bind, st_gets. by rewrite Hfr.
  - intros threshold n. unfold should_compact_log. by rewrite Hfr.
  - intros c3 Ht. unfold transfer_thaw, locked in Ht.
    destruct (consensus_progress (sh_node c1)) as [[before|h] n]; [|done].
    destruct (thaw_or_fatal (sh_set_node n c1)) as [[[]|] x] eqn:Hx; [|done]. injection Ht as <-.
    rewrite guard_drop_depth. unfold thaw_or_fatal, thaw in Hx. cbn in Hx. rewrite Hd1 in Hx.
    destruct (N.eqb_spec (sh_freeze_depth c + 1) 0); [lia|]. injection Hx as <-. cbn.
    rewrite ?Hd1. unfold u32_sub, u32_max in *.
    replace (sh_freeze_depth c + 1 + 2 ^ 32 - 1) with (sh_freeze_depth c + 1 * 2 ^ 32) by lia.
    rewrite N.Div0.mod_add. apply N.mod_small. lia.
Qed.
End transfers.

(** ** Concrete rounds

    Node 1 of three campaigns in term 1; the reply of node 2 arrives twice and
    node 3 cannot be reached. *)
From S2P Require Import Concrete SledStore FsmProps FsmSnapshot Cluster ShellProps ServiceProps.
Import FsmExample.

Definition arrival {A} (p : NodeId) (r : RpcResult A) : Arrival DB unit (LactoStore MemSled.db) A := mkArrival id p r.

(** The leader sends a snapshot to node 3 when node 2 answers in term 5. *)
Definition frozen_shell : Shell := (transfer_freeze leading_shell).2.
Definition round_1 : ReplicationRoundParams := mkRoundParams 1 1 0.
Definition later_term : list (Arrival DB unit (LactoStore MemSled.db) (option ReplicationOutcome)) :=
  [arrival 2 (Ok (Some (RO_AppendEntries 0 0 (AppendEntriesResponse_new 5 false 0))))].
Definition demoted : Shell := (replicate_to_peers round_1 later_term frozen_shell).2.
Lemma dropped_transfer_stalls_applier_witness :
  cp_role (sh_progress demoted) = NR_Follower ∧ sh_freeze_depth demoted = 1 ∧
  (applier_signal demoted).2 = demoted.
Proof.
  split; [by vm_compute|].
  destruct (dropped_transfer_stalls_applier round_1 later_term leading_shell frozen_shell) as (Hd & Hk & _).
  - by vm_compute.
  - apply run_result. by vm_compute.
  - by repeat constructor.
  - split; [exact Hd|exact (Hk 1%nat)].
Defined.
