(* ===== verification/RaftTasks.v ===== *)
(** A cluster of shells over an asynchronous network: the locked blocks of a
    node's tasks, the messages between the nodes and the parameters that tasks
    carry from one block to the next, crashes and restarts.  Everything issued
    stays available for ever: messages may be lost, delayed, repeated and
    reordered.  Log compaction does not run here, and so no snapshot is probed
    for, transferred or installed: what is proved of the reachable clusters is
    proved of runs without snapshots. *)
From S2P Require Import Prelude Machine Types Wire Storage Timing Node Engine Consensus VoteSpec Election Cluster NodeProps Shell Service Rounds.

(** ** What travels *)

(** An AppendEntries request on its way. *)
Record SentAppend : Type := mkSent {
  sn_from : NodeId;
  sn_to : NodeId;
  sn_request : AppendEntriesRequest;
}.

Inductive item : Type :=
| IClaim (params : ElectionCampaignParams)        (** a campaign's request for votes *)
| IVote (reply : VoteReply)
| ITally (id : NodeId) (votes_granted : N)
| IRound (params : ReplicationRoundParams)
| ISent (s : SentAppend)
| IReply (s : SentAppend) (response : AppendEntriesResponse).

(** ** The tasks of a node

    One constructor per locked block, and the applier's two halves. *)
Inductive task : Type :=
| TTick (snapshot_threshold : N)
| TStepDown
| TPreVote (candidate : NodeId) (term : Term) (last : LogIndex) (last_term : Term)
| TPreVoteTerm (campaign_term peer_term : Term)
| TPreVoteWon
| TVote (params : ElectionCampaignParams)
| TVoteReply (reply : VoteReply)
| TTally (votes_granted : N)
| TPromote (votes_granted : N)
| TPropose (data : bytes)
| TProbe
| TStrategy (peer : NodeId) (params : ReplicationRoundParams)
| TAppend (s : SentAppend)
| TReply (s : SentAppend) (response : AppendEntriesResponse)
| TFeed (next : LogIndex)
| THorizon (next : LogIndex)
| TFatal (e : NodeError).  (** a task's fatal error, at any time *)

Section tasks.
Context {S G F : Type} `{LogStorage S} `{RngExt G} `{StateMachine F} (members : gset N).
Abbreviation shell := (ConsensusShell S G F) (only parsing).
Abbreviation sh := (st (ConsensusShell S G F) halt) (only parsing).

Definition option_list {A B} (f : A → B) (o : option A) : list B := match o with Some x => [f x] | None => [] end.

(** The halves of [apply_one]: the entry is read and applied, then the
    horizon advances under the lock. *)
Definition feed_one (next_idx : LogIndex) : sh unit :=
  r ← st_gets (λ c, read_entries next_idx next_idx (ln_store (sh_node c)));
  match r with
  | Err e => fatal (node_error_of_storage e)
  | Ok [] => fatal (Protocol "Committed entry missing from log storage")
  | Ok (entry :: _) =>
      res ← on_fsm (sm_apply next_idx (le_data entry));
      match res with
      | Ok _ => mret tt
      | Err _ => locked (on_node (apply_fatal (Protocol "Apply failure")))
      end
  end.
Definition horizon_one (next_idx : LogIndex) : sh LogIndex :=
  locked
    (h ← on_node (eng_advance_horizon_after_snapshot next_idx);
     match h with
     | Ok _ => on_node eng_last_committed
     | Err e => on_node (apply_fatal e)
     end).

(** A fatal error never returns. *)
Lemma locked_fatal e (c : shell) : ∃ h c', ∀ A, locked (on_node (apply_fatal (A:=A) e)) c = (Err h, c').
Proof.
  unfold locked. destruct (consensus_progress (sh_node c)) as [[before|h] n]; [|by eexists _, _].
  exists (Halt e), (guard_drop before true (sh_set_node (set_state RS_Poisoned n) (sh_set_node n c))). done.
Qed.
Lemma apply_one_halves next_idx (c : shell) :
  apply_one next_idx c = (_ ← feed_one next_idx; horizon_one next_idx) c.
Proof.
  unfold apply_one, feed_one, fatal, mbind, st_bind, st_gets.
  destruct (read_entries next_idx next_idx (ln_store (sh_node c))) as [[|entry es]|e]; cbn.
  - destruct (locked_fatal (Protocol "Committed entry missing from log storage") c) as (h & c' & Heq).
    by rewrite !Heq.
  - destruct (on_fsm (sm_apply next_idx (le_data entry)) c) as [[[u|e]|h] c1]; cbn; [done| |done].
    destruct (locked_fatal (Protocol "Apply failure") c1) as (h & c' & Heq). by rewrite !Heq.
  - destruct (locked_fatal (node_error_of_storage e) c) as (h & c' & Heq). by rewrite !Heq.
Qed.

(** A reply's outcome, as [replicate_to_peer] makes it. *)
Definition outcome_of (s : SentAppend) (response : AppendEntriesResponse) : ReplicationOutcome :=
  RO_AppendEntries (aeq_prev_log_index (sn_request s)) (N.of_nat (length (aeq_entries (sn_request s)))) response.

Definition run_task (id : NodeId) (t : task) : sh (list item) :=
  let peers := peers_of members id in
  match t with
  | TTick threshold =>
      d ← tick_block threshold;
      mret (option_list IClaim (td_campaign d) ++ option_list IRound (td_replication d))
  | TStepDown => _ ← locked (on_node step_down); mret []
  | TPreVote candidate term last last_term =>
      _ ← locked (on_node (handle_pre_vote candidate term last last_term)); mret []
  | TPreVoteTerm campaign_term peer_term =>
      _ ← locked (on_node (pre_vote_term_check campaign_term peer_term)); mret []
  | TPreVoteWon => params ← locked (on_node pre_vote_won); mret [IClaim params]
  | TVote p =>
      r ← locked (on_node (handle_request_vote (ec_node_id p) (ec_term p) (ec_last_log_index p) (ec_last_log_term p)));
      mret [IVote (mkVoteReply id (ec_node_id p) (ec_term p)
                     (RequestVoteResponse_new (vr_term r) (vr_vote_granted r)))]
  | TVoteReply reply =>
      _ ← shell_vote_response (vp_req_term reply) peers (vp_voter reply) (Ok (vp_response reply)); mret []
  | TTally votes => k ← st_gets (λ c, read_tally votes (sh_node c)); mret [ITally id k]
  | TPromote votes =>
      if quorum_of (length peers) <=? votes then _ ← locked (on_node (into_leader peers)); mret [] else mret []
  | TPropose data => _ ← handle_propose data; mret []
  | TProbe =>
      r ← verify_prepare;
      mret (match r with Ok (_, false, params) => [IRound params] | _ => [] end)
  | TStrategy peer params =>
      strategy ← strategy_block peer params;
      mret (match strategy with Some (RS_AppendEntries req) => [ISent (mkSent id peer req)] | _ => [] end)
  | TAppend s =>
      let req := sn_request s in
      r ← locked (on_node (handle_append_entries (sn_from s) (aeq_term req) (aeq_prev_log_index req)
            (aeq_prev_log_term req) (aeq_entries req) (aeq_leader_commit req)));
      mret [IReply s (AppendEntriesResponse_new (ar_term r) (ar_success r) (ar_conflict_index r))]
  | TReply s response =>
      _ ← spawned (r ← shell_replication_response (aeq_term (sn_request s)) (sn_to s) (Ok (Some (outcome_of s response)));
                   mret (_ ← r; Ok tt));
      mret []
  | TFeed next => _ ← feed_one next; mret []
  | THorizon next => _ ← horizon_one next; mret []
  | TFatal e => _ ← fatal (A:=unit) e; mret []
  end.
End tasks.

(** ** The cluster *)

Section cluster.
Context {S G F : Type} `{LogStorageLaws S} `{RngExt G} `{StateMachine F}.
Context (members : gset N) (reopens : F → F → Prop).
Abbreviation shell := (ConsensusShell S G F) (only parsing).

Record rcluster : Type := mkRC {
  rc_shells : gmap N shell;
  rc_issued : list item;
}.

Definition can_apply (next : LogIndex) (c : shell) : Prop :=
  ∃ committed, role_committed (ln_state (sh_node c)) = Some committed ∧ next ≤ committed.

(** When a node may run a task: what it works on has been issued, to it. *)
Definition task_ok (C : rcluster) (id : NodeId) (c : shell) (t : task) : Prop :=
  match t with
  | TPreVoteTerm _ peer_term => U64 peer_term
  | TVote params => IClaim params ∈ rc_issued C
  | TVoteReply reply => IVote reply ∈ rc_issued C ∧ vp_candidate reply = id
  | TTally votes | TPromote votes => votes = 1 ∨ ITally id votes ∈ rc_issued C
  | TPropose data => Forall is_byte data
  | TStrategy peer params =>
      IRound params ∈ rc_issued C ∧ rp_node_id params = id ∧ peer ∈ peers_of members id
  | TAppend s => ISent s ∈ rc_issued C ∧ sn_to s = id
  | TReply s response => IReply s response ∈ rc_issued C ∧ sn_from s = id
  | TFeed next | THorizon next => can_apply next c
  | _ => True
  end.

(** The start of a process on its disks, as [init_node_state] does it on the
    open databases: cold-boot recovery, the node, its shell. *)
Definition boot_shell (identity : NodeIdentity) (thresholds : TickThresholds) (rng : G) (s : S) (f : F) :
    option shell * F :=
  let '(r, f') := recover s f in
  match r with
  | Err _ => (None, f')
  | Ok _ =>
      match LogicalNode_try_new identity (map_err sm_into (sm_last_applied f')) thresholds rng s with
      | Err _ => (None, f')
      | Ok n => (ok (shell_new n f'), f')
      end
  end.
(** A process that did not start: only its disks count. *)
Definition down (s : S) (f : F) (c : shell) : shell :=
  sh_set_fsm f (sh_set_node (set_state RS_Poisoned (set_store s (sh_node c))) c).

(** A step: a task of a member, or a crash and restart of one.  Compaction, the
    snapshot probe, the transfer and the installation are not among the
    tasks. *)
Inductive rcstep (C : rcluster) : rcluster → Prop :=
| RC_task id c t r c' :
    rc_shells C !! id = Some c → task_ok C id c t → run_task members id t c = (r, c') →
    rcstep C (mkRC (<[id := c']> (rc_shells C)) (default [] (ok r) ++ rc_issued C))
| RC_restart id c s f identity thresholds rng o f' :
    rc_shells C !! id = Some c → reopened (ln_store (sh_node c)) s → reopens (sh_fsm c) f →
    node_id identity = id → boot_shell identity thresholds rng s f = (o, f') →
    rcstep C (mkRC (<[id := default (down s f' c) o]> (rc_shells C)) (rc_issued C)).

(** Every member starts as a follower on an empty log. *)
Record rc_initial (C : rcluster) : Prop := {
  rci_members id c : rc_shells C !! id = Some c → id ∈ members ∧ valid_node_id id;
  rci_follower id c : rc_shells C !! id = Some c →
    ∃ m, ln_state (sh_node c) = RS_Follower m ∧ rn_node_id m = id ∧ rn_last_committed m = 0;
  rci_store id c : rc_shells C !! id = Some c →
    ∃ v, held (ln_store (sh_node c)) v v ∧ lv_log v = ∅ ∧ lv_committed v = 0 ∧
      lv_snap_index v = 0 ∧ lv_snap_term v = 0;
  rci_issued : rc_issued C = [];
}.

Definition rc_reachable (C : rcluster) : Prop := ∃ C0, rc_initial C0 ∧ rtc rcstep C0 C.
End cluster.
Arguments rcluster : clear implicits.
Arguments mkRC {S G F} _ _.
Arguments rc_shells {S G F} _.
Arguments rc_issued {S G F} _.
