(* ===== verification/RaftRuns.v ===== *)
(** The rounds of the shell as runs of the cluster: an election, a pre-vote
    campaign, a replication round, the applier and a tick pulse, as Rounds.v
    and Shell.v compose them, take no step that the cluster of RaftTasks.v
    does not take, so what is proved of its runs holds of theirs. *)
From S2P Require Import Prelude Machine Types Wire Storage Timing Node Engine Consensus VoteSpec Election Cluster NodeProps Shell Service Rounds RaftTasks.

Section runs.
Context {S G F : Type} `{LogStorageLaws S} `{RngExt G} `{StateMachine F}.
Context (members : gset N) (reopens : F → F → Prop) (id : NodeId).
Abbreviation shell := (ConsensusShell S G F) (only parsing).
Abbreviation sh := (st (ConsensusShell S G F) halt) (only parsing).
Abbreviation eng := (st (LogicalNode S G) halt) (only parsing).
Abbreviation cluster := (rcluster S G F) (only parsing).
Abbreviation rcsteps := (rtc (rcstep members reopens)).
Abbreviation peers := (peers_of members id).
Implicit Types (C : cluster) (c : shell) (P : cluster → shell → Prop).

(** ** Triples

    Started on the shell of [id] in a cluster with [P], [m] is a run of the
    cluster, which ends with that shell and, if [m] returns, in [Q]. *)
Definition runs {A} P (m : sh A) (Q : A → cluster → shell → Prop) : Prop :=
  ∀ C c r c', rc_shells C !! id = Some c → P C c → m c = (r, c') →
    ∃ C', rcsteps C C' ∧ rc_shells C' !! id = Some c' ∧ ∀ x, r = Ok x → Q x C' c'.

Lemma rcsteps_issued C C' : rcsteps C C' → rc_issued C ⊆ rc_issued C'.
Proof.
  induction 1 as [C|C C1 C' Hstep _ IH]; [done|]. etrans; [|done]. destruct Hstep; cbn; set_solver.
Qed.

Lemma runs_ret {A} P (x : A) : runs P (mret x) (λ y C c, y = x ∧ P C c).
Proof. intros C c r c' Hc HP [= <- <-]. exists C. split_and!; [done|done|]. by intros y [= <-]. Qed.
Lemma runs_gets {A} P (f : shell → A) : runs P (st_gets f) (λ y C c, y = f c ∧ P C c).
Proof. intros C c r c' Hc HP [= <- <-]. exists C. split_and!; [done|done|]. by intros y [= <-]. Qed.
Lemma runs_bind {A B} P (m : sh A) (k : A → sh B) Q R :
  runs P m Q → (∀ x, runs (Q x) (k x) R) → runs P (m ≫= k) R.
Proof.
  intros Hm Hk C c r c' Hc HP. unfold mbind, st_bind. destruct (m c) as [[x|h] c1] eqn:Hx; intros Hrun.
  - destruct (Hm _ _ _ _ Hc HP Hx) as (C1 & Hs1 & Hc1 & HQ).
    destruct (Hk x _ _ _ _ Hc1 (HQ x eq_refl) Hrun) as (C' & Hs & Hc' & HR).
    exists C'. split_and!; [by etrans|done|done].
  - injection Hrun as <- <-. destruct (Hm _ _ _ _ Hc HP Hx) as (C1 & Hs1 & Hc1 & _).
    exists C1. split_and!; [done|done|by intros ?].
Qed.
Lemma runs_mono {A} P P' (m : sh A) Q Q' :
  runs P m Q → (∀ C c, P' C c → P C c) → (∀ x C c, Q x C c → Q' x C c) → runs P' m Q'.
Proof.
  intros Hm HP HQ C c r c' Hc Hp Hrun. destruct (Hm _ _ _ _ Hc (HP _ _ Hp) Hrun) as (C' & ? & ? & ?).
  exists C'. split_and!; auto.
Qed.

Lemma runs_pre {A} P P' (m : sh A) Q : (∀ C c, P' C c → P C c) → runs P m Q → runs P' m Q.
Proof. intros HP Hm. by eapply runs_mono. Qed.
Lemma runs_post {A} P (m : sh A) Q Q' : (∀ x C c, Q x C c → Q' x C c) → runs P m Q → runs P m Q'.
Proof. intros HQ Hm. by eapply runs_mono. Qed.

(** What only grows with the run may be kept. *)
Definition stable (I : cluster → Prop) : Prop := ∀ C C', rcsteps C C' → I C → I C'.
Lemma runs_frame {A} (I : cluster → Prop) P (m : sh A) Q :
  stable I → runs P m Q → runs (λ C c, I C ∧ P C c) m (λ x C c, I C ∧ Q x C c).
Proof.
  intros HI Hm C c r c' Hc [Hi Hp] Hrun. destruct (Hm _ _ _ _ Hc Hp Hrun) as (C' & Hs & Hc' & HQ).
  exists C'. split_and!; [done|done|]. intros x Hx. split; [by eapply HI|auto].
Qed.
Lemma stable_issued (i : item) : stable (λ C, i ∈ rc_issued C).
Proof. intros C C' Hs%rcsteps_issued Hi. set_solver. Qed.
Lemma stable_and I J : stable I → stable J → stable (λ C, I C ∧ J C).
Proof. intros HI HJ C C' Hs [? ?]. split; [by eapply HI|by eapply HJ]. Qed.
Lemma stable_or I J : stable I → stable J → stable (λ C, I C ∨ J C).
Proof. intros HI HJ C C' Hs [?|?]; [left; by eapply HI|right; by eapply HJ]. Qed.
Lemma stable_const (X : Prop) : stable (λ _, X).
Proof. by intros C C' _. Qed.

(** ** Blocks *)

(** A block that is a task. *)
Lemma runs_task {A} t (m : sh A) (g : A → list item) :
  (∀ c, run_task members id t c = (x ← m; mret (g x)) c) →
  runs (λ C c, task_ok members C id c t) m (λ x C _, ∀ i, i ∈ g x → i ∈ rc_issued C).
Proof.
  intros Heq C c r c' Hc Hok Hrun. specialize (Heq c). unfold mbind, st_bind in Heq. rewrite Hrun in Heq.
  exists (mkRC (<[id := c']> (rc_shells C)) (match r with Ok x => g x | Err _ => [] end ++ rc_issued C)).
  split_and!; [|cbn; apply lookup_insert_eq|intros x ->; cbn; set_solver].
  apply rtc_once. destruct r as [x|h].
  - exact (RC_task _ _ C id c t (Ok (g x)) c' Hc Hok Heq).
  - exact (RC_task _ _ C id c t (Err h) c' Hc Hok Heq).
Qed.

(** A fatal error, and what ends like one. *)
Lemma fatal_run C c e c' :
  rc_shells C !! id = Some c → (fatal (A:=unit) e c).2 = c' →
  ∃ C', rcsteps C C' ∧ rc_shells C' !! id = Some c'.
Proof.
  intros Hc <-. exists (mkRC (<[id := (fatal (A:=unit) e c).2]> (rc_shells C)) ([] ++ rc_issued C)).
  split; [|cbn; apply lookup_insert_eq]. apply rtc_once.
  refine (RC_task _ _ C id c (TFatal e) (Err (default HaltPoisoned (match (fatal (A:=unit) e c).1 with Err h => Some h | _ => None end))) _ Hc I _).
  cbn [run_task]. unfold mbind, st_bind, fatal. destruct (locked_fatal e c) as (h & c1 & Heq). by rewrite Heq.
Qed.
Lemma runs_fatal {A} P e Q : runs P (fatal (A:=A) e) Q.
Proof.
  intros C c r c' Hc _ Hrun. unfold fatal in Hrun.
  destruct (locked_fatal e c) as (h & c1 & Heq). rewrite Heq in Hrun. injection Hrun as <- <-.
  destruct (fatal_run C c e c1 Hc) as (C' & ? & ?); [unfold fatal; by rewrite Heq|]. by exists C'.
Qed.

(** A read of the node. *)
Lemma runs_peek {A} P (m : eng A) (Q : A → shell → Prop) :
  (∀ n, (m n).2 = n) → (∀ c x, (m (sh_node c)).1 = Ok x → Q x c) →
  runs P (on_node m) (λ x C c, Q x c ∧ P C c).
Proof.
  intros Hm HQ C c r c' Hc HP. unfold on_node, st_zoom. specialize (Hm (sh_node c)). specialize (HQ c).
  destruct (m (sh_node c)) as [y n]; cbn in *. subst n. intros [= <- <-].
  assert (sh_set_node (sh_node c) c = c) as -> by (by destruct c).
  exists C. split_and!; [done|done|]. intros x ->. split; [by apply HQ|done].
Qed.
Lemma peek_delegate {A} (f : S → result NodeError A) (n : LogicalNode S G) : (delegate_read f n).2 = n.
Proof. unfold delegate_read, mbind, st_bind. cbn. by destruct (ln_state n). Qed.
Lemma peek_delegate_field {A} (f : ∀ R, RaftNode R → A) (n : LogicalNode S G) : (delegate_field f n).2 = n.
Proof. unfold delegate_field, mbind, st_bind. cbn. by destruct (ln_state n). Qed.
Lemma field_committed (n : LogicalNode S G) k :
  (eng_last_committed n).1 = Ok k → role_committed (ln_state n) = Some k.
Proof.
  unfold eng_last_committed, delegate_field, mbind, st_bind. cbn. destruct (ln_state n); cbn; by intros [= <-].
Qed.

(** A read under the lock, fatal when it fails. *)
Lemma locked_read_cases {A} (f : S → result NodeError A) c :
  (locked (on_node (read_or_fatal f)) c).2 = c ∨
  is_ok (locked (on_node (read_or_fatal f)) c).1 = false ∧
    ∃ e, (fatal (A:=unit) e c).2 = (locked (on_node (read_or_fatal f)) c).2.
Proof.
  unfold fatal, locked, consensus_progress, mbind, st_bind, st_gets.
  destruct (try_consensus_progress (sh_node c)) as [before|e0] eqn:Ht; cbn; [|right; split; [done|by exists e0]].
  assert (sh_set_node (sh_node c) c = c) as -> by (by destruct c).
  unfold on_node, st_zoom, read_or_fatal, delegate_read, mbind, st_bind, st_get.
  destruct (ln_state (sh_node c)) eqn:Hst; cbn;
    try (destruct (f (ln_store (sh_node c))) as [x|e]; cbn; [left|right; split; [done|by exists e]];
      unfold guard_drop, is_poisoned; cbn; rewrite Hst, Ht; cbn; rewrite decide_True by done; by destruct c).
  right. split; [done|]. exists (Protocol ""). done.
Qed.
Lemma runs_locked_read {A} P (f : S → result NodeError A) :
  runs P (locked (on_node (read_or_fatal f))) (λ _, P).
Proof.
  intros C c r c' Hc HP Hrun. destruct (locked_read_cases f c) as [He|(Hr & e & He)]; rewrite Hrun in *; cbn in *.
  - subst c'. exists C. by split_and!.
  - destruct (fatal_run C c e c' Hc He) as (C' & ? & ?). exists C'. split_and!; [done..|]. intros x ->. done.
Qed.

(** ** Arrivals *)

Abbreviation keeps I := (λ C (_ : shell), I C).
(** What the other tasks of the node do between two blocks of a round, *)
Definition meanwhile (I : cluster → Prop) (f : shell → shell) : Prop :=
  runs (keeps I) (st_modify f) (λ _, keeps I).
(** and up to an answer: by then it has been given. *)
Definition arrives {A} (I : cluster → Prop) (said : NodeId → A → cluster → Prop) (a : Arrival S G F A) : Prop :=
  runs (keeps I) (st_modify (ar_before a))
    (λ _ C _, I C ∧ ∀ x, ar_result a = Ok x → said (ar_peer a) x C).

Definition vote_said (term : Term) (peer : NodeId) (resp : RequestVoteResponse) C : Prop :=
  IVote (mkVoteReply peer id term resp) ∈ rc_issued C.
Definition pre_vote_said (peer : NodeId) (resp : PreVoteResponse) C : Prop := U64 (pvr_term resp).
Definition append_said (params : ReplicationRoundParams) (peer : NodeId) (o : option ReplicationOutcome) C : Prop :=
  match o with
  | None => True
  | Some o => ∃ s resp, o = outcome_of s resp ∧ aeq_term (sn_request s) = rp_term params ∧
      sn_to s = peer ∧ sn_from s = id ∧ IReply s resp ∈ rc_issued C
  end.

Lemma runs_block {A} I t (m : sh A) (g : A → list item) :
  stable I → (∀ c, run_task members id t c = (x ← m; mret (g x)) c) →
  (∀ C c, I C → task_ok members C id c t) →
  runs (keeps I) m (λ x C _, I C ∧ ∀ i, i ∈ g x → i ∈ rc_issued C).
Proof.
  intros HI Heq Hok. eapply runs_mono; [apply (runs_frame I); [done|by apply runs_task]| |done].
  intros C c Hi. split; [done|by apply Hok].
Qed.
(** A block that issues nothing. *)
Lemma runs_silent {A} I t (m : sh A) :
  stable I → (∀ c, run_task members id t c = (_ ← m; mret []) c) →
  (∀ C c, I C → task_ok members C id c t) → runs (keeps I) m (λ _, keeps I).
Proof.
  intros HI Heq Hok. eapply runs_mono; [by apply (runs_block I t m (λ _, []))|done|]. by intros x C c [? _].
Qed.
Lemma runs_return {A} I (x : A) : runs (keeps I) (mret x) (λ _, keeps I).
Proof. eapply runs_mono; [apply (runs_ret (keeps I))|done|]. by intros y C c [_ ?]. Qed.
Lemma runs_spawned I (m : sh (result NodeError unit)) :
  runs (keeps I) m (λ _, keeps I) → runs (keeps I) (spawned m) (λ _, keeps I).
Proof. intros Hm. eapply runs_bind; [done|]. intros [u|e]; [apply runs_return|apply runs_fatal]. Qed.

(** ** The election *)

Definition tallied (votes : N) C : Prop := votes = 1 ∨ ITally id votes ∈ rc_issued C.
Lemma stable_tallied votes : stable (tallied votes).
Proof. apply stable_or; [apply stable_const|apply stable_issued]. Qed.

Lemma runs_vote_response I term peer res :
  stable I → (∀ C x, I C → res = Ok x → vote_said term peer x C) →
  runs (keeps I) (shell_vote_response term peers peer res) (λ _, keeps I).
Proof.
  intros HI Hsaid. destruct res as [resp|e]; [|apply runs_return].
  apply (runs_silent _ (TVoteReply (mkVoteReply peer id term resp))); [done..|].
  intros C c Hi. split; [by apply Hsaid|done].
Qed.

Lemma runs_election_loop I term votes stream :
  stable I → Forall (arrives I (vote_said term)) stream →
  runs (λ C _, I C ∧ tallied votes C) (election_loop term peers votes stream)
    (λ o C _, I C ∧ ∀ v, o = Some v → tallied v C).
Proof.
  intros HI Hs. revert votes. induction Hs as [|a stream Ha _ IH]; intros votes; cbn [election_loop].
  { eapply runs_mono; [apply (runs_ret (λ C _, I C ∧ tallied votes C))|done|]. intros o C c [-> [? ?]]. split; [done|]. by intros v [= <-]. }
  eapply runs_bind.
  { eapply runs_mono; [apply (runs_frame (tallied votes)); [apply stable_tallied|exact Ha]|intros C c [? ?]; by split|].
    intros u C c HQ. exact HQ. }
  intros u. cbn beta.
  set (J := λ C, tallied votes C ∧ I C ∧ ∀ x, ar_result a = Ok x → vote_said term (ar_peer a) x C).
  assert (stable J) as HJ.
  { apply stable_and; [apply stable_tallied|]. apply stable_and; [done|].
    intros C C' Hs1 Hx x Hr. by eapply stable_issued, Hx. }
  eapply runs_bind; [eapply (runs_vote_response J); [done|]|].
  { intros C x (_ & _ & Hx) Hr. by apply Hx. }
  intros action. cbn beta.
  assert (∀ o : option N, o = None → runs (keeps J) (mret o) (λ o C _, I C ∧ ∀ v, o = Some v → tallied v C)) as Hnone.
  { intros o ->. eapply runs_mono; [apply (runs_ret (keeps J))|done|]. by intros o' C c [-> (_ & ? & _)]. }
  destruct action; [by apply Hnone|by apply Hnone|].
  eapply runs_bind; [|intros k; apply IH].
  eapply runs_mono; [apply (runs_block J (TTally votes) _ (λ k, [ITally id k])); [done|done|by intros C c [? _]]|done|].
  intros k C c [(_ & ? & _) Hi]. split; [done|]. right. apply Hi. by left.
Qed.

Lemma runs_after_election I votes late :
  stable I → meanwhile I late →
  runs (λ C _, I C ∧ tallied votes C) (after_election_loop peers votes late) (λ _, keeps I).
Proof.
  intros HI Hlate. unfold after_election_loop. set (J := λ C, tallied votes C ∧ I C).
  assert (stable J) as HJ by (apply stable_and; [apply stable_tallied|done]).
  assert (∀ x : result NodeError unit, runs (keeps J) (mret x) (λ _, keeps I)) as Hret.
  { intros x. eapply runs_post; [|apply (runs_return J)]. by intros _ C c [_ ?]. }
  eapply runs_bind; [apply runs_gets|]. intros candidate. cbn beta.
  apply (runs_pre (keeps J)); [by intros C c (_ & ? & ?)|].
  assert (runs (keeps J) (r ← on_node (delegate_read (node_read current_term)); mret (_ ← r; Ok tt)) (λ _, keeps I)) as Hread.
  { eapply runs_bind; [apply (runs_peek (keeps J) _ (λ _ _, True)); [apply peek_delegate|done]|].
    intros r. eapply runs_pre; [|apply Hret]. by intros C c [_ ?]. }
  destruct (quorum_of (length peers) <=? votes) eqn:Hq; [|exact Hread]. destruct candidate; [|exact Hread].
  cbn [andb]. eapply runs_bind; [apply (runs_frame (tallied votes)); [apply stable_tallied|exact Hlate]|].
  intros u. eapply runs_bind; [|intros x; apply Hret].
  apply (runs_silent J (TPromote votes)); [done| |by intros C c [? _]].
  intros c. cbn [run_task]. by rewrite Hq.
Qed.

Lemma runs_election I pm params stream late :
  stable I → peer_ids pm = peers → Forall (arrives I (vote_said (ec_term params))) stream → meanwhile I late →
  runs (keeps I) (initiate_election pm params stream late) (λ _, keeps I).
Proof.
  intros HI Hpm Hs Hlate. unfold initiate_election. rewrite Hpm. eapply runs_bind.
  { eapply runs_mono; [by apply (runs_election_loop I _ 1)| |intros o C c HQ; exact HQ].
    intros C c Hi. split; [done|by left]. }
  intros [votes|]; cbn beta.
  - eapply runs_mono; [by apply (runs_after_election I votes)| |done]. intros C c [? Ht]. split; [done|by apply Ht].
  - eapply runs_mono; [apply (runs_return I)|by intros C c [? _]|done].
Qed.

(** ** The pre-vote campaign *)

Lemma runs_pre_vote_loop I quorum term granted stream :
  stable I → Forall (arrives I pre_vote_said) stream →
  runs (keeps I) (pre_vote_loop quorum term granted stream) (λ _, keeps I).
Proof.
  intros HI Hs. revert granted. induction Hs as [|a stream Ha _ IH]; intros granted; cbn [pre_vote_loop].
  { apply runs_return. }
  eapply runs_bind; [exact Ha|]. intros u. cbn beta. eapply (runs_bind _ _ _ (λ _, keeps I)).
  - destruct (ar_result a) as [resp|e]; [|eapply runs_pre; [|apply (runs_return I)]; by intros C c [? _]].
    destruct (term <? pvr_term resp); [|eapply runs_pre; [|apply (runs_return I)]; by intros C c [? _]].
    set (J := λ C, I C ∧ U64 (pvr_term resp)).
    apply (runs_pre (keeps J)); [intros C c [? Hx]; split; [done|by apply Hx]|].
    eapply runs_post; [|apply (runs_silent J (TPreVoteTerm term (pvr_term resp))); [|done|by intros C c [_ ?]]].
    + by intros _ C c [? _].
    + apply stable_and; [done|apply stable_const].
  - intros [|]; [apply runs_return|]. destruct (_ && _); [apply runs_return|apply IH].
Qed.

Definition claimed (I : cluster → Prop) (campaign : ElectionCampaignParams) C : Prop :=
  I C ∧ IClaim campaign ∈ rc_issued C.
Lemma runs_pre_vote I pm params stream votes late :
  stable I → peer_ids pm = peers → Forall (arrives I pre_vote_said) stream →
  (∀ campaign, Forall (arrives (claimed I campaign) (vote_said (ec_term campaign))) (votes campaign) ∧
     meanwhile (claimed I campaign) late) →
  runs (keeps I) (initiate_pre_vote pm params stream votes late) (λ _, keeps I).
Proof.
  intros HI Hpm Hs Hvotes. unfold initiate_pre_vote.
  eapply runs_bind; [by apply runs_pre_vote_loop|]. intros [granted|]; [|apply runs_return].
  destruct (_ <=? granted).
  - unfold election_of. eapply runs_bind; [by apply (runs_block I TPreVoteWon _ (λ p, [IClaim p]))|].
    intros campaign. cbn beta. destruct (Hvotes campaign) as [Hv Hl].
    apply (runs_pre (keeps (claimed I campaign))).
    { intros C c [? Hi]. split; [done|]. apply Hi. by left. }
    eapply runs_post; [|apply (runs_election (claimed I campaign)); [|done..]].
    + by intros _ C c [? _].
    + apply stable_and; [done|apply stable_issued].
  - eapply runs_bind; [apply (runs_locked_read (keeps I))|]. intros t. apply (runs_return I).
Qed.

(** ** The replication round *)

Lemma runs_replication I params stream :
  stable I → Forall (arrives I (append_said params)) stream →
  runs (keeps I) (initiate_replication params stream) (λ _, keeps I).
Proof.
  intros HI Hs. unfold initiate_replication. induction Hs as [|a stream Ha _ IH].
  { apply runs_spawned, runs_return. }
  intros C c r c' Hc Hi Hrun. unfold spawned in Hrun, IH. cbn [replicate_to_peers] in Hrun.
  destruct (Ha C c (Ok tt) (ar_before a c) Hc Hi eq_refl) as (C1 & Hs1 & Hc1 & HQ).
  destruct (HQ tt eq_refl) as [Hi1 Hsaid]. clear HQ.
  unfold mbind at 1 2, st_bind at 1 2 in Hrun. unfold st_modify in Hrun.
  assert (∀ o, ar_result a = Ok (Some o) →
    ∃ C', rcsteps C C' ∧ rc_shells C' !! id = Some c' ∧ ∀ x : unit, r = Ok x → keeps I C' c') as Hsome.
  { intros o Ho. rewrite Ho in Hrun. destruct (Hsaid _ Ho) as (s & resp & -> & Hterm & Hto & Hfrom & Hin).
    rewrite <-Hterm, <-Hto in Hrun.
    destruct (run_task members id (TReply s resp) (ar_before a c)) as [ri c2] eqn:Ht.
    pose proof (RC_task members reopens C1 id (ar_before a c) (TReply s resp) ri c2 Hc1 (conj Hin Hfrom) Ht) as Hstep.
    cbn [run_task] in Ht. unfold spawned, mbind, st_bind in Ht, Hrun.
    set (C2 := mkRC _ _) in Hstep. assert (rcsteps C C2) as Hs2 by (etrans; [done|by apply rtc_once]).
    assert (rc_shells C2 !! id = Some c2) as Hc2 by apply lookup_insert_eq.
    destruct (shell_replication_response _ _ _ _) as [[[act|e]|h] c3]; cbn in Ht, Hrun.
    - injection Ht as <- ->. destruct act.
      + injection Hrun as <- <-. exists C2. split_and!; [done..|]. intros x _. by eapply HI.
      + destruct (IH C2 c2 r c' Hc2 ltac:(by eapply HI) Hrun) as (C' & ? & ? & ?).
        exists C'. split_and!; [by etrans|done..].
    - rewrite Hrun in Ht. exists C2. destruct r as [x|h]; injection Ht as <- ->; (split_and!; [done..|]); [|done].
      intros _ _. by eapply HI.
    - injection Ht as <- ->. injection Hrun as <- <-. exists C2. by split_and!. }
  destruct (ar_result a) as [[o|]|e] eqn:Ho; [by eapply Hsome| |];
    (destruct (IH C1 (ar_before a c) r c' Hc1 Hi1) as (C' & ? & ? & ?);
      [by rewrite ?Ho in Hrun|exists C'; split_and!; [by etrans|done..]]).
Qed.

(** ** The applier *)

Lemma feed_one_node next c c' : feed_one next c = (Ok tt, c') → sh_node c' = sh_node c.
Proof.
  unfold feed_one, fatal, mbind, st_bind, st_gets.
  destruct (read_entries next next _) as [[|entry es]|e].
  - destruct (locked_fatal (Protocol "Committed entry missing from log storage") c) as (h & c1 & Heq). by rewrite Heq.
  - destruct (on_fsm (sm_apply next (le_data entry)) c) as [[[u|e]|h] c1] eqn:Hf; [|..|done].
    + intros [= <-]. revert Hf. unfold on_fsm, st_zoom. destruct (st_try _ _) as [x f]. by intros [= _ <-].
    + destruct (locked_fatal (Protocol "Apply failure") c1) as (h & c2 & Heq). by rewrite Heq.
  - destruct (locked_fatal (node_error_of_storage e) c) as (h & c1 & Heq). by rewrite Heq.
Qed.
Lemma horizon_one_committed next c k c' :
  horizon_one next c = (Ok k, c') → role_committed (ln_state (sh_node c')) = Some k.
Proof.
  unfold horizon_one, locked. destruct (consensus_progress (sh_node c)) as [[before|h] n]; [|done].
  unfold mbind, st_bind, on_node, st_zoom.
  destruct (eng_advance_horizon_after_snapshot _ _) as [[[u|e]|h] n1]; cbn; [| |done].
  2: { by intros [= ?]. }
  pose proof (peek_delegate_field (λ R, rn_last_committed) n1) as Hn.
  pose proof (field_committed n1) as Hk. unfold eng_last_committed in *.
  destruct (delegate_field _ n1) as [[k'|h] n2]; cbn in *; [|done]. subst n2. intros [= -> <-].
  unfold guard_drop. cbn. by destruct (decide _); apply Hk.
Qed.

Definition committed_at (k : LogIndex) c : Prop := role_committed (ln_state (sh_node c)) = Some k.
Lemma runs_apply_one next k :
  next ≤ k → runs (λ _ c, committed_at k c) (apply_one next) (λ k' _ c, committed_at k' c).
Proof.
  intros Hle C c r c' Hc Hk Hrun. rewrite apply_one_halves in Hrun. unfold mbind, st_bind in Hrun.
  assert (can_apply next c) as Hcan by (by exists k).
  destruct (runs_task (TFeed next) (feed_one next) (λ _, []) (λ _, eq_refl) C c _ _ Hc Hcan (surjective_pairing _))
    as (C1 & Hs1 & Hc1 & _).
  destruct (feed_one next c) as [[[]|h] c1] eqn:Hf; cbn in Hc1.
  - apply feed_one_node in Hf. assert (can_apply next c1) as Hcan1 by (unfold can_apply; rewrite Hf; by exists k).
    destruct (runs_task (THorizon next) (horizon_one next) (λ _, []) (λ _, eq_refl) C1 c1 r c' Hc1 Hcan1 Hrun)
      as (C' & Hs & Hc' & _).
    exists C'. split_and!; [by etrans|done|]. intros k' ->. by eapply horizon_one_committed.
  - injection Hrun as <- <-. exists C1. by split_and!.
Qed.
Lemma runs_apply_loop fuel applied k :
  runs (λ _ c, committed_at k c) (apply_loop fuel applied k) (λ _ _ _, True).
Proof.
  revert applied k. induction fuel as [|fuel IH]; intros applied k; cbn [apply_loop].
  { by eapply runs_post; [|apply runs_ret]. }
  destruct (N.ltb_spec applied k); [|by eapply runs_post; [|apply runs_ret]].
  destruct (index_add applied 1) as [next|] eqn:Hn; [|apply runs_fatal].
  apply newtype_add_Ok in Hn as [-> _].
  eapply runs_bind; [apply runs_apply_one; lia|]. intros k'. apply IH.
Qed.
Lemma runs_applier : runs (λ _ _, True) apply_committed (λ _ _ _, True).
Proof.
  unfold apply_committed.
  eapply runs_bind; [apply (runs_peek _ _ (λ _ _, True)); [apply peek_delegate_field|done]|]. intros applied.
  eapply runs_bind.
  { apply (runs_peek _ _ committed_at); [apply peek_delegate_field|intros c k; apply field_committed]. }
  intros k. apply (runs_pre (λ _ c, committed_at k c)); [by intros C c [? _]|].
  eapply (runs_bind _ _ _ (λ _ _ c, committed_at k c)); [|intros u; apply runs_apply_loop].
  destruct (k <? applied); [apply runs_fatal|]. eapply runs_post; [|apply runs_ret]. by intros _ C c [_ ?].
Qed.

(** ** The tick *)

Lemma runs_pulse I threshold between :
  stable I → meanwhile I between →
  runs (keeps I) (tick_pulse threshold between)
    (λ d C _, I C ∧ ∀ i, i ∈ option_list IClaim (td_campaign d) ++ option_list IRound (td_replication d) → i ∈ rc_issued C).
Proof.
  intros HI Hb. unfold tick_pulse. eapply runs_bind; [by apply (runs_block I (TTick threshold))|]. intros d. cbn beta.
  set (g := option_list IClaim (td_campaign d) ++ option_list IRound (td_replication d)).
  set (J := λ C, (∀ i, i ∈ g → i ∈ rc_issued C) ∧ I C).
  assert (stable J) as HJ.
  { apply stable_and; [|done]. intros C C' Hs Hi i Hin. eapply stable_issued; [done|by apply Hi]. }
  apply (runs_pre (keeps J)); [by intros C c [? ?]|].
  eapply (runs_bind _ _ _ (λ _, keeps J)).
  - destruct (td_action d); try apply runs_return.
    eapply runs_bind; [apply (runs_frame (λ C, ∀ i, i ∈ g → i ∈ rc_issued C)); [|exact Hb]|].
    + intros C C' Hs Hi i Hin. eapply stable_issued; [done|by apply Hi].
    + intros u. by apply (runs_silent J TStepDown).
  - intros u. eapply runs_post; [|apply (runs_ret (keeps J))]. by intros d' C c [-> [? ?]].
Qed.

(** ** The routines of a node *)

Inductive Routine : Type :=
| R_Pulse (threshold : N) (between : shell → shell)
| R_Election (pm : PeerManager) (params : ElectionCampaignParams)
    (stream : list (Arrival S G F RequestVoteResponse)) (late : shell → shell)
| R_PreVote (pm : PeerManager) (params : ElectionCampaignParams) (stream : list (Arrival S G F PreVoteResponse))
    (votes : ElectionCampaignParams → list (Arrival S G F RequestVoteResponse)) (late : shell → shell)
| R_Replication (params : ReplicationRoundParams) (stream : list (Arrival S G F (option ReplicationOutcome)))
| R_Applier.

Definition run_routine (x : Routine) : sh unit :=
  match x with
  | R_Pulse threshold between => _ ← tick_pulse threshold between; mret tt
  | R_Election pm params stream late => start_election_campaign pm params stream late
  | R_PreVote pm params stream votes late => start_pre_vote_campaign pm params stream votes late
  | R_Replication params stream => initiate_replication params stream
  | R_Applier => apply_committed
  end.

(** The answers were given to the node, and what happens in between is steps
    of the cluster. *)
Definition routine_ok (I : cluster → Prop) (x : Routine) : Prop :=
  match x with
  | R_Pulse _ between => meanwhile I between
  | R_Election pm params stream late =>
      peer_ids pm = peers ∧ Forall (arrives I (vote_said (ec_term params))) stream ∧ meanwhile I late
  | R_PreVote pm params stream votes late =>
      peer_ids pm = peers ∧ Forall (arrives I pre_vote_said) stream ∧
      ∀ campaign, Forall (arrives (claimed I campaign) (vote_said (ec_term campaign))) (votes campaign) ∧
        meanwhile (claimed I campaign) late
  | R_Replication params stream => Forall (arrives I (append_said params)) stream
  | R_Applier => True
  end.

Lemma runs_routine I x :
  stable I → routine_ok I x → runs (keeps I) (run_routine x) (λ _ _ _, True).
Proof.
  intros HI Hok. destruct x; cbn in *; destruct_and?.
  - eapply runs_bind; [by apply runs_pulse|]. intros d.
    eapply (runs_pre (λ _ _, True)); [done|]. by eapply runs_post; [|apply runs_ret].
  - apply (runs_post _ _ (λ _, keeps I)); [done|]. by apply runs_spawned, runs_election.
  - apply (runs_post _ _ (λ _, keeps I)); [done|]. by apply runs_spawned, runs_pre_vote.
  - apply (runs_post _ _ (λ _, keeps I)); [done|]. by apply runs_replication.
  - by apply (runs_pre (λ _ _, True)); [|apply runs_applier].
Qed.

(** C8: The rounds of the code are runs of the cluster without snapshots.
    Whatever a tick pulse (the compaction that it may dispatch left aside), an
    election or pre-vote campaign, a replication round of AppendEntries or the
    applier does to a node of a cluster that has never compacted a log, from
    the first lock to the return or the halt, with answers that the peers have
    given, and with steps of the same cluster by the other tasks in between,
    the cluster can do by its steps: the node ends in a reachable cluster,
    where all that is proved of reachable clusters holds.  Compaction, the
    snapshot probe, the transfer and the installation are not steps of this
    cluster. *)
Theorem rounds_are_cluster_runs I x C c r c' :
  stable I → rc_reachable members reopens C → rc_shells C !! id = Some c → I C → routine_ok I x →
  run_routine x c = (r, c') →
  ∃ C', rcsteps C C' ∧ rc_reachable members reopens C' ∧ rc_shells C' !! id = Some c'.
Proof.
  intros HI (C0 & Hini & Hs0) Hc Hi Hok Hrun.
  destruct (runs_routine I x HI Hok C c r c' Hc Hi Hrun) as (C' & Hs & Hc' & _).
  exists C'. split_and!; [done| |done]. exists C0. split; [done|by etrans].
Qed.
End runs.
