(* ===== verification/RaftCluster.v ===== *)
(** The cluster of shells without compaction refines the abstract replication
    protocol: every task of every node, whether it returns or halts, and every
    restart is a run of [Raft.rstep]. *)
From S2P Require Import Prelude Machine Types Wire Storage Timing Node Engine Consensus VoteSpec LogSpec Election EngineSpec Cluster NodeProps Shell ShellProps Service Rounds Raft RaftLog RaftSpec RaftLead RaftTasks.

(** ** Blocks under the lock *)

Section blocks.
Context {S G F : Type} `{LogStorageLaws S} `{RngExt G} `{StateMachine F}.
Context (members : gset N) (id : NodeId) (Hmem : id ∈ members) (Hid : valid_node_id id).
Abbreviation shell := (ConsensusShell S G F) (only parsing).
Abbreviation node := (LogicalNode S G) (only parsing).
Abbreviation eng := (st (LogicalNode S G) halt) (only parsing).
Abbreviation sh := (st (ConsensusShell S G F) halt) (only parsing).
Abbreviation stands := (stands members id).
Abbreviation moves := (moves members id).
Abbreviation qmoves := (moves (Forall quiet)).
Abbreviation qop := (qop (S:=S) (G:=G) members id).
Implicit Types (c : shell) (a : ANode) (n : node).

(** Label lists that quiet labels may follow. *)
Definition closed (P : list nlabel → Prop) : Prop :=
  P [] ∧ ∀ l l', P l → Forall quiet l' → P (l ++ l').

Lemma closed_Forall (P : nlabel → Prop) : (∀ x, quiet x → P x) → closed (Forall P).
Proof.
  intros HP. split; [constructor|]. intros l l' Hl Hq. apply Forall_app. split; [done|].
  by eapply List.Forall_impl.
Qed.
Lemma closed_moves P a n : closed P → qmoves a n → moves P a n.
Proof. intros [Hnil Hc] Hm. eapply moves_weaken; [done|]. intros l Hl. by apply (Hc [] l). Qed.
Lemma closed_after P l a a' n : closed P → P l → nsteps (quorum members) id l a a' → qmoves a' n → moves P a n.
Proof.
  intros [_ Hc] Hl Hs Hm. eapply moves_after; [done|]. eapply moves_weaken; [done|]. intros l' Hl'. by apply Hc.
Qed.
Lemma closed_poison P a n : closed P → moves P a n → moves P a (set_state RS_Poisoned n).
Proof.
  intros Hc (l & a' & Hn & Hs & Hl). eapply closed_after; [done..|]. by apply qmoves_poison.
Qed.

Lemma wp_locked_node {A} (m : sh A) c a (Q : A → node → Prop) P :
  stands (sh_node c) a → closed P →
  wp m (λ x c', Q x (sh_node c')) (λ _ c', moves P a (sh_node c')) c →
  wp (locked m) (λ x c', Q x (sh_node c')) (λ _ c', moves P a (sh_node c')) c.
Proof.
  intros Hn Hc Hm. unfold wp, locked.
  destruct (consensus_progress (sh_node c)) as [[before|h] n] eqn:Hb.
  - destruct (consensus_progress_same _ _ _ Hb) as [-> _].
    assert (sh_set_node (sh_node c) c = c) as -> by (by destruct c).
    unfold wp in Hm. destruct (m c) as [[x|h] c1]; cbn.
    + unfold guard_drop. by destruct (decide _).
    + assert (moves P a (set_state RS_Poisoned (sh_node c1))) by (by apply closed_poison).
      unfold guard_drop. by destruct (decide _).
  - cbn. apply closed_moves; [done|]. revert Hb. unfold consensus_progress, mbind, st_bind, st_gets.
    destruct (try_consensus_progress (sh_node c)); cbn; [done|]. intros [= _ <-]. by apply qmoves_poison.
Qed.
Lemma wp_locked_on_node {A} (m : eng A) c a (Q : A → node → Prop) P :
  stands (sh_node c) a → closed P →
  wp m Q (λ _ n', moves P a n') (sh_node c) →
  wp (locked (on_node m)) (λ x c', Q x (sh_node c')) (λ _ c', moves P a (sh_node c')) c.
Proof. intros Hn Hc Hm. apply wp_locked_node; [done..|]. by apply wp_on_node. Qed.

(** Operations of the shell that do no more than quiet operations of its
    node. *)
Definition qsh {A} (m : sh A) : Prop :=
  ∀ c a, stands (sh_node c) a → wp m (λ _ c', qmoves a (sh_node c')) (λ _ c', qmoves a (sh_node c')) c.

Lemma closed_quiet : closed (Forall quiet).
Proof. by apply closed_Forall. Qed.
Lemma qsh_on_node {A} (m : eng A) : qop m → qsh (on_node m).
Proof. intros Hm c a Hn. apply wp_on_node. by apply Hm. Qed.
Lemma qsh_ret {A} (x : A) : qsh (mret x).
Proof. intros c a Hn. apply wp_ret. by apply qmoves_refl. Qed.
Lemma qsh_bind {A B} (m : sh A) (k : A → sh B) : qsh m → (∀ x, qsh (k x)) → qsh (m ≫= k).
Proof.
  intros Hm Hk c a Hn. wp_step. eapply wp_mono; [by apply Hm| |done]; cbn beta.
  intros x c' (l & a' & Hn' & Hs & Hq). eapply wp_mono; [by apply Hk|..]; intros; by eapply qmoves_trans.
Qed.
Lemma qsh_locked {A} (m : sh A) : qsh m → qsh (locked m).
Proof. intros Hm c a Hn. apply (wp_locked_node m c a (λ _ n', qmoves a n')); [done|apply closed_quiet|by apply Hm]. Qed.
Lemma qsh_fatal {A} e : qsh (A:=A) (fatal e).
Proof. apply qsh_locked, qsh_on_node, q_apply_fatal. Qed.

(** *** The tick *)

Lemma freeze_or_fatal_spec c a (Q : unit → shell → Prop) :
  stands (sh_node c) a → (∀ c', sh_node c' = sh_node c → Q tt c') →
  wp freeze_or_fatal Q (λ _ c', qmoves a (sh_node c')) c.
Proof.
  intros Hn HQ. unfold freeze_or_fatal, freeze, wp. destruct (_ =? u32_max); [|by apply HQ].
  cbn. by apply qmoves_poison.
Qed.

Lemma wp_peek {A} (m : eng A) c a (Q : A → shell → Prop) :
  stands (sh_node c) a → peek members id m → (∀ x, Q x c) →
  wp (on_node m) Q (λ _ c', qmoves a (sh_node c')) c.
Proof.
  intros Hn Hm HQ. apply wp_on_node. eapply wp_mono; [by apply Hm| |done]; cbn beta. intros x n' ->.
  assert (sh_set_node (sh_node c) c = c) as -> by (by destruct c). apply HQ.
Qed.

Lemma tick_block_spec k c a :
  stands (sh_node c) a → real (an_log a) →
  wp (tick_block k) (λ d c', quietly members id (dispatched id) a d (sh_node c')) (λ _ c', qmoves a (sh_node c')) c.
Proof.
  intros Hn Hr. unfold tick_block. apply wp_locked_node; [done|apply closed_quiet|].
  wp_step. apply wp_on_node. eapply wp_mono; [by apply q_tick| |done]; cbn beta.
  intros action n1 (l1 & a1 & Hn1 & Hs1 & Hq1). pose proof (quiet_same _ _ _ _ _ Hs1 Hq1) as (Hlog1 & _).
  assert (∀ n', qmoves a1 n' → qmoves a n') as Hback by (intros; by eapply qmoves_trans).
  rewrite <-Hlog1 in Hr. wp_step. apply wp_on_node.
  eapply wp_mono; [by apply q_term_spec| |auto]; cbn beta. intros t n2 (-> & -> & _).
  wp_step. apply wp_gets. wp_step.
  eapply wp_mono; [by apply wp_peek with (Q := λ _ c', sh_node c' = n1); [|apply peek_should_compact|]| |auto]; cbn beta.
  intros compact c3 Hc3. wp_step.
  eapply wp_mono with (Q := λ _ c', sh_node c' = n1) (R := λ _ c', qmoves a1 (sh_node c')); [| |auto]; cbn beta.
  { destruct compact; [|by apply wp_ret]. wp_step.
    apply (freeze_or_fatal_spec _ a1); [by rewrite Hc3|]. intros c4 Hc4. rewrite Hc3 in Hc4. wp_step.
    apply wp_peek; [by rewrite Hc4|apply peek_field|]. intros index. wp_step.
    apply wp_peek; [by rewrite Hc4|apply peek_read|]. intros t. by apply wp_ret. }
  intros compaction c5 Hc5. apply wp_on_node. rewrite Hc5.
  eapply wp_mono; [by apply tick_dispatch_spec|..]; cbn beta; [|auto].
  intros d n6 Hd. by eapply quietly_after.
Qed.

(** *** The probe *)

Lemma verify_prepare_spec c a :
  stands (sh_node c) a →
  wp verify_prepare
    (λ r c', stands (sh_node c') a ∧ ∀ target b params, r = Ok (target, b, params) → rounds id a params)
    (λ _ c', qmoves a (sh_node c')) c.
Proof.
  intros Hn. unfold verify_prepare.
  apply (wp_locked_node _ c a (λ r n', stands n' a ∧ ∀ target b params, r = Ok (target, b, params) → rounds id a params));
    [done|apply closed_quiet|].
  wp_step. apply wp_gets. destruct (is_poisoned (sh_node c)); [by apply wp_ret|].
  wp_step. apply wp_on_node. wp_use (q_id_spec members id (sh_node c) a); [done| |done]. intros i n' [-> ->].
  wp_step. apply wp_on_node. wp_use (q_committed_spec members id (sh_node c) a); [done| |done]. intros cm n' (-> & -> & Hut & Huc).
  destruct (ln_state (sh_node c)) as [| | |m|] eqn:Hst; try (by apply wp_ret).
  destruct (node_read current_term (ln_store (sh_node c))) as [t|] eqn:Ht; [|by apply wp_ret].
  destruct (stands_view _ _ _ _ Hn) as (v & Hh & Hs & _); [by rewrite Hst|].
  apply (node_read_Ok _ (lv_term v)) in Ht as ->; [|apply current_term_law, Hh].
  destruct (prepare_read_probe _ _) as [target l'] eqn:Hp. wp_step. apply wp_on_node. wp_step. wp_step.
  split; [|intros ? ? ? [= _ _ <-]; split_and!; [by apply shows_term|done|done|by rewrite (shows_term _ _ Hs)|done]].
  pose proof (sn_owned _ _ _ _ Hn) as Ho. pose proof (sn_inner _ _ _ _ Hn) as Hi. rewrite Hst in Ho, Hi.
  assert (ld_match_index l' = ld_match_index (rn_state m) ∧ ld_next_index l' = ld_next_index (rn_state m)) as [Hm1 Hm2].
  { revert Hp. unfold prepare_read_probe. destruct (_ =? _); by intros [= _ <-]. }
  apply stands_set_role; [done|cbn; by rewrite Hm1, Hst|done| |cbn; by rewrite Hst].
  destruct Hi as (Hd & Hpos & Hfit). split_and!; cbn; [by rewrite Hm1|unfold next_positive; by rewrite Hm2|].
  intros p. unfold next_index_of. rewrite Hm2. apply Hfit.
Qed.
End blocks.

(** ** The refinement *)

Section refinement.
Context {S G F : Type} `{LogStorageLaws S} `{RngExt G} `{StateMachine F}.
Context (members : gset N) (reopens : F → F → Prop).
Abbreviation shell := (ConsensusShell S G F) (only parsing).
Abbreviation node := (LogicalNode S G) (only parsing).
Abbreviation sh := (st (ConsensusShell S G F) halt) (only parsing).
Abbreviation cluster := (rcluster S G F) (only parsing).
Abbreviation q := (quorum members).
Abbreviation rsteps := (rtc (rstep members)).
Implicit Types (C : cluster) (R : RState) (c : shell) (a : ANode).

(** What a protocol state says of an issued item. *)
Record carries (s : SentAppend) (m : Msg) (pi : nat) : Prop := {
  ca_from : m_from m = sn_from s;
  ca_request : sn_request s = AppendEntriesRequest_new (m_term m) (m_from m) (N.of_nat pi)
    (anchor_term (m_log m) pi) (drop pi (m_log m)) (N.of_nat (m_commit m));
  ca_term : U64 (m_term m);
  ca_commit : U64 (N.of_nat (m_commit m));
  ca_wire : Forall wire_ok (m_log m);
  ca_index k e : m_log m !! k = Some e → le_index e = N.of_nat k + 1;
}.
Definition sent R (s : SentAppend) (m : Msg) (pi : nat) : Prop :=
  sn_to s ∈ members ∖ {[sn_from s]} ∧ m ∈ r_msgs R ∧ carries s m pi.
Definition backed R (i : item) : Prop :=
  match i with
  | IClaim p => valid_node_id (ec_node_id p) ∧ U64 (ec_term p) ∧
      ∃ k, ec_last_log_index p = N.of_nat k ∧ (ec_term p, ec_node_id p, k, ec_last_log_term p) ∈ r_claims R
  | IVote r => vp_voter r ∈ members ∧ U64 (rvr_term (vp_response r)) ∧
      (rvr_vote_granted (vp_response r) = true → (vp_voter r, vp_req_term r, vp_candidate r) ∈ r_votes R)
  | ITally _ k => k < q ∨ q = 1
  | IRound p => U64 (rp_term p) ∧ U64 (rp_last_committed p) ∧
      ∃ k, rp_last_committed p = N.of_nat k ∧ (rp_node_id p, rp_term p, k) ∈ r_rounds R
  | ISent s => ∃ m pi, sent R s m pi
  | IReply s resp => U64 (aer_term resp) ∧ ∃ m pi, sent R s m pi ∧
      (aer_success resp = true → (pi ≤ length (m_log m))%nat ∧
        (m_term m = m_lead_term m → (sn_to s, m_term m, length (m_log m)) ∈ r_acks R))
  end.

Record tracks C R : Prop := {
  tr_shells id c : rc_shells C !! id = Some c →
    id ∈ members ∧ valid_node_id id ∧ ∃ a, r_nodes R !! id = Some a ∧ stands members id (sh_node c) a;
  tr_items i : i ∈ rc_issued C → backed R i;
}.

(** What has been recorded stays. *)
Record grows R R' : Prop := {
  gr_votes : r_votes R ⊆ r_votes R';
  gr_acks : r_acks R ⊆ r_acks R';
  gr_claims x : x ∈ r_claims R → x ∈ r_claims R';
  gr_rounds x : x ∈ r_rounds R → x ∈ r_rounds R';
  gr_msgs m : m ∈ r_msgs R → m ∈ r_msgs R';
}.
Lemma grows_refl R : grows R R.
Proof. by split. Qed.
Lemma grows_trans R1 R2 R3 : grows R1 R2 → grows R2 R3 → grows R1 R3.
Proof. intros [] []. split; [set_solver|set_solver|auto..]. Qed.
Lemma backed_grows R R' i : grows R R' → backed R i → backed R' i.
Proof.
  intros [Hv Ha Hc Hr Hm]. destruct i as [p|r|id k|p|s|s resp]; cbn.
  - intros (? & ? & k & ? & ?). split_and!; [done..|]. exists k. auto.
  - intros (? & ? & Hg). split_and!; [done..|]. auto.
  - done.
  - intros (? & ? & k & ? & ?). split_and!; [done..|]. exists k. auto.
  - intros (m & pi & ? & ? & ?). exists m, pi. split_and!; auto.
  - intros (? & m & pi & (? & ? & ?) & Hack). split; [done|]. exists m, pi. split; [split_and!; auto|].
    intros Hs. destruct (Hack Hs) as [? Hin]. split; [done|]. auto.
Qed.

(** *** One node's labels in the cluster *)

Definition simple R (x : nlabel) : Prop :=
  match x with
  | NVote c t k lt => (t, c, k, lt) ∈ r_claims R
  | NAccept m _ => m ∈ r_msgs R
  | NCount _ | NMatch _ _ => False
  | _ => True
  end.
Definition labels_ok R id a (l : list nlabel) : Prop :=
  match l with [] => True | x :: l' => label_ok members R id a x ∧ Forall (simple R) l' end.
Lemma simple_labels_ok R id a l : Forall (simple R) l → labels_ok R id a l.
Proof. destruct 1 as [|x l Hx Hl]; [done|]. split; [by destruct x|done]. Qed.
Lemma quiet_simple R l : Forall quiet l → Forall (simple R) l.
Proof. apply List.Forall_impl. by intros x [->| ->]. Qed.

Lemma grows_apply R id a a' x : grows R (apply_label R id a a' x).
Proof. split; cbn; [set_solver|set_solver|done..]. Qed.
Lemma simple_grows R R' x : grows R R' → simple R x → simple R' x.
Proof. intros [_ _ Hc _ Hm]. destruct x; cbn; auto. Qed.

Lemma lift_steps R id l a a' :
  id ∈ members → r_nodes R !! id = Some a → nsteps q id l a a' → labels_ok R id a l →
  ∃ R', rsteps R R' ∧ r_nodes R' = <[id := a']> (r_nodes R) ∧ grows R R' ∧
    (∀ cand t k lt, NVote cand t k lt ∈ l → (id, t, cand) ∈ r_votes R') ∧
    (∀ m, NAccept m true ∈ l → m_term m = m_lead_term m → (id, m_term m, length (m_log m)) ∈ r_acks R').
Proof.
  intros Hid Ha Hs. revert R Ha. induction Hs as [a|x l a a1 a' Hstep _ IH]; intros R Ha Hl.
  { exists R. split_and!; [done|by rewrite insert_id|apply grows_refl|..]; by intros * ?%elem_of_nil. }
  destruct Hl as [Hx Hl]. set (R1 := apply_label R id a a1 x).
  pose proof (grows_apply R id a a1 x) as Hg1. fold R1 in Hg1.
  destruct (IH R1) as (R' & Hr & Hn & Hg & Hv & Hk).
  { cbn. apply lookup_insert_eq. }
  { apply simple_labels_ok. eapply List.Forall_impl; [|exact Hl]. intros. by eapply simple_grows. }
  exists R'. split_and!.
  - eapply rtc_l; [|done]. by constructor.
  - rewrite Hn. cbn. apply insert_insert_eq.
  - by eapply grows_trans.
  - intros cand t k lt [<-|Hin]%elem_of_cons; [|by eapply Hv]. apply (gr_votes _ _ Hg). cbn. set_solver.
  - intros m [<-|Hin]%elem_of_cons Hm; [|by eapply Hk]. apply (gr_acks _ _ Hg). cbn.
    rewrite Hm, N.eqb_refl. set_solver.
Qed.

(** A node has moved and issued [items]. *)
Definition simulated C R id (items : list item) c' : Prop :=
  ∃ R', rsteps R R' ∧ tracks (mkRC (<[id := c']> (rc_shells C)) (items ++ rc_issued C)) R'.

Section node.
Context {C R} {id : NodeId} {c a} (Hinv : rinv members R) (Htr : tracks C R).
Context (Hc : rc_shells C !! id = Some c) (Ha : r_nodes R !! id = Some a).

Lemma node_member : id ∈ members ∧ valid_node_id id.
Proof. destruct (tr_shells _ _ Htr _ _ Hc) as (? & ? & _). done. Qed.

(** The items may need recordings of the protocol: [Hrec] makes them. *)
Lemma cluster_moves l a' c' items :
  stands members id (sh_node c') a' → nsteps q id l a a' → labels_ok R id a l →
  (∀ R', rinv members R' → r_nodes R' !! id = Some a' → grows R R' →
     (∀ cand t k lt, NVote cand t k lt ∈ l → (id, t, cand) ∈ r_votes R') →
     (∀ m, NAccept m true ∈ l → m_term m = m_lead_term m → (id, m_term m, length (m_log m)) ∈ r_acks R') →
     ∃ R'', rsteps R' R'' ∧ r_nodes R'' = r_nodes R' ∧ grows R' R'' ∧ Forall (backed R'') items) →
  ∃ R'', rsteps R R'' ∧ tracks (mkRC (<[id := c']> (rc_shells C)) (items ++ rc_issued C)) R'' ∧ r_nodes R'' !! id = Some a'.
Proof.
  intros Hst Hs Hl Hrec. destruct node_member as [Hid Hval].
  destruct (lift_steps R id l a a' Hid Ha Hs Hl) as (R1 & Hr1 & Hn1 & Hg1 & Hv1 & Hk1).
  assert (rinv members R1) as Hinv1.
  { clear -Hinv Hr1. induction Hr1 as [|R R1 R' Hstep _ IH]; [done|]. apply IH. by eapply rstep_inv. }
  destruct (Hrec R1 Hinv1) as (R2 & Hr2 & Hn2 & Hg2 & Hi2); [by rewrite Hn1, lookup_insert_eq|done|done|done|].
  exists R2. split; [by etrans|]. split; [|by rewrite Hn2, Hn1, lookup_insert_eq]. split.
  - intros id' c0. cbn. rewrite Hn2, Hn1. destruct (decide (id' = id)) as [->|Hne].
    + rewrite !lookup_insert_eq. intros [= <-]. split_and!; [done..|]. by exists a'.
    + rewrite !lookup_insert_ne by done. apply (tr_shells _ _ Htr).
  - cbn. intros i [Hin|Hin]%elem_of_app; [by eapply (Forall_forall (backed R2) items) in Hi2; [|apply list_elem_of_In]|].
    eapply backed_grows; [exact Hg2|]. eapply backed_grows; [exact Hg1|]. by apply (tr_items _ _ Htr).
Qed.
Lemma simulated_moves l a' c' items :
  stands members id (sh_node c') a' → nsteps q id l a a' → labels_ok R id a l →
  (∀ R', rinv members R' → r_nodes R' !! id = Some a' → grows R R' →
     (∀ cand t k lt, NVote cand t k lt ∈ l → (id, t, cand) ∈ r_votes R') →
     (∀ m, NAccept m true ∈ l → m_term m = m_lead_term m → (id, m_term m, length (m_log m)) ∈ r_acks R') →
     ∃ R'', rsteps R' R'' ∧ r_nodes R'' = r_nodes R' ∧ grows R' R'' ∧ Forall (backed R'') items) →
  simulated C R id items c'.
Proof. intros Hst Hs Hl Hrec. destruct (cluster_moves l a' c' items Hst Hs Hl Hrec) as (R' & ? & ? & _). by exists R'. Qed.
Lemma simulated_plain l a' c' :
  stands members id (sh_node c') a' → nsteps q id l a a' → labels_ok R id a l → simulated C R id [] c'.
Proof.
  intros Hst Hs Hl. eapply simulated_moves; [done..|]. intros R' _ _ _ _ _. exists R'.
  split_and!; [done|done|apply grows_refl|constructor].
Qed.
Lemma simulated_quiet c' : moves members id (Forall quiet) a (sh_node c') → simulated C R id [] c'.
Proof.
  intros (l & a' & Hst & Hs & Hq). eapply simulated_plain; [done..|]. by apply simple_labels_ok, quiet_simple.
Qed.

(** *** The tasks *)

Abbreviation sim := (simulated C R id).
Abbreviation posts m := (wp m (λ items c', sim items c') (λ _ c', sim [] c') c) (only parsing).

Lemma node_stands : stands members id (sh_node c) a.
Proof.
  destruct (tr_shells _ _ Htr _ _ Hc) as (_ & _ & a0 & Ha0 & Hst). rewrite Ha in Ha0. by injection Ha0 as <-.
Qed.
Lemma node_real : real (an_log a).
Proof. apply (good_positive members R); [done|]. apply (no_good _ _ _ _ (ri_node _ _ Hinv _ _ Ha)). Qed.

Lemma sim_idle : sim [] c.
Proof. apply simulated_quiet, qmoves_refl, node_stands. Qed.

Lemma sim_qsh {A} (m : sh A) : qsh members id m → posts (_ ← m; mret []).
Proof.
  intros Hm. wp_step. eapply wp_mono; [apply Hm, node_stands|..]; cbn beta; intros x c' Hq.
  - apply wp_ret. by apply simulated_quiet.
  - by apply simulated_quiet.
Qed.
Lemma sim_qop {A} (m : st node halt A) : qop members id m → posts (_ ← locked (on_node m); mret []).
Proof. intros Hm. by apply sim_qsh, qsh_locked, qsh_on_node. Qed.

(** A block whose labels need nothing but what is recorded already. *)
Lemma simulated_simple (P : list nlabel → Prop) c' :
  moves members id P a (sh_node c') → (∀ l, P l → labels_ok R id a l) → sim [] c'.
Proof. intros (l & a' & Hst & Hs & Hl) HP. eapply simulated_plain; eauto. Qed.

(** Recording the claim and the round of a tick. *)
Lemma record_claim R0 a0 params :
  r_nodes R0 !! id = Some a0 → claims id a0 params → valid_node_id id →
  ∃ R1, rsteps R0 R1 ∧ r_nodes R1 = r_nodes R0 ∧ grows R0 R1 ∧ backed R1 (IClaim params).
Proof.
  intros Ha0 (Ht & Hi & Hk & Hlt & Hu) Hval. eexists. split; [apply rtc_once; by eapply R_claim|].
  split; [done|]. split; [split; cbn; try done; by right|]. cbn. rewrite Hi. split_and!; [done|done|].
  exists (length (an_log a0)). split; [done|]. rewrite Ht, Hlt. by left.
Qed.
Lemma record_round R0 a0 params :
  r_nodes R0 !! id = Some a0 → rounds id a0 params →
  ∃ R1, rsteps R0 R1 ∧ r_nodes R1 = r_nodes R0 ∧ grows R0 R1 ∧ backed R1 (IRound params).
Proof.
  intros Ha0 (Ht & Hi & Hk & Hu1 & Hu2). eexists. split; [apply rtc_once; by eapply R_round|].
  split; [done|]. split; [split; cbn; try done; by right|]. cbn. split_and!; [done|done|].
  exists (an_commit a0). split; [done|]. rewrite Ht, Hi. by left.
Qed.

Lemma sim_tick k : posts (run_task members id (TTick k)).
Proof.
  cbn [run_task]. wp_step. destruct node_member as [_ Hval].
  eapply wp_mono; [apply (tick_block_spec members id Hval); [apply node_stands|apply node_real]|..]; cbn beta.
  2: { intros _ c' Hq. by apply simulated_quiet. }
  intros d c' (l & a' & Hst & Hs & Hq & Hcl & Hro). apply wp_ret.
  eapply simulated_moves; [done..|by apply simple_labels_ok, quiet_simple|]. intros R1 _ Ha1 _ _ _.
  assert (∃ R2, rsteps R1 R2 ∧ r_nodes R2 = r_nodes R1 ∧ grows R1 R2 ∧
    Forall (backed R2) (option_list IClaim (td_campaign d))) as (R2 & Hr2 & Hn2 & Hg2 & Hb2).
  { destruct (td_campaign d) as [params|]; [|exists R1; split_and!; [done|done|apply grows_refl|constructor]].
    destruct (record_claim R1 a' params Ha1 (Hcl _ eq_refl) Hval) as (R2 & ? & ? & ? & ?).
    exists R2. split_and!; [done..|by apply Forall_singleton]. }
  assert (∃ R3, rsteps R2 R3 ∧ r_nodes R3 = r_nodes R2 ∧ grows R2 R3 ∧
    Forall (backed R3) (option_list IRound (td_replication d))) as (R3 & Hr3 & Hn3 & Hg3 & Hb3).
  { destruct (td_replication d) as [params|]; [|exists R2; split_and!; [done|done|apply grows_refl|constructor]].
    destruct (record_round R2 a' params) as (R3 & ? & ? & ? & ?); [by rewrite Hn2|by apply Hro|].
    exists R3. split_and!; [done..|by apply Forall_singleton]. }
  exists R3. split_and!; [by etrans|congruence|by eapply grows_trans|]. apply Forall_app. split; [|done].
  eapply List.Forall_impl; [|exact Hb2]. intros i. by apply backed_grows.
Qed.

Lemma sim_pre_vote_won : posts (run_task members id TPreVoteWon).
Proof.
  cbn [run_task]. wp_step. destruct node_member as [_ Hval].
  eapply wp_mono; [apply (wp_locked_on_node members id _ c a (λ params n', quietly members id (claims id) a params n'));
    [apply node_stands|apply closed_quiet|apply (pre_vote_won_spec members id Hval); [apply node_stands|apply node_real]]|..]; cbn beta.
  2: { intros _ c' Hq. by apply simulated_quiet. }
  intros params c' (l & a' & Hst & Hs & Hq & Hcl). apply wp_ret.
  eapply simulated_moves; [done..|by apply simple_labels_ok, quiet_simple|]. intros R1 _ Ha1 _ _ _.
  destruct (record_claim R1 a' params Ha1 Hcl Hval) as (R2 & ? & ? & ? & ?).
  exists R2. split_and!; [done..|by apply Forall_singleton].
Qed.

Lemma sim_vote p : IClaim p ∈ rc_issued C → posts (run_task members id (TVote p)).
Proof.
  intros Hin. destruct node_member as [Hid Hval].
  destruct (tr_items _ _ Htr _ Hin) as (Hcand & Hu & k & Hk & Hclaim).
  cbn [run_task]. rewrite Hk. wp_step.
  set (P := Forall (ballot (ec_node_id p) (ec_term p) k (ec_last_log_term p))).
  assert (∀ l, P l → labels_ok R id a l) as HP.
  { intros l Hl. apply simple_labels_ok. eapply List.Forall_impl; [|exact Hl].
    intros x [[->| ->]| ->]; done. }
  eapply wp_mono; [apply (wp_locked_on_node members id _ c a
      (λ res n', moves members id (λ l, P l ∧ (vr_vote_granted res = true →
         NVote (ec_node_id p) (ec_term p) k (ec_last_log_term p) ∈ l)) a n' ∧ U64 (vr_term res)) P);
    [apply node_stands|apply closed_Forall; by left|apply request_vote_moves; [apply node_stands|done|done|apply node_real]]|..];
    cbn beta.
  2: { intros _ c' Hm. by eapply simulated_simple. }
  intros res c' [(l & a' & Hst & Hs & Hl & Hg) Hur]. apply wp_ret.
  eapply simulated_moves; [done..|by apply HP|]. intros R1 _ _ _ Hv _. exists R1.
  split_and!; [done|done|apply grows_refl|]. apply Forall_singleton. split_and!; [done|done|]. cbn. intros Hgr.
  eapply Hv. by apply Hg.
Qed.

Lemma sim_vote_reply r :
  IVote r ∈ rc_issued C → vp_candidate r = id → posts (run_task members id (TVoteReply r)).
Proof.
  intros Hin Hcand. destruct node_member as [Hid Hval].
  destruct (tr_items _ _ Htr _ Hin) as (Hvoter & Hu & Hgranted).
  cbn [run_task]. unfold shell_vote_response. wp_step.
  set (P := tallied (vp_req_term r) (vp_voter r) (Ok (vp_response r)) a).
  assert (∀ l, P l → labels_ok R id a l) as HP.
  { intros l [Hq|(l' & -> & Hl' & Hterm & resp & [= <-] & Hgr)]; [by apply simple_labels_ok, quiet_simple|].
    split; [split; [done|]; rewrite Hterm, <-Hcand; by apply Hgranted|].
    eapply List.Forall_impl; [|exact Hl']. by intros x [[->| ->]| ->]. }
  eapply wp_mono; [apply (wp_locked_on_node members id _ c a (λ _ n', moves members id P a n') P);
    [apply node_stands| |apply vote_response_moves; [done|done|apply node_stands|by intros resp [= <-]]]|..]; cbn beta.
  - split; [left; constructor|]. intros l l' [Hq|(l1 & -> & Hl1 & Hrest)] Hq'; [left; by apply Forall_app|].
    right. exists (l1 ++ l'). split; [done|]. split; [|done]. apply Forall_app. split; [done|].
    eapply List.Forall_impl; [|exact Hq']. by left.
  - intros _ c' Hm. apply wp_ret. by eapply simulated_simple.
  - intros _ c' Hm. by eapply simulated_simple.
Qed.

Lemma sim_tally k : k = 1 ∨ ITally id k ∈ rc_issued C → posts (run_task members id (TTally k)).
Proof.
  intros Hk. cbn [run_task]. wp_step. apply wp_gets. apply wp_ret.
  eapply (simulated_moves []); [apply node_stands|constructor|done|]. intros R1 _ _ _ _ _. exists R1.
  split_and!; [done|done|apply grows_refl|]. apply Forall_singleton. cbn.
  assert (k < q ∨ q = 1) as Hk'.
  { destruct Hk as [->|Hin]; [pose proof (quorum_pos members); lia|apply (tr_items _ _ Htr _ Hin)]. }
  pose proof (sn_inner _ _ _ _ node_stands) as Hi. unfold read_tally.
  destruct (ln_state (sh_node c)); try done. apply Hi.
Qed.

Lemma sim_promote k : k = 1 ∨ ITally id k ∈ rc_issued C → posts (run_task members id (TPromote k)).
Proof.
  intros Hk. destruct node_member as [Hid Hval]. cbn [run_task].
  assert (k < q ∨ q = 1) as Hk'.
  { destruct Hk as [->|Hin]; [pose proof (quorum_pos members); lia|apply (tr_items _ _ Htr _ Hin)]. }
  destruct (quorum_of _ <=? k) eqn:Hq; [|apply wp_ret; apply sim_idle].
  pose proof (promote_moves members id Hid Hval k (sh_node c) a node_stands Hk') as Hpr.
  unfold promote_after_loop in Hpr. rewrite Hq in Hpr.
  assert (∀ l, Forall promoting l → labels_ok R id a l) as HP.
  { intros l Hl. apply simple_labels_ok. eapply List.Forall_impl; [|exact Hl]. by intros x [[->| ->]| ->]. }
  wp_step. eapply wp_mono; [apply (wp_locked_on_node members id _ c a
    (λ _ n', moves members id (Forall promoting) a n') (Forall promoting));
    [apply node_stands|apply closed_Forall; by left|exact Hpr]|..]; cbn beta.
  - intros _ c' Hm. apply wp_ret. by eapply simulated_simple.
  - intros _ c' Hm. by eapply simulated_simple.
Qed.

Lemma appending_labels data l : Forall (appending data) l → labels_ok R id a l.
Proof.
  intros Hl. apply simple_labels_ok. eapply List.Forall_impl; [|exact Hl].
  intros x [[->| ->]|(e & -> & _)]; done.
Qed.
Lemma sim_propose data : Forall is_byte data → posts (run_task members id (TPropose data)).
Proof.
  intros Hd. destruct node_member as [Hid Hval]. cbn [run_task]. unfold handle_propose.
  assert (∀ l, Forall (appending data) l → labels_ok R id a l) as HP by apply appending_labels.
  wp_steps. eapply wp_mono; [apply (wp_locked_on_node members id _ c a
    (λ _ n', moves members id (Forall (appending data)) a n') (Forall (appending data)));
    [apply node_stands|apply closed_Forall; by left|apply (propose_moves members id Hid Hval); [apply node_stands|done]]|..]; cbn beta.
  - intros r c' Hm. apply wp_ret. wp_steps. by eapply simulated_simple.
  - intros _ c' Hm. by eapply simulated_simple.
Qed.
(** Where an accepted proposal is. *)
Lemma propose_lands data i c' :
  Forall is_byte data → handle_propose data c = (Ok (Ok i), c') →
  ∃ R' a', rsteps R R' ∧ tracks (mkRC (<[id := c']> (rc_shells C)) (rc_issued C)) R' ∧
    r_nodes R' !! id = Some a' ∧ proposed_at data i a'.
Proof.
  intros Hd Hrun. destruct node_member as [Hid Hval]. unfold handle_propose, mbind, st_bind in Hrun.
  destruct (locked (on_node (eng_propose data)) c) as [[r|h] c1] eqn:Hl; [|done].
  cbn in Hrun. injection Hrun as Hr <-. destruct r as [j|e]; [|done]. injection Hr as ->.
  pose proof (wp_locked_on_node members id (eng_propose data) c a _ _ node_stands
    (closed_Forall (appending data) ltac:(by left)) (propose_spec members id Hid Hval data _ a node_stands Hd)) as Hwp.
  destruct (wp_run _ _ _ _ _ _ Hwp Hl) as (l & a' & Hn & Hs & Hlab & Hat).
  destruct (cluster_moves l a' c1 [] Hn Hs (appending_labels _ _ Hlab)) as (R' & ? & ? & ?).
  { intros R' _ _ _ _ _. exists R'. split_and!; [done|done|apply grows_refl|constructor]. }
  exists R', a'. split_and!; [done..|by apply Hat].
Qed.

Lemma sim_probe : posts (run_task members id TProbe).
Proof.
  cbn [run_task]. wp_step. eapply wp_mono; [apply verify_prepare_spec, node_stands|..]; cbn beta.
  2: { intros _ c' Hq. by apply simulated_quiet. }
  intros r c' [Hst Hr]. apply wp_ret.
  assert (sim [] c') as Hnone by (by apply simulated_quiet, qmoves_refl).
  destruct r as [[[target []] params]|]; [done| |done].
  eapply (simulated_moves []); [exact Hst|constructor|done|]. intros R1 _ Ha1 _ _ _.
  destruct (record_round R1 a params Ha1) as (R2 & ? & ? & ? & ?); [by eapply Hr|].
  exists R2. split_and!; [done..|by apply Forall_singleton].
Qed.

(** The log of a healthy node, as a request carries it. *)
Lemma stands_log (n : node) a0 :
  stands members id n a0 → ln_state n ≠ RS_Poisoned →
  Forall wire_ok (an_log a0) ∧ ∀ k e, an_log a0 !! k = Some e → le_index e = N.of_nat k + 1.
Proof.
  intros Hn Hnp. destruct (stands_view _ _ _ _ Hn Hnp) as (v & Hh & (_ & _ & Hlog) & _).
  pose proof (repr_ok _ _ (proj1 Hh)) as Hok. split; [by apply (log_is_wire Hlog)|].
  intros k e He. by apply (log_is_indices Hlog) in He as [-> _].
Qed.

Lemma strategy_block_spec peer params :
  wp (strategy_block peer params)
    (λ r c', stands members id (sh_node c') a ∧
       (r = None ∨ ∃ matched pi, an_role a = RLeading matched ∧ ln_state (sh_node c') ≠ RS_Poisoned ∧
          r = Some (RS_AppendEntries (request_from (an_log a) params pi)) ∧ U64 (N.of_nat pi)))
    (λ _ c', moves members id (Forall quiet) a (sh_node c')) c.
Proof.
  unfold strategy_block.
  apply (wp_locked_node members id _ c a (λ r n', stands members id n' a ∧
    (r = None ∨ ∃ matched pi, an_role a = RLeading matched ∧ ln_state n' ≠ RS_Poisoned ∧
       r = Some (RS_AppendEntries (request_from (an_log a) params pi)) ∧ U64 (N.of_nat pi))));
    [apply node_stands|apply closed_quiet|].
  wp_step. apply wp_on_node. eapply wp_mono; [apply strategy_spec, node_stands| |done]; cbn beta.
  intros r n' [-> Hr].
  destruct Hr as [->|(matched & pi & Hrole & -> & Hu)]; apply wp_ret; (split; [apply node_stands|]); [by left|right].
  exists matched, pi. split_and!; [done| |done|done]. cbn. intros Hst.
  pose proof (sn_role _ _ _ _ node_stands) as Hrr. rewrite Hst, Hrole in Hrr. done.
Qed.

Lemma sim_strategy peer params :
  IRound params ∈ rc_issued C → rp_node_id params = id → peer ∈ peers_of members id →
  posts (run_task members id (TStrategy peer params)).
Proof.
  intros Hin Hfrom Hpeer. destruct (tr_items _ _ Htr _ Hin) as (Hut & Huc & k & Hk & Hround).
  cbn [run_task]. wp_step. eapply wp_mono; [apply strategy_block_spec|..]; cbn beta.
  2: { intros _ c' Hq. by apply simulated_quiet. }
  intros r c' [Hst Hr]. apply wp_ret.
  destruct Hr as [->|(matched & pi & Hrole & Hnp & -> & Hu)]; [by apply simulated_quiet, qmoves_refl|].
  eapply (simulated_moves []); [exact Hst|constructor|done|]. intros R1 _ Ha1 Hg1 _ _.
  set (m := mkMsg id (rp_term params) (an_term a) (an_log a) k).
  exists (mkR (r_nodes R1) (r_votes R1) (r_acks R1) (r_lead R1) (r_claims R1) (r_rounds R1) (m :: r_msgs R1)).
  split_and!.
  - apply rtc_once. eapply R_send; [done..|]. apply (gr_rounds _ _ Hg1). by rewrite <-Hfrom.
  - done.
  - split; cbn; try done. by right.
  - apply Forall_singleton. exists m, pi. split_and!; cbn [sn_to sn_from].
    + rewrite <-list_to_set_peers. by apply elem_of_list_to_set.
    + by left.
    + destruct (stands_log _ _ Hst Hnp). split; try done; cbn; [|by rewrite <-Hk].
      unfold request_from. by rewrite Hfrom, Hk.
Qed.

Lemma sim_append s : ISent s ∈ rc_issued C → sn_to s = id → posts (run_task members id (TAppend s)).
Proof.
  intros Hin Hto. destruct (tr_items _ _ Htr _ Hin) as (m & pi & Hpeer & Hmsg & Hcar).
  pose proof Hcar as [Hfrom Hreq Hut Huc Hw Hidx]. cbn [run_task]. rewrite Hreq. cbn [aeq_term aeq_prev_log_index
    aeq_prev_log_term aeq_entries aeq_leader_commit AppendEntriesRequest_new].
  assert (good R (m_log m)) as Hgm by (by eapply msg_good).
  pose proof (no_good _ _ _ _ (ri_node _ _ Hinv _ _ Ha)) as Hga.
  assert (request_of m a) as Hrq.
  { split; try done; [by eapply good_positive|apply node_real|].
    intros k x y Hx Hy Ht. eapply good_agree; [exact Hga|exact Hgm|done..]. }
  assert (∀ l, Forall (mine m) l → labels_ok R id a l) as HP.
  { intros l Hl. apply simple_labels_ok. eapply List.Forall_impl; [|exact Hl]. intros x [[->| ->]|[b ->]]; done. }
  wp_step. eapply wp_mono; [apply (wp_locked_on_node members id _ c a
    (λ res n', moves members id (λ l, Forall (mine m) l ∧
       (ar_success res = true → NAccept m true ∈ l ∧ (pi ≤ length (m_log m))%nat)) a n' ∧ U64 (ar_term res)) (Forall (mine m)));
    [apply node_stands|apply closed_Forall; by left|apply handle_append_entries_spec; [apply node_stands|done]]|..]; cbn beta.
  2: { intros _ c' Hm. by eapply simulated_simple. }
  intros res c' [(l & a' & Hst & Hs & Hl & Hok) Hur]. apply wp_ret.
  eapply simulated_moves; [done..|by apply HP|]. intros R1 _ _ Hg1 _ Hk. exists R1.
  split_and!; [done|done|apply grows_refl|]. apply Forall_singleton. split; [done|]. exists m, pi.
  split; [split_and!; [done|by apply (gr_msgs _ _ Hg1)|done]|].
  cbn. intros Hsucc. destruct (Hok Hsucc) as [Hacc Hpi]. split; [done|]. intros Heq. rewrite Hto. by apply Hk.
Qed.

Lemma sim_reply s resp :
  IReply s resp ∈ rc_issued C → sn_from s = id → posts (run_task members id (TReply s resp)).
Proof.
  intros Hin Hfrom. destruct node_member as [Hid Hval].
  destruct (tr_items _ _ Htr _ Hin) as (Hu & m & pi & (Hpeer & Hmsg & [Hmf Hreq Hut _ _ _]) & Hok).
  rewrite Hfrom in Hpeer. cbn [run_task].
  set (res := Ok (Some (outcome_of s resp))). set (P := replied (aeq_term (sn_request s)) (sn_to s) res a).
  assert (∀ l, P l → labels_ok R id a l) as HP.
  { intros l [Hq|(prev & len & resp' & l' & [= <- <- <-] & Hsucc & Hterm & _ & -> & Hl')];
      [by apply simple_labels_ok, quiet_simple|].
    destruct (Hok Hsucc) as [Hpi Hack]. split; [|eapply List.Forall_impl; [|exact Hl']; by intros x [[->| ->]|[k ->]]].
    rewrite Hreq in Hterm |- *. cbn in Hterm |- *. rewrite Hterm.
    replace (N.to_nat (N.of_nat pi + N.of_nat (length (drop pi (m_log m))))) with (length (m_log m))
      by (rewrite length_drop; lia).
    apply Hack. destruct (ri_msg _ _ Hinv _ Hmsg) as (L & _ & _ & _ & Hle & _).
    assert (m_lead_term m ≤ an_term a) by (eapply (sender_term members); [done..|by rewrite Hmf, Hfrom]). lia. }
  assert (closed P) as Hcl.
  { split; [left; constructor|]. intros l l' [Hq|(prev & len & resp' & l1 & ? & ? & ? & ? & -> & Hl1)] Hq';
      [left; by apply Forall_app|].
    right. exists prev, len, resp', (l1 ++ l'). split_and!; try done. apply Forall_app. split; [done|].
    eapply List.Forall_impl; [|exact Hq']. by left. }
  assert (reply_ok res) as Hrok.
  { intros o [= <-]. eexists _, _, _. split; [done|]. done. }
  wp_step. unfold spawned. wp_step. wp_step.
  eapply wp_mono with (Q := λ _ c', moves members id P a (sh_node c')) (R := λ _ c', moves members id P a (sh_node c')).
  - assert (shell_replication_response (aeq_term (sn_request s)) (sn_to s) res = λ c0 : shell,
      let '(r, c') := locked (on_node (process_replication_response (aeq_term (sn_request s)) (sn_to s) res)) c0 in
      (r, c')) as -> by done.
    pose proof (wp_locked_on_node members id
      (process_replication_response (aeq_term (sn_request s)) (sn_to s) res) c a
      (λ _ n', moves members id P a n') P node_stands Hcl) as Hwp.
    specialize (Hwp (process_reply_moves members id Hid Hval _ _ res _ a node_stands Hpeer Hrok)).
    unfold wp in Hwp |- *. destruct (locked _ c) as [[r|h] c']; done.
  - intros r c' Hm. wp_step. destruct r as [act|e]; cbn.
    + by eapply simulated_simple.
    + destruct Hm as (l & a' & Hst & Hs & Hl).
      eapply wp_mono; [by apply qsh_fatal|..]; cbn beta; intros _ c'' Hq;
        (eapply simulated_simple; [by eapply closed_after|done]).
  - intros _ c' Hm. by eapply simulated_simple.
Qed.

(** The applier. *)
Lemma qsh_on_fsm {A} (m : st F sm_error A) : qsh (S:=S) (G:=G) members id (on_fsm m).
Proof.
  intros c0 a0 Hst. unfold on_fsm. apply wp_zoom, wp_try. unfold wp.
  destruct (m (sh_fsm c0)) as [[x|e] f]; by apply qmoves_refl.
Qed.
Lemma qsh_feed next : qsh (S:=S) (G:=G) (F:=F) members id (feed_one next).
Proof.
  intros c0 a0 Hst. unfold feed_one. wp_step. apply wp_gets.
  destruct (read_entries _ _ _) as [[|e es]|e]; [by apply qsh_fatal| |by apply qsh_fatal].
  apply qsh_bind; [apply qsh_on_fsm|intros [u|err]|done]; [apply qsh_ret|apply qsh_fatal].
Qed.

Lemma sim_horizon next : can_apply next c → posts (run_task members id (THorizon next)).
Proof.
  intros (cm & Hcm & Hle). cbn [run_task]. unfold horizon_one. wp_step.
  assert (next ≤ N.of_nat (an_commit a)) as Hn.
  { destruct (stands_view _ _ _ _ node_stands) as (v & _ & (_ & Hci & _) & Hcom);
      [intros Hst; by rewrite Hst in Hcm|]. rewrite Hcm in Hcom. injection Hcom as ->. by rewrite <-Hci. }
  eapply wp_mono; [apply (wp_locked_node members id _ c a (λ _ n', moves members id (Forall quiet) a n'));
    [apply node_stands|apply closed_quiet|]|..]; cbn beta.
  - wp_step. apply wp_on_node. eapply wp_mono; [apply horizon_spec; [apply node_stands|done]|..]; cbn beta;
      intros r n' Hst; [|by apply qmoves_refl].
    destruct r as [u|e]; apply wp_on_node.
    + by apply (q_delegate_field members id).
    + by apply (q_apply_fatal members id).
  - intros _ c' Hm. apply wp_ret. by apply simulated_quiet.
  - intros _ c' Hm. by apply simulated_quiet.
Qed.

Lemma sim_task t : task_ok members C id c t → posts (run_task members id t).
Proof.
  destruct t; cbn [task_ok]; intros Hok.
  - apply sim_tick.
  - apply sim_qop, q_step_down.
  - apply sim_qop, q_pre_vote.
  - by apply sim_qop, q_pre_vote_term.
  - apply sim_pre_vote_won.
  - by apply sim_vote.
  - destruct Hok. by apply sim_vote_reply.
  - by apply sim_tally.
  - by apply sim_promote.
  - by apply sim_propose.
  - apply sim_probe.
  - destruct Hok as (? & ? & ?). by apply sim_strategy.
  - destruct Hok. by apply sim_append.
  - destruct Hok. by apply sim_reply.
  - apply sim_qsh, qsh_feed.
  - by apply sim_horizon.
  - apply sim_qsh, qsh_fatal.
Qed.

(** *** Restarts *)

Lemma try_new_spec identity applied thresholds rng (s : S) v (n' : node) :
  repr s v → LogicalNode_try_new identity applied thresholds rng s = Ok n' →
  ln_store n' = s ∧ ∃ m, ln_state n' = RS_Follower m ∧ rn_identity m = identity ∧
    rn_last_committed m = lv_committed v.
Proof.
  intros Hv. unfold LogicalNode_try_new. destruct (generate_election_timeout _ _) as [timeout g].
  destruct applied as [x|]; cbn; [|done].
  destruct (node_read last_committed s) as [k|] eqn:Hk; cbn; [|done]. destruct (k <? x); [done|].
  unfold try_new_with_applied, mbind, st_bind, node_reads, st_reads. rewrite Hk.
  intros [= <-]. split; [done|]. eexists. split_and!; [done..|]. cbn.
  eapply node_read_Ok; [|done]. by apply last_committed_law.
Qed.

Lemma sim_restart s f identity thresholds rng o f' :
  reopened (ln_store (sh_node c)) s → node_id identity = id →
  boot_shell identity thresholds rng s f = (o, f') → sim [] (default (down s f' c) o).
Proof.
  intros Hre Hident. pose proof node_stands as Hn.
  destruct (stands_leaves _ _ _ _ Hn) as (v0 & vd & Hh & Hs).
  destruct (reopened_law _ _ vd Hre (proj2 Hh)) as [Hr Hd].
  assert (sim [] (down s f' c)) as Hdown.
  { apply simulated_quiet. apply (qmoves_step _ _ NTau _ _ (as_down a)); [|by apply q_idle_step; [|right]|by left].
    apply stands_down; [|done]. exists vd, vd. split; [by split|]. by eapply shows_role. }
  unfold boot_shell. destruct (recover s f) as [[u|e] f1]; [|by intros [= <- <-]].
  destruct (LogicalNode_try_new _ _ _ _ s) as [n'|e] eqn:Hnew; [|by intros [= <- <-]].
  unfold shell_new. destruct (consensus_progress n') as [[p|h] n1] eqn:Hp; cbn; intros [= <- <-]; [|done]. cbn.
  apply consensus_progress_same in Hp as [-> _].
  destruct (try_new_spec _ _ _ _ _ vd _ Hr Hnew) as (Hstore & m & Hst & Hid & Hcm).
  apply simulated_quiet. cbn.
  apply (qmoves_step _ _ NTau _ _ (with_hs (an_hs a) RIdle a)); [|by apply q_idle_step; [|left]|by left].
  split; rewrite ?Hst; try done.
  - unfold owned, rn_node_id. cbn. by rewrite Hid.
  - unfold is_poisoned. rewrite Hst, Hstore. exists vd. split; [by split|]. split; [by eapply shows_role|].
    cbn. by rewrite Hcm.
Qed.
End node.

(** *** Every step and every reachable cluster *)

Lemma rcstep_tracks C C' R :
  rinv members R → tracks C R → rcstep members reopens C C' → ∃ R', rsteps R R' ∧ tracks C' R'.
Proof.
  intros Hinv Htr Hstep. destruct Hstep as [id c t r c' Hc Hok Hrun|id c s f identity th rng o f' Hc Hre Hf Hid Hboot];
    destruct (tr_shells _ _ Htr _ _ Hc) as (_ & _ & a & Ha & _).
  - pose proof (wp_run _ _ _ _ _ _ (sim_task Hinv Htr Hc Ha t Hok) Hrun) as Hsim. by destruct r.
  - by apply (sim_restart Hinv Htr Hc Ha s f identity th rng o f').
Qed.

Lemma rsteps_inv R R' : rinv members R → rsteps R R' → rinv members R'.
Proof. intros Hinv Hs. revert Hinv. induction Hs as [|R R1 R' Hstep _ IH]; [done|]. intros. by eapply IH, rstep_inv. Qed.

Lemma rcsteps_tracks C C' R :
  rinv members R → tracks C R → rtc (rcstep members reopens) C C' → ∃ R', rsteps R R' ∧ tracks C' R'.
Proof.
  intros Hinv Htr Hs. revert R Hinv Htr. induction Hs as [C|C C1 C' Hstep _ IH]; intros R Hinv Htr; [by exists R|].
  destruct (rcstep_tracks _ _ _ Hinv Htr Hstep) as (R1 & Hr1 & Htr1).
  destruct (IH R1 (rsteps_inv _ _ Hinv Hr1) Htr1) as (R' & ? & ?). exists R'. split; [by etrans|done].
Qed.

Lemma initial_tracks C : rc_initial members C → ∃ R, r_initial members R ∧ tracks C R.
Proof.
  intros [Hmem Hfol Hstore Hiss].
  assert (∃ M : gmap N ANode, ∀ id, match rc_shells C !! id with
    | Some c => ∃ a, M !! id = Some a ∧ stands members id (sh_node c) a ∧
        an_role a = RIdle ∧ an_log a = [] ∧ an_commit a = O
    | None => M !! id = None end) as [M HM].
  { clear Hiss. induction (rc_shells C) as [|id c m Hid IH] using map_ind.
    - exists ∅. intros id. by rewrite !lookup_empty.
    - assert (∀ id' c', m !! id' = Some c' → <[id:=c]> m !! id' = Some c') as Hsub.
      { intros id' c' Hc'. rewrite lookup_insert_ne; [done|congruence]. }
      destruct IH as [M HM]; [eauto..|].
      destruct (Hstore id c) as (v & Hh & Hl & Hcm & Hsi & Hsnt); [apply lookup_insert_eq|].
      destruct (Hfol id c) as (f & Hst & Hf & Hfc); [apply lookup_insert_eq|].
      exists (<[id := mkA (hs v) [] 0 RIdle]> M). intros id'.
      destruct (decide (id' = id)) as [->|Hne].
      + rewrite !lookup_insert_eq. eexists. split; [done|]. split; [|done].
        split; rewrite ?Hst; try done. unfold is_poisoned. rewrite Hst. exists v. split; [done|].
        split; [|cbn; by rewrite Hfc, Hcm]. split_and!; [done|done|]. split_and!; [done|done|].
        intros i. rewrite Hl, lookup_empty. by destruct (i =? 0).
      + rewrite !lookup_insert_ne by done. apply HM. }
  exists (mkR M ∅ ∅ ∅ [] [] []). split.
  - split; try done; cbn; intros id a Ha; specialize (HM id); destruct (rc_shells C !! id) as [c|] eqn:Hc.
    + by apply (Hmem id c).
    + congruence.
    + destruct HM as (a' & Ha' & _ & ?). congruence.
    + congruence.
  - split.
    + intros id c Hc. destruct (Hmem id c Hc). split_and!; [done..|]. specialize (HM id). rewrite Hc in HM.
      destruct HM as (a & ? & ? & _). by exists a.
    + rewrite Hiss. by intros i ?%elem_of_nil.
Qed.

Lemma reachable_tracks C : rc_reachable members reopens C → ∃ R, rinv members R ∧ tracks C R.
Proof.
  intros (C0 & Hinit & Hs). destruct (initial_tracks C0 Hinit) as (R0 & HR0%r_initial_inv & Htr).
  destruct (rcsteps_tracks _ _ _ HR0 Htr Hs) as (R & Hr & Htr'). exists R. split; [by eapply rsteps_inv|done].
Qed.
End refinement.
