(* ===== verification/RaftProps.v ===== *)
(** Safety of the replicated log for the code, over every run of the cluster
    without compaction: Log Matching, Leader Completeness and the agreement of
    all committed entries, across nodes and across time. *)
From S2P Require Import Prelude Machine Types Wire Storage Timing Node Engine Consensus VoteSpec LogSpec Election EngineSpec Cluster NodeProps Sled SledStore Fsm Shell ShellProps Service Rounds Raft RaftLog RaftSpec RaftLead RaftTasks RaftCluster.

Section props.
Context {S G F : Type} `{LogStorageLaws S} `{RngExt G} `{StateMachine F}.
Context (members : gset N) (reopens : F → F → Prop).
Abbreviation shell := (ConsensusShell S G F) (only parsing).
Implicit Types (C : rcluster S G F) (c : shell).

(** What the store of a healthy node answers. *)
Lemma read_entry_list n a id i o :
  stands (S:=S) (G:=G) members id n a → is_poisoned n = false → U64 i → i ≠ 0 → read_entry i (ln_store n) = Ok o →
  o = an_log a !! N.to_nat (i - 1).
Proof.
  intros Hn Hp Hi Hne Hr. destruct (stands_view _ _ _ _ Hn) as (v & Hh & (_ & _ & Hlog) & _).
  { intros Hst. unfold is_poisoned in Hp. by rewrite Hst in Hp. }
  pose proof (read_entry_law _ _ _ (proj1 Hh) Hi) as Hlaw. rewrite Hr in Hlaw. cbn in Hlaw. subst o.
  replace i with (N.of_nat (N.to_nat (i - 1)) + 1) at 1 by lia. apply (log_is_lookup Hlog).
Qed.
Lemma read_entry_zero n a id o :
  stands (S:=S) (G:=G) members id n a → is_poisoned n = false → read_entry 0 (ln_store n) = Ok o → o = None.
Proof.
  intros Hn Hp Hr. destruct (stands_view _ _ _ _ Hn) as (v & Hh & (_ & _ & Hlog) & _).
  { intros Hst. unfold is_poisoned in Hp. by rewrite Hst in Hp. }
  pose proof (read_entry_law 0 _ _ (proj1 Hh) ltac:(done)) as Hlaw. rewrite Hr in Hlaw. cbn in Hlaw. subst o.
  destruct Hlog as (_ & _ & Hi). by rewrite Hi.
Qed.
Lemma committed_view n a id k :
  stands (S:=S) (G:=G) members id n a → role_committed (ln_state n) = Some k →
  is_poisoned n = false ∧ k = N.of_nat (an_commit a).
Proof.
  intros Hn Hk. unfold is_poisoned. destruct (stands_view _ _ _ _ Hn) as (v & _ & (_ & Hc & _) & Hcom).
  { intros Hst. by rewrite Hst in Hk. }
  split; [by destruct (ln_state n)|]. rewrite Hk in Hcom. injection Hcom as ->. done.
Qed.
Lemma term_view n a id t :
  stands (S:=S) (G:=G) members id n a → is_poisoned n = false → current_term (ln_store n) = Ok t → t = an_term a.
Proof.
  intros Hn Hp Ht. destruct (stands_view _ _ _ _ Hn) as (v & Hh & Hs & _).
  { intros Hst. unfold is_poisoned in Hp. by rewrite Hst in Hp. }
  rewrite <-(shows_term _ _ Hs). pose proof (current_term_law _ _ (proj1 Hh)) as Hlaw. by rewrite Ht in Hlaw.
Qed.

(** C7: Log Matching, without snapshots.  In every cluster that the members can
    reach in a run in which no node compacts its log, and so none probes for,
    sends or installs a snapshot, through any interleaving of their other
    tasks, lost, delayed or repeated messages, disk failures, halts, crashes
    and restarts, two logs with entries of the same index and term hold the
    same entries up to that index. *)
Theorem log_matching C p p' c c' i e e' j o o' :
  rc_reachable members reopens C → rc_shells C !! p = Some c → rc_shells C !! p' = Some c' →
  is_poisoned (sh_node c) = false → is_poisoned (sh_node c') = false → U64 i →
  read_entry i (ln_store (sh_node c)) = Ok (Some e) → read_entry i (ln_store (sh_node c')) = Ok (Some e') →
  le_term e = le_term e' → j ≤ i →
  read_entry j (ln_store (sh_node c)) = Ok o → read_entry j (ln_store (sh_node c')) = Ok o' → o = o'.
Proof.
  intros Hreach Hc Hc' Hp Hp' Hi He He' Ht Hj Ho Ho'.
  destruct (reachable_tracks _ _ _ Hreach) as (R & Hinv & Htr).
  destruct (tr_shells _ _ _ Htr _ _ Hc) as (_ & _ & a & Ha & Hn).
  destruct (tr_shells _ _ _ Htr _ _ Hc') as (_ & _ & a' & Ha' & Hn').
  destruct (decide (j = 0)) as [->|Hj0].
  { apply (read_entry_zero _ _ _ _ Hn Hp) in Ho as ->. by apply (read_entry_zero _ _ _ _ Hn' Hp') in Ho' as ->. }
  assert (i ≠ 0) as Hi0 by lia. assert (U64 j) as Hju by (unfold U64 in *; lia).
  apply (read_entry_list _ _ _ _ _ Hn Hp Hi Hi0) in He. apply (read_entry_list _ _ _ _ _ Hn' Hp' Hi Hi0) in He'.
  apply (read_entry_list _ _ _ _ _ Hn Hp Hju Hj0) in Ho as ->. apply (read_entry_list _ _ _ _ _ Hn' Hp' Hju Hj0) in Ho' as ->.
  pose proof (good_agree _ _ _ _ _ (no_good _ _ _ _ (ri_node _ _ Hinv _ _ Ha)) (no_good _ _ _ _ (ri_node _ _ Hinv _ _ Ha'))
    (eq_sym He) (eq_sym He') Ht) as Heq.
  assert (∀ l : list LogEntry, l !! N.to_nat (j - 1) = take (Datatypes.S (N.to_nat (i - 1))) l !! N.to_nat (j - 1)) as Hl
    by (intros l; rewrite lookup_take_lt by lia; done).
  rewrite (Hl (an_log a)), (Hl (an_log a')). by rewrite Heq.
Qed.

(** Two states of one run, on the protocol. *)
Lemma run_tracks C C' :
  rc_reachable members reopens C → rtc (rcstep members reopens) C C' →
  ∃ R R', rinv members R ∧ rtc (rstep members) R R' ∧ tracks members C R ∧ tracks members C' R'.
Proof.
  intros Hreach Hs. destruct (reachable_tracks _ _ _ Hreach) as (R & Hinv & Htr).
  destruct (rcsteps_tracks _ _ _ _ _ Hinv Htr Hs) as (R' & Hr & Htr'). by exists R, R'.
Qed.

(** C2: State Machine Safety, without snapshots.  In every run in which no node
    compacts its log, and so none probes for, sends or installs a snapshot,
    what two nodes have committed at an index, the one at any time, the other
    at that time or later, is the same entry: such a run never loses or
    replaces a committed entry, on any node, whatever messages are lost,
    delayed or repeated and whatever disks and processes fail.  With the
    snapshot probe this is false of the code ([probe_commits_stale_entry] in
    Limits.v). *)
Theorem committed_entries_agree C C' p p' c c' k k' i o o' :
  rc_reachable members reopens C → rtc (rcstep members reopens) C C' →
  rc_shells C !! p = Some c → rc_shells C' !! p' = Some c' →
  role_committed (ln_state (sh_node c)) = Some k → role_committed (ln_state (sh_node c')) = Some k' →
  1 ≤ i → i ≤ k → i ≤ k' →
  read_entry i (ln_store (sh_node c)) = Ok o → read_entry i (ln_store (sh_node c')) = Ok o' → o = o' ∧ is_Some o.
Proof.
  intros Hreach Hs Hc Hc' Hk Hk' Hi Hik Hik' Ho Ho'.
  destruct (run_tracks _ _ Hreach Hs) as (R & R' & Hinv & Hr & Htr & Htr').
  destruct (tr_shells _ _ _ Htr _ _ Hc) as (_ & _ & a & Ha & Hn).
  destruct (tr_shells _ _ _ Htr' _ _ Hc') as (_ & _ & a' & Ha' & Hn').
  destruct (committed_view _ _ _ _ Hn Hk) as [Hp ->]. destruct (committed_view _ _ _ _ Hn' Hk') as [Hp' ->].
  assert (U64 i) as Hu.
  { destruct (stands_U64 _ _ _ _ Hn) as [_ Hu]; [|unfold U64 in *; lia].
    intros Hst. by rewrite Hst in Hk. }
  apply (read_entry_list _ _ _ _ _ Hn Hp Hu) in Ho as ->; [|lia].
  apply (read_entry_list _ _ _ _ _ Hn' Hp' Hu) in Ho' as ->; [|lia].
  eapply (committed_agree members); [done|done|done|done|lia|lia].
Qed.

(** C6: Leader Completeness, without snapshots.  In every run in which no node
    compacts its log, and so none probes for, sends or installs a snapshot, an
    entry that a node has committed is in the log of every leader of its term
    or a later one, from then on. *)
Theorem leader_completeness C C' p p' c c' k m t t' i o o' :
  rc_reachable members reopens C → rtc (rcstep members reopens) C C' →
  rc_shells C !! p = Some c → rc_shells C' !! p' = Some c' →
  role_committed (ln_state (sh_node c)) = Some k → ln_state (sh_node c') = RS_Leader m →
  current_term (ln_store (sh_node c)) = Ok t → current_term (ln_store (sh_node c')) = Ok t' → t ≤ t' →
  1 ≤ i → i ≤ k →
  read_entry i (ln_store (sh_node c)) = Ok o → read_entry i (ln_store (sh_node c')) = Ok o' → o = o' ∧ is_Some o'.
Proof.
  intros Hreach Hs Hc Hc' Hk Hst Ht Ht' Hle Hi Hik Ho Ho'.
  destruct (run_tracks _ _ Hreach Hs) as (R & R' & Hinv & Hr & Htr & Htr').
  destruct (tr_shells _ _ _ Htr _ _ Hc) as (_ & _ & a & Ha & Hn).
  destruct (tr_shells _ _ _ Htr' _ _ Hc') as (_ & _ & a' & Ha' & Hn').
  destruct (committed_view _ _ _ _ Hn Hk) as [Hp ->].
  assert (is_poisoned (sh_node c') = false) as Hp' by (unfold is_poisoned; by rewrite Hst).
  assert (U64 i) as Hu.
  { destruct (stands_U64 _ _ _ _ Hn) as [_ Hu]; [|unfold U64 in *; lia]. intros Hst0. by rewrite Hst0 in Hk. }
  apply (read_entry_list _ _ _ _ _ Hn Hp Hu) in Ho as ->; [|lia].
  apply (read_entry_list _ _ _ _ _ Hn' Hp' Hu) in Ho' as ->; [|lia].
  apply (term_view _ _ _ _ Hn Hp) in Ht as ->. apply (term_view _ _ _ _ Hn' Hp') in Ht' as ->.
  pose proof (sn_role _ _ _ _ Hn') as Hrole. rewrite Hst in Hrole.
  pose proof (committed_in_leader members _ _ _ _ _ _ _ Hinv Hr Ha Ha' (eq_sym Hrole) Hle) as Hpre.
  destruct (no_commit _ _ _ _ (ri_node _ _ Hinv _ _ Ha)) as [Hlen _].
  destruct (lookup_lt_is_Some_2 (an_log a) (N.to_nat (i - 1))) as [e He]; [lia|].
  assert (an_log a' !! N.to_nat (i - 1) = Some e) as He'.
  { eapply prefix_lookup_Some; [|exact Hpre]. rewrite lookup_take_lt by lia. done. }
  rewrite He, He'. by split; [|eexists].
Qed.

(** What the leader of a proposal has committed in the same term includes it. *)
Lemma proposal_committed R1 R2 C2 p a1 c2 m data i t :
  rinv members R1 → rtc (rstep members) R1 R2 → r_nodes R1 !! p = Some a1 → proposed_at data i a1 → an_term a1 = t →
  rinv members R2 → tracks members C2 R2 → rc_shells C2 !! p = Some c2 → ln_state (sh_node c2) = RS_Leader m →
  current_term (ln_store (sh_node c2)) = Ok t → i ≤ rn_last_committed m →
  ∃ l e, safe members R2 l t ∧ l !! N.to_nat (i - 1) = Some e ∧ le_data e = data ∧ le_term e = t.
Proof.
  intros Hinv1 Hs Ha1 (Hi & [mt Hmt] & e & He & <- & Het) Ht1 Hinv2 Htr2 Hc2 Hst Ht2 Hi2.
  destruct (tr_shells _ _ _ Htr2 _ _ Hc2) as (_ & _ & a2 & Ha2 & Hn2).
  destruct (committed_view (sh_node c2) a2 p (rn_last_committed m) Hn2) as [Hp2 Hcm]; [by rewrite Hst|].
  apply (term_view _ _ _ _ Hn2 Hp2) in Ht2. subst t.
  pose proof (sn_role _ _ _ _ Hn2) as Hrole. rewrite Hst in Hrole.
  pose proof (leading_appends _ _ _ _ _ _ _ _ _ Hinv1 Hs Ha1 Ha2 Hmt (eq_sym Hrole) Ht2) as Hpre.
  destruct (no_commit _ _ _ _ (ri_node _ _ Hinv2 _ _ Ha2)) as [_ Hsafe]. rewrite <-Ht2 in Hsafe.
  exists (take (an_commit a2) (an_log a2)), e. split_and!; [done| |done..].
  rewrite lookup_take_lt by lia. by eapply prefix_lookup_Some.
Qed.
(** The term in which a proposal was accepted. *)
Lemma proposal_term R1 C1 p c1 a1 data i t :
  tracks members C1 R1 → rc_shells C1 !! p = Some c1 → r_nodes R1 !! p = Some a1 → proposed_at data i a1 →
  current_term (ln_store (sh_node c1)) = Ok t → an_term a1 = t.
Proof.
  intros Htr Hc1 Ha1 (_ & [mt Hmt] & _) Ht. destruct (tr_shells _ _ _ Htr _ _ Hc1) as (_ & _ & a & Ha & Hn).
  rewrite Ha1 in Ha. injection Ha as <-. symmetry. eapply term_view; [exact Hn| |exact Ht].
  pose proof (sn_role _ _ _ _ Hn) as Hrole. rewrite Hmt in Hrole. unfold is_poisoned. by destruct (ln_state (sh_node c1)).
Qed.

(** C4: An acknowledged mutation lasts, without snapshots.  Node [p] has
    accepted a proposal at index [i] in term [t]; later, when it still leads in
    [t], it has committed [i], which is when its caller is told so.  From then
    on, as long as no node of the run compacts its log, and so none probes for,
    sends or installs a snapshot, every node that has committed as far holds
    the proposed bytes at [i]. *)
Theorem acknowledged_mutation_lasts C C2 C3 p c c1 c2 m t i data q c3 k o :
  rc_reachable members reopens C → rc_shells C !! p = Some c → Forall is_byte data →
  handle_propose data c = (Ok (Ok i), c1) → current_term (ln_store (sh_node c1)) = Ok t →
  rtc (rcstep members reopens) (mkRC (<[p := c1]> (rc_shells C)) (rc_issued C)) C2 →
  rc_shells C2 !! p = Some c2 → ln_state (sh_node c2) = RS_Leader m →
  current_term (ln_store (sh_node c2)) = Ok t → i ≤ rn_last_committed m →
  rtc (rcstep members reopens) C2 C3 →
  rc_shells C3 !! q = Some c3 → role_committed (ln_state (sh_node c3)) = Some k → i ≤ k →
  read_entry i (ln_store (sh_node c3)) = Ok o →
  ∃ e, o = Some e ∧ le_data e = data ∧ le_term e = t.
Proof.
  intros Hreach Hc Hd Hrun Ht1 Hs2 Hc2 Hst Ht2 Hi2 Hs3 Hc3 Hk Hik Ho.
  destruct (reachable_tracks _ _ _ Hreach) as (R & Hinv & Htr).
  destruct (tr_shells _ _ _ Htr _ _ Hc) as (_ & _ & a & Ha & _).
  destruct (propose_lands _ Hinv Htr Hc Ha data i c1 Hd Hrun) as (R1 & a1 & Hr1 & Htr1 & Ha1 & Hat).
  apply (proposal_term _ _ _ _ _ _ _ _ Htr1 (lookup_insert_eq _ _ _) Ha1 Hat) in Ht1.
  pose proof (rsteps_inv _ _ _ Hinv Hr1) as Hinv1.
  destruct (rcsteps_tracks _ _ _ _ _ Hinv1 Htr1 Hs2) as (R2 & Hr2 & Htr2). pose proof (rsteps_inv _ _ _ Hinv1 Hr2) as Hinv2.
  destruct (proposal_committed _ _ _ _ _ _ _ _ _ _ Hinv1 Hr2 Ha1 Hat Ht1 Hinv2 Htr2 Hc2 Hst Ht2 Hi2) as (l & e & Hsafe & He & Hdata & Het).
  destruct (rcsteps_tracks _ _ _ _ _ Hinv2 Htr2 Hs3) as (R3 & Hr3 & Htr3).
  destruct (rsteps_safe _ _ _ _ _ Hinv2 Hr3 Hsafe) as [Hinv3 Hsafe3].
  destruct (tr_shells _ _ _ Htr3 _ _ Hc3) as (_ & _ & a3 & Ha3 & Hn3). destruct (committed_view _ _ _ _ Hn3 Hk) as [Hp3 ->].
  destruct (no_commit _ _ _ _ (ri_node _ _ Hinv3 _ _ Ha3)) as [Hlen Hs]. destruct Hat as [Hi _].
  pose proof (safe_lookup _ _ _ _ _ _ _ _ Hinv3 Hsafe3 Hs He ltac:(rewrite length_take; lia)) as He3.
  rewrite lookup_take_lt in He3 by lia.
  assert (U64 i) as Hu.
  { destruct (stands_U64 _ _ _ _ Hn3) as [_ Hu]; [|unfold U64 in *; lia]. intros Hst3. by rewrite Hst3 in Hk. }
  apply (read_entry_list _ _ _ _ _ Hn3 Hp3 Hu) in Ho as ->; [|lia]. by exists e.
Qed.
End props.
