(* ===== verification/RaftLedger.v ===== *)
(** The replicated ledgers of a cluster: whatever fails, every state machine
    holds the state that the committed log yields, so any two of them that
    have applied equally far hold the same state. *)
From S2P Require Import Prelude Machine Types Wire Storage Timing Node Engine Consensus VoteSpec LogSpec Election EngineSpec Cluster NodeProps Sled SledStore Fsm FsmSpec Shell ShellProps Service Rounds Raft RaftLog RaftSpec RaftLead RaftTasks RaftCluster RaftProps.

(** ** What a state machine promises to the cluster *)

Class Ledger (F : Type) `{StateMachine F} : Type := {
  ledger : Type;
  ledger_new : ledger;
  ledger_at : ledger → LogIndex;                       (** how far it has applied *)
  ledger_next : LogIndex → bytes → ledger → option ledger;
  ledger_holds : F → ledger → Prop;                    (** what the running machine answers from *)
  ledger_stored : F → ledger → Prop;                   (** what the next start finds *)
  ledger_reopened : F → F → Prop;
  ledger_next_at i d w w' : ledger_next i d w = Some w' → i = ledger_at w + 1 ∧ ledger_at w' = i;
  ledger_apply_law i d f w :
    ledger_holds f w → ledger_stored f w →
    wp (sm_apply i d)
      (λ _ f', ∃ w', ledger_next i d w = Some w' ∧ ledger_holds f' w' ∧ ledger_stored f' w')
      (λ _ f', ∃ w', (w' = w ∨ ledger_next i d w = Some w') ∧ ledger_stored f' w') f;
  ledger_applied_law f w i : ledger_holds f w → sm_last_applied f = Ok i → i = ledger_at w;
  ledger_reopened_law f f' w : ledger_reopened f f' → ledger_stored f w → ledger_holds f' w ∧ ledger_stored f' w;
  ledger_new_at : ledger_at ledger_new = 0;
}.

(** The state after the entries [l], the first at index [i]. *)
Fixpoint replay_from {F} `{Ledger F} (i : LogIndex) (l : list LogEntry) (w : ledger) : option ledger :=
  match l with
  | [] => Some w
  | e :: rest => w' ← ledger_next i (le_data e) w; replay_from (i + 1) rest w'
  end.

(** ** What tasks do to the state machine *)

Section frames.
Context {S G F : Type} `{LogStorage S} `{RngExt G} `{StateMachine F}.
Abbreviation shell := (ConsensusShell S G F) (only parsing).
Abbreviation node := (LogicalNode S G) (only parsing).
Abbreviation eng := (st (LogicalNode S G) halt) (only parsing).
Abbreviation sh := (st (ConsensusShell S G F) halt) (only parsing).
Implicit Types (c : shell).

(** The state machine is left alone, and a poisoned node stays poisoned. *)
Definition calm_at {A} (m : sh A) c : Prop :=
  sh_fsm (m c).2 = sh_fsm c ∧ (is_poisoned (sh_node c) = true → is_poisoned (sh_node (m c).2) = true).
Definition calm {A} (m : sh A) : Prop := ∀ c, calm_at m c.

Lemma calm_bind_at {A B} (m : sh A) (k : A → sh B) c :
  calm_at m c → (∀ x, (m c).1 = Ok x → calm_at (k x) (m c).2) → calm_at (m ≫= k) c.
Proof.
  unfold calm_at, mbind, st_bind. intros [Hf Hp] Hk. destruct (m c) as [[x|h] c1]; cbn in *; [|done].
  destruct (Hk x eq_refl) as [Hf' Hp']. split; [congruence|auto].
Qed.
Lemma calm_bind {A B} (m : sh A) (k : A → sh B) : calm m → (∀ x, calm (k x)) → calm (m ≫= k).
Proof. intros Hm Hk c. apply calm_bind_at; [done|]. intros. apply Hk. Qed.
Lemma calm_ret {A} (x : A) : calm (mret x).
Proof. done. Qed.
Lemma calm_gets {A} (f : shell → A) : calm (st_gets f).
Proof. done. Qed.
Lemma calm_on_node {A} (m : eng A) : inert m → calm (on_node m).
Proof.
  intros Hm c. unfold calm_at, on_node, st_zoom.
  specialize (Hm (ln_store (sh_node c)) (sh_node c)). unfold halted_at, wp in Hm.
  destruct (m (sh_node c)) as [[x|h] n]; cbn; (split; [done|]); unfold is_poisoned;
    destruct (ln_state (sh_node c)); try done; intros _; destruct Hm as [-> _]; done.
Qed.
Lemma calm_locked_at {A} (m : sh A) c :
  sh_fsm (m c).2 = sh_fsm c → (is_poisoned (sh_node c) = true → is_poisoned (sh_node (m c).2) = true) →
  calm_at (locked m) c.
Proof.
  intros Hf Hp. unfold calm_at, locked.
  destruct (consensus_progress (sh_node c)) as [[before|h] n] eqn:Hb.
  - destruct (consensus_progress_same _ _ _ Hb) as [-> _].
    assert (sh_set_node (sh_node c) c = c) as -> by (by destruct c).
    destruct (m c) as [[x|h] c1]; cbn in *; unfold guard_drop; by destruct (decide _).
  - split; [done|]. cbn. revert Hb. unfold consensus_progress, mbind, st_bind, st_gets, is_poisoned.
    destruct (try_consensus_progress (sh_node c)); cbn; [done|]. by intros [= _ <-].
Qed.
Lemma calm_locked {A} (m : sh A) : calm m → calm (locked m).
Proof. intros Hm c. apply calm_locked_at; apply Hm. Qed.
Lemma calm_block {A} (m : eng A) : inert m → calm (locked (on_node m)).
Proof. intros Hm. by apply calm_locked, calm_on_node. Qed.
Lemma inert_apply_fatal {A} e : inert (S:=S) (G:=G) (apply_fatal (A:=A) e).
Proof. intros s n [_ Hs]. unfold apply_fatal. by wp_steps. Qed.
Lemma calm_fatal {A} e : calm (fatal (A:=A) e).
Proof. apply calm_block, inert_apply_fatal. Qed.
Lemma calm_discard {A B} (m : sh A) (f : A → B) : calm m → calm (x ← m; mret (f x)).
Proof. intros Hm. apply calm_bind; [done|intros; apply calm_ret]. Qed.

(** *** The operations of the tasks *)

Lemma inert_read {A} (f : S → result NodeError A) : inert (G:=G) (read_or_fatal f).
Proof. apply mute_inert, mute_read. Qed.
Lemma inert_field {A} (f : ∀ R, RaftNode R → A) : inert (S:=S) (G:=G) (delegate_field f).
Proof. apply mute_inert, mute_field. Qed.
Lemma inert_into_candidate : inert (S:=S) (G:=G) into_candidate.
Proof.
  apply inert_bind; [apply inert_draw|intros]. apply inert_bind; [apply inert_gets|intros].
  by apply inert_transition.
Qed.
Lemma inert_into_pre_candidate : inert (S:=S) (G:=G) into_pre_candidate.
Proof. apply inert_bind; [apply inert_gets|intros]. by apply inert_transition. Qed.
Lemma inert_dispatch action t x : inert (S:=S) (G:=G) (tick_dispatch action t x).
Proof.
  unfold tick_dispatch. destruct action; try apply inert_ret.
  - apply inert_bind; [apply inert_into_candidate|intros]. apply mute_inert, mute_bind, mute_read.
  - apply inert_bind; [apply inert_into_pre_candidate|intros]. apply mute_inert, mute_bind, mute_bind, mute_field.
  - apply mute_inert, mute_bind, mute_field.
Qed.
Lemma inert_process_reply t p res : inert (S:=S) (G:=G) (process_replication_response t p res).
Proof.
  unfold process_replication_response. destruct res as [[o|]|]; [|apply inert_ret..].
  destruct (t <? _); [apply mute_inert, mute_bind, mute_into_follower|]. apply mute_inert, mute_bind, mute_read.
Qed.
Lemma inert_vote_response t peers p res : inert (S:=S) (G:=G) (process_vote_response t peers p res).
Proof.
  unfold process_vote_response. destruct res as [resp|]; [|apply inert_ret].
  destruct (t <? _); [apply mute_inert, mute_bind, mute_into_follower|].
  destruct (rvr_vote_granted resp); [apply mute_inert, mute_bind, mute_read|apply inert_ret].
Qed.

Lemma calm_freeze : calm freeze_or_fatal.
Proof. intros c. unfold calm_at, freeze_or_fatal, freeze. by destruct (_ =? u32_max). Qed.
Lemma calm_tick_block k : calm (tick_block k).
Proof.
  apply calm_locked. apply calm_bind; [apply calm_on_node, inert_tick|intros].
  apply calm_bind; [apply calm_on_node, inert_read|intros]. apply calm_bind; [apply calm_gets|intros frozen].
  apply calm_bind.
  { apply calm_on_node. unfold should_compact_log. destruct frozen; [apply inert_ret|].
    apply mute_inert, mute_bind, mute_field. }
  intros compact. apply calm_bind; [|intros; apply calm_on_node, inert_dispatch].
  destruct compact; [|apply calm_ret]. apply calm_bind; [apply calm_freeze|intros].
  apply calm_bind; [apply calm_on_node, inert_field|intros].
  apply calm_bind; [apply calm_on_node, inert_read|intros; apply calm_ret].
Qed.
Lemma calm_verify_prepare : calm verify_prepare.
Proof.
  intros c. apply calm_locked_at; unfold mbind, st_bind, st_gets; destruct (is_poisoned (sh_node c)) eqn:Hpo; try done.
  unfold on_node, st_zoom.
  destruct (eng_node_id (sh_node c)) as [[i|h] n1]; cbn; [|done].
  destruct (eng_last_committed n1) as [[k|h] n2]; cbn; [|done].
  destruct (ln_state (sh_node c)) as [| | |m|]; try done.
  destruct (node_read current_term _); [|done]. by destruct (prepare_read_probe (rn_node_id m) (rn_state m)).
Qed.
Lemma calm_strategy_block peer params : calm (strategy_block peer params).
Proof.
  apply calm_locked. apply calm_bind; [apply calm_on_node, inert_strategy|intros [o|e]]; [apply calm_ret|].
  apply calm_bind; [apply calm_on_node, inert_read|intros; apply calm_on_node, inert_apply_fatal].
Qed.
Lemma calm_reply t p o : calm (shell_replication_response t p (Ok (Some o))).
Proof.
  intros c. unfold shell_replication_response, calm_at.
  pose proof (calm_block _ (inert_process_reply t p (Ok (Some o))) c) as [Hf Hp].
  destruct (locked _ c) as [r c']. cbn in *. destruct o; by split.
Qed.

(** All tasks but the one that feeds the state machine. *)
Lemma calm_task members id t : (∀ next, t ≠ TFeed next) → calm (run_task members id t).
Proof.
  intros Hne. destruct t; cbn [run_task].
  - apply calm_discard, calm_tick_block.
  - apply calm_discard, calm_block, mute_inert, mute_bind, mute_read.
  - apply calm_discard, calm_block, mute_inert, mute_bind, mute_read.
  - apply calm_discard, calm_block. unfold pre_vote_term_check. destruct (_ <? _); [|apply inert_ret].
    apply mute_inert, mute_bind, mute_read.
  - apply calm_discard, calm_block, mute_inert, mute_bind, mute_read.
  - apply calm_discard, calm_block, mute_inert, mute_bind, mute_read.
  - apply calm_discard, calm_block, inert_vote_response.
  - apply calm_discard, calm_gets.
  - destruct (_ <=? _); [|apply calm_ret]. apply calm_discard, calm_block, inert_into_leader.
  - apply (calm_discard (handle_propose data) (λ _, [])), calm_discard, calm_block, mute_inert, mute_propose.
  - apply calm_discard, calm_verify_prepare.
  - apply calm_discard, calm_strategy_block.
  - apply calm_discard, calm_block, mute_inert, mute_bind, mute_read.
  - apply (calm_discard (spawned _) (λ _, [])), calm_bind; [apply calm_discard, calm_reply|].
    intros [u|e]; [apply calm_ret|apply calm_fatal].
  - by destruct (Hne next).
  - apply (calm_discard (horizon_one next) (λ _, [])), calm_locked, calm_bind; [apply calm_on_node, mute_inert, mute_delegate|intros [u|e]];
      apply calm_on_node; [apply inert_field|apply inert_apply_fatal].
  - apply (calm_discard (fatal _) (λ _, [])), calm_fatal.
Qed.
End frames.

(** ** The invariant *)

Section ledgers.
Context {S G F : Type} `{LogStorageLaws S} `{RngExt G} `{HLedger : Ledger F} (members : gset N).
Abbreviation shell := (ConsensusShell S G F) (only parsing).
Implicit Types (C : rcluster S G F) (R : RState) (c : shell) (w : ledger (F:=F)).

Lemma replay_from_snoc i l e w w' w'' :
  replay_from i l w = Some w' → ledger_next (i + N.of_nat (length l)) (le_data e) w' = Some w'' →
  replay_from i (l ++ [e]) w = Some w''.
Proof.
  revert i w. induction l as [|x l IH]; intros i w; cbn.
  - intros [= ->]. rewrite N.add_0_r. by intros ->.
  - destruct (ledger_next i (le_data x) w) as [w1|]; cbn; [|done]. intros Hl Hn. apply IH; [done|].
    rewrite <-Hn. f_equal. lia.
Qed.

(** [w] is what a part of the log that cannot be lost yields. *)
Definition yields R w : Prop :=
  ∃ l t, safe members R l t ∧ N.of_nat (length l) = ledger_at w ∧ replay_from 1 l ledger_new = Some w.

Lemma yields_new R : yields R ledger_new.
Proof. exists [], 0. split_and!; [by left|by rewrite ledger_new_at|done]. Qed.
Lemma yields_steps R R' w : rinv members R → rtc (rstep members) R R' → yields R w → yields R' w.
Proof.
  intros Hinv Hs (l & t & Hl & ? & ?). exists l, t. split_and!; [|done|done].
  by eapply (rsteps_safe members R R').
Qed.
Lemma yields_agree R w w' : rinv members R → yields R w → yields R w' → ledger_at w = ledger_at w' → w = w'.
Proof.
  intros Hinv (l & t & Hl & Hlen & Hw) (l' & t' & Hl' & Hlen' & Hw') Heq.
  assert (l = l') as ->; [|congruence].
  destruct (safe_comparable members Hinv _ _ _ _ Hl Hl') as [Hp|Hp]; [|symmetry];
    (eapply prefix_same_length; [exact Hp|done|lia]).
Qed.
(** The next entry of the same log. *)
Lemma yields_next R w w' L t k e :
  rinv members R → yields R w → safe members R L t → L !! k = Some e →
  ledger_next (N.of_nat k + 1) (le_data e) w = Some w' → yields R w'.
Proof.
  intros Hinv (l & t0 & Hl & Hlen & Hw) HL He Hn. destruct (ledger_next_at _ _ _ _ Hn) as [Hat Hat'].
  pose proof (lookup_lt_Some _ _ _ He) as Hk.
  assert (l = take k L) as ->.
  { destruct (safe_comparable members Hinv _ _ _ _ Hl HL) as [Hp|Hp].
    - apply prefix_take_eq in Hp. rewrite Hp. f_equal. lia.
    - apply prefix_length in Hp. lia. }
  exists (take (Datatypes.S k) L), t. split_and!.
  - eapply safe_prefix; [apply take_prefix|done].
  - rewrite length_take in *. lia.
  - rewrite (take_S_r _ _ _ He). eapply replay_from_snoc; [done|]. rewrite length_take, Nat.min_l by lia.
    rewrite <-Hn. f_equal. lia.
Qed.

Definition ledger_ok R c : Prop :=
  ∃ w, ledger_stored (sh_fsm c) w ∧ yields R w ∧ (is_poisoned (sh_node c) = false → ledger_holds (sh_fsm c) w).
Definition ledgers_ok C R : Prop := ∀ id c, rc_shells C !! id = Some c → ledger_ok R c.

Lemma ledger_ok_calm {A} R (m : st shell halt A) c : calm_at m c → ledger_ok R c → ledger_ok R (m c).2.
Proof.
  intros [Hf Hp] (w & Hst & Hy & Hh). exists w. rewrite Hf. split_and!; [done..|]. intros Hnp. apply Hh.
  destruct (is_poisoned (sh_node c)); [by rewrite Hp in Hnp|done].
Qed.

Lemma ledger_ok_steps R R' c : rinv members R → rtc (rstep members) R R' → ledger_ok R c → ledger_ok R' c.
Proof. intros Hinv Hs (w & Hst & Hy & Hh). exists w. split_and!; [done|by eapply yields_steps|done]. Qed.

Lemma fatal_poisons {A} e c : is_poisoned (sh_node (fatal (A:=A) e c).2) = true.
Proof.
  unfold fatal, locked. destruct (consensus_progress (sh_node c)) as [[before|h] n] eqn:Hb.
  - unfold on_node, st_zoom, apply_fatal, mbind, st_bind, st_modify, st_fail. cbn. unfold guard_drop. cbn. by case_decide.
  - revert Hb. unfold consensus_progress, mbind, st_bind, st_gets.
    destruct (try_consensus_progress (sh_node c)); cbn; [done|]. by intros [= _ <-].
Qed.

Lemma feed_ledger R id c a next :
  rinv members R → r_nodes R !! id = Some a → stands members id (sh_node c) a → can_apply next c →
  ledger_ok R c → ledger_ok R (feed_one next c).2.
Proof.
  intros Hinv Ha Hn (cm & Hcm & Hle) (w & Hst & Hy & Hh).
  destruct (committed_view _ _ _ _ _ Hn Hcm) as [Hp ->]. specialize (Hh Hp).
  assert (ledger_ok R c) as Hok by (by exists w).
  unfold feed_one, mbind, st_bind, st_gets.
  destruct (read_entries next next (ln_store (sh_node c))) as [[|e es]|err] eqn:Hread; cbn;
    try (apply ledger_ok_calm; [apply calm_fatal|done]).
  assert (∀ w', ledger_next next (le_data e) w = Some w' → yields R w') as Hnext.
  { intros w' Hw'. destruct (ledger_next_at _ _ _ _ Hw') as [Hat _].
    destruct (stands_view _ _ _ _ Hn) as (v & Hhd & (_ & Hc & Hlog) & _).
    { intros Hpo. unfold is_poisoned in Hp. by rewrite Hpo in Hp. }
    pose proof (repr_ok _ _ (proj1 Hhd)) as Hvok.
    assert (U64 next) as Hu by (pose proof (vo_committed _ Hvok); unfold U64 in *; lia).
    pose proof (read_entries_law next next _ _ (proj1 Hhd) Hu Hu ltac:(lia)) as Hlaw. rewrite Hread in Hlaw. cbn in Hlaw.
    assert (an_log a !! N.to_nat (next - 1) = Some e) as He.
    { rewrite <-(log_is_lookup Hlog). replace (N.of_nat (N.to_nat (next - 1)) + 1) with next by lia.
      assert (lv_range v next next = match lv_log v !! next with Some x => [x] | None => [] end) as Hrg.
      { unfold lv_range, u64_range. replace (N.to_nat (next + 1 - next)) with 1%nat by lia. cbn.
        rewrite N.add_0_r. by destruct (lv_log v !! next). }
      rewrite Hrg in Hlaw. destruct (lv_log v !! next); [|done]. by injection Hlaw as -> _. }
    destruct (no_commit _ _ _ _ (ri_node _ _ Hinv _ _ Ha)) as [Hlen Hs].
    eapply (yields_next R w w' _ _ (N.to_nat (next - 1)) e); [done|done|exact Hs| |].
    - rewrite lookup_take_lt by lia. done.
    - by replace (N.of_nat (N.to_nat (next - 1)) + 1) with next by lia. }
  pose proof (ledger_apply_law next (le_data e) (sh_fsm c) w Hh Hst) as Hlaw.
  unfold on_fsm, st_zoom, st_try. unfold wp in Hlaw.
  destruct (sm_apply next (le_data e) (sh_fsm c)) as [[u|err] f']; cbn.
  - destruct Hlaw as (w' & Hw' & Hh' & Hst'). exists w'. cbn. split_and!; auto.
  - destruct Hlaw as (w' & Hw' & Hst').
    match goal with |- ledger_ok R (locked ?m ?c1).2 => pose proof (calm_block (F:=F) _ (inert_apply_fatal (A:=unit) (Protocol "Apply failure")) c1) as [Hf _]; pose proof (fatal_poisons (A:=unit) (Protocol "Apply failure") c1) as Hpo end.
    exists w'. unfold fatal in Hpo. rewrite Hf, Hpo. cbn. split_and!; [done| |done].
    destruct Hw' as [->|Hw']; auto.
Qed.

(** *** Cold boot *)

Definition boots R (f : F) : Prop := ∃ w, ledger_holds f w ∧ ledger_stored f w ∧ yields R w.
Definition boots_stored R (f : F) : Prop := ∃ w, ledger_stored f w ∧ yields R w.

Lemma replay_ledger R (s : S) v L t fuel current committed f :
  rinv members R → repr s v → log_is v L → safe members R (take (N.to_nat committed) L) t →
  (∃ w, ledger_holds f w ∧ ledger_stored f w ∧ yields R w ∧ current = ledger_at w) →
  wp (replay s fuel current committed) (λ _ f', boots R f') (λ _ f', boots_stored R f') f.
Proof.
  intros Hinv Hv Hlog Hsafe. revert current f.
  induction fuel as [|fuel IH]; intros current f (w & Hh & Hst & Hy & ->); cbn [replay].
  { apply wp_ret. by exists w. }
  assert (boots_stored R f) as Hkeep by (by exists w).
  destruct (N.ltb_spec (ledger_at w) committed) as [Hlt|]; [|apply wp_ret; by exists w].
  wp_step. apply wp_lift; [|done]. intros next Hn.
  destruct (index_add (ledger_at w) 1) as [x|] eqn:Hx; [|done]. injection Hn as <-.
  apply newtype_add_Ok in Hx as [-> Hu]. wp_step. apply wp_lift; [|done]. intros o Ho.
  pose proof (read_entry_law _ _ _ Hv Hu) as Hread.
  destruct (read_entry (ledger_at w + 1) s) as [o'|]; [|done]. injection Ho as <-. cbn in Hread. subst o'.
  destruct (lv_log v !! (ledger_at w + 1)) as [e|] eqn:He; [|by apply wp_fail].
  replace (ledger_at w + 1) with (N.of_nat (N.to_nat (ledger_at w)) + 1) in He by lia.
  rewrite (log_is_lookup Hlog) in He.
  assert (∀ w', ledger_next (ledger_at w + 1) (le_data e) w = Some w' → yields R w') as Hnext.
  { intros w' Hw'. eapply (yields_next R w w' _ _ (N.to_nat (ledger_at w)) e); [done|done|exact Hsafe| |].
    - rewrite lookup_take_lt by lia. done.
    - by replace (N.of_nat (N.to_nat (ledger_at w)) + 1) with (ledger_at w + 1) by lia. }
  wp_step. apply wp_map_err. eapply wp_mono; [by apply ledger_apply_law|..]; cbn beta.
  - intros u f1 (w' & Hw' & Hh' & Hst'). apply IH. exists w'. destruct (ledger_next_at _ _ _ _ Hw') as [_ Hat].
    split_and!; auto.
  - intros err f1 (w' & Hw' & Hst'). exists w'. split; [done|]. destruct Hw' as [->|Hw']; auto.
Qed.

Lemma recover_ledger R (s : S) v L t f :
  rinv members R → repr s v → log_is v L → safe members R (take (N.to_nat (lv_committed v)) L) t → boots R f →
  wp (recover s) (λ _ f', boots R f') (λ _ f', boots_stored R f') f.
Proof.
  intros Hinv Hv Hlog Hsafe (w & Hh & Hst & Hy). assert (boots_stored R f) as Hkeep by (by exists w).
  unfold recover. wp_step. apply wp_reads; [|done]. intros i Hi.
  assert (i = ledger_at w) as ->.
  { destruct (sm_last_applied f) eqn:Hla; [|done]. injection Hi as <-. by eapply ledger_applied_law. }
  wp_step. apply wp_lift; [|done]. intros k Hk. pose proof (last_committed_law _ _ Hv) as Hlaw.
  destruct (last_committed s) as [k'|]; [|done]. injection Hk as <-. cbn in Hlaw. subst k'.
  destruct (_ <? _); [by apply wp_fail|]. destruct (_ =? _); [apply wp_ret; by exists w|].
  eapply replay_ledger; [done..|]. by exists w.
Qed.

Lemma restart_ledger R id c a s f identity thresholds rng o f' :
  rinv members R → r_nodes R !! id = Some a → stands members id (sh_node c) a → ledger_ok R c →
  reopened (ln_store (sh_node c)) s → ledger_reopened (sh_fsm c) f →
  boot_shell identity thresholds rng s f = (o, f') → ledger_ok R (default (down s f' c) o).
Proof.
  intros Hinv Ha Hn (w & Hst & Hy & _) Hre Hfre.
  destruct (ledger_reopened_law _ _ _ Hfre Hst) as [Hh1 Hst1].
  destruct (stands_leaves _ _ _ _ Hn) as (v0 & vd & Hhd & (_ & Hc & Hlog)).
  destruct (reopened_law _ _ vd Hre (proj2 Hhd)) as [Hr Hd].
  destruct (no_commit _ _ _ _ (ri_node _ _ Hinv _ _ Ha)) as [_ Hs].
  assert (wp (recover s) (λ _ f', boots R f') (λ _ f', boots_stored R f') f) as Hrec.
  { eapply recover_ledger; [done|done|done| |by exists w]. by rewrite Hc, Nat2N.id. }
  unfold boot_shell, wp in *. destruct (recover s f) as [[u|e] f1].
  - destruct Hrec as (w1 & Hh & Hs1 & Hy1).
    destruct (LogicalNode_try_new _ _ _ _ s) as [n'|e]; [|intros [= <- <-]; by exists w1].
    unfold shell_new. destruct (consensus_progress n') as [[p|h] n1]; cbn; intros [= <- <-]; by exists w1.
  - destruct Hrec as (w1 & Hs1 & Hy1). intros [= <- <-]. by exists w1.
Qed.

(** *** Every step *)

Abbreviation rcstep := (rcstep (S:=S) (G:=G) members ledger_reopened).
Lemma rcstep_ledgers C C' R :
  rinv members R → tracks members C R → ledgers_ok C R → rcstep C C' →
  ∃ R', rtc (rstep members) R R' ∧ tracks members C' R' ∧ ledgers_ok C' R'.
Proof.
  intros Hinv Htr Hl Hstep. destruct (rcstep_tracks _ _ _ _ _ Hinv Htr Hstep) as (R' & Hr & Htr').
  exists R'. split_and!; [done..|].
  assert (∀ c, ledger_ok R c → ledger_ok R' c) as Hmono by (intros c; by apply ledger_ok_steps).
  destruct Hstep as [id c t r c' Hc Hok Hrun|id c s f identity th rng o f' Hc Hre Hf Hid Hboot];
    destruct (tr_shells _ _ _ Htr _ _ Hc) as (_ & _ & a & Ha & Hn); intros id0 c0; cbn;
    (destruct (decide (id0 = id)) as [->|Hne]; [rewrite lookup_insert_eq; intros [= <-]|
      rewrite lookup_insert_ne by done; intros Hc0; by eapply Hmono, Hl]); apply Hmono.
  - assert ((∃ next, t = TFeed next) ∨ ∀ next, t ≠ TFeed next) as [[next ->]|Hnf]
      by (destruct t; (by right) || (left; by eexists)).
    + assert (c' = (feed_one next c).2) as ->.
      { revert Hrun. cbn [run_task]. unfold mbind, st_bind. by destruct (feed_one next c) as [[u|h] c1]; intros [= _ <-]. }
      eapply feed_ledger; [done|done|done|done|by eapply Hl].
    + assert (calm_at (run_task members id t) c) as Hcalm by (by apply calm_task).
      pose proof (ledger_ok_calm R _ c Hcalm (Hl _ _ Hc)) as Hx. by rewrite Hrun in Hx.
  - eapply restart_ledger; [done|done|done|by eapply Hl|done|done|done].
Qed.

Lemma rcsteps_ledgers C C' R :
  rinv members R → tracks members C R → ledgers_ok C R → rtc rcstep C C' →
  ∃ R', rinv members R' ∧ rtc (rstep members) R R' ∧ tracks members C' R' ∧ ledgers_ok C' R'.
Proof.
  intros Hinv Htr Hl Hs. revert R Hinv Htr Hl. induction Hs as [C|C C1 C' Hstep _ IH]; intros R Hinv Htr Hl; [by exists R|].
  destruct (rcstep_ledgers _ _ _ Hinv Htr Hl Hstep) as (R1 & Hr1 & Htr1 & Hl1).
  destruct (IH R1 (rsteps_inv _ _ _ Hinv Hr1) Htr1 Hl1) as (R' & ? & ? & ? & ?).
  exists R'. split_and!; [done|by etrans|done|done].
Qed.

(** Every state machine starts empty. *)
Definition ledgers_start C : Prop :=
  ∀ id c, rc_shells C !! id = Some c → ledger_holds (sh_fsm c) ledger_new ∧ ledger_stored (sh_fsm c) ledger_new.

(** The ledgers of a run, on the protocol. *)
Lemma start_ledgers C0 C :
  rc_initial members C0 → ledgers_start C0 → rtc rcstep C0 C →
  ∃ R, rinv members R ∧ tracks members C R ∧ ledgers_ok C R.
Proof.
  intros Hinit Hstart Hs. destruct (initial_tracks _ _ Hinit) as (R0 & HR0%r_initial_inv & Htr0).
  assert (ledgers_ok C0 R0) as Hl0.
  { intros id c Hc. destruct (Hstart id c Hc). exists ledger_new. split_and!; [done|apply yields_new|done]. }
  destruct (rcsteps_ledgers _ _ _ HR0 Htr0 Hl0 Hs) as (R & Hinv & _ & Htr & Hl). by exists R.
Qed.

(** Two replicas, the one at any time, the other at that time or later, that
    have applied equally far hold the same state, whatever has failed before. *)
Lemma ledgers_agree C0 C C' p p' c c' k :
  rc_initial members C0 → ledgers_start C0 → rtc rcstep C0 C → rtc rcstep C C' →
  rc_shells C !! p = Some c → rc_shells C' !! p' = Some c' →
  is_poisoned (sh_node c) = false → is_poisoned (sh_node c') = false →
  sm_last_applied (sh_fsm c) = Ok k → sm_last_applied (sh_fsm c') = Ok k →
  ∃ w, ledger_holds (sh_fsm c) w ∧ ledger_holds (sh_fsm c') w ∧ ledger_at w = k.
Proof.
  intros Hinit Hstart Hs Hs' Hc Hc' Hp Hp' Hk Hk'.
  destruct (start_ledgers _ _ Hinit Hstart Hs) as (R & Hinv & Htr & Hl).
  destruct (rcsteps_ledgers _ _ _ Hinv Htr Hl Hs') as (R' & Hinv' & Hr & _ & Hl').
  destruct (Hl _ _ Hc) as (w & _ & Hy & Hh). destruct (Hl' _ _ Hc') as (w' & _ & Hy' & Hh').
  specialize (Hh Hp). specialize (Hh' Hp').
  apply (ledger_applied_law _ _ _ Hh) in Hk as ->. pose proof (ledger_applied_law _ _ _ Hh' Hk') as Heq.
  apply (yields_steps R R' w Hinv Hr) in Hy.
  assert (w = w') as <- by (eapply yields_agree; [exact Hinv'|done|done|done]). by exists w.
Qed.

Lemma calm_propose data : calm (S:=S) (G:=G) (F:=F) (handle_propose data).
Proof. apply calm_discard, calm_block, mute_inert, mute_propose. Qed.

(** A ledger that has got as far as an acknowledged proposal has replayed it,
    at its index. *)
Lemma acknowledged_replayed C0 C C2 C3 p c c1 c2 m t i data q c3 k :
  rc_initial members C0 → ledgers_start C0 → rtc rcstep C0 C →
  rc_shells C !! p = Some c → Forall is_byte data →
  handle_propose data c = (Ok (Ok i), c1) → current_term (ln_store (sh_node c1)) = Ok t →
  rtc rcstep (mkRC (<[p := c1]> (rc_shells C)) (rc_issued C)) C2 →
  rc_shells C2 !! p = Some c2 → ln_state (sh_node c2) = RS_Leader m →
  current_term (ln_store (sh_node c2)) = Ok t → i ≤ rn_last_committed m →
  rtc rcstep C2 C3 → rc_shells C3 !! q = Some c3 → is_poisoned (sh_node c3) = false →
  sm_last_applied (sh_fsm c3) = Ok k → i ≤ k →
  ∃ l e w, replay_from 1 l ledger_new = Some w ∧ ledger_holds (sh_fsm c3) w ∧ N.of_nat (length l) = k ∧
    l !! N.to_nat (i - 1) = Some e ∧ le_data e = data.
Proof.
  intros Hinit Hstart Hs Hc Hd Hrun Ht1 Hs2 Hc2 Hst Ht2 Hi2 Hs3 Hc3 Hp3 Hk Hik.
  destruct (start_ledgers _ _ Hinit Hstart Hs) as (R & Hinv & Htr & Hl).
  destruct (tr_shells _ _ _ Htr _ _ Hc) as (_ & _ & a & Ha & _).
  destruct (propose_lands _ Hinv Htr Hc Ha data i c1 Hd Hrun) as (R1 & a1 & Hr1 & Htr1 & Ha1 & Hat).
  apply (proposal_term _ _ _ _ _ _ _ _ _ Htr1 (lookup_insert_eq _ _ _) Ha1 Hat) in Ht1.
  pose proof (rsteps_inv _ _ _ Hinv Hr1) as Hinv1.
  assert (ledgers_ok (mkRC (<[p := c1]> (rc_shells C)) (rc_issued C)) R1) as Hl1.
  { intros id c0. cbn. destruct (decide (id = p)) as [->|Hne]; [rewrite lookup_insert_eq; intros [= <-]|
      rewrite lookup_insert_ne by done; intros Hc0]; (eapply ledger_ok_steps; [exact Hinv|exact Hr1|]); [|by eapply Hl].
    pose proof (ledger_ok_calm R _ c (calm_propose data c) (Hl _ _ Hc)) as Hx. by rewrite Hrun in Hx. }
  destruct (rcsteps_ledgers _ _ _ Hinv1 Htr1 Hl1 Hs2) as (R2 & Hinv2 & Hr2 & Htr2 & Hl2).
  destruct (proposal_committed _ _ _ _ _ _ _ _ _ _ _ Hinv1 Hr2 Ha1 Hat Ht1 Hinv2 Htr2 Hc2 Hst Ht2 Hi2)
    as (l0 & e & Hsafe & He & Hdata & _).
  destruct (rcsteps_ledgers _ _ _ Hinv2 Htr2 Hl2 Hs3) as (R3 & Hinv3 & Hr3 & _ & Hl3).
  destruct (rsteps_safe _ _ _ _ _ Hinv2 Hr3 Hsafe) as [_ Hsafe3]. destruct Hat as [Hi _].
  destruct (Hl3 _ _ Hc3) as (w & _ & (l & t' & Hsl & Hlen & Hw) & Hh). specialize (Hh Hp3).
  apply (ledger_applied_law _ _ _ Hh) in Hk as ->. exists l, e, w. split_and!; [done..| |done].
  eapply (safe_lookup members); [exact Hinv3|exact Hsafe3|exact Hsl|exact He|lia].
Qed.
End ledgers.
