(* ===== verification/Boot.v ===== *)
(** Starting a node (node-server/src/main.rs, raft-engine/src/identity.rs):
    the identity that the data directory is bound to, the cold boot of state
    machine and log, and the wiring of the shell.  serde_json is an interface;
    the telemetry and the server loop are left out. *)
From S2P Require Import Prelude Machine Types Wire Storage Timing Node Engine Consensus Sled SledStore Fsm Text Rpc Shell Gateway Service.

(** [serde_json::to_vec] and [from_slice]. *)
Inductive JsonFailure : Type := json_failure.
Class JsonBytes (A : Type) : Type := {
  json_to_vec : A → result JsonFailure bytes;
  json_from_slice : bytes → result JsonFailure A;
}.
(** What was written reads back. *)
Class JsonBytesLaws (A : Type) `{JsonBytes A} : Prop :=
  json_bytes_roundtrip (a : A) b : json_to_vec a = Ok b → json_from_slice b = Ok a.

(** ** identity.rs *)

Definition IDENTITY_KEY : bytes := as_bytes "node_identity".
Definition IDENTITY_TREE : string := "_system_metadata".

Inductive NodeIdentityError : Type :=
| NI_Storage
| NI_Corruption
| NI_Mismatch (disk config : NodeIdentity).

Definition config_identity (c : Config) : NodeIdentity := mkIdentity (cfg_cluster_id c) (cfg_node_id c).

Section identity.
Context {D : Type} `{Sled D, JsonBytes NodeIdentity}.

Definition stored_in {A} (m : st D SledError A) : st D NodeIdentityError A := st_map_err (λ _, NI_Storage) m.

Definition initialize_node_identity (config : Config) : st D NodeIdentityError NodeIdentity :=
  _ ← stored_in (sled_open_tree IDENTITY_TREE);
  o ← st_reads (λ d, map_err (λ _, NI_Storage) (sled_get IDENTITY_TREE IDENTITY_KEY d));
  match o with
  | Some data =>
      existing ← st_lift (map_err (λ _, NI_Corruption) (json_from_slice data));
      if negb (bool_decide (cluster_id existing = cfg_cluster_id config)) ||
         negb (bool_decide (node_id existing = cfg_node_id config))
      then st_fail (NI_Mismatch existing (config_identity config))
      else mret existing
  | None =>
      let identity := config_identity config in
      data ← st_lift (map_err (λ _, NI_Corruption) (json_to_vec identity));
      _ ← stored_in (sled_insert IDENTITY_TREE IDENTITY_KEY data);
      _ ← stored_in sled_flush;
      mret identity
  end.
End identity.

(** ** main.rs *)

(** The three databases of a data directory. *)
Record Databases (D : Type) : Type := mkDatabases {
  dbs_system : D;
  dbs_log : D;
  dbs_fsm : D;
}.
Arguments mkDatabases {D} _ _ _.
Arguments dbs_system {D} _.
Arguments dbs_log {D} _.
Arguments dbs_fsm {D} _.

Inductive BootFailure : Type := BF_Panic (msg : string) | BF_Error (msg : string).

(** [generate_deterministic_seed]: 32 bytes, the first of them the node's
    identity. *)
Definition SEED_SIZE : nat := 32.
Definition NODE_ID_SIZE : nat := 8.
Definition generate_deterministic_seed (entropy : bytes) (node_id : NodeId) : bytes :=
  to_be_bytes node_id ++ take (SEED_SIZE - NODE_ID_SIZE) entropy.

Section boot.
Context {D G : Type} `{Sled D, RngExt G, JsonBytes NodeIdentity, UuidText}.
Context `{Message LogEntry, Message HardState}.
Context `{Message GroceryItem, Message SessionRecord, Message CommittedMutation, Message Timestamp, Message SnapshotData}.
Abbreviation dbs := (st (Databases D) BootFailure) (only parsing).
Abbreviation shell := (ConsensusShell D G (LactoStore D)) (only parsing).

Definition on_system {E A} (m : st D E A) : st (Databases D) E A :=
  st_zoom dbs_system (λ d s, mkDatabases d (dbs_log s) (dbs_fsm s)) m.
Definition on_log {E A} (m : st D E A) : st (Databases D) E A :=
  st_zoom dbs_log (λ d s, mkDatabases (dbs_system s) d (dbs_fsm s)) m.

(** [StdRng::from_seed], and the bytes with which the thread's generator
    fills the rest of a seed. *)
Context (from_seed : bytes → G) (entropy : bytes).

Definition create_deterministic_rng (node_id : NodeId) : G :=
  from_seed (generate_deterministic_seed entropy node_id).

Definition init_identity (config : Config) : dbs NodeIdentity :=
  st_map_err (λ _, BF_Panic "Bootstrap Halt Mandate (ADR 004)") (on_system (initialize_node_identity config)).

(** A handle of the state machine's database. *)
Definition with_fsm (r : result BootFailure unit) (f : LactoStore D) (s : Databases D) :
    result BootFailure (LactoStore D) * Databases D :=
  (_ ← r; Ok f, mkDatabases (dbs_system s) (dbs_log s) (fs_db f)).
Definition open_store : dbs (LactoStore D) := λ s,
  let '(r, f) := Lacto.new (dbs_fsm s) in
  with_fsm (map_err (λ _, BF_Error "Failed to initialize LactoStore") r) f s.
Definition recovery (f : LactoStore D) : dbs (LactoStore D) := λ s,
  let '(r, f') := recover (dbs_log s) f in
  with_fsm (map_err (λ e, match e with
                          | BootPanic msg => BF_Panic msg
                          | BootError _ => BF_Error "Cold-boot recovery failed"
                          end) r) f' s.

(** [init_node_state]: the state machine, the log, the recovery, the node and
    its shell, over the same databases. *)
Definition init_node_state (identity : NodeIdentity) (config : Config) : dbs shell :=
  f ← open_store;
  _ ← st_map_err (λ _, BF_Error "Failed to initialize SledStorage") (on_log SledStorage.new);
  f' ← recovery f;
  storage ← st_gets dbs_log;
  node ← st_lift (map_err (λ _, BF_Error "Failed to initialize LogicalNode")
           (LogicalNode_try_new identity (map_err sm_into (sm_last_applied f')) (calculate_thresholds (cfg_raft config))
              (create_deterministic_rng (node_id identity)) storage));
  st_lift (map_err (λ _, BF_Panic "poisoned") (shell_new node f')).

(** [init_dispatchers], as far as it can fail: the addresses. *)
Definition init_dispatchers (uri_ok : string → bool) (identity : NodeIdentity) (config : Config) :
    result BootFailure PeerManager :=
  pm ← map_err (λ _, BF_Error "Fatal Error during Peer Manager initialization")
         (PeerManager_try_new uri_ok identity (cfg_peers config));
  _ ← map_err (λ _, BF_Error "Failed to parse AI Veto address") (veto_endpoint uri_ok (cfg_policy config));
  Ok pm.

(** [main], up to the server. *)
Definition boot (uri_ok : string → bool) (config : Config) : dbs (NodeIdentity * PeerManager * shell) :=
  identity ← init_identity config;
  c ← init_node_state identity config;
  pm ← st_lift (init_dispatchers uri_ok identity config);
  mret (identity, pm, c).

(** [shutdown_and_flush]. *)
Definition shutdown_and_flush : st (Databases D) SledError unit :=
  _ ← on_system sled_flush;
  _ ← on_log sled_flush;
  st_zoom dbs_fsm (λ d s, mkDatabases (dbs_system s) (dbs_log s) d) sled_flush.
End boot.
