(* ===== verification/BootProps.v ===== *)
(** Properties of a node's start: the identity of a data directory never
    changes, and a node starts on what its disk holds. *)
From S2P Require Import Prelude Machine Types Wire Storage Timing LogSpec Node Engine Consensus Sled SledStore StorageProps NodeProps Fsm FsmSpec FsmProps FsmSnapshot Text Rpc Shell ShellProps Gateway Service Boot.

Section identity.
Context {D : Type} `{SledLaws D, JsonBytesLaws NodeIdentity}.

(** The directory is bound to [i], for reads and on disk. *)
Definition bound_in (ts : trees) (i : NodeIdentity) : Prop :=
  ∃ b, json_from_slice b = Ok i ∧ tree_at ts IDENTITY_TREE !! IDENTITY_KEY = Some b.
Definition bound (d : D) (i : NodeIdentity) : Prop :=
  bound_in (sled_trees d) i ∧ bound_in (sled_disk d) i.
(** Opened, with nothing unwritten. *)
Definition settled (d : D) : Prop :=
  tree_at (sled_disk d) IDENTITY_TREE !! IDENTITY_KEY = tree_at (sled_trees d) IDENTITY_TREE !! IDENTITY_KEY.

Lemma open_tree_settled t d :
  settled d →
  wp (sled_open_tree t)
    (λ _ d', settled d' ∧ tree_at (sled_trees d') IDENTITY_TREE = tree_at (sled_trees d) IDENTITY_TREE)
    (λ _ d', settled d' ∧ tree_at (sled_trees d') IDENTITY_TREE = tree_at (sled_trees d) IDENTITY_TREE) d.
Proof.
  intros Hs. eapply wp_mono; [apply sled_open_tree_law|..]; cbn beta; intros x d' [Ht Hstep].
  - assert (tree_at (sled_trees d') IDENTITY_TREE = tree_at (sled_trees d) IDENTITY_TREE) as Heq.
    { rewrite Ht. destruct (decide (t = IDENTITY_TREE)) as [->|]; [by rewrite tree_at_insert_eq|by rewrite tree_at_insert_ne]. }
    split; [|done]. unfold settled. rewrite Heq. destruct Hstep as [->|[->| ->]]; [done|done|by rewrite Heq].
  - split; [|by rewrite Ht]. unfold settled. destruct Hstep as [->|[->| ->]]; by rewrite ?Ht.
Qed.

Lemma bound_settled d i : bound d i → ∀ j, bound_in (sled_trees d) j → j = i.
Proof. intros [(b & Hb & Hl) _] j (b' & Hb' & Hl'). congruence. Qed.

Lemma initialize_spec config d :
  settled d →
  wp (initialize_node_identity config)
    (λ i d', i = config_identity config ∧ bound d' i ∧ (∀ j, bound_in (sled_trees d) j → j = i))
    (λ e d', (∀ j, bound d j → bound d' j ∧ (e = NI_Storage ∨ j ≠ config_identity config ∧ e = NI_Mismatch j (config_identity config)))) d.
Proof.
  intros Hs. unfold initialize_node_identity, stored_in. wp_step. apply wp_map_err.
  eapply wp_mono; [by apply open_tree_settled|..]; cbn beta.
  2: { intros _ d1 [Hs1 Ht1] j [(b & Hb & Hl) _]. split; [|by left].
       split; exists b; (split; [done|]); rewrite ?Hs1, Ht1; done. }
  intros _ d1 [Hs1 Ht1].
  assert (∀ j, bound_in (sled_trees d) j → bound d1 j) as Hkeep.
  { intros j (b & Hb & Hl). split; exists b; (split; [done|]); [by rewrite Ht1|by rewrite Hs1, Ht1]. }
  wp_step. apply wp_reads; intros o Ho;
    destruct (sled_get IDENTITY_TREE IDENTITY_KEY d1) as [x|] eqn:Hget; try done; injection Ho as <-.
  2: { intros j [Hj _]. split; [by apply Hkeep|by left]. }
  apply sled_get_law in Hget. rewrite Ht1 in Hget. destruct x as [data|].
  - (* the identity on disk *)
    wp_step. apply wp_lift; intros y Hy; destruct (json_from_slice data) as [existing|] eqn:Hdec; try done;
      injection Hy as <-.
    2: { intros j [(b & Hb & Hl) _]. congruence. }
    assert (bound_in (sled_trees d) existing) as Hb by (by exists data).
    destruct (negb (bool_decide (cluster_id existing = cfg_cluster_id config)) ||
      negb (bool_decide (node_id existing = cfg_node_id config))) eqn:Hne.
    + apply wp_fail. intros j [Hj _]. split; [by apply Hkeep|]. right.
      assert (j = existing) as -> by (destruct Hj as (b & Hb' & Hl'), Hb as (b2 & Hb2 & Hl2); congruence).
      split; [|done]. intros Heq. subst existing.
      rewrite !bool_decide_eq_true_2 in Hne by done. done.
    + apply orb_false_iff in Hne as [Hc Hn]. apply negb_false_iff, bool_decide_eq_true_1 in Hc, Hn.
      apply wp_ret. split_and!; [by destruct existing; cbn in *; subst|by apply Hkeep|].
      intros j (b & Hb' & Hl'). destruct Hb as (b2 & Hb2 & Hl2). congruence.
  - (* a new identity *)
    assert (∀ j, ¬ bound_in (sled_trees d) j) as Hnone by (intros j (b & Hb & Hl); congruence).
    wp_step. apply wp_lift; intros data Hdata; destruct (json_to_vec (config_identity config)) as [b|] eqn:Henc;
      try done; injection Hdata as <-.
    2: { intros j [Hj _]. by destruct (Hnone j). }
    wp_step. apply wp_map_err. eapply wp_mono; [apply sled_insert_law|..]; cbn beta.
    2: { intros _ d2 _ j [Hj _]. by destruct (Hnone j). }
    intros _ d2 [Ht2 _]. wp_step. apply wp_map_err. eapply wp_mono; [apply sled_flush_law|..]; cbn beta.
    2: { intros _ d3 _ j [Hj _]. by destruct (Hnone j). }
    intros _ d3 [Ht3 Hd3]. apply wp_ret.
    assert (bound_in (sled_trees d2) (config_identity config)) as Hb.
    { exists b. split; [by apply json_bytes_roundtrip|]. rewrite Ht2. unfold apply_tree_op. cbn.
      rewrite tree_at_insert_eq. by rewrite lookup_insert_eq. }
    split_and!; [done|split; [by rewrite Ht3|by rewrite Hd3]|]. intros j Hj. by destruct (Hnone j).
Qed.

(** The starts of one data directory, each under its own configuration, with
    a crash or a shutdown after each. *)
Inductive starts : D → list (Config * result NodeIdentityError NodeIdentity) → D → Prop :=
| starts_nil d : starts d [] d
| starts_cons config r d d1 d2 l d3 :
    initialize_node_identity config d = (r, d1) → sled_reopened d1 d2 → starts d2 l d3 →
    starts d ((config, r) :: l) d3.

Lemma reopened_settled d d' : sled_reopened d d' → settled d'.
Proof. intros [Ht Hd]. unfold settled. by rewrite Ht, Hd. Qed.
Lemma reopened_bound d d' i : bound d i → sled_reopened d d' → bound d' i.
Proof. intros [_ Hb] [Ht Hd]. split; [by rewrite Ht|by rewrite Hd]. Qed.

Lemma starts_bound d l d' i :
  starts d l d' → settled d → bound d i →
  Forall (λ p, match p.2 with
               | Ok j => j = i ∧ config_identity p.1 = i
               | Err e => e = NI_Storage ∨ config_identity p.1 ≠ i ∧ e = NI_Mismatch i (config_identity p.1)
               end) l.
Proof.
  intros Hst. induction Hst as [|config r d d1 d2 l d3 Hrun Hre Hst IH]; intros Hs Hb; [constructor|].
  pose proof (wp_run _ _ _ _ _ _ (initialize_spec config d Hs) Hrun) as Hpost. destruct r as [j|e].
  - destruct Hpost as (Hj & Hbj & Hall). assert (i = j) as -> by (apply Hall; apply Hb).
    constructor; [by subst|]. apply IH; [by eapply reopened_settled|by eapply reopened_bound].
  - destruct (Hpost i Hb) as [Hb1 He]. constructor; [cbn; naive_solver|].
    apply IH; [by eapply reopened_settled|by eapply reopened_bound].
Qed.

(** C25: A data directory belongs to one node.  Over any series of starts of a
    directory, each under any configuration and each ended by a crash, once a
    start has returned an identity every later start returns that identity,
    under a configuration that names it, or refuses: with a mismatch when the
    configuration names another, or with an error of the disk. *)
Theorem identity_immutable d config l1 l2 i d' :
  settled d → starts d (l1 ++ (config, Ok i) :: l2) d' →
  i = config_identity config ∧
  Forall (λ p, match p.2 with
               | Ok j => j = i ∧ config_identity p.1 = i
               | Err e => e = NI_Storage ∨ config_identity p.1 ≠ i ∧ e = NI_Mismatch i (config_identity p.1)
               end) l2.
Proof.
  revert d. induction l1 as [|p l1 IH]; intros d Hs Hst; inversion Hst as [|? ? ? d1 d2 ? ? Hrun Hre Hrest]; subst.
  - pose proof (wp_run _ _ _ _ _ _ (initialize_spec config d Hs) Hrun) as (Hi & Hb & _). split; [done|].
    eapply starts_bound; [exact Hrest|by eapply reopened_settled|by eapply reopened_bound].
  - eapply IH; [by eapply reopened_settled|exact Hrest].
Qed.
End identity.

(** ** The cold boot *)

(** Two nodes never start their generators from the same seed, whatever the
    entropy: a split vote is not repeated by identical timeouts. *)
Theorem seeds_differ e e' a b :
  valid_node_id a → valid_node_id b → a ≠ b →
  generate_deterministic_seed e a ≠ generate_deterministic_seed e' b.
Proof.
  intros Ha Hb Hne Heq. unfold generate_deterministic_seed in Heq.
  apply app_inj_1 in Heq as [Heq _]; [|by rewrite !length_to_be_bytes].
  apply Hne. apply to_be_bytes_inj in Heq; [done|apply Ha|apply Hb].
Qed.

Section cold_boot.
Context {D G : Type} `{SledLaws D, RngLaws G, UuidText}.
Context `{Message LogEntry, Message HardState, !MessageLaws LogEntry, !MessageLaws HardState}.
Context `{Message GroceryItem, Message SessionRecord, Message CommittedMutation, Message Timestamp, Message SnapshotData}.
Context `{!MessageLaws GroceryItem, !MessageLaws SessionRecord, !MessageLaws CommittedMutation, !MessageLaws Timestamp, !MessageLaws SnapshotData}.
Context (from_seed : bytes → G) (entropy : bytes).

Lemma open_tree_at ts t t' : tree_at (<[t := tree_at ts t]> ts) t' = tree_at ts t'.
Proof. destruct (decide (t = t')) as [->|]; [by rewrite tree_at_insert_eq|by rewrite tree_at_insert_ne]. Qed.
Lemma storage_new_repr (d : D) v : repr d v → wp SledStorage.new (λ _ d', repr d' v) (λ _ _, True) d.
Proof.
  assert (∀ ts t, trees_repr ts v → trees_repr (<[t := tree_at ts t]> ts) v) as Hopen.
  { intros ts t. unfold trees_repr. by rewrite !open_tree_at. }
  intros Hv. unfold SledStorage.new, SledStorage.persistent. wp_step. apply wp_map_err.
  eapply wp_mono; [apply sled_open_tree_law| |done]. intros _ d1 [Ht1 _]. apply wp_map_err.
  eapply wp_mono; [apply sled_open_tree_law| |done]. intros _ d2 [Ht2 _].
  change (trees_repr (sled_trees d2) v). rewrite Ht2, Ht1. by do 2 apply Hopen.
Qed.

Lemma last_applied_exact (f : LactoStore D) w a : holds f w → sm_last_applied f = Ok a → a = fv_applied w.
Proof.
  intros Hw. cbn. unfold Lacto.last_applied_index, Lacto.reads, mbind, st_bind, Lacto.check_not_poisoned, st_reads.
  destruct (fs_poisoned f); [done|]. cbn. pose proof (read_applied_law (fs_db f) w Hw) as Hl.
  destruct (Lacto.read_applied (fs_db f)); [|done]. cbn. intros [= <-]. done.
Qed.

(** C24: A node starts on what its disk holds.  When the cold boot returns, under
    a configuration that validation accepts, on a log that holds [v] and a state-machine database that holds [w], the node
    is a follower under its identity, over the same log, with the commit index
    of the disk and everything committed applied; its state machine holds [w]
    with exactly the missing committed entries replayed on it, nothing is
    frozen or in flight, and the watchers see the node's progress. *)
Theorem boot_state identity config (s s' : Databases D) (c : ConsensusShell D G (LactoStore D)) v w ms :
  RaftConfig_validate (cfg_raft config) = Ok tt →
  repr (dbs_log s) v → fsm_repr (sled_trees (dbs_fsm s)) w →
  decodes (le_data <$> lv_range v (fv_applied w + 1) (lv_committed v)) ms →
  init_node_state from_seed entropy identity config s = (Ok c, s') →
  ∃ m w', ln_state (sh_node c) = RS_Follower m ∧ rn_identity m = identity ∧
    rn_last_committed m = lv_committed v ∧ rn_last_applied m = lv_committed v ∧
    repr (ln_store (sh_node c)) v ∧
    fsm_replay ms w = Ok w' ∧ holds (sh_fsm c) w' ∧ fv_applied w' = lv_committed v ∧
    sh_freeze_depth c = 0 ∧ sh_in_flight c = ∅ ∧ published c.
Proof.
  intros Hcfg Hv Hw Hdec. unfold init_node_state, open_store, recovery, with_fsm, mbind, st_bind.
  destruct (Lacto.new (dbs_fsm s)) as [r f] eqn:Hnew. destruct r as [[]|]; cbn; [|done].
  destruct (new_spec _ _ _ Hnew eq_refl) as (Hpf & Hhf & _). specialize (Hhf w Hw).
  unfold st_map_err, on_log, st_zoom. cbn.
  destruct (SledStorage.new (dbs_log s)) as [[[]|] l] eqn:Hlog; cbn; [|done].
  pose proof (wp_run _ _ _ _ _ _ (storage_new_repr _ _ Hv) Hlog) as Hl.
  destruct (recover l f) as [r f'] eqn:Hrec. destruct r as [[]|e]; cbn; [|by destruct e].
  assert (∃ a, sm_last_applied f = Ok a) as [a Ha].
  { unfold recover, mbind, st_bind, st_reads in Hrec. destruct (sm_last_applied f); [by eexists|done]. }
  pose proof (last_applied_exact _ _ _ Hhf Ha) as ->.
  destruct (wp_run _ _ _ _ _ _ (recover_view l v f _ Hl Ha) Hrec) as (Hle & Hrange & Hfeed).
  pose proof (lv_range_run v _ _ (vo_log _ (repr_ok _ _ Hl)) Hrange ltac:(lia)) as Hrun.
  rewrite (feed_apply_all _ _ Hrun) in Hfeed.
  destruct (apply_all_replay _ ms _ f w f' Hdec Hpf Hhf eq_refl Hfeed) as (Hpf' & w' & Hw' & Hh').
  unfold st_gets, st_lift. cbn.
  destruct (LogicalNode_try_new identity _ _ _ l) as [node|] eqn:Htry; cbn; [|done].
  assert (∃ a, sm_last_applied f' = Ok a) as [a Ha'].
  { cbn. unfold LogicalNode_try_new in Htry. cbn in Htry.
    destruct (generate_election_timeout _ _). destruct (Lacto.last_applied_index f') as [[x|] ?]; [by eexists|done]. }
  pose proof (last_applied_exact _ _ _ Hh' Ha') as ->.
  assert (min_election (calculate_thresholds (cfg_raft config)) ≤ max_election (calculate_thresholds (cfg_raft config))) as Hth.
  { apply RaftConfig_validate_Ok in Hcfg as (? & _ & _ & _ & ?). cbn. apply div_ceil_le; lia. }
  cbn in Ha'. rewrite Ha' in Htry. cbn [map_err] in Htry.
  destruct (try_new_view identity _ _ _ l v _ Hl Hth Htry) as [Hok _].
  destruct (Hok node eq_refl) as (_ & m & Hst & Hcm & Hap & Hid & _).
  assert (ln_store node = l) as Hstore.
  { unfold LogicalNode_try_new, mbind, result_bind in Htry. destruct (generate_election_timeout _ _). cbn in Htry.
    destruct (node_read SledStorage.last_committed l); [|done]. destruct (_ <? _); [done|].
    destruct (try_new_with_applied _ _ _ _ _) as [[]?]; cbn in Htry; [|done]. by injection Htry as <-. }
  assert (fv_applied w' = lv_committed v) as Happ.
  { rewrite (fsm_replay_applied _ _ _ Hw'), <-(Forall2_length Hdec), length_fmap, lv_range_length by (done || lia). lia. }
  unfold shell_new, consensus_progress, mbind, st_bind, st_gets.
  destruct (try_consensus_progress node) as [p|e] eqn:Hp; [|done]. cbn. intros [= <- <-].
  exists m, w'. cbn. rewrite Hstore. split_and!; try done; [by rewrite Hap|].
  unfold published. cbn. unfold is_poisoned. by rewrite Hst.
Qed.
End cold_boot.

(** ** Concrete starts *)
From S2P Require Import Concrete.
Import FsmExample.

Module BootExample.
#[export] Instance NodeIdentity_countable : Countable NodeIdentity.
Proof. by refine (inj_countable' (λ i, (cluster_id i, node_id i)) (λ '(c, n), mkIdentity c n) _); intros []. Defined.
#[export] Instance identity_json : JsonBytes NodeIdentity := {|
  json_to_vec i := Ok (BitCodec.pos_bits (encode i));
  json_from_slice b := ok_or json_failure (decode (BitCodec.bits_pos b));
|}.
#[export] Instance identity_json_laws : JsonBytesLaws NodeIdentity.
Proof. intros i b [= <-]. cbn. by rewrite BitCodec.bits_pos_bits, decode_encode. Qed.

Definition config_of (id : NodeId) : Config := mkConfig "cluster" id ∅ RaftConfig_default PolicyConfig_default.
Definition seed (_ : bytes) : unit := tt.
(** A process that stops: the database is opened again from its disk. *)
Definition reopen (d : MemSled.db) : MemSled.db := MemSled.mkDb (MemSled.ms_disk d) (MemSled.ms_disk d) true.
End BootExample.
Import BootExample.

Definition first_start : MemSled.db := reopen (initialize_node_identity (config_of 2) MemSled.empty).2.
Definition second_start : MemSled.db := reopen (initialize_node_identity (config_of 3) first_start).2.
Lemma two_starts :
  starts MemSled.empty
    ([] ++ (config_of 2, Ok (mkIdentity "cluster" 2))
        :: [(config_of 3, Err (NI_Mismatch (mkIdentity "cluster" 2) (mkIdentity "cluster" 3)))]) second_start.
Proof.
  eapply (starts_cons (config_of 2) _ _ (initialize_node_identity (config_of 2) MemSled.empty).2 first_start).
  - apply run_result. by vm_compute.
  - done.
  - eapply (starts_cons (config_of 3) _ _ (initialize_node_identity (config_of 3) first_start).2 second_start).
    + apply run_result. by vm_compute.
    + done.
    + constructor.
Qed.
Lemma identity_immutable_witness :
  mkIdentity "cluster" 2 = config_identity (config_of 2).
Proof.
  destruct (identity_immutable MemSled.empty (config_of 2) []
    [(config_of 3, Err (NI_Mismatch (mkIdentity "cluster" 2) (mkIdentity "cluster" 3)))]
    (mkIdentity "cluster" 2) second_start) as [Hi _]; [reflexivity|exact two_starts|exact Hi].
Defined.

(** A log of three committed entries beside an empty state machine. *)
Definition disks : Databases MemSled.db := mkDatabases MemSled.empty fed MemSled.empty.
Definition started_up := init_node_state seed [] (mkIdentity "cluster" 2) (config_of 2) disks.
Definition started_shell : Shell := match started_up.1 with Ok c => c | Err _ => idle_shell end.
Lemma boot_state_witness :
  ∃ m w', ln_state (sh_node started_shell) = RS_Follower m ∧ rn_last_applied m = 3 ∧
          holds (sh_fsm started_shell) w' ∧ fv_applied w' = 3.
Proof.
  destruct (boot_state seed [] (mkIdentity "cluster" 2) (config_of 2) disks started_up.2 started_shell fed_view
    empty_fsm muts) as (m & w' & Hst & _ & _ & Hap & _ & _ & Hh & Hw & _).
  - reflexivity.
  - exact fed_repr.
  - exact (blank_holds).
  - exact fed_decodes.
  - apply run_result. assert (is_ok started_up.1 = true) as Hok by (by vm_compute).
    change (started_up.1 = Ok started_shell). unfold started_shell. by destruct (started_up.1).
  - exists m, w'. split_and!; [exact Hst|exact Hap|exact Hh|exact Hw].
Defined.
