(* ===== verification/RaftLacto.v ===== *)
(** The grocery ledger as a state machine of the cluster, and a run of three
    nodes: an election, a proposal that is replicated and committed, a crash,
    and the properties of the replicated log at its states. *)
From S2P Require Import Prelude Machine Types Wire Storage Timing Node Engine Consensus VoteSpec LogSpec Election EngineSpec Cluster NodeProps Sled SledStore Fsm FsmSpec FsmProps FsmSnapshot Concrete Shell ShellProps Service Rounds Raft RaftLog RaftSpec RaftLead RaftTasks RaftCluster RaftProps RaftLedger BootProps.

Section lacto.
Context {D : Type} `{SledLaws D, UuidText}.
Context `{Message GroceryItem, Message SessionRecord, Message CommittedMutation, Message Timestamp, Message SnapshotData}.
Context `{!MessageLaws GroceryItem, !MessageLaws SessionRecord, !MessageLaws CommittedMutation, !MessageLaws Timestamp, !MessageLaws SnapshotData}.
Implicit Types (f : LactoStore D) (w : FsmView).

(** What [decode_msg] yields is a value of its type. *)
Definition decodes_typed : Prop := ∀ data (m : CommittedMutation), decode_msg data = Ok m → wire_ok m.

Definition lacto_next (i : LogIndex) (data : bytes) w : option FsmView :=
  match decode_msg (M:=CommittedMutation) data with
  | Ok m => ok (fsm_step i m w)
  | Err _ => None
  end.
Definition lacto_reopened f f' : Prop := ∃ d, sled_reopened (fs_db f) d ∧ Lacto.new d = (Ok tt, f').

Lemma open_keeps t (d : D) w :
  fsm_repr (sled_trees d) w → fsm_repr (sled_disk d) w →
  wp (sled_open_tree t) (λ _ d', fsm_repr (sled_trees d') w ∧ fsm_repr (sled_disk d') w) (λ _ _, True) d.
Proof.
  intros Ht Hd. eapply wp_mono; [apply sled_open_tree_law| |done]; cbn beta. intros _ d' [Ht' Hd'].
  assert (fsm_repr (sled_trees d') w) as Hr by (rewrite Ht'; by apply open_tree_repr).
  split; [done|]. by destruct Hd' as [->|[->| ->]].
Qed.
Lemma new_keeps (d : D) w f :
  fsm_repr (sled_trees d) w → fsm_repr (sled_disk d) w → Lacto.new d = (Ok tt, f) →
  fs_poisoned f = false ∧ holds f w ∧ stored f w.
Proof.
  intros Ht Hd Hrun. destruct (new_spec _ _ _ Hrun eq_refl) as (Hp & Hh & _). split_and!; [done|by apply Hh|].
  revert Hrun. unfold Lacto.new. apply (wp_run Lacto.new_body (λ _ s, stored s w) (λ _ _, True) _ (Ok tt)).
  unfold Lacto.new_body. wp_step. apply wp_writes. eapply wp_mono; [by apply open_keeps| |done]. intros _ d1 [Ht1 Hd1].
  wp_step. apply wp_writes. eapply wp_mono; [by apply open_keeps| |done]. intros _ d2 [Ht2 Hd2].
  wp_step. apply wp_writes. eapply wp_mono; [by apply open_keeps| |done]. intros _ d3 [Ht3 Hd3].
  wp_step. apply wp_reads; [|done]. intros stale Hstale. cbn [fs_db Lacto.set_db] in Hstale.
  assert (stale = false) as ->; [|by apply wp_ret].
  unfold Lacto.is_restoration_stale, Lacto.persistence, mbind, result_bind in Hstale.
  destruct (sled_get Lacto.TREE_META _ d3) as [o|] eqn:Hget; cbn in Hstale; [|done].
  apply sled_get_law in Hget as ->. injection Hstale as <-.
  pose proof (mr_clean _ _ (fr_meta _ _ Ht3)) as Hclean.
  destruct (_ !! Lacto.KEY_RESTORE_IN_PROGRESS); [apply bool_decide_eq_false; congruence|done].
Qed.

Lemma lacto_apply i data f w :
  decodes_typed → fs_poisoned f = false → holds f w → stored f w →
  wp (Lacto.apply i data)
    (λ _ f', ∃ w', lacto_next i data w = Some w' ∧ (fs_poisoned f' = false ∧ holds f' w') ∧ stored f' w')
    (λ _ f', ∃ w', (w' = w ∨ lacto_next i data w = Some w') ∧ stored f' w') f.
Proof.
  intros Htyped Hp Hh Hst. unfold lacto_next. destruct (decode_msg data) as [m|e] eqn:Hdec.
  - eapply wp_mono; [by apply (apply_spec i data m f w Hdec (Htyped _ _ Hdec))|..]; cbn beta.
    + intros _ f' (w' & -> & ? & ? & ?). by exists w'.
    + intros e f' [(_ & Hdb & _)|(_ & _ & _ & Hkeep)].
      * exists w. split; [by left|]. unfold stored. by rewrite Hdb.
      * destruct (Hkeep Hst) as [?|(w' & -> & ?)]; [by exists w; split; [left|]|by exists w'; split; [right|]].
  - unfold Lacto.apply. wp_step. apply wp_check_not_poisoned; [done|]. wp_step. apply wp_lift; intros x Hx.
    + by rewrite Hdec in Hx.
    + exists w. split; [by left|done].
Qed.

#[program] Definition lacto_ledger (Htyped : decodes_typed) : Ledger (LactoStore D) := {|
  ledger := FsmView;
  ledger_new := empty_fsm;
  ledger_at := fv_applied;
  ledger_next := lacto_next;
  ledger_holds f w := fs_poisoned f = false ∧ holds f w;
  ledger_stored := stored;
  ledger_reopened := lacto_reopened;
|}.
Next Obligation.
  intros _ i data w w'. unfold lacto_next. destruct (decode_msg data) as [m|]; [|done].
  destruct (fsm_step i m w) as [w1|] eqn:Hs; [|done]. intros [= <-].
  destruct (fsm_step_cases _ _ _ _ Hs) as [Hi [[_ ->]|(_ & id & st & t & _ & _ & _ & ->)]]; cbn; by split.
Qed.
Next Obligation. intros Htyped i data f w [Hp Hh] Hst. by apply lacto_apply. Qed.
Next Obligation. intros _ f w i [_ Hh] Hi. by eapply last_applied_exact. Qed.
Next Obligation.
  intros _ f f' w (d & [Ht Hd] & Hnew) Hst.
  destruct (new_keeps d w f') as (? & ? & ?); [by rewrite Ht|by rewrite Hd|done|done].
Qed.
Next Obligation. done. Qed.

(** Replaying the entries is replaying their mutations. *)
Lemma replay_mutations (Htyped : decodes_typed) i l w w' :
  replay_from (H0:=lacto_ledger Htyped) i l w = Some w' → i = fv_applied w + 1 →
  ∃ ms, Forall2 (λ e m, decode_msg (le_data e) = Ok m) l ms ∧ fsm_replay ms w = Ok w'.
Proof.
  revert i w. induction l as [|e l IH]; intros i w; cbn; [intros [= ->] _; by exists []|].
  destruct (lacto_next i (le_data e) w) as [w1|] eqn:Hn; [|done]. cbn. intros Hl ->.
  destruct (ledger_next_at (Ledger:=lacto_ledger Htyped) _ _ _ _ Hn) as [_ Hat]. cbn in Hat.
  unfold lacto_next in Hn. destruct (decode_msg (le_data e)) as [m|] eqn:Hm; [|done].
  destruct (IH _ _ Hl) as (ms & Hms & Hr); [by rewrite Hat|]. exists (m :: ms). split; [by constructor|]. cbn.
  destruct (fsm_step _ m w) as [w2|]; [|done]. by injection Hn as ->.
Qed.

(** ** The grocery ledgers of a cluster *)

Context {S G : Type} `{LogStorageLaws S} `{RngExt G} (members : gset N).
Implicit Types (C : rcluster S G (LactoStore D)) (c : ConsensusShell S G (LactoStore D)).

(** Every node starts on an empty inventory, without sessions. *)
Definition fresh_ledgers C : Prop :=
  ∀ id c, rc_shells C !! id = Some c →
    fs_poisoned (sh_fsm c) = false ∧ holds (sh_fsm c) empty_fsm ∧ stored (sh_fsm c) empty_fsm.

(** C3: Replicated state machine, without snapshots.  In every run of the
    cluster in which no node compacts its log, and so none probes for, sends or
    installs a snapshot, through any interleaving of the other tasks, lost,
    delayed or repeated messages, disk failures, halts, crashes and restarts
    from the disk, two nodes, the one at any time, the other at that time or
    later, whose ledgers have applied the same number of entries hold the same
    inventory, the same sessions and the same clock.  A ledger that is caught
    up by a snapshot is outside this theorem. *)
Theorem replicated_ledgers_agree C0 C C' p p' c c' k :
  decodes_typed →
  rc_initial members C0 → fresh_ledgers C0 →
  rtc (rcstep members lacto_reopened) C0 C → rtc (rcstep members lacto_reopened) C C' →
  rc_shells C !! p = Some c → rc_shells C' !! p' = Some c' →
  is_poisoned (sh_node c) = false → is_poisoned (sh_node c') = false →
  sm_last_applied (sh_fsm c) = Ok k → sm_last_applied (sh_fsm c') = Ok k →
  ∃ w, holds (sh_fsm c) w ∧ holds (sh_fsm c') w ∧ fv_applied w = k.
Proof.
  intros Htyped Hinit Hfresh Hs Hs' Hc Hc' Hp Hp' Hk Hk'.
  destruct (ledgers_agree (HLedger:=lacto_ledger Htyped) members C0 C C' p p' c c' k) as (w & [_ ?] & [_ ?] & ?);
    [done| |done..|by exists w].
  intros id c0 Hc0. destruct (Hfresh _ _ Hc0) as (? & ? & ?). by split.
Qed.

(** C5: An acknowledged mutation is applied, without snapshots.  Node [p] has
    accepted the mutation [mut] at index [i] in term [t]; later, still leading
    in [t], it has committed [i].  From then on, in a run in which no node
    compacts its log, and so none probes for, sends or installs a snapshot,
    every healthy ledger of the cluster that has applied as far is the replay
    of a sequence of mutations with [mut] at [i]: the session of its client has
    reached its number, and what it has seen of any client starts at 1 and has
    no gap. *)
Theorem acknowledged_mutation_applied C0 C C2 C3 p c c1 c2 m t i mut q c3 k :
  decodes_typed → rc_initial members C0 → fresh_ledgers C0 →
  rtc (rcstep members lacto_reopened) C0 C → rc_shells C !! p = Some c →
  wire_ok mut → Forall is_byte (encode_to_vec mut) →
  handle_propose (encode_to_vec mut) c = (Ok (Ok i), c1) → current_term (ln_store (sh_node c1)) = Ok t →
  rtc (rcstep members lacto_reopened) (mkRC (<[p := c1]> (rc_shells C)) (rc_issued C)) C2 →
  rc_shells C2 !! p = Some c2 → ln_state (sh_node c2) = RS_Leader m →
  current_term (ln_store (sh_node c2)) = Ok t → i ≤ rn_last_committed m →
  rtc (rcstep members lacto_reopened) C2 C3 → rc_shells C3 !! q = Some c3 →
  is_poisoned (sh_node c3) = false → sm_last_applied (sh_fsm c3) = Ok k → i ≤ k →
  ∃ ms w, holds (sh_fsm c3) w ∧ fsm_replay ms empty_fsm = Ok w ∧ N.of_nat (length ms) = k ∧
    ms !! N.to_nat (i - 1) = Some mut ∧ cm_sequence_id mut ≤ last_seen w (cm_client_id mut) ∧
    ∀ client, gap_free ms client (last_seen w client).
Proof.
  intros Htyped Hinit Hfresh Hs Hc Hmut Hbytes Hrun Ht1 Hs2 Hc2 Hst Ht2 Hi2 Hs3 Hc3 Hp3 Hk Hik.
  assert (ledgers_start (HLedger:=lacto_ledger Htyped) C0) as Hstart.
  { intros id c0 Hc0. destruct (Hfresh _ _ Hc0) as (? & ? & ?). by split. }
  destruct (acknowledged_replayed (HLedger:=lacto_ledger Htyped) members C0 C C2 C3 p c c1 c2 m t i (encode_to_vec mut) q c3 k)
    as (l & e & w & Hl & [_ Hh] & Hlen & He & Hdata); [done..|].
  destruct (replay_mutations Htyped _ _ _ _ Hl eq_refl) as (ms & Hms & Hr).
  destruct (Forall2_lookup_l _ _ _ _ _ Hms He) as (m' & Hm' & Hdec). cbn beta in Hdec.
  rewrite Hdata, decode_encode_to_vec in Hdec by done. injection Hdec as <-.
  exists ms, w. split_and!; [done|done|by rewrite <-(Forall2_length Hms)|done| |].
  - destruct (fsm_replay_last_seen ms _ _ "" Hr) as [_ Hseen]. apply Hseen. by eapply list_elem_of_lookup_2.
  - apply (fsm_replay_gap_free [] ms empty_fsm w); [|done]. intros client.
    unfold last_seen. cbn. rewrite lookup_empty. cbn. split; [by intros ? ?%elem_of_nil|lia].
Qed.
End lacto.
