(* ===== verification/RaftExample.v ===== *)
(** A run of three nodes over the concrete interfaces: an election, two
    proposals, their replication and commitment, their application to the
    ledgers, the crash and restart of a follower and its election.  The
    properties of the replicated log and of the replicated ledgers are taken
    at the states of this run. *)
From S2P Require Import Prelude Machine Types Wire Storage Timing Node Engine Consensus Cluster Sled SledStore Fsm FsmSpec FsmProps Concrete NodeProps Shell Service Rounds RaftTasks RaftRuns RaftProps RaftLacto.

(** ** Messages

    The bit codec, which accepts the values of the message's type only. *)
#[export] Instance uuid_text : UuidText := λ s, if (String.length s =? 36)%nat then Some s else None.

#[export] Instance time_ok_dec o : Decision (time_ok o).
Proof. destruct o; apply _. Defined.
#[export] Instance item_ok_dec (m : GroceryItem) : Decision (wire_ok m).
Proof. unfold wire_ok, GroceryItem_ok. apply _. Defined.
#[export] Instance mutation_ok_dec (m : CommittedMutation) : Decision (wire_ok m).
Proof. unfold wire_ok, CommittedMutation_ok. apply _. Defined.
#[export] Instance item_message : Message GroceryItem := BitCodec.codec GroceryItem.
#[export] Instance session_message : Message SessionRecord := BitCodec.codec SessionRecord.
#[export] Instance time_message : Message Timestamp := BitCodec.codec Timestamp.
#[export] Instance snapshot_message : Message SnapshotData := BitCodec.codec SnapshotData.
#[export] Instance mutation_message : Message CommittedMutation := {|
  encode_to_vec m := encode_to_vec (Message:=BitCodec.codec CommittedMutation) m;
  decode_msg b :=
    m ← decode_msg (Message:=BitCodec.codec CommittedMutation) b;
    if decide (wire_ok m) then Ok m else Err decode_error;
|}.
#[export] Instance item_laws : MessageLaws GroceryItem := BitCodec.codec_laws GroceryItem.
#[export] Instance session_laws : MessageLaws SessionRecord := BitCodec.codec_laws SessionRecord.
#[export] Instance time_laws : MessageLaws Timestamp := BitCodec.codec_laws Timestamp.
#[export] Instance snapshot_laws : MessageLaws SnapshotData := BitCodec.codec_laws SnapshotData.
#[export] Instance mutation_laws : MessageLaws CommittedMutation.
Proof.
  intros m Hm. cbn. rewrite BitCodec.bits_pos_bits, decode_encode. cbn. by rewrite decide_True.
Qed.
Lemma mutations_typed : decodes_typed.
Proof.
  intros data m. cbn. destruct (decode _); cbn; [|done]. destruct (decide _); [|done]. by intros [= <-].
Qed.

(** ** Scripts *)

Module Play.
Abbreviation Shell := (ConsensusShell DB unit (LactoStore DB)).
Abbreviation cluster := (rcluster DB unit (LactoStore DB)).
Definition members : gset N := {[1; 2; 3]}.

#[export] Instance params_eq_dec : EqDecision ElectionCampaignParams.
Proof. solve_decision. Defined.
#[export] Instance round_eq_dec : EqDecision ReplicationRoundParams.
Proof. solve_decision. Defined.
#[export] Instance vote_response_eq_dec : EqDecision RequestVoteResponse.
Proof. solve_decision. Defined.
#[export] Instance vote_reply_eq_dec : EqDecision VoteReply.
Proof. solve_decision. Defined.
#[export] Instance append_request_eq_dec : EqDecision AppendEntriesRequest.
Proof. solve_decision. Defined.
#[export] Instance append_response_eq_dec : EqDecision AppendEntriesResponse.
Proof. solve_decision. Defined.
#[export] Instance sent_eq_dec : EqDecision SentAppend.
Proof. solve_decision. Defined.
#[export] Instance item_eq_dec : EqDecision item.
Proof. solve_decision. Defined.
#[export] Instance can_apply_dec next (c : Shell) : Decision (can_apply next c).
Proof.
  destruct (role_committed (ln_state (sh_node c))) as [k|] eqn:Hk.
  - refine (cast_if (decide (next ≤ k))); abstract (unfold can_apply; naive_solver).
  - right. abstract (unfold can_apply; naive_solver).
Defined.
#[export] Instance task_ok_dec (C : cluster) id c t : Decision (task_ok members C id c t).
Proof. destruct t; cbn; apply _. Defined.

(** One task of a node, when it may run. *)
Definition play1 (C : cluster) (id : NodeId) (t : task) : option cluster :=
  c ← rc_shells C !! id;
  if decide (task_ok members C id c t) then
    let '(r, c') := run_task members id t c in
    Some (mkRC (<[id := c']> (rc_shells C)) (default [] (ok r) ++ rc_issued C))
  else None.
Fixpoint play (C : cluster) (script : list (NodeId * task)) : option cluster :=
  match script with
  | [] => Some C
  | (id, t) :: rest => C' ← play1 C id t; play C' rest
  end.
Lemma play_steps C script C' : play C script = Some C' → rtc (rcstep members lacto_reopened) C C'.
Proof.
  revert C. induction script as [|[id t] rest IH]; intros C; cbn; [by intros [= ->]|].
  destruct (play1 C id t) as [C1|] eqn:H1; [|done]. cbn. intros Hrest. eapply rtc_l; [|by apply IH].
  revert H1. unfold play1. destruct (rc_shells C !! id) as [c|] eqn:Hc; [|done]. cbn.
  destruct (decide _) as [Hok|]; [|done]. destruct (run_task members id t c) as [r c'] eqn:Hrun.
  intros [= <-]. by eapply RC_task.
Qed.

(** ** The run *)
Definition alice : string := "0a1b2c3d-0000-4000-8000-000000000001".
Definition milk (seq : N) (qty : string) (t : Z) : CommittedMutation :=
  mkCommittedMutation "whole_milk" "Whole Milk" qty "ml" "ml" "Dairy" alice seq "milk" "calcium"
    (Some (mkTimestamp t 0)) false 1.
Definition first : bytes := encode_to_vec (milk 1 "1000" 50).
Definition second : bytes := encode_to_vec (milk 2 "500" 60).

Definition blank : LactoStore DB := mkLactoStore MemSled.empty false.
Definition begins (id : NodeId) : Shell := mkShell (fresh id) (mkProgress 0 NR_Follower 0 0 0 None 0) 0 ∅ blank.
Definition C0 : cluster := mkRC {[1 := begins 1; 2 := begins 2; 3 := begins 3]} [].

(** Node 1 is elected by node 2 and accepts two mutations. *)
Definition campaign : ElectionCampaignParams := mkCampaignParams 1 1 0 0.
Definition election : list (NodeId * task) :=
  [(1, TPreVoteWon); (2, TVote campaign);
   (1, TVoteReply (mkVoteReply 2 1 1 (RequestVoteResponse_new 1 true)))].
Definition proposals : list (NodeId * task) := [(1, TPropose first); (1, TPropose second); (1, TProbe)].
Definition sent_entries : SentAppend :=
  mkSent 1 2 (AppendEntriesRequest_new 1 1 0 0 [LogEntry_new 1 1 first; LogEntry_new 2 1 second] 0).
Definition replication : list (NodeId * task) :=
  [(1, TStrategy 2 (mkRoundParams 1 1 0)); (2, TAppend sent_entries);
   (1, TReply sent_entries (AppendEntriesResponse_new 1 true 2));
   (1, TFeed 1); (1, THorizon 1); (1, TFeed 2); (1, THorizon 2)].

(** The next round tells node 2 what is committed. *)
Definition sent_commit : SentAppend := mkSent 1 2 (AppendEntriesRequest_new 1 1 2 1 [] 2).
Definition commitment : list (NodeId * task) :=
  [(1, TProbe); (1, TStrategy 2 (mkRoundParams 1 1 2)); (2, TAppend sent_commit)].

(** Node 2 crashes and starts again; node 3 elects it. *)
Definition crash (C : cluster) : option cluster :=
  c ← rc_shells C !! 2;
  let s := MemSled.reopen (ln_store (sh_node c)) in
  let '(r, f) := Lacto.new (MemSled.reopen (fs_db (sh_fsm c))) in
  match r with
  | Ok _ =>
      let '(o, f') := boot_shell (mkIdentity "cluster" 2) (calculate_thresholds RaftConfig_default) tt s f in
      Some (mkRC (<[2 := default (down s f' c) o]> (rc_shells C)) (rc_issued C))
  | Err _ => None
  end.
Definition succession : list (NodeId * task) :=
  [(2, TPreVoteWon); (3, TVote (mkCampaignParams 2 2 2 1));
   (2, TVoteReply (mkVoteReply 3 2 2 (RequestVoteResponse_new 2 true)))].

(** ** The states of the run *)
Definition default_shell : Shell := begins 0.
Definition shell_of (C : cluster) (id : NodeId) : Shell := default default_shell (rc_shells C !! id).
Lemma shell_there C id : bool_decide (is_Some (rc_shells C !! id)) = true → rc_shells C !! id = Some (shell_of C id).
Proof. intros [c Hc]%bool_decide_eq_true. unfold shell_of. by rewrite Hc. Qed.
Definition elected : cluster := default C0 (play C0 election).
Definition committed : cluster := default C0 (play elected (proposals ++ replication)).
Definition informed : cluster := default C0 (play committed commitment).
Definition restarted : cluster := default C0 (crash informed).
Definition succeeded : cluster := default C0 (play restarted succession).

(** The same run, with the state after the first proposal. *)
Definition proposer : Shell := (handle_propose first (shell_of elected 1)).2.
Definition accepted : cluster := mkRC (<[1 := proposer]> (rc_shells elected)) (rc_issued elected).
Definition settled : cluster := default C0 (play accepted (drop 1 proposals ++ replication)).
Definition told : cluster := default C0 (play settled commitment).
Definition resumed : cluster := default C0 (crash told).

Lemma play_default C script :
  is_Some (play C script) → rtc (rcstep members lacto_reopened) C (default C0 (play C script)).
Proof. intros [C' HC']. rewrite HC'. by apply (play_steps _ script). Qed.
Lemma crash_step C C' : crash C = Some C' → rcstep members lacto_reopened C C'.
Proof.
  unfold crash. destruct (rc_shells C !! 2) as [c|] eqn:Hc; [|done]. cbn.
  destruct (Lacto.new _) as [r f] eqn:Hnew. destruct r as [[]|]; [|done].
  destruct (boot_shell _ _ _ _ _) as [o f'] eqn:Hboot. intros [= <-].
  eapply (RC_restart _ _ C 2 c _ _ (mkIdentity "cluster" 2));
    [done|apply MemSled.reopen_reopened| |done|exact Hboot].
  eexists. split; [apply MemSled.reopen_reopened|exact Hnew].
Qed.

Lemma elected_run : rtc (rcstep members lacto_reopened) C0 elected.
Proof. apply play_default, (bool_decide_unpack _). by vm_compute. Qed.
Lemma proposer_run : handle_propose first (shell_of elected 1) = (Ok (Ok 1), proposer).
Proof. unfold proposer. apply run_result. by vm_compute. Qed.
Lemma settled_run : rtc (rcstep members lacto_reopened) accepted settled.
Proof. apply play_default, (bool_decide_unpack _). by vm_compute. Qed.
Lemma told_run : rtc (rcstep members lacto_reopened) settled told.
Proof. apply play_default, (bool_decide_unpack _). by vm_compute. Qed.
Lemma committed_run : rtc (rcstep members lacto_reopened) elected committed.
Proof. apply play_default, (bool_decide_unpack _). by vm_compute. Qed.
Lemma informed_run : rtc (rcstep members lacto_reopened) committed informed.
Proof. apply play_default, (bool_decide_unpack _). by vm_compute. Qed.
Lemma crash_default C : is_Some (crash C) → rtc (rcstep members lacto_reopened) C (default C0 (crash C)).
Proof. intros [C' HC']. rewrite HC'. by apply rtc_once, crash_step. Qed.
Lemma restarted_run : rtc (rcstep members lacto_reopened) informed restarted.
Proof. apply crash_default, (bool_decide_unpack _). by vm_compute. Qed.
Lemma resumed_run : rtc (rcstep members lacto_reopened) told resumed.
Proof. apply crash_default, (bool_decide_unpack _). by vm_compute. Qed.
Lemma succeeded_run : rtc (rcstep members lacto_reopened) restarted succeeded.
Proof. apply play_default, (bool_decide_unpack _). by vm_compute. Qed.
Lemma C0_committed : rtc (rcstep members lacto_reopened) C0 committed.
Proof. etrans; [apply elected_run|apply committed_run]. Qed.
Lemma committed_succeeded : rtc (rcstep members lacto_reopened) committed succeeded.
Proof. etrans; [apply informed_run|]. etrans; [apply restarted_run|apply succeeded_run]. Qed.

Lemma begins_shells id c : rc_shells C0 !! id = Some c → (id = 1 ∨ id = 2 ∨ id = 3) ∧ c = begins id.
Proof.
  unfold C0. cbn [rc_shells]. rewrite !lookup_insert_Some, lookup_singleton_Some. naive_solver.
Qed.
Lemma start_initial : rc_initial members C0.
Proof.
  split; [intros id c Hc; apply begins_shells in Hc as [Hid ->]..|done].
  - by destruct Hid as [-> | [-> | ->]]; (split; [set_solver|done]).
  - by eexists.
  - exists empty_view. split; [split; [apply empty_repr|apply empty_durable]|done].
Qed.
Lemma C0_ledgers : fresh_ledgers C0.
Proof.
  intros id c Hc. apply begins_shells in Hc as [_ ->]. split_and!; [done|apply empty_fsm_repr..].
Qed.
Lemma committed_reachable : rc_reachable members lacto_reopened committed.
Proof. exists C0. split; [apply start_initial|apply C0_committed]. Qed.
End Play.
Import Play.

Definition entry_at (C : cluster) (id : NodeId) (i : LogIndex) : option LogEntry :=
  default None (ok (read_entry i (ln_store (sh_node (shell_of C id))))).

(** A node is there, or a value of the run is computed. *)
Ltac there := lazymatch goal with |- rc_shells _ !! _ = Some _ => apply shell_there | _ => idtac end; vm_compute.

(** Nodes 1 and 2 hold the same second entry, so the same first one. *)
Lemma log_matching_witness : entry_at committed 1 1 = entry_at committed 2 1.
Proof.
  apply (log_matching members lacto_reopened committed 1 2 (shell_of committed 1) (shell_of committed 2) 2
    (LogEntry_new 2 1 second) (LogEntry_new 2 1 second) 1); [apply committed_reachable|by there..].
Defined.

(** What node 1 has committed, node 2 commits later. *)
Lemma committed_entries_agree_witness :
  entry_at committed 1 2 = entry_at informed 2 2 ∧ is_Some (entry_at committed 1 2).
Proof.
  apply (committed_entries_agree members lacto_reopened committed informed 1 2
    (shell_of committed 1) (shell_of informed 2) 2 2 2);
    [apply committed_reachable|apply informed_run|by there..].
Defined.

(** Node 2 leads in term 2 with what node 1 committed in term 1. *)
Lemma leader_completeness_witness :
  entry_at committed 1 2 = entry_at succeeded 2 2 ∧ is_Some (entry_at succeeded 2 2).
Proof.
  destruct (ln_state (sh_node (shell_of succeeded 2))) as [| | |m|] eqn:Hst; [by vm_compute in Hst..| |by vm_compute in Hst].
  apply (leader_completeness members lacto_reopened committed succeeded 1 2
    (shell_of committed 1) (shell_of succeeded 2) 2 m 1 2 2);
    [apply committed_reachable|apply committed_succeeded|by there|by there|by there|exact Hst|by there..].
Defined.

Lemma settled_leads : ∃ m, ln_state (sh_node (shell_of settled 1)) = RS_Leader m ∧ rn_last_committed m = 2.
Proof.
  assert (role_committed (ln_state (sh_node (shell_of settled 1))) = Some 2) as Hc by (by vm_compute).
  destruct (ln_state (sh_node (shell_of settled 1))) as [| | |m|] eqn:Hst; [by vm_compute in Hst..| |by vm_compute in Hst].
  exists m. split; [done|]. by injection Hc.
Qed.
(** Node 1 accepts at index 1 and commits; node 2 holds the bytes. *)
Lemma acknowledged_mutation_lasts_witness :
  ∃ e, entry_at told 2 1 = Some e ∧ le_data e = first ∧ le_term e = 1.
Proof.
  destruct settled_leads as (m & Hst & Hm).
  apply (acknowledged_mutation_lasts members lacto_reopened elected settled told 1 (shell_of elected 1)
    proposer (shell_of settled 1) m 1 1 first 2 (shell_of told 2) 2);
    [exists C0; split; [apply start_initial|apply elected_run]|by there|by apply (bool_decide_unpack _); vm_compute
    |apply proposer_run|by vm_compute|apply settled_run|by there|exact Hst|by there|by rewrite Hm
    |apply told_run|by there..].
Defined.

(** Node 2 restarts with both mutations in its ledger. *)
Lemma restarted_after_settled : rtc (rcstep members lacto_reopened) settled resumed.
Proof. etrans; [apply told_run|apply resumed_run]. Qed.
Lemma acknowledged_mutation_applied_witness :
  ∃ ms w, holds (sh_fsm (shell_of resumed 2)) w ∧ fsm_replay ms empty_fsm = Ok w ∧ N.of_nat (length ms) = 2 ∧
    ms !! 0%nat = Some (milk 1 "1000" 50) ∧ 1 ≤ last_seen w alice ∧
    ∀ client, gap_free ms client (last_seen w client).
Proof.
  destruct settled_leads as (m & Hst & Hm).
  apply (acknowledged_mutation_applied members C0 elected settled resumed 1 (shell_of elected 1)
    proposer (shell_of settled 1) m 1 1 (milk 1 "1000" 50) 2 (shell_of resumed 2) 2);
    [apply mutations_typed|apply start_initial|apply C0_ledgers|apply elected_run|by there
    |apply (bool_decide_unpack _); by vm_compute|apply (bool_decide_unpack _); by vm_compute
    |apply proposer_run|by vm_compute|apply settled_run|by there|exact Hst|by there|by rewrite Hm
    |apply restarted_after_settled|by there..].
Defined.

(** Node 1 has applied two entries; node 2 has, after its crash. *)
Lemma replicated_ledgers_agree_witness :
  ∃ w, holds (sh_fsm (shell_of committed 1)) w ∧ holds (sh_fsm (shell_of restarted 2)) w ∧ fv_applied w = 2.
Proof.
  apply (replicated_ledgers_agree members C0 committed restarted 1 2 (shell_of committed 1) (shell_of restarted 2) 2);
    [apply mutations_typed|apply start_initial|apply C0_ledgers|apply C0_committed
    |etrans; [apply informed_run|apply restarted_run]|by there..].
Defined.

(** Node 1 has asked for votes and node 2 has answered: the campaign that
    gets the answer makes node 1 the leader, in a reachable cluster. *)
Definition voted : cluster := default C0 (play C0 (take 2 election)).
Definition granted : RequestVoteResponse := RequestVoteResponse_new 1 true.
Definition answered (C : cluster) : Prop := IVote (mkVoteReply 2 1 1 granted) ∈ rc_issued C.
Definition peer_map : PeerManager := mkPeerManager (mkIdentity "cluster" 1) {[2 := "http://n2"; 3 := "http://n3"]}.
Definition campaign_run : Routine (S:=DB) (G:=unit) (F:=LactoStore DB) :=
  R_Election peer_map campaign [mkArrival Datatypes.id 3 (Err (mkStatus C_Unavailable "down"));
                                mkArrival Datatypes.id 2 (Ok granted)] Datatypes.id.
Definition campaigned : Shell := (run_routine campaign_run (shell_of voted 1)).2.

Lemma voted_run : rtc (rcstep members lacto_reopened) C0 voted.
Proof. apply play_default, (bool_decide_unpack _). by vm_compute. Qed.
Lemma rounds_are_cluster_runs_witness :
  (∃ C', rc_reachable members lacto_reopened C' ∧ rc_shells C' !! 1 = Some campaigned) ∧
  cp_role (sh_progress campaigned) = NR_Leader.
Proof.
  split; [|by vm_compute].
  destruct (rounds_are_cluster_runs members lacto_reopened 1 answered campaign_run voted (shell_of voted 1)
    (run_routine campaign_run (shell_of voted 1)).1 campaigned) as (C' & _ & Hr & Hc).
  - apply stable_issued.
  - exists C0. split; [apply start_initial|apply voted_run].
  - by there.
  - apply (bool_decide_unpack _). by vm_compute.
  - split_and!; [by vm_compute| |].
    + repeat constructor; intros C c r c' Hc Hi [= <- <-]; exists C; (split_and!; [done|done|]);
        intros x _; (split; [done|]); [by intros ?|by intros y [= <-]].
    + intros C c r c' Hc Hi [= <- <-]. by exists C.
  - apply surjective_pairing.
  - by exists C'.
Defined.
